(* ===== verification/_CoqProject ===== *)
-Q . S2P
Prelude.v
ConcurrentList.v
ConcurrentMap.v
ConcurrentVector.v
TraceTime.v
ArgsParser.v
TraceModel.v
TraceStorage.v
StorageSafety.v
StorageSpec.v
StorageCycle.v
Perfetto.v
SuspensionPlot.v
PlotSpec.v
PlotProps.v
PlotReader.v
PlotReach.v
PlotContent.v
Jvm.v
Memory.v
Unwind.v
UnwindSpec.v
PointerValidation.v
VmStructs.v
CodeCache.v
CodeCacheSpec.v
Sampling.v
SamplingInv.v
SamplingLive.v
Profiler.v
ProfilerSafety.v
ProfilerHandlers.v
ProfilerTheorems.v
SampledTraces.v
SampleToFile.v
ProfilerTurn.v
Jni.v
Instrumentation.v
InstrumentationSpec.v
Agent.v
AgentSpec.v
Interleaving.v
StorageThreads.v
StorageMethods.v
StorageParallel.v
StorageRaces.v
PlotThreads.v
ProfilerThreads.v
ProfilerContent.v
Marking.v
HandlersThreads.v
HandlersParallel.v
TurnThreads.v
HandlersTogether.v
CleanerCycles.v
AgentThreads.v
