(* ===== verification/Prelude.v ===== *)
(** * Kotlin tracer: a verification of the agent

    The program is a JVMTI agent that traces one method of a Kotlin
    application.  The agent instruments the method and the coroutine debug
    probes; the instrumented code reports the start and the end of traces and
    the life of coroutines; a profiler thread samples the threads that run a
    trace; and a trace that takes longer than a threshold is written to a
    Perfetto file, with its coroutines, their suspensions, samples and running
    times, and the garbage collections.  Sources below are relative to
    src/src/main/cpp.

    ** Parts and files

    - [Prelude]: integers of a given width, the monad of the model, heaps of
      shared objects, lenses, the weakest-precondition rules [wp], interleaving
      of threads ([tstep]), tactics and hints.
    - [ConcurrentList], [ConcurrentMap], [ConcurrentVector]
      (concurrentCollections/): one definition per method; a critical section
      is one atomic action, so a method that takes its lock twice is two.
    - [TraceTime] (trace/traceTime.hpp and .cpp): times at 64 bits; the steady
      clock is the class [SteadyClock].
    - [ArgsParser] (utils/argsParser.cpp, profiler/model/args.hpp): the options.
    - [TraceModel] (profiler/model/trace.hpp, asyncTrace.hpp): the records.
    - [TraceStorage] (trace/traceStorage.cpp): every method, the cleaner.
      [StorageSafety] has its invariant, [StorageSpec] the abstract storage and
      the refinement, [StorageCycle] the cleaner's cycle and the collections.
    - [Perfetto]: the accessors of the generated messages that the plot uses.
      [SuspensionPlot] (utils/suspensionPlot.cpp): the plot.  [PlotSpec] is the
      plot as a function of what the storage holds, [PlotProps] its
      termination, [PlotReader] the conventions of the file format,
      [PlotReach] which coroutines are on it, [PlotContent] what is shown.
    - [Jvm] (vm/jvm.cpp): the thread registry.  [Memory]: the memory of the
      process as bytes, and loops over it.  [VmStructs] (vm/vmStructs.cpp,
      vm/jvm.cpp): HotSpot's exported tables.  [PointerValidation]
      (utils/pointerValidation.cpp).  [CodeCache] (vm/jvmCodeCache.h and .cpp):
      Java frames and method identifiers, with [CodeCacheSpec].
    - [Unwind] (profiler/unwind/): the four unwinders, with [UnwindSpec]; their
      view of the JVM is the class [CodeCacheAPI], which [CodeCache] implements.
    - [Sampling] (profiler/profiler.cpp: [startProfiler], [signal_action],
      [stop]): the profiler thread and the signal handlers as a step relation;
      [SamplingInv] its invariant, [SamplingLive] its progress.
    - [Profiler] (profiler/profiler.cpp): the handlers the application calls,
      the processing of samples, resource usage on both platforms.
      [ProfilerSafety], [ProfilerHandlers] and [ProfilerTheorems] have the
      invariant, the rules and the theorems.
    - The parts together: [SampledTraces] (unwinders, sampling and processing),
      [SampleToFile] (processing, the end of a trace and the plot) and
      [ProfilerTurn] (the loop of the profiler thread: registry, the signal
      handler with its unwinder, storage, processing, sleep).
    - [Jni]: JNI calls and pending exceptions.  [Instrumentation]
      (profiler/instrumentation.cpp, utils/jarLoader.cpp), with
      [InstrumentationSpec].  [Agent] (agent.cpp, agent.hpp,
      jni/jni_instrumentator.cpp, the constructor of vm/jvm.cpp): loading,
      callbacks, entry points, unloading and exit, with [AgentSpec].
    - In parallel.  [Interleaving] has the rely-guarantee logic: a thread owns
      rights, [rgs p w s Q] says that [p] is safe with the rights [w] whatever
      the others do with theirs, and a pool of such threads is safe.
      [StorageThreads] instantiates it for the storage, [StorageMethods] proves
      a rule per method, [StorageParallel] the theorem on threads that call
      them, [StorageRaces] what happens without its condition.  [PlotThreads] is the plot while the storage changes.
      [ProfilerThreads] and [ProfilerContent] lift the rights and the invariant
      to the profiler, [Marking] says how the set of keys that are being cleaned
      starts and ends, [HandlersThreads] and [HandlersParallel] prove a rule per
      handler, [TurnThreads] one for the profiler thread, [HandlersTogether] has
      what a thread has to know before each call and the theorem on all threads,
      [CleanerCycles] repeats it from one marking to the next.  [AgentThreads] is
      the machine of agent.cpp: threads, the shared mutex, the entry points, the
      unloading.

    ** How the model works

    A function that touches shared state is a [prog S A]: a sequence of atomic
    actions on [S], each of which returns, throws an [exn] or has no outcome
    ([Undef]): a null or dangling pointer, a signed overflow, a read outside an
    array or outside mapped memory, or a wait for something no thread will do.
    An action also says in which states it writes although its lock does not
    exclude the other readers ([operator[]] on an absent key under a shared
    lock); [races_in] says that a thread is about to do so.  [run] executes a
    program alone; [tstep] interleaves several; [wp p s Q] says that [p] from
    [s] returns, with a result and a state that satisfy [Q], and so that it
    neither throws nor is undefined.  Objects behind [shared_ptr] live in a [heap] of the state and
    are reached by address, so sharing is as in the code.  [thread_local]
    variables are a map over threads.  JVMTI, JNI, libunwind, the symbolizer,
    the clock, [getrusage], [thread_info], the hash functions and what a signal
    finds ([Signals]) are classes of operations; what the theorems need of them
    is a class of laws next to it ([SteadyClock], [UsageLaws], [JNILaws],
    [CodeCacheLaws], [ClassLaws]), and the witnesses instantiate them.

    ** What is shown

    - Storage: every method keeps the invariant (no null, no dangling and no
      shared list) and returns; it refines an abstract storage of maps and
      lists; a cleaner's cycle removes exactly what was marked.
    - In parallel: any number of threads may use the storage, and run the
      handlers, with the profiler thread and the cleaner, when each trace
      belongs to one thread and no call concerns a key that is being cleaned:
      nothing throws, is undefined or inserts a key under a shared lock, nothing
      that was added is lost, and in every execution all of them return ([inevitably]).  When the marked keys
      have been erased no mark is left, so that this holds from one marking to
      the next ([cleaner_cycles_safe]).  Without the last condition the races
      with the cleaner are exhibited ([cleaner_races], [add_processed_race]).
    - The lock of agent.cpp: entry points and unloading on any threads are safe
      and all return, and unloading destroys the profiler when no thread is
      in it; the detached threads, which do not take the lock, can outlive it
      ([cleaner_outlives_profiler]).
    - Plot: it shows what was recorded and nothing else, exactly the reachable
      coroutines, in a file its reader accepts; the loop ends on every graph of
      children, cycles included.
    - Handlers: on a well-formed profiler each returns and keeps it
      well-formed; a trace round trip leaves no ongoing trace and writes one
      file when it took longer than the threshold; suspensions are opened and
      closed one at a time; running time is charged once per resumption; the
      processing of samples ends, in order.
    - Sampling: in every interleaving the handler and the profiler thread never
      touch a trace the other owns, only complete traces are stored, and a
      sample that was started completes while the profiler is active; [stop]
      at the wrong moment blocks the profiler thread.  A turn of the profiler
      thread takes exactly one sample of each thread that runs a traced call,
      under the coroutine the thread runs, processes all, and sleeps for the rest
      of the interval.
    - Unwinding: no read outside the stack, no write outside the array, and the
      frames recorded are those of the chain of frame records (AArch64), up to
      a Java frame without a method, or of the cursor (x86-64).  With the real
      code cache the same holds when the frames of the interpreter hold a method
      or a word the validation rejects; it does not when the word designates
      something else ([unreadable_method_faults]).
    - Together: on every platform what the handlers record can be processed
      when JVMTI knows the methods in it, and a sample of a trace is in its file, under the names JVMTI and the
      symbolizer give to its frames.
    - HotSpot: the constructor makes its subscriptions in order, whatever JVMTI
      answers, and reads every offset from the first matching row of the tables; [isJavaFrame] and [getJMethodId] answer what the code heaps
      say.
    - Options: the parser splits what is rendered, ends on every string, and
      gives options the agent can use.
    - Agent and instrumentation: loading and unloading, initialisation that
      starts the profiler last, which classes are rewritten and that the Java
      side gets exactly their bytes; the double destruction of the profiler at
      exit.

    ** Fuel

    Loops that are not structural carry fuel.  The parser has one turn more
    than the string has characters, and [parse_terminates] shows that this is
    enough.  The unwinder's loop has one turn more than the array has entries.
    The plot's loop, the processing of samples and the loops over memory take
    their fuel as an argument, and their theorems say that enough fuel exists
    ([write_perfetto_terminates], [handlers_safe]), how much it is
    ([processTraces_drains]), or work for tables of any length
    ([resolve_structs_reads_table]; the loops of [Memory] run up to [2^64]
    turns, the number of addresses).  The theorems on threads hold for every
    number of turns the loops are given: a loop that is cut short only makes
    fewer steps.

    ** Not modelled

    The encoding of Perfetto messages and the output stream (generated code and
    the standard library); addr2Symbol and the Java side (separate
    repositories); logging, which is empty in a release build; that the threads
    sleep; [sigaction] and [dlopen], which have no effect on the agent's state;
    weak memory (atomics are sequentially consistent), and data races on plain
    members of shared objects, each access to which is an atomic action here;
    declarations that
    nothing uses ([ProcessedTraceInfo], [Level], [TraceCount], the types of
    [AsyncGetCallTrace]) and [ConcurrentCleanableMap::find], which cannot be
    instantiated.  In [AgentThreads] the callbacks that take no lock and do not
    concern the profiler ([ClassPrepare], [ClassFileLoadHook]), and [VMInit],
    which comes before them, are not among the calls.  A thread that waits for the
    lock makes no step.  The signal handlers are interleaved with the profiler
    thread in [Sampling] and are one action of it elsewhere, where the memory of
    the process and the context of the interrupted thread are those of that
    moment.  Marking for cleaning is a step between the runs that the theorems on
    handlers describe ([Marking], [CleanerCycles]), at a moment when no thread
    uses a key the storage has: the code marks whenever the cleaner wakes up, and
    a coroutine that lives across the marking is exactly the case in which
    [cleaner_races] shows the handlers to be unsafe, so that no stronger theorem
    holds of it. *)

From Stdlib Require Import ZArith Lia.
From stdpp Require Import base gmap list strings numbers.

#[export] Set Default Goal Selector "!".

(** ** Machine integers *)

Declare Scope kt_scope.
Delimit Scope kt_scope with kt.
Local Open Scope Z_scope.

(** Conversion of a mathematical integer to an unsigned or a two's complement
    type of [w] bits: what [static_cast] and the modular operations do. *)
Definition wrapu (w x : Z) : Z := x mod 2 ^ w.
Definition wraps (w x : Z) : Z := (x + 2 ^ (w - 1)) mod 2 ^ w - 2 ^ (w - 1).
Definition in_u (w x : Z) : Prop := 0 <= x < 2 ^ w.
Definition in_s (w x : Z) : Prop := - 2 ^ (w - 1) <= x < 2 ^ (w - 1).

Notation "'u64'" := (wrapu 64) (at level 0) : kt_scope.
Notation "'s64'" := (wraps 64) (at level 0) : kt_scope.
Notation "'s32'" := (wraps 32) (at level 0) : kt_scope.
Local Open Scope kt_scope.

#[global] Instance in_u_dec w x : Decision (in_u w x).
Proof. unfold in_u; apply _. Defined.
#[global] Instance in_s_dec w x : Decision (in_s w x).
Proof. unfold in_s; apply _. Defined.

(** ** Effects

    A C++ function is a program over the state it shares with other threads.
    [Atomic c f k] is one indivisible action: a critical section guarded by one
    of the source's mutexes, or one access to an atomic variable.  An action
    yields a value, throws a C++ exception, or has no outcome: its behaviour is
    undefined, or it waits for something that no thread will do.  [c] holds in
    the states where the action writes although its lock does not exclude other
    threads: alone, it does what [f] says; together with others it is a data
    race. *)

Inductive exn :=
  | Runtime_error (what : string)
  | Out_of_range (what : string)
  | Invalid_argument (what : string)
  | Length_error (what : string).

(** A pure function that may throw. *)
#[global] Instance sum_ret {E} : MRet (sum E) := fun A a => inr a.
#[global] Instance sum_bind {E} : MBind (sum E) := fun A B g r =>
  match r with inl e => inl e | inr a => g a end.

Inductive res (S A : Type) :=
  | Val (a : A) (s : S)
  | Exc (e : exn) (s : S)
  | Undef (what : string).
Arguments Val {S A} _ _.
Arguments Exc {S A} _ _.
Arguments Undef {S A} _.

Inductive prog (S A : Type) : Type :=
  | Ret (a : A)
  | Atomic (B : Type) (c : S -> bool) (f : S -> res S B) (k : B -> prog S A).
Arguments Ret {S A} _.
Arguments Atomic {S A B} _ _ _.

Fixpoint prog_bind {S A B} (g : A -> prog S B) (p : prog S A) : prog S B :=
  match p with
  | Ret a => g a
  | Atomic c f k => Atomic c f (fun b => prog_bind g (k b))
  end.

#[global] Instance prog_ret {S} : MRet (prog S) := fun A a => Ret a.
#[global] Instance prog_mbind {S} : MBind (prog S) := fun A B => prog_bind.

(** Undisturbed execution: every action of the program in a row. *)
Fixpoint run {S A} (p : prog S A) (s : S) : res S A :=
  match p with
  | Ret a => Val a s
  | Atomic _ f k =>
      match f s with
      | Val b s' => run (k b) s'
      | Exc e s' => Exc e s'
      | Undef w => Undef w
      end
  end.

Definition act {S A} (f : S -> res S A) : prog S A := Atomic (fun _ => false) f Ret.
Definition reads {S A} (f : S -> A) : prog S A := act (fun s => Val (f s) s).
Definition modify {S} (f : S -> S) : prog S unit := act (fun s => Val tt (f s)).
Definition throw {S A} (e : exn) : prog S A := act (fun s => Exc e s).
Definition undef {S A} (w : string) : prog S A := act (fun _ => Undef w).
Definition wait_for_ever {S A} : prog S A := act (fun _ => Undef "waits for ever").

(** Signed arithmetic of [w] bits: overflow is undefined. *)
Definition signed {S} (w x : Z) : prog S Z :=
  if bool_decide (in_s w x) then mret x else undef "signed integer overflow".

Definition res_bind {S A B} (r : res S A) (g : A -> S -> res S B) : res S B :=
  match r with
  | Val a s => g a s
  | Exc e s => Exc e s
  | Undef w => Undef w
  end.

Lemma run_bind {S A B} (p : prog S A) (g : A -> prog S B) s :
  run (p ≫= g) s = res_bind (run p s) (fun a => run (g a)).
Proof.
  unfold mbind, prog_mbind. revert s; induction p as [a|C c f k IH]; intros s; simpl; [done|].
  destruct (f s); simpl; auto.
Qed.

Lemma run_ret {S A} (a : A) (s : S) : run (mret a) s = Val a s.
Proof. done. Qed.

Lemma prog_bind_assoc {S A B C} (p : prog S A) (f : A -> prog S B) (g : B -> prog S C) s :
  run ((p ≫= f) ≫= g) s = run (p ≫= (fun a => f a ≫= g)) s.
Proof. rewrite !run_bind. destruct (run p s); simpl; [|done..]. by rewrite run_bind. Qed.

Fixpoint for_each {S A} (l : list A) (f : A -> prog S unit) : prog S unit :=
  match l with
  | [] => mret tt
  | x :: l => f x;; for_each l f
  end.

(** ** Views of a component inside a larger state *)

Record Lens (S T : Type) := {
  lget : S -> T;
  lset : T -> S -> S;
  lget_lset : forall t s, lget (lset t s) = t;
  lset_lget : forall s, lset (lget s) s = s;
  lset_lset : forall t t' s, lset t (lset t' s) = lset t s;
}.
Arguments lget {S T} _ _.
Arguments lset {S T} _ _ _.
Arguments lget_lset {S T} _ _ _.
Arguments lset_lget {S T} _ _.
Arguments lset_lset {S T} _ _ _ _.

(** The lens of a record field, from its projection and its setter. *)
Abbreviation field_lens g f :=
  (Build_Lens _ _ g f ltac:(by intros ? []) ltac:(by intros []) ltac:(by intros ? ? []))
  (only parsing).

Definition res_in {S T A} (L : Lens S T) (s : S) (r : res T A) : res S A :=
  match r with
  | Val a t => Val a (lset L t s)
  | Exc e t => Exc e (lset L t s)
  | Undef w => Undef w
  end.

(** A program over a component, run inside the larger state. *)
Fixpoint zoom {S T A} (L : Lens S T) (p : prog T A) : prog S A :=
  match p with
  | Ret a => Ret a
  | Atomic c f k =>
      Atomic (fun s => c (lget L s)) (fun s => res_in L s (f (lget L s))) (fun b => zoom L (k b))
  end.

Lemma run_zoom {S T A} (L : Lens S T) (p : prog T A) s :
  run (zoom L p) s = res_in L s (run p (lget L s)).
Proof.
  revert s; induction p as [a|C c f k IH]; intros s; simpl.
  - by rewrite lset_lget.
  - destruct (f (lget L s)) as [b t|e t|w]; simpl; [|done|done].
    rewrite IH, lget_lset.
    destruct (run (k b) t); simpl; by rewrite ?lset_lset.
Qed.

(** A component of a component. *)
Definition lens_comp {S T U} (L : Lens S T) (M : Lens T U) : Lens S U.
Proof.
  refine {| lget s := lget M (lget L s); lset u s := lset L (lset M u (lget L s)) s |}.
  - intros. by rewrite !lget_lset.
  - intros. by rewrite !lset_lget.
  - intros. by rewrite lget_lset, !lset_lset.
Defined.

(** ** Shared objects

    A [std::shared_ptr] is a location of a heap, or [None] for [nullptr]: two
    owners of one object see each other's writes.  An object nobody owns any
    longer is unreachable, so the heap never needs to shrink. *)

Abbreviation ptr := (option nat).

Record heap (A : Type) := Heap { cells : gmap nat A; next : nat }.
Arguments Heap {A} _ _.
Arguments cells {A} _.
Arguments next {A} _.

Definition heap_empty {A} : heap A := Heap ∅ 0.
Definition heap_wf {A} (h : heap A) : Prop :=
  forall l, (next h <= l)%nat -> cells h !! l = None.
Definition valid {A} (h : heap A) (l : nat) : Prop := is_Some (cells h !! l).

#[global] Instance valid_dec {A} (h : heap A) l : Decision (valid h l).
Proof. unfold valid. destruct (cells h !! l) eqn:E; [left; eauto|right; by intros [? ?]]. Defined.

(** [std::make_shared]. *)
Definition halloc {A} (a : A) : prog (heap A) nat :=
  act (fun h => Val (next h) (Heap (<[next h := a]> (cells h)) (S (next h)))).

(** [p->...]: an access through a pointer is undefined on [nullptr]. *)
Definition hact {A B} (p : ptr) (f : A -> res A B) (h : heap A) : res (heap A) B :=
  match p ≫= (fun l => (fun a => (l, a)) <$> cells h !! l) with
  | None => Undef "null pointer dereference"
  | Some (l, a) =>
      match f a with
      | Val b a' => Val b (Heap (<[l := a']> (cells h)) (next h))
      | Exc e a' => Exc e (Heap (<[l := a']> (cells h)) (next h))
      | Undef w => Undef w
      end
  end.
Arguments hact {A B} _ _ _ /.

Definition hwith {A B} (p : ptr) (f : A -> res A B) : prog (heap A) B := act (hact p f).

Definition hread {A B} (p : ptr) (f : A -> B) : prog (heap A) B :=
  hwith p (fun a => Val (f a) a).
Definition hmodify {A} (p : ptr) (f : A -> A) : prog (heap A) unit :=
  hwith p (fun a => Val tt (f a)).

(** A program over the object a pointer designates, such as a call of a
    method that locks several times. *)
Fixpoint at_ptr {A B} (p : ptr) (q : prog A B) : prog (heap A) B :=
  match q with
  | Ret b => Ret b
  | Atomic c f k =>
      Atomic (fun h => match p ≫= (fun l => cells h !! l) with Some a => c a | None => false end)
        (hact p f) (fun b => at_ptr p (k b))
  end.

(** Two heaps agree up to the update of one cell. *)
Definition hput {A} (l : nat) (a : A) (h : heap A) : heap A :=
  Heap (<[l := a]> (cells h)) (next h).

Lemma heap_wf_empty {A} : heap_wf (@heap_empty A).
Proof. intros l _. apply lookup_empty. Qed.

Lemma heap_wf_alloc {A} (h : heap A) a :
  heap_wf h -> heap_wf (Heap (<[next h := a]> (cells h)) (S (next h))).
Proof. intros Hwf l Hl; simpl in *. rewrite lookup_insert_ne by lia. apply Hwf; lia. Qed.

Lemma heap_wf_put {A} (h : heap A) l a : heap_wf h -> valid h l -> heap_wf (hput l a h).
Proof.
  intros Hwf [b Hb] l' Hl'; simpl in *.
  rewrite lookup_insert_ne; [by apply Hwf|]. intros ->. rewrite Hwf in Hb; [done|lia].
Qed.

Lemma heap_fresh {A} (h : heap A) : heap_wf h -> cells h !! next h = None.
Proof. intros Hwf. apply Hwf. lia. Qed.

Lemma hput_id {A} (h : heap A) l a : cells h !! l = Some a -> hput l a h = h.
Proof. intros H. destruct h; unfold hput; simpl in *. by rewrite insert_id. Qed.

Lemma hput_hput {A} (h : heap A) l a a' : hput l a (hput l a' h) = hput l a h.
Proof. unfold hput; simpl. by rewrite insert_insert_eq. Qed.

(** Allocation and update keep the objects that are there. *)
Lemma valid_grow {A} (h : heap A) l a : valid h l -> valid (Heap (<[next h := a]> (cells h)) (S (next h))) l.
Proof. intros [b Hb]. unfold valid; simpl. rewrite lookup_insert. case_decide; eauto. Qed.

Lemma valid_put {A} (h : heap A) l l' a : valid h l -> valid (hput l' a h) l.
Proof. intros [b Hb]. unfold valid; simpl. rewrite lookup_insert. case_decide; eauto. Qed.

Lemma valid_new {A} (h : heap A) a : valid (Heap (<[next h := a]> (cells h)) (S (next h))) (next h).
Proof. unfold valid; simpl. rewrite lookup_insert_eq. eauto. Qed.

Lemma Forall_valid_put {A} (h : heap A) l a ls :
  Forall (valid h) ls -> Forall (valid (hput l a h)) ls.
Proof. apply Forall_impl. intros. by apply valid_put. Qed.

Lemma Forall_valid_grow {A} (h : heap A) a ls :
  Forall (valid h) ls -> Forall (valid (Heap (<[next h := a]> (cells h)) (S (next h)))) ls.
Proof. apply Forall_impl. intros. by apply valid_grow. Qed.

Lemma run_halloc {A} (a : A) h :
  run (halloc a) h = Val (next h) (Heap (<[next h := a]> (cells h)) (S (next h))).
Proof. done. Qed.

Lemma run_hread {A B} l (f : A -> B) h a :
  cells h !! l = Some a -> run (hread (Some l) f) h = Val (f a) h.
Proof.
  intros H; simpl. rewrite H; simpl. pose proof (hput_id h l a H) as E.
  unfold hput in E. by rewrite E.
Qed.

Lemma run_hmodify {A} l (f : A -> A) h a :
  cells h !! l = Some a -> run (hmodify (Some l) f) h = Val tt (hput l (f a) h).
Proof. intros H; simpl. by rewrite H. Qed.

(** The result of an operation on the object in cell [l], seen from the heap. *)
Definition res_at {A B} (l : nat) (h : heap A) (r : res A B) : res (heap A) B :=
  match r with
  | Val b a => Val b (hput l a h)
  | Exc e a => Exc e (hput l a h)
  | Undef w => Undef w
  end.

Lemma run_at_ptr {A B} l (q : prog A B) h a :
  cells h !! l = Some a -> run (at_ptr (Some l) q) h = res_at l h (run q a).
Proof.
  revert h a; induction q as [b|C c f k IH]; intros h a H; simpl.
  - by rewrite (hput_id h l a H).
  - rewrite H; simpl. destruct (f a) as [b a'|e a'|w]; simpl; [|done|done].
    fold (hput l a' h). rewrite (IH b _ a') by apply lookup_insert_eq.
    destruct (run (k b) a'); simpl; by rewrite ?hput_hput.
Qed.

(** ** Weakest preconditions

    [wp p s Q]: from [s], the program [p], undisturbed, neither throws nor has
    undefined behaviour, and its value and final state satisfy [Q]. *)

Definition wp {S A} (p : prog S A) (s : S) (Q : A -> S -> Prop) : Prop :=
  match run p s with Val a s' => Q a s' | _ => False end.

Section wp.
Context {S : Type}.
Implicit Types s : S.

Lemma wp_ret {A} (a : A) s (Q : A -> S -> Prop) : Q a s -> wp (mret a) s Q.
Proof. done. Qed.

Lemma wp_bind {A B} (p : prog S A) (g : A -> prog S B) s Q :
  wp p s (fun a s' => wp (g a) s' Q) -> wp (p ≫= g) s Q.
Proof. unfold wp. rewrite run_bind. by destruct (run p s). Qed.

Lemma wp_mono {A} (p : prog S A) s (Q Q' : A -> S -> Prop) :
  (forall a s', Q a s' -> Q' a s') -> wp p s Q -> wp p s Q'.
Proof. unfold wp. destruct (run p s); eauto. Qed.

Lemma wp_run {A} (p : prog S A) s a s' (Q : A -> S -> Prop) :
  run p s = Val a s' -> Q a s' -> wp p s Q.
Proof. unfold wp. by intros ->. Qed.

Lemma wp_elim {A} (p : prog S A) s Q : wp p s Q -> exists a s', run p s = Val a s' /\ Q a s'.
Proof. unfold wp. destruct (run p s); [eauto|done|done]. Qed.

Lemma wp_and {A} (p : prog S A) s (Q Q' : A -> S -> Prop) :
  wp p s Q -> wp p s Q' -> wp p s (fun a s' => Q a s' /\ Q' a s').
Proof. unfold wp. by destruct (run p s). Qed.

(** A result that is not used. *)
Lemma wp_ignored {A} (p : prog S A) s (Q : S -> Prop) :
  wp (p ≫= fun _ => mret tt) s (fun _ => Q) -> wp p s (fun _ => Q).
Proof. unfold wp. rewrite run_bind. by destruct (run p s). Qed.

Lemma wp_zoom {T A} (L : Lens S T) (p : prog T A) s Q :
  wp p (lget L s) (fun a t => Q a (lset L t s)) -> wp (zoom L p) s Q.
Proof. unfold wp. rewrite run_zoom. by destruct (run p (lget L s)). Qed.

Lemma wp_reads {A} (f : S -> A) s Q : Q (f s) s -> wp (reads f) s Q.
Proof. done. Qed.

Lemma wp_modify (f : S -> S) s Q : Q tt (f s) -> wp (modify f) s Q.
Proof. done. Qed.

Lemma wp_signed w x s (Q : Z -> S -> Prop) : in_s w x -> Q x s -> wp (signed w x) s Q.
Proof. intros Hx HQ. unfold signed. by rewrite bool_decide_eq_true_2. Qed.

Lemma wp_act {A} (f : S -> res S A) s a s' (Q : A -> S -> Prop) :
  f s = Val a s' -> Q a s' -> wp (act f) s Q.
Proof. intros Hf HQ. unfold wp; simpl. by rewrite Hf. Qed.
End wp.

Section wp_heap.
Context {A : Type}.
Implicit Types h : heap A.

Lemma wp_halloc (a : A) h Q :
  Q (next h) (Heap (<[next h := a]> (cells h)) (Datatypes.S (next h))) -> wp (halloc a) h Q.
Proof. done. Qed.

Lemma wp_hread {B} l (f : A -> B) h a Q :
  cells h !! l = Some a -> Q (f a) h -> wp (hread (Some l) f) h Q.
Proof. intros Hl HQ. unfold wp. by rewrite (run_hread l f h a). Qed.

Lemma wp_hmodify l (f : A -> A) h a Q :
  cells h !! l = Some a -> Q tt (hput l (f a) h) -> wp (hmodify (Some l) f) h Q.
Proof. intros Hl HQ. unfold wp. by rewrite (run_hmodify l f h a). Qed.

Lemma wp_at_ptr {B} l (q : prog A B) h a Q :
  cells h !! l = Some a -> wp q a (fun b a' => Q b (hput l a' h)) -> wp (at_ptr (Some l) q) h Q.
Proof. intros Hl. unfold wp. rewrite (run_at_ptr l q h a) by done. by destruct (run q a). Qed.
End wp_heap.

(** ** Programs that keep a part of the state *)

Fixpoint keeps {S A B} (f : S -> B) (p : prog S A) : Prop :=
  match p with
  | Ret _ => True
  | Atomic _ g k => (forall s b s', g s = Val b s' -> f s' = f s) /\ forall b, keeps f (k b)
  end.

Section keeps.
Context {S B : Type} (f : S -> B).

Lemma keeps_ret {A} (a : A) : keeps f (mret a).
Proof. done. Qed.

Lemma keeps_bind {A C} (p : prog S A) (g : A -> prog S C) :
  keeps f p -> (forall a, keeps f (g a)) -> keeps f (p ≫= g).
Proof.
  intros Hp Hg. unfold mbind, prog_mbind. induction p as [a|D c h k IH]; simpl in *; [done|].
  destruct Hp as [Hh Hk]. split; [done|]. intros b. apply IH, Hk.
Qed.

Lemma keeps_zoom {T A} (L : Lens S T) (p : prog T A) :
  (forall t s, f (lset L t s) = f s) -> keeps f (zoom L p).
Proof.
  intros HL. induction p as [a|D c h k IH]; simpl; [done|]. split; [|done].
  intros s b s' Hs. unfold res_in in Hs. destruct (h (lget L s)); simplify_eq. apply HL.
Qed.

(** What a program keeps of a component. *)
Lemma keeps_zoom_in {T A} (L : Lens T S) (p : prog S A) :
  keeps f p -> keeps (fun t => f (lget L t)) (zoom L p).
Proof.
  induction p as [a|D c h k IH]; simpl; [done|]. intros [Hh Hk]. split; [|auto].
  intros s b s' Hs. unfold res_in in Hs. destruct (h (lget L s)) as [x s1| |] eqn:E; simplify_eq.
  rewrite lget_lset. by eapply Hh.
Qed.

Lemma keeps_reads {A} (g : S -> A) : keeps f (reads g).
Proof. simpl. split; [|done]. by intros s b s' [= _ <-]. Qed.

Lemma keeps_signed w x : keeps f (signed w x).
Proof. unfold signed. case_bool_decide; simpl; [done|]. split; [|done]. by intros. Qed.

Lemma keeps_undef {A} w : keeps f (undef (A:=A) w).
Proof. simpl. split; [|done]. by intros. Qed.

Lemma keeps_throw {A} e : keeps f (throw (A:=A) e).
Proof. simpl. split; [|done]. by intros. Qed.

Lemma wp_keeps {A} (p : prog S A) s Q :
  keeps f p -> wp p s Q -> wp p s (fun a s' => Q a s' /\ f s' = f s).
Proof.
  unfold wp. revert s; induction p as [a|D c h k IH]; intros s; simpl; [done|].
  intros [Hh Hk] HQ. destruct (h s) as [b s1|e s1|w] eqn:Hs; [|done|done].
  specialize (IH b s1 (Hk b) HQ). destruct (run (k b) s1) as [a s2| |]; [|done|done].
  destruct IH as [IH1 IH2]. split; [done|]. rewrite IH2. eauto.
Qed.

Lemma keeps_run {A} (p : prog S A) s a s' : keeps f p -> run p s = Val a s' -> f s' = f s.
Proof.
  intros Hk Hr. assert (H : wp p s (fun _ _ => True)) by (unfold wp; by rewrite Hr).
  apply (wp_keeps _ _ _ Hk) in H. unfold wp in H. rewrite Hr in H. apply H.
Qed.
End keeps.

(** ** Interleaving

    Threads share the state and perform their actions one at a time, in any
    order.  A configuration is the shared state and the rest of each thread. *)

Abbreviation config S A := (S * list (prog S A))%type.

(** The next action of a thread, and the rest of the thread after it. *)
Definition pstep {S A} (p : prog S A) (s : S) : option (res S (prog S A)) :=
  match p with
  | Ret _ => None
  | Atomic _ f k =>
      Some match f s with
           | Val b s' => Val (k b) s'
           | Exc e s' => Exc e s'
           | Undef w => Undef w
           end
  end.

Inductive tstep {S A} : config S A -> config S A -> Prop :=
  | tstep_intro s ts i p p' s' :
      ts !! i = Some p -> pstep p s = Some (Val p' s') ->
      tstep (s, ts) (s', <[i := p']> ts).

(** The next action of some thread has undefined behaviour, or throws. *)
Definition undefined_in {S A} (c : config S A) : Prop :=
  exists i p w, c.2 !! i = Some p /\ pstep p c.1 = Some (Undef w).
Definition throws_in {S A} (c : config S A) (e : exn) : Prop :=
  exists i p s', c.2 !! i = Some p /\ pstep p c.1 = Some (Exc e s').

(** The next action of some thread writes without excluding the others. *)
Definition unguarded {S A} (p : prog S A) (s : S) : bool :=
  match p with Ret _ => false | Atomic c _ _ => c s end.
Definition races_in {S A} (c : config S A) : Prop :=
  exists i p, c.2 !! i = Some p /\ unguarded p c.1 = true.

(** Runs the schedule that picks, at each step, the thread of the given index. *)
Fixpoint schedule {S A} (sch : list nat) (c : config S A) : option (config S A) :=
  match sch with
  | [] => Some c
  | i :: sch =>
      match c.2 !! i ≫= (fun p => pstep p c.1) with
      | Some (Val p' s') => schedule sch (s', <[i := p']> c.2)
      | _ => None
      end
  end.

Lemma schedule_sound {S A} sch (c c' : config S A) :
  schedule sch c = Some c' -> rtc tstep c c'.
Proof.
  revert c; induction sch as [|i sch IH]; intros [s ts] H; simpl in *; [by simplify_eq|].
  destruct (ts !! i) as [p|] eqn:Hi; simpl in H; [|done].
  destruct (pstep p s) as [[p' s'|e s'|w]|] eqn:Hf; try done.
  eapply rtc_l; [by eapply tstep_intro|]. by apply IH.
Qed.

(** What the next action of thread [i] does after a schedule, when it does not
    return. *)
Definition outcome {S A} (sch : list nat) (i : nat) (c : config S A) : option (exn + string) :=
  c' ← schedule sch c;
  p ← c'.2 !! i;
  match pstep p c'.1 with
  | Some (Exc e _) => Some (inl e)
  | Some (Undef w) => Some (inr w)
  | _ => None
  end.

Lemma outcome_throws {S A} sch i (c : config S A) e :
  outcome sch i c = Some (inl e) -> exists c', rtc tstep c c' /\ throws_in c' e.
Proof.
  unfold outcome. intros H. destruct (schedule sch c) as [c'|] eqn:Hs; [|done]. simpl in H.
  destruct (c'.2 !! i) as [p|] eqn:Hi; [|done]. simpl in H.
  destruct (pstep p c'.1) as [[]|] eqn:Hp; simplify_eq.
  exists c'. split; [by eapply schedule_sound|]. by repeat eexists.
Qed.

Lemma outcome_undefined {S A} sch i (c : config S A) w :
  outcome sch i c = Some (inr w) -> exists c', rtc tstep c c' /\ undefined_in c'.
Proof.
  unfold outcome. intros H. destruct (schedule sch c) as [c'|] eqn:Hs; [|done]. simpl in H.
  destruct (c'.2 !! i) as [p|] eqn:Hi; [|done]. simpl in H.
  destruct (pstep p c'.1) as [[]|] eqn:Hp; simplify_eq.
  exists c'. split; [by eapply schedule_sound|]. by repeat eexists.
Qed.

(** An invariant of every step holds in every reachable configuration. *)
Lemma tstep_invariant {S A} (I : config S A -> Prop) c c' :
  (forall c1 c2, I c1 -> tstep c1 c2 -> I c2) -> I c -> rtc tstep c c' -> I c'.
Proof. intros Hstep Hc Hr. induction Hr; eauto. Qed.

(** ** Integer lemmas *)

Lemma wrapu_range w x : 0 <= w -> in_u w (wrapu w x).
Proof. intros. apply Z.mod_pos_bound, Z.pow_pos_nonneg; lia. Qed.

Lemma wrapu_small w x : in_u w x -> wrapu w x = x.
Proof. intros H. by apply Z.mod_small. Qed.

Lemma pow2_pred w : 0 < w -> 2 ^ w = 2 * 2 ^ (w - 1).
Proof.
  intros H. replace w with (Z.succ (w - 1)) at 1 by lia. rewrite Z.pow_succ_r by lia. done.
Qed.

Lemma wraps_range w x : 0 < w -> in_s w (wraps w x).
Proof.
  intros H. unfold in_s, wraps.
  pose proof (pow2_pred w H). pose proof (Z.pow_pos_nonneg 2 (w - 1)).
  pose proof (Z.mod_pos_bound (x + 2 ^ (w - 1)) (2 ^ w)). lia.
Qed.

Lemma wraps_small w x : 0 < w -> in_s w x -> wraps w x = x.
Proof.
  intros Hw H. unfold in_s, wraps in *. pose proof (pow2_pred w Hw).
  rewrite Z.mod_small; lia.
Qed.

Lemma wraps_le w x : 0 <= x -> 0 < w -> wraps w x <= x.
Proof.
  intros Hx Hw. unfold wraps. pose proof (Z.pow_pos_nonneg 2 (w - 1)).
  pose proof (Z.mod_le (x + 2 ^ (w - 1)) (2 ^ w)). pose proof (Z.pow_pos_nonneg 2 w). lia.
Qed.

Lemma wraps_add_l w x y : wraps w (wraps w x + y) = wraps w (x + y).
Proof.
  unfold wraps. f_equal.
  replace ((x + 2 ^ (w - 1)) mod 2 ^ w - 2 ^ (w - 1) + y + 2 ^ (w - 1))
    with ((x + 2 ^ (w - 1)) mod 2 ^ w + y) by lia.
  rewrite Zplus_mod_idemp_l. f_equal. lia.
Qed.

(** ** List lemmas *)

Lemma list_find_split {A} (P : A -> bool) l :
  match List.find P l with
  | Some x => exists l1 l2, l = l1 ++ x :: l2 /\ P x = true /\ Forall (fun y => P y = false) l1
  | None => Forall (fun y => P y = false) l
  end.
Proof.
  induction l as [|a l IH]; simpl; [done|].
  destruct (P a) eqn:Ha.
  - by exists [], l.
  - destruct (List.find P l) as [x|].
    + destruct IH as (l1 & l2 & -> & Hx & Hl1). exists (a :: l1), l2. auto.
    + by constructor.
Qed.

Lemma omap_cons {A B} (f : A -> option B) x l :
  omap f (x :: l) = match f x with Some y => y :: omap f l | None => omap f l end.
Proof. done. Qed.

Lemma find_app {A} (P : A -> bool) l1 l2 :
  List.find P (l1 ++ l2) = match List.find P l1 with Some x => Some x | None => List.find P l2 end.
Proof. induction l1 as [|x l1 IH]; simpl; [done|]. by destruct (P x). Qed.

Lemma omap_insert_fresh {A} (m : gmap nat A) (l : list nat) x a :
  x ∉ l -> omap (fun y => <[x := a]> m !! y) l = omap (fun y => m !! y) l.
Proof.
  intros Hx. induction l as [|y l IH]; [done|]. apply not_elem_of_cons in Hx as [Hy Hl].
  rewrite !omap_cons, IH by done. by rewrite lookup_insert_ne by done.
Qed.

(** ** Automation *)

Create HintDb kt.
Create Rewrite HintDb kt.
#[export] Hint Resolve heap_wf_empty heap_wf_alloc heap_wf_put heap_fresh : kt.
#[export] Hint Resolve wrapu_range wraps_range : kt.
#[export] Hint Rewrite @run_bind @run_ret @run_zoom @run_halloc : kt.
#[export] Hint Rewrite @lset_lget @lget_lset @lset_lset : kt.

(** Symbolic execution: pushes [run] through binds and components. *)
Ltac kt_run := repeat (autorewrite with kt; cbn [res_bind res_in res_at fst snd]).

(** One step of a weakest precondition; components extend [wp_prim] with the
    rules of their operations. *)
Ltac wp_prim := fail.
Ltac wp_step :=
  match goal with
  | |- wp (mbind _ _) _ _ => apply wp_bind
  | |- wp (mret _) _ _ => apply wp_ret
  | |- wp (zoom _ _) _ _ => apply wp_zoom
  | |- wp (reads _) _ _ => apply wp_reads
  | |- wp (modify _) _ _ => apply wp_modify
  | |- wp (halloc _) _ _ => apply wp_halloc
  | |- wp _ _ _ => wp_prim
  end.
Ltac wp_steps := repeat (wp_step; cbn [lget lset]).

(** A program keeps what none of its actions touches. *)
Ltac keeps_prim := fail.
Ltac keeps_tac :=
  repeat (intros; cbv zeta; first
    [ apply keeps_ret | apply keeps_reads | apply keeps_signed | apply keeps_undef
    | apply keeps_throw | (apply keeps_zoom; done) | keeps_prim
    | (apply keeps_bind; [|intros ?])
    | match goal with |- keeps _ (match ?x with _ => _ end) => destruct x end ]).

(** Case analysis on the conditions of the code. *)
Ltac kt_cases :=
  repeat match goal with
  | |- context [if bool_decide ?P then _ else _] => destruct (bool_decide_reflect P)
  | |- context [if decide ?P then _ else _] => destruct (decide P)
  | |- context [if ?b then _ else _] => let E := fresh "E" in destruct b eqn:E
  end.
