(* ===== verification/ConcurrentList.v ===== *)
(** * [ConcurrentList<T>] (concurrentCollections/concurrentList.h)

    A [std::list] behind a [std::shared_mutex], with an atomic counter
    [clean_until_] used by the two-phase clean-up.  Every method is a program
    of the actions its lock guards delimit: [pop_front] and [pop_back] lock
    twice, so other threads can act between their test and their removal.
    The element type is a pointer type in the source, so [nullptr] results
    are [None]. *)

From S2P Require Import Prelude.
From Stdlib Require Import ZArith Lia.
From stdpp Require Import base gmap list strings numbers.
Local Open Scope Z_scope.
Local Open Scope kt_scope.

Module ConcurrentList.

Record clist (T : Type) := CList { list_ : list T; clean_until_ : Z }.
Arguments CList {T} _ _.
Arguments list_ {T} _.
Arguments clean_until_ {T} _.

Section clist.
Context {T : Type}.

Definition make : clist T := CList [] 0.

Definition push_back (value : T) : prog (clist T) unit :=
  modify (fun s => CList (list_ s ++ [value]) (clean_until_ s)).

Definition push_front (value : T) : prog (clist T) unit :=
  modify (fun s => CList (value :: list_ s) (clean_until_ s)).

Definition is_empty (l : list T) : bool := match l with [] => true | _ => false end.

Definition empty : prog (clist T) bool := reads (fun s => is_empty (list_ s)).

Definition snapshot : prog (clist T) (list T) := reads list_.

(** The removal of [pop_front]'s second critical section: [front] and
    [pop_front] of an empty [std::list] are undefined. *)
Definition take_front : prog (clist T) T :=
  act (fun s =>
    match list_ s with
    | [] => Undef "front() of an empty list"
    | x :: l => Val x (CList l (clean_until_ s))
    end).

Definition pop_front : prog (clist T) (option T) :=
  e ← empty;
  if (e : bool) then mret None else x ← take_front; mret (Some x).

Definition drop_back : prog (clist T) unit :=
  act (fun s =>
    match list_ s with
    | [] => Undef "pop_back() of an empty list"
    | _ :: _ => Val tt (CList (take (pred (length (list_ s))) (list_ s)) (clean_until_ s))
    end).

Definition pop_back : prog (clist T) unit :=
  e ← empty;
  if (e : bool) then mret tt else drop_back.

Definition back : prog (clist T) T :=
  act (fun s =>
    match list.last (list_ s) with
    | None => Undef "back() of an empty list"
    | Some x => Val x s
    end).

Definition size : prog (clist T) Z := reads (fun s => Z.of_nat (length (list_ s))).

(** [forEach] calls [lambda] on every element while it holds the read lock;
    [lambda] updates state of its own, of type [R]. *)
Definition forEach {R} (lambda : R -> T -> R) (r : R) : prog (clist T) R :=
  reads (fun s => foldl lambda r (list_ s)).

Definition forEachFiltered {R} (filter : T -> bool) (lambda : R -> T -> R) (r : R) :
    prog (clist T) R :=
  reads (fun s => foldl (fun r x => if filter x then lambda r x else r) r (list_ s)).

Definition find (lambda : T -> bool) : prog (clist T) (option T) :=
  reads (fun s => List.find lambda (list_ s)).

(** [clean_until_.store(list_.size())] narrows [size_t] to [int]. *)
Definition mark_for_clean : prog (clist T) unit :=
  modify (fun s => CList (list_ s) (s32 (Z.of_nat (length (list_ s))))).

(** [n] calls of [std::list::pop_front] in a row. *)
Fixpoint pop_n (n : nat) (l : list T) : option (list T) :=
  match n with
  | O => Some l
  | S n => match l with [] => None | _ :: l => pop_n n l end
  end.

Definition clean : prog (clist T) unit :=
  act (fun s =>
    match pop_n (Z.to_nat (clean_until_ s)) (list_ s) with
    | None => Undef "pop_front() of an empty list"
    | Some l => Val tt (CList l (clean_until_ s))
    end).
End clist.

Section lemmas.
Context {T : Type}.
Implicit Types s : clist T.

Lemma run_push_back x s :
  run (push_back x) s = Val tt (CList (list_ s ++ [x]) (clean_until_ s)).
Proof. done. Qed.

Lemma run_find (P : T -> bool) s : run (find P) s = Val (List.find P (list_ s)) s.
Proof. done. Qed.

Lemma run_pop_front s :
  run pop_front s =
    match list_ s with
    | [] => Val None s
    | x :: l => Val (Some x) (CList l (clean_until_ s))
    end.
Proof.
  unfold pop_front. kt_run. simpl. destruct (list_ s) as [|x l] eqn:E; simpl; [done|].
  by rewrite E.
Qed.

Lemma run_pop_front_tail s :
  run pop_front s = Val (head (list_ s)) (CList (tail (list_ s)) (clean_until_ s)).
Proof. rewrite run_pop_front. by destruct s as [[|x l] c]. Qed.

Lemma run_pop_front_cons (x : T) l c : run pop_front (CList (x :: l) c) = Val (Some x) (CList l c).
Proof. by rewrite run_pop_front. Qed.

Lemma run_back_snoc (x : T) l c : run back (CList (l ++ [x]) c) = Val x (CList (l ++ [x]) c).
Proof. simpl. by rewrite list.last_snoc. Qed.

Lemma pop_n_drop n (l : list T) : (n <= length l)%nat -> pop_n n l = Some (drop n l).
Proof.
  revert l; induction n as [|n IH]; intros [|x l] H; simpl in *; try done; try lia.
  apply IH; lia.
Qed.

Lemma pop_n_short n (l : list T) : (length l < n)%nat -> pop_n n l = None.
Proof.
  revert l; induction n as [|n IH]; intros [|x l] H; simpl in *; try done; try lia.
  apply IH; lia.
Qed.

(** The mark fits in an [int] as long as the list is shorter than [2^31]. *)
Lemma mark_value (l : list T) :
  Z.of_nat (length l) < 2 ^ 31 -> s32 (Z.of_nat (length l)) = Z.of_nat (length l).
Proof. intros H. apply wraps_small; [lia|]. unfold in_s. lia. Qed.

Lemma run_clean s :
  (Z.to_nat (clean_until_ s) <= length (list_ s))%nat ->
  run clean s = Val tt (CList (drop (Z.to_nat (clean_until_ s)) (list_ s)) (clean_until_ s)).
Proof. intros H. simpl. by rewrite pop_n_drop. Qed.
End lemmas.


(** ** Threads that share one list *)

Section sharing.
Context {T A : Type}.
Implicit Types (s : clist T) (p q : prog (clist T) A).

(** A thread that only ever appends: a program of [push_back], [size],
    [snapshot], [forEach], [mark_for_clean] and the like. *)
Fixpoint appends (p : prog (clist T) A) : Prop :=
  match p with
  | Ret _ => True
  | Atomic _ f k =>
      (forall s, exists b s' l, f s = Val b s' /\ list_ s' = list_ s ++ l) /\
      (forall b, appends (k b))
  end.

(** A thread that consumes with any number of calls of [pop_front]. *)
Inductive consumes : prog (clist T) A -> Prop :=
  | consumes_ret a : consumes (Ret a)
  | consumes_pop (k : option T -> prog (clist T) A) :
      (forall o, consumes (k o)) -> consumes (pop_front ≫= k).

(** The consumer between two calls of [pop_front], or between the two critical
    sections of a call. *)
Inductive consuming s : prog (clist T) A -> Prop :=
  | consuming_idle p : consumes p -> consuming s p
  | consuming_busy (k : option T -> prog (clist T) A) :
      list_ s <> [] -> (forall o, consumes (k o)) ->
      consuming s (take_front ≫= fun x => k (Some x)).

Definition one_consumer (c : config (clist T) A) : Prop :=
  exists p ts, c.2 = p :: ts /\ consuming c.1 p /\ Forall appends ts.

Lemma consuming_grow s s' l p :
  list_ s' = list_ s ++ l -> consuming s p -> consuming s' p.
Proof.
  intros Hl [p' Hp|k Hne Hk]; [by constructor|]. constructor 2; [|done].
  rewrite Hl. by destruct (list_ s).
Qed.

Lemma consuming_step s p r :
  consuming s p -> pstep p s = Some r -> exists p' s', r = Val p' s' /\ consuming s' p'.
Proof.
  intros [q [a|k Hk]|k Hne Hk] Hr; simpl in Hr; simplify_eq/=.
  - eexists _, _; split; [done|].
    destruct (list_ s) as [|x l] eqn:E; simpl; [by constructor|].
    constructor 2; [by rewrite E|done].
  - destruct (list_ s) as [|x l]; [done|]. eexists _, _; split; [done|]. by constructor.
Qed.

Lemma appends_step s p r :
  appends p -> pstep p s = Some r ->
  exists p' s' l, r = Val p' s' /\ list_ s' = list_ s ++ l /\ appends p'.
Proof.
  destruct p as [a|B c f k]; [done|]. intros [Hf Hk] Hr; simplify_eq/=.
  destruct (Hf s) as (b & s' & l & -> & Hl). eauto 10.
Qed.

Lemma one_consumer_act c i p r :
  one_consumer c -> c.2 !! i = Some p -> pstep p c.1 = Some r ->
  exists p' s', r = Val p' s' /\ one_consumer (s', <[i := p']> c.2).
Proof.
  intros (q & ts & Hc & Hq & Hts) Hi Hr. rewrite Hc in *.
  destruct i as [|i]; simplify_eq/=.
  - destruct (consuming_step _ _ _ Hq Hr) as (p' & s' & -> & Hp').
    eexists _, _; split; [done|]. by exists p', ts.
  - destruct (appends_step c.1 p r) as (p' & s' & l & -> & Hl & Hp'); [|done|].
    { rewrite Forall_lookup in Hts. eauto. }
    eexists _, _; split; [done|]. exists q, (<[i := p']> ts); split; [done|].
    split; [by eapply consuming_grow|]. by apply Forall_insert.
Qed.

Lemma one_consumer_step c c' : one_consumer c -> tstep c c' -> one_consumer c'.
Proof.
  intros Hc Hs. destruct Hs as [s ts i p p' s' Hi Hp].
  by destruct (one_consumer_act _ _ _ _ Hc Hi Hp) as (? & ? & ? & ?); simplify_eq/=.
Qed.
End sharing.


(** ** Properties *)

Lemma one_consumer_safe {T A} (c : config (clist T) A) :
  one_consumer c -> ~ undefined_in c /\ (forall e, ~ throws_in c e).
Proof.
  intros Hc; split.
  - intros (i & p & w & Hi & Hp).
    by destruct (one_consumer_act _ _ _ _ Hc Hi Hp) as (? & ? & ? & ?).
  - intros e (i & p & w & Hi & Hp).
    by destruct (one_consumer_act _ _ _ _ Hc Hi Hp) as (? & ? & ? & ?).
Qed.

(** [pop_front] tests for emptiness and removes the head in two separate
    critical sections.  As long as one thread is the only one that removes
    elements, whatever the other threads append in between, no interleaving
    reaches [front()] of an empty list, and none throws. *)
Theorem pop_front_single_consumer {T A} (s : clist T) (p : prog (clist T) A) ts c :
  consumes p -> Forall appends ts -> rtc tstep (s, p :: ts) c ->
  ~ undefined_in c /\ (forall e, ~ throws_in c e).
Proof.
  intros Hp Hts Hr. apply one_consumer_safe.
  apply (tstep_invariant one_consumer (s, p :: ts)); [apply one_consumer_step| |done].
  exists p, ts; split_and!; [done|by constructor|done].
Qed.

Lemma pop_front_single_consumer_witness :
  ~ undefined_in (CList [2] 0, [Ret (Some 1); Ret None] : list (prog (clist Z) (option Z))).
Proof.
  apply (pop_front_single_consumer (CList [1] 0) (pop_front ≫= Ret) [(push_back 2;; mret None)]).
  - apply (consumes_pop Ret). intros o. constructor.
  - constructor; [|constructor]. simpl. split; [|done].
    intros s. by exists tt, (CList (list_ s ++ [2]) (clean_until_ s)), [2].
  - apply (schedule_sound [0; 1; 0]%nat). reflexivity.
Defined.

(** Two threads that consume the same list can both pass the emptiness
    test before either removes the last element: the second removal is then
    [front()] of an empty list.  (In the agent only the profiler thread
    consumes the raw list.) *)
Theorem pop_front_two_consumers {T} (x : T) :
  exists c, rtc tstep (CList [x] 0, [pop_front; pop_front]) c /\ undefined_in c.
Proof.
  eexists; split; [by apply (schedule_sound [0; 1; 0]%nat)|].
  exists 1%nat. eexists _, _. split; reflexivity.
Qed.

Lemma run_push_all {T} (xs : list T) s :
  run (for_each xs push_back) s = Val tt (CList (list_ s ++ xs) (clean_until_ s)).
Proof.
  revert s; induction xs as [|x xs IH]; intros [l c]; simpl; [by rewrite app_nil_r|].
  kt_run. rewrite IH; simpl. by rewrite <- app_assoc.
Qed.

(** The two-phase clean-up of a list: [clean] removes the elements that
    were present at [mark_for_clean], and keeps exactly the ones appended
    since, in order. *)
Theorem mark_then_clean {T} (s : clist T) (xs : list T) :
  Z.of_nat (length (list_ s)) < 2 ^ 31 ->
  run (mark_for_clean;; for_each xs push_back;; clean) s
  = Val tt (CList xs (Z.of_nat (length (list_ s)))).
Proof.
  intros Hlen. destruct s as [l c]; simpl in *. rewrite mark_value by done.
  rewrite run_bind, run_push_all; simpl.
  rewrite Nat2Z.id, pop_n_drop by (rewrite length_app; lia).
  by rewrite drop_app_length.
Qed.

Lemma mark_then_clean_witness :
  run (mark_for_clean;; for_each [3; 4] push_back;; clean) (CList [1; 2] 0)
  = Val tt (CList [3; 4] 2).
Proof. apply (mark_then_clean (CList [1; 2] 0) [3; 4]). simpl; lia. Defined.

End ConcurrentList.

Module CL := ConcurrentList.

#[export] Hint Rewrite @ConcurrentList.run_push_back @ConcurrentList.run_find
  @ConcurrentList.run_pop_front_cons @ConcurrentList.run_back_snoc : kt.
Abbreviation clist := ConcurrentList.clist.
Abbreviation CList := ConcurrentList.CList.
