(* ===== verification/ConcurrentMap.v ===== *)
(** * [ConcurrentCleanableMap<K, V>] (concurrentCollections/concurrentMap.h)

    A [std::unordered_map] behind a [std::shared_mutex], with a vector of the
    keys the next [clean] erases.  [get] is [operator[]]: it creates the entry
    with a value-initialised [V], under a lock that it shares with the other
    readers, so on a key that is not there it is an unguarded write.  The iteration order of the unordered map is
    unspecified; the model enumerates the keys in the order of [map_to_list]
    and [clean_order] shows that the order does not matter. *)

From S2P Require Import Prelude.
From Stdlib Require Import ZArith Lia.
From stdpp Require Import base gmap list strings numbers.
Local Open Scope Z_scope.
Local Open Scope kt_scope.

(** The value-initialised object [V{}] that [operator[]] inserts. *)
Class CppDefault (V : Type) := cpp_default : V.

#[global] Instance ptr_default {A} : CppDefault (option A) := None.
#[global] Instance Z_default : CppDefault Z := 0.
#[global] Instance string_default : CppDefault string := EmptyString.

Module ConcurrentCleanableMap.

Record cmap (K V : Type) `{Countable K} := CMap { map_ : gmap K V; clean_list_ : list K }.
Arguments CMap {K V _ _} _ _.
Arguments map_ {K V _ _} _.
Arguments clean_list_ {K V _ _} _.

Section cmap.
Context {K V : Type} `{Countable K}.
Implicit Types (s : cmap K V) (k : K) (v : V).

Definition make : cmap K V := CMap ∅ [].

(** [unordered_map::insert] keeps the value of a key that is present. *)
Definition insert k v : prog (cmap K V) bool :=
  act (fun s =>
    match map_ s !! k with
    | Some _ => Val false s
    | None => Val true (CMap (<[k := v]> (map_ s)) (clean_list_ s))
    end).

(** [map_[key]] under a lock that other readers share: it inserts a key that is
    absent. *)
Definition get `{!CppDefault V} k : prog (cmap K V) V :=
  Atomic (fun s => bool_decide (map_ s !! k = None))
    (fun s =>
      match map_ s !! k with
      | Some v => Val v s
      | None => Val cpp_default (CMap (<[k := cpp_default]> (map_ s)) (clean_list_ s))
      end) Ret.

Definition at_ k : prog (cmap K V) V :=
  act (fun s =>
    match map_ s !! k with
    | Some v => Val v s
    | None => Exc (Out_of_range "unordered_map::at") s
    end).

Definition empty : prog (cmap K V) bool := reads (fun s => bool_decide (map_ s = ∅)).

Definition cleanListEmpty : prog (cmap K V) bool :=
  reads (fun s => match clean_list_ s with [] => true | _ => false end).

Definition contains k : prog (cmap K V) bool :=
  reads (fun s => bool_decide (is_Some (map_ s !! k))).

Definition erase k : prog (cmap K V) bool :=
  act (fun s =>
    match map_ s !! k with
    | Some _ => Val true (CMap (delete k (map_ s)) (clean_list_ s))
    | None => Val false s
    end).

Definition keys (m : gmap K V) : list K := (map_to_list m).*1.

Definition mark_current_values_for_clean : prog (cmap K V) unit :=
  modify (fun s => CMap (map_ s) (clean_list_ s ++ keys (map_ s))).

(** The loop takes keys from the back of the vector until it is empty. *)
Definition erase_all (ks : list K) (m : gmap K V) : gmap K V := foldr delete m ks.

Definition clean : prog (cmap K V) unit :=
  modify (fun s => CMap (erase_all (clean_list_ s) (map_ s)) []).

(** *** Lemmas *)

Lemma lookup_erase_all ks (m : gmap K V) k :
  erase_all ks m !! k = if bool_decide (k ∈ ks) then None else m !! k.
Proof.
  unfold erase_all. induction ks as [|k' ks IH]; cbn [foldr].
  - case_bool_decide as Hin; [set_solver|done].
  - rewrite lookup_delete. destruct (decide (k' = k)) as [Hk|Hk].
    + subst. rewrite bool_decide_eq_true_2; [done|]. apply elem_of_cons. auto.
    + rewrite IH. assert (k ∈ k' :: ks <-> k ∈ ks) by (rewrite elem_of_cons; naive_solver).
      repeat case_bool_decide; naive_solver.
Qed.

Lemma elem_of_keys (m : gmap K V) k : k ∈ keys m <-> is_Some (m !! k).
Proof.
  unfold keys. rewrite list_elem_of_fmap. split.
  - intros ([k' v] & -> & Hin%elem_of_map_to_list). by exists v.
  - intros [v Hv]. exists (k, v); split; [done|]. by apply elem_of_map_to_list.
Qed.

(** Erasing in any order, with or without repetitions, gives the same map. *)
Lemma clean_order ks ks' (m : gmap K V) :
  (forall k, k ∈ ks <-> k ∈ ks') -> erase_all ks m = erase_all ks' m.
Proof.
  intros Heq. apply map_eq; intros k. rewrite !lookup_erase_all.
  repeat case_bool_decide; naive_solver.
Qed.

Lemma run_contains k s : run (contains k) s = Val (bool_decide (is_Some (map_ s !! k))) s.
Proof. done. Qed.

Lemma run_at_Some k v s : map_ s !! k = Some v -> run (at_ k) s = Val v s.
Proof. intros Hk. simpl. by rewrite Hk. Qed.

Lemma run_get_Some `{!CppDefault V} k v s : map_ s !! k = Some v -> run (get k) s = Val v s.
Proof. intros Hk. simpl. by rewrite Hk. Qed.

Lemma run_get_None `{!CppDefault V} k s :
  map_ s !! k = None ->
  run (get k) s = Val cpp_default (CMap (<[k := cpp_default]> (map_ s)) (clean_list_ s)).
Proof. intros Hk. simpl. by rewrite Hk. Qed.

Lemma run_insert_None k v s :
  map_ s !! k = None ->
  run (insert k v) s = Val true (CMap (<[k := v]> (map_ s)) (clean_list_ s)).
Proof. intros Hk. simpl. by rewrite Hk. Qed.

Lemma run_insert_Some k v v' s : map_ s !! k = Some v' -> run (insert k v) s = Val false s.
Proof. intros Hk. simpl. by rewrite Hk. Qed.

Lemma run_erase k s :
  run (erase k) s =
    Val (bool_decide (is_Some (map_ s !! k))) (CMap (delete k (map_ s)) (clean_list_ s)).
Proof.
  destruct s as [m c]; simpl. destruct (m !! k) eqn:E; simpl; [done|].
  by rewrite delete_id.
Qed.

(** ** Properties *)

(** The operations other threads perform between a mark and a clean. *)
Inductive command := CInsert k v | CErase k | CGet k.

Definition command_prog `{!CppDefault V} (c : command) : prog (cmap K V) unit :=
  match c with
  | CInsert k v => insert k v;; mret tt
  | CErase k => erase k;; mret tt
  | CGet k => get k;; mret tt
  end.

Lemma run_command `{!CppDefault V} c s :
  exists m, run (command_prog c) s = Val tt (CMap m (clean_list_ s)).
Proof.
  destruct s as [m ks], c as [k v|k|k]; simpl; destruct (m !! k); simpl; eauto.
Qed.

Lemma run_commands `{!CppDefault V} cs s :
  exists m, run (for_each cs command_prog) s = Val tt (CMap m (clean_list_ s)).
Proof.
  revert s; induction cs as [|c cs IH]; intros s.
  - exists (map_ s). by destruct s.
  - simpl. rewrite run_bind. destruct (run_command c s) as [m ->]; simpl.
    destruct (IH (CMap m (clean_list_ s))) as [m' ->]. by exists m'.
Qed.

(** The two-phase clean-up of a map.  Whatever is inserted, erased or
    created by [get] after [mark_current_values_for_clean], the following
    [clean] terminates, empties the clean list, erases every key that was
    present at the mark, and changes no other key. *)
Theorem map_mark_then_clean `{!CppDefault V} s cs :
  clean_list_ s = [] ->
  exists m m',
    run (mark_current_values_for_clean;; for_each cs command_prog) s
      = Val tt (CMap m (keys (map_ s))) /\
    run (mark_current_values_for_clean;; for_each cs command_prog;; clean) s
      = Val tt (CMap m' []) /\
    (forall k, is_Some (map_ s !! k) -> m' !! k = None) /\
    (forall k, map_ s !! k = None -> m' !! k = m !! k).
Proof.
  intros Hc. destruct (run_commands cs (CMap (map_ s) (keys (map_ s)))) as [m Hm].
  exists m, (erase_all (keys (map_ s)) m). simpl in *. rewrite Hc; simpl.
  rewrite run_bind, Hm; simpl. split_and!; [done|done| |].
  - intros k Hk. rewrite lookup_erase_all, bool_decide_eq_true_2; [done|].
    by apply elem_of_keys.
  - intros k Hk. rewrite lookup_erase_all, bool_decide_eq_false_2; [done|].
    rewrite elem_of_keys, Hk. by intros [? ?].
Qed.

(** Insertion never overwrites, and the result says whether the key was
    new; [erase] undoes it. *)
Theorem map_insert_erase k v s :
  map_ s !! k = None ->
  run (b ← insert k v; c ← insert k v; e ← erase k; mret (b, c, e)) s = Val (true, false, true) s.
Proof.
  intros Hk. kt_run. rewrite run_insert_None by done; simpl.
  rewrite lookup_insert_eq; simpl. rewrite lookup_insert_eq; simpl.
  rewrite delete_insert_id by done. by destruct s.
Qed.
End cmap.
Arguments command : clear implicits.
Arguments CInsert {K V} _ _.
Arguments CErase {K V} _.
Arguments CGet {K V} _.

Definition demo_map : cmap Z Z := CMap {[1 := 5]} [].
Definition demo_commands : list (command Z Z) := [CErase 1; CInsert 1 7; CInsert 2 8].

Lemma map_mark_then_clean_witness :
  exists m', run (mark_current_values_for_clean;; for_each demo_commands command_prog;; clean)
               demo_map = Val tt (CMap m' []) /\
    m' !! 1 = None /\ m' !! 2 = Some 8.
Proof.
  destruct (map_mark_then_clean demo_map demo_commands) as (m & m' & Hm & Hm' & Hin & Hout);
    [reflexivity|].
  exists m'; split_and!; [exact Hm'|apply Hin; vm_compute; eauto|].
  rewrite Hout by reflexivity. injection Hm as <-. reflexivity.
Defined.

Lemma map_insert_erase_witness :
  run (b ← insert 1 5; c ← insert 1 5; e ← erase 1; mret (b, c, e)) (make : cmap Z Z)
  = Val (true, false, true) make.
Proof. apply (map_insert_erase 1 5 make). reflexivity. Defined.

End ConcurrentCleanableMap.

Module CM := ConcurrentCleanableMap.

Abbreviation cmap := ConcurrentCleanableMap.cmap.
Abbreviation CMap := ConcurrentCleanableMap.CMap.
#[export] Hint Rewrite @ConcurrentCleanableMap.run_contains @ConcurrentCleanableMap.run_erase : kt.
