(* ===== verification/ConcurrentVector.v ===== *)
(** * [ConcurrentVector<T>] (concurrentCollections/concurrentVector.h)

    A [std::vector] behind a [std::shared_mutex].  The reserved capacity is
    part of the state; [at] throws [std::out_of_range] on a bad index. *)

From S2P Require Import Prelude.
From Stdlib Require Import ZArith Lia.
From stdpp Require Import base gmap list strings numbers.
Local Open Scope Z_scope.
Local Open Scope kt_scope.

Module ConcurrentVector.

Record cvec (T : Type) := CVec { vector_ : list T; capacity_ : Z }.
Arguments CVec {T} _ _.
Arguments vector_ {T} _.
Arguments capacity_ {T} _.

Section cvec.
Context {T : Type}.
Implicit Types (s : cvec T).

Definition make : cvec T := CVec [] 0.

(** Appending grows the capacity when the vector is full; the growth policy
    is the implementation's, so the model keeps the least capacity. *)
Definition append (value : T) s : cvec T :=
  CVec (vector_ s ++ [value]) (Z.max (capacity_ s) (Z.of_nat (S (length (vector_ s))))).

Definition push_back (value : T) : prog (cvec T) unit := modify (append value).

(** [push_back(std::move(value))]: the same element, taken from the caller. *)
Definition move_back (value : T) : prog (cvec T) unit := modify (append value).

(** [id] is a [size_t]. *)
Definition at_ (id : Z) : prog (cvec T) T :=
  act (fun s =>
    match vector_ s !! Z.to_nat (u64 id) with
    | Some x => Val x s
    | None => Exc (Out_of_range "vector::at") s
    end).

Definition size : prog (cvec T) Z := reads (fun s => Z.of_nat (length (vector_ s))).

Definition for_each_ {R} (lambda : R -> T -> R) (r : R) : prog (cvec T) R :=
  reads (fun s => foldl lambda r (vector_ s)).

(** [read] hands the whole vector to [lambda], which may update it although
    only the read lock is held. *)
Definition read {R} (lambda : list T -> R * list T) : prog (cvec T) R :=
  act (fun s => let '(r, l) := lambda (vector_ s) in Val r (CVec l (capacity_ s))).

Definition reserve (n : Z) : prog (cvec T) unit :=
  modify (fun s => CVec (vector_ s) (Z.max (capacity_ s) (u64 n))).

(** Reading the index at which an element was appended gives it back;
    every index at or beyond the size throws [std::out_of_range] and leaves
    the vector as it is; and [reserve] is invisible to both. *)
Theorem vector_push_at (x : T) s n i :
  Z.of_nat (length (vector_ s)) < 2 ^ 64 - 1 -> 0 <= i < 2 ^ 64 ->
  let s' := CVec (vector_ s ++ [x])
              (Z.max (Z.max (capacity_ s) (Z.of_nat (S (length (vector_ s))))) (u64 n)) in
  run (i ← size; push_back x;; reserve n;; at_ i) s = Val x s' /\
  (Z.of_nat (length (vector_ s)) < i -> run (at_ i) s' = Exc (Out_of_range "vector::at") s').
Proof.
  intros Hlen Hi s'; subst s'. destruct s as [l c]; simpl in *. split.
  - rewrite wrapu_small by (unfold in_u; lia).
    rewrite Nat2Z.id, lookup_app_r, Nat.sub_diag by lia. done.
  - intros Hge. rewrite wrapu_small by (unfold in_u; lia).
    rewrite lookup_ge_None_2; [done|]. rewrite length_app; simpl. lia.
Qed.
End cvec.

Lemma vector_push_at_witness :
  run (i ← size; push_back 7;; reserve 16;; at_ i) make = Val 7 (CVec [7] 16) /\
  run (at_ 1) (CVec [7] 16) = Exc (Out_of_range "vector::at") (CVec [7] 16).
Proof.
  destruct (vector_push_at 7 make 16 1) as [H1 H2]; [simpl; lia|lia|].
  split; [exact H1|]. apply H2. simpl; lia.
Defined.

End ConcurrentVector.
