(* ===== verification/TraceTime.v ===== *)
(** * [TraceTime] (trace/traceTime.hpp, trace/traceTime.cpp)

    A time point or duration: a [std::atomic_llong].  Each operation of the
    struct is a definition on the 64-bit value; [operator-] is plain signed
    subtraction, undefined on overflow, while [operator+=] is [fetch_add],
    which wraps.  The steady clock is the environment's: a sequence of
    readings, one per call. *)

From S2P Require Import Prelude.
From Stdlib Require Import ZArith Lia.
From stdpp Require Import base gmap list strings numbers.
Local Open Scope Z_scope.
Local Open Scope kt_scope.

Abbreviation TraceTime := Z.

Definition tt_make (init_value : Z) : TraceTime := s64 init_value.
Definition tt_copy (trace_time : TraceTime) : TraceTime := trace_time.

(** [operator-]. *)
Definition tt_minus {S} (a b : TraceTime) : prog S TraceTime :=
  if bool_decide (in_s 64 (a - b)) then mret (tt_make (a - b))
  else undef "signed integer overflow".

(** [operator>=], [>], [<=], [<], [==]. *)
Definition tt_geb (a b : TraceTime) : bool := b <=? a.
Definition tt_gtb (a b : TraceTime) : bool := b <? a.
Definition tt_leb (a b : TraceTime) : bool := a <=? b.
Definition tt_ltb (a b : TraceTime) : bool := a <? b.
Definition tt_eqb (a b : TraceTime) : bool := a =? b.

(** [operator=], [set]: a store of the new value; [get]: a load. *)
Definition tt_assign (old new : TraceTime) : TraceTime := new.
Definition tt_get (a : TraceTime) : Z := a.

(** [operator+=]. *)
Definition tt_add_assign (a b : TraceTime) : TraceTime := s64 (a + b).

(** The readings of [std::chrono::steady_clock], in nanoseconds since its
    epoch: the representation is a [long long], and the clock is monotonic. *)
Class SteadyClock := {
  steady : nat -> Z;
  steady_range : forall i, 0 < steady i < 2 ^ 63;
  steady_mono : forall i j, (i <= j)%nat -> steady i <= steady j;
}.

(** The number of readings taken so far is part of the state. *)
Record clock_state := ClockState { readings : nat }.

Section clock.
Context `{CK : !SteadyClock}.

Definition currentTimeNs : prog clock_state TraceTime :=
  act (fun c => Val (tt_make (steady (readings c))) (ClockState (S (readings c)))).

(** [duration_cast<milliseconds>] truncates towards zero. *)
Definition currentTimeMs : prog clock_state TraceTime :=
  act (fun c =>
    Val (tt_make (Z.quot (steady (readings c)) 1000000)) (ClockState (S (readings c)))).

Lemma run_currentTimeNs c :
  run currentTimeNs c = Val (steady (readings c)) (ClockState (S (readings c))).
Proof.
  simpl. unfold tt_make. rewrite wraps_small; [done|lia|].
  pose proof (steady_range (readings c)). unfold in_s. lia.
Qed.

Lemma run_tt_minus {S} a b (s : S) :
  in_s 64 (a - b) -> run (tt_minus a b) s = Val (a - b) s.
Proof.
  intros H. unfold tt_minus. rewrite bool_decide_eq_true_2 by done.
  unfold tt_make. by rewrite wraps_small by (done || lia).
Qed.

(** The difference of two readings never overflows. *)
Lemma steady_minus i j : in_s 64 (steady i - steady j).
Proof. pose proof (steady_range i). pose proof (steady_range j). unfold in_s. lia. Qed.

(** C36: an interval measured with two readings of the clock is computed
    without overflow, is not negative, and the millisecond reading is the
    nanosecond one divided by a million: what [elapsed_time] and the
    thresholds of the profiler rely on. *)
Theorem measured_interval c :
  exists t d,
    run (start ← currentTimeNs; finish ← currentTimeNs; tt_minus finish start) c
      = Val d (ClockState (S (S (readings c)))) /\
    0 <= d /\ tt_add_assign (steady (readings c)) d = steady (S (readings c)) /\
    run currentTimeMs c = Val t (ClockState (S (readings c))) /\
    1000000 * t <= steady (readings c) < 1000000 * (t + 1).
Proof.
  pose proof (steady_range (readings c)). pose proof (steady_range (S (readings c))).
  pose proof (steady_mono (readings c) (S (readings c)) ltac:(lia)).
  exists (Z.quot (steady (readings c)) 1000000), (steady (S (readings c)) - steady (readings c)).
  rewrite run_bind, run_currentTimeNs; cbn [res_bind].
  rewrite run_bind, run_currentTimeNs; cbn [res_bind readings].
  rewrite run_tt_minus by apply steady_minus.
  split_and!; [done|lia| | | |].
  - unfold tt_add_assign. rewrite wraps_small; [lia|lia|]. unfold in_s. lia.
  - simpl. unfold tt_make. rewrite wraps_small; [done|lia|].
    rewrite Z.quot_div_nonneg by lia. unfold in_s.
    pose proof (Z.div_le_upper_bound (steady (readings c)) 1000000 (2 ^ 63 - 1)).
    pose proof (Z.div_pos (steady (readings c)) 1000000). lia.
  - rewrite Z.quot_div_nonneg by lia. apply Z.mul_div_le; lia.
  - rewrite Z.quot_div_nonneg by lia.
    pose proof (Z.mod_pos_bound (steady (readings c)) 1000000).
    pose proof (Z_div_mod_eq_full (steady (readings c)) 1000000). lia.
Qed.
End clock.

(** A clock that advances by one millisecond per reading. *)
#[export] Instance tick_clock : SteadyClock | 100.
Proof.
  refine {| steady i := Z.min (1 + 1000000 * Z.of_nat i) (2 ^ 63 - 1) |}.
  - intros i. lia.
  - intros i j H. lia.
Defined.

Lemma measured_interval_witness :
  exists t d,
    run (start ← currentTimeNs; finish ← currentTimeNs; tt_minus finish start) (ClockState 4)
      = Val d (ClockState 6) /\
    0 <= d /\ tt_add_assign (steady 4) d = steady 5 /\
    run currentTimeMs (ClockState 4) = Val t (ClockState 5) /\
    1000000 * t <= steady 4 < 1000000 * (t + 1).
Proof. apply (measured_interval (ClockState 4)). Defined.
