(* ===== verification/ArgsParser.v ===== *)
(** * [ArgsParser] (utils/argsParser.cpp, profiler/model/args.hpp)

    The parser of the agent's option string [key=value,key=value,...].
    A [std::string] is a list of characters, a position is a [size_t] with its
    wrap-around, [npos] its largest value.  The current directory is an
    argument. *)

From S2P Require Import Prelude.
From Stdlib Require Import ZArith Lia Ascii String.
From stdpp Require Import base gmap list strings numbers.
Local Open Scope Z_scope.
Local Open Scope kt_scope.

Abbreviation cstr := (list ascii).
Definition str (s : string) : cstr := list_ascii_of_string s.

Module ArgsParser.

(** ** The parts of [std::string] and [std::stoi] the parser uses *)

Definition npos : Z := 2 ^ 64 - 1.
Definition length_ (s : cstr) : Z := Z.of_nat (length s).

Fixpoint index_of (c : ascii) (s : cstr) : option nat :=
  match s with
  | [] => None
  | x :: s => if Ascii.eqb c x then Some O else S <$> index_of c s
  end.

Definition find (c : ascii) (pos : Z) (s : cstr) : Z :=
  if pos <=? length_ s then
    match index_of c (drop (Z.to_nat pos) s) with
    | Some i => pos + Z.of_nat i
    | None => npos
    end
  else npos.

(** At most [n] characters, and never more than there are. *)
Definition substr (pos n : Z) (s : cstr) : exn + cstr :=
  if pos <=? length_ s then mret (take (Z.to_nat (Z.min n (length_ s))) (drop (Z.to_nat pos) s))
  else inl (Out_of_range "basic_string::substr").

Definition isspace (c : ascii) : bool :=
  let n := Z.of_nat (nat_of_ascii c) in (n =? 32) || ((9 <=? n) && (n <=? 13)).

Definition digit (c : ascii) : option Z :=
  let n := Z.of_nat (nat_of_ascii c) in
  if (48 <=? n) && (n <=? 57) then Some (n - 48) else None.

Arguments isspace : simpl never.
Arguments digit : simpl never.

Fixpoint skip_spaces (s : cstr) : cstr :=
  match s with
  | c :: s' => if isspace c then skip_spaces s' else s
  | [] => []
  end.

(** The value of the longest prefix of digits, from [acc]. *)
Fixpoint digits (acc : Z) (s : cstr) : Z :=
  match s with
  | c :: s => match digit c with Some d => digits (10 * acc + d) s | None => acc end
  | [] => acc
  end.

Definition sign (s : cstr) : Z * cstr :=
  match s with
  | c :: s' => if Ascii.eqb c "-" then (-1, s') else if Ascii.eqb c "+" then (1, s') else (1, s)
  | [] => (1, s)
  end.

(** [strtol] in base 10 with [stoi]'s errors: the trailing rest is ignored. *)
Definition stoi (s : cstr) : exn + Z :=
  let '(sg, ds) := sign (skip_spaces s) in
  match ds with
  | c :: _ =>
      match digit c with
      | Some _ =>
          let v := sg * digits 0 ds in
          if bool_decide (in_s 32 v) then mret v else inl (Out_of_range "stoi")
      | None => inl (Invalid_argument "stoi")
      end
  | [] => inl (Invalid_argument "stoi")
  end.

(** ** Options *)

Record ProfilerOptions := {
  class_name : option cstr;
  method_name : option cstr;
  profiling_period : Z;
  threshold : Z;
  jar_path : option cstr;
  output_path : option cstr;
}.

(** The local variables of [parseProfilerOptions]. *)
Record locals := Locals {
  v_period : Z;
  v_threshold : Z;
  v_method : option cstr;
  v_klass : option cstr;
  v_jar_path : option cstr;
  v_output_path : option cstr;
}.

Definition initial : locals := Locals 1000000 0 None None None None.

Definition parseMethod (option_ : cstr) : exn + (cstr * cstr) :=
  let methodDelimiter := find "." 0 option_ in
  if methodDelimiter =? npos then
    inl (Runtime_error ("Provided incorrect method: " +:+ string_of_list_ascii option_
           +:+ ". Use following syntax package/class.method"))
  else
    c ← substr 0 methodDelimiter option_;
    m ← substr (u64 (methodDelimiter + 1)) npos option_;
    mret (c, m).

Definition parsePeriod (option_ : cstr) : exn + Z := stoi option_.

(** [duration_cast<nanoseconds>(milliseconds(n))] on 64-bit counts. *)
Definition parseThreshold (option_ : cstr) : exn + Z :=
  n ← stoi option_; mret (s64 (1000000 * n)).

Definition parseJarPath (option_ : cstr) : cstr := option_.
Definition parseOutputPath (option_ : cstr) : cstr := option_.

(** The chain of [if (key == ...)]: an unknown key is ignored. *)
Definition apply_option (key value : cstr) (v : locals) : exn + locals :=
  let '(Locals p t m k j o) := v in
  if bool_decide (key = str "method") then
    '(c, m) ← parseMethod value; mret (Locals p t (Some m) (Some c) j o)
  else if bool_decide (key = str "period") then
    p ← parsePeriod value; mret (Locals p t m k j o)
  else if bool_decide (key = str "jarPath") then
    mret (Locals p t m k (Some (parseJarPath value)) o)
  else if bool_decide (key = str "outputPath") then
    mret (Locals p t m k j (Some (parseOutputPath value)))
  else if bool_decide (key = str "threshold") then
    t ← parseThreshold value; mret (Locals p t m k j o)
  else mret v.

Definition incorrect_options (options : cstr) : exn :=
  Runtime_error ("Incorrect options provided: " +:+ string_of_list_ascii options
    +:+ ". Use following syntax: method=x/y/z/Class.method,period=1000").

(** One turn of the [do ... while] loop: the new position and variables. *)
Definition loop_body (options : cstr) (current_position : Z) (v : locals) : exn + (Z * locals) :=
  let d := find "," current_position options in
  let delimiter_position := if d =? npos then length_ options else d in
  let keyValueDelimiterPosition := find "=" current_position options in
  if keyValueDelimiterPosition =? npos then inl (incorrect_options options)
  else
    key ← substr current_position (u64 (keyValueDelimiterPosition - current_position)) options;
    value ← substr (u64 (keyValueDelimiterPosition + 1))
              (u64 (delimiter_position - keyValueDelimiterPosition - 1)) options;
    v ← apply_option key value v;
    mret (u64 (delimiter_position + 1), v).

(** The loop; [None] is fuel exhausted. *)
Fixpoint parse_loop (fuel : nat) (options : cstr) (pos : Z) (v : locals) : option (exn + locals) :=
  match fuel with
  | O => None
  | S fuel =>
      match loop_body options pos v with
      | inl e => Some (inl e)
      | inr (pos', v') =>
          if pos' <? length_ options then parse_loop fuel options pos' v' else Some (inr v')
      end
  end.

(** What follows the loop: the check of the method and the default path. *)
Definition finish (current_path : cstr) (v : locals) : exn + ProfilerOptions :=
  match v_method v with
  | None => inl (Runtime_error ("Method name must be provided."
      +:+ "Use following syntax: method=x/y/z/Class.method,period=1000"))
  | Some m =>
      mret {| class_name := v_klass v; method_name := Some m;
              profiling_period := v_period v; threshold := v_threshold v;
              jar_path := v_jar_path v;
              output_path := match v_output_path v with
                             | None => Some current_path
                             | Some o => Some o
                             end |}
  end.

Definition parseProfilerOptions (current_path options : cstr) : option (exn + ProfilerOptions) :=
  match parse_loop (S (length options)) options 0 initial with
  | None => None
  | Some r => Some (v ← r; finish current_path v)
  end.

Example parse_test :
  parseProfilerOptions (str "/cwd")
    (str "period=1,method=io/example/ClassName.methodName,jarPath=somewhat,threshold=1000")
  = Some (inr {| class_name := Some (str "io/example/ClassName");
                 method_name := Some (str "methodName");
                 profiling_period := 1; threshold := 1000000000;
                 jar_path := Some (str "somewhat"); output_path := Some (str "/cwd") |}).
Proof. reflexivity. Qed.

(** ** Lemmas *)

(** Arithmetic on lengths, and positions that do not wrap. *)
Ltac len :=
  unfold length_, npos in *;
  repeat (progress (rewrite ?length_app in *; cbn [length app fst snd] in * )); lia.
Ltac u64_small :=
  repeat match goal with
  | |- context [wrapu 64 ?x] => rewrite (wrapu_small 64 x) by (unfold in_u; len)
  end.

Definition absent (c : ascii) (s : cstr) : bool :=
  match index_of c s with None => true | Some _ => false end.

Lemma absent_None c s : absent c s = true <-> index_of c s = None.
Proof. unfold absent. destruct (index_of c s); split; done. Qed.

Lemma index_of_app c s t :
  index_of c (s ++ t) =
    match index_of c s with
    | Some i => Some i
    | None => Nat.add (length s) <$> index_of c t
    end.
Proof.
  induction s as [|x s IH]; simpl.
  - by destruct (index_of c t).
  - destruct (Ascii.eqb c x); [done|]. rewrite IH.
    destruct (index_of c s); [done|]. by destruct (index_of c t).
Qed.

Lemma index_of_here c s : index_of c (c :: s) = Some O.
Proof. simpl. by rewrite Ascii.eqb_refl. Qed.

Lemma index_of_lt c s i : index_of c s = Some i -> (i < length s)%nat.
Proof.
  revert i; induction s as [|x s IH]; intros i H; simpl in *; [done|].
  destruct (Ascii.eqb c x); simplify_eq; [lia|].
  destruct (index_of c s) as [j|]; simplify_eq/=. specialize (IH j eq_refl). lia.
Qed.

Lemma find_at c pre s :
  find c (length_ pre) (pre ++ s) =
    match index_of c s with Some i => length_ pre + Z.of_nat i | None => npos end.
Proof.
  unfold find, length_. rewrite length_app, Nat2Z.id, drop_app_length.
  rewrite (proj2 (Z.leb_le _ _)) by lia. done.
Qed.

Lemma find_cases c pos s :
  0 <= pos <= length_ s ->
  find c pos s = npos \/ (pos <= find c pos s < length_ s).
Proof.
  intros Hpos. unfold find. rewrite (proj2 (Z.leb_le _ _)) by lia.
  destruct (index_of c _) as [i|] eqn:E; [right|by left].
  apply index_of_lt in E. rewrite length_drop in E. unfold length_ in *. lia.
Qed.

Lemma substr_at pre mid post n :
  n = length_ mid -> substr (length_ pre) n (pre ++ mid ++ post) = inr mid.
Proof.
  intros ->. unfold substr, length_. rewrite (proj2 (Z.leb_le _ _)) by (rewrite length_app; lia).
  rewrite Z.min_l by (rewrite !length_app; lia).
  rewrite !Nat2Z.id, drop_app_length, take_app_length. done.
Qed.

Lemma substr_rest pre post n :
  length_ post <= n -> substr (length_ pre) n (pre ++ post) = inr post.
Proof.
  intros Hn. unfold substr, length_ in *.
  rewrite (proj2 (Z.leb_le _ _)) by (rewrite length_app; lia).
  rewrite Nat2Z.id, drop_app_length, take_ge by (rewrite length_app; lia). done.
Qed.

Lemma substr_ok pos n s : 0 <= pos <= length_ s -> exists r, substr pos n s = inr r.
Proof. intros H. unfold substr. rewrite (proj2 (Z.leb_le _ _)) by lia. eexists; done. Qed.

(** The separator that ends a segment: the end of the string, or a comma. *)
Definition ends (tail : cstr) : Prop := tail = [] \/ exists rest, tail = ","%char :: rest.

Lemma ends_comma pre value tail :
  absent "," value = true -> ends tail -> length_ (pre ++ value ++ tail) < npos ->
  (let d := find "," (length_ pre) (pre ++ value ++ tail) in
   if d =? npos then length_ (pre ++ value ++ tail) else d) = length_ (pre ++ value).
Proof.
  intros Ha Ht Hlen. apply absent_None in Ha. cbv zeta. rewrite find_at, index_of_app, Ha.
  destruct Ht as [->|[rest ->]]; simpl.
  - by rewrite app_nil_r.
  - unfold length_ in *. rewrite !length_app in *; simpl in *.
    rewrite (proj2 (Z.eqb_neq _ _)) by lia. lia.
Qed.

(** One turn of the loop on a well-formed segment takes its key and its value. *)
Lemma loop_body_segment pre key value tail v :
  let options := pre ++ key ++ "="%char :: value ++ tail in
  absent "=" key = true -> absent "," key = true -> absent "," value = true -> ends tail ->
  length_ options < npos ->
  loop_body options (length_ pre) v =
    (v' ← apply_option key value v;
     mret (length_ pre + length_ key + length_ value + 2, v')).
Proof.
  intros options Hk Hk' Hv Ht Hlen.
  assert (Hd : (let d := find "," (length_ pre) options in
                if d =? npos then length_ options else d)
               = length_ (pre ++ key ++ "="%char :: value)).
  { assert (Ho : options = pre ++ (key ++ "="%char :: value) ++ tail)
      by (unfold options; rewrite <- app_assoc; done).
    rewrite Ho in *. apply ends_comma; [|done|done].
    apply absent_None in Hk', Hv. apply absent_None.
    rewrite index_of_app, Hk'. simpl. by rewrite Hv. }
  assert (He : find "=" (length_ pre) options = length_ (pre ++ key)).
  { unfold options. apply absent_None in Hk.
    rewrite find_at, index_of_app, Hk, index_of_here. simpl.
    unfold length_. rewrite length_app. lia. }
  unfold loop_body. rewrite He. cbv zeta in Hd. rewrite Hd.
  unfold options, length_, npos in Hlen. rewrite !length_app in Hlen; simpl in Hlen.
  rewrite length_app in Hlen.
  rewrite (proj2 (Z.eqb_neq _ _)) by (unfold length_, npos; rewrite length_app; lia).
  u64_small.
  assert (Hkey : substr (length_ pre) (length_ (pre ++ key) - length_ pre) options = inr key)
    by (apply substr_at; len).
  assert (Hval : substr (length_ (pre ++ key) + 1)
                   (length_ (pre ++ key ++ "="%char :: value) - length_ (pre ++ key) - 1) options
                 = inr value).
  { replace (length_ (pre ++ key) + 1) with (length_ (pre ++ key ++ ["="%char])) by len.
    replace options with ((pre ++ key ++ ["="%char]) ++ value ++ tail)
      by (unfold options; rewrite <- !app_assoc; done).
    apply substr_at; len. }
  rewrite Hkey; cbn [mbind sum_bind]. rewrite Hval; cbn [mbind sum_bind].
  destruct (apply_option key value v) as [e|v']; simpl; [done|].
  do 2 f_equal. len.
Qed.

(** ** The option string as a list of pairs *)

Definition segment (kv : cstr * cstr) : cstr := kv.1 ++ "="%char :: kv.2.

Fixpoint render (kvs : list (cstr * cstr)) : cstr :=
  match kvs with
  | [] => []
  | kv :: kvs =>
      segment kv ++ match kvs with [] => [] | _ :: _ => ","%char :: render kvs end
  end.

Definition well_formed (kv : cstr * cstr) : bool :=
  absent "=" kv.1 && absent "," kv.1 && absent "," kv.2.

Fixpoint apply_all (kvs : list (cstr * cstr)) (v : locals) : exn + locals :=
  match kvs with
  | [] => mret v
  | kv :: kvs => v ← apply_option kv.1 kv.2 v; apply_all kvs v
  end.

Lemma segment_length kv : length_ (segment kv) = length_ kv.1 + length_ kv.2 + 1.
Proof. unfold segment. len. Qed.

Lemma render_length kv kvs : length_ (segment kv) <= length_ (render (kv :: kvs)).
Proof. simpl. len. Qed.

Lemma render_count kvs : (length kvs <= length (render kvs))%nat.
Proof.
  induction kvs as [|kv kvs IH]; simpl; [done|]. unfold segment.
  rewrite !length_app; simpl. destruct kvs; simpl in *; lia.
Qed.

Lemma parse_loop_render kvs fuel pre v :
  kvs <> [] -> forallb well_formed kvs = true -> (length kvs <= fuel)%nat ->
  length_ (pre ++ render kvs) < npos ->
  parse_loop fuel (pre ++ render kvs) (length_ pre) v = Some (apply_all kvs v).
Proof.
  revert fuel pre v; induction kvs as [|[k x] kvs IH]; intros [|fuel] pre v Hne Hwf Hf Hlen;
    try done; [simpl in Hf; lia|].
  simpl in Hwf. apply andb_true_iff in Hwf as [Hkv Hwf]. unfold well_formed in Hkv.
  rewrite !andb_true_iff in Hkv. destruct Hkv as [[Hk1 Hk2] Hx]; simpl in *.
  set (tail := match kvs with [] => [] | _ :: _ => ","%char :: render kvs end) in *.
  assert (Ho : pre ++ segment (k, x) ++ tail = pre ++ k ++ "="%char :: x ++ tail)
    by (unfold segment; simpl; by rewrite <- app_assoc).
  assert (Ht : ends tail) by (unfold ends, tail; destruct kvs; eauto).
  rewrite Ho in *. rewrite loop_body_segment by done.
  destruct (apply_option k x v) as [e|v']; simpl; [done|].
  destruct kvs as [|kv' kvs].
  - rewrite (proj2 (Z.ltb_ge _ _)) by (unfold tail; len). done.
  - assert (Hn := render_length kv' kvs). rewrite segment_length in Hn.
    rewrite (proj2 (Z.ltb_lt _ _)) by (unfold tail; len).
    replace (pre ++ k ++ "="%char :: x ++ tail)
      with ((pre ++ k ++ "="%char :: x ++ [","%char]) ++ render (kv' :: kvs)) in *
      by (unfold tail; rewrite <- !app_assoc; simpl; by rewrite <- app_assoc).
    replace (length_ pre + length_ k + length_ x + 2)
      with (length_ (pre ++ k ++ "="%char :: x ++ [","%char])) by len.
    apply IH; [done|done|simpl in *; lia|done].
Qed.

(** C18: the parser splits the option string as documented: for any list of
    pairs whose keys have no [=] and no comma and whose values have no comma,
    parsing [k1=v1,k2=v2,...] applies the options in order, the last one of a
    key winning, stops at the first one that is rejected, and then requires
    the method. *)
Theorem parse_render cwd kvs :
  kvs <> [] -> forallb well_formed kvs = true -> length_ (render kvs) < npos ->
  parseProfilerOptions cwd (render kvs) = Some (v ← apply_all kvs initial; finish cwd v).
Proof.
  intros Hne Hwf Hlen. unfold parseProfilerOptions.
  rewrite (parse_loop_render kvs _ []); [done|done|done| |done].
  pose proof (render_count kvs). lia.
Qed.

Lemma parse_render_witness :
  parseProfilerOptions (str "/w")
    (render [(str "method", str "a/B.m"); (str "x", str "y=z"); (str "period", str "5")])
  = Some (inr {| class_name := Some (str "a/B"); method_name := Some (str "m");
                 profiling_period := 5; threshold := 0; jar_path := None;
                 output_path := Some (str "/w") |}).
Proof.
  rewrite parse_render; [reflexivity|discriminate|reflexivity|].
  vm_compute; reflexivity.
Defined.

Lemma apply_unknown key value v : absent "," key = false -> apply_option key value v = inr v.
Proof.
  intros Ha. destruct v. unfold apply_option.
  repeat (case_bool_decide; [by subst|]). done.
Qed.

Lemma loop_body_unassigned junk kv tail v :
  absent "=" junk = true -> absent "," junk = true -> well_formed kv = true ->
  length_ (junk ++ ","%char :: segment kv ++ tail) < npos ->
  loop_body (junk ++ ","%char :: segment kv ++ tail) 0 v = inr (length_ junk + 1, v).
Proof.
  intros Hj Hj' Hkv Hlen. unfold well_formed in Hkv. rewrite !andb_true_iff in Hkv.
  destruct Hkv as [[Hk1 Hk2] _]. destruct kv as [k x]; simpl in *.
  set (options := junk ++ ","%char :: segment (k, x) ++ tail) in *.
  apply absent_None in Hj, Hj', Hk1.
  assert (Hd : find "," 0 options = length_ junk).
  { change (find "," (length_ []) ([] ++ options) = length_ junk).
    rewrite find_at. unfold options. rewrite index_of_app, Hj'. simpl. len. }
  assert (He : find "=" 0 options = length_ (junk ++ ","%char :: k)).
  { change (find "=" (length_ []) ([] ++ options) = length_ (junk ++ ","%char :: k)).
    rewrite find_at. unfold options, segment. rewrite index_of_app, Hj. simpl.
    rewrite <- app_assoc, index_of_app, Hk1. simpl. len. }
  assert (Hlen' : length_ (junk ++ ","%char :: k) + 1 <= length_ options)
    by (unfold options, segment; len).
  unfold loop_body. rewrite Hd, He.
  assert (Hp : 0 <= length_ junk <= length_ (junk ++ ","%char :: k)) by len.
  rewrite !(proj2 (Z.eqb_neq _ _)) by (unfold npos in *; lia).
  rewrite (wrapu_small 64 (length_ (junk ++ _) - 0)) by (unfold in_u, npos in *; lia).
  rewrite (wrapu_small 64 (length_ (junk ++ _) + 1)) by (unfold in_u, npos in *; lia).
  assert (Hs : substr 0 (length_ (junk ++ ","%char :: k) - 0) options
               = inr (junk ++ ","%char :: k)).
  { change 0 with (length_ []) at 1.
    replace options with ([] ++ (junk ++ ","%char :: k) ++ "="%char :: x ++ tail)
      by (unfold options, segment; simpl; by rewrite <- !app_assoc).
    apply substr_at. lia. }
  rewrite Hs; cbn [mbind sum_bind].
  destruct (substr_ok (length_ (junk ++ ","%char :: k) + 1)
              (u64 (length_ junk - length_ (junk ++ ","%char :: k) - 1)) options) as [y ->];
    [lia|]. cbn [mbind sum_bind].
  rewrite apply_unknown; cbn [mbind sum_bind].
  - rewrite wrapu_small by (unfold in_u, npos in *; lia). done.
  - unfold absent. rewrite index_of_app, Hj', index_of_here. done.
Qed.

(** A segment with no [=] is not rejected when a later one has it: the
    search for [=] runs past the comma, the key that results contains a comma
    and is unknown, and the segment is skipped without an error. *)
Theorem unassigned_segment_skipped cwd junk kvs :
  absent "=" junk = true -> absent "," junk = true ->
  kvs <> [] -> forallb well_formed kvs = true ->
  length_ (junk ++ ","%char :: render kvs) < npos ->
  parseProfilerOptions cwd (junk ++ ","%char :: render kvs)
  = Some (v ← apply_all kvs initial; finish cwd v).
Proof.
  intros Hj Hj' Hne Hwf Hlen. unfold parseProfilerOptions.
  destruct kvs as [|kv kvs]; [done|]. simpl in Hwf.
  pose proof Hwf as [Hkv _]%andb_true_iff.
  cbn [parse_loop]. simpl render at 1. rewrite loop_body_unassigned by done.
  pose proof (render_length kv kvs) as Hn. rewrite segment_length in Hn.
  rewrite (proj2 (Z.ltb_lt _ _)) by len.
  assert (Ho : junk ++ ","%char :: render (kv :: kvs)
               = (junk ++ [","%char]) ++ render (kv :: kvs)) by (by rewrite <- app_assoc).
  rewrite Ho in *. replace (length_ junk + 1) with (length_ (junk ++ [","%char])) by len.
  rewrite parse_loop_render; [done|done|done| |done].
  pose proof (render_count (kv :: kvs)). rewrite length_app. lia.
Qed.

Lemma unassigned_segment_skipped_witness :
  parseProfilerOptions (str "/w") (str "verbose," ++ render [(str "method", str "B.m")])
  = Some (inr {| class_name := Some (str "B"); method_name := Some (str "m");
                 profiling_period := 1000000; threshold := 0; jar_path := None;
                 output_path := Some (str "/w") |}).
Proof.
  change (str "verbose," ++ render [(str "method", str "B.m")])
    with (str "verbose" ++ ","%char :: render [(str "method", str "B.m")]).
  rewrite unassigned_segment_skipped; [reflexivity|reflexivity|reflexivity|discriminate
    |reflexivity|vm_compute; reflexivity].
Defined.

(** ** Termination and the shape of the result *)

Lemma loop_body_progress options pos v pos' v' :
  0 <= pos <= length_ options -> length_ options < npos ->
  loop_body options pos v = inr (pos', v') -> pos < pos'.
Proof.
  intros Hpos Hlen. unfold loop_body.
  pose proof (find_cases "," pos options Hpos) as Hd.
  set (d := find "," pos options) in *.
  destruct (find "=" pos options =? npos); [done|].
  destruct (substr pos _ options); cbn [mbind sum_bind]; [done|].
  destruct (substr _ _ options); cbn [mbind sum_bind]; [done|].
  destruct (apply_option _ _ v); cbn [mbind sum_bind]; [done|].
  intros [= <- <-]. destruct (Z.eqb_spec d npos) as [->|Hn].
  - rewrite wrapu_small by (unfold in_u, npos in *; lia). lia.
  - rewrite wrapu_small by (unfold in_u, npos in *; lia). lia.
Qed.

Lemma parse_loop_total fuel options pos v :
  0 <= pos <= length_ options -> length_ options < npos ->
  length_ options - pos < Z.of_nat fuel ->
  exists r, parse_loop fuel options pos v = Some r.
Proof.
  revert pos v; induction fuel as [|fuel IH]; intros pos v Hpos Hlen Hf; [lia|].
  cbn [parse_loop]. destruct (loop_body options pos v) as [e|[pos' v']] eqn:Hb; [by eexists|].
  apply loop_body_progress in Hb; [|done|done].
  destruct (Z.ltb_spec pos' (length_ options)); [|by eexists]. apply IH; lia.
Qed.

(** C33: the parser terminates on every option string: each turn of the loop
    moves past at least one character, so as many turns as the string has
    characters, plus one, are enough. *)
Theorem parse_terminates cwd options :
  length_ options < npos ->
  exists r, parseProfilerOptions cwd options = Some r.
Proof.
  intros Hlen. unfold parseProfilerOptions.
  destruct (parse_loop_total (S (length options)) options 0 initial) as [r ->];
    [unfold length_; lia|done|unfold length_; lia|]. by eexists.
Qed.

Lemma parse_terminates_witness :
  exists r, parseProfilerOptions (str "/w") (str ",,=,method") = Some r.
Proof. apply parse_terminates. vm_compute; reflexivity. Defined.

Lemma stoi_range s n : stoi s = inr n -> in_s 32 n.
Proof.
  unfold stoi. destruct (sign (skip_spaces s)) as [sg [|c ds]]; [done|].
  destruct (digit c); [|done]. case_bool_decide; [|done]. by intros [= <-].
Qed.

(** What the local variables satisfy after any number of turns. *)
Definition locals_ok (v : locals) : Prop :=
  in_s 32 (v_period v) /\
  (exists ms, v_threshold v = 1000000 * ms /\ in_s 32 ms) /\
  (is_Some (v_method v) -> is_Some (v_klass v)).

Lemma initial_ok : locals_ok initial.
Proof.
  split_and!; [by unfold in_s|exists 0; by unfold in_s|by intros [? ?]].
Qed.

Lemma apply_option_ok key value v v' :
  locals_ok v -> apply_option key value v = inr v' -> locals_ok v'.
Proof.
  destruct v as [p t m k j o]. intros (Hp & Ht & Hm) H; simpl in *.
  unfold apply_option, mret, sum_ret in H.
  repeat case_bool_decide; simplify_eq/=; try done.
  - destruct (parseMethod value) as [e|[c n]]; simplify_eq/=. split_and!; [done|done|by eexists].
  - destruct (parsePeriod value) as [e|n] eqn:E; simplify_eq/=.
    apply stoi_range in E. by split_and!.
  - unfold parseThreshold, mret, sum_ret in H. destruct (stoi value) as [e|n] eqn:E; simplify_eq/=.
    apply stoi_range in E. split_and!; [done| |done]. exists n; split; [|done].
    apply wraps_small; [lia|]. unfold in_s in *. lia.
Qed.

Lemma parse_loop_ok fuel options pos v v' :
  locals_ok v -> parse_loop fuel options pos v = Some (inr v') -> locals_ok v'.
Proof.
  revert pos v; induction fuel as [|fuel IH]; intros pos v Hv; [done|].
  cbn [parse_loop]. destruct (loop_body options pos v) as [e|[pos' v1]] eqn:Hb; [done|].
  assert (Hv1 : locals_ok v1).
  { unfold loop_body, mret, sum_ret in Hb.
    destruct (find "=" pos options =? npos); [done|].
    destruct (substr pos _ options) as [|key]; simplify_eq/=.
    destruct (substr _ _ options) as [|value]; simplify_eq/=.
    destruct (apply_option key value v) as [|v2] eqn:Ha; simplify_eq/=.
    by eapply apply_option_ok. }
  destruct (pos' <? length_ options); [by apply IH|]. by intros [= <-].
Qed.

(** C34: what the rest of the agent may rely on when parsing succeeds: class,
    method and output path are present (they are dereferenced without a
    check), the sampling period is an [int] count of nanoseconds, and the
    threshold is an [int] count of milliseconds converted to nanoseconds with
    no overflow. *)
Theorem parsed_options_usable cwd options o :
  parseProfilerOptions cwd options = Some (inr o) ->
  is_Some (class_name o) /\ is_Some (method_name o) /\ is_Some (output_path o) /\
  in_s 32 (profiling_period o) /\
  (exists ms, threshold o = 1000000 * ms /\ in_s 32 ms) /\ in_s 64 (threshold o).
Proof.
  unfold parseProfilerOptions. destruct (parse_loop _ _ _ _) as [[e|v]|] eqn:E; try done.
  apply parse_loop_ok in E as (Hp & (ms & Ht & Hms) & Hm); [|apply initial_ok].
  intros H; injection H as H; simpl in H. unfold finish in H.
  destruct (v_method v) as [m|]; [|done]. injection H as <-; simpl.
  split_and!; [apply Hm; by eexists|by eexists| |done|by exists ms|].
  - destruct (v_output_path v); by eexists.
  - rewrite Ht. unfold in_s in *. lia.
Qed.

Lemma parsed_options_usable_witness :
  in_s 64 2000000 /\ exists o,
  parseProfilerOptions (str "/w") (str "method=B.m,threshold=2") = Some (inr o) /\
  is_Some (class_name o) /\ in_s 64 (threshold o).
Proof.
  split; [by unfold in_s|]. eexists; split; [reflexivity|].
  destruct (parsed_options_usable (str "/w") (str "method=B.m,threshold=2") _ eq_refl)
    as (Hc & _ & _ & _ & _ & Ht).
  split; [exact Hc|exact Ht].
Defined.

(** ** [stoi] *)

Definition digit_char (d : Z) : ascii := ascii_of_nat (48 + Z.to_nat d).
Arguments digit_char : simpl never.
Definition value_of (ds : list Z) : Z := foldl (fun a d => 10 * a + d) 0 ds.
Definition is_digit (d : Z) : bool := (0 <=? d) && (d <=? 9).

Lemma is_digit_cases d :
  is_digit d = true ->
  d = 0 \/ d = 1 \/ d = 2 \/ d = 3 \/ d = 4 \/ d = 5 \/ d = 6 \/ d = 7 \/ d = 8 \/ d = 9.
Proof. unfold is_digit. rewrite andb_true_iff, !Z.leb_le. lia. Qed.

Lemma digit_digit_char d : is_digit d = true -> digit (digit_char d) = Some d.
Proof.
  intros Hd%is_digit_cases. destruct_or! Hd; subst; reflexivity.
Qed.

Lemma digits_app ds a rest :
  forallb is_digit ds = true ->
  match rest with [] => True | c :: _ => digit c = None end ->
  digits a (map digit_char ds ++ rest) = foldl (fun a d => 10 * a + d) a ds.
Proof.
  revert a; induction ds as [|d ds IH]; intros a Hds Hr; cbn [forallb map app digits foldl] in *.
  - destruct rest as [|c rest]; cbn [digits]; [done|]. by rewrite Hr.
  - apply andb_true_iff in Hds as [Hd Hds]. rewrite digit_digit_char by done. by apply IH.
Qed.

Lemma digit_char_plain d :
  is_digit d = true ->
  isspace (digit_char d) = false /\ Ascii.eqb (digit_char d) "-" = false /\
  Ascii.eqb (digit_char d) "+" = false.
Proof.
  intros Hd%is_digit_cases. destruct_or! Hd; subst; repeat split; reflexivity.
Qed.

(** A numeric option: a non-empty run of decimal digits, after an optional
    minus sign, is read as the number it denotes when that is an [int], and
    rejected with [std::out_of_range] otherwise; whatever follows the first
    character that is not a digit is ignored. *)
Theorem stoi_decimal (neg : bool) d ds rest :
  forallb is_digit (d :: ds) = true ->
  match rest with [] => True | c :: _ => digit c = None end ->
  let n := (if neg then -1 else 1) * value_of (d :: ds) in
  stoi ((if neg then ["-"%char] else []) ++ map digit_char (d :: ds) ++ rest)
  = if bool_decide (in_s 32 n) then inr n else inl (Out_of_range "stoi").
Proof.
  intros Hds Hr n. pose proof Hds as Hd. cbn [forallb] in Hd.
  apply andb_true_iff in Hd as [Hd _]. destruct (digit_char_plain d Hd) as (Hs & Hm & Hp).
  pose proof (digits_app (d :: ds) 0 rest Hds Hr) as Hv.
  change (map digit_char (d :: ds) ++ rest)
    with (digit_char d :: (map digit_char ds ++ rest)) in *.
  assert (Hbody : forall sg,
    (match digit_char d :: map digit_char ds ++ rest with
     | c :: _ => match digit c with
       | Some _ => let v := sg * digits 0 (digit_char d :: map digit_char ds ++ rest) in
                   if bool_decide (in_s 32 v) then mret v else inl (Out_of_range "stoi")
       | None => inl (Invalid_argument "stoi") end
     | [] => inl (Invalid_argument "stoi") end : exn + Z)
    = if bool_decide (in_s 32 (sg * value_of (d :: ds))) then inr (sg * value_of (d :: ds))
      else inl (Out_of_range "stoi")).
  { intros sg. rewrite digit_digit_char by done. rewrite Hv. done. }
  unfold stoi, n. destruct neg; cbn [app].
  - change (skip_spaces ("-"%char :: ?x)) with ("-"%char :: x). apply (Hbody (-1)).
  - cbn [skip_spaces]. rewrite Hs. unfold sign. rewrite Hm, Hp. apply (Hbody 1).
Qed.

Lemma stoi_decimal_witness : stoi (str "-42ms") = inr (-42).
Proof. apply (stoi_decimal true 4 [2] (str "ms")); reflexivity. Defined.

End ArgsParser.
