(* ===== verification/TraceModel.v ===== *)
(** * The data the tracer records (profiler/model/trace.hpp,
    profiler/model/asyncTrace.hpp, and the structs of trace/traceStorage.hpp)

    A [jlong], [pthread_t] or address is a [Z].  A [std::string*] held by a
    stack frame points into a table of the profiler or of the symbolizer;
    [strptr] says into which one. *)

From S2P Require Import Prelude ConcurrentList ConcurrentMap TraceTime.
From Stdlib Require Import ZArith Lia.
From stdpp Require Import base gmap list strings numbers.
Local Open Scope Z_scope.

(** What a sampled instruction pointer resolved to in the signal handler: an
    address (native) or a [jmethodID] (Java). *)
Record InstructionInfo := MkInstruction {
  instruction : Z;
  frame : Z;
  java_frame : bool;
}.

(** The value-initialised array element of [make_unique<InstructionInfo[]>]. *)
Definition no_instruction : InstructionInfo := MkInstruction 0 0 false.

Record AsyncTrace := MkAsync {
  instructions : list InstructionInfo;
  at_size : Z;
  thread_id : Z;
  ready : bool;
  at_coroutine_id : Z;
  at_stack_lo : Z;
  at_stack_hi : Z;
}.

(** The constructor: [ready] is clear and the coroutine is [-1]. *)
Definition make_async (instrs : list InstructionInfo) (size thread lo hi : Z) : AsyncTrace :=
  MkAsync instrs size thread false (-1) lo hi.

Record RawCallTraceRecord := MkRaw {
  raw_time : TraceTime;
  trace_count : Z;
  raw_trace : AsyncTrace;
  raw_thread : Z;
  raw_coroutine_id : Z;
}.

(** The targets of a [std::string*]: an entry of [method_info_map_] or
    [class_info_map_], one of the profiler's constant strings, the symbol or
    library name of a native function, or the name of a thread. *)
Inductive strptr :=
  | MethodName (id : Z)
  | ClassName (id : Z)
  | UnknownNative
  | UnknownJava
  | EmptyName
  | SymbolName (addr : Z)
  | LibraryName (addr : Z)
  | ThreadName (l : nat).

#[global] Instance strptr_eq_dec : EqDecision strptr.
Proof. solve_decision. Defined.

Record StackFrame := MkFrame { sf_frame : strptr; sf_base : strptr }.

Record ProcessedTraceRecord := MkProcessed {
  stack_trace : list StackFrame;
  thread_name : strptr;
  time : TraceTime;
}.

Record TraceInfo := MkTraceInfo {
  ti_coroutine_id : Z;
  ti_start : TraceTime;
  ti_end : TraceTime;
}.

#[global] Instance TraceInfo_default : CppDefault TraceInfo := MkTraceInfo 0 0 0.

Record SuspensionInfo := MkSuspension {
  si_coroutine_id : Z;
  si_start : TraceTime;
  si_end : TraceTime;
  suspension_stack_trace : list StackFrame;
}.

(** [TraceStorage::CoroutineInfo]: the suspensions are [shared_ptr]s, so the
    list holds locations. *)
Record CoroutineInfo := MkCoroutine {
  ci_start : TraceTime;
  ci_end : TraceTime;
  last_resume : TraceTime;
  wall_clock_running_time : TraceTime;
  cpu_user_clock_running_time_us : TraceTime;
  cpu_system_clock_running_time_us : TraceTime;
  voluntary_switches : Z;
  involuntary_switches : Z;
  suspensions_list : clist nat;
}.

Definition make_coroutine (start end_ resume wall user sys vol invol : Z) : CoroutineInfo :=
  MkCoroutine start end_ resume wall user sys vol invol ConcurrentList.make.

(** [TraceStorage::GCEvent]. *)
Record GCEvent := MkGC { gc_start : TraceTime; gc_end : TraceTime }.

Definition suspensions_L : Lens CoroutineInfo (clist nat) :=
  field_lens suspensions_list (fun x c => MkCoroutine (ci_start c) (ci_end c) (last_resume c)
    (wall_clock_running_time c) (cpu_user_clock_running_time_us c)
    (cpu_system_clock_running_time_us c) (voluntary_switches c) (involuntary_switches c) x).
Definition set_ci_end (x : TraceTime) (c : CoroutineInfo) : CoroutineInfo :=
  MkCoroutine (ci_start c) x (last_resume c) (wall_clock_running_time c)
    (cpu_user_clock_running_time_us c) (cpu_system_clock_running_time_us c)
    (voluntary_switches c) (involuntary_switches c) (suspensions_list c).
Definition set_last_resume (x : TraceTime) (c : CoroutineInfo) : CoroutineInfo :=
  MkCoroutine (ci_start c) (ci_end c) x (wall_clock_running_time c)
    (cpu_user_clock_running_time_us c) (cpu_system_clock_running_time_us c)
    (voluntary_switches c) (involuntary_switches c) (suspensions_list c).
Definition set_si_end (x : TraceTime) (i : SuspensionInfo) : SuspensionInfo :=
  MkSuspension (si_coroutine_id i) (si_start i) x (suspension_stack_trace i).
Definition set_gc_end (x : TraceTime) (e : GCEvent) : GCEvent := MkGC (gc_start e) x.
