(* ===== verification/TraceStorage.v ===== *)
(** * [TraceStorage] (trace/traceStorage.hpp, trace/traceStorage.cpp)

    The store shared by the instrumented threads, the profiler thread, the
    garbage collector callbacks and the cleaner thread.  Each [shared_ptr]
    target lives in a heap of the state, so that an object reachable from two
    places is one object.  Every method is a program over the state, made of
    the locked operations of the concurrent collections. *)

From S2P Require Import Prelude ConcurrentList ConcurrentMap TraceTime TraceModel.
From Stdlib Require Import ZArith Lia.
From stdpp Require Import base gmap list strings numbers.
Local Open Scope Z_scope.
Local Open Scope kt_scope.

Record TraceStorage := MkStorage {
  clock : clock_state;
  raw_list_ : clist RawCallTraceRecord;
  processed_map_ : cmap Z ptr;
  traces_heap : heap (clist ProcessedTraceRecord);
  ongoing_trace_info_map_ : cmap Z TraceInfo;
  child_coroutines_map_ : cmap Z ptr;
  child_heap : heap (clist Z);
  coroutine_info_map_ : cmap Z ptr;
  info_heap : heap CoroutineInfo;
  suspension_heap : heap SuspensionInfo;
  gc_events_ : clist nat;
  gc_heap : heap GCEvent;
  active_ : bool;
}.

Definition clock_L : Lens TraceStorage (clock_state) :=
  field_lens clock (fun x s => MkStorage
    x (raw_list_ s) (processed_map_ s) (traces_heap s) (ongoing_trace_info_map_ s)
    (child_coroutines_map_ s) (child_heap s) (coroutine_info_map_ s) (info_heap s)
    (suspension_heap s) (gc_events_ s) (gc_heap s) (active_ s)).
Definition raw_L : Lens TraceStorage (clist RawCallTraceRecord) :=
  field_lens raw_list_ (fun x s => MkStorage
    (clock s) x (processed_map_ s) (traces_heap s) (ongoing_trace_info_map_ s)
    (child_coroutines_map_ s) (child_heap s) (coroutine_info_map_ s) (info_heap s)
    (suspension_heap s) (gc_events_ s) (gc_heap s) (active_ s)).
Definition processed_L : Lens TraceStorage (cmap Z ptr) :=
  field_lens processed_map_ (fun x s => MkStorage
    (clock s) (raw_list_ s) x (traces_heap s) (ongoing_trace_info_map_ s)
    (child_coroutines_map_ s) (child_heap s) (coroutine_info_map_ s) (info_heap s)
    (suspension_heap s) (gc_events_ s) (gc_heap s) (active_ s)).
Definition traces_heap_L : Lens TraceStorage (heap (clist ProcessedTraceRecord)) :=
  field_lens traces_heap (fun x s => MkStorage
    (clock s) (raw_list_ s) (processed_map_ s) x (ongoing_trace_info_map_ s)
    (child_coroutines_map_ s) (child_heap s) (coroutine_info_map_ s) (info_heap s)
    (suspension_heap s) (gc_events_ s) (gc_heap s) (active_ s)).
Definition ongoing_L : Lens TraceStorage (cmap Z TraceInfo) :=
  field_lens ongoing_trace_info_map_ (fun x s => MkStorage
    (clock s) (raw_list_ s) (processed_map_ s) (traces_heap s) x (child_coroutines_map_ s)
    (child_heap s) (coroutine_info_map_ s) (info_heap s) (suspension_heap s) (gc_events_ s)
    (gc_heap s) (active_ s)).
Definition children_L : Lens TraceStorage (cmap Z ptr) :=
  field_lens child_coroutines_map_ (fun x s => MkStorage
    (clock s) (raw_list_ s) (processed_map_ s) (traces_heap s) (ongoing_trace_info_map_ s) x
    (child_heap s) (coroutine_info_map_ s) (info_heap s) (suspension_heap s) (gc_events_ s)
    (gc_heap s) (active_ s)).
Definition child_heap_L : Lens TraceStorage (heap (clist Z)) :=
  field_lens child_heap (fun x s => MkStorage
    (clock s) (raw_list_ s) (processed_map_ s) (traces_heap s) (ongoing_trace_info_map_ s)
    (child_coroutines_map_ s) x (coroutine_info_map_ s) (info_heap s) (suspension_heap s)
    (gc_events_ s) (gc_heap s) (active_ s)).
Definition infos_L : Lens TraceStorage (cmap Z ptr) :=
  field_lens coroutine_info_map_ (fun x s => MkStorage
    (clock s) (raw_list_ s) (processed_map_ s) (traces_heap s) (ongoing_trace_info_map_ s)
    (child_coroutines_map_ s) (child_heap s) x (info_heap s) (suspension_heap s) (gc_events_
    s) (gc_heap s) (active_ s)).
Definition info_heap_L : Lens TraceStorage (heap CoroutineInfo) :=
  field_lens info_heap (fun x s => MkStorage
    (clock s) (raw_list_ s) (processed_map_ s) (traces_heap s) (ongoing_trace_info_map_ s)
    (child_coroutines_map_ s) (child_heap s) (coroutine_info_map_ s) x (suspension_heap s)
    (gc_events_ s) (gc_heap s) (active_ s)).
Definition susp_heap_L : Lens TraceStorage (heap SuspensionInfo) :=
  field_lens suspension_heap (fun x s => MkStorage
    (clock s) (raw_list_ s) (processed_map_ s) (traces_heap s) (ongoing_trace_info_map_ s)
    (child_coroutines_map_ s) (child_heap s) (coroutine_info_map_ s) (info_heap s) x
    (gc_events_ s) (gc_heap s) (active_ s)).
Definition gc_L : Lens TraceStorage (clist nat) :=
  field_lens gc_events_ (fun x s => MkStorage
    (clock s) (raw_list_ s) (processed_map_ s) (traces_heap s) (ongoing_trace_info_map_ s)
    (child_coroutines_map_ s) (child_heap s) (coroutine_info_map_ s) (info_heap s)
    (suspension_heap s) x (gc_heap s) (active_ s)).
Definition gc_heap_L : Lens TraceStorage (heap GCEvent) :=
  field_lens gc_heap (fun x s => MkStorage
    (clock s) (raw_list_ s) (processed_map_ s) (traces_heap s) (ongoing_trace_info_map_ s)
    (child_coroutines_map_ s) (child_heap s) (coroutine_info_map_ s) (info_heap s)
    (suspension_heap s) (gc_events_ s) x (active_ s)).
Definition active_L : Lens TraceStorage (bool) :=
  field_lens active_ (fun x s => MkStorage
    (clock s) (raw_list_ s) (processed_map_ s) (traces_heap s) (ongoing_trace_info_map_ s)
    (child_coroutines_map_ s) (child_heap s) (coroutine_info_map_ s) (info_heap s)
    (suspension_heap s) (gc_events_ s) (gc_heap s) x).

Section methods.
Context `{CK : !SteadyClock}.

Definition now : prog TraceStorage TraceTime := zoom clock_L currentTimeNs.

(** The constructor; the cleaner thread is [cleaner_turn] below. *)
Definition make_storage : TraceStorage :=
  MkStorage (ClockState 0) CL.make CM.make heap_empty CM.make CM.make heap_empty CM.make
    heap_empty heap_empty CL.make heap_empty true.

(** The destructor only clears the flag the cleaner thread tests. *)
Definition destroy_storage : prog TraceStorage unit := zoom active_L (modify (fun _ => false)).

Definition addRawTrace (time : TraceTime) (trace : AsyncTrace) (coroutine_id : Z) :
    prog TraceStorage unit :=
  zoom raw_L (CL.push_back (MkRaw (tt_get time) (at_size trace) trace (thread_id trace)
                              coroutine_id)).

Definition removeRawTraceHeader : prog TraceStorage (option RawCallTraceRecord) :=
  zoom raw_L CL.pop_front.

Definition addProcessedTrace (coroutine_id : Z) (record : ProcessedTraceRecord) :
    prog TraceStorage unit :=
  c ← zoom processed_L (CM.contains coroutine_id);
  if (c : bool) then
    p ← zoom processed_L (CM.at_ coroutine_id);
    zoom traces_heap_L (at_ptr p (CL.push_back record))
  else
    l ← zoom traces_heap_L (halloc CL.make);
    zoom traces_heap_L (at_ptr (Some l) (CL.push_back record));;
    zoom processed_L (CM.insert coroutine_id (Some l));;
    mret tt.

Definition addOngoingTraceInfo (trace_info : TraceInfo) : prog TraceStorage bool :=
  zoom ongoing_L (CM.insert (ti_coroutine_id trace_info) trace_info).

(** Returns a reference; every caller copies the object. *)
Definition findOngoingTraceInfo (coroutine_id : Z) : prog TraceStorage TraceInfo :=
  zoom ongoing_L (CM.get coroutine_id).

Definition removeOngoingTraceInfo (coroutine_id : Z) : prog TraceStorage unit :=
  zoom ongoing_L (CM.erase coroutine_id);; mret tt.

Definition addSuspensionInfo (suspension_info : ptr) : prog TraceStorage unit :=
  id ← zoom susp_heap_L (hread suspension_info si_coroutine_id);
  coroutine_info ← zoom infos_L (CM.at_ id);
  match suspension_info with
  | None => undef "null pointer dereference"
  | Some l => zoom info_heap_L (at_ptr coroutine_info (zoom suspensions_L (CL.push_back l)))
  end.

(** The two readings of the clock are arguments of one call; the model takes
    them in order. *)
Definition createCoroutineInfo (coroutine_id : Z) : prog TraceStorage unit :=
  start ← now;
  resume ← now;
  l ← zoom info_heap_L (halloc (make_coroutine start 0 resume 0 0 0 0 0));
  c ← zoom infos_L (CM.contains coroutine_id);
  if (c : bool) then mret tt
  else zoom infos_L (CM.insert coroutine_id (Some l));; mret tt.

Definition getCoroutineInfo (coroutine_id : Z) : prog TraceStorage ptr :=
  c ← zoom infos_L (CM.contains coroutine_id);
  if (c : bool) then zoom infos_L (CM.get coroutine_id) else mret None.

(** The predicate [suspensionInfo->end == 0]. *)
Definition open_suspension (s : TraceStorage) (l : nat) : bool :=
  match cells (suspension_heap s) !! l with
  | Some i => tt_eqb (si_end i) 0
  | None => false
  end.

Definition getLastSuspensionInfo (coroutine_id : Z) : prog TraceStorage ptr :=
  c ← zoom infos_L (CM.contains coroutine_id);
  if (c : bool) then
    p ← zoom infos_L (CM.get coroutine_id);
    act (fun s =>
      match p ≫= (fun l => cells (info_heap s) !! l) with
      | None => Undef "null pointer dereference"
      | Some i => Val (List.find (open_suspension s) (CL.list_ (suspensions_list i))) s
      end)
  else mret None.

Definition getChildCoroutines (coroutine_id : Z) : prog TraceStorage ptr :=
  zoom children_L (CM.get coroutine_id).

Definition addChildCoroutine (coroutine_id parent_coroutine_id : Z) : prog TraceStorage unit :=
  p ← zoom children_L (CM.get parent_coroutine_id);
  zoom child_heap_L (at_ptr p (CL.push_back coroutine_id)).

Definition createChildCoroutineStorage (coroutine_id : Z) : prog TraceStorage unit :=
  l ← zoom child_heap_L (halloc CL.make);
  zoom children_L (CM.insert coroutine_id (Some l));;
  mret tt.

Definition containsChildCoroutineStorage (coroutine_id : Z) : prog TraceStorage bool :=
  zoom children_L (CM.contains coroutine_id).

Definition getProcessedTraces (coroutine_id : Z) : prog TraceStorage ptr :=
  c ← zoom processed_L (CM.contains coroutine_id);
  if (c : bool) then zoom processed_L (CM.at_ coroutine_id) else mret None.

Definition mark_for_clean : prog TraceStorage unit :=
  zoom processed_L CM.mark_current_values_for_clean;;
  zoom children_L CM.mark_current_values_for_clean;;
  zoom infos_L CM.mark_current_values_for_clean;;
  zoom gc_L CL.mark_for_clean.

Definition clean : prog TraceStorage unit :=
  zoom processed_L CM.clean;;
  zoom children_L CM.clean;;
  zoom infos_L CM.clean;;
  zoom gc_L CL.clean.

(** One turn of the cleaner thread's loop (the sleep between the two halves is
    where other threads act); the result says whether the loop goes on. *)
Definition cleaner_turn : prog TraceStorage bool :=
  a ← zoom active_L (reads id);
  if (a : bool) then mark_for_clean;; clean;; mret true else mret false.

Definition gcStart : prog TraceStorage unit :=
  t ← now;
  l ← zoom gc_heap_L (halloc (MkGC t 0));
  zoom gc_L (CL.push_back l).

Definition gcFinish : prog TraceStorage unit :=
  gc_event ← zoom gc_L CL.back;
  zoom gc_L CL.pop_front;;
  t ← now;
  zoom gc_heap_L (hmodify (Some gc_event) (set_gc_end t));;
  zoom gc_L (CL.push_back gc_event).

(** [event->start >= start && event->end <= stop]. *)
Definition gc_in_window (start stop : TraceTime) (e : GCEvent) : bool :=
  tt_geb (gc_start e) start && tt_leb (gc_end e) stop.

(** [gc_events_->forEach]. *)
Definition findGcEvents {R} (start stop : TraceTime) (for_each : R -> GCEvent -> R) (r : R) :
    prog TraceStorage R :=
  act (fun s =>
    match mapM (fun l => cells (gc_heap s) !! l) (CL.list_ (gc_events_ s)) with
    | Some es =>
        Val (foldl (fun r e => if gc_in_window start stop e then for_each r e else r) r es) s
    | None => Undef "dangling pointer"
    end).
End methods.
