(* ===== verification/StorageSafety.v ===== *)
(** * Well-formedness of the trace storage

    The invariant of [TraceStorage] and the proof that every method preserves
    it without throwing and without undefined behaviour, under the condition
    its caller has to establish. *)

From S2P Require Import Prelude ConcurrentList ConcurrentMap TraceTime TraceModel TraceStorage.
From Stdlib Require Import ZArith Lia.
From stdpp Require Import base gmap list strings numbers.
Local Open Scope Z_scope.
Local Open Scope kt_scope.

(** ** Maps of shared objects *)

(** Every entry is a pointer to an object of the heap, and no two keys share
    an object. *)
Definition owns {A} (m : gmap Z ptr) (h : heap A) : Prop :=
  (forall k p, m !! k = Some p -> exists l, p = Some l /\ valid h l) /\
  (forall k k' l, m !! k = Some (Some l) -> m !! k' = Some (Some l) -> k = k').

Section owns.
Context {A : Type}.
Implicit Types (m : gmap Z ptr) (h : heap A).

Lemma owns_empty h : owns ∅ h.
Proof. split; intros *; by rewrite lookup_empty. Qed.

Lemma owns_grow m h a : owns m h -> owns m (Heap (<[next h := a]> (cells h)) (S (next h))).
Proof.
  intros [Hv Hi]; split; [|done]. intros k p Hk.
  destruct (Hv k p Hk) as (l & -> & Hl). eauto using valid_grow.
Qed.

Lemma owns_put m h l a : owns m h -> owns m (hput l a h).
Proof.
  intros [Hv Hi]; split; [|done]. intros k p Hk.
  destruct (Hv k p Hk) as (l' & -> & Hl). eauto using valid_put.
Qed.

Lemma owns_insert m h k a :
  heap_wf h -> owns m h ->
  owns (<[k := Some (next h)]> m) (Heap (<[next h := a]> (cells h)) (S (next h))).
Proof.
  intros Hwf Ho. pose proof (owns_grow _ _ a Ho) as [Hv Hi]. destruct Ho as [Hv0 _]. split.
  - intros k' p. rewrite lookup_insert. case_decide; [|by apply Hv].
    intros [= <-]. eauto using valid_new.
  - assert (Hfresh : forall k', m !! k' = Some (Some (next h)) -> False).
    { intros k' Hk'. destruct (Hv0 _ _ Hk') as (l & [= <-] & [b Hb]).
      rewrite heap_fresh in Hb; done. }
    intros k1 k2 l. rewrite !lookup_insert. repeat case_decide; subst; try done.
    + intros [= <-] H2. exfalso; eauto.
    + intros H1 [= <-]. exfalso; eauto.
    + apply Hi.
Qed.

Lemma owns_subset m m' h :
  owns m h -> (forall k p, m' !! k = Some p -> m !! k = Some p) -> owns m' h.
Proof. intros [Hv Hi] Hsub; split; eauto. Qed.

Lemma owns_lookup m h k p :
  owns m h -> m !! k = Some p -> exists l a, p = Some l /\ cells h !! l = Some a.
Proof. intros [Hv _] Hk. destruct (Hv k p Hk) as (l & -> & [a Ha]). eauto. Qed.

Lemma owns_erase m h ks : owns m h -> owns (CM.erase_all ks m) h.
Proof.
  intros Ho. eapply owns_subset; [done|]. intros k p.
  rewrite CM.lookup_erase_all. by case_bool_decide.
Qed.
End owns.

(** ** The invariant *)

Record storage_wf (s : TraceStorage) : Prop := {
  wf_traces_heap : heap_wf (traces_heap s);
  wf_child_heap : heap_wf (child_heap s);
  wf_info_heap : heap_wf (info_heap s);
  wf_susp_heap : heap_wf (suspension_heap s);
  wf_gc_heap : heap_wf (gc_heap s);
  wf_processed : owns (CM.map_ (processed_map_ s)) (traces_heap s);
  wf_children : owns (CM.map_ (child_coroutines_map_ s)) (child_heap s);
  wf_infos : owns (CM.map_ (coroutine_info_map_ s)) (info_heap s);
  wf_suspensions : forall l i, cells (info_heap s) !! l = Some i ->
    Forall (valid (suspension_heap s)) (CL.list_ (suspensions_list i));
  wf_gc_events : Forall (valid (gc_heap s)) (CL.list_ (gc_events_ s));
}.

(** The recorded collections. *)
Definition gc_objects (s : TraceStorage) : list GCEvent :=
  omap (fun l => cells (gc_heap s) !! l) (CL.list_ (gc_events_ s)).

Lemma wp_findGcEvents {R} start stop (g : R -> GCEvent -> R) r s (Q : R -> TraceStorage -> Prop) :
  Forall (valid (gc_heap s)) (CL.list_ (gc_events_ s)) ->
  Q (foldl (fun r e => if gc_in_window start stop e then g r e else r) r (gc_objects s)) s ->
  wp (findGcEvents start stop g r) s Q.
Proof.
  intros Hv HQ. unfold findGcEvents. eapply wp_act; [|exact HQ]. unfold gc_objects.
  replace (mapM _ _) with (Some (omap (fun l => cells (gc_heap s) !! l) (CL.list_ (gc_events_ s)))); [done|].
  induction Hv as [|l ls [e He] _ IH]; [done|]. rewrite omap_cons, He. cbn [mapM].
  rewrite He. cbn [mbind option_bind]. by rewrite <- IH.
Qed.

Lemma keeps_findGcEvents {B R} (f : TraceStorage -> B) start stop (g : R -> GCEvent -> R) r :
  keeps f (findGcEvents start stop g r).
Proof. cbn. split; [|done]. intros s b s'. destruct (mapM _ _); [|done]. by intros [= _ <-]. Qed.

Lemma make_storage_wf : storage_wf make_storage.
Proof.
  split; simpl; try apply heap_wf_empty; try apply owns_empty; [|by constructor].
  intros l i. by rewrite lookup_empty.
Qed.

#[export] Hint Resolve owns_empty owns_grow owns_put owns_insert owns_erase : kt.
#[export] Hint Resolve wf_traces_heap wf_child_heap wf_info_heap wf_susp_heap wf_gc_heap
  wf_processed wf_children wf_infos wf_suspensions wf_gc_events : kt.

(** The state after an operation is well-formed when the parts it changed are. *)
Ltac storage_wf :=
  match goal with H : storage_wf _ |- _ => destruct H end;
  split; simpl in *; eauto with kt.

(** Operations of the collections that are one read or one write. *)
Ltac wp_prim ::=
  match goal with
  | |- wp (CL.push_back _) _ _ => apply wp_modify
  | |- wp (CM.contains _) _ _ => apply wp_reads
  | |- wp CM.mark_current_values_for_clean _ _ => apply wp_modify
  | |- wp CM.clean _ _ => apply wp_modify
  | |- wp CL.mark_for_clean _ _ => apply wp_modify
  end.

Section safety.
Context `{CK : !SteadyClock}.
Implicit Types s : TraceStorage.

Lemma wp_now s Q :
  Q (steady (readings (clock s))) (lset clock_L (ClockState (S (readings (clock s)))) s) ->
  wp now s Q.
Proof. intros HQ. unfold now. wp_step. eapply wp_run; [apply run_currentTimeNs|]. done. Qed.

(** *** Methods on the maps of shared objects *)

Lemma wp_addProcessedTrace s id r (Q : unit -> TraceStorage -> Prop) :
  let m := CM.map_ (processed_map_ s) in
  let h := traces_heap s in
  owns m h ->
  (m !! id = None ->
   Q tt (lset processed_L (CMap (<[id := Some (next h)]> m) (CM.clean_list_ (processed_map_ s)))
           (lset traces_heap_L (Heap (<[next h := CList [r] 0]> (cells h)) (S (next h))) s))) ->
  (forall l c, m !! id = Some (Some l) -> cells h !! l = Some c ->
   Q tt (lset traces_heap_L (hput l (CList (CL.list_ c ++ [r]) (CL.clean_until_ c)) h) s)) ->
  wp (addProcessedTrace id r) s Q.
Proof.
  intros m h Ho Hnew Hold. unfold addProcessedTrace. apply wp_bind, wp_zoom, wp_reads.
  cbn [lget lset processed_L]. fold m.
  destruct (m !! id) as [p|] eqn:Hm.
  - rewrite bool_decide_eq_true_2 by eauto.
    destruct (owns_lookup _ _ _ _ Ho Hm) as (l & c & -> & Hl).
    apply wp_bind, wp_zoom. eapply wp_run; [by apply CM.run_at_Some|].
    apply wp_zoom. eapply wp_at_ptr; [exact Hl|]. apply wp_modify.
    rewrite lset_lget. by apply Hold.
  - rewrite bool_decide_eq_false_2 by (by intros [? ?]). wp_steps.
    eapply wp_at_ptr; [apply lookup_insert_eq|]. wp_steps.
    eapply wp_run; [by apply CM.run_insert_None|]. wp_steps.
    unfold hput; simpl. rewrite insert_insert_eq. specialize (Hnew eq_refl). by destruct s.
Qed.

Lemma wp_createChildCoroutineStorage s id (Q : unit -> TraceStorage -> Prop) :
  let m := CM.map_ (child_coroutines_map_ s) in
  let h := child_heap s in
  let h' := Heap (<[next h := CL.make]> (cells h)) (S (next h)) in
  (m !! id = None ->
   Q tt (lset children_L (CMap (<[id := Some (next h)]> m)
                            (CM.clean_list_ (child_coroutines_map_ s)))
           (lset child_heap_L h' s))) ->
  (is_Some (m !! id) -> Q tt (lset child_heap_L h' s)) ->
  wp (createChildCoroutineStorage id) s Q.
Proof.
  intros m h h' Hnew Hold. unfold createChildCoroutineStorage. wp_steps.
  destruct (m !! id) as [p|] eqn:Hm.
  - eapply wp_run; [by eapply (CM.run_insert_Some _ _ p)|]. wp_step. apply Hold. eauto.
  - eapply wp_run; [by apply CM.run_insert_None|]. wp_step. by apply Hnew.
Qed.

Lemma wp_addChildCoroutine s id parent (Q : unit -> TraceStorage -> Prop) l c :
  CM.map_ (child_coroutines_map_ s) !! parent = Some (Some l) ->
  cells (child_heap s) !! l = Some c ->
  Q tt (lset child_heap_L
          (hput l (CList (CL.list_ c ++ [id]) (CL.clean_until_ c)) (child_heap s)) s) ->
  wp (addChildCoroutine id parent) s Q.
Proof.
  intros Hm Hl HQ. unfold addChildCoroutine. apply wp_bind, wp_zoom.
  eapply wp_run; [by apply CM.run_get_Some|]. rewrite lset_lget.
  apply wp_zoom. eapply wp_at_ptr; [exact Hl|]. by apply wp_modify.
Qed.

Lemma wp_containsChild s id (Q : bool -> TraceStorage -> Prop) :
  Q (bool_decide (is_Some (CM.map_ (child_coroutines_map_ s) !! id))) s ->
  wp (containsChildCoroutineStorage id) s Q.
Proof. intros HQ. unfold containsChildCoroutineStorage. wp_steps. by destruct s. Qed.

Lemma wp_getCoroutineInfo s id (Q : ptr -> TraceStorage -> Prop) :
  Q (default None (CM.map_ (coroutine_info_map_ s) !! id)) s -> wp (getCoroutineInfo id) s Q.
Proof.
  intros HQ. unfold getCoroutineInfo. apply wp_bind, wp_zoom, wp_reads. rewrite lset_lget.
  cbn [lget infos_L]. destruct (CM.map_ (coroutine_info_map_ s) !! id) as [p|] eqn:Hm.
  - rewrite bool_decide_eq_true_2 by eauto. apply wp_zoom.
    eapply wp_run; [by apply CM.run_get_Some|]. by rewrite lset_lget.
  - rewrite bool_decide_eq_false_2 by (by intros [? ?]). by apply wp_ret.
Qed.

Lemma wp_getProcessedTraces s id (Q : ptr -> TraceStorage -> Prop) :
  Q (default None (CM.map_ (processed_map_ s) !! id)) s -> wp (getProcessedTraces id) s Q.
Proof.
  intros HQ. unfold getProcessedTraces. apply wp_bind, wp_zoom, wp_reads. rewrite lset_lget.
  cbn [lget processed_L]. destruct (CM.map_ (processed_map_ s) !! id) as [p|] eqn:Hm.
  - rewrite bool_decide_eq_true_2 by eauto. apply wp_zoom.
    eapply wp_run; [by apply CM.run_at_Some|]. by rewrite lset_lget.
  - rewrite bool_decide_eq_false_2 by (by intros [? ?]). by apply wp_ret.
Qed.

(** The object [createCoroutineInfo] allocates, and the clock after it. *)
Definition new_coroutine (s : TraceStorage) : CoroutineInfo :=
  make_coroutine (steady (readings (clock s))) 0 (steady (S (readings (clock s)))) 0 0 0 0 0.
Definition after_create (s : TraceStorage) : TraceStorage :=
  lset info_heap_L (Heap (<[next (info_heap s) := new_coroutine s]> (cells (info_heap s)))
                      (S (next (info_heap s))))
    (lset clock_L (ClockState (S (S (readings (clock s))))) s).

Lemma wp_createCoroutineInfo s id (Q : unit -> TraceStorage -> Prop) :
  let m := CM.map_ (coroutine_info_map_ s) in
  (m !! id = None ->
   Q tt (lset infos_L (CMap (<[id := Some (next (info_heap s))]> m)
                         (CM.clean_list_ (coroutine_info_map_ s))) (after_create s))) ->
  (is_Some (m !! id) -> Q tt (after_create s)) ->
  wp (createCoroutineInfo id) s Q.
Proof.
  intros m Hnew Hold. unfold createCoroutineInfo.
  apply wp_bind, wp_now, wp_bind, wp_now. wp_steps.
  change (CM.map_ _) with m.
  destruct (m !! id) as [p|] eqn:Hm.
  - rewrite bool_decide_eq_true_2 by eauto. apply wp_ret. apply Hold. eauto.
  - rewrite bool_decide_eq_false_2 by (by intros [? ?]). wp_steps.
    eapply wp_run; [by apply CM.run_insert_None|]. wp_steps. by apply Hnew.
Qed.

(** *** Suspensions *)

Lemma wp_getLastSuspensionInfo s id l i (Q : ptr -> TraceStorage -> Prop) :
  CM.map_ (coroutine_info_map_ s) !! id = Some (Some l) ->
  cells (info_heap s) !! l = Some i ->
  Q (List.find (open_suspension s) (CL.list_ (suspensions_list i))) s ->
  wp (getLastSuspensionInfo id) s Q.
Proof.
  intros Hm Hl HQ. unfold getLastSuspensionInfo. apply wp_bind, wp_zoom, wp_reads.
  rewrite lset_lget. cbn [lget infos_L]. rewrite Hm, bool_decide_eq_true_2 by eauto.
  apply wp_bind, wp_zoom. eapply wp_run; [by apply CM.run_get_Some|]. rewrite lset_lget.
  eapply wp_act; [|exact HQ]. simpl. by rewrite Hl.
Qed.

Lemma wp_getLastSuspensionInfo_None s id (Q : ptr -> TraceStorage -> Prop) :
  CM.map_ (coroutine_info_map_ s) !! id = None ->
  Q None s -> wp (getLastSuspensionInfo id) s Q.
Proof.
  intros Hm HQ. unfold getLastSuspensionInfo. apply wp_bind, wp_zoom, wp_reads.
  rewrite lset_lget. cbn [lget infos_L].
  rewrite Hm, bool_decide_eq_false_2 by (by intros [? ?]). by apply wp_ret.
Qed.

Definition add_suspension_to (l : nat) (i : CoroutineInfo) : CoroutineInfo :=
  lset suspensions_L (CList (CL.list_ (suspensions_list i) ++ [l])
                        (CL.clean_until_ (suspensions_list i))) i.

Lemma wp_addSuspensionInfo s l x p i (Q : unit -> TraceStorage -> Prop) :
  cells (suspension_heap s) !! l = Some x ->
  CM.map_ (coroutine_info_map_ s) !! si_coroutine_id x = Some (Some p) ->
  cells (info_heap s) !! p = Some i ->
  Q tt (lset info_heap_L (hput p (add_suspension_to l i) (info_heap s)) s) ->
  wp (addSuspensionInfo (Some l)) s Q.
Proof.
  intros Hx Hm Hi HQ. unfold addSuspensionInfo. apply wp_bind, wp_zoom.
  eapply wp_hread; [exact Hx|]. rewrite lset_lget. apply wp_bind, wp_zoom.
  eapply wp_run; [by apply CM.run_at_Some|]. rewrite lset_lget. apply wp_zoom.
  eapply wp_at_ptr; [exact Hi|]. apply wp_zoom. by apply wp_modify.
Qed.

(** *** Garbage collections *)

Lemma wp_gcStart s (Q : unit -> TraceStorage -> Prop) :
  let h := gc_heap s in
  let e := MkGC (steady (readings (clock s))) 0 in
  Q tt (lset gc_L (CList (CL.list_ (gc_events_ s) ++ [next h]) (CL.clean_until_ (gc_events_ s)))
          (lset gc_heap_L (Heap (<[next h := e]> (cells h)) (S (next h)))
             (lset clock_L (ClockState (S (readings (clock s)))) s))) ->
  wp gcStart s Q.
Proof. intros h e HQ. unfold gcStart. apply wp_bind, wp_now. by wp_steps. Qed.

(** [gcFinish] ends the newest event, but it is the oldest one that it removes
    before it appends the newest one again. *)
Lemma wp_gcFinish s l x e (Q : unit -> TraceStorage -> Prop) :
  CL.list_ (gc_events_ s) = l ++ [x] ->
  cells (gc_heap s) !! x = Some e ->
  Q tt (lset gc_L (CList (tail (l ++ [x]) ++ [x]) (CL.clean_until_ (gc_events_ s)))
          (lset gc_heap_L (hput x (set_gc_end (steady (readings (clock s))) e) (gc_heap s))
             (lset clock_L (ClockState (S (readings (clock s)))) s))) ->
  wp gcFinish s Q.
Proof.
  intros Hl Hx HQ. unfold gcFinish. apply wp_bind, wp_zoom. cbn [lget gc_L].
  destruct (gc_events_ s) as [ll c] eqn:Hg; cbn [CL.list_ CL.clean_until_] in *; subst ll.
  eapply wp_run; [apply CL.run_back_snoc|].
  apply wp_bind, wp_zoom. eapply wp_run; [apply CL.run_pop_front_tail|].
  apply wp_bind, wp_now, wp_bind, wp_zoom. eapply wp_hmodify; [exact Hx|]. wp_steps. exact HQ.
Qed.

(** ** Every method preserves the invariant *)

(** A call of one of the public methods. *)
Inductive storage_op :=
  | OpAddRaw (t : TraceTime) (a : AsyncTrace) (id : Z)
  | OpRemoveRaw
  | OpAddProcessed (id : Z) (r : ProcessedTraceRecord)
  | OpGetProcessed (id : Z)
  | OpAddOngoing (i : TraceInfo)
  | OpFindOngoing (id : Z)
  | OpRemoveOngoing (id : Z)
  | OpAddSuspension (i : SuspensionInfo)
  | OpLastSuspension (id : Z)
  | OpCreateInfo (id : Z)
  | OpGetInfo (id : Z)
  | OpCreateChildren (id : Z)
  | OpContainsChildren (id : Z)
  | OpGetChildren (id : Z)
  | OpAddChild (id parent : Z)
  | OpGcStart
  | OpGcFinish
  | OpMark
  | OpClean.

Definition ignore {S A} (p : prog S A) : prog S unit := p;; mret tt.

Definition exec (o : storage_op) : prog TraceStorage unit :=
  match o with
  | OpAddRaw t a id => addRawTrace t a id
  | OpRemoveRaw => ignore removeRawTraceHeader
  | OpAddProcessed id r => addProcessedTrace id r
  | OpGetProcessed id => ignore (getProcessedTraces id)
  | OpAddOngoing i => ignore (addOngoingTraceInfo i)
  | OpFindOngoing id => ignore (findOngoingTraceInfo id)
  | OpRemoveOngoing id => removeOngoingTraceInfo id
  | OpAddSuspension i => l ← zoom susp_heap_L (halloc i); addSuspensionInfo (Some l)
  | OpLastSuspension id => ignore (getLastSuspensionInfo id)
  | OpCreateInfo id => createCoroutineInfo id
  | OpGetInfo id => ignore (getCoroutineInfo id)
  | OpCreateChildren id => createChildCoroutineStorage id
  | OpContainsChildren id => ignore (containsChildCoroutineStorage id)
  | OpGetChildren id => ignore (getChildCoroutines id)
  | OpAddChild id parent => addChildCoroutine id parent
  | OpGcStart => gcStart
  | OpGcFinish => gcFinish
  | OpMark => mark_for_clean
  | OpClean => clean
  end.

(** What the caller has to establish: the methods that dereference the result
    of a lookup without a test need the entry, [gcFinish] needs a started
    event, and [clean] needs as many events as were marked. *)
Definition op_pre (s : TraceStorage) (o : storage_op) : Prop :=
  match o with
  | OpAddSuspension i => is_Some (CM.map_ (coroutine_info_map_ s) !! si_coroutine_id i)
  | OpGetChildren id | OpAddChild _ id => is_Some (CM.map_ (child_coroutines_map_ s) !! id)
  | OpGcFinish => CL.list_ (gc_events_ s) <> []
  | OpClean =>
      (Z.to_nat (CL.clean_until_ (gc_events_ s)) <= length (CL.list_ (gc_events_ s)))%nat
  | _ => True
  end.

#[export] Instance op_pre_dec s o : Decision (op_pre s o).
Proof. destruct o; simpl; apply _. Defined.

Lemma wf_after_create s :
  storage_wf s ->
  storage_wf (after_create s).
Proof.
  intros Hwf. pose proof (wf_suspensions s Hwf) as Hs. storage_wf.
  intros l i. rewrite lookup_insert. case_decide; [|apply Hs]. intros [= <-]. constructor.
Qed.

Lemma wf_create_info s id :
  storage_wf s ->
  storage_wf (lset infos_L (CMap (<[id := Some (next (info_heap s))]>
      (CM.map_ (coroutine_info_map_ s))) (CM.clean_list_ (coroutine_info_map_ s)))
    (after_create s)).
Proof.
  intros Hwf. pose proof (wf_after_create s Hwf) as []. destruct Hwf. split; simpl in *; auto.
  by apply owns_insert.
Qed.

Lemma wf_add_suspension s l p i :
  storage_wf s -> valid (suspension_heap s) l -> cells (info_heap s) !! p = Some i ->
  storage_wf (lset info_heap_L (hput p (add_suspension_to l i) (info_heap s)) s).
Proof.
  intros Hwf Hl Hp. pose proof (wf_suspensions s Hwf) as Hs.
  assert (valid (info_heap s) p) by (by eexists). storage_wf.
  intros l' i'. rewrite lookup_insert. case_decide; [|apply Hs]. intros [= <-]. simpl.
  apply Forall_app; eauto.
Qed.

Lemma wf_gc_update s l h c :
  storage_wf s -> heap_wf h -> Forall (valid h) (CL.list_ l) ->
  storage_wf (lset gc_L l (lset gc_heap_L h (lset clock_L c s))).
Proof. intros Hwf Hh Hl. storage_wf. Qed.

Lemma gc_events_snoc s :
  storage_wf s -> CL.list_ (gc_events_ s) <> [] ->
  exists l x e, CL.list_ (gc_events_ s) = l ++ [x] /\ cells (gc_heap s) !! x = Some e.
Proof.
  intros Hwf Hne. pose proof (wf_gc_events s Hwf) as Hv.
  destruct (CL.list_ (gc_events_ s)) as [|x l _] using rev_ind; [done|].
  apply Forall_app in Hv as [_ Hv]. apply Forall_singleton in Hv as [e He]. eauto.
Qed.

Lemma exec_gcFinish_wf s :
  storage_wf s -> CL.list_ (gc_events_ s) <> [] -> wp gcFinish s (fun _ => storage_wf).
Proof.
  intros Hwf Hne. destruct (gc_events_snoc s Hwf Hne) as (l & x & e & Hl & He).
  pose proof (wf_gc_events s Hwf) as Hv. rewrite Hl in Hv.
  assert (Hx : valid (gc_heap s) x) by (by eexists).
  eapply wp_gcFinish; [exact Hl|exact He|].
  apply wf_gc_update; [done|apply heap_wf_put; eauto with kt|]. apply Forall_valid_put. simpl.
  apply Forall_app; split; [|by constructor]. by apply Forall_tail.
Qed.

Lemma exec_addProcessed_wf s id r :
  storage_wf s -> wp (addProcessedTrace id r) s (fun _ => storage_wf).
Proof.
  intros Hwf. apply wp_addProcessedTrace; [eauto with kt|intros; storage_wf|].
  intros l c Hm Hl. assert (valid (traces_heap s) l) by (by eexists). storage_wf.
Qed.

Lemma exec_lastSuspension_wf s id :
  storage_wf s -> wp (getLastSuspensionInfo id;; mret tt) s (fun _ => storage_wf).
Proof.
  intros Hwf. apply wp_bind.
  destruct (CM.map_ (coroutine_info_map_ s) !! id) as [p|] eqn:Hm.
  - destruct (owns_lookup _ _ _ _ (wf_infos s Hwf) Hm) as (l & c & -> & Hl).
    by eapply wp_getLastSuspensionInfo.
  - by apply wp_getLastSuspensionInfo_None.
Qed.

(** The map of ongoing traces holds plain values: no operation on it can break
    the invariant. *)
Lemma exec_ongoing_wf {A} s (q : prog (cmap Z TraceInfo) A) :
  storage_wf s -> wp q (ongoing_trace_info_map_ s) (fun _ _ => True) ->
  wp (zoom ongoing_L q;; mret tt) s (fun _ => storage_wf).
Proof.
  intros Hwf Hq. apply wp_bind, wp_zoom. eapply wp_mono; [|exact Hq].
  intros a t _; cbv beta. apply wp_ret. storage_wf.
Qed.

Lemma wp_insert_any (m : cmap Z TraceInfo) k v : wp (CM.insert k v) m (fun _ _ => True).
Proof. unfold wp; simpl. by destruct (CM.map_ m !! k). Qed.

Lemma wp_get_any (m : cmap Z TraceInfo) k : wp (CM.get k) m (fun _ _ => True).
Proof. unfold wp; simpl. by destruct (CM.map_ m !! k). Qed.

Lemma wf_new_suspension s i :
  storage_wf s ->
  storage_wf (lset susp_heap_L (Heap (<[next (suspension_heap s) := i]>
    (cells (suspension_heap s))) (S (next (suspension_heap s)))) s).
Proof.
  intros Hwf. pose proof (wf_suspensions s Hwf) as Hs. storage_wf.
  intros l j Hj. apply Forall_valid_grow. eauto.
Qed.

Lemma exec_wf s o :
  storage_wf s -> op_pre s o -> wp (exec o) s (fun _ => storage_wf).
Proof.
  intros Hwf Hpre. destruct o; simpl in Hpre; cbn [exec]; unfold ignore.
  - unfold addRawTrace. wp_steps. storage_wf.
  - unfold removeRawTraceHeader. wp_steps.
    eapply wp_run; [apply CL.run_pop_front_tail|]. wp_steps. storage_wf.
  - by apply exec_addProcessed_wf.
  - by apply wp_bind, wp_getProcessedTraces, wp_ret.
  - apply exec_ongoing_wf; [done|apply wp_insert_any].
  - apply exec_ongoing_wf; [done|apply wp_get_any].
  - unfold removeOngoingTraceInfo. apply exec_ongoing_wf; [done|].
    eapply wp_run; [apply CM.run_erase|done].
  - destruct Hpre as [p Hp]. wp_steps.
    destruct (owns_lookup _ _ _ _ (wf_infos s Hwf) Hp) as (l & c & -> & Hl).
    eapply wp_addSuspensionInfo; [apply lookup_insert_eq|exact Hp|exact Hl|].
    apply (wf_add_suspension (lset susp_heap_L _ s)); [|apply valid_new|exact Hl].
    by apply wf_new_suspension.
  - by apply exec_lastSuspension_wf.
  - apply wp_createCoroutineInfo; intros; [by apply wf_create_info|by apply wf_after_create].
  - by apply wp_bind, wp_getCoroutineInfo, wp_ret.
  - apply wp_createChildCoroutineStorage; intros; storage_wf.
  - by apply wp_bind, wp_containsChild, wp_ret.
  - destruct Hpre as [p Hp]. unfold getChildCoroutines. wp_steps.
    eapply wp_run; [by apply CM.run_get_Some|]. wp_steps. by rewrite lset_lget.
  - destruct Hpre as [p Hp].
    destruct (owns_lookup _ _ _ _ (wf_children s Hwf) Hp) as (l & c & -> & Hl).
    eapply wp_addChildCoroutine; [exact Hp|exact Hl|].
    assert (valid (child_heap s) l) by (by eexists). storage_wf.
  - apply wp_gcStart. apply wf_gc_update; [done|eauto with kt|]. simpl.
    apply Forall_app; split; [|constructor; [apply valid_new|done]].
    eauto using Forall_valid_grow with kt.
  - by apply exec_gcFinish_wf.
  - unfold mark_for_clean. wp_steps. storage_wf.
  - unfold clean. wp_steps. eapply wp_run; [by apply CL.run_clean|]. wp_steps.
    pose proof (wf_gc_events s Hwf) as Hg. storage_wf. by apply Forall_drop.
Qed.
(** C15: every method of the storage, called on a well-formed state under the
    condition above, returns: it neither throws nor has undefined behaviour;
    and it leaves a well-formed state, in which the maps hold no null and no
    dangling pointer and no two coroutines share a list or an info object. *)
Theorem storage_op_safe s o :
  storage_wf s -> op_pre s o -> wp (exec o) s (fun _ => storage_wf).
Proof. apply exec_wf. Qed.

(** *** What a method leaves alone *)

Definition frame_ (o : storage_op) (s s' : TraceStorage) : Prop :=
  match o with OpAddProcessed _ _ => True | _ => traces_heap s' = traces_heap s end /\
  match o with OpAddSuspension _ => True | _ => suspension_heap s' = suspension_heap s end /\
  match o with OpCreateInfo _ | OpAddSuspension _ => True | _ => info_heap s' = info_heap s end /\
  match o with
  | OpCreateInfo _ | OpMark | OpClean => True
  | _ => coroutine_info_map_ s' = coroutine_info_map_ s
  end /\
  match o with
  | OpGcStart | OpGcFinish | OpMark | OpClean => True
  | _ => gc_events_ s' = gc_events_ s
  end /\
  match o with
  | OpAddRaw _ _ _ | OpRemoveRaw => True
  | _ => raw_list_ s' = raw_list_ s
  end.

Ltac frame_done := by unfold frame_; repeat split.

Lemma exec_frame s o :
  storage_wf s -> op_pre s o -> wp (exec o) s (fun _ s' => frame_ o s s').
Proof.
  intros Hwf Hpre. destruct o; simpl in Hpre; cbn [exec]; unfold ignore.
  - unfold addRawTrace. wp_steps. frame_done.
  - unfold removeRawTraceHeader. wp_steps.
    eapply wp_run; [apply CL.run_pop_front_tail|]. wp_steps. frame_done.
  - apply wp_addProcessedTrace; [eauto with kt|intros; frame_done..].
  - apply wp_bind, wp_getProcessedTraces, wp_ret. frame_done.
  - apply wp_bind, wp_zoom. eapply wp_mono; [|apply wp_insert_any]. intros; frame_done.
  - apply wp_bind, wp_zoom. eapply wp_mono; [|apply wp_get_any]. intros; frame_done.
  - unfold removeOngoingTraceInfo. wp_steps. eapply wp_run; [apply CM.run_erase|].
    wp_steps. frame_done.
  - destruct Hpre as [p Hp]. wp_steps.
    destruct (owns_lookup _ _ _ _ (wf_infos s Hwf) Hp) as (l & c & -> & Hl).
    eapply wp_addSuspensionInfo; [apply lookup_insert_eq|exact Hp|exact Hl|]. frame_done.
  - apply wp_bind. destruct (CM.map_ (coroutine_info_map_ s) !! id) as [p|] eqn:Hm.
    + destruct (owns_lookup _ _ _ _ (wf_infos s Hwf) Hm) as (l & c & -> & Hl).
      eapply wp_getLastSuspensionInfo; [done..|]. frame_done.
    + apply wp_getLastSuspensionInfo_None; [done|]. frame_done.
  - apply wp_createCoroutineInfo; intros; frame_done.
  - apply wp_bind, wp_getCoroutineInfo, wp_ret. frame_done.
  - apply wp_createChildCoroutineStorage; intros; frame_done.
  - apply wp_bind, wp_containsChild, wp_ret. frame_done.
  - destruct Hpre as [p Hp]. unfold getChildCoroutines. wp_steps.
    eapply wp_run; [by apply CM.run_get_Some|]. wp_steps. frame_done.
  - destruct Hpre as [p Hp].
    destruct (owns_lookup _ _ _ _ (wf_children s Hwf) Hp) as (l & c & -> & Hl).
    eapply wp_addChildCoroutine; [done..|]. frame_done.
  - apply wp_gcStart. frame_done.
  - destruct (gc_events_snoc s Hwf Hpre) as (l & x & e & Hl & Hx).
    eapply wp_gcFinish; [done..|]. frame_done.
  - unfold mark_for_clean. wp_steps. frame_done.
  - unfold clean. wp_steps. eapply wp_run; [by apply CL.run_clean|]. frame_done.
Qed.

(** A sequence of calls, each made under its precondition. *)
Fixpoint replay (os : list storage_op) (s : TraceStorage) : option TraceStorage :=
  match os with
  | [] => Some s
  | o :: os =>
      if decide (op_pre s o) then
        match run (exec o) s with Val _ s' => replay os s' | _ => None end
      else None
  end.

Lemma replay_wf os s s' : replay os s = Some s' -> storage_wf s -> storage_wf s'.
Proof.
  revert s; induction os as [|o os IH]; intros s; simpl; [by intros [= <-]|].
  case_decide as Hpre; [|done]. intros Hr Hwf. pose proof (exec_wf s o Hwf Hpre) as Hw.
  unfold wp in Hw. destruct (run (exec o) s) as [[] s1| |]; [eauto|done..].
Qed.
End safety.

(** ** Examples *)

(** A storage with a list of children for coroutine 1. *)
Definition demo_parent : TraceStorage :=
  match run (exec (CK:=tick_clock) (OpCreateChildren 1)) make_storage with
  | Val _ s => s
  | _ => make_storage
  end.

Lemma storage_op_safe_witness :
  wp (exec (CK:=tick_clock) (OpAddChild 2 1)) demo_parent (fun _ => storage_wf).
Proof.
  apply storage_op_safe.
  - exact (storage_op_safe (CK:=tick_clock) make_storage (OpCreateChildren 1) make_storage_wf I).
  - vm_compute. eauto.
Defined.
