(* ===== verification/StorageSpec.v ===== *)
(** * What the trace storage promises

    An abstract storage with plain maps of lists, and the proof that every
    method of [TraceStorage] implements the abstract operation: the pointers,
    the heaps and the two-step lookups of the implementation are not
    observable.  Then the clean-up cycle and the collector events. *)

From S2P Require Import Prelude ConcurrentList ConcurrentMap TraceTime TraceModel TraceStorage.
From S2P Require Import StorageSafety.
From Stdlib Require Import ZArith Lia.
From stdpp Require Import base gmap list strings numbers.
Local Open Scope Z_scope.
Local Open Scope kt_scope.

(** ** The abstract storage *)

Record astorage := AStorage {
  a_raw : list RawCallTraceRecord;
  a_traces : gmap Z (list ProcessedTraceRecord);
  a_traces_marked : gset Z;
  a_ongoing : gmap Z TraceInfo;
  a_children : gmap Z (list Z);
  a_children_marked : gset Z;
}.

(** Append to the list of a key, which starts out empty. *)
Definition append_at {B} (k : Z) (x : B) (m : gmap Z (list B)) : gmap Z (list B) :=
  <[k := default [] (m !! k) ++ [x]]> m.

Definition drop_keys {B} (ks : gset Z) (m : gmap Z B) : gmap Z B :=
  filter (fun kv => kv.1 ∉ ks) m.

Definition if_absent {B} (k : Z) (x : B) (m : gmap Z B) : gmap Z B :=
  match m !! k with None => <[k := x]> m | Some _ => m end.

Definition astep (o : storage_op) (a : astorage) : astorage :=
  let '(AStorage raw tr trm on ch chm) := a in
  match o with
  | OpAddRaw t x id =>
      AStorage (raw ++ [MkRaw t (at_size x) x (thread_id x) id]) tr trm on ch chm
  | OpRemoveRaw => AStorage (tail raw) tr trm on ch chm
  | OpAddProcessed id r => AStorage raw (append_at id r tr) trm on ch chm
  | OpAddOngoing i => AStorage raw tr trm (if_absent (ti_coroutine_id i) i on) ch chm
  | OpFindOngoing id => AStorage raw tr trm (if_absent id cpp_default on) ch chm
  | OpRemoveOngoing id => AStorage raw tr trm (delete id on) ch chm
  | OpCreateChildren id => AStorage raw tr trm on (if_absent id [] ch) chm
  | OpAddChild id parent => AStorage raw tr trm on (append_at parent id ch) chm
  | OpMark => AStorage raw tr (trm ∪ dom tr) on ch (chm ∪ dom ch)
  | OpClean => AStorage raw (drop_keys trm tr) ∅ on (drop_keys chm ch) ∅
  | _ => a
  end.

(** ** The abstraction function *)

Definition resolve {B} (h : heap (clist B)) (m : gmap Z ptr) : gmap Z (list B) :=
  omap (fun p => p ≫= (fun l => CL.list_ <$> cells h !! l)) m.

Definition abs (s : TraceStorage) : astorage :=
  AStorage (CL.list_ (raw_list_ s))
    (resolve (traces_heap s) (CM.map_ (processed_map_ s)))
    (list_to_set (CM.clean_list_ (processed_map_ s)))
    (CM.map_ (ongoing_trace_info_map_ s))
    (resolve (child_heap s) (CM.map_ (child_coroutines_map_ s)))
    (list_to_set (CM.clean_list_ (child_coroutines_map_ s))).

Section resolve.
Context {B : Type}.
Implicit Types (h : heap (clist B)) (m : gmap Z ptr).

Lemma lookup_resolve h m k :
  resolve h m !! k = m !! k ≫= (fun p => p ≫= (fun l => CL.list_ <$> cells h !! l)).
Proof. unfold resolve. by rewrite lookup_omap. Qed.

Lemma lookup_resolve_owned h m k l c :
  m !! k = Some (Some l) -> cells h !! l = Some c -> resolve h m !! k = Some (CL.list_ c).
Proof. intros Hk Hl. rewrite lookup_resolve, Hk; simpl. by rewrite Hl. Qed.

Lemma resolve_absent h m k : m !! k = None -> resolve h m !! k = None.
Proof. intros Hk. by rewrite lookup_resolve, Hk. Qed.

Lemma lookup_resolve_None h m k : owns m h -> m !! k = None <-> resolve h m !! k = None.
Proof.
  intros Ho. rewrite lookup_resolve. destruct (m !! k) as [p|] eqn:Hk; simpl; [|done].
  destruct (owns_lookup _ _ _ _ Ho Hk) as (l & c & -> & Hl); simpl. by rewrite Hl.
Qed.

Lemma dom_resolve h m : owns m h -> dom (resolve h m) = dom m.
Proof.
  intros Ho. apply set_eq; intros k. rewrite !elem_of_dom, <- !not_eq_None_Some.
  by rewrite lookup_resolve_None.
Qed.

Lemma resolve_put h m k l c c' :
  owns m h -> m !! k = Some (Some l) -> cells h !! l = Some c ->
  resolve (hput l c' h) m = <[k := CL.list_ c']> (resolve h m).
Proof.
  intros [Hv Hi] Hk Hl. apply map_eq; intros j. rewrite lookup_resolve, lookup_insert.
  destruct (decide (k = j)) as [<-|Hne].
  - rewrite Hk; simpl. by rewrite lookup_insert_eq.
  - rewrite lookup_resolve. destruct (m !! j) as [p|] eqn:Hj; simpl; [|done].
    destruct (Hv j p Hj) as (l' & -> & _); simpl. rewrite lookup_insert_ne; [done|].
    intros <-. apply Hne. eauto.
Qed.

Lemma resolve_grow h m c :
  heap_wf h -> owns m h ->
  resolve (Heap (<[next h := c]> (cells h)) (S (next h))) m = resolve h m.
Proof.
  intros Hwf [Hv _]. apply map_eq; intros j. rewrite !lookup_resolve.
  destruct (m !! j) as [p|] eqn:Hj; simpl; [|done].
  destruct (Hv j p Hj) as (l & -> & [c' Hc']); simpl. rewrite lookup_insert_ne; [done|].
  intros <-. by rewrite heap_fresh in Hc'.
Qed.

Lemma resolve_insert h m k c :
  heap_wf h -> owns m h ->
  resolve (Heap (<[next h := c]> (cells h)) (S (next h))) (<[k := Some (next h)]> m)
  = <[k := CL.list_ c]> (resolve h m).
Proof.
  intros Hwf Ho. apply map_eq; intros j. rewrite lookup_resolve, !lookup_insert.
  case_decide; simpl; [by rewrite lookup_insert_eq|].
  rewrite <- (resolve_grow h m c) by done. by rewrite lookup_resolve.
Qed.

Lemma resolve_erase h m ks :
  resolve h (CM.erase_all ks m) = drop_keys (list_to_set ks) (resolve h m).
Proof.
  apply map_eq; intros j. rewrite lookup_resolve, CM.lookup_erase_all. unfold drop_keys.
  rewrite map_lookup_filter, lookup_resolve. case_bool_decide as Hj.
  - destruct (m !! j ≫= _) as [l|]; simpl; [|done].
    rewrite option_guard_False; [done|]. simpl. set_solver.
  - destruct (m !! j ≫= _) as [l|]; simpl; [|done].
    rewrite option_guard_True; [done|]. simpl. set_solver.
Qed.
End resolve.

(** ** Refinement *)

Section refinement.
Context `{CK : !SteadyClock}.
Implicit Types s : TraceStorage.

Lemma refine_insert_ongoing s k v :
  wp (zoom ongoing_L (CM.insert k v);; mret tt) s (fun _ s' =>
    abs s' = let '(AStorage raw tr trm on ch chm) := abs s in
             AStorage raw tr trm (if_absent k v on) ch chm).
Proof.
  wp_steps. unfold if_absent, abs. cbn [lget ongoing_L].
  destruct (CM.map_ (ongoing_trace_info_map_ s) !! k) eqn:Hk.
  - eapply wp_run; [by eapply CM.run_insert_Some|]. by wp_steps.
  - eapply wp_run; [by apply CM.run_insert_None|]. by wp_steps.
Qed.

Lemma refine_get_ongoing s k :
  wp (zoom ongoing_L (CM.get k);; mret tt) s (fun _ s' =>
    abs s' = let '(AStorage raw tr trm on ch chm) := abs s in
             AStorage raw tr trm (if_absent k cpp_default on) ch chm).
Proof.
  wp_steps. unfold if_absent, abs. cbn [lget ongoing_L].
  destruct (CM.map_ (ongoing_trace_info_map_ s) !! k) eqn:Hk.
  - eapply wp_run; [by apply CM.run_get_Some|]. by wp_steps.
  - eapply wp_run; [by apply CM.run_get_None|]. by wp_steps.
Qed.

Lemma refine_addProcessed s id r :
  storage_wf s ->
  wp (addProcessedTrace id r) s (fun _ s' => abs s' = astep (OpAddProcessed id r) (abs s)).
Proof.
  intros Hwf. destruct Hwf. apply wp_addProcessedTrace; [done| |].
  - intros Hm. unfold abs, astep, append_at; simpl. rewrite resolve_insert by done. simpl.
    by rewrite (resolve_absent (traces_heap s)) by done.
  - intros l c Hm Hl. unfold abs, astep, append_at; simpl.
    erewrite resolve_put by done. by erewrite lookup_resolve_owned by done.
Qed.

Lemma refine_createChildren s id :
  storage_wf s ->
  wp (createChildCoroutineStorage id) s
    (fun _ s' => abs s' = astep (OpCreateChildren id) (abs s)).
Proof.
  intros []. apply wp_createChildCoroutineStorage; unfold abs, astep, if_absent; simpl.
  - intros Hm. rewrite resolve_insert by done.
    by rewrite (resolve_absent (child_heap s)) by done.
  - intros [p Hm]. rewrite resolve_grow by done.
    destruct (owns_lookup _ _ _ _ wf_children Hm) as (l & c & -> & Hl).
    by erewrite lookup_resolve_owned by done.
Qed.

Lemma refine_addChild s id parent :
  storage_wf s -> op_pre s (OpAddChild id parent) ->
  wp (addChildCoroutine id parent) s
    (fun _ s' => abs s' = astep (OpAddChild id parent) (abs s)).
Proof.
  intros [] [p Hp]. destruct (owns_lookup _ _ _ _ wf_children Hp) as (l & c & -> & Hl).
  eapply wp_addChildCoroutine; [exact Hp|exact Hl|]. unfold abs, astep, append_at; simpl.
  erewrite resolve_put by done. by erewrite lookup_resolve_owned by done.
Qed.

Lemma mark_union {B} (h : heap (clist B)) m ks :
  owns m h ->
  (list_to_set (ks ++ CM.keys m) : gset Z) = list_to_set ks ∪ dom (resolve h m).
Proof.
  intros Ho. rewrite dom_resolve by done. apply set_eq; intros k.
  rewrite list_to_set_app_L, !elem_of_union, !elem_of_list_to_set, CM.elem_of_keys, elem_of_dom.
  done.
Qed.

Lemma refine_mark s :
  storage_wf s -> wp mark_for_clean s (fun _ s' => abs s' = astep OpMark (abs s)).
Proof.
  intros []. unfold mark_for_clean. wp_steps. unfold abs, astep; simpl.
  by rewrite (mark_union (traces_heap s)), (mark_union (child_heap s)) by done.
Qed.

Lemma refine_clean s :
  op_pre s OpClean -> wp clean s (fun _ s' => abs s' = astep OpClean (abs s)).
Proof.
  intros Hpre. unfold clean. wp_steps. eapply wp_run; [by apply CL.run_clean|].
  unfold abs, astep; simpl. by rewrite !resolve_erase.
Qed.

(** Methods that do not touch the abstract storage. *)
Lemma refine_stutter s o :
  storage_wf s -> op_pre s o ->
  match o with
  | OpGetProcessed _ | OpAddSuspension _ | OpLastSuspension _ | OpCreateInfo _ | OpGetInfo _
  | OpContainsChildren _ | OpGetChildren _ | OpGcStart | OpGcFinish =>
      wp (exec o) s (fun _ s' => abs s' = abs s)
  | _ => True
  end.
Proof.
  intros Hwf Hpre. destruct o; try done; cbn [exec]; unfold ignore.
  - by apply wp_bind, wp_getProcessedTraces.
  - destruct Hpre as [p Hp]. wp_steps.
    destruct (owns_lookup _ _ _ _ (wf_infos s Hwf) Hp) as (l & c & -> & Hl).
    by eapply wp_addSuspensionInfo; [apply lookup_insert_eq|exact Hp|exact Hl|].
  - apply wp_bind. destruct (CM.map_ (coroutine_info_map_ s) !! id) as [p|] eqn:Hm.
    + destruct (owns_lookup _ _ _ _ (wf_infos s Hwf) Hm) as (l & c & -> & Hl).
      by eapply wp_getLastSuspensionInfo.
    + by apply wp_getLastSuspensionInfo_None.
  - by apply wp_createCoroutineInfo.
  - by apply wp_bind, wp_getCoroutineInfo.
  - destruct Hpre as [p Hp]. unfold getChildCoroutines. wp_steps.
    eapply wp_run; [by apply CM.run_get_Some|]. wp_steps. by rewrite lset_lget.
  - destruct (gc_events_snoc s Hwf Hpre) as (l & x & e & Hl & Hx).
    by eapply wp_gcFinish.
Qed.

Lemma exec_refines s o :
  storage_wf s -> op_pre s o -> wp (exec o) s (fun _ s' => abs s' = astep o (abs s)).
Proof.
  intros Hwf Hpre. pose proof (refine_stutter s o Hwf Hpre) as Hst.
  destruct o; try (eapply wp_mono; [|exact Hst]; intros [] s' ->; by destruct s);
    cbn [exec]; unfold ignore.
  - unfold addRawTrace. by wp_steps.
  - unfold removeRawTraceHeader. wp_steps.
    eapply wp_run; [apply CL.run_pop_front_tail|]. by wp_steps.
  - by apply refine_addProcessed.
  - apply refine_insert_ongoing.
  - apply refine_get_ongoing.
  - unfold removeOngoingTraceInfo. wp_steps. eapply wp_run; [apply CM.run_erase|]. by wp_steps.
  - by apply refine_createChildren.
  - by apply refine_addChild.
  - by apply refine_mark.
  - by apply refine_clean.
Qed.
(** C1: refinement.  Each method of [TraceStorage], called on a well-formed
    state under its precondition, returns, and its effect on the raw samples,
    on the samples of each coroutine, on the ongoing traces, on the children
    of each coroutine and on the marks of the cleaner is exactly the abstract
    operation: a sample or a child is appended to its own key and to no other,
    insertion never overwrites, and [clean] drops the marked keys. *)
Theorem storage_refines s o :
  storage_wf s -> op_pre s o -> wp (exec o) s (fun _ s' => abs s' = astep o (abs s)).
Proof. apply exec_refines. Qed.
End refinement.

Lemma demo_parent_wf : storage_wf demo_parent.
Proof. exact (exec_wf (CK:=tick_clock) make_storage (OpCreateChildren 1) make_storage_wf I). Qed.

Lemma storage_refines_witness :
  wp (exec (CK:=tick_clock) (OpAddChild 2 1)) demo_parent
    (fun _ s' => abs s' = astep (OpAddChild 2 1) (abs demo_parent)).
Proof. apply storage_refines; [exact demo_parent_wf|vm_compute; eauto]. Defined.
