(* ===== verification/StorageCycle.v ===== *)
(** * The life of the storage's contents

    The cleaner's cycle ([mark_for_clean], fifteen seconds of other calls,
    [clean]), the record of the garbage collections, and what happens when the
    cleaner runs in the middle of another method. *)

From S2P Require Import Prelude ConcurrentList ConcurrentMap TraceTime TraceModel TraceStorage.
From S2P Require Import StorageSafety StorageSpec.
From Stdlib Require Import ZArith Lia.
From stdpp Require Import base gmap list strings numbers.
Local Open Scope Z_scope.
Local Open Scope kt_scope.

Section cycle.
Context `{CK : !SteadyClock}.
Implicit Types s : TraceStorage.

(** A sequence of calls that all return, each made under its precondition. *)
Inductive calls : TraceStorage -> list storage_op -> TraceStorage -> Prop :=
  | calls_nil s : calls s [] s
  | calls_cons s o os s1 s' :
      op_pre s o -> run (exec o) s = Val tt s1 -> calls s1 os s' -> calls s (o :: os) s'.

(** The two private methods that only the cleaner thread calls. *)
Definition cleaner_op (o : storage_op) : bool :=
  match o with OpMark | OpClean => true | _ => false end.

Lemma op_result_safe s o s1 :
  storage_wf s -> op_pre s o -> run (exec o) s = Val tt s1 -> storage_wf s1.
Proof.
  intros Hwf Hpre Hrun. pose proof (exec_wf s o Hwf Hpre) as H.
  unfold wp in H. by rewrite Hrun in H.
Qed.

Lemma op_result_abs s o s1 :
  storage_wf s -> op_pre s o -> run (exec o) s = Val tt s1 -> abs s1 = astep o (abs s).
Proof.
  intros Hwf Hpre Hrun. pose proof (exec_refines s o Hwf Hpre) as H.
  unfold wp in H. by rewrite Hrun in H.
Qed.

Lemma calls_wf s os s' : calls s os s' -> storage_wf s -> storage_wf s'.
Proof. induction 1; eauto using op_result_safe. Qed.

Lemma calls_abs s os s' :
  calls s os s' -> storage_wf s -> abs s' = foldl (fun a o => astep o a) (abs s) os.
Proof.
  induction 1 as [|s o os s1 s' Hpre Hrun _ IH]; intros Hwf; [done|]. simpl.
  rewrite IH by eauto using op_result_safe. by erewrite op_result_abs.
Qed.

(** *** The marked collections *)

(** There are at least as many recorded collections as [clean] will remove. *)
Definition gc_room (c : clist nat) : Prop :=
  (Z.to_nat (CL.clean_until_ c) <= length (CL.list_ c))%nat.

Lemma gc_room_mark c : gc_room (CList (CL.list_ c) (s32 (Z.of_nat (length (CL.list_ c))))).
Proof. unfold gc_room; simpl. pose proof (wraps_le 32 (Z.of_nat (length (CL.list_ c)))). lia. Qed.

(** Outside the cleaner, the list of collections never shrinks. *)
Lemma gc_room_step s o :
  storage_wf s -> op_pre s o -> cleaner_op o = false -> gc_room (gc_events_ s) ->
  wp (exec o) s (fun _ s' => gc_room (gc_events_ s')).
Proof.
  intros Hwf Hpre Ho Hr. pose proof (exec_frame s o Hwf Hpre) as Hf.
  destruct o; try discriminate Ho;
    try (eapply wp_mono; [|exact Hf]; intros [] s' (_ & _ & _ & _ & Hg & _); by rewrite Hg);
    cbn [exec].
  - apply wp_gcStart. unfold gc_room in *; simpl. rewrite length_app. lia.
  - destruct (gc_events_snoc s Hwf Hpre) as (l & x & e & Hl & Hx).
    eapply wp_gcFinish; [done..|]. unfold gc_room in *; simpl. rewrite Hl in Hr.
    rewrite length_app, length_tl. rewrite length_app in *. simpl in *. lia.
Qed.

Lemma gc_room_calls s os s' :
  calls s os s' -> storage_wf s -> Forall (fun o => cleaner_op o = false) os ->
  gc_room (gc_events_ s) -> gc_room (gc_events_ s').
Proof.
  induction 1 as [|s o os s1 s' Hpre Hrun _ IH]; intros Hwf Hos Hr; [done|].
  apply Forall_cons_1 in Hos as [Ho Hos]. apply IH; eauto using op_result_safe.
  pose proof (gc_room_step s o Hwf Hpre Ho Hr) as H. unfold wp in H. by rewrite Hrun in H.
Qed.

Lemma marks_step o a :
  cleaner_op o = false ->
  a_traces_marked (astep o a) = a_traces_marked a /\
  a_children_marked (astep o a) = a_children_marked a.
Proof. intros Ho. by destruct a, o. Qed.

Lemma marks_steps os a :
  Forall (fun o => cleaner_op o = false) os ->
  a_traces_marked (foldl (fun a o => astep o a) a os) = a_traces_marked a /\
  a_children_marked (foldl (fun a o => astep o a) a os) = a_children_marked a.
Proof.
  revert a; induction os as [|o os IH]; intros a Hos; simpl; [done|].
  apply Forall_cons_1 in Hos as [Ho Hos]. destruct (IH (astep o a) Hos) as [-> ->].
  by apply marks_step.
Qed.

Lemma mark_returns s : exists s1, run mark_for_clean s = Val tt s1 /\ gc_room (gc_events_ s1).
Proof. eexists. split; [reflexivity|]. apply gc_room_mark. Qed.

(** C25: the cleaner's cycle.  After [mark_for_clean] and any sequence of calls
    of the public methods, [clean] returns: it pops no more events than there
    are.  Every coroutine that had samples when the marks were set (or was
    still marked) has none afterwards, the samples of every other coroutine
    are untouched, and so for the lists of children. *)
Theorem clean_cycle s os s' :
  storage_wf s -> calls s (OpMark :: os) s' -> Forall (fun o => cleaner_op o = false) os ->
  wp clean s' (fun _ s'' => storage_wf s'' /\
    a_traces (abs s'')
      = drop_keys (a_traces_marked (abs s) ∪ dom (a_traces (abs s))) (a_traces (abs s')) /\
    a_children (abs s'')
      = drop_keys (a_children_marked (abs s) ∪ dom (a_children (abs s))) (a_children (abs s'))).
Proof.
  intros Hwf Hc Hos. pose proof (calls_wf _ _ _ Hc Hwf) as Hwf'.
  pose proof (calls_abs _ _ _ Hc Hwf) as Ha. inversion Hc as [|? ? ? s1 ? _ Hrun Hc1]; subst.
  assert (Hpre : op_pre s' OpClean).
  { eapply gc_room_calls; [exact Hc1|by eapply (op_result_safe s OpMark)|done|].
    destruct (mark_returns s) as (s2 & Hs2 & Hr). cbn [exec] in Hrun. congruence. }
  pose proof (exec_wf s' OpClean Hwf' Hpre) as Hw.
  pose proof (exec_refines s' OpClean Hwf' Hpre) as Hr. cbn [exec] in *.
  unfold wp in *. destruct (run clean s') as [[] s''| |]; [|done|done].
  split; [done|]. rewrite Hr. cbn [foldl] in Ha.
  destruct (marks_steps os (astep OpMark (abs s)) Hos) as [H1 H2]. rewrite <- Ha in H1, H2.
  destruct (abs s'), (abs s); simpl in *. by rewrite H1, H2.
Qed.

(** *** The record of collections *)

Lemma run_gcStart s :
  run gcStart s = Val tt
    (lset gc_L (CList (CL.list_ (gc_events_ s) ++ [next (gc_heap s)])
                  (CL.clean_until_ (gc_events_ s)))
       (lset gc_heap_L (Heap (<[next (gc_heap s) := MkGC (steady (readings (clock s))) 0]>
                           (cells (gc_heap s))) (S (next (gc_heap s))))
          (lset clock_L (ClockState (S (readings (clock s)))) s))).
Proof.
  assert (H : wp gcStart s (fun _ s' => s' = lset gc_L (CList (CL.list_ (gc_events_ s) ++
      [next (gc_heap s)]) (CL.clean_until_ (gc_events_ s)))
       (lset gc_heap_L (Heap (<[next (gc_heap s) := MkGC (steady (readings (clock s))) 0]>
                           (cells (gc_heap s))) (S (next (gc_heap s))))
          (lset clock_L (ClockState (S (readings (clock s)))) s)))) by by apply wp_gcStart.
  apply wp_elim in H as ([] & s' & Hr & ->). exact Hr.
Qed.

Lemma gc_fresh s : storage_wf s -> next (gc_heap s) ∉ CL.list_ (gc_events_ s).
Proof.
  intros Hwf Hin. pose proof (wf_gc_events s Hwf) as Hv. rewrite list.Forall_forall in Hv.
  destruct (Hv _ Hin) as [e He]. by rewrite heap_fresh in He by eauto with kt.
Qed.

(** The events after one collection, [gcStart] and then [gcFinish]. *)
Lemma collection s :
  storage_wf s ->
  wp (gcStart;; gcFinish) s (fun _ s' =>
    Forall (valid (gc_heap s')) (CL.list_ (gc_events_ s')) /\
    gc_objects s' =
      let e := MkGC (steady (readings (clock s))) (steady (S (readings (clock s)))) in
      match gc_objects s with [] => [e] | _ :: l => l ++ [e; e] end).
Proof.
  intros Hwf. apply wp_bind. eapply wp_run; [apply run_gcStart|]. pose proof (gc_fresh s Hwf) as Hf.
  eapply wp_gcFinish; [reflexivity|apply lookup_insert_eq|]. unfold gc_objects; simpl.
  set (h := gc_heap s) in *. pose proof (wf_gc_events s Hwf) as Hv. unfold set_gc_end; simpl.
  set (e := MkGC _ (steady _)).
  rewrite insert_insert_eq. fold e.
  split.
  { set (h' := hput _ _ _).
    assert (Hn : valid h' (next h)) by (eexists; apply lookup_insert_eq).
    assert (Hl : Forall (valid h') (CL.list_ (gc_events_ s) ++ [next h])).
    { apply Forall_app. split; [by apply Forall_valid_put, Forall_valid_grow|by constructor]. }
    apply Forall_app. split; [|by constructor].
    destruct (CL.list_ (gc_events_ s)); [constructor|]. by apply Forall_cons_1 in Hl as [_ Hl]. }
  destruct (CL.list_ (gc_events_ s)) as [|x l].
  - cbn [app tail]. by rewrite omap_cons, lookup_insert_eq.
  - apply Forall_cons_1 in Hv as [[e0 He0] _]. fold h in He0. cbn [app tail].
    rewrite omap_cons, He0, <- app_assoc, omap_app, omap_insert_fresh by set_solver.
    f_equal. simpl. by rewrite lookup_insert_eq.
Qed.

(** One collection on an empty record: after [gcStart] and [gcFinish] the
    storage holds exactly one event, from the first reading of the clock to
    the second, and [findGcEvents] reports it for exactly the windows that
    contain both. *)
Theorem gc_first_collection s start stop :
  storage_wf s -> CL.list_ (gc_events_ s) = [] ->
  let t1 := steady (readings (clock s)) in
  let t2 := steady (S (readings (clock s))) in
  t1 <= t2 /\
    wp (gcStart;; gcFinish;; findGcEvents start stop (fun l e => l ++ [e]) []) s (fun l s' =>
    gc_objects s' = [MkGC t1 t2] /\
    l = if bool_decide (start <= t1 /\ t2 <= stop) then [MkGC t1 t2] else []).
Proof.
  intros Hwf Hemp. split; [apply steady_mono; lia|].
  unfold wp. rewrite <- prog_bind_assoc. apply wp_bind. eapply wp_mono; [|by apply collection].
  intros [] s' [Hv Hs']. unfold gc_objects in Hs' at 2. rewrite Hemp in Hs'. simpl in Hs'.
  apply wp_findGcEvents; [exact Hv|]. split; [done|]. rewrite Hs'. simpl.
  unfold gc_in_window, tt_geb, tt_leb; simpl.
  case_bool_decide; destruct (start <=? _) eqn:E1, (_ <=? stop) eqn:E2; try done; lia.
Qed.

(** On a record that already holds events, a collection drops the oldest
    event and records the new one twice: [gcFinish] takes [back()] but removes
    [pop_front()]. *)
Theorem gc_next_collection s e0 l :
  storage_wf s -> gc_objects s = e0 :: l ->
  wp (gcStart;; gcFinish) s (fun _ s' =>
    let e := MkGC (steady (readings (clock s))) (steady (S (readings (clock s)))) in
    gc_objects s' = l ++ [e; e]).
Proof.
  intros Hwf Hl. eapply wp_mono; [|by apply collection].
  intros [] s' [_ Hs']. by rewrite Hl in Hs'.
Qed.
End cycle.

(** ** Examples and interleavings *)

Section races.
Local Existing Instance tick_clock.

Definition demo_sample : ProcessedTraceRecord := MkProcessed [] EmptyName 5.

(** A storage with one sample of coroutine 1, marked by the cleaner. *)
Definition demo_marked : TraceStorage :=
  match run (addProcessedTrace 1 demo_sample;; mark_for_clean) make_storage with
  | Val _ s => s
  | _ => make_storage
  end.

(** [addProcessedTrace] looks its key up twice, under two locks.  When the
    cleaner's [clean] erases the key between the test and the access, [at]
    throws [std::out_of_range] in the thread that records the sample. *)
Theorem add_processed_race :
  exists c, rtc tstep (demo_marked, [addProcessedTrace 1 demo_sample; clean]) c /\
    throws_in c (Out_of_range "unordered_map::at").
Proof.
  apply (outcome_throws [0; 1]%nat 0). vm_compute. reflexivity.
Qed.

(** A collection that is in progress when the cleaner marks and cleans is
    removed from the record, and [gcFinish] then reads [back()] of an empty
    list, which is undefined. *)
Theorem gc_finish_after_clean :
  exists w, run (gcStart;; mark_for_clean;; clean;; gcFinish) make_storage = Undef w.
Proof. eexists. vm_compute. reflexivity. Qed.
End races.

Lemma clean_cycle_witness :
  wp (clean) demo_marked (fun _ s'' => storage_wf s'' /\
    a_traces (abs s'') = drop_keys (∅ ∪ {[1]}) (a_traces (abs demo_marked)) /\
    a_children (abs s'') = drop_keys (∅ ∪ ∅) (a_children (abs demo_marked))).
Proof.
  set (s0 := match run (addProcessedTrace 1 demo_sample) make_storage with
             | Val _ s => s | _ => make_storage end).
  assert (Hwf : storage_wf s0)
    by exact (exec_wf (CK:=tick_clock) make_storage (OpAddProcessed 1 demo_sample)
                make_storage_wf I).
  apply (clean_cycle (CK:=tick_clock) s0 [] demo_marked Hwf); [|constructor].
  apply (calls_cons s0 OpMark [] demo_marked); [exact I|vm_compute; reflexivity|constructor].
Defined.

Lemma gc_first_collection_witness :
  wp (gcStart (CK:=tick_clock);; gcFinish (CK:=tick_clock);;
      findGcEvents 1 2000000 (fun l e => l ++ [e]) []) make_storage (fun l s' =>
    gc_objects s' = [MkGC 1 1000001] /\ l = [MkGC 1 1000001]).
Proof.
  exact (proj2 (gc_first_collection (CK:=tick_clock) make_storage 1 2000000
                  make_storage_wf eq_refl)).
Defined.

(** The storage after one collection. *)
Definition demo_started : TraceStorage :=
  match run (gcStart (CK:=tick_clock)) make_storage with Val _ s => s | _ => make_storage end.
Definition demo_collected : TraceStorage :=
  match run (gcFinish (CK:=tick_clock)) demo_started with Val _ s => s | _ => make_storage end.

Lemma demo_collected_wf : storage_wf demo_collected.
Proof.
  apply (op_result_safe (CK:=tick_clock) demo_started OpGcFinish); [|done|reflexivity].
  by apply (op_result_safe (CK:=tick_clock) make_storage OpGcStart);
    [apply make_storage_wf| |reflexivity].
Qed.

Lemma gc_next_collection_witness :
  gc_objects demo_collected = [MkGC 1 1000001] /\
  wp (gcStart (CK:=tick_clock);; gcFinish (CK:=tick_clock)) demo_collected (fun _ s' =>
    gc_objects s' = [MkGC 2000001 3000001; MkGC 2000001 3000001]).
Proof.
  split; [reflexivity|].
  exact (gc_next_collection (CK:=tick_clock) demo_collected (MkGC 1 1000001) []
           demo_collected_wf eq_refl).
Defined.
