(* ===== verification/Perfetto.v ===== *)
(** * The Perfetto messages the plot writes
    (protos/perfetto/trace/trace.pb.h, trace_packet.pb.h, track_event/*.pb.h)

    The generated messages [Trace], [TracePacket], [TrackDescriptor],
    [TrackEvent], [TrackEvent.Callstack], [TrackEvent.Callstack.Frame] and
    [DebugAnnotation], with the fields this program sets.  A field with a has
    bit is an [option]; a [oneof] is an inductive type with the alternatives
    the program uses and one constructor for all the others, named by their
    field number; a setter of another alternative clears the old one.

    A mutable message reached through its parent ([mutable_track_event] and
    the like) is updated in place: the accessor takes the update. *)

From S2P Require Import Prelude.
From Stdlib Require Import ZArith Lia.
From stdpp Require Import base gmap list strings numbers.
Local Open Scope Z_scope.
Local Open Scope kt_scope.

(** ** [DebugAnnotation] *)

Inductive name_field := Name (s : string) | Name_iid (iid : Z) | NAME_FIELD_NOT_SET.

Inductive annotation_value :=
  | Int_value (v : Z)
  | Value_other (field : Z)
  | VALUE_NOT_SET.

Record DebugAnnotation := MkAnnotation {
  da_name_field : name_field;
  da_value : annotation_value;
}.

Definition new_annotation : DebugAnnotation := MkAnnotation NAME_FIELD_NOT_SET VALUE_NOT_SET.

Definition da_set_name (name : string) (m : DebugAnnotation) : DebugAnnotation :=
  MkAnnotation (Name name) (da_value m).

Definition da_set_int_value (value : Z) (m : DebugAnnotation) : DebugAnnotation :=
  MkAnnotation (da_name_field m) (Int_value (s64 value)).

(** ** [TrackDescriptor] *)

Inductive descriptor_name := DName (s : string) | DName_other (field : Z) | DNAME_NOT_SET.

Record TrackDescriptor := MkDescriptor {
  td_uuid : option Z;
  td_name : descriptor_name;
}.

Definition new_descriptor : TrackDescriptor := MkDescriptor None DNAME_NOT_SET.

Definition td_set_uuid (value : Z) (m : TrackDescriptor) : TrackDescriptor :=
  MkDescriptor (Some (u64 value)) (td_name m).

Definition td_set_name (name : string) (m : TrackDescriptor) : TrackDescriptor :=
  MkDescriptor (td_uuid m) (DName name).

(** ** [TrackEvent] *)

Record Frame := MkCallFrame { function_name : option string }.

Definition new_frame : Frame := MkCallFrame None.
Definition set_function_name (name : string) (f : Frame) : Frame := MkCallFrame (Some name).

Record Callstack := MkCallstack { frames : list Frame }.

Definition new_callstack : Callstack := MkCallstack [].

(** [add_frames] and what is done to the new frame. *)
Definition add_frames (update : Frame -> Frame) (m : Callstack) : Callstack :=
  MkCallstack (frames m ++ [update new_frame]).

Inductive TrackEvent_Type :=
  | TYPE_UNSPECIFIED
  | TYPE_SLICE_BEGIN
  | TYPE_SLICE_END
  | TYPE_INSTANT
  | TYPE_COUNTER.

#[global] Instance TrackEvent_Type_eq_dec : EqDecision TrackEvent_Type.
Proof. solve_decision. Defined.

Inductive callstack_field :=
  | CallstackField (c : Callstack)
  | Callstack_iid (iid : Z)
  | CALLSTACK_FIELD_NOT_SET.

Record TrackEvent := MkEvent {
  te_name_field : name_field;
  te_type : option TrackEvent_Type;
  te_track_uuid : option Z;
  te_flow_ids : list Z;
  te_callstack : callstack_field;
  te_debug_annotations : list DebugAnnotation;
}.

Definition new_event : TrackEvent :=
  MkEvent NAME_FIELD_NOT_SET None None [] CALLSTACK_FIELD_NOT_SET [].

Definition te_set_type (value : TrackEvent_Type) (m : TrackEvent) : TrackEvent :=
  MkEvent (te_name_field m) (Some value) (te_track_uuid m) (te_flow_ids m) (te_callstack m)
    (te_debug_annotations m).

Definition te_set_name (name : string) (m : TrackEvent) : TrackEvent :=
  MkEvent (Name name) (te_type m) (te_track_uuid m) (te_flow_ids m) (te_callstack m)
    (te_debug_annotations m).

Definition te_set_track_uuid (value : Z) (m : TrackEvent) : TrackEvent :=
  MkEvent (te_name_field m) (te_type m) (Some (u64 value)) (te_flow_ids m) (te_callstack m)
    (te_debug_annotations m).

(** [mutable_flow_ids()->Add(value)]. *)
Definition add_flow_id (value : Z) (m : TrackEvent) : TrackEvent :=
  MkEvent (te_name_field m) (te_type m) (te_track_uuid m) (te_flow_ids m ++ [u64 value])
    (te_callstack m) (te_debug_annotations m).

Definition mutable_callstack (update : Callstack -> Callstack) (m : TrackEvent) : TrackEvent :=
  let c := match te_callstack m with CallstackField c => c | _ => new_callstack end in
  MkEvent (te_name_field m) (te_type m) (te_track_uuid m) (te_flow_ids m)
    (CallstackField (update c)) (te_debug_annotations m).

(** [add_debug_annotations] and what is done to the new annotation. *)
Definition add_debug_annotation (update : DebugAnnotation -> DebugAnnotation)
    (m : TrackEvent) : TrackEvent :=
  MkEvent (te_name_field m) (te_type m) (te_track_uuid m) (te_flow_ids m) (te_callstack m)
    (te_debug_annotations m ++ [update new_annotation]).

(** ** [TracePacket] and [Trace] *)

Inductive packet_data :=
  | Data_track_event (m : TrackEvent)
  | Data_track_descriptor (m : TrackDescriptor)
  | Data_other (field : Z)
  | DATA_NOT_SET.

Record TracePacket := MkPacket {
  timestamp : option Z;
  data : packet_data;
  trusted_packet_sequence_id : option Z;
}.

Definition new_packet : TracePacket := MkPacket None DATA_NOT_SET None.

Definition set_timestamp (value : Z) (m : TracePacket) : TracePacket :=
  MkPacket (Some (u64 value)) (data m) (trusted_packet_sequence_id m).

Definition set_trusted_packet_sequence_id (value : Z) (m : TracePacket) : TracePacket :=
  MkPacket (timestamp m) (data m) (Some (wrapu 32 value)).

Definition mutable_track_event (update : TrackEvent -> TrackEvent) (m : TracePacket) :
    TracePacket :=
  let e := match data m with Data_track_event e => e | _ => new_event end in
  MkPacket (timestamp m) (Data_track_event (update e)) (trusted_packet_sequence_id m).

Definition mutable_track_descriptor (update : TrackDescriptor -> TrackDescriptor)
    (m : TracePacket) : TracePacket :=
  let d := match data m with Data_track_descriptor d => d | _ => new_descriptor end in
  MkPacket (timestamp m) (Data_track_descriptor (update d)) (trusted_packet_sequence_id m).

Record Trace := MkTrace { packet : list TracePacket }.

Definition new_trace : Trace := MkTrace [].

(** [add_packet] and what is done to the new packet. *)
Definition add_packet (update : TracePacket -> TracePacket) (m : Trace) : Trace :=
  MkTrace (packet m ++ [update new_packet]).

(** Sequencing of updates of one message, in the order of the statements. *)
Definition then_ {A} (f g : A -> A) : A -> A := fun m => g (f m).
Notation "f '>=>' g" := (then_ f g) (at level 61, left associativity) : kt_scope.

(** ** A reader's view *)

(** The descriptor or the event of a packet. *)
Definition packet_descriptor (p : TracePacket) : option TrackDescriptor :=
  match data p with Data_track_descriptor d => Some d | _ => None end.
Definition packet_event (p : TracePacket) : option TrackEvent :=
  match data p with Data_track_event e => Some e | _ => None end.
