(* ===== verification/SuspensionPlot.v ===== *)
(** * The plot of a trace (utils/suspensionPlot.cpp)

    [write_perfetto] turns a finished trace into a Perfetto file: the trace
    itself, the collections in its window, and, breadth first from the traced
    coroutine, every coroutine with its samples and suspensions.  The storage
    is read while other threads use it, so the functions that read it are
    programs; what they append to the trace is pure.  The strings behind the
    [std::string*] of a stack frame are [deref]. *)

From S2P Require Import Prelude ConcurrentList ConcurrentMap TraceTime TraceModel TraceStorage.
From S2P Require Import Perfetto.
From Stdlib Require Import ZArith Lia.
From stdpp Require Import base gmap list strings numbers pretty.
Local Open Scope Z_scope.
Local Open Scope kt_scope.

(** The trace under construction and [*track_counter]. *)
Record plot := MkPlot { trace : Trace; track_counter : Z }.

Definition add (p : TracePacket -> TracePacket) (st : plot) : plot :=
  MkPlot (add_packet p (trace st)) (track_counter st).

(** [++*track_counter], a [uint64_t]. *)
Definition next_track (st : plot) : Z * plot :=
  let c := u64 (track_counter st + 1) in (c, MkPlot (trace st) c).

(** The two packets every track starts with have the same form everywhere: a
    descriptor with a name and an identifier. *)
Definition descriptor_packet (sequence_id track_id : Z) (name : string) :
    TracePacket -> TracePacket :=
  set_trusted_packet_sequence_id sequence_id
  >=> mutable_track_descriptor (td_set_name name >=> td_set_uuid track_id).

(** [coroutine_queue_item]: a coroutine and the parent it was found from. *)
Abbreviation queue_item := (Z * Z)%type.

Section plot.
Context (deref : strptr -> string).

(** [*frame->base + ":" + *frame->frame]. *)
Definition frame_method (frame : StackFrame) : string :=
  deref (sf_base frame) +:+ ":" +:+ deref (sf_frame frame).

Definition add_stack (stack : list StackFrame) (c : Callstack) : Callstack :=
  foldl (fun c frame => add_frames (set_function_name (frame_method frame)) c) c stack.

Definition add_suspension (suspension : SuspensionInfo) (coroutine_name : string)
    (sequence_id : Z) (trace_end_time : TraceTime) (st : plot) : plot :=
  let '(track_id, st) := next_track st in
  let st := add (descriptor_packet sequence_id track_id coroutine_name) st in
  let st := add (
    set_timestamp (si_start suspension)
    >=> mutable_track_event (
          te_set_type TYPE_SLICE_BEGIN
          >=> te_set_name "Suspension"
          >=> te_set_track_uuid track_id)
    >=> set_trusted_packet_sequence_id sequence_id) st in
  add (
    mutable_track_event (
      te_set_type TYPE_SLICE_END
      >=> te_set_track_uuid track_id)
    >=> (if negb (tt_eqb (si_end suspension) 0)
         then set_timestamp (si_end suspension)
         else set_timestamp trace_end_time)
    >=> set_trusted_packet_sequence_id sequence_id
    >=> mutable_track_event (mutable_callstack (add_stack (suspension_stack_trace suspension))))
    st.

(** The body of [add_call_stack]'s lambda, for one sample. *)
Definition add_sample (trace_info : TraceInfo) (sequence_id track_id : Z) (st : plot)
    (trace_record : ProcessedTraceRecord) : plot :=
  match stack_trace trace_record with
  | [] => st
  | frames =>
      let add_frame c frame :=
        if tt_geb (time trace_record) (ti_start trace_info)
           && tt_leb (time trace_record) (ti_end trace_info)
        then add_frames (set_function_name (frame_method frame)) c
        else c in
      add (
        set_timestamp (tt_get (time trace_record))
        >=> mutable_track_event (
              te_set_type TYPE_INSTANT
              >=> te_set_name "Stack trace"
              >=> te_set_track_uuid track_id)
        >=> set_trusted_packet_sequence_id sequence_id
        >=> mutable_track_event (mutable_callstack (fun c => foldl add_frame c frames)))
        st
  end.

Definition add_call_stack (traces : ptr) (trace_info : TraceInfo) (sequence_id track_id : Z)
    (st : plot) : prog TraceStorage plot :=
  zoom traces_heap_L
    (at_ptr traces (CL.forEach (add_sample trace_info sequence_id track_id) st)).

(** The body of [add_gc_info]'s lambda, for one collection. *)
Definition add_gc_event (sequence_id : Z) (st : plot) (gc_event : GCEvent) : plot :=
  let '(track_id, st) := next_track st in
  let st := add (descriptor_packet sequence_id track_id "GC") st in
  let st := add (
    set_timestamp (gc_start gc_event)
    >=> mutable_track_event (
          te_set_type TYPE_SLICE_BEGIN
          >=> te_set_name "GC"
          >=> te_set_track_uuid track_id)
    >=> set_trusted_packet_sequence_id sequence_id) st in
  add (
    set_timestamp (gc_end gc_event)
    >=> mutable_track_event (
          te_set_type TYPE_SLICE_END
          >=> te_set_track_uuid track_id)
    >=> set_trusted_packet_sequence_id sequence_id) st.

Definition add_gc_info (trace_info : TraceInfo) (sequence_id : Z) (st : plot) :
    prog TraceStorage plot :=
  findGcEvents (ti_start trace_info) (ti_end trace_info) (add_gc_event sequence_id) st.

(** [duration_cast<milliseconds>] of nanoseconds and of microseconds. *)
Definition ns_to_ms (n : Z) : Z := Z.quot n 1000000.
Definition us_to_ms (n : Z) : Z := Z.quot n 1000.

Definition annotate (name : string) (value : Z) : TrackEvent -> TrackEvent :=
  add_debug_annotation (da_set_name name >=> da_set_int_value value).

(** A read of a field of [*coroutine_info]. *)
Definition info_field {A} (p : ptr) (f : CoroutineInfo -> A) : prog TraceStorage A :=
  zoom info_heap_L (hread p f).

(** A statement under [if], which reads a counter again to annotate it. *)
Definition switches_annotation (p : ptr) (f : CoroutineInfo -> Z) (name : string) :
    prog TraceStorage (TrackEvent -> TrackEvent) :=
  n ← info_field p f;
  if n =? 0 then m ← info_field p f; mret (annotate name m)
  else mret (fun e : TrackEvent => e).

(** [suspensions_list->forEach]: the list's lock is held, the suspensions are
    read through their pointers. *)
Definition each_suspension (p : ptr) (f : plot -> SuspensionInfo -> plot) (st : plot) :
    prog TraceStorage plot :=
  act (fun s =>
    match p ≫= (fun l => cells (info_heap s) !! l) with
    | None => Undef "null pointer dereference"
    | Some i =>
        match mapM (fun l => cells (suspension_heap s) !! l) (CL.list_ (suspensions_list i)) with
        | None => Undef "null pointer dereference"
        | Some l => Val (foldl f st l) s
        end
    end).

(** The packets of the coroutine itself: descriptor, begin with the flow from
    the parent and the annotations, end. *)
Definition coroutine_packets (name : string) (coroutine_id parent_coroutine_id : Z)
    (sequence_id start finish : Z) (annotations : TrackEvent -> TrackEvent) (st : plot) : plot :=
  let '(track_id, st) := next_track st in
  let st := add (descriptor_packet sequence_id track_id name) st in
  let st := add (
    set_timestamp start
    >=> mutable_track_event (
          te_set_type TYPE_SLICE_BEGIN
          >=> te_set_name name
          >=> te_set_track_uuid track_id
          >=> (if parent_coroutine_id =? 0 then add_flow_id coroutine_id
               else add_flow_id parent_coroutine_id >=> add_flow_id coroutine_id))
    >=> set_trusted_packet_sequence_id sequence_id
    >=> mutable_track_event annotations) st in
  add (
    set_timestamp finish
    >=> mutable_track_event (
          te_set_type TYPE_SLICE_END
          >=> te_set_track_uuid track_id)
    >=> set_trusted_packet_sequence_id sequence_id) st.

(** One turn of the [while] loop of [add_trace_info], for the item at the
    front of the queue: the items it appends and the new plot. *)
Definition plot_coroutine (trace_info : TraceInfo) (sequence_id : Z)
    (visited_coroutines : gset Z) (item : queue_item) (st : plot) :
    prog TraceStorage (list queue_item * plot) :=
  let '(coroutine_id, parent_coroutine_id) := item in
  coroutine_info ← getCoroutineInfo coroutine_id;
  if bool_decide (coroutine_info = None) then mret ([], st)
  else
    let coroutineName := "coroutine#" +:+ pretty coroutine_id in
    wall ← info_field coroutine_info wall_clock_running_time;
    user ← info_field coroutine_info cpu_user_clock_running_time_us;
    system ← info_field coroutine_info cpu_system_clock_running_time_us;
    start ← (if parent_coroutine_id =? 0 then mret (ti_start trace_info)
             else info_field coroutine_info ci_start);
    voluntary ← switches_annotation coroutine_info voluntary_switches "Voluntary switches";
    involuntary ←
      switches_annotation coroutine_info involuntary_switches "Involuntary switches";
    finish ← (if parent_coroutine_id =? 0 then mret (ti_end trace_info)
              else info_field coroutine_info ci_end);
    let st := coroutine_packets coroutineName coroutine_id parent_coroutine_id sequence_id
      start finish
      (annotate "Wall CPU time ms" (ns_to_ms wall)
       >=> annotate "User CPU time ms" (us_to_ms user)
       >=> annotate "System CPU time ms" (us_to_ms system)
       >=> voluntary
       >=> involuntary) st in
    traces ← getProcessedTraces coroutine_id;
    let '(samples_track_id, st) := next_track st in
    let st := add (descriptor_packet sequence_id samples_track_id "Samples") st in
    st ← (if bool_decide (traces = None) then mret st
          else add_call_stack traces trace_info sequence_id samples_track_id st);
    st ← each_suspension coroutine_info
           (fun st i => add_suspension i coroutineName sequence_id (ti_end trace_info) st) st;
    has_children ← containsChildCoroutineStorage coroutine_id;
    if (has_children : bool) then
      children ← getChildCoroutines coroutine_id;
      items ← zoom child_heap_L (at_ptr children (CL.forEach (fun items child =>
        if bool_decide (child ∈ visited_coroutines) then items
        else items ++ [(child, coroutine_id)]) []));
      mret (items, st)
    else mret ([], st).

(** The [while] loop; [None] is fuel exhausted. *)
Fixpoint trace_loop (fuel : nat) (trace_info : TraceInfo) (sequence_id : Z)
    (coroutines : list queue_item) (visited_coroutines : gset Z) (st : plot) :
    prog TraceStorage (option plot) :=
  match coroutines with
  | [] => mret (Some st)
  | item :: coroutines =>
      match fuel with
      | O => mret None
      | S fuel =>
          let visited_coroutines := {[item.1]} ∪ visited_coroutines in
          '(items, st) ← plot_coroutine trace_info sequence_id visited_coroutines item st;
          trace_loop fuel trace_info sequence_id (coroutines ++ items) visited_coroutines st
      end
  end.

Definition add_trace_info (fuel : nat) (trace_info : TraceInfo) (sequence_id : Z) (st : plot) :
    prog TraceStorage (option plot) :=
  trace_loop fuel trace_info sequence_id [(ti_coroutine_id trace_info, 0)] ∅ st.

Definition TRUSTED_SEQUENCE_ID : Z := 1.

(** The packets of the trace itself, before the collections. *)
Definition trace_packets (trace_info : TraceInfo) : Z * plot :=
  let '(track_id, st) := next_track (MkPlot new_trace 0) in
  let st := add (descriptor_packet TRUSTED_SEQUENCE_ID track_id "Trace") st in
  let st := add (
    set_timestamp (ti_start trace_info)
    >=> mutable_track_event (
          te_set_type TYPE_SLICE_BEGIN
          >=> te_set_name "Trace"
          >=> te_set_track_uuid track_id
          >=> add_debug_annotation (da_set_name "Trace"))
    >=> set_trusted_packet_sequence_id TRUSTED_SEQUENCE_ID) st in
  (track_id,
   add (
     set_timestamp (ti_end trace_info)
     >=> mutable_track_event (
           te_set_type TYPE_SLICE_END
           >=> te_set_track_uuid track_id)
     >=> set_trusted_packet_sequence_id TRUSTED_SEQUENCE_ID) st).

(** The file [write_perfetto] writes: its path and the message in it.  The
    collections are given the track identifier, a [uint64_t], as their
    sequence identifier, a [uint32_t]. *)
Definition write_perfetto (fuel : nat) (path : string) (trace_info : TraceInfo) :
    prog TraceStorage (option (string * Trace)) :=
  let '(track_id, st) := trace_packets trace_info in
  st ← add_gc_info trace_info (wrapu 32 track_id) st;
  r ← add_trace_info fuel trace_info TRUSTED_SEQUENCE_ID st;
  mret (option_map (fun st => (path, trace st)) r).
End plot.
