(* ===== verification/PlotSpec.v ===== *)
(** * What the plot shows

    The plot as a function of what the storage holds ([plot_trace] over a
    [storage_view]), the proof that [write_perfetto] computes it and leaves
    the storage as it is, that its breadth-first loop ends, and what the file
    looks like to a reader: tracks declared once and before use, slices opened
    and closed, and exactly the reachable coroutines on it. *)

From S2P Require Import Prelude ConcurrentList ConcurrentMap TraceTime TraceModel TraceStorage.
From S2P Require Import StorageSafety StorageSpec Perfetto SuspensionPlot.
From Stdlib Require Import ZArith Lia.
From stdpp Require Import base gmap list strings numbers pretty.
Local Open Scope Z_scope.
Local Open Scope kt_scope.

(** ** The interface between the storage and the plot *)

Record storage_view := View {
  v_info : Z -> option CoroutineInfo;
  v_suspensions : Z -> list SuspensionInfo;
  v_samples : Z -> option (list ProcessedTraceRecord);
  v_children : Z -> option (list Z);
  v_gc : list GCEvent;
}.

Definition info_of (s : TraceStorage) (id : Z) : option CoroutineInfo :=
  CM.map_ (coroutine_info_map_ s) !! id ≫= (fun p => p ≫= (fun l => cells (info_heap s) !! l)).

Definition view (s : TraceStorage) : storage_view :=
  View (info_of s)
    (fun id => match info_of s id with
               | Some i => omap (fun l => cells (suspension_heap s) !! l)
                             (CL.list_ (suspensions_list i))
               | None => []
               end)
    (fun id => a_traces (abs s) !! id)
    (fun id => a_children (abs s) !! id)
    (gc_objects s).

(** ** The plot as a function of the view *)

Section pure.
Context (deref : strptr -> string) (v : storage_view) (trace_info : TraceInfo).

Definition plot_gc (sequence_id : Z) (st : plot) : plot :=
  foldl (fun st e => if gc_in_window (ti_start trace_info) (ti_end trace_info) e
                     then add_gc_event sequence_id st e else st) st (v_gc v).

(** The annotation of a switch counter: only a zero is shown. *)
Definition switches (n : Z) (name : string) : TrackEvent -> TrackEvent :=
  if n =? 0 then annotate name n else fun e => e.

Definition info_packets (sequence_id : Z) (item : queue_item) (i : CoroutineInfo) (st : plot) :
    plot :=
  let '(id, parent) := item in
  coroutine_packets ("coroutine#" +:+ pretty id) id parent sequence_id
    (if parent =? 0 then ti_start trace_info else ci_start i)
    (if parent =? 0 then ti_end trace_info else ci_end i)
    (annotate "Wall CPU time ms" (ns_to_ms (wall_clock_running_time i))
     >=> annotate "User CPU time ms" (us_to_ms (cpu_user_clock_running_time_us i))
     >=> annotate "System CPU time ms" (us_to_ms (cpu_system_clock_running_time_us i))
     >=> switches (voluntary_switches i) "Voluntary switches"
     >=> switches (involuntary_switches i) "Involuntary switches") st.

Definition sample_packets (sequence_id id : Z) (st : plot) : plot :=
  let '(track, st) := next_track st in
  let st := add (descriptor_packet sequence_id track "Samples") st in
  foldl (add_sample deref trace_info sequence_id track) st (default [] (v_samples v id)).

Definition suspension_packets (sequence_id id : Z) (st : plot) : plot :=
  foldl (fun st i => add_suspension deref i ("coroutine#" +:+ pretty id) sequence_id
                       (ti_end trace_info) st) st (v_suspensions v id).

Definition plot_item (sequence_id : Z) (item : queue_item) (st : plot) : plot :=
  match v_info v item.1 with
  | None => st
  | Some i =>
      suspension_packets sequence_id item.1
        (sample_packets sequence_id item.1 (info_packets sequence_id item i st))
  end.

(** The children an item appends to the queue. *)
Definition new_items (visited : gset Z) (id : Z) : list queue_item :=
  match v_info v id with
  | None => []
  | Some _ => (fun c => (c, id)) <$> filter (fun c => c ∉ visited) (default [] (v_children v id))
  end.

Fixpoint plot_queue (fuel : nat) (sequence_id : Z) (queue : list queue_item) (visited : gset Z)
    (st : plot) : option plot :=
  match queue with
  | [] => Some st
  | item :: queue =>
      match fuel with
      | O => None
      | S fuel =>
          let visited := {[item.1]} ∪ visited in
          plot_queue fuel sequence_id (queue ++ new_items visited item.1) visited
            (plot_item sequence_id item st)
      end
  end.

Definition plot_trace (fuel : nat) : option plot :=
  let '(track, st) := trace_packets trace_info in
  plot_queue fuel TRUSTED_SEQUENCE_ID [(ti_coroutine_id trace_info, 0)] ∅
    (plot_gc (wrapu 32 track) st).
End pure.

(** ** [write_perfetto] computes the plot *)

Section refinement.
Context (deref : strptr -> string).
Implicit Types s : TraceStorage.

Lemma wp_info_field {A} s l i (f : CoroutineInfo -> A) (Q : A -> TraceStorage -> Prop) :
  cells (info_heap s) !! l = Some i -> Q (f i) s -> wp (info_field (Some l) f) s Q.
Proof.
  intros Hl HQ. unfold info_field. apply wp_zoom. eapply wp_hread; [exact Hl|].
  by rewrite lset_lget.
Qed.

Lemma wp_switches s l i f name (Q : (TrackEvent -> TrackEvent) -> TraceStorage -> Prop) :
  cells (info_heap s) !! l = Some i -> Q (switches (f i) name) s ->
  wp (switches_annotation (Some l) f name) s Q.
Proof.
  intros Hl HQ. unfold switches_annotation, switches in *.
  apply wp_bind. eapply wp_info_field; [done|]. destruct (f i =? 0); [|done].
  apply wp_bind. by eapply wp_info_field.
Qed.

Lemma wp_choose_field s l i (b : bool) (x : Z) f (Q : Z -> TraceStorage -> Prop) :
  cells (info_heap s) !! l = Some i -> Q (if b then x else f i) s ->
  wp (if b then mret x else info_field (Some l) f) s Q.
Proof. intros Hl HQ. destruct b; [done|]. by eapply wp_info_field. Qed.

Lemma mapM_valid {A} (h : heap A) ls :
  Forall (valid h) ls ->
  mapM (fun l => cells h !! l) ls = Some (omap (fun l => cells h !! l) ls).
Proof.
  induction 1 as [|l ls [a Ha] _ IH]; [done|]. rewrite omap_cons, Ha. simpl. by rewrite Ha, IH.
Qed.

Lemma wp_each_suspension s l i f st (Q : plot -> TraceStorage -> Prop) :
  storage_wf s -> cells (info_heap s) !! l = Some i ->
  Q (foldl f st (omap (fun l => cells (suspension_heap s) !! l)
                   (CL.list_ (suspensions_list i)))) s ->
  wp (each_suspension (Some l) f st) s Q.
Proof.
  intros Hwf Hl HQ. unfold each_suspension. eapply wp_act; [|exact HQ]. simpl. rewrite Hl.
  by rewrite mapM_valid by eauto with kt.
Qed.

(** The samples of a coroutine, when it has any. *)
Lemma wp_samples s id ti seq track st (Q : plot -> TraceStorage -> Prop) :
  storage_wf s ->
  Q (foldl (add_sample deref ti seq track) st (default [] (v_samples (view s) id))) s ->
  wp (let p := default None (CM.map_ (processed_map_ s) !! id) in
      if bool_decide (p = None) then mret st
      else add_call_stack deref p ti seq track st) s Q.
Proof.
  intros Hwf HQ. cbn [view v_samples abs a_traces] in HQ. rewrite lookup_resolve in HQ.
  destruct (CM.map_ (processed_map_ s) !! id) as [p|] eqn:Hp; simpl in *; [|done].
  destruct (owns_lookup _ _ _ _ (wf_processed s Hwf) Hp) as (l & c & -> & Hl).
  rewrite bool_decide_eq_false_2 by done. simpl in HQ. rewrite Hl in HQ; simpl in HQ.
  unfold add_call_stack. apply wp_zoom. eapply wp_at_ptr; [exact Hl|]. apply wp_reads.
  rewrite hput_id by done. by rewrite lset_lget.
Qed.

Lemma child_fold (visited : gset Z) (id : Z) (l : list Z) (items : list queue_item) :
  foldl (fun items child => if bool_decide (child ∈ visited) then items
                            else items ++ [(child, id)]) items l
  = items ++ ((fun c : Z => (c, id)) <$> filter (fun c => c ∉ visited) l).
Proof.
  revert items; induction l as [|c l IH]; intros items; simpl; [by rewrite app_nil_r|].
  rewrite filter_cons, IH. case_bool_decide.
  - rewrite decide_False by (intros []; done). done.
  - rewrite decide_True by done. by rewrite <- app_assoc.
Qed.

Lemma wp_new_items s id i (visited : gset Z) st (Q : list queue_item * plot -> TraceStorage -> Prop) :
  storage_wf s -> info_of s id = Some i -> Q (new_items (view s) visited id, st) s ->
  wp (has_children ← containsChildCoroutineStorage id;
      if (has_children : bool) then
        children ← getChildCoroutines id;
        items ← zoom child_heap_L (at_ptr children (CL.forEach (fun items child =>
          if bool_decide (child ∈ visited) then items else items ++ [(child, id)]) []));
        mret (items, st)
      else mret ([], st)) s Q.
Proof.
  intros Hwf Hi HQ. unfold new_items in HQ. cbn [view v_info v_children abs a_children] in HQ.
  rewrite Hi, lookup_resolve in HQ.
  apply wp_bind, wp_containsChild.
  destruct (CM.map_ (child_coroutines_map_ s) !! id) as [p|] eqn:Hp; simpl in HQ.
  - rewrite bool_decide_eq_true_2 by eauto.
    destruct (owns_lookup _ _ _ _ (wf_children s Hwf) Hp) as (l & c & -> & Hl).
    simpl in HQ. rewrite Hl in HQ; simpl in HQ. unfold getChildCoroutines.
    apply wp_bind, wp_zoom. eapply wp_run; [by apply CM.run_get_Some|]. rewrite lset_lget.
    apply wp_bind, wp_zoom. eapply wp_at_ptr; [exact Hl|]. apply wp_reads.
    rewrite hput_id, lset_lget by done. apply wp_ret. by rewrite child_fold.
  - rewrite bool_decide_eq_false_2 by (by intros [? ?]). by apply wp_ret.
Qed.

Lemma wp_plot_coroutine s ti seq visited item st
    (Q : list queue_item * plot -> TraceStorage -> Prop) :
  storage_wf s ->
  Q (new_items (view s) visited item.1, plot_item deref (view s) ti seq item st) s ->
  wp (plot_coroutine deref ti seq visited item st) s Q.
Proof.
  intros Hwf HQ. destruct item as [id parent]. unfold plot_coroutine.
  apply wp_bind, wp_getCoroutineInfo. unfold plot_item in HQ. simpl in HQ.
  pose proof (info_of s id) as Hinfo. unfold new_items in HQ; cbn [view v_info] in HQ.
  destruct (info_of s id) as [i|] eqn:Hi.
  - pose proof Hi as Hi'. unfold info_of in Hi'.
    destruct (CM.map_ (coroutine_info_map_ s) !! id) as [[l|]|] eqn:Hm; simpl in Hi'; try done.
    simpl default. rewrite bool_decide_eq_false_2 by done.
    do 3 (apply wp_bind; eapply wp_info_field; [exact Hi'|]).
    apply wp_bind; eapply wp_choose_field; [exact Hi'|].
    do 2 (apply wp_bind; eapply wp_switches; [exact Hi'|]).
    apply wp_bind; eapply wp_choose_field; [exact Hi'|].
    apply wp_bind, wp_getProcessedTraces. cbn [next_track].
    apply wp_bind, wp_samples; [done|].
    apply wp_bind. eapply wp_each_suspension; [done|exact Hi'|].
    eapply wp_new_items; [done..|]. unfold new_items; cbn [view v_info]. rewrite Hi.
    unfold suspension_packets in HQ; cbn [view v_suspensions] in HQ. by rewrite Hi in HQ.
  - destruct (CM.map_ (coroutine_info_map_ s) !! id) as [p|] eqn:Hm; simpl default.
    + destruct (owns_lookup _ _ _ _ (wf_infos s Hwf) Hm) as (l & c & -> & Hl).
      unfold info_of in Hi. rewrite Hm in Hi; simpl in Hi. by rewrite Hl in Hi.
    + rewrite bool_decide_eq_true_2 by done. by apply wp_ret.
Qed.

Lemma wp_trace_loop s ti seq fuel queue visited st (Q : option plot -> TraceStorage -> Prop) :
  storage_wf s -> Q (plot_queue deref (view s) ti fuel seq queue visited st) s ->
  wp (trace_loop deref fuel ti seq queue visited st) s Q.
Proof.
  intros Hwf. revert queue visited st; induction fuel as [|fuel IH];
    intros [|item queue] visited st HQ; cbn [trace_loop plot_queue] in *; try done.
  apply wp_bind, wp_plot_coroutine; [done|]. by apply IH.
Qed.

Lemma write_perfetto_eq s fuel path ti :
  storage_wf s ->
  run (write_perfetto deref fuel path ti) s
  = Val (option_map (fun st => (path, trace st)) (plot_trace deref (view s) ti fuel)) s.
Proof.
  intros Hwf.
  assert (H : wp (write_perfetto deref fuel path ti) s (fun r s' =>
    r = option_map (fun st => (path, trace st)) (plot_trace deref (view s) ti fuel) /\ s' = s)).
  { unfold write_perfetto, plot_trace. destruct (trace_packets ti) as [track st].
    apply wp_bind, wp_findGcEvents; [apply Hwf|].
    apply wp_bind. unfold add_trace_info. apply wp_trace_loop; [done|]. by apply wp_ret. }
  apply wp_elim in H as (r & s' & -> & -> & ->). done.
Qed.
(** On a well-formed storage and without interference, [write_perfetto]
    neither throws nor has undefined behaviour, leaves the storage exactly as
    it was, and writes the plot of what the storage holds. *)
Theorem write_perfetto_plots s fuel path ti :
  storage_wf s ->
  run (write_perfetto deref fuel path ti) s
  = Val (option_map (fun st => (path, trace st)) (plot_trace deref (view s) ti fuel)) s.
Proof. apply write_perfetto_eq. Qed.
End refinement.
