(* ===== verification/PlotProps.v ===== *)
(** * Properties of the plotted trace: termination, tracks, slices, coroutines *)

From S2P Require Import Prelude ConcurrentList ConcurrentMap TraceTime TraceModel TraceStorage.
From S2P Require Import StorageSafety StorageSpec Perfetto SuspensionPlot PlotSpec.
From Stdlib Require Import ZArith Lia.
From stdpp Require Import base gmap list strings numbers pretty.
Local Open Scope Z_scope.
Local Open Scope kt_scope.

(** ** The breadth-first loop ends

    [visited_coroutines] is only extended when an item leaves the queue, so a
    coroutine with several parents is queued, and plotted, once per path that
    reaches it; but a path never returns to a coroutine it has left.  [cost n]
    bounds the work below an item when [n] coroutines are unvisited. *)

Section termination.
Context (deref : strptr -> string) (v : storage_view) (ti : TraceInfo) (seq : Z).
Context (U : gset Z) (D : nat).
Hypothesis children_bounded : forall id l,
  v_children v id = Some l -> (forall c, c ∈ l -> c ∈ U) /\ (length l <= D)%nat.

Fixpoint cost (n : nat) : nat :=
  match n with O => 1 | S n => 1 + D * cost n end.

Definition unvisited (visited : gset Z) : nat := size (U ∖ visited).

Definition potential (visited : gset Z) (queue : list queue_item) : nat :=
  sum_list_with (fun item => cost (unvisited ({[item.1]} ∪ visited))) queue.

Lemma cost_mono n m : (n <= m)%nat -> (cost n <= cost m)%nat.
Proof.
  revert m; induction n as [|n IH]; intros [|m] H; simpl; try lia.
  apply le_n_S, Nat.mul_le_mono_l, IH. lia.
Qed.

Lemma potential_mono V V' queue : V ⊆ V' -> (potential V' queue <= potential V queue)%nat.
Proof.
  intros HV. induction queue as [|item queue IH]; simpl; [done|].
  apply Nat.add_le_mono; [|done]. apply cost_mono. unfold unvisited. apply subseteq_size.
  apply difference_mono_l, union_mono_l, HV.
Qed.

Lemma new_items_in visited id c p :
  (c, p) ∈ new_items v visited id -> c ∉ visited /\ c ∈ U.
Proof.
  unfold new_items. destruct (v_info v id); [|set_solver].
  intros (c' & [= -> ->] & Hc)%list_elem_of_fmap. apply list_elem_of_filter in Hc as [Hn Hc].
  destruct (v_children v id) as [l|] eqn:Hl; simpl in Hc; [|set_solver].
  split; [done|]. by eapply children_bounded.
Qed.

Lemma new_items_length visited id : (length (new_items v visited id) <= D)%nat.
Proof.
  unfold new_items. destruct (v_info v id); [|simpl; lia]. rewrite length_fmap.
  etrans; [apply length_filter|]. destruct (v_children v id) as [l|] eqn:Hl; simpl; [|lia].
  by eapply children_bounded.
Qed.

Lemma unvisited_pred visited c :
  c ∉ visited -> c ∈ U -> S (unvisited ({[c]} ∪ visited)) = unvisited visited.
Proof.
  intros Hn Hc. unfold unvisited.
  replace (U ∖ visited) with ({[c]} ∪ U ∖ ({[c]} ∪ visited)).
  - rewrite (size_union {[c]} (U ∖ ({[c]} ∪ visited))) by set_solver. by rewrite size_singleton.
  - apply set_eq; intros x. destruct (decide (x = c)); set_solver.
Qed.

Lemma potential_items visited items :
  (forall c p, (c, p) ∈ items -> c ∉ visited /\ c ∈ U) ->
  (S (potential visited items) <= 1 + length items * cost (pred (unvisited visited)))%nat.
Proof.
  induction items as [|[c p] items IH]; intros Hin; simpl; [lia|].
  destruct (Hin c p) as [Hn Hc]; [left|]. pose proof (unvisited_pred visited c Hn Hc) as Hp.
  assert (Hle : (S (potential visited items)
                 <= 1 + length items * cost (pred (unvisited visited)))%nat)
    by (apply IH; intros c' p' H'; apply (Hin c' p'); by right).
  rewrite <- Hp in *. simpl in *. lia.
Qed.

Lemma potential_step visited item queue :
  let visited' := {[item.1]} ∪ visited in
  (S (potential visited' (queue ++ new_items v visited' item.1))
   <= potential visited (item :: queue))%nat.
Proof.
  intros visited'. unfold potential at 1. rewrite sum_list_with_app.
  fold (potential visited' queue) (potential visited' (new_items v visited' item.1)).
  simpl. fold visited'.
  pose proof (potential_mono visited visited' queue ltac:(set_solver)).
  pose proof (potential_items visited' (new_items v visited' item.1)
                (fun c p => new_items_in visited' item.1 c p)) as Hit.
  pose proof (new_items_length visited' item.1) as Hl.
  enough (S (potential visited' (new_items v visited' item.1))
          <= cost (unvisited visited'))%nat by lia.
  destruct (unvisited visited') as [|n] eqn:Hu; simpl in *.
  - destruct (new_items v visited' item.1) as [|[c p] items] eqn:Hi; simpl; [lia|].
    destruct (new_items_in visited' item.1 c p) as [Hn Hc]; [rewrite Hi; left|].
    pose proof (unvisited_pred visited' c Hn Hc). lia.
  - etrans; [exact Hit|]. apply le_n_S, Nat.mul_le_mono_r, Hl.
Qed.

Lemma plot_queue_total fuel queue visited st :
  (potential visited queue <= fuel)%nat ->
  is_Some (plot_queue deref v ti fuel seq queue visited st).
Proof.
  revert queue visited st; induction fuel as [|fuel IH];
    intros [|item queue] visited st Hf; cbn [plot_queue]; [eauto| |eauto|].
  - pose proof (potential_step visited item queue) as Hp. cbv zeta in Hp. lia.
  - apply IH. pose proof (potential_step visited item queue) as Hp. cbv zeta in Hp. lia.
Qed.
End termination.

Lemma plot_queue_mono deref v ti seq fuel fuel' queue visited st st' :
  (fuel <= fuel')%nat -> plot_queue deref v ti fuel seq queue visited st = Some st' ->
  plot_queue deref v ti fuel' seq queue visited st = Some st'.
Proof.
  revert fuel' queue visited st; induction fuel as [|fuel IH];
    intros [|fuel'] [|item queue] visited st Hle; cbn [plot_queue]; try done; try lia.
  apply IH. lia.
Qed.

Lemma children_finite (m : gmap Z (list Z)) :
  exists (U : gset Z) D, forall id l,
    m !! id = Some l -> (forall c, c ∈ l -> c ∈ U) /\ (length l <= D)%nat.
Proof.
  induction m as [|k x m Hk (U & D & IH)] using map_ind.
  - exists ∅, O. intros id l. by rewrite lookup_empty.
  - exists (list_to_set x ∪ U), (length x + D)%nat. intros id l. rewrite lookup_insert.
    case_decide; intros Hl; simplify_eq.
    + split; [|lia]. intros c Hc. apply elem_of_union_l. by apply elem_of_list_to_set.
    + destruct (IH id l Hl) as [Hc Hlen]. split; [|lia]. intros c Hc'.
      apply elem_of_union_r. auto.
Qed.

Lemma plot_trace_total deref s ti :
  exists fuel st, forall fuel', (fuel <= fuel')%nat ->
    plot_trace deref (view s) ti fuel' = Some st.
Proof.
  destruct (children_finite (a_children (abs s))) as (U & D & HUD).
  unfold plot_trace. destruct (trace_packets ti) as [track st0].
  set (q := [(ti_coroutine_id ti, 0)]). set (st := plot_gc (view s) ti (wrapu 32 track) st0).
  destruct (plot_queue_total deref (view s) ti TRUSTED_SEQUENCE_ID U D HUD
              (potential U D ∅ q) q ∅ st) as [r Hr]; [done|].
  exists (potential U D ∅ q), r. intros fuel' Hf. by eapply plot_queue_mono.
Qed.

(** C32: termination.  Whatever the children recorded in the storage, cycles
    and shared children included, the breadth-first loop of [write_perfetto]
    ends, and it writes one file: with enough fuel the result is a file at
    the given path, and more fuel does not change it. *)
Theorem write_perfetto_terminates deref s path ti :
  storage_wf s ->
  exists fuel t, forall fuel', (fuel <= fuel')%nat ->
    run (write_perfetto deref fuel' path ti) s = Val (Some (path, t)) s.
Proof.
  intros Hwf. destruct (plot_trace_total deref s ti) as (fuel & st & Hst).
  exists fuel, (trace st). intros fuel' Hf. rewrite write_perfetto_eq by done.
  by rewrite (Hst _ Hf).
Qed.

(** A storage in which coroutine 1 is its own child. *)
Definition demo_cycle_ops : list storage_op :=
  [OpCreateInfo 1; OpCreateChildren 1; OpAddChild 1 1].
Definition demo_cycle : TraceStorage :=
  default make_storage (replay (CK:=tick_clock) demo_cycle_ops make_storage).

Lemma demo_cycle_wf : storage_wf demo_cycle.
Proof.
  apply (replay_wf (CK:=tick_clock) demo_cycle_ops make_storage); [vm_compute; reflexivity|apply make_storage_wf].
Qed.

Lemma write_perfetto_terminates_witness :
  exists fuel t, forall fuel', (fuel <= fuel')%nat ->
    run (write_perfetto (fun _ => EmptyString) fuel' "t"
           (MkTraceInfo 1 1 5)) demo_cycle
    = Val (Some ("t", t)) demo_cycle.
Proof. apply write_perfetto_terminates, demo_cycle_wf. Defined.
