(* ===== verification/PlotReader.v ===== *)
(** * The plotted trace as its reader sees it

    An executable check of the conventions a Perfetto reader relies on, and
    the proof that every trace [write_perfetto] produces passes it. *)

From S2P Require Import Prelude ConcurrentList ConcurrentMap TraceTime TraceModel TraceStorage.
From S2P Require Import StorageSafety StorageSpec Perfetto SuspensionPlot PlotSpec.
From Stdlib Require Import ZArith Lia.
From stdpp Require Import base gmap list strings numbers pretty.
Local Open Scope Z_scope.
Local Open Scope kt_scope.

(** ** The reader *)

(** The tracks declared so far and the tracks with an open slice. *)
Record reader := Reader { declared : gset Z; opened : gset Z }.

(** Every packet belongs to sequence 1.  A descriptor declares a new track.  An
    event has a time and lies on a declared track; a slice begins on a track
    without an open slice and ends on a track that has one. *)
Definition read_packet (p : TracePacket) (r : reader) : option reader :=
  guard (trusted_packet_sequence_id p = Some 1);;
  match data p with
  | Data_track_descriptor d =>
      u ← td_uuid d;
      guard (u ∉ declared r);;
      Some (Reader ({[u]} ∪ declared r) (opened r))
  | Data_track_event e =>
      u ← te_track_uuid e;
      t ← timestamp p;
      guard (u ∈ declared r);;
      match te_type e with
      | Some TYPE_SLICE_BEGIN =>
          guard (u ∉ opened r);; Some (Reader (declared r) ({[u]} ∪ opened r))
      | Some TYPE_SLICE_END =>
          guard (u ∈ opened r);; Some (Reader (declared r) (opened r ∖ {[u]}))
      | Some TYPE_INSTANT => Some r
      | _ => None
      end
  | _ => None
  end.

Definition read_packets (ps : list TracePacket) : option reader :=
  foldl (fun r p => r ≫= read_packet p) (Some (Reader ∅ ∅)) ps.

Definition well_formed_trace (t : Trace) : bool :=
  match read_packets (packet t) with
  | Some r => bool_decide (opened r = ∅)
  | None => false
  end.

(** ** The invariant of the plot *)

(** The reader accepts the packets so far, no slice is open, and the tracks
    declared are those up to the counter; unless there are more packets than a
    [uint64_t] can number. *)
Definition good (st : plot) : Prop :=
  let ps := packet (trace st) in
  Z.of_nat (length ps) < 2 ^ 64 ->
  0 <= track_counter st <= Z.of_nat (length ps) /\
  exists ds, read_packets ps = Some (Reader ds ∅) /\
    forall u, u ∈ ds <-> 1 <= u <= track_counter st.

(** A track that has been declared. *)
Definition on_track (track : Z) (st : plot) : Prop :=
  Z.of_nat (length (packet (trace st))) < 2 ^ 64 -> 1 <= track <= track_counter st.

(** The shape of the event packets. *)
Definition event_on (ty : TrackEvent_Type) (track : Z) (p : TracePacket) : Prop :=
  trusted_packet_sequence_id p = Some 1 /\ is_Some (timestamp p) /\
  exists e, data p = Data_track_event e /\ te_track_uuid e = Some track /\ te_type e = Some ty.

Section reader.
Context (deref : strptr -> string) (ti : TraceInfo).

Lemma read_snoc ps p : read_packets (ps ++ [p]) = read_packets ps ≫= read_packet p.
Proof. unfold read_packets. by rewrite foldl_app. Qed.

Lemma read_descriptor track name ds os :
  0 <= track < 2 ^ 64 -> track ∉ ds ->
  read_packet (descriptor_packet 1 track name new_packet) (Reader ds os)
  = Some (Reader ({[track]} ∪ ds) os).
Proof.
  intros Ht Hn. unfold descriptor_packet, then_, read_packet; simpl.
  rewrite (wrapu_small 64 track) by (unfold in_u; lia).
  by rewrite option_guard_True by done.
Qed.

Lemma read_event ty track p ds os :
  event_on ty track p -> track ∈ ds ->
  read_packet p (Reader ds os) =
    match ty with
    | TYPE_SLICE_BEGIN => guard (track ∉ os);; Some (Reader ds ({[track]} ∪ os))
    | TYPE_SLICE_END => guard (track ∈ os);; Some (Reader ds (os ∖ {[track]}))
    | TYPE_INSTANT => Some (Reader ds os)
    | _ => None
    end.
Proof.
  intros (Hs & [t Ht] & e & Hd & Hu & Hty) Hin. unfold read_packet.
  rewrite Hs, Ht, Hd. simpl. rewrite Hu. simpl. rewrite option_guard_True by done. simpl.
  by rewrite Hty; destruct ty.
Qed.

(** A declared track with a slice that begins and ends on it. *)
Definition slice (name : string) (b e : Z -> TracePacket -> TracePacket) (st : plot) : plot :=
  let '(track, st) := next_track st in
  add (e track) (add (b track) (add (descriptor_packet 1 track name) st)).

Lemma good_slice name b e st :
  (forall t, 0 <= t < 2 ^ 64 -> event_on TYPE_SLICE_BEGIN t (b t new_packet)) ->
  (forall t, 0 <= t < 2 ^ 64 -> event_on TYPE_SLICE_END t (e t new_packet)) ->
  good st -> good (slice name b e st).
Proof.
  intros Hb He Hg. unfold good, slice, next_track, add, add_packet; simpl.
  rewrite !length_app; simpl. intros Hlen.
  destruct Hg as (Hc & ds & Hr & Hds); [lia|].
  rewrite (wrapu_small 64) by (unfold in_u; lia).
  set (t := track_counter st + 1) in *. split; [lia|]. exists ({[t]} ∪ ds).
  assert (Ht : 0 <= t < 2 ^ 64) by lia.
  rewrite !read_snoc, Hr. simpl. rewrite read_descriptor; [|done|rewrite Hds; lia]. simpl.
  rewrite (read_event TYPE_SLICE_BEGIN t) by (auto; set_solver).
  rewrite option_guard_True by set_solver. simpl.
  rewrite (read_event TYPE_SLICE_END t) by (auto; set_solver).
  rewrite option_guard_True by set_solver. simpl. split.
  - do 2 f_equal. apply set_eq. set_solver.
  - intros u. rewrite elem_of_union, elem_of_singleton, Hds. lia.
Qed.

Lemma good_descriptor name st :
  good st ->
  let '(track, st') := next_track st in
  let st'' := add (descriptor_packet 1 track name) st' in good st'' /\ on_track track st''.
Proof.
  intros Hg. unfold next_track, good, on_track, add, add_packet; simpl.
  rewrite length_app; simpl. split; intros Hlen; destruct Hg as (Hc & ds & Hr & Hds); try lia;
    rewrite (wrapu_small 64) by (unfold in_u; lia).
  - split; [lia|]. exists ({[track_counter st + 1]} ∪ ds).
    rewrite read_snoc, Hr. simpl. rewrite read_descriptor; [|lia|rewrite Hds; lia].
    split; [done|]. intros u. rewrite elem_of_union, elem_of_singleton, Hds. lia.
  - lia.
Qed.

Lemma good_instant track p st :
  (0 <= track < 2 ^ 64 -> event_on TYPE_INSTANT track (p new_packet)) ->
  good st -> on_track track st -> good (add p st) /\ on_track track (add p st).
Proof.
  intros Hp Hg Ht. unfold good, on_track, add, add_packet in *; simpl in *.
  rewrite length_app; simpl. split; intros Hlen; [|apply Ht; lia].
  destruct Hg as (Hc & ds & Hr & Hds); [lia|]. split; [lia|]. exists ds. rewrite read_snoc, Hr. simpl.
  rewrite (read_event TYPE_INSTANT track); [done|apply Hp; lia|]. rewrite Hds. apply Ht. lia.
Qed.

(** An event built by the accessors has the type and the track they set. *)
Ltac event_shape :=
  intros; unfold then_; split; [done|]; split; [by eexists|]; simpl;
  eexists; split; [done|]; simpl; rewrite wrapu_small by (unfold in_u; lia); done.

Lemma good_suspension i name st : good st -> good (add_suspension deref i name 1 (ti_end ti) st).
Proof.
  apply (good_slice name (fun t => _ >=> mutable_track_event (_ >=> _ >=> te_set_track_uuid t)
                                   >=> set_trusted_packet_sequence_id 1)
           (fun t => mutable_track_event (_ >=> te_set_track_uuid t) >=> _ >=> _ >=> _)).
  - event_shape.
  - intros t Ht. unfold then_. destruct (negb _); event_shape.
Qed.

Lemma good_gc st e : good st -> good (add_gc_event 1 st e).
Proof.
  apply (good_slice "GC" (fun t => _ >=> mutable_track_event (_ >=> _ >=> te_set_track_uuid t)
                                   >=> set_trusted_packet_sequence_id 1)
           (fun t => _ >=> mutable_track_event (_ >=> te_set_track_uuid t) >=> _)); event_shape.
Qed.

(** Annotations leave the type and the track of an event alone. *)
Definition keeps (f : TrackEvent -> TrackEvent) : Prop :=
  forall e, te_type (f e) = te_type e /\ te_track_uuid (f e) = te_track_uuid e.

Lemma keeps_then f g : keeps f -> keeps g -> keeps (f >=> g).
Proof.
  intros Hf Hg e. unfold then_. destruct (Hf e) as [<- <-]. apply Hg.
Qed.

Lemma keeps_annotate name n : keeps (annotate name n).
Proof. done. Qed.

Lemma keeps_switches n name : keeps (switches n name).
Proof. unfold switches. by destruct (n =? 0). Qed.

Lemma good_coroutine name id parent start finish f st :
  keeps f -> good st -> good (coroutine_packets name id parent 1 start finish f st).
Proof.
  intros Hf.
  apply (good_slice name
    (fun t => _ >=> mutable_track_event (_ >=> _ >=> te_set_track_uuid t >=> _) >=> _ >=> _)
    (fun t => _ >=> mutable_track_event (_ >=> te_set_track_uuid t) >=> _)); [|event_shape].
  intros t Ht. unfold then_. split; [done|]. split; [by eexists|]. simpl.
  eexists; split; [done|]. edestruct Hf as [-> ->].
  destruct (parent =? 0); simpl; rewrite wrapu_small by (unfold in_u; lia); done.
Qed.

Lemma good_sample track st r :
  good st /\ on_track track st ->
  good (add_sample deref ti 1 track st r) /\ on_track track (add_sample deref ti 1 track st r).
Proof.
  intros [Hg Ht]. unfold add_sample. destruct (stack_trace r); [done|].
  apply good_instant; [event_shape|done..].
Qed.

Lemma good_foldl {A} (P : plot -> Prop) (f : plot -> A -> plot) l st :
  (forall st a, P st -> P (f st a)) -> P st -> P (foldl f st l).
Proof. intros Hf. revert st. induction l as [|a l IH]; simpl; auto. Qed.

Lemma good_item v item st : good st -> good (plot_item deref v ti 1 item st).
Proof.
  intros Hg. unfold plot_item. destruct (v_info v item.1) as [i|]; [|done].
  unfold suspension_packets. apply good_foldl; [intros; by apply good_suspension|].
  unfold sample_packets.
  assert (Hi : good (info_packets ti 1 item i st)).
  { unfold info_packets. destruct item as [id parent]. apply good_coroutine; [|done].
    eauto 10 using keeps_then, keeps_annotate, keeps_switches. }
  apply (good_descriptor "Samples") in Hi. destruct (next_track _) as [track st'].
  apply (good_foldl (fun st => good st /\ on_track track st)); [|done].
  intros st1 r. apply good_sample.
Qed.

Lemma good_queue v fuel queue visited st st' :
  good st -> plot_queue deref v ti fuel 1 queue visited st = Some st' -> good st'.
Proof.
  revert queue visited st; induction fuel as [|fuel IH];
    intros [|item queue] visited st Hg; cbn [plot_queue]; intros H; simplify_eq; try done.
  eapply IH; [|exact H]. by apply good_item.
Qed.

Lemma good_start : good (trace_packets ti).2.
Proof.
  apply (good_slice "Trace"
    (fun t => _ >=> mutable_track_event (_ >=> _ >=> te_set_track_uuid t >=> _) >=> _)
    (fun t => _ >=> mutable_track_event (_ >=> te_set_track_uuid t) >=> _)); [event_shape..|].
  unfold good; simpl. intros _. split; [lia|]. exists ∅. split; [done|]. set_solver by lia.
Qed.

Lemma trace_track : trace_packets ti = (1, (trace_packets ti).2).
Proof. reflexivity. Qed.

Lemma good_plot v fuel st : plot_trace deref v ti fuel = Some st -> good st.
Proof.
  unfold plot_trace. rewrite trace_track. change (wrapu 32 1) with 1. apply good_queue.
  unfold plot_gc. apply good_foldl; [|apply good_start]. intros st1 e Hg. destruct (gc_in_window _ _ e); [|done].
  by apply good_gc.
Qed.
End reader.

(** C19: every file [write_perfetto] writes is one its reader accepts: all
    packets carry sequence identifier 1 (those of the collections too), each
    track is declared exactly once and before any event lies on it, each
    event has a time, and each slice that begins on a track ends on it before
    the next one begins, so that none is left open. *)
Theorem perfetto_well_formed deref s fuel path ti t s' :
  storage_wf s -> Z.of_nat (length (packet t)) < 2 ^ 64 ->
  run (write_perfetto deref fuel path ti) s = Val (Some (path, t)) s' ->
  well_formed_trace t = true.
Proof.
  intros Hwf Hlen. rewrite write_perfetto_eq by done.
  destruct (plot_trace deref (view s) ti fuel) as [st|] eqn:Hp; simpl; intros [= <- _].
  destruct (good_plot _ _ _ _ _ Hp Hlen) as (_ & ds & Hr & _).
  unfold well_formed_trace. rewrite Hr. simpl. by apply bool_decide_eq_true.
Qed.
