(* ===== verification/PlotReach.v ===== *)
(** * Which coroutines are on the plot *)

From S2P Require Import Prelude ConcurrentList ConcurrentMap TraceTime TraceModel TraceStorage.
From S2P Require Import StorageSafety StorageSpec Perfetto SuspensionPlot PlotSpec PlotReader.
From Stdlib Require Import ZArith Lia.
From stdpp Require Import base gmap list strings numbers pretty.
Local Open Scope Z_scope.
Local Open Scope kt_scope.

(** A coroutine whose info is still stored leads to its recorded children. *)
Definition edge (v : storage_view) (a b : Z) : Prop :=
  is_Some (v_info v a) /\ b ∈ default [] (v_children v a).

(** The coroutine a slice belongs to is the last of its flow identifiers. *)
Definition packet_coroutine (p : TracePacket) : option Z :=
  packet_event p ≫= (fun e => list.last (te_flow_ids e)).

Definition plotted (st : plot) : list Z := omap packet_coroutine (packet (trace st)).

Section reach.
Context (deref : strptr -> string) (v : storage_view) (ti : TraceInfo).

Lemma plotted_add p st :
  plotted (add p st) = plotted st ++ option_list (packet_coroutine (p new_packet)).
Proof.
  unfold plotted, add, add_packet; simpl. rewrite omap_app, omap_cons.
  by destruct (packet_coroutine (p new_packet)).
Qed.

Lemma plotted_next st : plotted (next_track st).2 = plotted st.
Proof. done. Qed.

(** Updates that leave the flow identifiers alone. *)
Definition keeps_flow (f : TrackEvent -> TrackEvent) : Prop :=
  forall e, te_flow_ids (f e) = te_flow_ids e.

Lemma keeps_flow_then f g : keeps_flow f -> keeps_flow g -> keeps_flow (f >=> g).
Proof. intros Hf Hg e. unfold then_. by rewrite Hg. Qed.

Lemma keeps_flow_annotate name n : keeps_flow (annotate name n).
Proof. done. Qed.

Lemma keeps_flow_switches n name : keeps_flow (switches n name).
Proof. unfold switches. by destruct (n =? 0). Qed.

Lemma plotted_suspension i name st :
  plotted (add_suspension deref i name 1 (ti_end ti) st) = plotted st.
Proof.
  unfold add_suspension. destruct (next_track st) as [t st'] eqn:Hn.
  rewrite !plotted_add. unfold then_. destruct (negb _); simpl; rewrite !app_nil_r;
    by rewrite <- (plotted_next st), Hn.
Qed.

Lemma plotted_gc seq st e : plotted (add_gc_event seq st e) = plotted st.
Proof.
  unfold add_gc_event. destruct (next_track st) as [t st'] eqn:Hn.
  rewrite !plotted_add. simpl. rewrite !app_nil_r. by rewrite <- (plotted_next st), Hn.
Qed.

Lemma plotted_sample track st r : plotted (add_sample deref ti 1 track st r) = plotted st.
Proof.
  unfold add_sample. destruct (stack_trace r); [done|]. rewrite plotted_add. simpl.
  by rewrite app_nil_r.
Qed.

Lemma plotted_foldl {A} (f : plot -> A -> plot) l st :
  (forall st a, plotted (f st a) = plotted st) -> plotted (foldl f st l) = plotted st.
Proof. intros Hf. revert st. induction l as [|a l IH]; simpl; [done|]. intros. by rewrite IH. Qed.

Lemma plotted_coroutine name id parent start finish f st :
  keeps_flow f ->
  plotted (coroutine_packets name id parent 1 start finish f st) = plotted st ++ [u64 id].
Proof.
  intros Hf. unfold coroutine_packets. destruct (next_track st) as [t st'] eqn:Hn.
  rewrite !plotted_add. unfold packet_coroutine, then_; simpl. rewrite Hf.
  rewrite <- (plotted_next st), Hn; simpl. rewrite !app_nil_r.
  destruct (parent =? 0); simpl; done.
Qed.

Lemma plotted_samples id st : plotted (sample_packets deref v ti 1 id st) = plotted st.
Proof.
  unfold sample_packets. destruct (next_track st) as [track st'] eqn:Hn.
  rewrite plotted_foldl by (intros; apply plotted_sample).
  rewrite plotted_add. simpl. rewrite app_nil_r. by rewrite <- (plotted_next st), Hn.
Qed.

Lemma plotted_item item st :
  plotted (plot_item deref v ti 1 item st)
  = plotted st ++ match v_info v item.1 with Some _ => [u64 item.1] | None => [] end.
Proof.
  unfold plot_item. destruct (v_info v item.1) as [i|]; [|by rewrite app_nil_r].
  unfold suspension_packets. rewrite plotted_foldl by (intros; apply plotted_suspension).
  rewrite plotted_samples. unfold info_packets. destruct item as [id parent]. simpl.
  apply plotted_coroutine. eauto 10 using keeps_flow_then, keeps_flow_annotate, keeps_flow_switches.
Qed.

(** ** The loop visits the reachable coroutines *)

Record explored (root : Z) (queue : list queue_item) (visited : gset Z) : Prop := {
  ex_root : root ∈ visited \/ root ∈ queue.*1;
  ex_reach : forall a, a ∈ visited \/ a ∈ queue.*1 -> rtc (edge v) root a;
  ex_closed : forall a b, a ∈ visited -> edge v a b -> b ∈ visited \/ b ∈ queue.*1;
}.

Lemma new_items_children visited a b :
  b ∈ (new_items v visited a).*1 <-> edge v a b /\ b ∉ visited.
Proof.
  unfold new_items, edge. destruct (v_info v a) as [i|]; simpl.
  - rewrite <- list_fmap_compose. simpl. rewrite list_fmap_id.
    rewrite list_elem_of_filter. naive_solver eauto.
  - split; [set_solver|]. intros [[[? ?] ?] ?]. done.
Qed.

Lemma explored_step root item queue visited :
  explored root (item :: queue) visited ->
  let visited' := {[item.1]} ∪ visited in
  explored root (queue ++ new_items v visited' item.1) visited'.
Proof.
  intros [Hroot Hreach Hclosed] visited'.
  assert (Hitem : rtc (edge v) root item.1) by (apply Hreach; right; left).
  assert (Hold : forall a, a ∈ visited \/ a ∈ (item :: queue).*1 ->
                   a ∈ visited' \/ a ∈ (queue ++ new_items v visited' item.1).*1).
  { intros a. rewrite fmap_app, elem_of_app. cbn [fmap list_fmap]. rewrite elem_of_cons.
    unfold visited'. set_solver. }
  split.
  - by apply Hold.
  - intros a. rewrite fmap_app, elem_of_app, new_items_children.
    intros [Ha|[Ha|[He _]]].
    + unfold visited' in Ha. apply elem_of_union in Ha as [->%elem_of_singleton|Ha]; [done|]. auto.
    + apply Hreach. right. by right.
    + eapply rtc_r; [exact Hitem|exact He].
  - intros a b Ha He. destruct (decide (b ∈ visited')) as [Hb|Hb]; [by left|].
    unfold visited' in Ha. apply elem_of_union in Ha as [->%elem_of_singleton|Ha].
    + right. rewrite fmap_app, elem_of_app, new_items_children. auto.
    + apply Hold. eauto.
Qed.

Lemma explored_all root visited :
  explored root [] visited -> forall a, a ∈ visited <-> rtc (edge v) root a.
Proof.
  intros [Hroot Hreach Hclosed] a. split; [auto|]. revert a.
  apply (rtc_ind_r (fun a => a ∈ visited) root); [set_solver|].
  intros a b _ Hab IH. destruct (Hclosed a b IH Hab); set_solver.
Qed.

(** What holds of the plot at the end: a property of the visited coroutines and
    the plot that every item keeps, for the set of the reachable ones. *)
Lemma plot_queue_visits (P : gset Z -> plot -> Prop) root fuel st st' :
  (forall item visited st, P visited st ->
     P ({[item.1]} ∪ visited) (plot_item deref v ti 1 item st)) ->
  P ∅ st -> plot_queue deref v ti fuel 1 [(root, 0)] ∅ st = Some st' ->
  exists visited, P visited st' /\ forall a, a ∈ visited <-> rtc (edge v) root a.
Proof.
  intros Hstep HP.
  assert (He : explored root [(root, 0)] ∅).
  { split; [right; by left| |set_solver].
    intros a [Ha|Ha]; [set_solver|]. apply list_elem_of_singleton in Ha as ->. done. }
  revert HP He. generalize (∅ : gset Z), [(root, 0)]. intros visited queue. revert queue visited st.
  induction fuel as [|fuel IH]; intros [|item queue] visited st HP He; cbn [plot_queue];
    intros H; simplify_eq; eauto using explored_all.
  eapply IH; [|by apply explored_step|exact H]. by apply Hstep.
Qed.

Lemma plotted_start : plotted (trace_packets ti).2 = [].
Proof. reflexivity. Qed.

Lemma plot_trace_reach fuel st u :
  plot_trace deref v ti fuel = Some st ->
  u ∈ plotted st <->
  exists a, rtc (edge v) (ti_coroutine_id ti) a /\ is_Some (v_info v a) /\ u = u64 a.
Proof.
  unfold plot_trace. rewrite trace_track. intros Hq.
  apply (plot_queue_visits (fun visited st => forall u, u ∈ plotted st <->
           exists a, a ∈ visited /\ is_Some (v_info v a) /\ u = u64 a)) in Hq
    as (visited & Hpl & Hv).
  - rewrite Hpl. by setoid_rewrite Hv.
  - intros item visited st' Hpl u'. rewrite plotted_item, elem_of_app, Hpl. split.
    + intros [(a & Ha & Hi & ->)|Hu]; [exists a; set_solver|].
      destruct (v_info v item.1) as [i|] eqn:Hi; [|set_solver].
      apply list_elem_of_singleton in Hu as ->. exists item.1. rewrite Hi. set_solver.
    + intros (a & Ha & Hi & ->).
      apply elem_of_union in Ha as [->%elem_of_singleton|Ha]; [|left; eauto].
      right. destruct Hi as [i Hi]. rewrite Hi. by left.
  - intros u'. unfold plot_gc. rewrite plotted_foldl.
    + rewrite plotted_start. set_solver.
    + intros st1 e. destruct (gc_in_window _ _ e); [apply plotted_gc|done].
Qed.
End reach.

(** C26: the plot shows exactly the coroutines reachable from the traced one,
    over the recorded children of coroutines whose info is still stored: each
    of them that has an info has a slice, identified by its flow, and no other
    coroutine has one. *)
Theorem plot_shows_reachable deref s fuel path ti t s' u :
  storage_wf s -> run (write_perfetto deref fuel path ti) s = Val (Some (path, t)) s' ->
  u ∈ omap packet_coroutine (packet t) <->
  exists id, rtc (edge (view s)) (ti_coroutine_id ti) id /\
    is_Some (v_info (view s) id) /\ u = u64 id.
Proof.
  intros Hwf. rewrite write_perfetto_eq by done.
  destruct (plot_trace deref (view s) ti fuel) as [st|] eqn:Hp; simpl; intros [= <- _].
  by eapply plot_trace_reach.
Qed.

(** ** Example: coroutine 1 with one sample, a child 2 with an open suspension,
    and one collection *)

Section example.
Local Existing Instance tick_clock.

Definition demo_ops : list storage_op :=
  [OpCreateInfo 1; OpCreateChildren 1; OpGcStart; OpGcFinish; OpCreateInfo 2;
   OpCreateChildren 2; OpAddChild 2 1;
   OpAddProcessed 1 (MkProcessed [MkFrame (MethodName 7) (ClassName 3)] EmptyName 2500000);
   OpAddSuspension (MkSuspension 2 6000000 0 [MkFrame (MethodName 8) (ClassName 3)])].

Definition demo_traced : TraceStorage := default make_storage (replay demo_ops make_storage).

Definition demo_info : TraceInfo := MkTraceInfo 1 1 9000001.

Definition demo_deref (p : strptr) : string :=
  match p with MethodName _ => "method" | ClassName _ => "Class" | _ => "unknown" end.

Definition demo_trace : Trace :=
  match run (write_perfetto demo_deref 5 "trace.perfetto" demo_info) demo_traced with
  | Val (Some (_, t)) _ => t
  | _ => new_trace
  end.

Lemma demo_traced_wf : storage_wf demo_traced.
Proof.
  apply (replay_wf demo_ops make_storage); [vm_compute; reflexivity|apply make_storage_wf].
Qed.

Lemma demo_trace_written :
  run (write_perfetto demo_deref 5 "trace.perfetto" demo_info) demo_traced
  = Val (Some ("trace.perfetto", demo_trace)) demo_traced.
Proof. vm_compute. reflexivity. Qed.
End example.

Lemma write_perfetto_plots_witness :
  storage_wf demo_traced /\
  run (write_perfetto demo_deref 5 "trace.perfetto" demo_info) demo_traced
  = Val (option_map (fun st => ("trace.perfetto", trace st))
           (plot_trace demo_deref (view demo_traced) demo_info 5)) demo_traced.
Proof. split; [exact demo_traced_wf|apply write_perfetto_plots, demo_traced_wf]. Defined.

Lemma perfetto_well_formed_witness :
  length (packet demo_trace) = 18%nat /\ well_formed_trace demo_trace = true.
Proof.
  split; [vm_compute; reflexivity|].
  eapply perfetto_well_formed; [exact demo_traced_wf| |exact demo_trace_written].
  vm_compute. reflexivity.
Defined.

Lemma plot_shows_reachable_witness :
  omap packet_coroutine (packet demo_trace) = [1; 2] /\
  (2 ∈ omap packet_coroutine (packet demo_trace) <->
   exists id, rtc (edge (view demo_traced)) 1 id /\
     is_Some (v_info (view demo_traced) id) /\ 2 = wrapu 64 id).
Proof.
  split; [vm_compute; reflexivity|].
  eapply (plot_shows_reachable _ _ _ _ demo_info);
    [exact demo_traced_wf|exact demo_trace_written].
Defined.

(** A coroutine's slice is annotated with a switch counter exactly when
    the counter is zero; a non-zero number of context switches is never
    shown. *)
Theorem switches_shown_when_zero s l i f name e :
  cells (info_heap s) !! l = Some i ->
  wp (switches_annotation (Some l) f name) s (fun update s' => s' = s /\
    te_debug_annotations (update e) = te_debug_annotations e ++
      (if bool_decide (f i = 0) then [MkAnnotation (Name name) (Int_value 0)] else [])).
Proof.
  intros Hl. eapply wp_switches; [exact Hl|]. split; [done|]. unfold switches.
  case_bool_decide as Hf; [rewrite Hf; done|].
  rewrite (proj2 (Z.eqb_neq _ _) Hf). by rewrite app_nil_r.
Qed.

Definition demo_first : CoroutineInfo :=
  default (make_coroutine 0 0 0 0 0 0 0 0) (cells (info_heap demo_traced) !! 0%nat).

Lemma demo_first_stored : cells (info_heap demo_traced) !! 0%nat = Some demo_first.
Proof. vm_compute. reflexivity. Qed.

Lemma switches_shown_when_zero_witness :
  wp (switches_annotation (Some 0%nat) voluntary_switches "Voluntary switches") demo_traced
    (fun update s' => s' = demo_traced /\
      te_debug_annotations (update new_event) =
        [] ++ (if bool_decide (voluntary_switches demo_first = 0)
               then [MkAnnotation (Name "Voluntary switches") (Int_value 0)] else [])).
Proof. apply (switches_shown_when_zero demo_traced _ demo_first), demo_first_stored. Defined.
