(* ===== verification/PlotContent.v ===== *)
(** * What is shown on the plot

    A reader that turns the packets of a trace back into what a user sees,
    slices with their two times and instants, each with its name and its
    stack; and the proof that it finds exactly what the storage had recorded:
    the collections in the window of the trace, and the suspensions and the
    samples of the coroutines that are reachable from the traced one. *)

From S2P Require Import Prelude ConcurrentList ConcurrentMap TraceTime TraceModel TraceStorage.
From S2P Require Import StorageSafety StorageSpec Perfetto SuspensionPlot PlotSpec PlotReader.
From S2P Require Import PlotReach.
From Stdlib Require Import ZArith Lia.
From stdpp Require Import base gmap list strings numbers pretty.
Local Open Scope Z_scope.
Local Open Scope kt_scope.

(** ** The reader *)

(** An instant has no end. *)
Record shown := Shown {
  sh_name : string;
  sh_begin : Z;
  sh_end : option Z;
  sh_frames : list string;
}.

Definition event_name (e : TrackEvent) : string :=
  match te_name_field e with Name n => n | _ => EmptyString end.
Definition event_frames (e : TrackEvent) : list string :=
  match te_callstack e with CallstackField c => omap function_name (frames c) | _ => [] end.

(** The open slice of each track, and what has been shown so far. *)
Definition show_packet (r : gmap Z (string * Z) * list shown) (p : TracePacket) :
    gmap Z (string * Z) * list shown :=
  match packet_event p, timestamp p with
  | Some e, Some t =>
      match te_type e, te_track_uuid e with
      | Some TYPE_SLICE_BEGIN, Some u => (<[u := (event_name e, t)]> r.1, r.2)
      | Some TYPE_SLICE_END, Some u =>
          match r.1 !! u with
          | Some (n, b) => (delete u r.1, r.2 ++ [Shown n b (Some t) (event_frames e)])
          | None => r
          end
      | Some TYPE_INSTANT, _ => (r.1, r.2 ++ [Shown (event_name e) t None (event_frames e)])
      | _, _ => r
      end
  | _, _ => r
  end.

Definition shown_on (t : Trace) : list shown := (foldl show_packet (∅, []) (packet t)).2.

(** ** What should be shown *)

Section content.
Context (deref : strptr -> string) (v : storage_view) (ti : TraceInfo).

Definition stack_names (stack : list StackFrame) : list string := frame_method deref <$> stack.

Definition shown_gc (e : GCEvent) : shown :=
  Shown "GC" (u64 (gc_start e)) (Some (u64 (gc_end e))) [].

(** A suspension that is still open is shown up to the end of the trace. *)
Definition shown_suspension (i : SuspensionInfo) : shown :=
  Shown "Suspension" (u64 (si_start i))
    (Some (u64 (if si_end i =? 0 then ti_end ti else si_end i)))
    (stack_names (suspension_stack_trace i)).

Definition in_window (r : ProcessedTraceRecord) : bool :=
  (ti_start ti <=? time r) && (time r <=? ti_end ti).

(** The stack of a sample is shown when the sample lies in the window. *)
Definition shown_sample (r : ProcessedTraceRecord) : shown :=
  Shown "Stack trace" (u64 (time r)) None
    (if in_window r then stack_names (stack_trace r) else []).

Definition has_frames (r : ProcessedTraceRecord) : bool :=
  match stack_trace r with [] => false | _ => true end.

(** ** The reader on the packets of the plot *)

(** The reader has no open slice after the packets of [st], and has seen [xs]. *)
Definition reads_as (st : plot) (xs : list shown) : Prop :=
  foldl show_packet (∅, []) (packet (trace st)) = (∅, xs).

Lemma reads_add st xs p r :
  reads_as st xs -> show_packet (∅, xs) (p new_packet) = (∅, r) -> reads_as (add p st) r.
Proof.
  unfold reads_as, add, add_packet. simpl. intros H Hp. rewrite foldl_app, H. exact Hp.
Qed.

Lemma reads_slice st xs d b e eb tb ee te' u x :
  reads_as st xs -> packet_event (d new_packet) = None ->
  packet_event (b new_packet) = Some eb -> timestamp (b new_packet) = Some tb ->
  te_type eb = Some TYPE_SLICE_BEGIN -> te_track_uuid eb = Some u ->
  packet_event (e new_packet) = Some ee -> timestamp (e new_packet) = Some te' ->
  te_type ee = Some TYPE_SLICE_END -> te_track_uuid ee = Some u ->
  Shown (event_name eb) tb (Some te') (event_frames ee) = x ->
  reads_as (add e (add b (add d st))) (xs ++ [x]).
Proof.
  unfold reads_as, add, add_packet. simpl. intros H Hd Hb Htb Hb1 Hb2 He Hte He1 He2 <-.
  rewrite !foldl_app, H. simpl. unfold show_packet. rewrite Hd, Hb, Htb, Hb1, Hb2. simpl.
  rewrite He, Hte, He1, He2, lookup_insert_eq, delete_insert_eq. done.
Qed.

Lemma frames_add_stack stack c :
  omap function_name (frames (add_stack deref stack c))
  = omap function_name (frames c) ++ stack_names stack.
Proof.
  unfold add_stack, stack_names. revert c. induction stack as [|f stack IH]; intros c; simpl.
  - by rewrite app_nil_r.
  - rewrite IH. unfold add_frames; simpl. rewrite omap_app. simpl. by rewrite <- app_assoc.
Qed.

Lemma reads_suspension st xs i name :
  reads_as st xs ->
  reads_as (add_suspension deref i name 1 (ti_end ti) st) (xs ++ [shown_suspension i]).
Proof.
  intros H. unfold add_suspension, next_track, shown_suspension, tt_eqb.
  destruct (si_end i =? 0); simpl negb; cbv iota;
    (eapply reads_slice; [exact H|reflexivity..|]; f_equal; apply frames_add_stack).
Qed.

Lemma reads_gc st xs e : reads_as st xs -> reads_as (add_gc_event 1 st e) (xs ++ [shown_gc e]).
Proof. intros H. unfold add_gc_event, next_track. eapply reads_slice; [exact H|reflexivity..]. Qed.

Lemma frames_sample (b : bool) stack c :
  omap function_name (frames (foldl (fun c frame =>
    if b then add_frames (set_function_name (frame_method deref frame)) c else c) c stack))
  = omap function_name (frames c) ++ if b then stack_names stack else [].
Proof.
  destruct b; [apply frames_add_stack|]. rewrite app_nil_r. by induction stack.
Qed.

Lemma reads_sample track st xs r :
  reads_as st xs ->
  reads_as (add_sample deref ti 1 track st r)
    (xs ++ if has_frames r then [shown_sample r] else []).
Proof.
  intros H. unfold add_sample, has_frames. destruct (stack_trace r) as [|f fs] eqn:Hr.
  { by rewrite app_nil_r. }
  eapply reads_add; [exact H|]. unfold show_packet, shown_sample. rewrite Hr. simpl.
  repeat f_equal. exact (frames_sample (in_window r) (f :: fs) new_callstack).
Qed.
(** Annotations leave alone what the reader looks at. *)
Definition unseen (f : TrackEvent -> TrackEvent) : Prop :=
  forall e, te_type (f e) = te_type e /\ te_track_uuid (f e) = te_track_uuid e /\
    te_name_field (f e) = te_name_field e.

Lemma unseen_then f g : unseen f -> unseen g -> unseen (f >=> g).
Proof.
  intros Hf Hg e. unfold then_. destruct (Hf e) as (<- & <- & <-). apply Hg.
Qed.

Lemma unseen_annotate name n : unseen (annotate name n).
Proof. done. Qed.

Lemma unseen_switches n name : unseen (switches n name).
Proof. unfold switches. by destruct (n =? 0). Qed.

Lemma reads_coroutine st xs name id parent start finish f :
  unseen f -> reads_as st xs ->
  reads_as (coroutine_packets name id parent 1 start finish f st)
    (xs ++ [Shown name (u64 start) (Some (u64 finish)) []]).
Proof.
  intros Hf H. unfold coroutine_packets, next_track.
  eapply reads_slice; [exact H|reflexivity..| | |reflexivity|reflexivity|reflexivity| |].
  - rewrite (proj1 (Hf _)). by destruct (parent =? 0).
  - by rewrite (proj1 (proj2 (Hf _))); destruct (parent =? 0).
  - done.
  - unfold event_name. rewrite (proj2 (proj2 (Hf _))). by destruct (parent =? 0).
Qed.

Lemma reads_foldl {A} (f : plot -> A -> plot) (g : A -> list shown) l st xs :
  (forall st xs a, reads_as st xs -> reads_as (f st a) (xs ++ g a)) ->
  reads_as st xs -> reads_as (foldl f st l) (xs ++ (l ≫= g)).
Proof.
  intros Hf. revert st xs. induction l as [|a l IH]; intros st xs H; simpl.
  - by rewrite app_nil_r.
  - rewrite app_assoc. by apply IH, Hf.
Qed.

(** The samples and the suspensions of a coroutine. *)
Definition recorded_of (id : Z) : list shown :=
  (default [] (v_samples v id) ≫= (fun r => if has_frames r then [shown_sample r] else []))
  ++ (v_suspensions v id ≫= (fun i => [shown_suspension i])).

Definition coroutine_slice (item : queue_item) (i : CoroutineInfo) : shown :=
  Shown ("coroutine#" +:+ pretty item.1)
    (u64 (if item.2 =? 0 then ti_start ti else ci_start i))
    (Some (u64 (if item.2 =? 0 then ti_end ti else ci_end i))) [].

Lemma reads_item st xs item :
  reads_as st xs ->
  reads_as (plot_item deref v ti 1 item st)
    (xs ++ match v_info v item.1 with
           | Some i => coroutine_slice item i :: recorded_of item.1
           | None => []
           end).
Proof.
  intros H. unfold plot_item. destruct (v_info v item.1) as [i|]; [|by rewrite app_nil_r].
  unfold recorded_of. rewrite cons_middle, !app_assoc.
  unfold suspension_packets. apply reads_foldl; [intros; by apply reads_suspension|].
  unfold sample_packets, next_track. apply reads_foldl; [intros; by apply reads_sample|].
  eapply reads_add; [|reflexivity]. unfold info_packets. destruct item as [id parent].
  apply reads_coroutine; [|done].
  eauto 10 using unseen_then, unseen_annotate, unseen_switches.
Qed.

(** ** Everything the plot shows *)

Definition shown_trace : shown :=
  Shown "Trace" (u64 (ti_start ti)) (Some (u64 (ti_end ti))) [].

Definition gc_shown : list shown :=
  v_gc v ≫= (fun e => if gc_in_window (ti_start ti) (ti_end ti) e then [shown_gc e] else []).

Definition is_coroutine (x : shown) : bool := String.prefix "coroutine#" (sh_name x).

Lemma coroutine_slice_named item i : is_coroutine (coroutine_slice item i) = true.
Proof. unfold is_coroutine. simpl. by destruct (pretty item.1). Qed.

Lemma reads_start : reads_as (plot_gc v ti 1 (trace_packets ti).2) (shown_trace :: gc_shown).
Proof.
  apply (reads_foldl _ _ _ _ [shown_trace]); [|reflexivity].
  intros st xs e H. destruct (gc_in_window _ _ e); [by apply reads_gc|by rewrite app_nil_r].
Qed.

Lemma plot_content fuel st x :
  plot_trace deref v ti fuel = Some st -> is_coroutine x = false ->
  x ∈ shown_on (trace st) <->
  x ∈ shown_trace :: gc_shown \/
  exists id, rtc (edge v) (ti_coroutine_id ti) id /\ is_Some (v_info v id) /\ x ∈ recorded_of id.
Proof.
  unfold plot_trace. rewrite trace_track. change (wrapu 32 1) with 1. intros Hq Hx.
  apply (plot_queue_visits _ _ _ (fun visited st => exists xs, reads_as st xs /\
           (x ∈ xs <-> x ∈ shown_trace :: gc_shown \/
              exists id, id ∈ visited /\ is_Some (v_info v id) /\ x ∈ recorded_of id))) in Hq
    as (visited & (xs & Hxs & Hiff) & Hv).
  - unfold shown_on. rewrite Hxs, Hiff. by setoid_rewrite Hv.
  - intros item visited st' (xs & Hxs & Hiff). eexists. split; [by apply reads_item|].
    rewrite elem_of_app, Hiff. split.
    + intros [[?|(id & ? & ? & ?)]|Hin]; [by left|right; exists id; set_solver|right].
      destruct (v_info v item.1) as [i|] eqn:Hi; [|by apply not_elem_of_nil in Hin].
      apply elem_of_cons in Hin as [->|Hin]; [by rewrite coroutine_slice_named in Hx|].
      exists item.1. rewrite Hi. set_solver.
    + intros [?|(id & Hid & Hi & Hin)]; [by left; left|].
      apply elem_of_union in Hid as [->%elem_of_singleton|Hid]; [|left; right; eauto].
      right. destruct Hi as [i Hi]. rewrite Hi. by right.
  - eexists. split; [apply reads_start|]. split; [by left|].
    intros [?|(id & Hid & _)]; [done|]. by apply not_elem_of_empty in Hid.
Qed.
End content.

(** C10: the file shows what was recorded, and nothing else.  Apart from the
    slices of the coroutines themselves, the reader finds in the file that
    [write_perfetto] writes: the trace between its two times; the collections
    recorded in the window of the trace; and, for every coroutine reachable
    from the traced one whose info is stored, each of its suspensions, with
    its times and its stack, up to the end of the trace when it is still open,
    and each of its samples that has frames, with its time and, in the window,
    its stack. *)
Theorem plot_shows_recorded deref s fuel path ti t s' x :
  storage_wf s -> run (write_perfetto deref fuel path ti) s = Val (Some (path, t)) s' ->
  is_coroutine x = false ->
  x ∈ shown_on t <->
  x = shown_trace ti \/ x ∈ gc_shown (view s) ti \/
  exists id, rtc (edge (view s)) (ti_coroutine_id ti) id /\ is_Some (v_info (view s) id) /\
    x ∈ recorded_of deref (view s) ti id.
Proof.
  intros Hwf. rewrite write_perfetto_eq by done.
  destruct (plot_trace deref (view s) ti fuel) as [st|] eqn:Hp; simpl; intros [= <- _] Hx.
  rewrite (plot_content _ _ _ _ _ _ Hp Hx), elem_of_cons. tauto.
Qed.

(** Coroutine 1 has one sample; its child 2 has a suspension that is still open
    and is shown up to the end of the trace. *)
Lemma plot_shows_recorded_witness :
  let x := Shown "Suspension" 6000000 (Some 9000001) ["Class:method"] in
  filter (fun x => is_coroutine x = false) (shown_on demo_trace)
    = [Shown "Trace" 1 (Some 9000001) []; Shown "GC" 2000001 (Some 3000001) [];
       Shown "Stack trace" 2500000 None ["Class:method"]; x] /\
  (x ∈ shown_on demo_trace <->
   x = shown_trace demo_info \/ x ∈ gc_shown (view demo_traced) demo_info \/
   exists id, rtc (edge (view demo_traced)) 1 id /\ is_Some (v_info (view demo_traced) id) /\
     x ∈ recorded_of demo_deref (view demo_traced) demo_info id).
Proof.
  split; [vm_compute; reflexivity|].
  eapply (plot_shows_recorded _ _ _ _ demo_info);
    [exact demo_traced_wf|exact demo_trace_written|reflexivity].
Defined.
