(* ===== verification/Jvm.v ===== *)
(** * The JVM's threads (vm/jvm.hpp, vm/jvm.cpp)

    The registry of the threads the JVM has started: [JVM::threads_], a
    [ConcurrentList] of shared [ThreadInfo] objects, which is only ever
    appended to.  The identity of the calling thread, the bounds of its stack
    and the answer of JVMTI's [GetThreadInfo] are arguments.  The rest of [JVM]
    is in [VmStructs] and [CodeCache]. *)

From S2P Require Import Prelude ConcurrentList.
From Stdlib Require Import ZArith Lia.
From stdpp Require Import base gmap list strings numbers.
Local Open Scope Z_scope.
Local Open Scope kt_scope.

Record ThreadInfo := MkThread {
  th_name : string;
  th_id : Z;
  current_traces : Z;
  th_stack_lo : Z;
  th_stack_hi : Z;
}.

(** The constructor. *)
Definition make_thread (name : string) (id lo hi : Z) : ThreadInfo := MkThread name id 0 lo hi.

Definition add_traces (n : Z) (t : ThreadInfo) : ThreadInfo :=
  MkThread (th_name t) (th_id t) (s32 (current_traces t + n)) (th_stack_lo t) (th_stack_hi t).

Record JVM := MkJVM { threads_ : clist nat; thread_heap : heap ThreadInfo }.

Definition threads_L : Lens JVM (clist nat) :=
  field_lens threads_ (fun x s => MkJVM x (thread_heap s)).
Definition thread_heap_L : Lens JVM (heap ThreadInfo) :=
  field_lens thread_heap (fun x s => MkJVM (threads_ s) x).

Definition make_jvm : JVM := MkJVM CL.make heap_empty.

(** The Linux branch takes the lowest address and the size of the stack; the
    Apple one the highest address and the size. *)
Definition stack_bounds_linux (stack_addr stack_size : Z) : Z * Z :=
  (stack_addr, u64 (stack_addr + stack_size)).
Definition stack_bounds_apple (stack_high stack_size : Z) : Z * Z :=
  (u64 (stack_high - stack_size), stack_high).

(** [info] is the name [GetThreadInfo] fills in, [None] when it fails. *)
Definition addCurrentThread (currentThread : Z) (bounds : Z * Z) (info : option string) :
    prog JVM unit :=
  match info with
  | None => mret tt
  | Some name =>
      l ← zoom thread_heap_L (halloc (make_thread name currentThread bounds.1 bounds.2));
      zoom threads_L (CL.push_back l)
  end.

Definition getThreads : prog JVM (list nat) := zoom threads_L CL.snapshot.

(** The search with [pthread_equal(threadInfo->id, thread)]; the result is
    [None] when it comes to a pointer that designates nothing. *)
Fixpoint search_thread (s : JVM) (thread : Z) (ls : list nat) : option ptr :=
  match ls with
  | [] => Some None
  | l :: ls =>
      t ← cells (thread_heap s) !! l;
      if th_id t =? thread then Some (Some l) else search_thread s thread ls
  end.

Definition findThread (thread : Z) : prog JVM ptr :=
  act (fun s =>
    match search_thread s thread (CL.list_ (threads_ s)) with
    | Some p => Val p s
    | None => Undef "dangling pointer"
    end).

(** ** The registry *)

Record jvm_wf (s : JVM) : Prop := {
  wf_threads_heap : heap_wf (thread_heap s);
  wf_threads : Forall (valid (thread_heap s)) (CL.list_ (threads_ s));
}.

Lemma make_jvm_wf : jvm_wf make_jvm.
Proof. split; [apply heap_wf_empty|constructor]. Qed.

Definition is_thread (s : JVM) (thread : Z) (l : nat) : bool :=
  match cells (thread_heap s) !! l with Some t => th_id t =? thread | None => false end.

Lemma search_thread_find s thread ls :
  Forall (valid (thread_heap s)) ls ->
  search_thread s thread ls = Some (List.find (is_thread s thread) ls).
Proof.
  induction 1 as [|l ls [t Ht] _ IH]; [done|]. cbn [search_thread List.find].
  unfold is_thread at 1. rewrite Ht. cbn [mbind option_bind].
  destruct (th_id t =? thread); [done|exact IH].
Qed.

(** The first registered thread with an identifier. *)
Definition registered (s : JVM) (thread : Z) : option ThreadInfo :=
  List.find (fun t => th_id t =? thread)
    (omap (fun l => cells (thread_heap s) !! l) (CL.list_ (threads_ s))).

Lemma find_registered s thread :
  jvm_wf s ->
  match List.find (is_thread s thread) (CL.list_ (threads_ s)) with
  | Some l => cells (thread_heap s) !! l = registered s thread /\ is_Some (registered s thread)
  | None => registered s thread = None
  end.
Proof.
  intros [_ Hv]. unfold registered.
  induction Hv as [|l ls [t Ht] _ IH]; [done|]. cbn [List.find]. rewrite omap_cons, Ht.
  cbn [List.find]. unfold is_thread at 1. rewrite Ht. destruct (th_id t =? thread); [|exact IH].
  by split; [|eexists].
Qed.

Lemma registered_elem (j : JVM) i :
  i ∈ th_id <$> omap (fun l => cells (thread_heap j) !! l) (CL.list_ (threads_ j)) -> is_Some (registered j i).
Proof.
  intros (t & -> & Ht)%list_elem_of_fmap. unfold registered. destruct (List.find _ _) eqn:Hf; [by eexists|].
  pose proof (List.find_none _ _ Hf t (proj1 (list_elem_of_In _ _) Ht)) as H. cbn in H. lia.
Qed.

Lemma wp_findThread s thread (Q : ptr -> JVM -> Prop) :
  jvm_wf s -> Q (List.find (is_thread s thread) (CL.list_ (threads_ s))) s ->
  wp (findThread thread) s Q.
Proof.
  intros [_ Hv] HQ. unfold findThread. eapply wp_act; [|exact HQ]. by rewrite search_thread_find.
Qed.

Lemma add_traces_id n t : th_id (add_traces n t) = th_id t.
Proof. done. Qed.

(** Registering a thread and looking it up.  After [addCurrentThread] of a
    thread that was not registered, [findThread] finds it, with its name and
    stack bounds and no trace running; every other lookup gives the same thread
    as before; and the registry stays well-formed. *)
Theorem add_then_find s thread bounds name :
  jvm_wf s -> registered s thread = None ->
  wp (addCurrentThread thread bounds (Some name)) s (fun _ s' => jvm_wf s' /\
    registered s' thread = Some (make_thread name thread bounds.1 bounds.2) /\
    (forall other, other <> thread -> registered s' other = registered s other) /\
    wp (findThread thread) s' (fun p s'' => s'' = s' /\
      p ≫= (fun l => cells (thread_heap s') !! l)
      = Some (make_thread name thread bounds.1 bounds.2))).
Proof.
  intros Hwf Hnone. unfold addCurrentThread. wp_steps. apply wp_modify.
  set (t := make_thread name thread bounds.1 bounds.2). set (h := thread_heap s).
  set (s' := lset threads_L _ _).
  assert (Hwf' : jvm_wf s').
  { destruct Hwf as [Hh Hv]. split; [by apply heap_wf_alloc|]. simpl.
    apply Forall_app. split.
    - by apply Forall_valid_grow.
    - constructor; [apply valid_new|done]. }
  assert (Hreg : forall o, registered s' o =
      match registered s o with Some x => Some x | None => if th_id t =? o then Some t else None end).
  { intros o. unfold registered at 1, s'; simpl. rewrite omap_app, omap_cons, lookup_insert_eq.
    rewrite omap_insert_fresh.
    - rewrite find_app. unfold registered. fold h. destruct (List.find _ _); [done|].
      simpl. by destruct (thread =? o).
    - intros Hin. destruct Hwf as [Hh Hv]. rewrite list.Forall_forall in Hv.
      destruct (Hv _ Hin) as [a Ha]. by rewrite heap_fresh in Ha. }
  split; [done|]. split; [|split].
  - rewrite Hreg, Hnone. simpl. by rewrite Z.eqb_refl.
  - intros o Ho. rewrite Hreg. simpl. destruct (registered s o); [done|].
    by rewrite (proj2 (Z.eqb_neq thread o)).
  - apply wp_findThread; [done|]. split; [done|].
    pose proof (find_registered s' thread Hwf') as Hf. rewrite Hreg, Hnone in Hf. simpl in Hf.
    rewrite Z.eqb_refl in Hf. destruct (List.find _ _); simpl; [by destruct Hf|done].
Qed.

Lemma add_then_find_witness :
  wp (addCurrentThread 7 (stack_bounds_linux 4096 8192) (Some "main")) make_jvm (fun _ s' =>
    registered s' 7 = Some (MkThread "main" 7 0 4096 12288)).
Proof.
  eapply wp_mono; [|apply (add_then_find make_jvm 7 (4096, 12288) "main" make_jvm_wf eq_refl)].
  by intros [] s' (_ & H & _).
Defined.
