(* ===== verification/Memory.v ===== *)
(** * The address space of the process

    The signal handler and the resolution of HotSpot's tables read memory
    through raw addresses.  Memory is a partial function from addresses to
    bytes, undefined where nothing is mapped; a load of several bytes is
    little-endian, as on the two architectures the tracer supports.  A function
    that only reads memory returns [None] when it touches an unmapped address.

    Loops over memory with no bound in the source run under [loop], which
    allows [2 ^ d] iterations at depth [d]: [loop 64] is enough for a loop that
    visits each address of the address space at most once. *)

From S2P Require Import Prelude.
From Stdlib Require Import ZArith Lia Ascii.
From stdpp Require Import base gmap list strings numbers.
Local Open Scope Z_scope.
Local Open Scope kt_scope.

Abbreviation mem := (Z -> option Z).

Fixpoint load (m : mem) (n : nat) (a : Z) : option Z :=
  match n with
  | O => Some 0
  | S n => b ← m (u64 a); rest ← load m n (a + 1); Some (b + 256 * rest)
  end.

(** [*reinterpret_cast<T*>(a)] for [uint64_t] and pointers, [int], [unsigned
    short] and [unsigned char]. *)
Definition load64 (m : mem) (a : Z) : option Z := load m 8 a.
Definition load32 (m : mem) (a : Z) : option Z := s32 <$> load m 4 a.
Definition load16 (m : mem) (a : Z) : option Z := load m 2 a.
Definition load8 (m : mem) (a : Z) : option Z := load m 1 a.

(** A computation on memory inside a program over another state. *)
Definition from_mem {S A} (x : option A) : prog S A :=
  match x with Some a => mret a | None => undef "access to unmapped memory" end.

Lemma bind_known {A B} (x : option A) (a : A) (f : A -> option B) :
  x = Some a -> (x ≫= f) = f a.
Proof. by intros ->. Qed.

(** Performs the reads whose values are known, in the order of the hypotheses given. *)
Tactic Notation "loads" uconstr(H1) := rewrite (bind_known _ _ _ H1).
Tactic Notation "loads" uconstr(H1) "," uconstr(H2) := loads H1; loads H2.
Tactic Notation "loads" uconstr(H1) "," uconstr(H2) "," uconstr(H3) := loads H1; loads H2, H3.
Tactic Notation "loads" uconstr(H1) "," uconstr(H2) "," uconstr(H3) "," uconstr(H4) :=
  loads H1; loads H2, H3, H4.

(** ** Bounded loops *)

Fixpoint loop {X A} (d : nat) (step : X -> X + A) (x : X) : X + A :=
  match d with
  | O => step x
  | S d =>
      match loop d step x with
      | inl x' => loop d step x'
      | inr a => inr a
      end
  end.

(** The loop exits with [a] after [n] iterations that continue. *)
Inductive exits {X A} (step : X -> X + A) : nat -> X -> A -> Prop :=
  | exits_now x a : step x = inr a -> exits step 0 x a
  | exits_later n x x' a : step x = inl x' -> exits step n x' a -> exits step (S n) x a.

(** The loop continues for [n] iterations. *)
Fixpoint continues {X A} (step : X -> X + A) (n : nat) (x x' : X) : Prop :=
  match n with
  | O => x = x'
  | S n => exists y, step x = inl y /\ continues step n y x'
  end.

Section loop.
Context {X A : Type} (step : X -> X + A).

Lemma exits_split n1 n2 x a :
  exits step (n1 + n2) x a -> exists x', continues step n1 x x' /\ exits step n2 x' a.
Proof.
  revert x; induction n1 as [|n1 IH]; intros x H; [by exists x|].
  inversion H as [|? ? y ? Hy Hr]; simplify_eq. destruct (IH _ Hr) as (x' & Hc & He).
  exists x'. split; [|done]. by exists y.
Qed.

Lemma loop_continues d x x' :
  continues step (2 ^ d) x x' -> loop d step x = inl x'.
Proof.
  revert x x'; induction d as [|d IH]; intros x x' H.
  - destruct H as (y & Hy & ->). done.
  - cbn [loop]. replace (2 ^ S d)%nat with (2 ^ d + 2 ^ d)%nat in H by (simpl; lia).
    assert (Hs : exists y, continues step (2 ^ d) x y /\ continues step (2 ^ d) y x').
    { revert H. generalize (2 ^ d)%nat at 1 3 as n. intros n. revert x.
      induction n as [|n IHn]; intros x H; [by exists x|].
      destruct H as (y & Hy & Hr). destruct (IHn _ Hr) as (z & Hz & Hz').
      exists z. split; [|done]. by exists y. }
    destruct Hs as (y & H1 & H2). by rewrite (IH _ _ H1), (IH _ _ H2).
Qed.

(** Fewer than [2 ^ d] iterations are all performed. *)
Lemma loop_exits d n x a : exits step n x a -> (n < 2 ^ d)%nat -> loop d step x = inr a.
Proof.
  revert n x; induction d as [|d IH]; intros n x H Hn.
  - assert (n = 0%nat) as -> by (simpl in Hn; lia). by inversion H.
  - cbn [loop]. destruct (decide (n < 2 ^ d)%nat) as [Hlt|Hge].
    + by rewrite (IH n).
    + replace n with (2 ^ d + (n - 2 ^ d))%nat in H by lia.
      destruct (exits_split _ _ _ _ H) as (x' & Hc & He).
      rewrite (loop_continues _ _ _ Hc). apply (IH (n - 2 ^ d)%nat); [done|].
      simpl in Hn. lia.
Qed.
End loop.

(** ** C strings *)

(** One character of [strlen], [strcmp] and the like: [Some] of the string read so far, reversed. *)
Definition cstr_step (m : mem) (x : Z * list Z) : (Z * list Z) + option (list Z) :=
  let '(a, acc) := x in
  match load8 m a with
  | None => inr None
  | Some b => if b =? 0 then inr (Some (rev acc)) else inl (a + 1, b :: acc)
  end.

(** The bytes of the zero-terminated string at an address. *)
Definition cstr_bytes (m : mem) (a : Z) : option (list Z) :=
  match loop 64 (cstr_step m) (a, []) with inr r => r | inl _ => None end.

Definition string_of_bytes (l : list Z) : string :=
  String.string_of_list_ascii ((fun b => ascii_of_N (Z.to_N b)) <$> l).

Definition bytes_of_string (s : string) : list Z :=
  (fun c => Z.of_N (N_of_ascii c)) <$> String.list_ascii_of_string s.

Definition cstr (m : mem) (a : Z) : option string := string_of_bytes <$> cstr_bytes m a.

Lemma string_of_bytes_of_string s : string_of_bytes (bytes_of_string s) = s.
Proof.
  unfold string_of_bytes, bytes_of_string. rewrite <- list_fmap_compose.
  rewrite (list_fmap_ext _ id).
  - rewrite list_fmap_id. apply String.string_of_list_ascii_of_string.
  - intros i c _. cbn [compose]. by rewrite N2Z.id, ascii_N_embedding.
Qed.

(** A zero-terminated string stored at [a]. *)
Definition stored (m : mem) (a : Z) (l : list Z) : Prop :=
  Forall (fun b => 0 < b) l /\
  forall i b, (l ++ [0]) !! i = Some b -> m (u64 (a + Z.of_nat i)) = Some b.

Lemma load8_eq m a : load8 m a = m (u64 a).
Proof. unfold load8, load. destruct (m (u64 a)) as [b|]; simpl; [f_equal; lia|done]. Qed.

Lemma stored_cons m a b l :
  stored m a (b :: l) -> 0 < b /\ m (u64 a) = Some b /\ stored m (a + 1) l.
Proof.
  intros [Hp Hm]. inversion Hp; simplify_eq. split; [done|]. split.
  - rewrite <- (Hm 0%nat b eq_refl). f_equal. f_equal. lia.
  - split; [done|]. intros i c Hi. rewrite <- (Hm (S i) c Hi). f_equal. f_equal. lia.
Qed.

Lemma cstr_exits m a l acc :
  stored m a l -> exits (cstr_step m) (length l) (a, acc) (Some (rev acc ++ l)).
Proof.
  revert a acc; induction l as [|b l IH]; intros a acc H.
  - apply exits_now. unfold cstr_step. rewrite load8_eq. destruct H as [_ Hm].
    replace a with (a + Z.of_nat 0) by lia. rewrite (Hm 0%nat 0 eq_refl). cbn.
    by rewrite app_nil_r.
  - destruct (stored_cons _ _ _ _ H) as (Hb & Hm & Hl).
    eapply exits_later; [unfold cstr_step; rewrite load8_eq, Hm|].
    + replace (b =? 0) with false by lia. reflexivity.
    + replace (rev acc ++ b :: l) with (rev (b :: acc) ++ l); [by apply IH|].
      simpl. by rewrite <- app_assoc.
Qed.

Lemma pow64_nat n : Z.of_nat n < 2 ^ 64 -> (n < 2 ^ 64)%nat.
Proof.
  intros H. apply Nat2Z.inj_lt. eapply Z.lt_le_trans; [exact H|].
  rewrite Nat2Z.inj_pow. apply Z.le_refl.
Qed.

Lemma cstr_stored m a s :
  stored m a (bytes_of_string s) -> Z.of_nat (length (bytes_of_string s)) < 2 ^ 64 ->
  cstr m a = Some s.
Proof.
  intros H Hn. unfold cstr, cstr_bytes.
  rewrite (loop_exits _ 64 _ _ _ (cstr_exits m a _ [] H) (pow64_nat _ Hn)).
  cbn [fmap option_fmap option_map rev app]. by rewrite string_of_bytes_of_string.
Qed.

(** ** Readable ranges *)

(** Alignment arguments. *)
Ltac align_lia := Z.to_euclidean_division_equations; lia.

Definition readable (m : mem) (lo hi : Z) : Prop := forall a, lo <= a < hi -> is_Some (m a).

Lemma load_readable m lo hi n a :
  readable m lo hi -> 0 <= lo -> hi <= 2 ^ 64 -> lo <= a -> a + Z.of_nat n <= hi ->
  is_Some (load m n a).
Proof.
  intros Hm Hlo Hhi. revert a; induction n as [|n IH]; intros a Ha Hn; [by eexists|].
  cbn [load]. rewrite wrapu_small by (unfold in_u; lia).
  destruct (Hm a) as [b Hb]; [lia|]. rewrite Hb. cbn.
  destruct (IH (a + 1)) as [r Hr]; [lia..|]. rewrite Hr. cbn. by eexists.
Qed.

Lemma load64_readable m lo hi a :
  readable m lo hi -> 0 <= lo -> hi <= 2 ^ 64 -> lo <= a -> a + 8 <= hi -> is_Some (load64 m a).
Proof. intros. by eapply load_readable. Qed.

(** ** Memory given by its words *)

(** Words stored from address [lo] on. *)
Definition words_at (lo : Z) (ws : list Z) : mem := fun a =>
  if (lo <=? a) && (a <? lo + 8 * Z.of_nat (length ws))
  then Some (Z.shiftr (default 0 (ws !! Z.to_nat ((a - lo) / 8))) (8 * (a mod 8)) mod 256)
  else None.

Lemma words_at_bytes lo ws b x : words_at lo ws b = Some x -> 0 <= x < 256.
Proof. unfold words_at. destruct (_ && _); [|done]. intros [= <-]. apply Z.mod_pos_bound. lia. Qed.

Lemma words_at_readable lo ws : readable (words_at lo ws) lo (lo + 8 * Z.of_nat (length ws)).
Proof. intros a Ha. unfold words_at. replace (_ && _) with true by lia. by eexists. Qed.
