(* ===== verification/Unwind.v ===== *)
(** * Stack unwinding in the signal handler (profiler/unwind/*.inline.hpp)

    One [unwind_stack] per platform.  On AArch64 the tracer walks the chain of
    frame records itself; on x86-64 it drives a libunwind cursor.  Each fills
    the instruction array of the [AsyncTrace] the profiler thread prepared and
    sets [size] to the number of frames found.

    [CodeCacheAPI] is what the unwinders ask of the JVM; [CodeCache]
    implements it.  libunwind, [dladdr] and pointer authentication are
    parameters. *)

From S2P Require Import Prelude Memory TraceTime TraceModel.
From Stdlib Require Import ZArith Lia.
From stdpp Require Import base gmap list strings numbers.
Local Open Scope Z_scope.
Local Open Scope kt_scope.

(** [JVM::isJavaFrame] and [JVM::getJMethodId]; [0] is a null [jmethodID] and
    [None] an access to unmapped memory. *)
Class CodeCacheAPI := {
  isJavaFrame : Z -> option bool;
  getJMethodId : Z -> Z -> option Z;
}.

Definition is_pointer_in_stack (ptr lo hi : Z) : bool := (ptr >=? lo) && (ptr <? hi).

Definition POINTER_ALIGNMENT : Z := 8.

Definition set_instructions (l : list InstructionInfo) (t : AsyncTrace) : AsyncTrace :=
  MkAsync l (at_size t) (thread_id t) (ready t) (at_coroutine_id t) (at_stack_lo t) (at_stack_hi t).

Definition set_at_size (n : Z) (t : AsyncTrace) : AsyncTrace :=
  MkAsync (instructions t) n (thread_id t) (ready t) (at_coroutine_id t) (at_stack_lo t)
    (at_stack_hi t).

(** [trace->instructions[i] = x], undefined outside the array. *)
Definition write_instruction (i : Z) (x : InstructionInfo) : prog AsyncTrace unit :=
  act (fun t =>
    if (0 <=? i) && (i <? Z.of_nat (length (instructions t)))
    then Val tt (set_instructions (<[Z.to_nat i := x]> (instructions t)) t)
    else Undef "array index out of bounds").

Section frames.
Context `{CC : !CodeCacheAPI}.

(** The two branches of the loop body on AArch64; the result is [processed]. *)
Definition record_frame (trace_index ip fp : Z) : prog AsyncTrace bool :=
  java ← from_mem (isJavaFrame ip);
  if negb java then
    write_instruction trace_index (MkInstruction (s64 ip) fp false);;
    mret true
  else
    jmethodId ← from_mem (getJMethodId ip fp);
    write_instruction trace_index (MkInstruction (s64 jmethodId) 0 true);;
    mret (negb (jmethodId =? 0)).

End frames.

(** ** AArch64 *)

(** The registers of the interrupted thread. *)
Record ucontext := MkUcontext { uc_pc : Z; uc_fp : Z; uc_lr : Z }.

Section aarch64.
Context `{CC : !CodeCacheAPI} (m : mem) (strip_pointer : Z -> Z) (stack_lo stack_hi : Z).

(** The condition that ends the walk, on the frame pointer just read. *)
Definition walk_ends (fp last_fp lr : Z) : bool :=
  negb (is_pointer_in_stack (u64 (fp + 8)) stack_lo stack_hi) ||
  negb (fp mod POINTER_ALIGNMENT =? 0) || (fp <? last_fp) || (fp =? 0) || (lr =? 0).

(** The loop; the result is [trace_index]. *)
Fixpoint aarch64_loop (fuel : nat) (ip fp lr trace_index : Z) : prog AsyncTrace Z :=
  match fuel with
  | O => undef "out of fuel"
  | S fuel =>
      processed ← record_frame trace_index ip fp;
      trace_index ← signed 32 (trace_index + 1);
      let last_fp := fp in
      fp ← from_mem (load64 m (strip_pointer fp));
      if walk_ends fp last_fp lr then mret trace_index
      else
        let ip := strip_pointer lr in
        lr ← from_mem (load64 m (strip_pointer (u64 (fp + 8))));
        size ← reads at_size;
        if processed && (trace_index <? size) then aarch64_loop fuel ip fp lr trace_index
        else mret trace_index
  end.

Definition unwind_aarch64 (uc : ucontext) : prog AsyncTrace unit :=
  if negb (is_pointer_in_stack (uc_fp uc) stack_lo stack_hi) ||
     negb (uc_fp uc mod POINTER_ALIGNMENT =? 0) || (uc_fp uc =? 0) || (uc_pc uc =? 0)
  then modify (set_at_size 0)
  else
    size ← reads at_size;
    trace_index ← aarch64_loop (S (Z.to_nat size)) (uc_pc uc) (uc_fp uc) (uc_lr uc) 0;
    modify (set_at_size trace_index).

End aarch64.

Section platforms.
Context `{CC : !CodeCacheAPI} (m : mem).

(** The two AArch64 versions differ in [strip_pointer], which removes the
    pointer authentication code and exists on Apple's only. *)
Definition unwind_stack_linux_aarch64 (uc : ucontext) (stack_lo stack_hi : Z) :
    prog AsyncTrace unit :=
  unwind_aarch64 m (fun ptr => ptr) stack_lo stack_hi uc.

Definition unwind_stack_apple_aarch64 (ptrauth_strip : Z -> Z) (uc : ucontext)
    (stack_lo stack_hi : Z) : prog AsyncTrace unit :=
  unwind_aarch64 m ptrauth_strip stack_lo stack_hi uc.

End platforms.

(** ** x86-64 *)

(** A libunwind cursor: [unw_step] moves to the caller's frame and returns a
    positive value, or reports that there is none; the registers it reads and
    sets; and the name of the procedure, when it is known. *)
Inductive register :=
  | RAX | RDX | RCX | RBX | RSI | RDI | RBP | R8 | R9 | R10 | R11 | R12 | R13 | R14 | R15
  | REG_IP | RSP.

Class Libunwind := {
  cursor : Type;
  unw_step : cursor -> Z * cursor;
  unw_get_reg : cursor -> register -> Z;
  unw_set_reg : cursor -> register -> Z -> cursor;
  unw_get_proc_name : cursor -> option string;
}.

Section x86_64.
Context `{CC : !CodeCacheAPI} `{LU : !Libunwind}.

Definition unw_ip (c : cursor) : Z := unw_get_reg c REG_IP.
Definition unw_rbp (c : cursor) : Z := unw_get_reg c RBP.

(** The loop that skips the frames of the handler, up to the interrupted one. *)
Fixpoint skip_signal_frame (fuel : nat) (rip : Z) (c : cursor) : option cursor :=
  match fuel with
  | O => None
  | S fuel =>
      let '(r, c) := unw_step c in
      if r >? 0 then if rip =? s64 (unw_ip c) then Some c else skip_signal_frame fuel rip c
      else Some c
  end.

Definition record_frame_x86 (stack_lo stack_hi trace_index ip rbp : Z) : prog AsyncTrace unit :=
  java ← from_mem (isJavaFrame ip);
  if negb java then write_instruction trace_index (MkInstruction (s64 ip) rbp false)
  else if is_pointer_in_stack rbp stack_lo stack_hi then
    jmethod_id ← from_mem (getJMethodId ip rbp);
    write_instruction trace_index (MkInstruction (s64 jmethod_id) 0 true)
  else mret tt.

(** The loop; [rbp] is the variable's value from the iteration before, which
    the first iteration does not read since [lrbp] is [0]. *)
Fixpoint x86_loop (fuel : nat) (stack_lo stack_hi : Z) (c : cursor) (trace_index lrbp rbp : Z) :
    prog AsyncTrace Z :=
  match fuel with
  | O => undef "out of fuel"
  | S fuel =>
      if negb (lrbp =? 0) && (lrbp <? rbp) then mret trace_index
      else
        let ip := unw_ip c in
        let rbp := unw_rbp c in
        record_frame_x86 stack_lo stack_hi trace_index ip rbp;;
        trace_index ← signed 32 (trace_index + 1);
        let lrbp := rbp in
        let '(r, c) := unw_step c in
        size ← reads at_size;
        if (r >? 0) && (trace_index <? size)
        then x86_loop fuel stack_lo stack_hi c trace_index lrbp rbp
        else mret trace_index
  end.

(** [depth] bounds the frames of the handler; [c] is the cursor of
    [unw_init_local]. *)
Definition unwind_stack_linux_x86_64 (depth : nat) (c : cursor) (rip stack_lo stack_hi : Z) :
    prog AsyncTrace unit :=
  c ← from_mem (skip_signal_frame depth rip c);
  size ← reads at_size;
  trace_index ← x86_loop (S (Z.to_nat size)) stack_lo stack_hi c 0 0 0;
  modify (set_at_size trace_index).

(** On Apple's x86-64 the handler's frames end at [_sigtramp], whose registers
    are recovered from the signal context [rbx] points to; [ucontext_reg] is
    the access to a register saved in it.  [dladdr] tells native from Java
    code. *)
Definition recovered_registers : list register :=
  [RAX; RDX; RCX; RBX; RSI; RDI; RBP; R8; R9; R10; R11; R12; R13; R14; R15; REG_IP; RSP].

Definition recover_frame (ucontext_reg : Z -> register -> option Z) (c : cursor) : option cursor :=
  let rbx := unw_get_reg c RBX in
  foldl (fun oc r => c ← oc; v ← ucontext_reg rbx r; Some (unw_set_reg c r v))
    (Some c) recovered_registers.

Fixpoint skip_until_sigtramp (fuel : nat) (ucontext_reg : Z -> register -> option Z)
    (c : cursor) : option cursor :=
  match fuel with
  | O => None
  | S fuel =>
      let '(r, c) := unw_step c in
      if r >? 0 then
        if bool_decide (unw_get_proc_name c = Some "_sigtramp") then recover_frame ucontext_reg c
        else skip_until_sigtramp fuel ucontext_reg c
      else Some c
  end.

Definition record_frame_apple (dladdr : Z -> bool) (stack_lo stack_hi trace_index ip rbp : Z) :
    prog AsyncTrace bool :=
  if dladdr ip then
    write_instruction trace_index (MkInstruction (s64 ip) rbp false);;
    mret true
  else if is_pointer_in_stack rbp stack_lo stack_hi then
    jmethodId ← from_mem (getJMethodId ip rbp);
    write_instruction trace_index (MkInstruction (s64 jmethodId) 0 true);;
    mret (negb (jmethodId =? 0))
  else mret false.

Fixpoint apple_x86_loop (fuel : nat) (dladdr : Z -> bool) (stack_lo stack_hi : Z) (c : cursor)
    (ip rbp trace_index : Z) : prog AsyncTrace Z :=
  match fuel with
  | O => undef "out of fuel"
  | S fuel =>
      processed ← record_frame_apple dladdr stack_lo stack_hi trace_index ip rbp;
      let last_ip := ip in
      let '(r, c) := unw_step c in
      if r <=? 0 then mret trace_index
      else
        let ip := unw_ip c in
        let rbp := unw_rbp c in
        if (last_ip =? ip) || (rbp =? 0) then mret trace_index
        else
          trace_index ← signed 32 (trace_index + 1);
          size ← reads at_size;
          if processed && (trace_index <? size)
          then apple_x86_loop fuel dladdr stack_lo stack_hi c ip rbp trace_index
          else mret trace_index
  end.

Definition unwind_stack_apple_x86_64 (depth : nat)
    (ucontext_reg : Z -> register -> option Z) (dladdr : Z -> bool) (c : cursor) (stack_lo stack_hi : Z) : prog AsyncTrace unit :=
  c ← from_mem (skip_until_sigtramp depth ucontext_reg c);
  size ← reads at_size;
  trace_index ← apple_x86_loop (S (Z.to_nat size)) dladdr stack_lo stack_hi c
                  (unw_ip c) (unw_rbp c) 0;
  modify (set_at_size trace_index).

End x86_64.
