(* ===== verification/UnwindSpec.v ===== *)
(** * What the unwinders record

    The AArch64 walk is compared with the chain of frame records in the
    sampled thread's stack, the x86-64 one with the frames of the cursor. *)

From S2P Require Import Prelude Memory TraceTime TraceModel Unwind.
From Stdlib Require Import ZArith Lia Sorted.
From stdpp Require Import base gmap list strings numbers.
Local Open Scope Z_scope.
Local Open Scope kt_scope.

(** The code cache can always answer: what [CodeCache] promises. *)
Class CodeCacheLaws (CC : CodeCacheAPI) := {
  isJavaFrame_total : forall ip, is_Some (isJavaFrame ip);
  getJMethodId_total : forall ip fp, is_Some (getJMethodId ip fp);
}.

Section entries.
Context {CC : CodeCacheAPI} `{CL : !CodeCacheLaws CC}.

Definition is_java (ip : Z) : bool := default false (isJavaFrame ip).
Definition method_of (ip fp : Z) : Z := default 0 (getJMethodId ip fp).

(** What is recorded for a frame, and whether the walk goes on after it. *)
Definition entry (f : Z * Z) : InstructionInfo :=
  if is_java f.1 then MkInstruction (s64 (method_of f.1 f.2)) 0 true
  else MkInstruction (s64 f.1) f.2 false.
Definition processed (f : Z * Z) : bool := negb (is_java f.1 && (method_of f.1 f.2 =? 0)).

Lemma isJavaFrame_eq ip : isJavaFrame ip = Some (is_java ip).
Proof. unfold is_java. by destruct (isJavaFrame_total ip) as [b ->]. Qed.

Lemma getJMethodId_eq ip fp : getJMethodId ip fp = Some (method_of ip fp).
Proof. unfold method_of. by destruct (getJMethodId_total ip fp) as [b ->]. Qed.

(** The code cache answers what the walk asks about a frame. *)
Definition answers (f : Z * Z) : Prop :=
  is_Some (isJavaFrame f.1) /\ (is_java f.1 = true -> is_Some (getJMethodId f.1 f.2)).

Lemma laws_answer f : answers f.
Proof using CL. split; [apply isJavaFrame_total|]. intros _. apply getJMethodId_total. Qed.

Lemma wp_from_mem {S A} (a : A) (s : S) (Q : A -> S -> Prop) : Q a s -> wp (from_mem (Some a)) s Q.
Proof. done. Qed.

Lemma wp_write_instruction i x t (Q : unit -> AsyncTrace -> Prop) :
  (i < length (instructions t))%nat ->
  Q tt (set_instructions (<[i := x]> (instructions t)) t) ->
  wp (write_instruction (Z.of_nat i) x) t Q.
Proof.
  intros Hi HQ. unfold write_instruction. eapply wp_act; [|exact HQ].
  rewrite Nat2Z.id. replace (_ && _) with true; [done|]. symmetry. apply andb_true_iff. lia.
Qed.

Lemma wp_record_frame i ip fp t (Q : bool -> AsyncTrace -> Prop) :
  answers (ip, fp) -> (i < length (instructions t))%nat ->
  Q (processed (ip, fp)) (set_instructions (<[i := entry (ip, fp)]> (instructions t)) t) ->
  wp (record_frame (Z.of_nat i) ip fp) t Q.
Proof.
  intros [[j Hj] Hid] Hi HQ. cbn [fst snd] in *. unfold record_frame. apply wp_bind.
  rewrite Hj. apply wp_from_mem. unfold entry, processed, is_java in *; cbn [fst snd] in HQ.
  rewrite Hj in *. cbn [from_option] in *. destruct j; cbn [id negb andb] in *.
  - apply wp_bind. destruct (Hid eq_refl) as [v Hv]. unfold method_of in HQ.
    rewrite Hv in *. apply wp_from_mem. apply wp_bind. by apply wp_write_instruction.
  - apply wp_bind. by apply wp_write_instruction.
Qed.

Lemma set_instructions_twice l l' t : set_instructions l (set_instructions l' t) = set_instructions l t.
Proof. done. Qed.
End entries.

(** ** AArch64 *)

Section aarch64.
Context {CC : CodeCacheAPI} (m : mem) (strip : Z -> Z) (lo hi : Z).

(** The stack of the sampled thread is mapped, and its bounds are word
    aligned; authentication codes are only in pointers that are signed. *)
Record stack_ok : Prop := {
  stack_lo_pos : 0 < lo;
  stack_hi_max : hi < 2 ^ 64;
  stack_lo_aligned : lo mod 8 = 0;
  stack_hi_aligned : hi mod 8 = 0;
  stack_readable : readable m lo hi;
  strip_stack : forall p, lo <= p < hi -> strip p = p;
}.

(** A frame record of the stack. *)
Definition frame_record (fp : Z) : Prop := lo <= fp /\ fp + 16 <= hi /\ fp mod 8 = 0.
Definition in_stack (fp : Z) : Prop := lo <= fp < hi /\ fp mod 8 = 0.

(** The frames the walk visits, at most [n]. *)
Fixpoint walk (n : nat) (ip fp lr : Z) : list (Z * Z) :=
  match n with
  | O => []
  | S n =>
      (ip, fp) ::
      match load64 m fp with
      | None => []
      | Some fp' =>
          if walk_ends lo hi fp' fp lr || negb (processed (ip, fp)) then []
          else default [] (walk n (strip lr) fp' <$> load64 m (fp' + 8))
      end
  end.

Lemma load64_range a v : (forall b x, m b = Some x -> 0 <= x < 256) -> load64 m a = Some v -> in_u 64 v.
Proof.
  intros Hm. unfold load64.
  assert (H : forall n a v, load m n a = Some v -> 0 <= v < 256 ^ Z.of_nat n).
  { induction n as [|n IH]; intros a' v' Hv; cbn [load] in Hv; [simplify_eq; lia|].
    destruct (m (u64 a')) as [b|] eqn:Hb; [|done]. cbn in Hv.
    destruct (load m n (a' + 1)) as [r|] eqn:Hr; [|done]. cbn in Hv. simplify_eq.
    specialize (IH _ _ Hr). specialize (Hm _ _ Hb).
    rewrite Nat2Z.inj_succ, Z.pow_succ_r by lia. lia. }
  intros Hv. apply (H 8%nat) in Hv. exact Hv.
Qed.

Context (Hst : stack_ok) (Hbytes : forall b x, m b = Some x -> 0 <= x < 256).

Lemma in_stack_load fp : in_stack fp -> exists v, load64 m (strip fp) = Some v /\ load64 m fp = Some v /\ in_u 64 v.
Proof using Hst Hbytes.
  intros [Hr Ha]. destruct Hst as [Hlo Hhi Hla Hha Hread Hs].
  rewrite (Hs fp Hr).
  destruct (load64_readable m lo hi fp) as [v Hv]; [done|lia|lia|lia|align_lia|].
  exists v. split; [done|]. split; [done|]. by apply (load64_range fp).
Qed.

(** A frame pointer that passes the checks designates a frame record. *)
Lemma walk_continues fp' fp lr :
  in_stack fp -> in_u 64 fp' -> walk_ends lo hi fp' fp lr = false ->
  frame_record fp' /\ fp <= fp' /\ lr <> 0 /\ u64 (fp' + 8) = fp' + 8.
Proof using Hst.
  intros [Hr Ha] Hu Hw. unfold walk_ends, is_pointer_in_stack, POINTER_ALIGNMENT in Hw.
  rewrite !orb_false_iff, !negb_false_iff, andb_true_iff in Hw.
  destruct Hw as [[[[[H1 H2] H3] H4] H5] H6]. destruct Hst as [Hlo Hhi Hla Hha _ _].
  assert (Hw : u64 (fp' + 8) = fp' + 8).
  { unfold in_u in Hu. destruct (Z_lt_ge_dec (fp' + 8) (2 ^ 64)) as [Hlt|Hge].
    - apply wrapu_small. unfold in_u. lia.
    - exfalso. unfold wrapu in H1. replace (fp' + 8) with (fp' + 8 - 2 ^ 64 + 1 * 2 ^ 64) in H1 by lia.
      rewrite Z.mod_add, Z.mod_small in H1 by lia. align_lia. }
  rewrite Hw in H1, H2. unfold frame_record. repeat split; align_lia.
Qed.

Lemma set_instructions_id t : set_instructions (instructions t) t = t.
Proof. by destruct t. Qed.

(** The walk writes the frames of [walk] from index [i] on. *)
Lemma wp_aarch64_loop n fuel ip fp lr i t (Q : Z -> AsyncTrace -> Prop) :
  in_stack fp -> Forall answers (walk (S n) ip fp lr) -> (n < fuel)%nat ->
  at_size t = Z.of_nat (i + S n) -> length (instructions t) = (i + S n)%nat ->
  Z.of_nat (i + S n) < 2 ^ 31 ->
  (let fs := walk (S n) ip fp lr in
   Q (Z.of_nat (i + length fs))
     (set_instructions (list_inserts i (entry <$> fs) (instructions t)) t)) ->
  wp (aarch64_loop m strip lo hi fuel ip fp lr (Z.of_nat i)) t Q.
Proof using Hst Hbytes.
  revert n ip fp lr i t Q; induction fuel as [|fuel IH]; intros n ip fp lr i t Q Hfp Hans Hf Hsz Hlen Hmax;
    [lia|].
  destruct (in_stack_load fp Hfp) as (fp' & Hl' & Hl & Hu).
  intros HQ. cbn [walk] in HQ, Hans. rewrite Hl in HQ, Hans.
  cbn [aarch64_loop]. apply wp_bind, wp_record_frame; [exact (Forall_inv Hans)|lia|].
  apply Forall_inv_tail in Hans.
  apply wp_bind, wp_signed; [unfold in_s; lia|]. apply wp_bind. rewrite Hl'. apply wp_from_mem.
  replace (Z.of_nat i + 1) with (Z.of_nat (S i)) by lia.
  destruct (walk_ends lo hi fp' fp lr) eqn:Hw.
  { apply wp_ret. cbn [orb length fmap list_fmap list_inserts] in HQ.
    by replace (S i) with (i + 1)%nat by lia. }
  destruct (walk_continues _ _ _ Hfp Hu Hw) as ((H1 & H2 & H3) & H4 & H5 & H6).
  apply wp_bind. destruct (in_stack_load (fp' + 8)) as (lr' & Hr' & Hr & _).
  { unfold in_stack. split; [lia|]. align_lia. }
  rewrite H6, Hr'. apply wp_from_mem. apply wp_bind, wp_reads.
  cbn [set_instructions at_size]. rewrite Hsz. rewrite Hr in HQ, Hans. cbn [orb] in HQ, Hans.
  destruct (processed (ip, fp)) eqn:Hp; cbn [negb andb] in *.
  2: { apply wp_ret. by replace (S i) with (i + 1)%nat by lia. }
  destruct n as [|n].
  { rewrite (proj2 (Z.ltb_ge _ _)) by lia. apply wp_ret.
    by replace (S i) with (i + 1)%nat by lia. }
  rewrite (proj2 (Z.ltb_lt _ _)) by lia.
  apply (IH n).
  - unfold in_stack. split; [lia|done].
  - exact Hans.
  - lia.
  - cbn [set_instructions at_size]. rewrite Hsz. f_equal. lia.
  - cbn [set_instructions instructions]. rewrite length_insert. lia.
  - lia.
  - cbv zeta. cbn [set_instructions instructions]. rewrite set_instructions_twice.
    change (default [] (walk (S n) (strip lr) fp' <$> Some lr')) with (walk (S n) (strip lr) fp' lr') in HQ.
    rewrite fmap_cons in HQ. cbn [length list_inserts] in HQ.
    rewrite <- Nat.add_succ_comm, list_insert_inserts_lt in HQ by lia.
    exact HQ.
Qed.

Lemma walk_length n ip fp lr : (length (walk n ip fp lr) <= n)%nat.
Proof.
  revert ip fp lr; induction n as [|n IH]; intros ip fp lr; cbn [walk length]; [lia|].
  destruct (load64 m fp) as [fp'|]; cbn [length]; [|lia].
  destruct (_ || _); cbn [length]; [lia|].
  destruct (load64 m (fp' + 8)); cbn [fmap option_fmap option_map from_option id length]; [|lia].
  specialize (IH (strip lr) fp' z). lia.
Qed.

(** Every frame pointer of the walk is in the stack, and they never decrease. *)
Lemma walk_in_stack n ip fp lr :
  in_stack fp -> Forall (fun f => in_stack f.2 /\ fp <= f.2) (walk n ip fp lr).
Proof using Hst Hbytes.
  revert ip fp lr; induction n as [|n IH]; intros ip fp lr Hfp; cbn [walk]; [done|].
  constructor; [cbn [snd]; split; [done|lia]|].
  destruct (in_stack_load fp Hfp) as (fp' & _ & -> & Hu).
  destruct (walk_ends lo hi fp' fp lr) eqn:Hw; cbn [orb]; [done|].
  destruct (negb _); [done|].
  destruct (walk_continues _ _ _ Hfp Hu Hw) as ((H1 & H2 & H3) & H4 & _).
  destruct (load64 m (fp' + 8)) as [lr'|]; cbn [fmap option_fmap option_map from_option id]; [|done].
  eapply list.Forall_impl.
  - apply IH. unfold in_stack. split; [lia|done].
  - intros f [Hf Hle]. split; [done|lia].
Qed.

Lemma inserts_prefix {A} (k l : list A) :
  (length k <= length l)%nat -> list_inserts 0 k l = k ++ drop (length k) l.
Proof.
  intros Hk. replace l with (take (length k) l ++ drop (length k) l) at 1 by apply take_drop.
  assert (Hl : length (take (length k) l) = length k) by (rewrite length_take; lia).
  revert Hl. generalize (take (length k) l) as u, (drop (length k) l) as v.
  clear Hk l. induction k as [|x k IH]; intros u v Hu.
  - by destruct u.
  - destruct u as [|y u]; [done|]. cbn [list_inserts].
    change ((y :: u) ++ v) with ([y] ++ (u ++ v)).
    replace 1%nat with (length [y] + 0)%nat by done. rewrite list_inserts_app_r.
    rewrite IH by (simpl in Hu; lia). done.
Qed.

(** The test before the walk. *)
Definition starts (uc : ucontext) : bool :=
  is_pointer_in_stack (uc_fp uc) lo hi && (uc_fp uc mod 8 =? 0) && negb (uc_pc uc =? 0).

Definition unwound (n : nat) (uc : ucontext) : list (Z * Z) :=
  if starts uc then walk n (uc_pc uc) (uc_fp uc) (uc_lr uc) else [].

Lemma starts_in_stack uc : starts uc = true -> in_stack (uc_fp uc).
Proof. unfold starts, is_pointer_in_stack, in_stack. lia. Qed.

(** The trace after the frames [fs] have been recorded in it. *)
Definition recorded (fs : list (Z * Z)) (t : AsyncTrace) : AsyncTrace :=
  set_at_size (Z.of_nat (length fs))
    (set_instructions ((entry <$> fs) ++ drop (length fs) (instructions t)) t).

Lemma wp_unwind_aarch64 uc n t :
  Forall answers (unwound n uc) ->
  (0 < n)%nat -> Z.of_nat n < 2 ^ 31 -> at_size t = Z.of_nat n -> length (instructions t) = n ->
  wp (unwind_aarch64 m strip lo hi uc) t (fun _ t' => t' = recorded (unwound n uc) t).
Proof using Hst Hbytes.
  intros Hans Hn Hmax Hsz Hlen. unfold unwind_aarch64, POINTER_ALIGNMENT.
  replace (_ || _ || _ || _) with (negb (starts uc)).
  2: { pose proof (stack_lo_pos Hst). unfold starts, is_pointer_in_stack.
       apply eq_true_iff_eq. rewrite !orb_true_iff, !negb_true_iff, !andb_false_iff. lia. }
  destruct (starts uc) eqn:Hs; cbn [negb].
  2: { apply wp_modify. unfold unwound, recorded. rewrite Hs. by destruct t. }
  apply wp_bind, wp_reads, wp_bind. change 0 with (Z.of_nat 0) at 1.
  destruct n as [|n]; [lia|].
  unfold unwound in Hans. rewrite Hs in Hans.
  apply (wp_aarch64_loop n); [by apply starts_in_stack|exact Hans|lia|by rewrite Hsz|by rewrite Hlen|lia|].
  cbv zeta. apply wp_modify. unfold unwound, recorded. rewrite Hs.
  rewrite inserts_prefix by (rewrite length_fmap, Hlen; apply walk_length).
  by rewrite length_fmap.
Qed.
End aarch64.

Section aarch64_theorems.
Context {CC : CodeCacheAPI} `{CL : !CodeCacheLaws CC} (m : mem) (strip : Z -> Z) (lo hi : Z).
Context (Hbytes : forall b x, m b = Some x -> 0 <= x < 256).

(** The chain of frame records a frame pointer leads to: the return address
    and the frame pointer of each caller, up to the base of the stack, whose
    saved frame pointer is null. *)
Inductive call_stack : Z -> list (Z * Z) -> Prop :=
  | stack_base fp : frame_record lo hi fp -> load64 m fp = Some 0 -> call_stack fp []
  | stack_call fp ra fp' rest :
      frame_record lo hi fp -> load64 m fp = Some fp' -> load64 m (fp + 8) = Some ra ->
      ra <> 0 -> fp < fp' -> call_stack fp' rest -> call_stack fp ((ra, fp') :: rest).

(** The frames as the walk shows them: the first caller's address is taken
    from the link register, the others from the frame records, all without
    their authentication codes. *)
Definition callers (lr : Z) (fs : list (Z * Z)) : list (Z * Z) :=
  match fs with
  | [] => []
  | (_, fp') :: rest => (strip lr, fp') :: ((fun f => (strip f.1, f.2)) <$> rest)
  end.

(** The walk goes no further than a Java frame without a method. *)
Fixpoint until_unnamed (fs : list (Z * Z)) : list (Z * Z) :=
  match fs with
  | [] => []
  | f :: fs => f :: (if processed f then until_unnamed fs else [])
  end.

Lemma call_stack_record fp fs : call_stack fp fs -> frame_record lo hi fp.
Proof. by destruct 1. Qed.

Lemma frame_record_continues fp fp' lr :
  stack_ok m strip lo hi -> frame_record lo hi fp' -> fp < fp' -> lr <> 0 ->
  walk_ends lo hi fp' fp lr = false.
Proof.
  intros [Hlo Hhi _ _ _ _] (H1 & H2 & H3) Hlt Hlr.
  unfold walk_ends, is_pointer_in_stack, POINTER_ALIGNMENT.
  rewrite wrapu_small by (unfold in_u; lia). rewrite !orb_false_iff, !negb_false_iff, andb_true_iff. lia.
Qed.

Lemma walk_chain n ip fp lr fs :
  stack_ok m strip lo hi -> call_stack fp fs -> lr <> 0 ->
  walk m strip lo hi n ip fp lr = take n (until_unnamed ((ip, fp) :: callers lr fs)).
Proof using Hbytes CL.
  intros Hst Hc. revert n ip lr; induction Hc as [fp Hr H0|fp ra fp' rest Hr Hl Hra Hne Hlt Hc IH];
    intros n ip lr Hlr; (destruct n as [|n]; [done|]); cbn [walk until_unnamed take]; f_equal.
  - rewrite H0. unfold walk_ends. cbn [callers until_unnamed].
    replace (0 =? 0) with true by done. rewrite !orb_true_r. by destruct (processed _); rewrite take_nil.
  - rewrite Hl. rewrite frame_record_continues by (eauto using call_stack_record).
    destruct (processed (ip, fp)); cbn [orb negb]; [|by rewrite take_nil].
    destruct (in_stack_load m strip lo hi Hst Hbytes (fp' + 8)) as (lr' & _ & Hlr' & _).
    { destruct (call_stack_record _ _ Hc) as (H1 & H2 & H3). unfold in_stack.
      split; [lia|align_lia]. }
    rewrite Hlr'. cbn [fmap option_fmap option_map from_option id callers].
    inversion Hc as [? Hr' H0'|? ra2 fp2 rest2 Hr' Hl2 Hra2 Hne2 Hlt2 Hc2]; simplify_eq.
    + destruct n as [|n]; [done|]. cbn [walk take fmap list_fmap until_unnamed]. rewrite H0'.
      unfold walk_ends. replace (0 =? 0) with true by done. rewrite !orb_true_r. f_equal.
      by destruct (processed _); rewrite take_nil.
    + by rewrite IH.
Qed.

Lemma walk_sorted n ip fp lr :
  stack_ok m strip lo hi -> in_stack lo hi fp ->
  StronglySorted (fun f g => f.2 <= g.2) (walk m strip lo hi n ip fp lr).
Proof using Hbytes.
  intros Hst. revert ip fp lr; induction n as [|n IH]; intros ip fp lr Hfp; cbn [walk]; [constructor|].
  pose proof (walk_in_stack m strip lo hi Hst Hbytes (S n) ip fp lr Hfp) as Hall. cbn [walk] in Hall.
  apply Forall_inv_tail in Hall.
  constructor; [|eapply list.Forall_impl; [exact Hall|]; cbn [snd]; tauto].
  destruct (in_stack_load m strip lo hi Hst Hbytes fp Hfp) as (fp' & _ & -> & Hu).
  destruct (walk_ends lo hi fp' fp lr) eqn:Hw; cbn [orb]; [constructor|].
  destruct (negb _); [constructor|].
  destruct (walk_continues m strip lo hi Hst _ _ _ Hfp Hu Hw) as ((H1 & H2 & H3) & _).
  destruct (load64 m (fp' + 8)); cbn [fmap option_fmap option_map from_option id]; [|constructor].
  apply IH. unfold in_stack. split; [lia|done].
Qed.

(** C14: the AArch64 unwinder is safe in the signal handler, whatever the
    registers and the contents of the stack: it reads memory only inside the
    sampled thread's stack (every other read would be undefined), writes only
    inside the instruction array, terminates, and leaves a [size] between [0]
    and the capacity.  The frames recorded have their frame pointers in the
    stack, from the innermost outwards; the rest of the array and of the trace
    is unchanged.  The stack is mapped and its bounds are aligned, and the code
    cache is assumed to answer whatever it is asked;
    what the real one reads is another theorem's. *)
Theorem unwind_stays_in_stack uc n t :
  stack_ok m strip lo hi -> (0 < n)%nat -> Z.of_nat n < 2 ^ 31 ->
  at_size t = Z.of_nat n -> length (instructions t) = n ->
  wp (unwind_aarch64 m strip lo hi uc) t (fun _ t' => exists fs,
    t' = recorded fs t /\ 0 <= at_size t' <= Z.of_nat n /\ length (instructions t') = n /\
    Forall (fun f => in_stack lo hi f.2) fs /\ StronglySorted (fun f g => f.2 <= g.2) fs).
Proof using Hbytes CL.
  intros Hst Hn Hmax Hsz Hlen.
  eapply wp_mono; [|apply (wp_unwind_aarch64 m strip lo hi Hst Hbytes uc n t); try done;
    apply Forall_true, laws_answer].
  intros _ t' ->. exists (unwound m strip lo hi n uc). split; [done|].
  assert (Hl : (length (unwound m strip lo hi n uc) <= n)%nat)
    by (unfold unwound; destruct (starts _ _ _); [apply walk_length|simpl; lia]).
  split; [simpl; lia|]. split.
  { cbn [recorded set_at_size set_instructions instructions].
    rewrite length_app, length_fmap, length_drop. lia. }
  unfold unwound. destruct (starts lo hi uc) eqn:Hs; [|by split; constructor].
  pose proof (starts_in_stack lo hi uc Hs) as Hfp. split; [|by apply walk_sorted].
  eapply list.Forall_impl; [by apply (walk_in_stack m strip lo hi Hst Hbytes)|]. by intros f [].
Qed.

(** C13: the AArch64 unwinder recovers the call stack.  When the interrupted
    thread's frame pointer leads to a chain of frame records ending in a null
    one, the trace holds the interrupted instruction and then the callers, the
    innermost first, without their authentication codes, cut at the capacity
    and after the first Java frame the code cache has no method for (a stub,
    say), which is recorded with a null method and ends the walk.  The address
    of the innermost caller is the one the link register holds (so it is the
    return address of the frame record as long as the function has not made a
    call since its prologue), the others come from the frame records.  The
    stack is mapped, its bounds are aligned and no bits of its addresses are
    authentication codes, the chain goes upwards through return addresses that
    are not null, the program counter and the link register are not null, and
    the code cache is assumed to answer. *)
Theorem unwind_follows_chain uc fs n t :
  stack_ok m strip lo hi -> (0 < n)%nat -> Z.of_nat n < 2 ^ 31 ->
  at_size t = Z.of_nat n -> length (instructions t) = n ->
  call_stack (uc_fp uc) fs -> uc_pc uc <> 0 -> uc_lr uc <> 0 ->
  wp (unwind_aarch64 m strip lo hi uc) t (fun _ t' =>
    t' = recorded (take n (until_unnamed ((uc_pc uc, uc_fp uc) :: callers (uc_lr uc) fs))) t).
Proof using Hbytes CL.
  intros Hst Hn Hmax Hsz Hlen Hc Hpc Hlr.
  eapply wp_mono; [|apply (wp_unwind_aarch64 m strip lo hi Hst Hbytes uc n t); try done;
    apply Forall_true, laws_answer].
  intros _ t' ->. f_equal. unfold unwound.
  replace (starts lo hi uc) with true; [by apply walk_chain|].
  destruct (call_stack_record _ _ Hc) as (H1 & H2 & H3). unfold starts, is_pointer_in_stack. lia.
Qed.
End aarch64_theorems.

(** ** A small stack *)

(** Two callers: the frame records at 4096, 4128 and 4160. *)
Definition demo_stack : mem := words_at 4096 [4128; 1280; 0; 0; 4160; 1536; 0; 0; 0; 1792].

Definition demo_context : ucontext := MkUcontext 1024 4096 1280.

Definition fresh_trace : AsyncTrace := make_async (replicate 30 no_instruction) 30 1 4096 4176.

Definition demo_cache : CodeCacheAPI := {|
  isJavaFrame ip := Some (ip =? 1280);
  getJMethodId _ _ := Some 77;
|}.

Lemma demo_cache_laws : CodeCacheLaws demo_cache.
Proof. split; intros; by eexists. Qed.

Lemma demo_stack_ok : stack_ok demo_stack (fun p => p) 4096 4176.
Proof. split; [lia|lia|done|done|apply (words_at_readable 4096 [4128; 1280; 0; 0; 4160; 1536; 0; 0; 0; 1792])|done]. Qed.

Lemma unwind_stays_in_stack_witness :
  wp (unwind_aarch64 (CC := demo_cache) demo_stack (fun p => p) 4096 4176 demo_context) fresh_trace
    (fun _ t' => 0 <= at_size t' <= 30).
Proof.
  eapply wp_mono; [|apply (unwind_stays_in_stack (CL := demo_cache_laws) demo_stack (fun p => p)
    4096 4176 (words_at_bytes _ _) demo_context 30 fresh_trace demo_stack_ok); [lia|done|done|done]].
  by intros _ t' (fs & _ & H & _).
Defined.

Lemma demo_call_stack : call_stack demo_stack 4096 4176 4096 [(1280, 4128); (1536, 4160)].
Proof.
  apply stack_call; [unfold frame_record; by repeat split|vm_compute; reflexivity..|done|done|].
  apply stack_call; [unfold frame_record; by repeat split|vm_compute; reflexivity..|done|done|].
  apply stack_base; [unfold frame_record; by repeat split|vm_compute; reflexivity].
Qed.

Lemma unwind_follows_chain_witness :
  wp (unwind_aarch64 (CC := demo_cache) demo_stack (fun p => p) 4096 4176 demo_context) fresh_trace
    (fun _ t' => at_size t' = 3 /\ take 3 (instructions t') =
      [MkInstruction 1024 4096 false; MkInstruction 77 0 true; MkInstruction 1536 4160 false]).
Proof.
  eapply wp_mono; [|apply (unwind_follows_chain (CL := demo_cache_laws) demo_stack (fun p => p)
    4096 4176 (words_at_bytes _ _) demo_context [(1280, 4128); (1536, 4160)] 30 fresh_trace
    demo_stack_ok); [lia|done|done|done|exact demo_call_stack|done|done]].
  by intros _ t' ->.
Defined.

(** ** Linux x86-64 *)

Section x86.
Context {CC : CodeCacheAPI} `{CL : !CodeCacheLaws CC} `{LU : !Libunwind} (lo hi : Z).

(** [k] frames of the handler below the interrupted frame [c0]. *)
Inductive handler_frames (rip : Z) : nat -> cursor -> cursor -> Prop :=
  | handler_last r c c0 :
      unw_step c = (r, c0) -> 0 < r -> s64 (unw_ip c0) = rip -> handler_frames rip 0 c c0
  | handler_frame k r c c' c0 :
      unw_step c = (r, c') -> 0 < r -> s64 (unw_ip c') <> rip ->
      handler_frames rip k c' c0 -> handler_frames rip (S k) c c0.

Lemma skip_handler rip k depth c c0 :
  handler_frames rip k c c0 -> (k < depth)%nat -> skip_signal_frame depth rip c = Some c0.
Proof.
  intros H. revert depth; induction H as [r c c0 Hs Hr Hip|k r c c' c0 Hs Hr Hip _ IH];
    intros [|depth] Hd; try lia; cbn [skip_signal_frame]; rewrite Hs; rewrite (proj2 (Z.gtb_lt _ _)) by lia.
  - by rewrite (proj2 (Z.eqb_eq _ _)) by done.
  - rewrite (proj2 (Z.eqb_neq _ _)) by done. apply IH. lia.
Qed.

(** The frames from a cursor outwards, at most [n]. *)
Fixpoint cursor_frames (n : nat) (c : cursor) : list cursor :=
  match n with
  | O => []
  | S n => c :: if (unw_step c).1 >? 0 then cursor_frames n (unw_step c).2 else []
  end.

(** What a frame leaves in its slot: a Java frame whose [rbp] is outside the
    stack leaves it empty. *)
Definition entry_x86 (c : cursor) : InstructionInfo :=
  if is_java (unw_ip c) then
    if is_pointer_in_stack (unw_rbp c) lo hi
    then MkInstruction (s64 (method_of (unw_ip c) (unw_rbp c))) 0 true else no_instruction
  else MkInstruction (s64 (unw_ip c)) (unw_rbp c) false.

Lemma wp_record_frame_x86 i c t (Q : unit -> AsyncTrace -> Prop) :
  instructions t !! i = Some no_instruction ->
  Q tt (set_instructions (<[i := entry_x86 c]> (instructions t)) t) ->
  wp (record_frame_x86 lo hi (Z.of_nat i) (unw_ip c) (unw_rbp c)) t Q.
Proof using CL.
  intros Hi HQ. pose proof (lookup_lt_Some _ _ _ Hi) as Hlt.
  unfold record_frame_x86. apply wp_bind. rewrite isJavaFrame_eq. apply wp_from_mem.
  unfold entry_x86 in HQ. destruct (is_java (unw_ip c)); cbn [negb].
  - destruct (is_pointer_in_stack (unw_rbp c) lo hi).
    + apply wp_bind. rewrite getJMethodId_eq. apply wp_from_mem. by apply wp_write_instruction.
    + apply wp_ret. rewrite list_insert_id in HQ by done. by destruct t.
  - by apply wp_write_instruction.
Qed.

(** [lrbp] is the [rbp] of the iteration before, so the loop's first test
    never ends it. *)
Lemma wp_x86_loop n fuel c i lrbp rbp t (Q : Z -> AsyncTrace -> Prop) :
  (n < fuel)%nat -> at_size t = Z.of_nat (i + S n) ->
  drop i (instructions t) = replicate (S n) no_instruction -> Z.of_nat (i + S n) < 2 ^ 31 ->
  lrbp = 0 \/ lrbp = rbp ->
  (let fs := cursor_frames (S n) c in
   Q (Z.of_nat (i + length fs))
     (set_instructions (list_inserts i (entry_x86 <$> fs) (instructions t)) t)) ->
  wp (x86_loop fuel lo hi c (Z.of_nat i) lrbp rbp) t Q.
Proof using CL.
  revert n c i lrbp rbp t Q; induction fuel as [|fuel IH];
    intros n c i lrbp rbp t Q Hf Hsz Hd Hmax Hl HQ; [lia|].
  cbn [x86_loop]. replace (_ && _) with false by (destruct Hl as [->| ->]; lia).
  assert (Hi : instructions t !! i = Some no_instruction).
  { rewrite <- (Nat.add_0_r i), <- lookup_drop, Hd. done. }
  apply wp_bind, wp_record_frame_x86; [done|].
  apply wp_bind, wp_signed; [unfold in_s; lia|].
  replace (Z.of_nat i + 1) with (Z.of_nat (S i)) by lia.
  cbn [cursor_frames] in HQ. destruct (unw_step c) as [r c'] eqn:Hc. cbn [fst snd] in HQ.
  apply wp_bind, wp_reads. cbn [set_instructions at_size]. rewrite Hsz.
  destruct (r >? 0); cbn [andb].
  2: { apply wp_ret. by replace (S i) with (i + 1)%nat by lia. }
  destruct n as [|n].
  { rewrite (proj2 (Z.ltb_ge _ _)) by lia. apply wp_ret.
    by replace (S i) with (i + 1)%nat by lia. }
  rewrite (proj2 (Z.ltb_lt _ _)) by lia. apply (IH n).
  - lia.
  - cbn [set_instructions at_size]. rewrite Hsz. f_equal. lia.
  - cbn [set_instructions instructions]. rewrite drop_insert_lt by lia.
    replace (S i) with (i + 1)%nat by lia. rewrite <- drop_drop, Hd. done.
  - lia.
  - by right.
  - cbv zeta. cbn [set_instructions instructions]. rewrite set_instructions_twice.
    rewrite fmap_cons in HQ. cbn [length list_inserts] in HQ.
    rewrite <- Nat.add_succ_comm, list_insert_inserts_lt in HQ by lia. exact HQ.
Qed.

Lemma cursor_frames_length n c : (length (cursor_frames n c) <= n)%nat.
Proof.
  revert c; induction n as [|n IH]; intros c; cbn [cursor_frames length]; [lia|].
  destruct (_ >? 0); cbn [length]; [specialize (IH (unw_step c).2); lia|lia].
Qed.

(** C27: the Linux x86-64 unwinder records the frames of the cursor.  It skips
    the frames of the signal handler up to the interrupted instruction,
    terminates, and leaves in a fresh trace the frames from there outwards, cut
    at the capacity, with [size] their number; it writes nowhere else. *)
Theorem unwind_x86_records depth rip k c c0 n t :
  handler_frames rip k c c0 -> (k < depth)%nat -> (0 < n)%nat -> Z.of_nat n < 2 ^ 31 ->
  at_size t = Z.of_nat n -> instructions t = replicate n no_instruction ->
  wp (unwind_stack_linux_x86_64 depth c rip lo hi) t (fun _ t' =>
    let fs := cursor_frames n c0 in
    t' = set_at_size (Z.of_nat (length fs))
           (set_instructions ((entry_x86 <$> fs) ++ drop (length fs) (instructions t)) t)).
Proof using CL.
  intros Hk Hd Hn Hmax Hsz Hin. unfold unwind_stack_linux_x86_64.
  apply wp_bind. rewrite (skip_handler rip k) with (c0 := c0) by done. apply wp_from_mem.
  apply wp_bind, wp_reads, wp_bind. change 0 with (Z.of_nat 0) at 1.
  destruct n as [|n]; [lia|].
  apply (wp_x86_loop n); [lia|by rewrite Hsz|by rewrite Hin|lia|by left|].
  cbv zeta. apply wp_modify.
  rewrite inserts_prefix by (rewrite Hin, length_fmap, length_replicate; apply cursor_frames_length).
  by rewrite length_fmap.
Qed.
End x86.

(** A cursor over a list of frames, each its instruction, base pointer and
    procedure name. *)
Definition demo_unwind : Libunwind := {|
  cursor := list (Z * Z * string);
  unw_step c := match c with _ :: (_ :: _) as c' => (1, c') | _ => (0, c) end;
  unw_get_reg c r := match c, r with
                     | (ip, _, _) :: _, REG_IP => ip
                     | (_, rbp, _) :: _, RBP => rbp
                     | _, _ => 0
                     end;
  unw_set_reg c r v := match c, r with
                       | (_, rbp, n) :: c, REG_IP => (v, rbp, n) :: c
                       | (ip, _, n) :: c, RBP => (ip, v, n) :: c
                       | c, _ => c
                       end;
  unw_get_proc_name c := match c with (_, _, n) :: _ => Some n | [] => None end;
|}.

Definition demo_cursor : cursor (Libunwind := demo_unwind) :=
  [(11, 4000, "signal_action"); (12, 4040, "restore_rt"); (1024, 4096, "work");
   (1280, 4128, "java"); (1536, 4160, "main")].

Lemma unwind_x86_records_witness :
  wp (unwind_stack_linux_x86_64 (CC := demo_cache) (LU := demo_unwind) 10 demo_cursor 1024 4096 4176)
    fresh_trace (fun _ t' => at_size t' = 3 /\ take 3 (instructions t') =
      [MkInstruction 1024 4096 false; MkInstruction 77 0 true; MkInstruction 1536 4160 false]).
Proof.
  eapply wp_mono; [|apply (unwind_x86_records (CL := demo_cache_laws) (LU := demo_unwind) 4096 4176
    10 1024 1 demo_cursor (drop 2 demo_cursor) 30 fresh_trace); [|lia|lia|done|done|done]].
  - by intros _ t' ->.
  - by eapply handler_frame; [reflexivity|done|done|eapply handler_last; [reflexivity|done|]].
Defined.

(** On Apple's x86-64 the loop stops before it counts the last frame, so the
    outermost frame of a stack that fits the trace is recorded but not
    counted. *)
Lemma apple_x86_drops_outermost :
  wp (unwind_stack_apple_x86_64 (CC := demo_cache) (LU := demo_unwind) 10
        (fun _ r => match r with REG_IP => Some 1024 | RBP => Some 4096 | _ => Some 0 end)
        (fun ip => negb (ip =? 1280))
        [(11, 4000, "signal_action"); (12, 4040, "_sigtramp"); (1280, 4128, "java");
         (1536, 4160, "main")] 4096 4176) fresh_trace
    (fun _ t' => at_size t' = 2 /\ instructions t' !! 2%nat = Some (MkInstruction 1536 4160 false)).
Proof. by vm_compute. Qed.
