(* ===== verification/PointerValidation.v ===== *)
(** * Pointer validation (utils/pointerValidation.cpp)

    Whether an address can be read, asked of the operating system before the
    signal handler follows a pointer it found on the stack.  The system calls
    are parameters. *)

From S2P Require Import Prelude.
From Stdlib Require Import ZArith Lia.
From stdpp Require Import base gmap list strings numbers.
Local Open Scope Z_scope.
Local Open Scope kt_scope.

(** [!(ptr % alignof(uint64_t))]. *)
Definition is_aligned (ptr : Z) : bool := ptr mod 8 =? 0.

(** [mach_vm_region] returns the first region that ends after an address, as
    its start and whether it is readable; [None] is an error code. *)
Definition is_valid_apple (mach_vm_region : Z -> option (Z * bool)) (address_ptr : Z) : bool :=
  if (address_ptr =? 0) || negb (is_aligned address_ptr) then false
  else
    match mach_vm_region address_ptr with
    | None => false
    | Some (address, prot_read) => (address_ptr >=? address) && prot_read
    end.

(** [msync] of a page, whether it returns [0]. *)
Definition is_valid_linux (page_size : Z) (msync : Z -> bool) (address_ptr : Z) : bool :=
  msync ((address_ptr / page_size) * page_size).

(** The page asked about is the one that holds the address. *)
Lemma is_valid_linux_page page_size (mapped : Z -> bool) a :
  0 < page_size ->
  exists base, is_valid_linux page_size mapped a = mapped base /\
    base mod page_size = 0 /\ base <= a < base + page_size.
Proof.
  intros Hp. exists (a / page_size * page_size). split; [done|]. split.
  - apply Z.mod_mul. lia.
  - pose proof (Z.div_mod a page_size). pose proof (Z.mod_pos_bound a page_size). lia.
Qed.

(** The two systems differ on a misaligned address. *)
Lemma is_valid_apple_aligned region a : is_valid_apple region a = true -> a mod 8 = 0 /\ a <> 0.
Proof. unfold is_valid_apple, is_aligned. destruct (_ || _) eqn:E; [done|]. intros _. lia. Qed.
