(* ===== verification/VmStructs.v ===== *)
(** * HotSpot's description of itself (vm/vmStructs.h, vm/vmStructs.cpp, and
    the resolution in vm/jvm.cpp)

    libjvm exports tables that describe the layout of its own structures.
    [init] finds them through the symbolizer, [resolveVMStructs] and
    [resolveVMTypes] read them into maps keyed by type and field name.  Memory
    and the symbolizer ([addr2Symbol], a submodule) are parameters. *)

From S2P Require Import Prelude Memory.
From Stdlib Require Import ZArith Lia.
From stdpp Require Import base gmap list strings numbers.
Local Open Scope Z_scope.
Local Open Scope kt_scope.

(** [fieldName] and [typeString] are [char*]. *)
Record Field := MkField {
  fieldName : Z;
  typeString : Z;
  offset : Z;
  isStatic : Z;
}.

(** [fields] is shared with [vm_structs_]. *)
Record VMTypeEntry := MkVMType {
  typeName : Z;
  superclassName : Z;
  isOopType : Z;
  isIntegerType : Z;
  isUnsigned : Z;
  vt_size : Z;
  vt_fields : ptr;
}.

(** The global variables, each under its own name, and the two maps of [JVM]. *)
Record vm := MkVM {
  vars : gmap string Z;
  field_maps : heap (gmap string Field);
  vm_structs_ : gmap string ptr;
  types_ : gmap string VMTypeEntry;
}.

Definition make_vm : vm := MkVM ∅ heap_empty ∅ ∅.

Definition var (name : string) (s : vm) : Z := default 0 (vars s !! name).
Definition set_var (name : string) (x : Z) (s : vm) : vm :=
  MkVM (<[name := x]> (vars s)) (field_maps s) (vm_structs_ s) (types_ s).

Section vm.
Context (m : mem) (getVariableAddress : string -> Z).

(** ** [init] *)

(** The macros [get_address] and [get_offset]. *)
Definition get_variable (var_name : string) : prog vm unit :=
  let addr := getVariableAddress var_name in
  if addr =? 0 then throw (Runtime_error (var_name ++ " not found!")%string)
  else
    x ← from_mem (load64 m addr);
    modify (set_var var_name x).

Definition init_variables : list string :=
  ["gHotSpotVMStructs"; "gHotSpotVMTypes"; "gHotSpotVMIntConstants"; "gHotSpotVMLongConstants";
   "gHotSpotVMStructEntryTypeNameOffset"; "gHotSpotVMStructEntryFieldNameOffset";
   "gHotSpotVMStructEntryTypeStringOffset"; "gHotSpotVMStructEntryIsStaticOffset";
   "gHotSpotVMStructEntryOffsetOffset"; "gHotSpotVMStructEntryAddressOffset";
   "gHotSpotVMStructEntryArrayStride"; "gHotSpotVMTypeEntryTypeNameOffset";
   "gHotSpotVMTypeEntrySuperclassNameOffset"; "gHotSpotVMTypeEntryIsOopTypeOffset";
   "gHotSpotVMTypeEntryIsIntegerTypeOffset"; "gHotSpotVMTypeEntryIsUnsignedOffset";
   "gHotSpotVMTypeEntrySizeOffset"; "gHotSpotVMTypeEntryArrayStride";
   "gHotSpotVMIntConstantEntryNameOffset"; "gHotSpotVMIntConstantEntryValueOffset";
   "gHotSpotVMIntConstantEntryArrayStride"; "gHotSpotVMLongConstantEntryNameOffset";
   "gHotSpotVMLongConstantEntryValueOffset"; "gHotSpotVMLongConstantEntryArrayStride"].

Definition init : prog vm unit := for_each init_variables get_variable.

(** ** [resolveVMStructs] *)

(** One entry of the table, as the loop body reads it: [inl] stops the loop. *)
Definition read_struct (s : vm) (entry : Z) : option (unit + string * string * Field) :=
  fname ← load64 m (entry + var "gHotSpotVMStructEntryFieldNameOffset" s);
  tname ← load64 m (entry + var "gHotSpotVMStructEntryTypeNameOffset" s);
  if (tname =? 0) || (fname =? 0) then Some (inl tt)
  else
    typeNameStr ← cstr m tname;
    static ← load32 m (entry + var "gHotSpotVMStructEntryIsStaticOffset" s);
    off ← load64 m (entry + var "gHotSpotVMStructEntryOffsetOffset" s);
    address ← load64 m (entry + var "gHotSpotVMStructEntryAddressOffset" s);
    tstring ← load64 m (entry + var "gHotSpotVMStructEntryTypeStringOffset" s);
    fieldNameStr ← cstr m fname;
    Some (inr (typeNameStr, fieldNameStr,
      MkField fname tstring (if static =? 0 then off else address) static)).

(** The field map of a type, created when the type is new. *)
Definition fields_of (typeNameStr : string) : prog vm ptr :=
  act (fun s =>
    match vm_structs_ s !! typeNameStr with
    | Some p => Val p s
    | None =>
        let l := next (field_maps s) in
        Val (Some l) (MkVM (vars s) (Heap (<[l := ∅]> (cells (field_maps s))) (S l))
          (<[typeNameStr := Some l]> (vm_structs_ s)) (types_ s))
    end).

Definition field_maps_L : Lens vm (heap (gmap string Field)) :=
  field_lens field_maps (fun x s => MkVM (vars s) x (vm_structs_ s) (types_ s)).

(** [unordered_map::insert] keeps an entry that is there. *)
Definition map_insert (name : string) (f : Field) (fs : gmap string Field) : gmap string Field :=
  match fs !! name with Some _ => fs | None => <[name := f]> fs end.

Definition insert_field (p : ptr) (name : string) (f : Field) : prog vm unit :=
  zoom field_maps_L (hmodify p (map_insert name f)).

Definition add_struct (e : string * string * Field) : prog vm unit :=
  fields ← fields_of e.1.1;
  insert_field fields e.1.2 e.2.

Definition struct_step (x : Z * vm) : (Z * vm) + res vm unit :=
  let '(entry, s) := x in
  match read_struct s entry with
  | None => inr (Undef "access to unmapped memory")
  | Some (inl _) => inr (Val tt s)
  | Some (inr e) =>
      match run (add_struct e) s with
      | Val _ s' => inl (entry + var "gHotSpotVMStructEntryArrayStride" s', s')
      | r => inr r
      end
  end.

Definition resolveVMStructs : prog vm unit :=
  act (fun s =>
    match loop 64 struct_step (var "gHotSpotVMStructs" s, s) with
    | inr r => r
    | inl _ => Undef "the table has no end"
    end).

(** ** [resolveVMTypes] *)

Definition read_type (s : vm) (entry : Z) : option (unit + string * VMTypeEntry) :=
  tname ← load64 m (entry + var "gHotSpotVMTypeEntryTypeNameOffset" s);
  if tname =? 0 then Some (inl tt)
  else
    super ← load64 m (entry + var "gHotSpotVMTypeEntrySuperclassNameOffset" s);
    oop ← load32 m (entry + var "gHotSpotVMTypeEntryIsOopTypeOffset" s);
    integer ← load32 m (entry + var "gHotSpotVMTypeEntryIsIntegerTypeOffset" s);
    unsigned ← load32 m (entry + var "gHotSpotVMTypeEntryIsUnsignedOffset" s);
    size ← load64 m (entry + var "gHotSpotVMTypeEntrySizeOffset" s);
    typeNameStr ← cstr m tname;
    Some (inr (typeNameStr, MkVMType tname super oop integer unsigned size None)).

(** [vmTypeEntry.fields = vm_structs_[typeName]], where the subscript adds a
    null pointer for a type without fields, and [types_[typeName] = vmTypeEntry]. *)
Definition add_type (e : string * VMTypeEntry) (s : vm) : vm :=
  let structs := match vm_structs_ s !! e.1 with
                 | Some _ => vm_structs_ s
                 | None => <[e.1 := None]> (vm_structs_ s)
                 end in
  let t := e.2 in
  MkVM (vars s) (field_maps s) structs
    (<[e.1 := MkVMType (typeName t) (superclassName t) (isOopType t) (isIntegerType t)
                (isUnsigned t) (vt_size t) (default None (structs !! e.1))]> (types_ s)).

Definition type_step (x : Z * vm) : (Z * vm) + res vm unit :=
  let '(entry, s) := x in
  match read_type s entry with
  | None => inr (Undef "access to unmapped memory")
  | Some (inl _) => inr (Val tt s)
  | Some (inr e) => inl (entry + var "gHotSpotVMTypeEntryArrayStride" s, add_type e s)
  end.

Definition resolveVMTypes : prog vm unit :=
  act (fun s =>
    match loop 64 type_step (var "gHotSpotVMTypes" s, s) with
    | inr r => r
    | inl _ => Undef "the table has no end"
    end).

End vm.

(** ** Finding the tables *)

Section init.
Context (m : mem) (getVariableAddress : string -> Z).

Definition found (name : string) : Prop :=
  getVariableAddress name <> 0 /\ is_Some (load64 m (getVariableAddress name)).

Definition value (name : string) : Z := default 0 (load64 m (getVariableAddress name)).

Lemma run_get_variable name s :
  found name -> run (get_variable m getVariableAddress name) s = Val tt (set_var name (value name) s).
Proof.
  intros [H [x Hx]]. unfold get_variable, value. rewrite (proj2 (Z.eqb_neq _ _)) by done.
  by rewrite Hx.
Qed.

Definition set_vars (names : list string) (s : vm) : vm :=
  foldl (fun s name => set_var name (value name) s) s names.

Lemma run_get_variables names s :
  Forall found names ->
  run (for_each names (get_variable m getVariableAddress)) s = Val tt (set_vars names s).
Proof.
  intros H. revert s; induction H as [|name names Hn _ IH]; intros s; [done|].
  cbn [for_each]. rewrite run_bind, run_get_variable by done. apply IH.
Qed.

Lemma set_vars_lookup names s name :
  vars (set_vars names s) !! name
  = if decide (name ∈ names) then Some (value name) else vars s !! name.
Proof.
  revert s; induction names as [|n names IH]; intros s; [done|]. cbn [set_vars foldl].
  change (foldl _ _ names) with (set_vars names (set_var n (value n) s)). rewrite IH.
  destruct (decide (name ∈ names)) as [Hin|Hin].
  - by rewrite decide_True by (by right).
  - cbn [set_var vars]. destruct (decide (name = n)) as [->|Hne].
    + rewrite lookup_insert_eq, decide_True by left. done.
    + rewrite lookup_insert_ne by done. rewrite decide_False; [done|].
      intros [?|?]%elem_of_cons; done.
Qed.

(** C35: [init] reads every exported variable or names the first that libjvm
    does not export.  When all are found it returns with each variable holding
    the exported value and the maps untouched; when the first missing one is
    [name], it throws with [name] in the message. *)
Theorem init_reads_or_names s :
  (Forall found init_variables ->
   wp (init m getVariableAddress) s (fun _ s' =>
     (forall name, name ∈ init_variables -> var name s' = value name) /\
     vm_structs_ s' = vm_structs_ s /\ types_ s' = types_ s)) /\
  (forall before name after, init_variables = before ++ name :: after -> Forall found before ->
   getVariableAddress name = 0 ->
   exists s', run (init m getVariableAddress) s
              = Exc (Runtime_error (name ++ " not found!")%string) s').
Proof.
  split.
  - intros H. unfold wp, init. rewrite run_get_variables by done. split.
    + intros name Hin. unfold var. by rewrite set_vars_lookup, decide_True.
    + generalize init_variables as names. intros names. clear H. revert s.
      induction names as [|n names IH]; intros s; [done|]. apply (IH (set_var n (value n) s)).
  - intros before name after E Hb Hz. unfold init. rewrite E. clear E.
    revert s; induction Hb as [|n before Hn _ IH]; intros s.
    + exists s. cbn [app for_each]. rewrite run_bind. unfold get_variable. by rewrite Hz.
    + cbn [app for_each]. rewrite run_bind, run_get_variable by done. apply IH.
Qed.
End init.

Lemma init_reads_or_names_witness :
  wp (init (words_at 8 [4096]) (fun _ => 8)) make_vm (fun _ s' => var "gHotSpotVMTypes" s' = 4096) /\
  exists s', run (init (words_at 8 [4096]) (fun name => if bool_decide (name = "gHotSpotVMTypes") then 0 else 8))
               make_vm = Exc (Runtime_error "gHotSpotVMTypes not found!") s'.
Proof.
  split.
  - eapply wp_mono; [|apply (proj1 (init_reads_or_names (words_at 8 [4096]) (fun _ => 8) make_vm))].
    + intros _ s' (H & _). rewrite (H "gHotSpotVMTypes"); [done|]. right. left.
    + apply list.Forall_forall. intros n _. split; [done|]. by eexists.
  - apply (proj2 (init_reads_or_names (words_at 8 [4096])
      (fun name => if bool_decide (name = "gHotSpotVMTypes") then 0 else 8) make_vm)
      ["gHotSpotVMStructs"] "gHotSpotVMTypes" (drop 2 init_variables)); [done| |done].
    constructor; [split; [done|by eexists]|constructor].
Defined.

(** ** The table of fields *)

Definition find_field (s : vm) (type name : string) : option Field :=
  l ← mjoin (vm_structs_ s !! type);
  fields ← cells (field_maps s) !! l;
  fields !! name.

(** Every type has its own field map. *)
Record vm_wf (s : vm) : Prop := {
  wf_field_maps : heap_wf (field_maps s);
  wf_structs : forall type p, vm_structs_ s !! type = Some p ->
    exists l, p = Some l /\ valid (field_maps s) l;
  wf_distinct : forall t1 t2 p, vm_structs_ s !! t1 = Some p -> vm_structs_ s !! t2 = Some p -> t1 = t2;
}.

Lemma make_vm_wf : vm_wf make_vm.
Proof. split; [apply heap_wf_empty|by intros ? ? ?|by intros ? ? ? ?]. Qed.

(** [fields_of] yields the type's own map and changes no field. *)
Lemma wp_fields_of s type (Q : ptr -> vm -> Prop) :
  vm_wf s ->
  (forall l s', vm_wf s' -> vm_structs_ s' !! type = Some (Some l) -> vars s' = vars s ->
     types_ s' = types_ s -> (forall t f, find_field s' t f = find_field s t f) -> Q (Some l) s') ->
  wp (fields_of type) s Q.
Proof.
  intros Hwf HQ. unfold fields_of. destruct (vm_structs_ s !! type) as [p|] eqn:Ht.
  - destruct (wf_structs s Hwf _ _ Ht) as (l & -> & _).
    eapply wp_act; [by rewrite Ht|]. by apply HQ.
  - eapply wp_act; [by rewrite Ht|]. destruct Hwf as [Hh Hs Hd]. apply HQ; [|by simplify_map_eq|done..|].
    + split; cbn [field_maps vm_structs_].
      * by apply heap_wf_alloc.
      * intros t p Hp. destruct (decide (t = type)) as [->|Hne].
        { simplify_map_eq. eexists. split; [done|]. apply valid_new. }
        rewrite lookup_insert_ne in Hp by done. destruct (Hs _ _ Hp) as (l & -> & Hl).
        exists l. split; [done|]. by apply valid_grow.
      * assert (Hfresh : forall t, vm_structs_ s !! t <> Some (Some (next (field_maps s)))).
        { intros t Hp. destruct (Hs _ _ Hp) as (l & [= <-] & [x Hx]). by rewrite heap_fresh in Hx. }
        intros t1 t2 p H1 H2. rewrite lookup_insert in H1, H2.
        repeat case_decide; simplify_eq; [done|by edestruct Hfresh|by edestruct Hfresh|].
        by eapply Hd.
    + intros t f. unfold find_field; cbn [field_maps vm_structs_ cells].
      destruct (decide (t = type)) as [->|Hne].
      * rewrite lookup_insert_eq, Ht. cbn. rewrite lookup_insert_eq. cbn. by rewrite lookup_empty.
      * rewrite lookup_insert_ne by done. destruct (vm_structs_ s !! t) as [p|] eqn:Hp; [|done].
        destruct (Hs _ _ Hp) as (l & -> & [x Hx]). cbn.
        rewrite lookup_insert_ne; [done|]. intros <-. by rewrite heap_fresh in Hx.
Qed.

Lemma wp_add_struct s type name f (Q : unit -> vm -> Prop) :
  vm_wf s ->
  (forall s', vm_wf s' -> vars s' = vars s -> types_ s' = types_ s ->
     (forall t n, find_field s' t n =
        if decide (t = type /\ n = name) then Some (default f (find_field s t n))
        else find_field s t n) -> Q tt s') ->
  wp (add_struct (type, name, f)) s Q.
Proof.
  intros Hwf HQ. unfold add_struct; cbn [fst snd]. apply wp_bind, wp_fields_of; [done|].
  intros l s1 Hwf1 Hl Hv Ht Hf. unfold insert_field.
  destruct (wf_structs s1 Hwf1 _ _ Hl) as (? & [= <-] & [fs Hfs]).
  apply wp_zoom. eapply wp_hmodify; [exact Hfs|].
  apply HQ.
  - destruct Hwf1 as [Hh Hs Hd]. split; cbn [lset field_maps_L field_maps vm_structs_].
    + apply heap_wf_put; [done|]. by eexists.
    + intros t p Hp. destruct (Hs t p Hp) as (l' & -> & Hl'). exists l'. split; [done|].
      by apply valid_put.
    + exact Hd.
  - done.
  - done.
  - intros t n. rewrite <- Hf. unfold find_field; cbn [lset field_maps_L field_maps vm_structs_].
    unfold hput; cbn [cells].
    destruct (decide (t = type)) as [->|Hne].
    + rewrite Hl. cbn. rewrite lookup_insert_eq, Hfs. cbn. unfold map_insert.
      destruct (decide (n = name)) as [->|Hn].
      * rewrite decide_True by done. destruct (fs !! name) eqn:Hx; [by rewrite Hx|].
        by rewrite lookup_insert_eq.
      * rewrite decide_False by tauto. destruct (fs !! name); [done|]. by rewrite lookup_insert_ne.
    + rewrite decide_False by tauto. destruct (vm_structs_ s1 !! t) as [p|] eqn:Hp; [|done].
      destruct (wf_structs s1 Hwf1 _ _ Hp) as (l' & -> & _). cbn.
      rewrite lookup_insert_ne; [done|]. intros <-. apply Hne. by eapply (wf_distinct s1 Hwf1).
Qed.

(** A row of the table, and its representation at an address. *)
Record struct_row := MkRow {
  row_type : string;
  row_field : string;
  row_static : Z;
  row_offset : Z;
  row_address : Z;
  row_type_ptr : Z;
  row_field_ptr : Z;
  row_string_ptr : Z;
}.

Definition field_of_row (r : struct_row) : Field :=
  MkField (row_field_ptr r) (row_string_ptr r)
    (if row_static r =? 0 then row_offset r else row_address r) (row_static r).

Section tables.
Context (m : mem).

Record row_at (s : vm) (a : Z) (r : struct_row) : Prop := {
  at_field : load64 m (a + var "gHotSpotVMStructEntryFieldNameOffset" s) = Some (row_field_ptr r);
  at_type : load64 m (a + var "gHotSpotVMStructEntryTypeNameOffset" s) = Some (row_type_ptr r);
  at_static : load32 m (a + var "gHotSpotVMStructEntryIsStaticOffset" s) = Some (row_static r);
  at_offset : load64 m (a + var "gHotSpotVMStructEntryOffsetOffset" s) = Some (row_offset r);
  at_address : load64 m (a + var "gHotSpotVMStructEntryAddressOffset" s) = Some (row_address r);
  at_string : load64 m (a + var "gHotSpotVMStructEntryTypeStringOffset" s) = Some (row_string_ptr r);
  at_type_name : row_type_ptr r <> 0 /\ cstr m (row_type_ptr r) = Some (row_type r);
  at_field_name : row_field_ptr r <> 0 /\ cstr m (row_field_ptr r) = Some (row_field r);
}.

(** The table at an address: its rows, then one whose type or field name is null. *)
Inductive struct_table (s : vm) : Z -> list struct_row -> Prop :=
  | struct_table_end a tname fname :
      load64 m (a + var "gHotSpotVMStructEntryFieldNameOffset" s) = Some fname ->
      load64 m (a + var "gHotSpotVMStructEntryTypeNameOffset" s) = Some tname ->
      tname = 0 \/ fname = 0 -> struct_table s a []
  | struct_table_row a r rows :
      row_at s a r -> struct_table s (a + var "gHotSpotVMStructEntryArrayStride" s) rows ->
      struct_table s a (r :: rows).

Lemma read_row s a r :
  row_at s a r -> read_struct m s a = Some (inr (row_type r, row_field r, field_of_row r)).
Proof.
  intros [H1 H2 H3 H4 H5 H6 [H7 H8] [H9 H10]]. unfold read_struct.
  loads H1, H2. rewrite (proj2 (Z.eqb_neq _ _)) by done. rewrite (proj2 (Z.eqb_neq _ _)) by done.
  cbn [orb]. loads H8, H3, H4, H5. loads H6, H10. reflexivity.
Qed.

(** Only the variables matter to the representation. *)
Lemma struct_table_vars s s' a rows :
  vars s' = vars s -> struct_table s a rows -> struct_table s' a rows.
Proof.
  intros E. assert (Hv : forall n, var n s' = var n s) by (intros n; unfold var; by rewrite E).
  induction 1 as [a tn fn H1 H2 H3|a r rows Hr _ IH].
  - eapply struct_table_end; [by rewrite Hv|by rewrite Hv|done].
  - apply struct_table_row; [|by rewrite Hv]. destruct Hr. split; rewrite ?Hv; done.
Qed.

(** The first row for a field of a type. *)
Definition first_row (rows : list struct_row) (type name : string) : option Field :=
  field_of_row <$> List.find (fun r => bool_decide (row_type r = type /\ row_field r = name)) rows.

Definition found_or (a b : option Field) : option Field :=
  match a with Some x => Some x | None => b end.

Lemma struct_loop s a rows :
  vm_wf s -> struct_table s a rows ->
  exists s', exits (struct_step m) (length rows) (a, s) (Val tt s') /\
    vm_wf s' /\ vars s' = vars s /\ types_ s' = types_ s /\
    (forall t n, find_field s' t n = found_or (find_field s t n) (first_row rows t n)).
Proof.
  intros Hwf Ht. revert s a Hwf Ht; induction rows as [|r rows IH]; intros s a Hwf Ht.
  - inversion Ht as [? tn fn H1 H2 H3|]; simplify_eq. exists s.
    split; [apply exits_now; unfold struct_step, read_struct; loads H1, H2|].
    + by replace (_ || _) with true by lia.
    + do 3 (split; [done|]). intros t n. by destruct (find_field s t n).
  - inversion Ht as [|? ? ? Hr Hrows]; simplify_eq.
    assert (Hadd : wp (add_struct (row_type r, row_field r, field_of_row r)) s (fun _ s1 =>
      vm_wf s1 /\ vars s1 = vars s /\ types_ s1 = types_ s /\ forall t n, find_field s1 t n =
        if decide (t = row_type r /\ n = row_field r)
        then Some (default (field_of_row r) (find_field s t n)) else find_field s t n))
      by (by apply wp_add_struct).
    apply wp_elim in Hadd as ([] & s1 & Hrun & Hwf1 & Hv1 & Ht1 & Hf1).
    assert (Hvar : forall n, var n s1 = var n s) by (intros n; unfold var; by rewrite Hv1).
    destruct (IH s1 (a + var "gHotSpotVMStructEntryArrayStride" s) Hwf1) as (s' & He & Hwf' & Hv' & Ht' & Hf').
    { by apply (struct_table_vars s). }
    exists s'. split; [|split; [done|]].
    + eapply exits_later; [|exact He]. unfold struct_step. rewrite (read_row _ _ _ Hr), Hrun.
      by rewrite Hvar.
    + split; [by rewrite Hv', Hv1|]. split; [by rewrite Ht', Ht1|]. intros t n.
      rewrite Hf', Hf1. unfold first_row; cbn [List.find].
      destruct (decide (t = row_type r /\ n = row_field r)) as [[-> ->]|Hne].
      * rewrite bool_decide_eq_true_2 by done. cbn. by destruct (find_field s _ _).
      * rewrite bool_decide_eq_false_2; [done|]. intros [? ?]. by apply Hne.
Qed.

Lemma wp_resolveVMStructs s rows (Q : unit -> vm -> Prop) :
  vm_wf s -> struct_table s (var "gHotSpotVMStructs" s) rows -> Z.of_nat (length rows) < 2 ^ 64 ->
  (forall s', vm_wf s' -> vars s' = vars s -> types_ s' = types_ s ->
     (forall t n, find_field s' t n = found_or (find_field s t n) (first_row rows t n)) -> Q tt s') ->
  wp (resolveVMStructs m) s Q.
Proof.
  intros Hwf Ht Hlen HQ. destruct (struct_loop s _ rows Hwf Ht) as (s' & He & Hwf' & Hv & Hty & Hf).
  unfold resolveVMStructs. eapply wp_act; [|by apply (HQ s')].
  by rewrite (loop_exits _ 64 _ _ _ He (pow64_nat _ Hlen)).
Qed.

(** [resolveVMStructs] reads the whole table.  From a table of any length
    laid out in memory it terminates, and afterwards every field of every type
    is found with the description of its first row: for a static field the
    address of its storage, otherwise its offset in the structure; what was
    known before stays. *)
Theorem resolve_structs_reads_table s rows :
  vm_wf s -> struct_table s (var "gHotSpotVMStructs" s) rows -> Z.of_nat (length rows) < 2 ^ 64 ->
  wp (resolveVMStructs m) s (fun _ s' => vm_wf s' /\ vars s' = vars s /\
    forall t n, find_field s' t n = found_or (find_field s t n) (first_row rows t n)).
Proof.
  intros Hwf Ht Hlen. by eapply wp_resolveVMStructs.
Qed.

(** ** The table of types *)

(** A row of the table of types: its name and its description, without the
    fields. *)
Definition type_row : Type := string * VMTypeEntry.

Record type_row_at (s : vm) (a : Z) (r : type_row) : Prop := {
  at_tname : load64 m (a + var "gHotSpotVMTypeEntryTypeNameOffset" s) = Some (typeName r.2);
  at_super : load64 m (a + var "gHotSpotVMTypeEntrySuperclassNameOffset" s) = Some (superclassName r.2);
  at_oop : load32 m (a + var "gHotSpotVMTypeEntryIsOopTypeOffset" s) = Some (isOopType r.2);
  at_integer : load32 m (a + var "gHotSpotVMTypeEntryIsIntegerTypeOffset" s) = Some (isIntegerType r.2);
  at_unsigned : load32 m (a + var "gHotSpotVMTypeEntryIsUnsignedOffset" s) = Some (isUnsigned r.2);
  at_vtsize : load64 m (a + var "gHotSpotVMTypeEntrySizeOffset" s) = Some (vt_size r.2);
  at_tname_str : typeName r.2 <> 0 /\ cstr m (typeName r.2) = Some r.1;
  at_no_fields : vt_fields r.2 = None;
}.

Inductive type_table (s : vm) : Z -> list type_row -> Prop :=
  | type_table_end a :
      load64 m (a + var "gHotSpotVMTypeEntryTypeNameOffset" s) = Some 0 -> type_table s a []
  | type_table_row a r rows :
      type_row_at s a r -> type_table s (a + var "gHotSpotVMTypeEntryArrayStride" s) rows ->
      type_table s a (r :: rows).

Lemma read_type_row s a r : type_row_at s a r -> read_type m s a = Some (inr r).
Proof.
  intros [H1 H2 H3 H4 H5 H6 [H7 H8] H9]. unfold read_type. loads H1.
  rewrite (proj2 (Z.eqb_neq _ _)) by done. loads H2, H3, H4, H5. loads H6, H8.
  destruct r as [n [] ]. cbn in *. by rewrite H9.
Qed.

Lemma type_table_vars s s' a rows : vars s' = vars s -> type_table s a rows -> type_table s' a rows.
Proof.
  intros E. assert (Hv : forall n, var n s' = var n s) by (intros n; unfold var; by rewrite E).
  induction 1 as [a H1|a r rows Hr _ IH].
  - apply type_table_end. by rewrite Hv.
  - apply type_table_row; [|by rewrite Hv]. destruct Hr. split; rewrite ?Hv; done.
Qed.

Lemma type_loop s a rows :
  type_table s a rows ->
  exits (type_step m) (length rows) (a, s) (Val tt (foldl (fun s r => add_type r s) s rows)).
Proof.
  revert s a; induction rows as [|r rows IH]; intros s a Ht; inversion Ht as [? H1|? ? ? Hr Hrows];
    simplify_eq; cbn [foldl length].
  - apply exits_now. unfold type_step, read_type. by loads H1.
  - eapply exits_later; [unfold type_step; by rewrite (read_type_row _ _ _ Hr)|].
    apply IH. by apply (type_table_vars s).
Qed.

(** The description of a field of a resolved type. *)
Definition type_field (s : vm) (type name : string) : option Field :=
  t ← types_ s !! type;
  l ← vt_fields t;
  fields ← cells (field_maps s) !! l;
  fields !! name.

Lemma add_types s rows :
  let s' := foldl (fun s r => add_type r s) s rows in
  vars s' = vars s /\ field_maps s' = field_maps s /\
  (forall t, mjoin (vm_structs_ s' !! t) = mjoin (vm_structs_ s !! t)) /\
  (forall t, t ∈ rows.*1 -> exists d r, (t, r) ∈ rows /\ types_ s' !! t = Some d /\
     vt_size d = vt_size r /\ vt_fields d = mjoin (vm_structs_ s !! t)) /\
  (forall t, t ∉ rows.*1 -> types_ s' !! t = types_ s !! t).
Proof.
  revert s; induction rows as [|[n r] rows IH]; intros s; cbn [foldl]; [split_and!; [done..|set_solver|done]|].
  set (s1 := add_type (n, r) s). specialize (IH s1) as (Hv & Hm & Hs & Ht & Hn).
  assert (Hs1 : forall t, mjoin (vm_structs_ s1 !! t) = mjoin (vm_structs_ s !! t)).
  { intros t. unfold s1, add_type; cbn [vm_structs_ fst]. destruct (vm_structs_ s !! n) eqn:E; [done|].
    destruct (decide (t = n)) as [->|Hne]; [by rewrite lookup_insert_eq, E|].
    by rewrite lookup_insert_ne. }
  split; [by rewrite Hv|]. split; [by rewrite Hm|]. split; [by intros; rewrite Hs|]. split.
  - intros t Hin. destruct (decide (t ∈ rows.*1)) as [Hr|Hr].
    + destruct (Ht t Hr) as (d & r' & H1 & H2 & H3 & H4). exists d, r'. split_and!; [by right|done..|].
      by rewrite H4.
    + rewrite fmap_cons, elem_of_cons in Hin. destruct Hin as [->|?]; [|done]. cbn [fst].
      rewrite (Hn n Hr). unfold s1 at 1, add_type at 1; cbn [types_ fst snd].
      eexists _, r. split; [by left|]. rewrite lookup_insert_eq. split; [done|]. split; [done|].
      cbn [vt_fields]. rewrite <- (Hs1 n). unfold s1, add_type; cbn [vm_structs_ fst].
      by destruct (_ !! n) as [[]|].
  - intros t Hin. rewrite fmap_cons, not_elem_of_cons in Hin. destruct Hin as [Hne Hin].
    rewrite (Hn t Hin). unfold s1, add_type; cbn [types_ fst]. by rewrite lookup_insert_ne.
Qed.

(** After [resolveVMTypes], every type of the table has the fields that
    [resolveVMStructs] found for it. *)
Lemma wp_resolveVMTypes s rows :
  type_table s (var "gHotSpotVMTypes" s) rows -> Z.of_nat (length rows) < 2 ^ 64 ->
  wp (resolveVMTypes m) s (fun _ s' =>
    (forall t f, find_field s' t f = find_field s t f) /\
    (forall t f, t ∈ rows.*1 -> type_field s' t f = find_field s t f) /\
    (forall t, t ∈ rows.*1 -> exists d r, (t, r) ∈ rows /\ types_ s' !! t = Some d /\
       vt_size d = vt_size r) /\
    (forall t, t ∉ rows.*1 -> types_ s' !! t = types_ s !! t)).
Proof.
  intros Ht Hlen. unfold resolveVMTypes. pose proof (type_loop _ _ _ Ht) as He.
  eapply wp_act; [by rewrite (loop_exits _ 64 _ _ _ He (pow64_nat _ Hlen))|].
  destruct (add_types s rows) as (_ & Hm & Hs & Hty & Hn). split_and!; [| | |exact Hn].
  - intros t f. unfold find_field. by rewrite Hs, Hm.
  - intros t f Hin. destruct (Hty t Hin) as (d & r & _ & Hd & _ & Hfs).
    unfold type_field, find_field. rewrite Hd, Hm. cbn. by rewrite Hfs.
  - intros t Hin. destruct (Hty t Hin) as (d & r & Hr & Hd & Hsz & _). by exists d, r.
Qed.
End tables.

(** ** A small table *)

(** Zero-padded words of a string. *)
Definition word_of_string (s : string) : Z := foldr (fun b w => b + 256 * w) 0 (bytes_of_string s).

(** Three rows of a table at 4096 and the null row, with the layout HotSpot
    uses, then the strings. *)
Definition demo_tables : mem := words_at 4096
  [4288; 4296; 0; 0; 16; 0;
   4288; 4304; 0; 1; 0; 512;
   4288; 4296; 0; 0; 99; 0;
   0; 0; 0; 0; 0; 0;
   word_of_string "Method"; word_of_string "_flags"; word_of_string "_count"].

Definition demo_vm : vm := MkVM
  (list_to_map [("gHotSpotVMStructs", 4096); ("gHotSpotVMStructEntryTypeNameOffset", 0);
    ("gHotSpotVMStructEntryFieldNameOffset", 8); ("gHotSpotVMStructEntryTypeStringOffset", 16);
    ("gHotSpotVMStructEntryIsStaticOffset", 24); ("gHotSpotVMStructEntryOffsetOffset", 32);
    ("gHotSpotVMStructEntryAddressOffset", 40); ("gHotSpotVMStructEntryArrayStride", 48)])
  heap_empty ∅ ∅.

Definition demo_rows : list struct_row :=
  [MkRow "Method" "_flags" 0 16 0 4288 4296 0; MkRow "Method" "_count" 1 0 512 4288 4304 0;
   MkRow "Method" "_flags" 0 99 0 4288 4296 0].

Lemma demo_struct_table : struct_table demo_tables demo_vm 4096 demo_rows.
Proof.
  do 3 (apply struct_table_row; [split; vm_compute; try reflexivity; by split|]).
  by eapply struct_table_end; [vm_compute; reflexivity|vm_compute; reflexivity|left].
Qed.

Lemma resolve_structs_reads_table_witness :
  wp (resolveVMStructs demo_tables) demo_vm (fun _ s' =>
    offset <$> find_field s' "Method" "_flags" = Some 16 /\
    offset <$> find_field s' "Method" "_count" = Some 512 /\
    find_field s' "Method" "_name" = None).
Proof.
  eapply wp_mono; [|apply (resolve_structs_reads_table demo_tables demo_vm demo_rows)].
  - intros _ s' (_ & _ & H). by rewrite !H.
  - split; [apply heap_wf_empty|by intros ? ? ?|by intros ? ? ? ?].
  - exact demo_struct_table.
  - done.
Defined.
