(* ===== verification/CodeCache.v ===== *)
(** * The code cache (vm/jvmCodeCache.h, vm/jvmCodeCache.cpp)

    From the field offsets that [VmStructs] resolved, [JVMCodeCache] answers
    whether an address is in generated code, and which method generated code
    belongs to, by reading HotSpot's heaps of code in memory.  It implements
    the [CodeCacheAPI] the unwinders use. *)

From S2P Require Import Prelude Memory Unwind UnwindSpec PointerValidation VmStructs.
From Stdlib Require Import ZArith Lia.
From stdpp Require Import base gmap list strings numbers.
Local Open Scope Z_scope.
Local Open Scope kt_scope.

(** The [Field]s, of which only the offset is used, and the addresses. *)
Record JVMCodeCache := MkCache {
  compiledMethodFiled : Z;
  constMethodField : Z;
  constantsField : Z;
  methodIdNumField : Z;
  poolHolderField : Z;
  jmethodIdsField : Z;
  codeBlobNameField : Z;
  memoryField : Z;
  segmapField : Z;
  log2SegmentSizeField : Z;
  lowField : Z;
  highField : Z;
  heaps : Z;
  heaps_data : Z;
  heaps_length : Z;
  heap_block_type_size : Z;
}.

(** ** The constructor *)

Definition not_found (key : string) : exn := Runtime_error (key ++ " not found in vm structs")%string.

(** [getIfContains(types, key)]. *)
Definition getType (key : string) : prog vm VMTypeEntry :=
  act (fun s => match types_ s !! key with Some t => Val t s | None => Exc (not_found key) s end).

Definition containsType (key : string) : prog vm bool :=
  reads (fun s => bool_decide (is_Some (types_ s !! key))).

(** [getIfContains( *type.fields, key)->offset]; a type without fields has a
    null pointer there. *)
Definition getField (t : VMTypeEntry) (key : string) : prog vm Z :=
  act (fun s =>
    match vt_fields t ≫= (fun l => cells (field_maps s) !! l) with
    | None => Undef "null pointer dereference"
    | Some fields =>
        match fields !! key with
        | Some f => Val (offset f) s
        | None => Exc (not_found key) s
        end
    end).

(** The structure that holds the method of compiled code has had two names. *)
Definition compiled_type (has_compiled_method : bool) : string :=
  if has_compiled_method then "CompiledMethod" else "nmethod".

Definition make_code_cache (m : mem) : prog vm JVMCodeCache :=
  has ← containsType "CompiledMethod";
  compiledMethodType ← getType (compiled_type has);
  compiledMethod ← getField compiledMethodType "_method";
  methodType ← getType "Method";
  constMethod ← getField methodType "_constMethod";
  constMethodType ← getType "ConstMethod";
  constants ← getField constMethodType "_constants";
  methodIdNum ← getField constMethodType "_method_idnum";
  constantPoolType ← getType "ConstantPool";
  poolHolder ← getField constantPoolType "_pool_holder";
  instanceKlassType ← getType "InstanceKlass";
  jmethodIds ← getField instanceKlassType "_methods_jmethod_ids";
  growableArrayBaseType ← getType "GrowableArrayBase";
  codeBlobType ← getType "CodeBlob";
  codeBlobName ← getField codeBlobType "_name";
  growableArrayType ← getType "GrowableArray<int>";
  codeHeapType ← getType "CodeHeap";
  memory ← getField codeHeapType "_memory";
  segmap ← getField codeHeapType "_segmap";
  log2SegmentSize ← getField codeHeapType "_log2_segment_size";
  virtualSpaceType ← getType "VirtualSpace";
  low ← getField virtualSpaceType "_low";
  high ← getField virtualSpaceType "_high";
  codeCacheType ← getType "CodeCache";
  heaps_offset ← getField codeCacheType "_heaps";
  data_offset ← getField growableArrayType "_data";
  heaps ← from_mem (load64 m heaps_offset);
  heaps_data ← from_mem (load64 m (u64 (heaps + data_offset)));
  len_offset ← getField growableArrayBaseType "_len";
  heapBlockType ← getType "HeapBlock";
  mret (MkCache compiledMethod constMethod constants methodIdNum poolHolder jmethodIds codeBlobName
    memory segmap log2SegmentSize low high heaps heaps_data (u64 (heaps + len_offset))
    (vt_size heapBlockType)).

(** ** Lookups *)

Section cache.
Context (m : mem) (is_valid : Z -> bool) (cc : JVMCodeCache).

(** The loop of [isJavaFrame] from index [i], for [n] more heaps. *)
Fixpoint java_frame_loop (n : nat) (i instruction_pointer : Z) : option bool :=
  match n with
  | O => Some false
  | S n =>
      heap_ptr ← load64 m (u64 (heaps_data cc + 8 * i));
      let memory_ptr := u64 (heap_ptr + memoryField cc) in
      low ← load64 m (u64 (memory_ptr + lowField cc));
      high ← load64 m (u64 (memory_ptr + highField cc));
      if (low <=? instruction_pointer) && (instruction_pointer <? high) then Some true
      else java_frame_loop n (i + 1) instruction_pointer
  end.

Definition cc_isJavaFrame (instruction_pointer : Z) : option bool :=
  len ← load32 m (heaps_length cc);
  java_frame_loop (Z.to_nat len) 0 instruction_pointer.

(** One step along the segment map: a positive entry is a distance back to
    the start of the block, or towards it. *)
Definition segment_step (seg_map : Z) (seg_idx : Z) : Z + option Z :=
  match load8 m (u64 (seg_map + seg_idx)) with
  | None => inr None
  | Some b => if b >? 0 then inl (u64 (seg_idx - b)) else inr (Some seg_idx)
  end.

Definition find_block (seg_map seg_idx : Z) : option Z :=
  match loop 64 (segment_step seg_map) seg_idx with inr r => r | inl _ => None end.

(** [jmethodIds[idnum + 1]] when the cache is there and long enough. *)
Definition lookup_id (jmethodIds idnum : Z) : option Z :=
  if jmethodIds =? 0 then Some 0
  else
    count ← load64 m jmethodIds;
    if count >? idnum then load64 m (u64 (jmethodIds + 8 * (idnum + 1))) else Some 0.

(** The branch of the interpreter: the method is in the frame, three words
    below the frame pointer, and every pointer is validated first. *)
Definition interpreted_id (frame_pointer : Z) : option Z :=
  if negb (is_valid frame_pointer) then Some 0 else
  method_ptr ← load64 m (u64 (frame_pointer - 24));
  if negb (is_valid method_ptr) then Some 0 else
  constMethod_ptr ← load64 m (u64 (method_ptr + constMethodField cc));
  if negb (is_valid constMethod_ptr) then Some 0 else
  idnum ← load16 m (u64 (constMethod_ptr + methodIdNumField cc));
  constantPool_ptr ← load64 m (u64 (constMethod_ptr + constantsField cc));
  if negb (is_valid constantPool_ptr) then Some 0 else
  poolHolder_ptr ← load64 m (u64 (constantPool_ptr + poolHolderField cc));
  if negb (is_valid poolHolder_ptr) then Some 0 else
  if negb (is_valid (u64 (poolHolder_ptr + jmethodIdsField cc))) then Some 0 else
  jmethodIds ← load64 m (u64 (poolHolder_ptr + jmethodIdsField cc));
  id ← lookup_id jmethodIds idnum;
  if negb (is_valid id) then Some 0 else Some id.

(** The branch of compiled code: the method is in the block. *)
Definition compiled_id (heapBlockAddr : Z) : option Z :=
  method_ptr ← load64 m (u64 (heapBlockAddr + compiledMethodFiled cc));
  constMethod_ptr ← load64 m (u64 (method_ptr + constMethodField cc));
  idnum ← load16 m (u64 (constMethod_ptr + methodIdNumField cc));
  constantPool_ptr ← load64 m (u64 (constMethod_ptr + constantsField cc));
  poolHolder_ptr ← load64 m (u64 (constantPool_ptr + poolHolderField cc));
  jmethodIds ← load64 m (u64 (poolHolder_ptr + jmethodIdsField cc));
  lookup_id jmethodIds idnum.

(** [strstr(s, sub) != nullptr]. *)
Definition strstr (s sub : string) : bool := if String.index 0 sub s then true else false.

(** The body of the loop for the heap that holds the instruction; [None]
    inside: neither branch, and the loop goes on. *)
Definition id_in_heap (heap_ptr low log2_segment_size instruction_pointer frame_pointer : Z) :
    option (option Z) :=
  seg_map ← load64 m (u64 (u64 (heap_ptr + segmapField cc) + lowField cc));
  if negb ((0 <=? log2_segment_size) && (log2_segment_size <? 64)) then None else
  seg_idx ← find_block seg_map (Z.shiftr (u64 (instruction_pointer - low)) log2_segment_size);
  let heapBlockAddr :=
    u64 (low + u64 (Z.shiftl seg_idx log2_segment_size) + heap_block_type_size cc) in
  name_ptr ← load64 m (u64 (heapBlockAddr + codeBlobNameField cc));
  codeBlobName ← cstr m name_ptr;
  if bool_decide (codeBlobName = "Interpreter") then Some <$> interpreted_id frame_pointer
  else if strstr codeBlobName "nmethod" then Some <$> compiled_id heapBlockAddr
  else Some None.

Fixpoint method_loop (n : nat) (i instruction_pointer frame_pointer : Z) : option Z :=
  match n with
  | O => Some 0
  | S n =>
      heap_ptr ← load64 m (u64 (heaps_data cc + 8 * i));
      let memory_ptr := u64 (heap_ptr + memoryField cc) in
      log2_segment_size ← load32 m (u64 (heap_ptr + log2SegmentSizeField cc));
      low ← load64 m (u64 (memory_ptr + lowField cc));
      high ← load64 m (u64 (memory_ptr + highField cc));
      if (low <=? instruction_pointer) && (instruction_pointer <? high) then
        r ← id_in_heap heap_ptr low log2_segment_size instruction_pointer frame_pointer;
        match r with
        | Some id => Some id
        | None => method_loop n (i + 1) instruction_pointer frame_pointer
        end
      else method_loop n (i + 1) instruction_pointer frame_pointer
  end.

Definition cc_getJMethodId (instruction_pointer frame_pointer : Z) : option Z :=
  if negb (is_valid frame_pointer) then Some 0
  else
    len ← load32 m (heaps_length cc);
    method_loop (Z.to_nat len) 0 instruction_pointer frame_pointer.

(** [JVM::isJavaFrame] and [JVM::getJMethodId]. *)
Definition jvm_code_cache : CodeCacheAPI := {|
  isJavaFrame := cc_isJavaFrame;
  getJMethodId := cc_getJMethodId;
|}.

End cache.
