(* ===== verification/CodeCacheSpec.v ===== *)
(** * What the code cache finds

    The representation of HotSpot's code heaps in memory, and the answers of
    [JVMCodeCache] on it: which addresses are generated code, and the method an
    address belongs to.  On a cache laid out as HotSpot does, every question
    about a frame whose method is where the interpreter keeps it has an answer,
    so the unwinders never leave mapped memory; a frame that holds something
    else can lead them out of it. *)

From S2P Require Import Prelude Memory TraceTime TraceModel Unwind UnwindSpec PointerValidation.
From S2P Require Import VmStructs CodeCache.
From Stdlib Require Import ZArith Lia.
From stdpp Require Import base gmap list strings numbers.
Local Open Scope Z_scope.
Local Open Scope kt_scope.

Record code_heap := MkHeap {
  h_ptr : Z;
  h_low : Z;
  h_high : Z;
  h_log2 : Z;
  h_segmap : Z;
}.

Definition covers (ip : Z) (h : code_heap) : bool := (h_low h <=? ip) && (ip <? h_high h).

Section spec.
Context (m : mem) (is_valid : Z -> bool) (cc : JVMCodeCache).

(** A heap's descriptor in memory. *)
Record heap_at (h : code_heap) : Prop := {
  at_low : load64 m (u64 (u64 (h_ptr h + memoryField cc) + lowField cc)) = Some (h_low h);
  at_high : load64 m (u64 (u64 (h_ptr h + memoryField cc) + highField cc)) = Some (h_high h);
  at_log2 : load32 m (u64 (h_ptr h + log2SegmentSizeField cc)) = Some (h_log2 h);
  at_segmap : load64 m (u64 (u64 (h_ptr h + segmapField cc) + lowField cc)) = Some (h_segmap h);
  at_bounds : 0 <= h_low h /\ h_high h <= 2 ^ 64 /\ 0 <= h_log2 h < 64;
}.

(** The growable array of heaps, from index [i]. *)
Inductive heap_array : Z -> list code_heap -> Prop :=
  | heap_array_nil i : heap_array i []
  | heap_array_cons i h hs :
      load64 m (u64 (heaps_data cc + 8 * i)) = Some (h_ptr h) -> heap_at h ->
      heap_array (i + 1) hs -> heap_array i (h :: hs).

Definition heaps_at (hs : list code_heap) : Prop :=
  load32 m (heaps_length cc) = Some (Z.of_nat (length hs)) /\ heap_array 0 hs.

Lemma java_frame_heaps i hs ip :
  heap_array i hs -> java_frame_loop m cc (length hs) i ip = Some (existsb (covers ip) hs).
Proof.
  induction 1 as [i|i h hs Hp [H1 H2 _ _ _] _ IH]; [done|]. cbn [length java_frame_loop existsb].
  loads Hp. cbv zeta. loads H1, H2. unfold covers at 1. by destruct (_ && _).
Qed.

(** C31: [isJavaFrame] is true exactly of the addresses in one of the code
    heaps, however many there are. *)
Theorem isJavaFrame_correct hs ip :
  heaps_at hs -> cc_isJavaFrame m cc ip = Some (existsb (covers ip) hs).
Proof.
  intros [Hl Ha]. unfold cc_isJavaFrame. loads Hl. rewrite Nat2Z.id. by apply java_frame_heaps.
Qed.

(** ** The block of an instruction *)

(** Segment [b] starts a block and the segments up to [i] lead back to it: an
    entry never points before the start of its block. *)
Definition segment_chain (seg_map b i : Z) : Prop :=
  0 <= b <= i /\ i < 2 ^ 64 /\ load8 m (u64 (seg_map + b)) = Some 0 /\
  forall j, b < j <= i -> exists d, load8 m (u64 (seg_map + j)) = Some d /\ 1 <= d <= j - b.

Lemma segment_exits seg_map b i :
  segment_chain seg_map b i ->
  exists n, exits (segment_step m seg_map) n i (Some b) /\ Z.of_nat n <= i - b.
Proof.
  intros (Hb & Hi & H0 & Hc). remember (Z.to_nat (i - b)) as k eqn:Hk.
  revert i Hb Hi Hc Hk; induction k as [k IH] using lt_wf_ind; intros i Hb Hi Hc ->.
  destruct (decide (i = b)) as [->|Hne].
  - exists 0%nat. split; [|lia]. apply exits_now. unfold segment_step. by rewrite H0.
  - destruct (Hc i) as (d & Hd & Hr); [lia|].
    destruct (IH (Z.to_nat (i - d - b)) ltac:(lia) (i - d)) as (n & He & Hn); [lia|lia| |done|].
    { intros j Hj. apply Hc. lia. }
    exists (S n). split; [|lia]. eapply exits_later; [|exact He].
    unfold segment_step. rewrite Hd. replace (d >? 0) with true by lia.
    by rewrite wrapu_small by (unfold in_u; lia).
Qed.

Lemma find_block_chain seg_map b i :
  segment_chain seg_map b i -> find_block m seg_map i = Some b.
Proof.
  intros H. destruct (segment_exits _ _ _ H) as (n & He & Hn). unfold find_block.
  rewrite (loop_exits _ 64 _ _ _ He); [done|]. apply pow64_nat. destruct H. lia.
Qed.

(** ** Methods *)

(** The metadata of a method: its constant part, its number, the constant
    pool, the class and the class's cache of identifiers, which holds [id]. *)
Record method_id (constMethod_ptr idnum constantPool_ptr poolHolder_ptr : Z)
    (method_ptr id : Z) : Prop := {
  id_const : load64 m (u64 (method_ptr + constMethodField cc)) = Some constMethod_ptr;
  id_num : load16 m (u64 (constMethod_ptr + methodIdNumField cc)) = Some idnum;
  id_pool : load64 m (u64 (constMethod_ptr + constantsField cc)) = Some constantPool_ptr;
  id_holder : load64 m (u64 (constantPool_ptr + poolHolderField cc)) = Some poolHolder_ptr;
  id_cached : exists ids count,
    load64 m (u64 (poolHolder_ptr + jmethodIdsField cc)) = Some ids /\ ids <> 0 /\
    load64 m ids = Some count /\ idnum < count /\ load64 m (u64 (ids + 8 * (idnum + 1))) = Some id;
}.

Lemma lookup_cached ids count idnum id :
  ids <> 0 -> load64 m ids = Some count -> idnum < count ->
  load64 m (u64 (ids + 8 * (idnum + 1))) = Some id -> lookup_id m ids idnum = Some id.
Proof.
  intros Hz Hc Hlt Hid. unfold lookup_id. rewrite (proj2 (Z.eqb_neq _ _)) by done. loads Hc.
  by replace (count >? idnum) with true by lia.
Qed.

(** What identifies the method at an instruction: compiled code belongs to
    the method its block names, interpreted code to the method the frame
    holds, whose pointers the code validates. *)
Inductive code_method (name : string) (block fp : Z) : Z -> Prop :=
  | compiled_code method_ptr cm num cp ph id :
      name <> "Interpreter" -> strstr name "nmethod" = true ->
      load64 m (u64 (block + compiledMethodFiled cc)) = Some method_ptr ->
      method_id cm num cp ph method_ptr id -> code_method name block fp id
  | interpreted_code method_ptr cm num cp ph id :
      name = "Interpreter" -> load64 m (u64 (fp - 24)) = Some method_ptr ->
      method_id cm num cp ph method_ptr id ->
      Forall (fun p => is_valid p = true)
        [method_ptr; cm; cp; ph; u64 (ph + jmethodIdsField cc); id] -> code_method name block fp id.

Lemma compiled_found block method_ptr cm num cp ph id :
  load64 m (u64 (block + compiledMethodFiled cc)) = Some method_ptr ->
  method_id cm num cp ph method_ptr id -> compiled_id m cc block = Some id.
Proof.
  intros Hm [H1 H2 H3 H4 (ids & count & H5 & H6 & H7 & H8 & H9)]. unfold compiled_id.
  loads Hm, H1, H2, H3. loads H4, H5. by eapply lookup_cached.
Qed.

Lemma interpreted_found fp method_ptr cm num cp ph id :
  is_valid fp = true -> load64 m (u64 (fp - 24)) = Some method_ptr ->
  method_id cm num cp ph method_ptr id ->
  Forall (fun p => is_valid p = true)
    [method_ptr; cm; cp; ph; u64 (ph + jmethodIdsField cc); id] ->
  interpreted_id m is_valid cc fp = Some id.
Proof.
  intros Hfp Hm [H1 H2 H3 H4 (ids & count & H5 & H6 & H7 & H8 & H9)] Hv.
  rewrite !list.Forall_cons in Hv. destruct Hv as (V1 & V2 & V3 & V4 & V5 & V6 & _).
  unfold interpreted_id. rewrite Hfp; cbn [negb]. loads Hm. rewrite V1; cbn [negb].
  loads H1. rewrite V2; cbn [negb]. loads H2, H3. rewrite V3; cbn [negb]. loads H4.
  rewrite V4; cbn [negb]. rewrite V5; cbn [negb]. loads H5.
  loads (lookup_cached _ _ _ _ H6 H7 H8 H9). by rewrite V6.
Qed.

(** The block with the given start segment in a heap. *)
Definition block_at (h : code_heap) (b : Z) : Z :=
  u64 (h_low h + Z.shiftl b (h_log2 h) + heap_block_type_size cc).

Definition segment_of (h : code_heap) (ip : Z) : Z := Z.shiftr (ip - h_low h) (h_log2 h).

Lemma shiftl_segment h ip b :
  heap_at h -> covers ip h = true -> 0 <= b <= segment_of h ip ->
  u64 (Z.shiftl b (h_log2 h)) = Z.shiftl b (h_log2 h) /\ u64 (ip - h_low h) = ip - h_low h /\
  segment_of h ip < 2 ^ 64.
Proof.
  intros [_ _ _ _ (Hl & Hh & Hs)] Hc Hb. unfold covers in Hc. unfold segment_of in *.
  rewrite Z.shiftr_div_pow2 in * by lia. rewrite Z.shiftl_mul_pow2 by lia.
  assert (Hp : 0 < 2 ^ h_log2 h) by (apply Z.pow_pos_nonneg; lia).
  pose proof (Z.mul_div_le (ip - h_low h) (2 ^ h_log2 h) Hp).
  assert (Hle : (ip - h_low h) / 2 ^ h_log2 h <= ip - h_low h)
    by (apply Z.div_le_upper_bound; [done|]; nia).
  split; [apply wrapu_small; unfold in_u; nia|]. split; [apply wrapu_small; unfold in_u; lia|]. lia.
Qed.

Lemma id_in_heap_found h ip fp b np name id :
  heap_at h -> covers ip h = true -> is_valid fp = true ->
  segment_chain (h_segmap h) b (segment_of h ip) ->
  load64 m (u64 (block_at h b + codeBlobNameField cc)) = Some np -> cstr m np = Some name ->
  code_method name (block_at h b) fp id ->
  id_in_heap m is_valid cc (h_ptr h) (h_low h) (h_log2 h) ip fp = Some (Some id).
Proof.
  intros Hh Hc Hfp Hseg Hnp Hname Hm. pose proof (at_bounds h Hh) as (_ & _ & Hlog).
  destruct (shiftl_segment h ip b Hh Hc) as (Hu1 & Hu2 & _); [by destruct Hseg|].
  unfold id_in_heap. loads (at_segmap h Hh).
  replace (negb _) with false by lia. rewrite Hu2. fold (segment_of h ip).
  loads (find_block_chain _ _ _ Hseg). cbv zeta. rewrite Hu1. fold (block_at h b).
  loads Hnp, Hname.
  destruct Hm as [mp cm num cp ph id Hne Hstr Hload Hid|mp cm num cp ph id -> Hload Hid Hv].
  - rewrite bool_decide_eq_false_2 by done. rewrite Hstr.
    by rewrite (compiled_found _ _ _ _ _ _ _ Hload Hid).
  - rewrite bool_decide_eq_true_2 by done.
    by rewrite (interpreted_found _ _ _ _ _ _ _ Hfp Hload Hid Hv).
Qed.

Lemma method_loop_found i before h after ip fp id :
  heap_array i (before ++ h :: after) -> Forall (fun g => covers ip g = false) before ->
  covers ip h = true ->
  (heap_at h -> id_in_heap m is_valid cc (h_ptr h) (h_low h) (h_log2 h) ip fp = Some (Some id)) ->
  method_loop m is_valid cc (length (before ++ h :: after)) i ip fp = Some id.
Proof.
  intros Ha Hb Hc Hid. revert i Ha; induction Hb as [|g before Hg _ IH]; intros i Ha;
    inversion Ha as [|? ? ? Hp Hh Hr]; simplify_eq; cbn [app length method_loop];
    (loads Hp; cbv zeta; loads (at_log2 _ Hh), (at_low _ Hh), (at_high _ Hh)).
  - unfold covers in Hc. rewrite Hc. by loads (Hid Hh).
  - unfold covers in Hg. rewrite Hg. by apply IH.
Qed.

(** C22: [getJMethodId] finds the method an instruction belongs to.  For an
    address in a code heap whose segment map leads back to the start of a
    block, it returns the [jmethodID] of the method the block was compiled
    from, or, in the interpreter, of the method the frame is executing. *)
Theorem getJMethodId_finds_method before h after ip fp b np name id :
  heaps_at (before ++ h :: after) -> Forall (fun g => covers ip g = false) before ->
  covers ip h = true -> is_valid fp = true -> segment_chain (h_segmap h) b (segment_of h ip) ->
  load64 m (u64 (block_at h b + codeBlobNameField cc)) = Some np -> cstr m np = Some name ->
  code_method name (block_at h b) fp id ->
  cc_getJMethodId m is_valid cc ip fp = Some id.
Proof.
  intros [Hl Ha] Hb Hc Hfp Hseg Hnp Hname Hm. unfold cc_getJMethodId. rewrite Hfp; cbn [negb].
  loads Hl. rewrite Nat2Z.id. eapply method_loop_found; [done..|].
  intros Hh. by eapply id_in_heap_found.
Qed.

(** ** Every question has an answer *)

(** The identifiers a class holds can be read. *)
Definition ids_readable (poolHolder_ptr : Z) : Prop :=
  exists ids, load64 m (u64 (poolHolder_ptr + jmethodIdsField cc)) = Some ids /\
    (ids <> 0 -> exists count, load64 m ids = Some count /\
      forall k, 0 <= k < count -> is_Some (load64 m (u64 (ids + 8 * (k + 1))))).

(** The metadata of a method can be read. *)
Definition method_readable (method_ptr : Z) : Prop :=
  exists cm num cp ph,
    load64 m (u64 (method_ptr + constMethodField cc)) = Some cm /\
    load16 m (u64 (cm + methodIdNumField cc)) = Some num /\ 0 <= num /\
    load64 m (u64 (cm + constantsField cc)) = Some cp /\
    load64 m (u64 (cp + poolHolderField cc)) = Some ph /\ ids_readable ph.

(** A block start of a heap: its name can be read, and the method of compiled
    code. *)
Definition block_readable (h : code_heap) (b : Z) : Prop :=
  exists np name, load64 m (u64 (block_at h b + codeBlobNameField cc)) = Some np /\
    cstr m np = Some name /\
    (strstr name "nmethod" = true ->
     exists mp, load64 m (u64 (block_at h b + compiledMethodFiled cc)) = Some mp /\ method_readable mp).

Record cache_ok (hs : list code_heap) : Prop := {
  ok_heaps : heaps_at hs;
  (** no entry of a segment map points before the heap *)
  ok_segments : forall h ip, h ∈ hs -> covers ip h = true ->
    exists d, load8 m (u64 (h_segmap h + segment_of h ip)) = Some d /\ 0 <= d <= segment_of h ip;
  ok_blocks : forall h ip, h ∈ hs -> covers ip h = true ->
    load8 m (u64 (h_segmap h + segment_of h ip)) = Some 0 -> block_readable h (segment_of h ip);
}.

(** The instruction is in the block of the interpreter. *)
Definition in_interpreter (hs : list code_heap) (ip : Z) : Prop :=
  exists h b np, h ∈ hs /\ covers ip h = true /\
    find_block m (h_segmap h) (segment_of h ip) = Some b /\
    load64 m (u64 (block_at h b + codeBlobNameField cc)) = Some np /\
    cstr m np = Some "Interpreter".

(** The slot of an interpreter's frame holds a method, or a word the
    validation rejects. *)
Definition slot_ok (fp : Z) : Prop :=
  exists mp, load64 m (u64 (fp - 24)) = Some mp /\ (is_valid mp = false \/ method_readable mp).

(** The frames of the interpreter, as far as the code looks at them. *)
Definition frame_ok (hs : list code_heap) (f : Z * Z) : Prop :=
  in_interpreter hs f.1 -> is_valid f.2 = true -> slot_ok f.2.

Lemma lookup_readable ph num :
  0 <= num -> ids_readable ph ->
  exists ids id, load64 m (u64 (ph + jmethodIdsField cc)) = Some ids /\ lookup_id m ids num = Some id.
Proof.
  intros Hn (ids & Hids & Hc). exists ids. unfold lookup_id.
  destruct (Z.eqb_spec ids 0) as [->|Hne]; [by exists 0|].
  destruct (Hc Hne) as (count & Hcount & Hk).
  destruct (Z_lt_ge_dec num count) as [Hlt|Hge].
  - destruct (Hk num) as [id Hid]; [lia|]. exists id. split; [done|]. loads Hcount.
    by replace (count >? num) with true by lia.
  - exists 0. split; [done|]. loads Hcount. by replace (count >? num) with false by lia.
Qed.

Lemma compiled_total block mp :
  load64 m (u64 (block + compiledMethodFiled cc)) = Some mp -> method_readable mp ->
  is_Some (compiled_id m cc block).
Proof.
  intros Hm (cm & num & cp & ph & H1 & H2 & H3 & H4 & H5 & H6). unfold compiled_id.
  loads Hm, H1, H2, H4. loads H5. destruct (lookup_readable ph num H3 H6) as (ids & id & H7 & H8).
  loads H7. by exists id.
Qed.

Lemma interpreted_total fp :
  (is_valid fp = true -> slot_ok fp) -> is_Some (interpreted_id m is_valid cc fp).
Proof.
  intros Hs. unfold interpreted_id.
  destruct (is_valid fp) eqn:V0; cbn [negb]; [|by eexists].
  destruct (Hs eq_refl) as (mp & Hm & Hmp). loads Hm.
  destruct (is_valid mp) eqn:V1; cbn [negb]; [|by eexists].
  destruct Hmp as [?|(cm & num & cp & ph & H1 & H2 & Hn & H4 & H5 & H6)]; [done|]. loads H1.
  destruct (is_valid cm); cbn [negb]; [|by eexists]. loads H2, H4.
  destruct (is_valid cp); cbn [negb]; [|by eexists]. loads H5.
  destruct (is_valid ph); cbn [negb]; [|by eexists].
  destruct (is_valid (u64 _)); cbn [negb]; [|by eexists].
  destruct (lookup_readable ph num Hn H6) as (ids & id & H7 & H8). loads H7, H8.
  by destruct (is_valid id); eexists.
Qed.

(** A segment of a heap is the segment of its first address. *)
Lemma segment_start h ip b :
  heap_at h -> covers ip h = true -> 0 <= b <= segment_of h ip ->
  exists ip', covers ip' h = true /\ segment_of h ip' = b.
Proof.
  intros [_ _ _ _ (Hl & Hh & Hs)] Hc Hb. unfold covers in *. unfold segment_of in *.
  rewrite Z.shiftr_div_pow2 in Hb by lia.
  assert (Hp : 0 < 2 ^ h_log2 h) by (apply Z.pow_pos_nonneg; lia).
  pose proof (Z.mul_div_le (ip - h_low h) (2 ^ h_log2 h) Hp).
  exists (h_low h + b * 2 ^ h_log2 h). split; [nia|].
  rewrite Z.shiftr_div_pow2 by lia. replace (_ - h_low h) with (b * 2 ^ h_log2 h) by lia.
  apply Z.div_mul. lia.
Qed.

(** The walk along the segment map ends at the start of a block. *)
Lemma find_block_total hs h ip :
  cache_ok hs -> h ∈ hs -> heap_at h -> covers ip h = true -> 0 <= segment_of h ip ->
  exists b, find_block m (h_segmap h) (segment_of h ip) = Some b /\ 0 <= b <= segment_of h ip /\
    load8 m (u64 (h_segmap h + b)) = Some 0.
Proof.
  intros Hok Hin Hh Hc Hpos.
  destruct (shiftl_segment h ip 0 Hh Hc) as (_ & _ & Hmax); [lia|].
  assert (Hx : forall i, 0 <= i <= segment_of h ip -> exists n b,
    exits (segment_step m (h_segmap h)) n i (Some b) /\ Z.of_nat n <= i /\ 0 <= b <= i /\
    load8 m (u64 (h_segmap h + b)) = Some 0).
  { intros i. remember (Z.to_nat i) as k eqn:Hk. revert i Hk.
    induction k as [k IH] using lt_wf_ind; intros i -> Hi.
    destruct (segment_start h ip i Hh Hc Hi) as (ip' & Hc' & Hs').
    destruct (ok_segments hs Hok h ip' Hin Hc') as (d & Hd & Hr). rewrite Hs' in Hd, Hr.
    destruct (decide (d = 0)) as [->|Hne].
    - exists 0%nat, i. split; [|lia || (split_and!; [lia..|done])].
      apply exits_now. unfold segment_step. by rewrite Hd.
    - destruct (IH (Z.to_nat (i - d)) ltac:(lia) (i - d) eq_refl) as (n & b & He & Hn & Hb & H0); [lia|].
      exists (S n), b. split; [|split_and!; [lia..|done]].
      eapply exits_later; [|exact He]. unfold segment_step. rewrite Hd.
      replace (d >? 0) with true by lia. by rewrite wrapu_small by (unfold in_u; lia). }
  destruct (Hx (segment_of h ip)) as (n & b & He & Hn & Hb & H0); [lia|]. exists b.
  split; [|done]. unfold find_block.
  rewrite (loop_exits _ 64 _ _ _ He); [done|]. apply pow64_nat. lia.
Qed.

Lemma id_in_heap_total hs h ip fp :
  cache_ok hs -> frame_ok hs (ip, fp) -> h ∈ hs -> heap_at h -> covers ip h = true ->
  is_Some (id_in_heap m is_valid cc (h_ptr h) (h_low h) (h_log2 h) ip fp).
Proof.
  intros Hok Hf Hin Hh Hc. pose proof (at_bounds h Hh) as (_ & _ & Hlog).
  assert (Hpos : 0 <= segment_of h ip)
    by (unfold segment_of; apply Z.shiftr_nonneg; unfold covers in Hc; lia).
  destruct (find_block_total hs h ip Hok Hin Hh Hc Hpos) as (b & Hb & Hr & H0).
  destruct (shiftl_segment h ip b Hh Hc Hr) as (Hu1 & Hu2 & _).
  destruct (segment_start h ip b Hh Hc Hr) as (ip' & Hc' & Hs').
  destruct (ok_blocks hs Hok h ip' Hin Hc') as (np & name & Hnp & Hname & Hm); [by rewrite Hs'|].
  rewrite Hs' in *. unfold id_in_heap. loads (at_segmap h Hh).
  replace (negb _) with false by lia. rewrite Hu2. fold (segment_of h ip).
  loads Hb. cbv zeta. rewrite Hu1. fold (block_at h b). loads Hnp, Hname.
  destruct (bool_decide_reflect (name = "Interpreter")) as [->|_].
  - destruct (interpreted_total fp) as [id ->]; [|by eexists].
    apply Hf. by exists h, b, np.
  - destruct (strstr name "nmethod"); [|by eexists].
    destruct (Hm eq_refl) as (mp & Hmp & Hmr). destruct (compiled_total _ _ Hmp Hmr) as [id ->].
    by eexists.
Qed.

Lemma method_loop_total hs i rest ip fp :
  cache_ok hs -> frame_ok hs (ip, fp) -> rest ⊆ hs -> heap_array i rest ->
  is_Some (method_loop m is_valid cc (length rest) i ip fp).
Proof.
  intros Hok Hf Hsub Ha. revert Hsub; induction Ha as [i|i h rest Hp Hh _ IH]; intros Hsub; [by eexists|].
  cbn [length method_loop]. loads Hp. cbv zeta. loads (at_log2 _ Hh), (at_low _ Hh), (at_high _ Hh).
  assert (Hrest : rest ⊆ hs) by set_solver.
  destruct (_ && _) eqn:Hc; [|by apply IH].
  destruct (id_in_heap_total hs h ip fp Hok Hf) as [r Hr]; [set_solver|done|done|].
  loads Hr. destruct r; [by eexists|by apply IH].
Qed.

Lemma code_cache_answers hs f :
  cache_ok hs -> frame_ok hs f -> answers (CC := jvm_code_cache m is_valid cc) f.
Proof.
  intros Hok Hf. pose proof (ok_heaps hs Hok) as [Hl Ha]. destruct f as [ip fp].
  unfold answers; cbn [fst snd isJavaFrame getJMethodId jvm_code_cache]. split; [|intros _].
  - unfold cc_isJavaFrame. loads Hl. rewrite Nat2Z.id, java_frame_heaps by done. by eexists.
  - unfold cc_getJMethodId.
    destruct (is_valid fp); cbn [negb]; [|by eexists]. loads Hl. rewrite Nat2Z.id.
    by eapply method_loop_total.
Qed.

(** C21: unwinding through generated code.  The code heaps, their segment maps
    and the blocks in them are laid out as HotSpot does, and in every frame of
    the interpreter the walk comes to, the slot of the method holds a method,
    or a word the pointer validation rejects; the sampled stack is mapped.  Then the AArch64 unwinder and
    the code cache it consults never read unmapped memory, whatever the
    registers are, and return with the frames of the walk recorded, each with
    the method the cache answers. *)
Theorem unwind_with_code_cache strip lo hi uc hs n t :
  cache_ok hs -> (forall b x, m b = Some x -> 0 <= x < 256) -> stack_ok m strip lo hi ->
  let CC := jvm_code_cache m is_valid cc in
  Forall (frame_ok hs) (unwound (CC := CC) m strip lo hi n uc) ->
  (0 < n)%nat -> Z.of_nat n < 2 ^ 31 -> at_size t = Z.of_nat n -> length (instructions t) = n ->
  wp (unwind_aarch64 (CC := CC) m strip lo hi uc) t (fun _ t' =>
    t' = recorded (CC := CC) (unwound (CC := CC) m strip lo hi n uc) t /\
    0 <= at_size t' <= Z.of_nat n).
Proof.
  intros Hok Hb Hst CC Hf Hn Hmax Hsz Hlen.
  eapply wp_mono; [|apply (wp_unwind_aarch64 m strip lo hi Hst Hb uc n t); try done].
  - intros _ t' ->. split; [done|]. cbn [recorded set_at_size at_size].
    assert (Hl : (length (unwound (CC := CC) m strip lo hi n uc) <= n)%nat)
      by (unfold unwound; destruct (starts _ _ _); [apply walk_length|simpl; lia]).
    lia.
  - eapply list.Forall_impl; [exact Hf|]. intros f. by apply code_cache_answers.
Qed.

(** The validation of the slot is not enough when it holds something else: a
    word that passes it and whose [_constMethod] field is not mapped makes the
    question undefined. *)
Theorem unreadable_method_faults hs h ip fp mp :
  heaps_at hs -> heap_at h -> hd_error hs = Some h -> covers ip h = true ->
  (exists b np, find_block m (h_segmap h) (segment_of h ip) = Some b /\
    0 <= b <= segment_of h ip /\
    load64 m (u64 (block_at h b + codeBlobNameField cc)) = Some np /\
    cstr m np = Some "Interpreter") ->
  is_valid fp = true -> load64 m (u64 (fp - 24)) = Some mp -> is_valid mp = true ->
  load64 m (u64 (mp + constMethodField cc)) = None ->
  cc_getJMethodId m is_valid cc ip fp = None.
Proof.
  intros [Hl Ha] Hh Hhd Hc (b & np & Hb & Hr & Hnp & Hname) V0 Hm V1 Hf.
  destruct hs as [|h' hs]; [done|]. injection Hhd as ->.
  unfold cc_getJMethodId. rewrite V0; cbn [negb]. loads Hl. rewrite Nat2Z.id.
  inversion Ha as [|? ? ? Hp _ _]; simplify_eq. cbn [length method_loop]. loads Hp. cbv zeta.
  loads (at_log2 _ Hh), (at_low _ Hh), (at_high _ Hh). unfold covers in Hc. rewrite Hc.
  fold (covers ip h) in Hc. pose proof (at_bounds h Hh) as (_ & _ & Hlog).
  destruct (shiftl_segment h ip b Hh Hc Hr) as (Hu1 & Hu2 & _).
  unfold id_in_heap. loads (at_segmap h Hh). replace (negb _) with false by lia.
  rewrite Hu2. fold (segment_of h ip). loads Hb. cbv zeta. rewrite Hu1. fold (block_at h b).
  loads Hnp, Hname. rewrite bool_decide_eq_true_2 by done.
  unfold interpreted_id. rewrite V0; cbn [negb]. loads Hm. rewrite V1; cbn [negb]. by rewrite Hf.
Qed.
End spec.

(** ** The constructor *)

(** The structure that holds the method of compiled code, in this JVM. *)
Definition compiled_name (s : vm) : string :=
  compiled_type (bool_decide (is_Some (types_ s !! "CompiledMethod"))).

(** The fields the code cache is built from, besides that one. *)
Definition required_fields : list (string * string) :=
  [("Method", "_constMethod"); ("ConstMethod", "_constants"); ("ConstMethod", "_method_idnum");
   ("ConstantPool", "_pool_holder"); ("InstanceKlass", "_methods_jmethod_ids"); ("CodeBlob", "_name");
   ("CodeHeap", "_memory"); ("CodeHeap", "_segmap"); ("CodeHeap", "_log2_segment_size");
   ("VirtualSpace", "_low"); ("VirtualSpace", "_high"); ("CodeCache", "_heaps");
   ("GrowableArray<int>", "_data"); ("GrowableArrayBase", "_len")].

Definition required_types : list string := Eval cbv in required_fields.*1.

Definition offset_of (s : vm) (type name : string) : Z :=
  default 0 (offset <$> type_field s type name).

(** The code cache over a table of offsets. *)
Definition layout_cache (off : string -> string -> Z) (compiled : string)
    (heaps data block_size : Z) : JVMCodeCache := {|
  compiledMethodFiled := off compiled "_method";
  constMethodField := off "Method" "_constMethod";
  constantsField := off "ConstMethod" "_constants";
  methodIdNumField := off "ConstMethod" "_method_idnum";
  poolHolderField := off "ConstantPool" "_pool_holder";
  jmethodIdsField := off "InstanceKlass" "_methods_jmethod_ids";
  codeBlobNameField := off "CodeBlob" "_name";
  memoryField := off "CodeHeap" "_memory";
  segmapField := off "CodeHeap" "_segmap";
  log2SegmentSizeField := off "CodeHeap" "_log2_segment_size";
  lowField := off "VirtualSpace" "_low";
  highField := off "VirtualSpace" "_high";
  CodeCache.heaps := heaps;
  heaps_data := data;
  heaps_length := u64 (heaps + off "GrowableArrayBase" "_len");
  heap_block_type_size := block_size;
|}.

Lemma wp_getType s key t (Q : VMTypeEntry -> vm -> Prop) :
  types_ s !! key = Some t -> Q t s -> wp (getType key) s Q.
Proof. intros Ht HQ. eapply wp_act; [by rewrite Ht|done]. Qed.

Lemma wp_getField s type t key (Q : Z -> vm -> Prop) :
  types_ s !! type = Some t -> is_Some (type_field s type key) -> Q (offset_of s type key) s ->
  wp (getField t key) s Q.
Proof.
  unfold offset_of, type_field. intros Ht [f Hf] HQ. rewrite Ht in *. cbn [mbind option_bind] in *.
  unfold getField. eapply wp_act; [|exact HQ].
  destruct (vt_fields t) as [l|]; [|done]. cbn [mbind option_bind] in *.
  destruct (cells (field_maps s) !! l) as [fs|]; [|done]. cbn [mbind option_bind] in *. by rewrite Hf.
Qed.

Ltac in_list := first [apply list_elem_of_here | apply list_elem_of_further; in_list].

(** One lookup of the constructor, given that every type and field it needs is described. *)
Ltac lookup_step Ht Hr :=
  apply wp_bind;
  match goal with
  | |- wp (getType ?key) ?s _ =>
      let t := fresh "t" in let E := fresh "E" in
      destruct (Ht key ltac:(in_list)) as [t E]; apply (wp_getType _ _ _ _ E)
  | E : types_ _ !! _ = Some ?t |- wp (getField ?t _) _ _ =>
      eapply (wp_getField _ _ _ _ _ E); [apply Hr; in_list|]
  end.

Lemma wp_make_code_cache m s heaps data block :
  (forall type name, (type, name) ∈ (compiled_name s, "_method") :: required_fields ->
    is_Some (type_field s type name)) ->
  types_ s !! "HeapBlock" = Some block ->
  load64 m (offset_of s "CodeCache" "_heaps") = Some heaps ->
  load64 m (u64 (heaps + offset_of s "GrowableArray<int>" "_data")) = Some data ->
  wp (make_code_cache m) s (fun cc s' => s' = s /\
    cc = layout_cache (offset_of s) (compiled_name s) heaps data (vt_size block)).
Proof.
  intros Hr Hb Hh Hd.
  assert (Ht : forall type, type ∈ compiled_name s :: required_types ->
    exists t, types_ s !! type = Some t).
  { intros type Hin. change (type ∈ ((compiled_name s, "_method") :: required_fields).*1) in Hin.
    apply list_elem_of_fmap in Hin as ([type' name] & -> & Hin).
    destruct (Hr _ _ Hin) as [f Hf]. unfold type_field in Hf. cbn [fst].
    destruct (types_ s !! type') as [t|]; [by exists t|done]. }
  unfold make_code_cache. apply wp_bind, wp_reads. fold (compiled_name s).
  do 25 lookup_step Ht Hr.
  apply wp_bind. rewrite Hh. apply wp_from_mem. apply wp_bind. rewrite Hd. apply wp_from_mem.
  lookup_step Ht Hr. apply wp_bind, (wp_getType _ _ _ _ Hb). apply wp_ret. done.
Qed.

(** ** A small code cache *)

(** One heap of four segments of 64 bytes: a compiled method in the first
    three, the interpreter in the last.  Three pages are mapped, zero but for
    these words, and the system answers for them. *)
Definition demo_words : list (Z * list Z) :=
  [(4096, [4112; 1; 8192; 8448; 0; 0; 4192; 0; 0; 0; 6; 0; 131328;
           4208; 0; 4232; 1; 4240; 4248; 2; 12000; 12008;
           word_of_string "nmethod"; word_of_string "Interpre"; word_of_string "ter"]);
   (8192, [0; 4272; 4200] ++ replicate 22 0 ++ [4280]);
   (12264, [4200; 0; 0; 0; 1792])].

Definition words_memory (rs : list (Z * list Z)) : mem := fun a =>
  Some (default 0 (foldr (fun r acc => match words_at r.1 r.2 a with Some b => Some b | None => acc end)
                     None rs)).

Definition demo_mapped (a : Z) : bool := (4096 <=? a) && (a <? 16384).
Definition demo_memory : mem := fun a => if demo_mapped a then words_memory demo_words a else None.
Definition demo_valid : Z -> bool := is_valid_linux 4096 demo_mapped.

Definition demo_code_cache : JVMCodeCache :=
  MkCache 8 0 8 16 0 0 0 0 32 64 0 8 0 4096 4104 8.

Definition demo_heap : code_heap := MkHeap 4112 8192 8448 6 4192.

Lemma words_memory_bytes rs b x : words_memory rs b = Some x -> 0 <= x < 256.
Proof.
  unfold words_memory. intros Hx. injection Hx as Hx. subst x.
  induction rs as [|[lo ws] rs IH]; cbn [foldr fst snd]; [by split|].
  destruct (words_at lo ws b) eqn:Hw; [|done]. by apply words_at_bytes in Hw.
Qed.

Lemma demo_bytes b x : demo_memory b = Some x -> 0 <= x < 256.
Proof. unfold demo_memory. destruct (demo_mapped b); [apply words_memory_bytes|done]. Qed.

Lemma demo_heap_at : heap_at demo_memory demo_code_cache demo_heap.
Proof. split; vm_compute; try reflexivity. by split_and!. Qed.

Lemma demo_heaps_at : heaps_at demo_memory demo_code_cache [demo_heap].
Proof.
  split; [vm_compute; reflexivity|]. apply heap_array_cons; [vm_compute; reflexivity| |constructor].
  exact demo_heap_at.
Qed.

Lemma demo_segments ip :
  covers ip demo_heap = true ->
  segment_of demo_heap ip = 0 \/ segment_of demo_heap ip = 1 \/
  segment_of demo_heap ip = 2 \/ segment_of demo_heap ip = 3.
Proof.
  unfold covers, segment_of; cbn [h_low h_high h_log2 demo_heap]. intros H.
  rewrite Z.shiftr_div_pow2 by lia. change (2 ^ 6) with 64. align_lia.
Qed.

Lemma demo_ids : ids_readable demo_memory demo_code_cache 4240.
Proof.
  exists 4248. split; [vm_compute; reflexivity|]. intros _. exists 2.
  split; [vm_compute; reflexivity|]. intros k Hk.
  assert (k = 0 \/ k = 1) as [->| ->] by lia; eexists; vm_compute; reflexivity.
Qed.

Lemma demo_readable : method_readable demo_memory demo_code_cache 4200.
Proof.
  eexists _, _, _, _. split; [vm_compute; reflexivity|]. split; [vm_compute; reflexivity|].
  split; [done|]. split; [vm_compute; reflexivity|]. split; [vm_compute; reflexivity|].
  exact demo_ids.
Qed.

Lemma demo_cache_ok : cache_ok demo_memory demo_code_cache [demo_heap].
Proof.
  split.
  - exact demo_heaps_at.
  - intros h ip ->%list_elem_of_singleton Hc.
    destruct (demo_segments ip Hc) as [->|[->|[->| ->]]]; eexists; (split; [vm_compute; reflexivity|lia]).
  - intros h ip ->%list_elem_of_singleton Hc.
    destruct (demo_segments ip Hc) as [->|[->|[->| ->]]]; intros H; try (by vm_compute in H);
      (eexists _, _; split; [vm_compute; reflexivity|]; split; [vm_compute; reflexivity|]);
      intros Hs; [|by vm_compute in Hs].
    exists 4200. split; [vm_compute; reflexivity|exact demo_readable].
Qed.

Lemma isJavaFrame_correct_witness :
  cc_isJavaFrame demo_memory demo_code_cache 8300 = Some true /\
  cc_isJavaFrame demo_memory demo_code_cache 8448 = Some false.
Proof.
  by rewrite !(isJavaFrame_correct demo_memory demo_code_cache [demo_heap]) by exact demo_heaps_at.
Defined.

Lemma demo_method : method_id demo_memory demo_code_cache 4208 1 4232 4240 4200 12008.
Proof.
  split; [vm_compute; reflexivity..|]. exists 4248, 2.
  split; [vm_compute; reflexivity|]. split; [done|]. split; [vm_compute; reflexivity|].
  split; [done|]. vm_compute; reflexivity.
Qed.

Lemma getJMethodId_finds_method_witness :
  cc_getJMethodId demo_memory demo_valid demo_code_cache (8192 + 130) 12288 = Some 12008.
Proof.
  apply (getJMethodId_finds_method demo_memory demo_valid demo_code_cache [] demo_heap []
    (8192 + 130) 12288 0 4272 "nmethod" 12008); [exact demo_heaps_at|constructor|done|done| | | |].
  - split; [done|]. split; [done|]. split; [vm_compute; reflexivity|].
    intros j Hj. change (segment_of demo_heap (8192 + 130)) with 2 in Hj.
    assert (j = 1 \/ j = 2) as [->| ->] by lia;
      eexists; (split; [vm_compute; reflexivity|lia]).
  - vm_compute; reflexivity.
  - vm_compute; reflexivity.
  - eapply compiled_code; [done|done|vm_compute; reflexivity|exact demo_method].
Defined.

(** The method of an interpreted frame, found through the frame. *)
Lemma interpreted_example :
  cc_getJMethodId demo_memory demo_valid demo_code_cache (8192 + 200) 12288 = Some 12008.
Proof. by vm_compute. Qed.

Lemma unwind_with_code_cache_witness :
  wp (unwind_aarch64 (CC := jvm_code_cache demo_memory demo_valid demo_code_cache)
        demo_memory (fun p => p) 12264 12304 (MkUcontext 8392 12288 1024)) fresh_trace
    (fun _ t' => at_size t' = 1 /\ head (instructions t') = Some (MkInstruction 12008 0 true)).
Proof.
  eapply wp_mono; [|apply (unwind_with_code_cache demo_memory demo_valid demo_code_cache
    (fun p => p) 12264 12304 (MkUcontext 8392 12288 1024) [demo_heap] 30 fresh_trace);
    [exact demo_cache_ok|exact demo_bytes| | |lia|done|done|done]].
  - intros _ t' [-> _]. split; vm_compute; reflexivity.
  - split; [lia|lia|done|done| |done]. intros a Ha. unfold demo_memory, demo_mapped.
    replace (_ && _) with true by lia. by eexists.
  - repeat constructor. intros _ _. exists 4200. split; [vm_compute; reflexivity|].
    right. exact demo_readable.
Defined.

(** A word that passes the validation, in the last page mapped: the constant
    part of what it designates is read beyond. *)
Lemma unreadable_method_example :
  let m := fun a => match words_at 12264 [16383] a with Some b => Some b | None => demo_memory a end in
  demo_valid 16383 = true /\ cc_getJMethodId m demo_valid demo_code_cache 8392 12288 = None.
Proof. by vm_compute. Qed.
