(* ===== verification/Sampling.v ===== *)
(** * Sampling (profiler/profiler.cpp: [signal_action], [startProfiler], [stop])

    The profiler thread samples the threads that run a trace, one at a time: it
    publishes an empty [AsyncTrace] in [trace_], sends [SIGUSR1], waits until
    the handler has filled the trace and set [ready], takes [trace_] back and
    hands the trace to the storage.  The handler runs in the sampled thread.
    [stop] may clear [active_] at any time.

    The threads are a step relation over their program counters: every
    constructor is one access to the atomics, or a piece of code between two
    of them that touches only what the thread owns.  The unwinder and the hash
    of a thread are parameters. *)

From S2P Require Import Prelude ConcurrentList TraceTime TraceModel Unwind Jvm.
From Stdlib Require Import ZArith Lia.
From stdpp Require Import base gmap list strings numbers.
Local Open Scope Z_scope.
Local Open Scope kt_scope.

Definition set_ready (t : AsyncTrace) : AsyncTrace :=
  MkAsync (instructions t) (at_size t) (thread_id t) true (at_coroutine_id t) (at_stack_lo t)
    (at_stack_hi t).
Definition set_at_coroutine (c : Z) (t : AsyncTrace) : AsyncTrace :=
  MkAsync (instructions t) (at_size t) (thread_id t) (ready t) c (at_stack_lo t) (at_stack_hi t).

(** Where the profiler thread is: not started, at the [while] test, in the
    [for] loop with threads left, before [pthread_kill], waiting for [ready],
    before clearing [trace_], before [addRawTrace], finished. *)
Inductive profiler_pc :=
  | POff
  | PTest
  | PNext (ts : list nat)
  | PKill (i : nat) (ts : list nat)
  | PWait (i : nat) (ts : list nat)
  | PClear (i : nat) (ts : list nat)
  | PStore (i : nat) (ts : list nat)
  | PExit.

(** Where the handler is: at the test of [active_], in the loop on [trace_],
    before [unwind_stack], before the coroutine is noted, before [ready] is
    set, before [notify_one]. *)
Inductive handler_pc :=
  | HTest
  | HLoad
  | HUnwind (i : nat)
  | HCoroutine (i : nat)
  | HReady (i : nat)
  | HNotify (i : nat).

(** [raw_traces] are the traces in the storage.  A trace that is destroyed
    leaves the heap. *)
Record sampler := MkSampler {
  sm_active : bool;
  sm_trace : ptr;
  sm_heap : heap AsyncTrace;
  sm_pending : gset Z;
  sm_handlers : gmap Z handler_pc;
  sm_prof : profiler_pc;
  sm_jvm : JVM;
  raw_traces : list nat;
}.

Definition make_sampler (j : JVM) : sampler := MkSampler false None heap_empty ∅ ∅ POff j [].

Definition with_active (x : bool) (s : sampler) : sampler :=
  MkSampler x (sm_trace s) (sm_heap s) (sm_pending s) (sm_handlers s) (sm_prof s) (sm_jvm s) (raw_traces s).
Definition with_trace (x : ptr) (s : sampler) : sampler :=
  MkSampler (sm_active s) x (sm_heap s) (sm_pending s) (sm_handlers s) (sm_prof s) (sm_jvm s) (raw_traces s).
Definition with_heap (x : heap AsyncTrace) (s : sampler) : sampler :=
  MkSampler (sm_active s) (sm_trace s) x (sm_pending s) (sm_handlers s) (sm_prof s) (sm_jvm s) (raw_traces s).
Definition with_pending (x : gset Z) (s : sampler) : sampler :=
  MkSampler (sm_active s) (sm_trace s) (sm_heap s) x (sm_handlers s) (sm_prof s) (sm_jvm s) (raw_traces s).
Definition with_handlers (x : gmap Z handler_pc) (s : sampler) : sampler :=
  MkSampler (sm_active s) (sm_trace s) (sm_heap s) (sm_pending s) x (sm_prof s) (sm_jvm s) (raw_traces s).
Definition with_prof (x : profiler_pc) (s : sampler) : sampler :=
  MkSampler (sm_active s) (sm_trace s) (sm_heap s) (sm_pending s) (sm_handlers s) x (sm_jvm s) (raw_traces s).
Definition with_jvm (x : JVM) (s : sampler) : sampler :=
  MkSampler (sm_active s) (sm_trace s) (sm_heap s) (sm_pending s) (sm_handlers s) (sm_prof s) x (raw_traces s).
Definition with_raw (x : list nat) (s : sampler) : sampler :=
  MkSampler (sm_active s) (sm_trace s) (sm_heap s) (sm_pending s) (sm_handlers s) (sm_prof s) (sm_jvm s) x.

(** The members the unwinder leaves alone. *)
Definition header (a : AsyncTrace) : Z * bool * Z * Z * Z :=
  (thread_id a, ready a, at_coroutine_id a, at_stack_lo a, at_stack_hi a).

Abbreviation traces s := (cells (sm_heap s)).

(** [make_unique<AsyncTrace>(make_unique<InstructionInfo[]>(30), 30, ...)]. *)
Definition new_trace (th : ThreadInfo) : AsyncTrace :=
  make_async (replicate 30 no_instruction) 30 (th_id th) (th_stack_lo th) (th_stack_hi th).

Definition allocate (a : AsyncTrace) (h : heap AsyncTrace) : heap AsyncTrace :=
  Heap (<[next h := a]> (cells h)) (S (next h)).

(** Destroys traces. *)
Definition free_all (ids : list nat) (h : heap AsyncTrace) : heap AsyncTrace :=
  Heap (foldr delete (cells h) ids) (next h).

Section steps.
Context {U : Type} (unwind : U -> Z -> Z -> prog AsyncTrace unit) (hash_pthread : Z -> Z).

(** The profiler thread. *)
Inductive profiler_step (s : sampler) : sampler -> Prop :=
  | step_start :
      sm_prof s = POff -> sm_active s = false ->
      profiler_step s (with_prof PTest (with_active true s))
  | step_test :
      sm_prof s = PTest -> sm_active s = true ->
      profiler_step s (with_prof (PNext (CL.list_ (threads_ (sm_jvm s)))) s)
  | step_exit :
      sm_prof s = PTest -> sm_active s = false -> profiler_step s (with_prof PExit s)
  | step_skip l ts th :
      sm_prof s = PNext (l :: ts) -> cells (thread_heap (sm_jvm s)) !! l = Some th ->
      current_traces th <= 0 -> profiler_step s (with_prof (PNext ts) s)
  | step_publish l ts th :
      sm_prof s = PNext (l :: ts) -> cells (thread_heap (sm_jvm s)) !! l = Some th ->
      current_traces th > 0 ->
      profiler_step s
        (with_prof (PKill (next (sm_heap s)) ts)
           (with_trace (Some (next (sm_heap s))) (with_heap (allocate (new_trace th) (sm_heap s)) s)))
  | step_kill i ts a :
      sm_prof s = PKill i ts -> traces s !! i = Some a ->
      profiler_step s (with_prof (PWait i ts) (with_pending ({[thread_id a]} ∪ sm_pending s) s))
  | step_wait i ts a :
      sm_prof s = PWait i ts -> traces s !! i = Some a -> ready a = true ->
      profiler_step s (with_prof (PClear i ts) s)
  | step_clear i ts :
      sm_prof s = PClear i ts -> profiler_step s (with_prof (PStore i ts) (with_trace None s))
  | step_store i ts :
      sm_prof s = PStore i ts ->
      profiler_step s (with_prof (PNext ts) (with_raw (raw_traces s ++ [i]) s))
  | step_process :
      sm_prof s = PNext [] ->
      profiler_step s (with_prof PTest (with_raw [] (with_heap (free_all (raw_traces s) (sm_heap s)) s))).

(** The handler in thread [t]; the signal is blocked while the handler runs.
    [notify_one] is given the address of the trace, whether the trace is still
    there or not: see [use_after_free]. *)
Inductive handler_step (t : Z) (s : sampler) : sampler -> Prop :=
  | step_deliver :
      t ∈ sm_pending s -> sm_handlers s !! t = None ->
      handler_step t s
        (with_handlers (<[t := HTest]> (sm_handlers s)) (with_pending (sm_pending s ∖ {[t]}) s))
  | step_inactive :
      sm_handlers s !! t = Some HTest -> sm_active s = false ->
      handler_step t s (with_handlers (delete t (sm_handlers s)) s)
  | step_active :
      sm_handlers s !! t = Some HTest -> sm_active s = true ->
      handler_step t s (with_handlers (<[t := HLoad]> (sm_handlers s)) s)
  | step_spin :
      sm_handlers s !! t = Some HLoad -> sm_trace s = None -> handler_step t s s
  | step_load i :
      sm_handlers s !! t = Some HLoad -> sm_trace s = Some i ->
      handler_step t s (with_handlers (<[t := HUnwind i]> (sm_handlers s)) s)
  | step_unwind i a uc a' :
      sm_handlers s !! t = Some (HUnwind i) -> traces s !! i = Some a ->
      run (unwind uc (at_stack_lo a) (at_stack_hi a)) a = Val tt a' ->
      handler_step t s
        (with_handlers (<[t := HCoroutine i]> (sm_handlers s)) (with_heap (hput i a' (sm_heap s)) s))
  | step_coroutine i a current_coroutine_id :
      sm_handlers s !! t = Some (HCoroutine i) -> traces s !! i = Some a ->
      let coroutine_id :=
        if current_coroutine_id =? -1 then hash_pthread (thread_id a) else current_coroutine_id in
      handler_step t s
        (with_handlers (<[t := HReady i]> (sm_handlers s))
           (with_heap (hput i (set_at_coroutine coroutine_id a) (sm_heap s)) s))
  | step_ready i a :
      sm_handlers s !! t = Some (HReady i) -> traces s !! i = Some a ->
      handler_step t s
        (with_handlers (<[t := HNotify i]> (sm_handlers s))
           (with_heap (hput i (set_ready a) (sm_heap s)) s))
  | step_notify i :
      sm_handlers s !! t = Some (HNotify i) ->
      handler_step t s (with_handlers (delete t (sm_handlers s)) s).

(** [stop], and what the rest of the program does to the threads. *)
Inductive stop_step (s : sampler) : sampler -> Prop :=
  | step_stop : stop_step s (with_active false s).

Inductive jvm_step (s : sampler) : sampler -> Prop :=
  | step_jvm j : jvm_step s (with_jvm j s).

Inductive sampler_step (s s' : sampler) : Prop :=
  | by_profiler : profiler_step s s' -> sampler_step s s'
  | by_handler t : handler_step t s s' -> sampler_step s s'
  | by_stop : stop_step s s' -> sampler_step s s'
  | by_jvm : jvm_step s s' -> sampler_step s s'.

(** The handler in [t] is about to access a trace that is not there. *)
Definition accesses (h : handler_pc) : option nat :=
  match h with
  | HUnwind i | HCoroutine i | HReady i | HNotify i => Some i
  | HTest | HLoad => None
  end.
Definition use_after_free (s : sampler) (t : Z) : Prop :=
  exists h i, sm_handlers s !! t = Some h /\ accesses h = Some i /\ traces s !! i = None.

(** ** The invariant *)

(** The trace [a] is a fresh one of thread [t] that has been unwound, and the
    coroutine noted. *)
Definition unwound_trace (t : Z) (a : AsyncTrace) : Prop :=
  exists th uc, th_id th = t /\
    run (unwind uc (th_stack_lo th) (th_stack_hi th)) (new_trace th) = Val tt a.
Definition filled_trace (t : Z) (a : AsyncTrace) : Prop :=
  exists a0 c, unwound_trace t a0 /\
    a = set_at_coroutine (if c =? -1 then hash_pthread (thread_id a0) else c) a0.
Definition complete_trace (t : Z) (a : AsyncTrace) : Prop :=
  exists a0, filled_trace t a0 /\ a = set_ready a0.

(** What the current trace looks like while the handler is at [h]. *)
Definition trace_at (t : Z) (h : handler_pc) (a : AsyncTrace) : Prop :=
  match h with
  | HTest | HLoad | HUnwind _ => exists th, th_id th = t /\ a = new_trace th
  | HCoroutine _ => unwound_trace t a
  | HReady _ => filled_trace t a
  | HNotify _ => True
  end.

Definition is_notify (h : handler_pc) : bool := match h with HNotify _ => true | _ => false end.

(** Handlers that are past setting [ready] are done with the exchange. *)
Definition idle (t : Z) (s : sampler) : Prop :=
  forall h, sm_handlers s !! t = Some h -> is_notify h = true.

(** The state of the exchange with thread [t] about trace [i] while the
    profiler thread waits: the signal is pending, or the handler is at work, or
    the trace is complete, or the handler gave up because of [stop]. *)
Inductive exchange (s : sampler) (i : nat) (t : Z) : Prop :=
  | ex_pending th :
      t ∈ sm_pending s -> idle t s -> th_id th = t -> traces s !! i = Some (new_trace th) ->
      exchange s i t
  | ex_handling h a :
      t ∉ sm_pending s -> sm_handlers s !! t = Some h -> is_notify h = false ->
      (forall j, accesses h = Some j -> j = i) -> traces s !! i = Some a -> trace_at t h a ->
      exchange s i t
  | ex_complete a :
      t ∉ sm_pending s -> idle t s -> traces s !! i = Some a -> complete_trace t a -> exchange s i t
  | ex_abandoned th :
      t ∉ sm_pending s -> idle t s -> sm_active s = false -> th_id th = t ->
      traces s !! i = Some (new_trace th) -> exchange s i t.

(** Nobody but thread [t] has a signal pending or a handler at work. *)
Definition only (s : sampler) (t : Z) : Prop :=
  forall t', t' <> t -> t' ∉ sm_pending s /\ idle t' s.
Definition quiet (s : sampler) : Prop := forall t, t ∉ sm_pending s /\ idle t s.

Definition prof_inv (s : sampler) : Prop :=
  match sm_prof s with
  | POff => sm_trace s = None /\ quiet s
  | PTest | PNext _ | PExit => sm_trace s = None /\ quiet s
  | PKill i _ => sm_trace s = Some i /\ quiet s /\ i ∉ raw_traces s /\
                 exists th, traces s !! i = Some (new_trace th)
  | PWait i _ => sm_trace s = Some i /\ i ∉ raw_traces s /\ exists t, exchange s i t /\ only s t
  | PClear i _ => sm_trace s = Some i /\ quiet s /\ i ∉ raw_traces s /\
                  exists t a, traces s !! i = Some a /\ complete_trace t a
  | PStore i _ => sm_trace s = None /\ quiet s /\ i ∉ raw_traces s /\
                  exists t a, traces s !! i = Some a /\ complete_trace t a
  end.

Record sampler_inv (s : sampler) : Prop := {
  inv_heap : heap_wf (sm_heap s);
  inv_raw : Forall (fun i => exists t a, traces s !! i = Some a /\ complete_trace t a) (raw_traces s);
  inv_prof : prof_inv s;
}.

End steps.
