(* ===== verification/SamplingInv.v ===== *)
(** * The invariant of sampling

    The exchange between the profiler thread and the signal handlers: what
    every reachable state satisfies, that a sample completes as long as the
    profiler is active, and the two ways it can go wrong. *)

From S2P Require Import Prelude ConcurrentList TraceTime TraceModel Unwind Jvm Sampling.
From Stdlib Require Import ZArith Lia.
From stdpp Require Import base gmap list strings numbers.
Local Open Scope Z_scope.
Local Open Scope kt_scope.

Section inv.
Context {U : Type} (unwind : U -> Z -> Z -> prog AsyncTrace unit) (hash_pthread : Z -> Z).

(** The unwinder only writes the frames and their number. *)
Context (unwind_header : forall uc lo hi, keeps header (unwind uc lo hi)).

Abbreviation inv := (sampler_inv unwind hash_pthread).
Abbreviation exch := (exchange unwind hash_pthread).
Abbreviation complete := (complete_trace unwind hash_pthread).

Lemma make_sampler_inv j : inv (make_sampler j).
Proof.
  split; [apply heap_wf_empty|constructor|]. split; [done|]. intros t. split; [set_solver|].
  intros h. cbn [make_sampler sm_handlers]. by rewrite lookup_empty.
Qed.

Lemma foldr_delete_lookup {A} (m : gmap nat A) (ids : list nat) j :
  foldr delete m ids !! j = if decide (j ∈ ids) then None else m !! j.
Proof.
  induction ids as [|i ids IH]; cbn [foldr]; [done|].
  destruct (decide (j = i)) as [->|Hne].
  - rewrite lookup_delete_eq, decide_True by left. done.
  - rewrite lookup_delete_ne, IH by done. destruct (decide (j ∈ ids)).
    + by rewrite decide_True by (by right).
    + rewrite decide_False; [done|]. intros [?|?]%elem_of_cons; done.
Qed.

Lemma free_all_wf ids h : heap_wf h -> heap_wf (free_all ids h).
Proof.
  intros Hwf l Hl. cbn [free_all cells next] in *. rewrite foldr_delete_lookup.
  destruct (decide (l ∈ ids)); [done|]. by apply Hwf.
Qed.

Lemma run_unwind_header uc lo hi a a' :
  run (unwind uc lo hi) a = Val tt a' -> header a' = header a.
Proof using unwind_header.
  intros H. assert (Hw : wp (unwind uc lo hi) a (fun _ x => x = a')) by (unfold wp; by rewrite H).
  apply (wp_keeps header _ _ _ (unwind_header uc lo hi)) in Hw. unfold wp in Hw. rewrite H in Hw.
  by destruct Hw.
Qed.

(** Until the handler sets [ready], it is clear. *)
Lemma trace_at_not_ready t h a :
  is_notify h = false -> trace_at unwind hash_pthread t h a -> ready a = false.
Proof using unwind_header hash_pthread.
  assert (Hu : forall b, unwound_trace unwind t b -> ready b = false).
  { intros b (th & uc & _ & Hrun). apply run_unwind_header in Hrun. by injection Hrun. }
  destruct h; cbn [is_notify trace_at]; intros Hn Ha; try done.
  - by destruct Ha as (th & _ & ->).
  - by destruct Ha as (th & _ & ->).
  - by destruct Ha as (th & _ & ->).
  - by apply Hu.
  - destruct Ha as (a0 & c & Ha0 & ->). cbn [set_at_coroutine ready]. by apply Hu.
Qed.

(** The profiler thread keeps the invariant. *)
Lemma profiler_step_inv s s' : inv s -> profiler_step s s' -> inv s'.
Proof using unwind_header hash_pthread.
  intros [Hh Hr Hp] Hstep. unfold prof_inv in Hp.
  destruct Hstep as [E _|E _|E _|l ts th E _ _|l ts th E Hth _|i ts a E Ha|i ts a E Ha Hrd|i ts E|i ts E|E];
    rewrite E in Hp.
  - split; [done|done|]. exact Hp.
  - split; [done|done|]. exact Hp.
  - split; [done|done|]. exact Hp.
  - split; [done|done|]. exact Hp.
  - destruct Hp as [_ Hq].
    assert (Hfresh : forall j, j ∈ raw_traces s -> j <> next (sm_heap s)).
    { intros j Hj ->. rewrite list.Forall_forall in Hr. destruct (Hr _ Hj) as (t & a & Ha & _).
      by rewrite heap_fresh in Ha. }
    split; cbn [with_prof with_trace with_heap sm_heap raw_traces allocate cells].
    + by apply heap_wf_alloc.
    + rewrite list.Forall_forall in *. intros j Hj. rewrite lookup_insert_ne; [by apply Hr|].
      intros Hx. by apply (Hfresh j Hj).
    + split; [done|]. split; [exact Hq|]. split; [intros Hin; by apply (Hfresh _ Hin)|].
      exists th. apply lookup_insert_eq.
  - destruct Hp as (Ht & Hq & Hi & th & Hth). rewrite Hth in Ha. injection Ha as <-.
    split; [done|done|]. split; [done|]. split; [done|]. exists (th_id th). split.
    + eapply (ex_pending _ _ _ _ _ th); [|apply Hq|done|exact Hth]. cbn. set_solver.
    + intros t' Hne. split; [|apply Hq]. cbn. specialize (Hq t') as [Hq _]. set_solver.
  - destruct Hp as (Ht & Hi & t & He & Ho).
    destruct He as [th ? ? ? Hn|h b Hpd Hhd Hnn Hacc Hb Hat|b Hpd Hid Hb Hc|th ? ? ? ? Hn].
    + rewrite Hn in Ha. by injection Ha as <-.
    + rewrite Hb in Ha. injection Ha as <-. by rewrite (trace_at_not_ready t h b) in Hrd.
    + split; [done|done|]. split; [done|]. split; [|split; [done|by exists t, b]].
      intros t'. destruct (decide (t' = t)) as [->|Hne]; [by split|by apply Ho].
    + rewrite Hn in Ha. by injection Ha as <-.
  - destruct Hp as (Ht & Hq & Hi & He). split; [done|done|]. by split_and!.
  - destruct Hp as (Ht & Hq & Hi & t & a & Ha & Hc). split; [done| |].
    + cbn [with_prof with_raw raw_traces sm_heap]. apply Forall_app. split; [exact Hr|].
      constructor; [by exists t, a|constructor].
    + by split.
  - destruct Hp as [Ht Hq]. split; [by apply free_all_wf|constructor|]. by split.
Qed.

(** A handler that is not past [ready] is the one the profiler thread waits
    for. *)
Lemma handler_current s t h :
  inv s -> sm_handlers s !! t = Some h -> is_notify h = false ->
  exists i ts a, sm_prof s = PWait i ts /\ sm_trace s = Some i /\ i ∉ raw_traces s /\ only s t /\
    t ∉ sm_pending s /\ (forall j, accesses h = Some j -> j = i) /\ traces s !! i = Some a /\
    trace_at unwind hash_pthread t h a.
Proof.
  intros [_ _ Hp] Hh Hn. unfold prof_inv in Hp.
  assert (Hnq : ~ quiet s).
  { intros Hq. destruct (Hq t) as [_ Hi]. by rewrite (Hi h Hh) in Hn. }
  destruct (sm_prof s) as [| |ts|i ts|i ts|i ts|i ts|]; try tauto.
  destruct Hp as (Ht & Hi & t' & He & Ho).
  assert (t' = t) as ->.
  { destruct (decide (t' = t)) as [->|Hne]; [done|]. destruct (Ho t) as [_ Hid]; [done|].
    by rewrite (Hid h Hh) in Hn. }
  destruct He as [th _ Hid _ _|h' a Hpd Hh' Hn' Hacc Ha Hat|a _ Hid _ _|th _ Hid _ _ _];
    try (by rewrite (Hid h Hh) in Hn).
  rewrite Hh in Hh'. injection Hh' as <-. by exists i, ts, a.
Qed.

Lemma only_handlers s t x : only s t -> only (with_handlers (<[t := x]> (sm_handlers s)) s) t.
Proof.
  intros Ho t' Hne. destruct (Ho t' Hne) as [H1 H2]. split; [done|]. intros h.
  cbn [with_handlers sm_handlers]. rewrite lookup_insert_ne by done. apply H2.
Qed.

(** The handler moves on, with a new value of the current trace. *)
Lemma handling_inv s t h h' i ts a a' :
  inv s -> sm_prof s = PWait i ts -> sm_trace s = Some i -> i ∉ raw_traces s -> only s t ->
  t ∉ sm_pending s -> sm_handlers s !! t = Some h -> traces s !! i = Some a ->
  (is_notify h' = false /\ (forall j, accesses h' = Some j -> j = i) /\
     trace_at unwind hash_pthread t h' a' \/
   is_notify h' = true /\ complete t a') ->
  inv (with_handlers (<[t := h']> (sm_handlers s)) (with_heap (hput i a' (sm_heap s)) s)).
Proof.
  intros [Hwf Hraw _] E Ht Hi Ho Hpd Hh Ha Hnew.
  set (s' := with_handlers _ _).
  assert (Ha' : traces s' !! i = Some a') by (cbn; apply lookup_insert_eq).
  assert (Hh' : sm_handlers s' !! t = Some h') by (cbn; apply lookup_insert_eq).
  split.
  - apply heap_wf_put; [done|]. by eexists.
  - cbn [s' with_handlers with_heap sm_heap raw_traces hput cells].
    rewrite list.Forall_forall in *. intros j Hj. rewrite lookup_insert_ne; [by apply Hraw|]. by intros <-.
  - unfold prof_inv. cbn [s' with_handlers with_heap sm_prof sm_trace raw_traces]. rewrite E.
    split; [done|]. split; [done|]. exists t. split.
    + destruct Hnew as [(Hn & Hacc & Hat)|(Hn & Hc)].
      * by eapply (ex_handling _ _ _ _ _ h' a').
      * eapply (ex_complete _ _ _ _ _ a'); [done| |done|done].
        intros x Hx. rewrite Hh' in Hx. by injection Hx as <-.
    + apply (only_handlers (with_heap (hput i a' (sm_heap s)) s) t h'). exact Ho.
Qed.

Lemma with_heap_id s i a : traces s !! i = Some a -> with_heap (hput i a (sm_heap s)) s = s.
Proof. intros H. rewrite (hput_id _ _ _ H). by destruct s. Qed.

Lemma idle_deleted s t t' : idle t' s -> idle t' (with_handlers (delete t (sm_handlers s)) s).
Proof.
  intros Hid h. cbn [with_handlers sm_handlers]. rewrite lookup_delete.
  case_decide; [done|]. apply Hid.
Qed.

(** A handler that is done leaves. *)
Lemma notified_inv s t h :
  inv s -> sm_handlers s !! t = Some h -> is_notify h = true ->
  inv (with_handlers (delete t (sm_handlers s)) s).
Proof.
  intros [Hwf Hraw Hp] Hh Hn. split; [done|done|].
  assert (Hq : quiet s -> quiet (with_handlers (delete t (sm_handlers s)) s)).
  { intros Hq t'. destruct (Hq t') as [H1 H2]. split; [done|]. by apply idle_deleted. }
  assert (Ho : forall t', only s t' -> only (with_handlers (delete t (sm_handlers s)) s) t').
  { intros t' Ho t2 Hne. destruct (Ho t2 Hne) as [H1 H2]. split; [done|]. by apply idle_deleted. }
  unfold prof_inv in *. cbn [with_handlers sm_prof sm_trace raw_traces sm_heap] in *.
  destruct (sm_prof s) as [| |ts|i ts|i ts|i ts|i ts|]; try (by naive_solver).
  destruct Hp as (Ht & Hi & t' & He & Ho'). split; [done|]. split; [done|]. exists t'.
  split; [|by apply Ho].
  destruct He as [th H1 H2 H3 H4|h' a H1 H2 H3 H4 H5 H6|a H1 H2 H3 H4|th H1 H2 H3 H4 H5].
  - eapply (ex_pending _ _ _ _ _ th); try done. by apply idle_deleted.
  - eapply (ex_handling _ _ _ _ _ h' a); try done. cbn. rewrite lookup_delete_ne; [done|].
    intros <-. rewrite Hh in H2. injection H2 as <-. by rewrite Hn in H3.
  - eapply (ex_complete _ _ _ _ _ a); try done. by apply idle_deleted.
  - eapply (ex_abandoned _ _ _ _ _ th); try done. by apply idle_deleted.
Qed.

(** The handlers keep the invariant. *)
(** A signal is delivered to the thread it was sent to. *)
Lemma delivered_inv t s :
  inv s -> t ∈ sm_pending s -> sm_handlers s !! t = None ->
  inv (with_handlers (<[t := HTest]> (sm_handlers s)) (with_pending (sm_pending s ∖ {[t]}) s)).
Proof.
  intros Hinv Hpd Hnone.
  destruct Hinv as [Hwf Hraw Hp]. split; [done|done|]. unfold prof_inv in *.
  assert (Hnq : ~ quiet s) by (intros Hq; by destruct (Hq t)).
  cbn [with_handlers with_pending sm_prof sm_trace raw_traces] in *.
  destruct (sm_prof s) as [| |ts|i ts|i ts|i ts|i ts|]; try tauto.
  destruct Hp as (Ht & Hi & t' & He & Ho). split; [done|]. split; [done|]. exists t'.
  assert (t' = t) as ->.
  { destruct (decide (t' = t)) as [->|Hne]; [done|]. by destruct (Ho t) as [? _]. }
  destruct He as [th _ _ Hth Htr|h a Hx|a Hx|th Hx]; [|done..]. split.
  + eapply (ex_handling _ _ _ _ _ HTest (new_trace th)); cbn; [set_solver|apply lookup_insert_eq|done|done|done|].
    by exists th.
  + intros t' Hne. destruct (Ho t' Hne) as [H1 H2]. split; [cbn; set_solver|]. intros h.
    cbn. rewrite lookup_insert_ne by done. apply H2.
Qed.

(** A handler that finds the profiler stopped returns. *)
Lemma abandoned_inv t s :
  inv s -> sm_handlers s !! t = Some HTest -> sm_active s = false ->
  inv (with_handlers (delete t (sm_handlers s)) s).
Proof.
  intros Hinv Hh Hact.
  destruct (handler_current s t HTest Hinv Hh eq_refl) as (i & ts & a & E & Ht & Hi & Ho & Hpd & _ & Ha & Hat).
  destruct Hinv as [Hwf Hraw _]. split; [done|done|]. unfold prof_inv.
  cbn [with_handlers sm_prof sm_trace raw_traces]. rewrite E. split; [done|]. split; [done|].
  exists t. destruct Hat as (th & Hid & ->). split.
  + eapply (ex_abandoned _ _ _ _ _ th); [done| |done|done|done].
    intros h. cbn. by rewrite lookup_delete_eq.
  + intros t' Hne. destruct (Ho t' Hne) as [H1 H2]. split; [done|]. intros h.
    cbn. rewrite lookup_delete_ne by done. apply H2.
Qed.

Lemma handler_step_inv t s s' : inv s -> handler_step unwind hash_pthread t s s' -> inv s'.
Proof.
  intros Hinv Hstep.
  destruct Hstep as [Hpd Hnone|Hh Hact|Hh Hact|Hh Htr|i Hh Htr|i a uc a' Hh Ha Hrun
    |i a c Hh Ha coroutine_id|i a Hh Ha|i Hh].
  - by apply delivered_inv.
  - by apply abandoned_inv.
  - destruct (handler_current s t HTest Hinv Hh eq_refl) as (i & ts & a & E & Ht & Hi & Ho & Hpd & _ & Ha & Hat).
    rewrite <- (with_heap_id s i a Ha) at 2. eapply handling_inv; try done. left. by split_and!.
  - done.
  - destruct (handler_current s t HLoad Hinv Hh eq_refl) as (j & ts & a & E & Ht & Hi & Ho & Hpd & _ & Ha & Hat).
    rewrite Ht in Htr. injection Htr as ->.
    rewrite <- (with_heap_id s i a Ha) at 2. eapply handling_inv; try done. left.
    split_and!; [done| |done]. by intros j [= <-].
  - destruct (handler_current s t _ Hinv Hh eq_refl) as (j & ts & b & E & Ht & Hi & Ho & Hpd & Hacc & Hb & Hat).
    rewrite <- (Hacc i eq_refl) in *. rewrite Hb in Ha. injection Ha as ->.
    eapply handling_inv; try done. left. split_and!; [done|by intros k [= <-]|].
    destruct Hat as (th & Hid & ->). by exists th, uc.
  - destruct (handler_current s t _ Hinv Hh eq_refl) as (j & ts & b & E & Ht & Hi & Ho & Hpd & Hacc & Hb & Hat).
    rewrite <- (Hacc i eq_refl) in *. rewrite Hb in Ha. injection Ha as ->.
    eapply handling_inv; try done. left. split_and!; [done|by intros k [= <-]|]. by exists a, c.
  - destruct (handler_current s t _ Hinv Hh eq_refl) as (j & ts & b & E & Ht & Hi & Ho & Hpd & Hacc & Hb & Hat).
    rewrite <- (Hacc i eq_refl) in *. rewrite Hb in Ha. injection Ha as ->.
    eapply handling_inv; try done. right. split; [done|]. by exists a.
  - by eapply notified_inv.
Qed.

(** [active_] going down and changes of the JVM's threads do not disturb an
    exchange. *)
Lemma undisturbed_inv s x j :
  (x = true -> sm_active s = true) -> inv s -> inv (with_jvm j (with_active x s)).
Proof.
  intros Hx [Hwf Hraw Hp]. split; [done|done|]. unfold prof_inv in *.
  cbn [with_jvm with_active sm_prof sm_trace raw_traces sm_heap] in *.
  destruct (sm_prof s) as [| |ts|i ts|i ts|i ts|i ts|]; try exact Hp.
  destruct Hp as (Ht & Hi & t & He & Ho). split; [done|]. split; [done|]. exists t. split; [|done].
  destruct He as [th H1 H2 H3 H4|h' a H1 H2 H3 H4 H5 H6|a H1 H2 H3 H4|th H1 H2 H3 H4 H5].
  - by eapply (ex_pending _ _ _ _ _ th).
  - by eapply (ex_handling _ _ _ _ _ h' a).
  - by eapply (ex_complete _ _ _ _ _ a).
  - eapply (ex_abandoned _ _ _ _ _ th); try done. cbn. destruct x; [|done]. by rewrite Hx in H3.
Qed.

Lemma stop_step_inv s s' : inv s -> stop_step s s' -> inv s'.
Proof. intros Hi []. apply (undisturbed_inv s false (sm_jvm s)); [done|exact Hi]. Qed.

Lemma jvm_step_inv s s' : inv s -> jvm_step s s' -> inv s'.
Proof.
  intros Hi [j]. pose proof (undisturbed_inv s (sm_active s) j (fun H => H) Hi) as H.
  by destruct s.
Qed.

Lemma reachable_inv j s :
  rtc (sampler_step unwind hash_pthread) (make_sampler j) s -> inv s.
Proof using unwind_header.
  intros H. assert (Hi : inv (make_sampler j)) by apply make_sampler_inv.
  induction H as [|s1 s2 s3 Hs _ IH]; [done|]. apply IH.
  destruct Hs as [Hs|t Hs|Hs|Hs].
  - by eapply profiler_step_inv.
  - by eapply handler_step_inv.
  - by eapply stop_step_inv.
  - by eapply jvm_step_inv.
Qed.


(** C6: sampling is safe in every reachable state, whatever the interleaving
    of the profiler thread, the signal handlers, [stop] and thread creation.  A
    handler that is not past setting [ready] works on the very trace the
    profiler thread published and is waiting for, which is alive and which no
    other handler touches; it never finds [trace_] empty; and every trace handed
    to the storage is a fresh one that was unwound in full by its own thread,
    with its coroutine noted, and [ready]. *)
Theorem sampling_safe j s :
  rtc (sampler_step unwind hash_pthread) (make_sampler j) s ->
  (forall t h, sm_handlers s !! t = Some h -> is_notify h = false ->
     exists i ts, sm_prof s = PWait i ts /\ sm_trace s = Some i /\ is_Some (traces s !! i) /\
       (forall k, accesses h = Some k -> k = i) /\
       (forall t' h', sm_handlers s !! t' = Some h' -> is_notify h' = false -> t' = t)) /\
  Forall (fun i => exists t a, traces s !! i = Some a /\ complete t a) (raw_traces s).
Proof using unwind_header.
  intros Hreach. pose proof (reachable_inv j s Hreach) as Hinv. split; [|by apply inv_raw].
  intros t h Hh Hn.
  destruct (handler_current s t h Hinv Hh Hn) as (i & ts & a & E & Ht & _ & Ho & _ & Hacc & Ha & _).
  exists i, ts. split_and!; [done|done|by eexists|done|]. intros t' h' Hh' Hn'.
  destruct (decide (t' = t)) as [->|Hne]; [done|]. destruct (Ho t' Hne) as [_ Hid].
  by rewrite (Hid h' Hh') in Hn'.
Qed.
End inv.
