(* ===== verification/SamplingLive.v ===== *)
(** * Progress of sampling

    As long as nobody stops the profiler, every sample it begins completes.
    [stop] in the middle of a sample can block the profiler thread for good,
    and the last thing the handler does can come after the trace is destroyed. *)

From S2P Require Import Prelude ConcurrentList TraceTime TraceModel Memory Unwind UnwindSpec.
From S2P Require Import Jvm Sampling SamplingInv.
From Stdlib Require Import ZArith Lia.
From stdpp Require Import base gmap list strings numbers relations.
Local Open Scope Z_scope.
Local Open Scope kt_scope.

(** On every path, [P] comes to hold: some step is always possible, and
    whatever steps are taken lead there. *)
Inductive inevitably {X} (step : X -> X -> Prop) (P : X -> Prop) (x : X) : Prop :=
  | inev_now : P x -> inevitably step P x
  | inev_later : (exists y, step x y) -> (forall y, step x y -> inevitably step P y) ->
      inevitably step P x.

Section live.
Context {U : Type} (unwind : U -> Z -> Z -> prog AsyncTrace unit) (hash_pthread : Z -> Z).

(** The unwinder only writes the frames and their number, and it returns on a
    fresh trace of a thread whose stack is [good]. *)
Context (unwind_header : forall uc lo hi, keeps header (unwind uc lo hi)).
Context (good : Z -> Z -> Prop).
Context (uc0 : U) (unwind_returns : forall uc th, good (th_stack_lo th) (th_stack_hi th) ->
  wp (unwind uc (th_stack_lo th) (th_stack_hi th)) (new_trace th) (fun _ _ => True)).

Abbreviation inv := (sampler_inv unwind hash_pthread).

(** The steps of the profiler thread and of the handlers. *)
Inductive work_step (s s' : sampler) : Prop :=
  | work_profiler : profiler_step s s' -> work_step s s'
  | work_handler t : handler_step unwind hash_pthread t s s' -> work_step s s'.

(** ** The work left *)

Definition handler_work (h : handler_pc) : nat :=
  match h with
  | HTest => 7 | HLoad => 6 | HUnwind _ => 5 | HCoroutine _ => 4 | HReady _ => 3 | HNotify _ => 1
  end.
Definition profiler_work (p : profiler_pc) : nat :=
  match p with PKill _ _ => 20 | PWait _ _ => 3 | PClear _ _ => 2 | PStore _ _ => 1 | _ => 0 end.

Definition add_work (t : Z) (h : handler_pc) (n : nat) : nat := (handler_work h + n)%nat.
Definition handlers_work (hs : gmap Z handler_pc) : nat := map_fold add_work 0%nat hs.

Definition work (s : sampler) : nat :=
  profiler_work (sm_prof s) + 9 * size (sm_pending s) + handlers_work (sm_handlers s).

Lemma handlers_work_insert hs t h :
  hs !! t = None -> handlers_work (<[t := h]> hs) = (handler_work h + handlers_work hs)%nat.
Proof. intros H. unfold handlers_work. apply (map_fold_insert_L add_work); [unfold add_work; intros; lia|done]. Qed.

Lemma handlers_work_delete hs t h :
  hs !! t = Some h -> handlers_work hs = (handler_work h + handlers_work (delete t hs))%nat.
Proof. intros H. unfold handlers_work. apply (map_fold_delete_L add_work); [unfold add_work; intros; lia|done]. Qed.

Lemma handlers_work_update hs t h h' :
  hs !! t = Some h -> (handlers_work (<[t := h']> hs) + handler_work h = handlers_work hs + handler_work h')%nat.
Proof.
  intros H. rewrite (handlers_work_delete hs t h H), <- insert_delete_eq.
  rewrite handlers_work_insert by apply lookup_delete_eq. lia.
Qed.

(** The profiler thread is in the middle of sample [i]. *)
Definition sampling (i : nat) (s : sampler) : Prop :=
  exists ts, sm_prof s = PKill i ts \/ sm_prof s = PWait i ts \/ sm_prof s = PClear i ts \/
             sm_prof s = PStore i ts.

Definition sampled (i : nat) (s : sampler) : Prop :=
  i ∈ raw_traces s /\ exists t a, traces s !! i = Some a /\ complete_trace unwind hash_pthread t a.

Lemma size_union_le (t : Z) (X : gset Z) : (size ({[t]} ∪ X) <= 1 + size X)%nat.
Proof.
  destruct (decide (t ∈ X)) as [Hin|Hin].
  - replace ({[t]} ∪ X) with X by set_solver. lia.
  - rewrite size_union by set_solver. rewrite size_singleton. lia.
Qed.

Lemma size_remove (t : Z) (X : gset Z) : t ∈ X -> size X = (1 + size (X ∖ {[t]}))%nat.
Proof.
  intros H. replace X with ({[t]} ∪ X ∖ {[t]}) at 1.
  - rewrite size_union by set_solver. by rewrite size_singleton.
  - apply set_eq. intros x. destruct (decide (x = t)); set_solver.
Qed.

(** Every step of a sample takes work off, or ends the sample. *)
Lemma profiler_work_decreases i s s' :
  inv s -> sampling i s -> profiler_step s s' ->
  sampled i s' \/ sampling i s' /\ (work s' < work s)%nat /\ sm_active s' = sm_active s.
Proof.
  intros Hinv (ts & Hs) Hstep.
  destruct Hstep as [E _|E _|E _|l ts' th E _ _|l ts' th E Hth _|j ts' a E Ha|j ts' a E Ha Hrd|j ts' E|j ts' E|E];
    rewrite E in Hs; destruct Hs as [Hs|[Hs|[Hs|Hs]]]; simplify_eq.
  - right. split; [by exists ts; right; left|]. split; [|done].
    unfold work. rewrite E. cbn [with_prof with_pending sm_prof sm_pending sm_handlers profiler_work].
    pose proof (size_union_le (thread_id a) (sm_pending s)). lia.
  - right. split; [by exists ts; right; right; left|]. split; [|done].
    unfold work. rewrite E. cbn [with_prof sm_prof sm_pending sm_handlers profiler_work]. lia.
  - right. split; [by exists ts; right; right; right|]. split; [|done].
    unfold work. rewrite E. cbn [with_prof with_trace sm_prof sm_pending sm_handlers profiler_work]. lia.
  - left. pose proof (inv_prof _ _ _ Hinv) as Hp. unfold prof_inv in Hp. rewrite E in Hp.
    destruct Hp as (_ & _ & _ & t & a & Ha & Hc). split; [|by exists t, a].
    cbn [with_prof with_raw raw_traces]. apply elem_of_app. right. by left.
Qed.

Lemma handler_work_decreases i t s s' :
  inv s -> sampling i s -> sm_active s = true -> handler_step unwind hash_pthread t s s' ->
  sampling i s' /\ (work s' < work s)%nat /\ sm_active s' = sm_active s.
Proof.
  intros Hinv Hs Hact Hstep. unfold work.
  destruct Hstep as [Hpd Hnone|Hh Ha|Hh _|Hh Htr|j Hh Htr|j a uc a' Hh Ha Hrun
    |j a c Hh Ha coroutine_id|j a Hh Ha|j Hh];
    (split; [exact Hs|]); (split; [|done]);
    cbn [with_handlers with_pending with_heap sm_prof sm_pending sm_handlers];
    try (match goal with |- context [<[?t := ?h']> _] =>
           pose proof (handlers_work_update _ t _ h' Hh) as Hw end;
         cbn [handler_work] in Hw; lia).
  - rewrite handlers_work_insert by done. rewrite (size_remove t (sm_pending s)) by done.
    cbn [handler_work]. lia.
  - by rewrite Hact in Ha.
  - destruct (handler_current unwind hash_pthread s t HLoad Hinv Hh eq_refl) as (k & ts & a & _ & Ht & _).
    by rewrite Ht in Htr.
  - pose proof (handlers_work_delete _ _ _ Hh) as Hw. cbn [handler_work] in Hw. lia.
Qed.

(** The stack of the thread being sampled is good. *)
Definition good_sample (i : nat) (s : sampler) : Prop :=
  forall a, traces s !! i = Some a -> good (at_stack_lo a) (at_stack_hi a).

Lemma good_put i j a a' s :
  good_sample i s -> traces s !! j = Some a -> (at_stack_lo a', at_stack_hi a') = (at_stack_lo a, at_stack_hi a) ->
  good_sample i (with_heap (hput j a' (sm_heap s)) s).
Proof.
  intros Hg Ha [= Hlo Hhi] b. cbn [with_heap sm_heap hput cells]. rewrite lookup_insert.
  case_decide; [|apply Hg]. intros [= <-]. subst j. rewrite Hlo, Hhi. by apply Hg.
Qed.

Lemma good_step i s s' : sampling i s -> good_sample i s -> work_step s s' -> good_sample i s'.
Proof using unwind_header.
  intros (ts & Hs) Hg [Hstep|t Hstep].
  - destruct Hstep as [E _|E _|E _|l ts' th E _ _|l ts' th E Hth _|j ts' a E Ha|j ts' a E Ha Hrd|j ts' E|j ts' E|E];
      rewrite E in Hs; destruct Hs as [Hs|[Hs|[Hs|Hs]]]; simplify_eq; exact Hg.
  - destruct Hstep as [Hpd Hnone|Hh Ha|Hh _|Hh Htr|j Hh Htr|j a uc a' Hh Ha Hrun
      |j a c Hh Ha coroutine_id|j a Hh Ha|j Hh]; try exact Hg.
    + apply (good_put i j a); [done|done|].
      apply (run_unwind_header unwind unwind_header) in Hrun. by injection Hrun as _ _ _ -> ->.
    + by apply (good_put i j a).
    + by apply (good_put i j a).
Qed.

(** Something can always be done for the sample. *)
Lemma handler_can_step s t h i a :
  sm_active s = true -> sm_trace s = Some i -> sm_handlers s !! t = Some h ->
  (forall j, accesses h = Some j -> j = i) -> traces s !! i = Some a ->
  trace_at unwind hash_pthread t h a -> good_sample i s ->
  exists s', handler_step unwind hash_pthread t s s'.
Proof using uc0 unwind_returns.
  intros Hact Ht Hh Hacc Ha Hat Hg. destruct h as [| |j|j|j|j];
    try (rewrite <- (Hacc j eq_refl) in Ha).
  - eexists. by apply step_active.
  - eexists. by eapply step_load.
  - destruct Hat as (th & _ & ->). rewrite <- (Hacc j eq_refl) in Hg. specialize (unwind_returns uc0 th (Hg _ Ha)).
    apply wp_elim in unwind_returns as ([] & a' & Hrun & _).
    eexists. by eapply (step_unwind unwind hash_pthread t s j _ uc0 a').
  - eexists. by eapply (step_coroutine unwind hash_pthread t s j a (-1)).
  - eexists. by eapply step_ready.
  - eexists. by eapply step_notify.
Qed.

Lemma sampling_can_step i s :
  inv s -> sampling i s -> good_sample i s -> sm_active s = true -> exists s', work_step s s'.
Proof using uc0 unwind_returns.
  intros Hinv (ts & Hs) Hg Hact. pose proof (inv_prof _ _ _ Hinv) as Hp. unfold prof_inv in Hp.
  destruct Hs as [E|[E|[E|E]]]; rewrite E in Hp.
  - destruct Hp as (_ & _ & _ & th & Hth). eexists. apply work_profiler. by eapply step_kill.
  - destruct Hp as (Ht & _ & t & He & _).
    destruct He as [th Hpd Hid _ _|h a _ Hh _ Hacc Ha Hat|a _ _ Ha (a0 & _ & ->)|th _ _ Hoff _ _].
    + destruct (sm_handlers s !! t) as [h|] eqn:Hh.
      * destruct h as [| | | | |j]; try (by specialize (Hid _ Hh)).
        eexists. eapply (work_handler _ _ t). by eapply step_notify.
      * eexists. eapply (work_handler _ _ t). by apply step_deliver.
    + destruct (handler_can_step s t h i a) as [s' Hs']; [done..|].
      exists s'. by apply (work_handler _ _ t).
    + eexists. apply work_profiler. by eapply step_wait.
    + by rewrite Hact in Hoff.
  - eexists. apply work_profiler. by eapply step_clear.
  - eexists. apply work_profiler. by eapply step_store.
Qed.

Lemma work_step_inv s s' : inv s -> work_step s s' -> inv s'.
Proof using unwind_header.
  intros Hi [Hs|t Hs]; [by eapply profiler_step_inv|by eapply handler_step_inv].
Qed.

Lemma sampling_inevitable i s :
  inv s -> sampling i s -> good_sample i s -> sm_active s = true ->
  inevitably work_step (sampled i) s.
Proof using unwind_header uc0 unwind_returns.
  remember (work s) as n eqn:Hn. revert s Hn.
  induction n as [n IH] using lt_wf_ind; intros s -> Hinv Hs Hg Hact.
  apply inev_later; [by eapply sampling_can_step|]. intros s' Hstep.
  pose proof (good_step i s s' Hs Hg Hstep) as Hg'.
  pose proof (work_step_inv s s' Hinv Hstep) as Hinv'.
  destruct Hstep as [Hp|t Hh].
  - destruct (profiler_work_decreases i s s' Hinv Hs Hp) as [Hd|(Hs' & Hw & Ha)]; [by apply inev_now|].
    eapply IH; [exact Hw|done|done|done|done|by rewrite Ha].
  - destruct (handler_work_decreases i t s s' Hinv Hs Hact Hh) as (Hs' & Hw & Ha).
    eapply IH; [exact Hw|done|done|done|done|by rewrite Ha].
Qed.

(** C7: every sample completes while the profiler is active.  From any
    reachable state in which the profiler thread has published the trace [i] of
    a thread the unwinder can unwind, however the profiler thread and the handlers are scheduled from there, they
    never block each other and after finitely many steps the trace is in the
    storage, complete. *)
Theorem sample_completes j s i :
  rtc (sampler_step unwind hash_pthread) (make_sampler j) s -> sm_active s = true ->
  sampling i s -> good_sample i s -> inevitably work_step (sampled i) s.
Proof using unwind_header uc0 unwind_returns.
  intros Hr Hact Hs Hg. apply sampling_inevitable; [|done|done|done]. by eapply reachable_inv.
Qed.
End live.

(** ** The unwinders *)

Lemma keeps_write_instruction i x : keeps header (write_instruction i x).
Proof.
  split; [|done]. intros s b s' H. unfold write_instruction in H. destruct (_ && _); simplify_eq. done.
Qed.

Lemma keeps_from_mem {A} (x : option A) : keeps header (from_mem x).
Proof. destruct x; [apply keeps_ret|apply keeps_undef]. Qed.

Lemma keeps_set_at_size n : keeps header (modify (set_at_size n)).
Proof. split; [|done]. by intros s b s' [= _ <-]. Qed.

Ltac keeps_prim ::=
  first [apply keeps_write_instruction | apply keeps_from_mem | apply keeps_set_at_size].

Lemma aarch64_loop_header `{CC : !CodeCacheAPI} m strip lo hi fuel ip fp lr i :
  keeps header (aarch64_loop m strip lo hi fuel ip fp lr i).
Proof.
  revert ip fp lr i; induction fuel as [|fuel IH]; intros ip fp lr i; cbn [aarch64_loop].
  - apply keeps_undef.
  - unfold record_frame. keeps_tac; apply IH.
Qed.

Lemma unwind_aarch64_header `{CC : !CodeCacheAPI} m strip lo hi uc :
  keeps header (unwind_aarch64 m strip lo hi uc).
Proof.
  unfold unwind_aarch64. destruct (_ || _); [apply keeps_set_at_size|].
  apply keeps_bind; [apply keeps_reads|intros size].
  apply keeps_bind; [apply aarch64_loop_header|]. intros n. apply keeps_set_at_size.
Qed.

(** ** Stopping in the middle of a sample *)

Section stop.
Context {U : Type} (unwind : U -> Z -> Z -> prog AsyncTrace unit) (hash_pthread : Z -> Z).
Abbreviation step := (sampler_step unwind hash_pthread).

(** The profiler thread waits for a trace nobody is going to fill. *)
Definition blocked (i : nat) (ts : list nat) (s : sampler) : Prop :=
  sm_prof s = PWait i ts /\ quiet s /\ exists a, traces s !! i = Some a /\ ready a = false.

Lemma blocked_step i ts s s' : blocked i ts s -> step s s' -> blocked i ts s'.
Proof.
  intros (E & Hq & a & Ha & Hr) [Hs|t Hs|Hs|Hs].
  - destruct Hs as [E'|E'|E'|l ts' th E'|l ts' th E'|j ts' b E'|j ts' b E' Hb Hrb|j ts' E'|j ts' E'|E'];
      rewrite E in E'; simplify_eq. by rewrite Hr in Hrb.
  - destruct (Hq t) as [Hpd Hid].
    destruct Hs as [Hin|Hh|Hh|Hh|j Hh|j b uc b' Hh|j b c Hh|j b Hh|j Hh];
      try done; try (by specialize (Hid _ Hh)).
    split; [done|]. split; [|by exists a]. intros t'. destruct (Hq t') as [H1 H2].
    split; [done|]. by apply idle_deleted.
  - destruct Hs. split; [done|]. split; [done|]. by exists a.
  - destruct Hs. split; [done|]. split; [done|]. by exists a.
Qed.

Lemma blocked_forever i ts s s' : blocked i ts s -> rtc step s s' -> blocked i ts s'.
Proof. intros Hb Hr. induction Hr; [done|]. eauto using blocked_step. Qed.

(** C37: [stop] can block the profiler thread for good.  Whenever the profiler
    thread is about to send the signal for a trace and no handler is running,
    there is a schedule, in
    which [stop] comes before the handler tests [active_], after which the
    profiler thread waits for the trace on every continuation: it never leaves
    its loop and the trace is never stored. *)
Theorem stop_blocks_profiler j s i ts :
  (forall uc lo hi, keeps header (unwind uc lo hi)) ->
  rtc step (make_sampler j) s -> sm_prof s = PKill i ts -> sm_handlers s = ∅ ->
  exists s', rtc step s s' /\
    forall s'', rtc step s' s'' -> sm_prof s'' = PWait i ts /\ i ∉ raw_traces s''.
Proof.
  intros Hk Hr E Hh. pose proof (reachable_inv unwind hash_pthread Hk j s Hr) as Hinv.
  pose proof (inv_prof _ _ _ Hinv) as Hp. unfold prof_inv in Hp. rewrite E in Hp.
  destruct Hp as (Ht & Hq & Hi & th & Hth). set (t := th_id th).
  set (s1 := with_prof (PWait i ts) (with_pending ({[t]} ∪ sm_pending s) s)).
  set (s2 := with_handlers (<[t := HTest]> (sm_handlers s1)) (with_pending (sm_pending s1 ∖ {[t]}) s1)).
  set (s3 := with_active false s2).
  set (s4 := with_handlers (delete t (sm_handlers s3)) s3).
  assert (Hrun : rtc step s s4).
  { apply (rtc_l _ _ s1); [by apply by_profiler, (step_kill _ i ts (new_trace th))|].
    apply (rtc_l _ _ s2); [apply (by_handler _ _ _ _ t), step_deliver|].
    { cbn. set_solver. }
    { cbn. by rewrite Hh. }
    apply (rtc_l _ _ s3); [by apply by_stop|].
    apply rtc_once, (by_handler _ _ _ _ t), step_inactive; [|done]. cbn. apply lookup_insert_eq. }
  assert (Hb : blocked i ts s4).
  { split; [done|]. split; [|exists (new_trace th); by split].
    intros t'. destruct (Hq t') as [H1 H2]. split; [cbn; set_solver|].
    intros h. cbn. rewrite Hh, lookup_delete. case_decide; [done|].
    by rewrite lookup_insert_ne, lookup_empty. }
  exists s4. split; [done|]. intros s'' Hr''.
  destruct (blocked_forever _ _ _ _ Hb Hr'') as (E'' & _). split; [done|].
  pose proof (reachable_inv unwind hash_pthread Hk j s'' ltac:(by etrans; [exact Hr|etrans])) as Hinv''.
  pose proof (inv_prof _ _ _ Hinv'') as Hp''. unfold prof_inv in Hp''. rewrite E'' in Hp''. tauto.
Qed.
End stop.

(** ** One sampled thread *)

Definition sampled_jvm : JVM :=
  MkJVM (CL.CList [0%nat] 0) (Heap {[ 0%nat := MkThread "main" 1 1 4096 4176 ]} 1).

Definition demo_unwinder (uc : ucontext) (lo hi : Z) : prog AsyncTrace unit :=
  unwind_stack_linux_aarch64 (CC := demo_cache) demo_stack uc lo hi.

Definition demo_hash (t : Z) : Z := 1000 + t.

Abbreviation demo_step := (sampler_step demo_unwinder demo_hash).

Lemma demo_unwinder_header uc lo hi : keeps header (demo_unwinder uc lo hi).
Proof. apply unwind_aarch64_header. Qed.

(** The trace is published and the signal about to be sent. *)
Definition demo_published : sampler :=
  with_prof (PKill 0 [])
    (with_trace (Some 0%nat)
       (with_heap (allocate (new_trace (MkThread "main" 1 1 4096 4176)) heap_empty)
          (with_prof (PNext [0%nat]) (with_prof PTest (with_active true (make_sampler sampled_jvm)))))).

Lemma demo_reaches_published : rtc demo_step (make_sampler sampled_jvm) demo_published.
Proof.
  eapply rtc_l; [by apply by_profiler, step_start|].
  eapply rtc_l; [by apply by_profiler, step_test|].
  eapply rtc_l; [by apply by_profiler, (step_publish _ 0 [] (MkThread "main" 1 1 4096 4176))|].
  apply rtc_refl.
Qed.

(** The handler has found the trace and is about to unwind. *)
Definition demo_handling : sampler :=
  let s1 := with_prof (PWait 0 []) (with_pending ({[1]} ∪ sm_pending demo_published) demo_published) in
  let s2 := with_handlers (<[1 := HTest]> (sm_handlers s1)) (with_pending (sm_pending s1 ∖ {[1]}) s1) in
  let s3 := with_handlers (<[1 := HLoad]> (sm_handlers s2)) s2 in
  with_handlers (<[1 := HUnwind 0]> (sm_handlers s3)) s3.

Lemma demo_reaches_handling : rtc demo_step demo_published demo_handling.
Proof.
  eapply rtc_l; [by apply by_profiler, (step_kill _ 0 [] (new_trace (MkThread "main" 1 1 4096 4176)))|].
  eapply rtc_l; [apply (by_handler _ _ _ _ 1), step_deliver; [cbn; set_solver|done]|].
  eapply rtc_l; [by apply (by_handler _ _ _ _ 1), step_active|].
  eapply rtc_l; [by apply (by_handler _ _ _ _ 1), (step_load _ _ _ _ 0)|].
  apply rtc_refl.
Qed.

Lemma sampling_safe_witness :
  exists i ts, sm_prof demo_handling = PWait i ts /\ sm_trace demo_handling = Some i.
Proof.
  destruct (sampling_safe demo_unwinder demo_hash demo_unwinder_header sampled_jvm demo_handling)
    as [H _]; [etrans; [exact demo_reaches_published|exact demo_reaches_handling]|].
  destruct (H 1 (HUnwind 0)) as (i & ts & H1 & H2 & _); [done|done|]. by exists i, ts.
Defined.

Lemma demo_returns uc th :
  stack_ok demo_stack (fun p => p) (th_stack_lo th) (th_stack_hi th) ->
  wp (demo_unwinder uc (th_stack_lo th) (th_stack_hi th)) (new_trace th) (fun _ _ => True).
Proof.
  intros Hst. eapply wp_mono; [|apply (wp_unwind_aarch64 demo_stack (fun p => p)
    _ _ Hst (words_at_bytes _ _) uc 30); [|lia|done|done|done]; apply Forall_true, (laws_answer (CL := demo_cache_laws))].
  done.
Qed.

Lemma sample_completes_witness :
  inevitably (work_step demo_unwinder demo_hash) (sampled demo_unwinder demo_hash 0) demo_handling.
Proof.
  apply (sample_completes demo_unwinder demo_hash demo_unwinder_header
    (stack_ok demo_stack (fun p => p)) demo_context demo_returns sampled_jvm demo_handling 0).
  - etrans; [exact demo_reaches_published|exact demo_reaches_handling].
  - done.
  - exists []. by right; left.
  - intros a Ha. injection Ha as <-. exact demo_stack_ok.
Defined.

Lemma stop_blocks_profiler_witness :
  exists s', rtc demo_step demo_published s' /\
    forall s'', rtc demo_step s' s'' -> sm_prof s'' = PWait 0 [] /\ 0%nat ∉ raw_traces s''.
Proof.
  exact (stop_blocks_profiler demo_unwinder demo_hash sampled_jvm demo_published 0 [] demo_unwinder_header
    demo_reaches_published eq_refl eq_refl).
Defined.

(** ** Notifying through a destroyed trace *)

(** [trace->ready.notify_one()], the handler's last action, can come after
    the trace is destroyed: once [ready] is set nothing keeps the profiler
    thread from storing, processing and freeing the trace. *)
Theorem notify_after_free :
  exists s, rtc demo_step (make_sampler sampled_jvm) s /\ use_after_free s 1.
Proof.
  pose proof (demo_returns demo_context (MkThread "main" 1 1 4096 4176) demo_stack_ok) as Hw.
  apply wp_elim in Hw as ([] & a & Hrun & _).
  eexists. split.
  - etrans; [exact demo_reaches_published|].
    etrans; [exact demo_reaches_handling|].
    eapply rtc_l; [by eapply (by_handler _ _ _ _ 1), (step_unwind _ _ _ _ 0 _ demo_context a)|].
    eapply rtc_l; [by eapply (by_handler _ _ _ _ 1), (step_coroutine _ _ _ _ 0 a (-1))|].
    eapply rtc_l; [by eapply (by_handler _ _ _ _ 1), (step_ready _ _ _ _ 0)|].
    eapply rtc_l; [by eapply by_profiler, (step_wait _ 0 [])|].
    eapply rtc_l; [by eapply by_profiler, (step_clear _ 0 [])|].
    eapply rtc_l; [by eapply by_profiler, (step_store _ 0 [])|].
    apply rtc_once. by eapply by_profiler, step_process.
  - exists (HNotify 0), 0%nat. by split_and!.
Qed.
