(* ===== verification/Profiler.v ===== *)
(** * [Profiler] (profiler/profiler.hpp, profiler/profiler.cpp)

    The handlers the instrumented application and the JVM call, and the turn
    of the profiler thread.  The state is the [Profiler] object with the JVM's
    thread registry, the [thread_local] variables of every thread, and the
    files written so far.  [self] is the calling thread, [pthread_self()].

    JVMTI, [getrusage] and [thread_info], the hash functions and the symbolizer are parameters.
    The model is of the build without [DEBUG], where [logDebug] expands to
    nothing. *)

From S2P Require Import Prelude ConcurrentList ConcurrentMap TraceTime TraceModel TraceStorage.
From S2P Require Import Perfetto SuspensionPlot Jvm.
From Stdlib Require Import ZArith Lia.
From stdpp Require Import base gmap list strings numbers pretty.
Local Open Scope Z_scope.
Local Open Scope kt_scope.

Definition NOT_FOUND : Z := -1.

(** [timeval] and the members of [rusage] the profiler reads. *)
Record timeval := MkTime { tv_sec : Z; tv_usec : Z }.
Record rusage := MkUsage { ru_utime : timeval; ru_stime : timeval; ru_nvcsw : Z; ru_nivcsw : Z }.

Definition zero_usage : rusage := MkUsage (MkTime 0 0) (MkTime 0 0) 0 0.

(** The [thread_local] variables of one thread. *)
Record locals := MkLocals { current_coroutine_id : Z; current_rusage_ : rusage }.

Definition fresh_locals : locals := MkLocals NOT_FOUND zero_usage.

(** What the constructor is given. *)
Record settings := MkSettings { threshold_ : Z; interval_ : Z; output_path_ : string }.

Record Profiler := MkProfiler {
  jvm_ : JVM;
  storage_ : TraceStorage;
  method_info_map_ : cmap Z string;
  class_info_map_ : cmap Z string;
  prof_active : bool;
  trace_ : ptr;
  async_heap : heap AsyncTrace;
  output_counter : Z;
  locals_ : gmap Z locals;
  usage_readings : nat;
  files : list (string * Trace);
}.

Definition jvm_L : Lens Profiler JVM := field_lens jvm_ (fun x s => MkProfiler
  x (storage_ s) (method_info_map_ s) (class_info_map_ s) (prof_active s) (trace_ s)
  (async_heap s) (output_counter s) (locals_ s) (usage_readings s) (files s)).
Definition storage_L : Lens Profiler TraceStorage := field_lens storage_ (fun x s => MkProfiler
  (jvm_ s) x (method_info_map_ s) (class_info_map_ s) (prof_active s) (trace_ s)
  (async_heap s) (output_counter s) (locals_ s) (usage_readings s) (files s)).
Definition methods_L : Lens Profiler (cmap Z string) :=
  field_lens method_info_map_ (fun x s => MkProfiler
  (jvm_ s) (storage_ s) x (class_info_map_ s) (prof_active s) (trace_ s)
  (async_heap s) (output_counter s) (locals_ s) (usage_readings s) (files s)).
Definition classes_L : Lens Profiler (cmap Z string) :=
  field_lens class_info_map_ (fun x s => MkProfiler
  (jvm_ s) (storage_ s) (method_info_map_ s) x (prof_active s) (trace_ s)
  (async_heap s) (output_counter s) (locals_ s) (usage_readings s) (files s)).
Definition prof_active_L : Lens Profiler bool := field_lens prof_active (fun x s => MkProfiler
  (jvm_ s) (storage_ s) (method_info_map_ s) (class_info_map_ s) x (trace_ s)
  (async_heap s) (output_counter s) (locals_ s) (usage_readings s) (files s)).
Definition trace_L : Lens Profiler ptr := field_lens trace_ (fun x s => MkProfiler
  (jvm_ s) (storage_ s) (method_info_map_ s) (class_info_map_ s) (prof_active s) x
  (async_heap s) (output_counter s) (locals_ s) (usage_readings s) (files s)).
Definition async_L : Lens Profiler (heap AsyncTrace) := field_lens async_heap (fun x s => MkProfiler
  (jvm_ s) (storage_ s) (method_info_map_ s) (class_info_map_ s) (prof_active s) (trace_ s)
  x (output_counter s) (locals_ s) (usage_readings s) (files s)).
Definition counter_L : Lens Profiler Z := field_lens output_counter (fun x s => MkProfiler
  (jvm_ s) (storage_ s) (method_info_map_ s) (class_info_map_ s) (prof_active s) (trace_ s)
  (async_heap s) x (locals_ s) (usage_readings s) (files s)).
Definition locals_L : Lens Profiler (gmap Z locals) := field_lens locals_ (fun x s => MkProfiler
  (jvm_ s) (storage_ s) (method_info_map_ s) (class_info_map_ s) (prof_active s) (trace_ s)
  (async_heap s) (output_counter s) x (usage_readings s) (files s)).
Definition usage_L : Lens Profiler nat := field_lens usage_readings (fun x s => MkProfiler
  (jvm_ s) (storage_ s) (method_info_map_ s) (class_info_map_ s) (prof_active s) (trace_ s)
  (async_heap s) (output_counter s) (locals_ s) x (files s)).
Definition files_L : Lens Profiler (list (string * Trace)) := field_lens files (fun x s => MkProfiler
  (jvm_ s) (storage_ s) (method_info_map_ s) (class_info_map_ s) (prof_active s) (trace_ s)
  (async_heap s) (output_counter s) (locals_ s) (usage_readings s) x).

(** The operating system the agent is built for: the branches of [__linux__]
    and [__APPLE__]. *)
Inductive platform := Linux | Apple.

(** The environment: the platform, what JVMTI answers ([None] is an error
    code), the resource usage [getrusage] reports to a thread at the [n]-th
    reading, the system and the user time [thread_info] reports ([None] when it
    is not [KERN_SUCCESS]), the two hash functions, and which addresses the
    symbolizer knows. *)
Class Environment := {
  target : platform;
  GetMethodName : Z -> option (string * string);
  GetMethodDeclaringClass : Z -> option Z;
  GetClassSignature : Z -> option string;
  usage : Z -> nat -> rusage;
  thread_info : Z -> nat -> option (timeval * timeval);
  hash_pthread : Z -> Z;
  hash_thread_id : Z -> Z;
  symbol : Z -> option (string * string);
}.

Section profiler.
Context `{CK : !SteadyClock} `{E : !Environment} (opts : settings).

(** The constructor. *)
Definition make_profiler (jvm : JVM) : Profiler :=
  MkProfiler jvm make_storage CM.make CM.make false None heap_empty 0 ∅ 0 [].

(** ** Thread-local variables *)

Definition get_locals (self : Z) (s : Profiler) : locals := default fresh_locals (locals_ s !! self).

Definition get_coroutine (self : Z) : prog Profiler Z :=
  reads (fun s => current_coroutine_id (get_locals self s)).

Definition set_coroutine (self id : Z) : prog Profiler unit :=
  modify (fun s => lset locals_L
    (<[self := MkLocals id (current_rusage_ (get_locals self s))]> (locals_ s)) s).

Definition get_usage (self : Z) : prog Profiler rusage :=
  reads (fun s => current_rusage_ (get_locals self s)).

(** [getrusage(RUSAGE_THREAD, &current_rusage_)]. *)
Definition getrusage (self : Z) : prog Profiler rusage :=
  act (fun s =>
    let u := usage self (usage_readings s) in
    Val u (lset usage_L (S (usage_readings s))
             (lset locals_L (<[self := MkLocals (current_coroutine_id (get_locals self s)) u]>
                               (locals_ s)) s))).

(** [thread_info(mach_thread_self(), THREAD_BASIC_INFO, ...)]. *)
Definition thread_basic_info (self : Z) : prog Profiler (option (timeval * timeval)) :=
  act (fun s => Val (thread_info self (usage_readings s))
                  (lset usage_L (S (usage_readings s)) s)).

(** Assignments to members of [current_rusage_]. *)
Definition set_usage (self : Z) (f : rusage -> rusage) : prog Profiler unit :=
  modify (fun s => lset locals_L
    (<[self := MkLocals (current_coroutine_id (get_locals self s))
                 (f (current_rusage_ (get_locals self s)))]> (locals_ s)) s).
Definition set_stime (t : timeval) (u : rusage) : rusage :=
  MkUsage (ru_utime u) t (ru_nvcsw u) (ru_nivcsw u).
Definition set_utime (t : timeval) (u : rusage) : rusage :=
  MkUsage t (ru_stime u) (ru_nvcsw u) (ru_nivcsw u).

(** ** Resource usage of a coroutine *)

(** [tv_usec] is a [long] on Linux and an [int] on macOS. *)
Definition usec_bits : Z := match target with Linux => 64 | Apple => 32 end.

(** The differences of the members, and
    [duration_cast<microseconds>(seconds)]. *)
Definition calculate_elapsed_time {S} (end_ begin_ : timeval) : prog S TraceTime :=
  seconds ← signed 64 (tv_sec end_ - tv_sec begin_);
  microseconds ← signed usec_bits (tv_usec end_ - tv_usec begin_);
  us ← signed 64 (seconds * 1000000);
  t ← signed 64 (us + microseconds);
  mret (tt_make t).

(** Only the thread-local copy is refreshed. *)
Definition update_perf_counters (self : Z) : prog Profiler unit :=
  match target with
  | Apple =>
      info ← thread_basic_info self;
      match info with
      | Some (system_time, user_time) =>
          set_usage self (set_stime system_time);; set_usage self (set_utime user_time)
      | None => mret tt
      end
  | Linux => getrusage self;; mret tt
  end.

Definition upd_info (p : ptr) (f : CoroutineInfo -> CoroutineInfo) : prog Profiler unit :=
  zoom storage_L (zoom info_heap_L (hmodify p f)).
Definition read_info {A} (p : ptr) (f : CoroutineInfo -> A) : prog Profiler A :=
  zoom storage_L (zoom info_heap_L (hread p f)).

Definition add_wall (d : TraceTime) (c : CoroutineInfo) : CoroutineInfo :=
  MkCoroutine (ci_start c) (ci_end c) (last_resume c)
    (tt_add_assign (wall_clock_running_time c) d) (cpu_user_clock_running_time_us c)
    (cpu_system_clock_running_time_us c) (voluntary_switches c) (involuntary_switches c)
    (suspensions_list c).
Definition add_user (d : TraceTime) (c : CoroutineInfo) : CoroutineInfo :=
  MkCoroutine (ci_start c) (ci_end c) (last_resume c) (wall_clock_running_time c)
    (tt_add_assign (cpu_user_clock_running_time_us c) d)
    (cpu_system_clock_running_time_us c) (voluntary_switches c) (involuntary_switches c)
    (suspensions_list c).
Definition add_system (d : TraceTime) (c : CoroutineInfo) : CoroutineInfo :=
  MkCoroutine (ci_start c) (ci_end c) (last_resume c) (wall_clock_running_time c)
    (cpu_user_clock_running_time_us c) (tt_add_assign (cpu_system_clock_running_time_us c) d)
    (voluntary_switches c) (involuntary_switches c) (suspensions_list c).
Definition add_voluntary (d : Z) (c : CoroutineInfo) : CoroutineInfo :=
  MkCoroutine (ci_start c) (ci_end c) (last_resume c) (wall_clock_running_time c)
    (cpu_user_clock_running_time_us c) (cpu_system_clock_running_time_us c)
    (u64 (voluntary_switches c + d)) (involuntary_switches c) (suspensions_list c).
Definition add_involuntary (d : Z) (c : CoroutineInfo) : CoroutineInfo :=
  MkCoroutine (ci_start c) (ci_end c) (last_resume c) (wall_clock_running_time c)
    (cpu_user_clock_running_time_us c) (cpu_system_clock_running_time_us c)
    (voluntary_switches c) (u64 (involuntary_switches c + d)) (suspensions_list c).

(** The branches of [calculate_resource_usage], which charge the CPU times
    (and, on Linux, the context switches) since the last reading. *)
Definition charge_apple (self : Z) (coroutine_info : ptr) (last : rusage) : prog Profiler unit :=
  info ← thread_basic_info self;
  match info with
  | Some (system_time, user_time) =>
      set_usage self (set_stime system_time);;
      elapsed_time ← calculate_elapsed_time system_time (ru_stime last);
      upd_info coroutine_info (add_system elapsed_time);;
      set_usage self (set_utime user_time);;
      trace_time ← calculate_elapsed_time user_time (ru_utime last);
      upd_info coroutine_info (add_user trace_time)
  | None => mret tt
  end.

Definition charge_linux (self : Z) (coroutine_info : ptr) (last : rusage) : prog Profiler unit :=
  current ← getrusage self;
  sys ← calculate_elapsed_time (ru_stime current) (ru_stime last);
  upd_info coroutine_info (add_system sys);;
  user ← calculate_elapsed_time (ru_utime current) (ru_utime last);
  upd_info coroutine_info (add_user user);;
  vol ← signed 64 (ru_nvcsw current - ru_nvcsw last);
  upd_info coroutine_info (add_voluntary vol);;
  invol ← signed 64 (ru_nivcsw current - ru_nivcsw last);
  upd_info coroutine_info (add_involuntary invol).

Definition calculate_resource_usage (self : Z) (coroutine_info : ptr) : prog Profiler unit :=
  t ← zoom storage_L now;
  resumed ← read_info coroutine_info last_resume;
  d ← tt_minus t resumed;
  upd_info coroutine_info (add_wall d);;
  last ← get_usage self;
  match target with
  | Apple => charge_apple self coroutine_info last
  | Linux => charge_linux self coroutine_info last
  end.

(** ** Traces *)

Definition findOngoingTrace (coroutine_id : Z) : prog Profiler TraceInfo :=
  zoom storage_L (findOngoingTraceInfo coroutine_id).

Definition removeOngoingTrace (coroutine_id : Z) : prog Profiler unit :=
  zoom storage_L (removeOngoingTraceInfo coroutine_id).

(** [jvm_->findThread(pthread_self())->current_traces.fetch_add(n)]. *)
Definition count_traces (self n : Z) : prog Profiler unit :=
  t ← zoom jvm_L (findThread self);
  zoom jvm_L (zoom thread_heap_L (hmodify t (add_traces n))).

Definition traceStart (self coroutine_id : Z) : prog Profiler unit :=
  coroutine_id ← (if coroutine_id =? -2 then
                    let id := hash_thread_id self in
                    zoom storage_L (createCoroutineInfo id);; mret id
                  else mret coroutine_id);
  count_traces self 1;;
  start ← zoom storage_L now;
  zoom storage_L (createChildCoroutineStorage coroutine_id);;
  added ← zoom storage_L (addOngoingTraceInfo (MkTraceInfo coroutine_id start 0));
  if (added : bool) then mret tt
  else throw (Runtime_error ("Found trace that already started: " +:+ pretty coroutine_id)).

(** The string behind a pointer of a stack frame. *)
Definition deref_of (s : Profiler) (p : strptr) : string :=
  match p with
  | MethodName id => default EmptyString (CM.map_ (method_info_map_ s) !! id)
  | ClassName id => default EmptyString (CM.map_ (class_info_map_ s) !! id)
  | UnknownNative => "unknown_native"
  | UnknownJava => "unknown_java"
  | EmptyName => EmptyString
  | SymbolName a => default EmptyString (fst <$> symbol a)
  | LibraryName a => default EmptyString (snd <$> symbol a)
  | ThreadName l => default EmptyString (th_name <$> cells (thread_heap (jvm_ s)) !! l)
  end.

(** [traceEnd] up to the test of the threshold: the trace to report, with the
    path of its file, or nothing. *)
Definition finishTrace (self coroutine_id : Z) : prog Profiler (option (string * TraceInfo)) :=
  count_traces self (-1);;
  let coroutine_id := if coroutine_id =? -2 then hash_thread_id self else coroutine_id in
  coroutine_info ← zoom storage_L (getCoroutineInfo coroutine_id);
  if bool_decide (coroutine_info = None) then mret None
  else
    calculate_resource_usage self coroutine_info;;
    finish ← zoom storage_L now;
    found ← findOngoingTrace coroutine_id;
    let traceInfo := MkTraceInfo (ti_coroutine_id found) (ti_start found) finish in
    removeOngoingTrace (ti_coroutine_id traceInfo);;
    elapsedTime ← tt_minus (ti_end traceInfo) (ti_start traceInfo);
    if tt_get elapsedTime >? threshold_ opts then
      n ← act (fun s => Val (output_counter s) (lset counter_L (s32 (output_counter s + 1)) s));
      mret (Some (output_path_ opts +:+ "/trace" +:+ pretty n +:+ ".pftrace", traceInfo))
    else mret None.

(** The result is [false] only when the fuel of the plot's loop ran out. *)
Definition traceEnd (fuel : nat) (self coroutine_id : Z) : prog Profiler bool :=
  report ← finishTrace self coroutine_id;
  match report with
  | None => mret true
  | Some (path, traceInfo) =>
      deref ← reads deref_of;
      written ← zoom storage_L (write_perfetto deref fuel path traceInfo);
      match written with
      | Some f => modify (fun s => lset files_L (files s ++ [f]) s);; mret true
      | None => mret false
      end
  end.

(** ** Stack frames *)

(** [string(pClassName, strlen(pClassName) - 1)]: the signature without its
    last character; the length of an empty one wraps to [SIZE_MAX]. *)
Definition drop_last {S} (c : string) : prog S string :=
  match String.length c with
  | O => throw (Length_error "basic_string::_M_create")
  | S n => mret (String.substring 0 n c)
  end.

(** The class name of a method that is not in [class_info_map_] yet. *)
Definition resolve_class (methodId : Z) : prog Profiler unit :=
  match GetMethodDeclaringClass methodId with
  | None => undef "use of an uninitialised jclass"
  | Some klass =>
      match GetClassSignature klass with
      | None => undef "use of an uninitialised char*"
      | Some c =>
          name ← drop_last c;
          zoom classes_L (CM.insert methodId name);;
          zoom classes_L (CM.get methodId);;
          mret tt
      end
  end.

Definition processMethodInfo (methodId : Z) : prog Profiler StackFrame :=
  known ← zoom methods_L (CM.contains methodId);
  if (known : bool) then
    zoom methods_L (CM.get methodId);;
    zoom classes_L (CM.get methodId);;
    mret (MkFrame (MethodName methodId) (ClassName methodId))
  else
    match GetMethodName methodId with
    | None => undef "use of an uninitialised char*"
    | Some (name, signature) =>
        has_class ← zoom classes_L (CM.contains methodId);
        (if (has_class : bool) then zoom classes_L (CM.get methodId);; mret tt
         else resolve_class methodId);;
        zoom methods_L (CM.insert methodId (name +:+ signature));;
        zoom methods_L (CM.get methodId);;
        mret (MkFrame (MethodName methodId) (ClassName methodId))
    end.

(** The body for a Java frame is the one of [processMethodInfo]. *)
Definition processProfilerMethodInfo (instruction_info : InstructionInfo) :
    prog Profiler StackFrame :=
  if java_frame instruction_info then
    let jmethodId := instruction instruction_info in
    if negb (jmethodId =? 0) then processMethodInfo jmethodId
    else mret (MkFrame UnknownJava EmptyName)
  else
    match symbol (instruction instruction_info) with
    | Some _ => mret (MkFrame (SymbolName (instruction instruction_info))
                        (LibraryName (instruction instruction_info)))
    | None => mret (MkFrame UnknownNative EmptyName)
    end.

Fixpoint map_prog {S A B} (f : A -> prog S B) (l : list A) : prog S (list B) :=
  match l with
  | [] => mret []
  | x :: l => y ← f x; ys ← map_prog f l; mret (y :: ys)
  end.

(** The elements [0 .. n-1] of an array; reading past its end is undefined. *)
Definition first_instructions {S} (n : Z) (l : list InstructionInfo) :
    prog S (list InstructionInfo) :=
  if (Z.to_nat n <=? length l)%nat then mret (take (Z.to_nat n) l)
  else undef "read past the end of an array".

(** The body of [processTraces]'s loop, for one raw record. *)
Definition processRecord (rawRecord : RawCallTraceRecord) : prog Profiler unit :=
  thread ← zoom jvm_L (findThread (raw_thread rawRecord));
  match thread with
  | None => undef "null pointer dereference"
  | Some l =>
      instrs ← first_instructions (trace_count rawRecord) (instructions (raw_trace rawRecord));
      methods ← map_prog processProfilerMethodInfo instrs;
      zoom storage_L (addProcessedTrace (raw_coroutine_id rawRecord)
        (MkProcessed methods (ThreadName l) (raw_time rawRecord)))
  end.

(** The result is [false] only when the fuel ran out. *)
Fixpoint processTraces (fuel : nat) : prog Profiler bool :=
  rawRecord ← zoom storage_L removeRawTraceHeader;
  match rawRecord with
  | None => mret true
  | Some r =>
      processRecord r;;
      match fuel with
      | O => mret false
      | S fuel => processTraces fuel
      end
  end.

(** ** Coroutines *)

Definition coroutineCreated (self coroutine_id : Z) : prog Profiler unit :=
  parent_id ← get_coroutine self;
  zoom jvm_L (findThread self);;
  zoom storage_L (createCoroutineInfo coroutine_id);;
  c ← zoom storage_L (containsChildCoroutineStorage parent_id);
  if (c : bool) then
    zoom storage_L (addChildCoroutine coroutine_id parent_id);;
    zoom storage_L (createChildCoroutineStorage coroutine_id)
  else mret tt.

Definition COROUTINE_SUSPENSION_STACK_DEPTH : nat := 60.

(** [frames] is what [GetStackTrace] answers for the current thread and a
    buffer of [COROUTINE_SUSPENSION_STACK_DEPTH] frames. *)
Definition coroutineSuspended (frames : option (list Z)) (self coroutine_id : Z) :
    prog Profiler unit :=
  set_coroutine self NOT_FOUND;;
  coroutine_info ← zoom storage_L (getCoroutineInfo coroutine_id);
  if bool_decide (coroutine_info = None) then mret tt
  else
    resumed ← read_info coroutine_info last_resume;
    (if tt_get resumed >? 0 then
       calculate_resource_usage self coroutine_info;;
       upd_info coroutine_info (set_last_resume 0)
     else mret tt);;
    match frames with
    | Some (m :: ms) =>
        t ← zoom storage_L now;
        stack ← map_prog processMethodInfo (take COROUTINE_SUSPENSION_STACK_DEPTH (m :: ms));
        l ← zoom storage_L (zoom susp_heap_L (halloc (MkSuspension coroutine_id t 0 stack)));
        zoom storage_L (addSuspensionInfo (Some l))
    | _ => mret tt
    end.

Definition coroutineResumed (self coroutine_id : Z) : prog Profiler unit :=
  zoom jvm_L (findThread self);;
  set_coroutine self coroutine_id;;
  coroutine_info ← zoom storage_L (getCoroutineInfo coroutine_id);
  if bool_decide (coroutine_info = None) then mret tt
  else
    update_perf_counters self;;
    t ← zoom storage_L now;
    upd_info coroutine_info (set_last_resume t);;
    suspensionInfo ← zoom storage_L (getLastSuspensionInfo coroutine_id);
    match suspensionInfo with
    | Some l =>
        t ← zoom storage_L now;
        zoom storage_L (zoom susp_heap_L (hmodify (Some l) (set_si_end t)))
    | None => mret tt
    end.

Definition coroutineCompleted (self coroutine_id : Z) : prog Profiler unit :=
  set_coroutine self NOT_FOUND;;
  coroutine_info ← zoom storage_L (getCoroutineInfo coroutine_id);
  if bool_decide (coroutine_info = None) then mret tt
  else
    t ← zoom storage_L now;
    upd_info coroutine_info (set_ci_end t);;
    calculate_resource_usage self coroutine_info.

Definition prof_gcStart : prog Profiler unit := zoom storage_L gcStart.
Definition prof_gcFinish : prog Profiler unit := zoom storage_L gcFinish.
End profiler.
