(* ===== verification/ProfilerSafety.v ===== *)
(** * Safety of the profiler's handlers

    The invariant of the [Profiler] object, and the rules of its building
    blocks: each keeps the invariant, loses nothing that a handler holds a
    pointer to, and has no undefined behaviour. *)

From S2P Require Import Prelude ConcurrentList ConcurrentMap TraceTime TraceModel TraceStorage.
From S2P Require Import StorageSafety StorageSpec Perfetto SuspensionPlot PlotSpec PlotProps.
From S2P Require Import Jvm Profiler.
From Stdlib Require Import ZArith Lia.
From stdpp Require Import base gmap list strings numbers pretty.
Local Open Scope Z_scope.
Local Open Scope kt_scope.

(** ** What the handlers rely on *)

(** Times a thread can have used: the seconds fit well below the range of the
    microsecond counter, and the switch counters are [long]s. *)
Definition time_ok (t : timeval) : Prop := 0 <= tv_sec t < 2 ^ 42 /\ 0 <= tv_usec t < 1000000.
Definition usage_ok (u : rusage) : Prop :=
  time_ok (ru_utime u) /\ time_ok (ru_stime u) /\ in_u 63 (ru_nvcsw u) /\ in_u 63 (ru_nivcsw u).

(** [getrusage] and [thread_info] report such times. *)
Class UsageLaws `{E : !Environment} := {
  usage_range : forall self n, usage_ok (usage self n);
  thread_info_range : forall self n system_time user_time,
    thread_info self n = Some (system_time, user_time) ->
    time_ok system_time /\ time_ok user_time;
}.

(** JVMTI knows the method and its class. *)
Definition method_answered `{E : !Environment} (m : Z) : Prop :=
  is_Some (GetMethodName m) /\
  exists k c, GetMethodDeclaringClass m = Some k /\ GetClassSignature k = Some c /\
    c <> EmptyString.

(** What JVMTI calls a method and its class; the class is named by its signature
    without the last character. *)
Definition method_text `{E : !Environment} (m : Z) : option string :=
  '(name, signature) ← GetMethodName m; Some (name +:+ signature).
Definition class_text `{E : !Environment} (m : Z) : option string :=
  klass ← GetMethodDeclaringClass m;
  c ← GetClassSignature klass;
  Some (String.substring 0 (pred (String.length c)) c).

Definition time_range (t : Z) : Prop := 0 <= t < 2 ^ 63.

(** ** The invariant *)

Section invariant.
Context `{E : !Environment}.
Implicit Types s : Profiler.

Definition methods s : gmap Z string := CM.map_ (method_info_map_ s).
Definition classes s : gmap Z string := CM.map_ (class_info_map_ s).

(** A pointer that designates a string. *)
Definition name_known s (p : strptr) : Prop :=
  match p with
  | MethodName id => is_Some (methods s !! id)
  | ClassName id => is_Some (classes s !! id)
  | SymbolName a | LibraryName a => is_Some (symbol a)
  | ThreadName l => valid (thread_heap (jvm_ s)) l
  | UnknownNative | UnknownJava | EmptyName => True
  end.

Definition frame_known s (f : StackFrame) : Prop :=
  name_known s (sf_frame f) /\ name_known s (sf_base f).

Definition sample_known s (r : ProcessedTraceRecord) : Prop :=
  Forall (frame_known s) (stack_trace r).

Record prof_wf s : Prop := {
  pw_storage : storage_wf (storage_ s);
  pw_jvm : jvm_wf (jvm_ s);
  pw_maps : forall id, is_Some (methods s !! id) -> is_Some (classes s !! id);
  pw_methods : forall id n, methods s !! id = Some n -> method_text id = Some n;
  pw_classes : forall id n, classes s !! id = Some n -> class_text id = Some n;
  pw_samples : forall l c, cells (traces_heap (storage_ s)) !! l = Some c ->
    Forall (sample_known s) (CL.list_ c);
  pw_suspensions : forall l i, cells (suspension_heap (storage_ s)) !! l = Some i ->
    Forall (frame_known s) (suspension_stack_trace i);
  pw_infos : forall l i, cells (info_heap (storage_ s)) !! l = Some i ->
    time_range (last_resume i);
  pw_ongoing : forall k i, a_ongoing (abs (storage_ s)) !! k = Some i -> time_range (ti_start i);
  pw_usage : forall self, usage_ok (current_rusage_ (get_locals self s));
}.

(** The object of a thread, with its identifier. *)
Definition thread_at s (l : nat) (i : Z) : Prop :=
  exists t, cells (thread_heap (jvm_ s)) !! l = Some t /\ th_id t = i.

Lemma thread_at_valid s l : valid (thread_heap (jvm_ s)) l <-> exists i, thread_at s l i.
Proof. split; [intros [t Ht]; by exists (th_id t), t|intros (i & t & Ht & _); by exists t]. Qed.

(** What later states keep of earlier ones. *)
Record grows s s' : Prop := {
  gr_methods : forall id, is_Some (methods s !! id) -> is_Some (methods s' !! id);
  gr_classes : forall id, is_Some (classes s !! id) -> is_Some (classes s' !! id);
  gr_threads : forall l i, thread_at s l i -> thread_at s' l i;
  gr_registered : forall t, is_Some (registered (jvm_ s) t) -> is_Some (registered (jvm_ s') t);
  gr_infos : forall l, valid (info_heap (storage_ s)) l -> valid (info_heap (storage_ s')) l;
  gr_info_map : forall id p,
    CM.map_ (coroutine_info_map_ (storage_ s)) !! id = Some p ->
    CM.map_ (coroutine_info_map_ (storage_ s')) !! id = Some p;
  gr_files : files s' = files s;
  gr_counter : output_counter s' = output_counter s;
  gr_active : prof_active s' = prof_active s;
}.

#[export] Instance grows_preorder : PreOrder grows.
Proof.
  split.
  - intros s. by split.
  - intros s1 s2 s3 [] []. split; eauto; congruence.
Qed.

Lemma name_known_grows s s' p : grows s s' -> name_known s p -> name_known s' p.
Proof.
  intros []. destruct p; simpl; eauto. rewrite !thread_at_valid. naive_solver.
Qed.

Lemma frame_known_grows s s' f : grows s s' -> frame_known s f -> frame_known s' f.
Proof. intros Hg []. split; eauto using name_known_grows. Qed.

Lemma frames_known_grows s s' fs :
  grows s s' -> Forall (frame_known s) fs -> Forall (frame_known s') fs.
Proof. intros Hg H. eapply Forall_impl; [exact H|]. intros f. by apply frame_known_grows. Qed.

Lemma samples_known_grows s s' rs :
  grows s s' -> Forall (sample_known s) rs -> Forall (sample_known s') rs.
Proof. intros Hg H. eapply Forall_impl; [exact H|]. intros r. by apply frames_known_grows. Qed.

Lemma make_profiler_wf jvm : jvm_wf jvm -> prof_wf (make_profiler jvm).
Proof.
  intros Hj. split; [apply make_storage_wf|exact Hj|intros id [? H]; done|intros ? ? H; done..|].
  intros self. unfold get_locals; simpl. rewrite lookup_empty. simpl.
  unfold usage_ok, time_ok, in_u; simpl. lia.
Qed.

(** ** Safe programs *)

Lemma and_group (P Q R : Prop) : P /\ Q -> R -> P /\ Q /\ R.
Proof. tauto. Qed.

(** [safe p s Q]: from [s], [p] returns in a state that keeps the invariant and
    what is known of [s], with a value and a state that satisfy [Q]. *)
Definition safe {A} (p : prog Profiler A) s (Q : A -> Profiler -> Prop) : Prop :=
  wp p s (fun a s' => prof_wf s' /\ grows s s' /\ Q a s').

Lemma safe_bind {A B} (p : prog Profiler A) (g : A -> prog Profiler B) s Q :
  safe p s (fun a s1 => grows s s1 -> prof_wf s1 -> safe (g a) s1 Q) -> safe (p ≫= g) s Q.
Proof.
  intros Hp. apply wp_bind. eapply wp_mono; [|exact Hp]. intros a s1 (Hwf & Hg & Ha).
  eapply wp_mono; [|exact (Ha Hg Hwf)]. intros b s2 (Hwf2 & Hg2 & HQ).
  split; [done|]. split; [by etrans|done].
Qed.

Lemma safe_ret {A} (a : A) s (Q : A -> Profiler -> Prop) : prof_wf s -> Q a s -> safe (mret a) s Q.
Proof. intros Hwf HQ. apply wp_ret. by split; [|split]. Qed.

Lemma safe_mono {A} (p : prog Profiler A) s (Q Q' : A -> Profiler -> Prop) :
  (forall a s', prof_wf s' -> grows s s' -> Q a s' -> Q' a s') -> safe p s Q -> safe p s Q'.
Proof. intros H. apply wp_mono. intros a s' (Hw & Hg & HQ). auto. Qed.

(** A program that changes nothing. *)
Lemma safe_pure {A} (p : prog Profiler A) s (Q : A -> Profiler -> Prop) :
  prof_wf s -> wp p s (fun a s' => s' = s /\ Q a s) -> safe p s Q.
Proof. intros Hwf. apply wp_mono. intros a s' [-> HQ]. by split; [|split]. Qed.

(** A change of the storage that keeps samples, suspensions and infos. *)
Lemma storage_change s t :
  prof_wf s -> storage_wf t ->
  traces_heap t = traces_heap (storage_ s) ->
  suspension_heap t = suspension_heap (storage_ s) ->
  info_heap t = info_heap (storage_ s) ->
  CM.map_ (coroutine_info_map_ t) = CM.map_ (coroutine_info_map_ (storage_ s)) ->
  (forall k i, a_ongoing (abs t) !! k = Some i -> time_range (ti_start i)) ->
  prof_wf (lset storage_L t s) /\ grows s (lset storage_L t s).
Proof.
  intros [] Ht Htr Hsu Hin Him Hon.
  assert (Hg : grows s (lset storage_L t s)).
  { split; simpl; rewrite ?Hin, ?Him; done. }
  split; [|done]. split; simpl; rewrite ?Htr, ?Hsu, ?Hin; auto;
    intros; eauto using samples_known_grows, frames_known_grows.
Qed.
End invariant.

(** ** Rules of the building blocks *)

Definition get_coroutine_of (self : Z) (s : Profiler) : Z :=
  current_coroutine_id (get_locals self s).

Section rules.
Context `{CK : !SteadyClock} `{E : !Environment} `{UL : !UsageLaws}.
Implicit Types s : Profiler.

Lemma wf_clock t c : storage_wf t -> storage_wf (lset clock_L c t).
Proof. intros Hwf. storage_wf. Qed.

Lemma safe_now s (Q : TraceTime -> Profiler -> Prop) :
  prof_wf s ->
  (forall s', storage_ s' = lset clock_L (ClockState (S (readings (clock (storage_ s)))))
                              (storage_ s) ->
     Q (steady (readings (clock (storage_ s)))) s') ->
  safe (zoom storage_L now) s Q.
Proof.
  intros Hwf HQ. apply wp_zoom, wp_now. cbn [lget storage_L]. apply and_group.
  - apply storage_change; try done; [apply wf_clock, Hwf|]. apply Hwf.
  - by apply HQ.
Qed.

Lemma steady_time i : time_range (steady i).
Proof. pose proof (steady_range i). unfold time_range. lia. Qed.

(** Methods of the storage that keep samples, suspensions and infos. *)
Definition plain (o : storage_op) : Prop :=
  match o with
  | OpAddProcessed _ _ | OpAddSuspension _ | OpCreateInfo _ | OpMark | OpClean => False
  | OpAddOngoing i => time_range (ti_start i)
  | _ => True
  end.

Lemma ongoing_step o a :
  plain o -> (forall k i, a_ongoing a !! k = Some i -> time_range (ti_start i)) ->
  forall k i, a_ongoing (astep o a) !! k = Some i -> time_range (ti_start i).
Proof.
  intros Ho Ha k i. destruct a as [raw tr trm on ch chm]; simpl in *.
  destruct o; simpl; try apply Ha; try done; unfold if_absent.
  - destruct (on !! ti_coroutine_id i0); [apply Ha|]. rewrite lookup_insert.
    case_decide; [|apply Ha]. by intros [= <-].
  - destruct (on !! id); [apply Ha|]. rewrite lookup_insert.
    case_decide; [|apply Ha]. intros [= <-]. unfold time_range; simpl. lia.
  - rewrite lookup_delete_Some. intros [_ Hi]. eauto.
Qed.

Lemma safe_exec s o :
  prof_wf s -> op_pre (storage_ s) o -> plain o ->
  safe (zoom storage_L (exec o)) s (fun _ s' => abs (storage_ s') = astep o (abs (storage_ s))).
Proof.
  intros Hwf Hpre Ho. apply wp_zoom. cbn [lget storage_L]. pose proof (pw_storage s Hwf) as Hst.
  eapply wp_mono; [|apply (wp_and _ _ _ _ (exec_wf _ o Hst Hpre)
                            (wp_and _ _ _ _ (exec_refines _ o Hst Hpre)
                                            (exec_frame _ o Hst Hpre)))].
  intros [] t (Ht & Ha & Htr & Hsu & Hin & Him & _). apply and_group; [|exact Ha].
  apply storage_change; try done; [by destruct o..| |].
  - destruct o; try done; by rewrite Him.
  - rewrite Ha. eapply ongoing_step; [done|]. apply Hwf.
Qed.

(** The same for a method whose result is used. *)
Lemma safe_exec_result {A} s o (p : prog TraceStorage A) (R : A -> TraceStorage -> Prop) :
  exec o = ignore p -> prof_wf s -> op_pre (storage_ s) o -> plain o ->
  wp p (storage_ s) R ->
  safe (zoom storage_L p) s (fun a s' =>
    abs (storage_ s') = astep o (abs (storage_ s)) /\ R a (storage_ s')).
Proof.
  intros Ho Hwf Hpre Hpl HR. pose proof (safe_exec s o Hwf Hpre Hpl) as Hs. rewrite Ho in Hs.
  assert (Hz : wp (zoom storage_L p) s (fun a s' => R a (storage_ s'))) by by apply wp_zoom.
  assert (Hi : wp (zoom storage_L p) s (fun _ s' => prof_wf s' /\ grows s s' /\
                 abs (storage_ s') = astep o (abs (storage_ s)))).
  { clear Hz. unfold safe, ignore, wp in *. rewrite run_zoom, run_bind in Hs. rewrite run_zoom.
    by destruct (run p (lget storage_L s)). }
  eapply wp_mono; [|exact (wp_and _ _ _ _ Hi Hz)]. cbv beta. naive_solver.
Qed.

(** *** Infos *)

(** A pointer to the info of a coroutine, or null. *)
Definition info_ptr s (id : Z) (p : ptr) : Prop :=
  (p = None /\ CM.map_ (coroutine_info_map_ (storage_ s)) !! id = None) \/
  exists l, p = Some l /\ valid (info_heap (storage_ s)) l /\
    CM.map_ (coroutine_info_map_ (storage_ s)) !! id = Some (Some l).

Lemma safe_getInfo s id (Q : ptr -> Profiler -> Prop) :
  prof_wf s -> (forall p, info_ptr s id p -> Q p s) ->
  safe (zoom storage_L (getCoroutineInfo id)) s Q.
Proof.
  intros Hwf HQ. apply safe_pure; [done|]. apply wp_zoom, wp_getCoroutineInfo.
  rewrite lset_lget. split; [done|]. apply HQ. cbn [lget storage_L].
  destruct (CM.map_ (coroutine_info_map_ (storage_ s)) !! id) as [p|] eqn:Hp; [|by left].
  pose proof (pw_storage s Hwf) as Hst.
  destruct (owns_lookup _ _ _ _ (wf_infos _ Hst) Hp) as (l & c & -> & Hl).
  right. exists l. split; [done|]. split; [by eexists|done].
Qed.

Lemma safe_createInfo s id :
  prof_wf s -> safe (zoom storage_L (createCoroutineInfo id)) s (fun _ s' =>
    abs (storage_ s') = abs (storage_ s) /\
    steady (readings (clock (storage_ s))) <= steady (readings (clock (storage_ s'))) /\
    is_Some (CM.map_ (coroutine_info_map_ (storage_ s')) !! id)).
Proof.
  intros Hwf. apply wp_zoom. cbn [lget storage_L]. pose proof (pw_storage s Hwf) as Hst.
  pose proof Hwf as [].
  assert (Hh : heap_wf (info_heap (storage_ s))) by apply Hst.
  assert (Hinf : forall l i, <[next (info_heap (storage_ s)) := new_coroutine (storage_ s)]>
             (cells (info_heap (storage_ s))) !! l = Some i -> time_range (last_resume i)).
  { intros l i. rewrite lookup_insert. case_decide; [|apply pw_infos0].
    intros [= <-]. apply steady_time. }
  assert (Hgr : forall t, info_heap t = info_heap (after_create (storage_ s)) ->
     (forall j p, CM.map_ (coroutine_info_map_ (storage_ s)) !! j = Some p ->
        CM.map_ (coroutine_info_map_ t) !! j = Some p) -> grows s (lset storage_L t s)).
  { intros t Hi Hm. split; simpl; try done. intros l Hl. rewrite Hi. by apply valid_grow. }
  apply wp_createCoroutineInfo.
  - intros Hnone. set (t := lset infos_L _ _).
    assert (Hg : grows s (lset storage_L t s)).
    { apply Hgr; [done|]. intros j p Hj. simpl. rewrite lookup_insert_ne; [done|].
      intros <-. by rewrite Hnone in Hj. }
    split; [|split; [done|split; [done|split; [apply steady_mono; simpl; lia|]]];
              simpl; rewrite lookup_insert_eq; eauto].
    split; simpl; auto; [by apply wf_create_info|..];
      intros; eauto using samples_known_grows, frames_known_grows.
  - intros Hsome. set (t := after_create _).
    assert (Hg : grows s (lset storage_L t s)) by by apply Hgr.
    split; [|split; [done|split; [done|split; [apply steady_mono; simpl; lia|done]]]].
    split; simpl; auto; [by apply wf_after_create|..];
      intros; eauto using samples_known_grows, frames_known_grows.
Qed.

Lemma safe_read_info {A} s l (f : CoroutineInfo -> A) (Q : A -> Profiler -> Prop) :
  prof_wf s -> valid (info_heap (storage_ s)) l ->
  (forall i, cells (info_heap (storage_ s)) !! l = Some i -> Q (f i) s) ->
  safe (read_info (Some l) f) s Q.
Proof.
  intros Hwf [i Hi] HQ. apply safe_pure; [done|]. apply wp_zoom, wp_zoom.
  eapply wp_hread; [exact Hi|]. rewrite !lset_lget. auto.
Qed.

Lemma wf_put_info t l i i' :
  storage_wf t -> cells (info_heap t) !! l = Some i ->
  suspensions_list i' = suspensions_list i ->
  storage_wf (lset info_heap_L (hput l i' (info_heap t)) t).
Proof.
  intros Hwf Hl Hs. pose proof (wf_suspensions t Hwf) as Hsu.
  assert (valid (info_heap t) l) by by eexists. storage_wf.
  intros l' j. rewrite lookup_insert. case_decide; [|apply Hsu]. intros [= <-].
  rewrite Hs. eauto.
Qed.

Lemma safe_upd_info s l f :
  prof_wf s -> valid (info_heap (storage_ s)) l ->
  (forall i, suspensions_list (f i) = suspensions_list i) ->
  (forall i, time_range (last_resume i) -> time_range (last_resume (f i))) ->
  safe (upd_info (Some l) f) s (fun _ s' =>
    exists i, cells (info_heap (storage_ s)) !! l = Some i /\
      storage_ s' = lset info_heap_L (hput l (f i) (info_heap (storage_ s))) (storage_ s)).
Proof.
  intros Hwf [i Hi] Hf Hr. apply wp_zoom, wp_zoom. eapply wp_hmodify; [exact Hi|].
  cbn [lget storage_L info_heap_L].
  set (t := lset info_heap_L _ _). pose proof Hwf as [].
  assert (Hg : grows s (lset storage_L t s)).
  { split; simpl; try done. intros l' Hl'. by apply valid_put. }
  assert (Hv : valid (info_heap (storage_ s)) l) by by eexists.
  split; [|split; [done|by exists i]]. split; simpl; auto.
  - by eapply wf_put_info.
  - intros l' i'. rewrite lookup_insert. case_decide; [|eauto]. intros [= <-]. eauto.
Qed.

(** *** Thread-local variables *)

Lemma get_locals_set self self' v m s :
  locals_ s = <[self' := v]> m ->
  get_locals self s = if decide (self = self') then v else default fresh_locals (m !! self).
Proof.
  intros Hm. unfold get_locals. rewrite Hm, lookup_insert.
  destruct (decide (self' = self)), (decide (self = self')); subst; done.
Qed.

Lemma locals_change s m n :
  prof_wf s -> (forall self, usage_ok (current_rusage_ (default fresh_locals (m !! self)))) ->
  prof_wf (lset usage_L n (lset locals_L m s)) /\ grows s (lset usage_L n (lset locals_L m s)).
Proof.
  intros [] Hm. assert (Hg : grows s (lset usage_L n (lset locals_L m s))) by by split.
  split; [|done]. split; simpl; auto; intros; eauto using samples_known_grows, frames_known_grows.
Qed.

Lemma safe_set_coroutine s self id (Q : unit -> Profiler -> Prop) :
  prof_wf s ->
  (forall s', storage_ s' = storage_ s -> get_coroutine_of self s' = id -> Q tt s') ->
  safe (set_coroutine self id) s Q.
Proof.
  intros Hwf HQ. apply wp_modify. apply and_group.
  - set (m := <[self := _]> (locals_ s)). pose proof (locals_change s m (usage_readings s) Hwf) as H.
    destruct s; apply H. intros self'. unfold m; simpl. rewrite lookup_insert.
    case_decide; [subst; simpl|]; apply (pw_usage _ Hwf).
  - apply HQ; [done|]. unfold get_coroutine_of. erewrite get_locals_set by done.
    by rewrite decide_True.
Qed.

Lemma safe_getrusage s self (Q : rusage -> Profiler -> Prop) :
  prof_wf s ->
  (forall u s', usage_ok u -> storage_ s' = storage_ s ->
     current_rusage_ (get_locals self s') = u -> Q u s') ->
  safe (getrusage self) s Q.
Proof.
  intros Hwf HQ. eapply wp_act; [reflexivity|]. cbv beta. apply and_group.
  - apply locals_change; [done|]. intros self'. rewrite lookup_insert.
    case_decide; [apply usage_range|apply (pw_usage _ Hwf)].
  - apply HQ; [apply usage_range|done|]. erewrite get_locals_set by done. by rewrite decide_True.
Qed.

Lemma safe_set_usage s self f :
  prof_wf s -> usage_ok (f (current_rusage_ (get_locals self s))) ->
  safe (set_usage self f) s (fun _ s' => storage_ s' = storage_ s).
Proof.
  intros Hwf Hu. apply wp_modify. apply and_group; [|done].
  set (m := <[self := _]> (locals_ s)). pose proof (locals_change s m (usage_readings s) Hwf) as H.
  destruct s; apply H. intros self'. unfold m; simpl. rewrite lookup_insert.
  case_decide; [done|apply (pw_usage _ Hwf)].
Qed.

Lemma safe_set_stime s self t :
  prof_wf s -> time_ok t ->
  safe (set_usage self (set_stime t)) s (fun _ s' => storage_ s' = storage_ s).
Proof. intros Hwf Ht. apply safe_set_usage; [done|]. by destruct (pw_usage s Hwf self) as (?&?&?). Qed.

Lemma safe_set_utime s self t :
  prof_wf s -> time_ok t ->
  safe (set_usage self (set_utime t)) s (fun _ s' => storage_ s' = storage_ s).
Proof. intros Hwf Ht. apply safe_set_usage; [done|]. by destruct (pw_usage s Hwf self) as (?&?&?). Qed.

Lemma safe_thread_info s self (Q : option (timeval * timeval) -> Profiler -> Prop) :
  prof_wf s ->
  (forall s', storage_ s' = storage_ s -> Q None s') ->
  (forall t u s', time_ok t -> time_ok u -> storage_ s' = storage_ s -> Q (Some (t, u)) s') ->
  safe (thread_basic_info self) s Q.
Proof.
  intros Hwf Hnone Hsome. eapply wp_act; [reflexivity|]. cbv beta. apply and_group.
  - pose proof (locals_change s (locals_ s) (S (usage_readings s)) Hwf) as H.
    destruct s; apply H. apply (pw_usage _ Hwf).
  - destruct (thread_info _ _) as [[t u]|] eqn:Hi; [|by apply Hnone].
    apply thread_info_range in Hi as [Ht Hu]. by apply Hsome.
Qed.

(** *** Arithmetic *)

Lemma time_minus a b : time_range a -> time_range b -> in_s 64 (a - b).
Proof. unfold time_range, in_s. lia. Qed.

Lemma safe_tt_minus s a b (Q : TraceTime -> Profiler -> Prop) :
  prof_wf s -> time_range a -> time_range b -> Q (a - b) s -> safe (tt_minus a b) s Q.
Proof.
  intros Hwf Ha Hb HQ. apply safe_pure; [done|]. eapply wp_run; [|by split].
  apply run_tt_minus. by apply time_minus.
Qed.

Definition elapsed (e b : timeval) : Z :=
  (tv_sec e - tv_sec b) * 1000000 + (tv_usec e - tv_usec b).

Lemma wp_elapsed {S} (s : S) e b (Q : TraceTime -> S -> Prop) :
  time_ok e -> time_ok b -> Q (elapsed e b) s -> wp (calculate_elapsed_time e b) s Q.
Proof.
  intros [He1 He2] [Hb1 Hb2] HQ. unfold calculate_elapsed_time, elapsed in *.
  do 4 (apply wp_bind; apply wp_signed; [unfold in_s, usec_bits; destruct target; lia|]).
  apply wp_ret.
  unfold tt_make. by rewrite wraps_small by (unfold in_s; lia).
Qed.

Lemma safe_elapsed s e b (Q : TraceTime -> Profiler -> Prop) :
  prof_wf s -> time_ok e -> time_ok b -> Q (elapsed e b) s ->
  safe (calculate_elapsed_time e b) s Q.
Proof. intros Hwf He Hb HQ. apply safe_pure; [done|]. by apply wp_elapsed. Qed.

Lemma safe_signed s x (Q : Z -> Profiler -> Prop) :
  prof_wf s -> in_s 64 x -> Q x s -> safe (signed 64 x) s Q.
Proof. intros Hwf Hx HQ. apply safe_pure; [done|]. by apply wp_signed. Qed.

Lemma switches_minus a b : in_u 63 a -> in_u 63 b -> in_s 64 (a - b).
Proof. unfold in_u, in_s. lia. Qed.

Lemma valid_info_grows s s' l :
  grows s s' -> valid (info_heap (storage_ s)) l -> valid (info_heap (storage_ s')) l.
Proof. intros []. auto. Qed.

(** The storage [base] with the info [i] in cell [l]. *)
Definition put_info (base : TraceStorage) (l : nat) (i : CoroutineInfo) : TraceStorage :=
  lset info_heap_L (hput l i (info_heap base)) base.

Lemma put_info_id t l i : cells (info_heap t) !! l = Some i -> put_info t l i = t.
Proof. intros Hi. unfold put_info. rewrite hput_id by done. apply (lset_lget info_heap_L). Qed.

Lemma safe_upd_put s base l i f :
  prof_wf s -> storage_ s = put_info base l i ->
  (forall i, suspensions_list (f i) = suspensions_list i) ->
  (forall i, time_range (last_resume i) -> time_range (last_resume (f i))) ->
  safe (upd_info (Some l) f) s (fun _ s' =>
    storage_ s' = put_info base l (f i) /\ locals_ s' = locals_ s).
Proof.
  intros Hwf Hs Hf Hr.
  assert (Hi : cells (info_heap (storage_ s)) !! l = Some i)
    by (rewrite Hs; apply lookup_insert_eq).
  assert (Hl : wp (upd_info (Some l) f) s (fun _ s' => locals_ s' = locals_ s)).
  { apply wp_zoom, wp_zoom. by eapply wp_hmodify. }
  pose proof (safe_upd_info s l f Hwf ltac:(by eexists) Hf Hr) as Hsafe.
  eapply wp_mono; [|exact (wp_and _ _ _ _ Hsafe Hl)]. cbv beta.
  intros [] s' ((Hwf' & Hg & i' & Hi' & Hst) & Hloc). split; [done|]. split; [done|].
  split; [|done]. rewrite Hi in Hi'. injection Hi' as <-. rewrite Hst, Hs. unfold put_info.
  rewrite lset_lset. unfold info_heap_L; simpl. by rewrite hput_hput.
Qed.

Lemma put_info_valid base l i : valid (info_heap (put_info base l i)) l.
Proof. eexists. apply lookup_insert_eq. Qed.

(** What [calculate_resource_usage] charges to a coroutine at time [t], when
    the usage of its thread went from [last] to [u]; [None] when the system did
    not report it.  The switches are counted on Linux only. *)
Definition charge_cpu (last : rusage) (u : option rusage) (i : CoroutineInfo) : CoroutineInfo :=
  match u with
  | None => i
  | Some u =>
      let i := add_user (elapsed (ru_utime u) (ru_utime last))
                 (add_system (elapsed (ru_stime u) (ru_stime last)) i) in
      match target with
      | Apple => i
      | Linux => add_involuntary (ru_nivcsw u - ru_nivcsw last)
                   (add_voluntary (ru_nvcsw u - ru_nvcsw last) i)
      end
  end.

Definition charge (t : TraceTime) (last : rusage) (u : option rusage) (i : CoroutineInfo) :
    CoroutineInfo := charge_cpu last u (add_wall (t - last_resume i) i).

(** The members the CPU times do not touch. *)
Lemma charge_keeps t last u i :
  last_resume (charge t last u i) = last_resume i /\
  suspensions_list (charge t last u i) = suspensions_list i /\
  wall_clock_running_time (charge t last u i) =
    tt_add_assign (wall_clock_running_time i) (t - last_resume i).
Proof. unfold charge, charge_cpu. by destruct u, target. Qed.

Definition tick (t : TraceStorage) : TraceStorage :=
  lset clock_L (ClockState (S (readings (clock t)))) t.

Definition usage_of (self : Z) (s : Profiler) : rusage := current_rusage_ (get_locals self s).

Lemma safe_charge_apple s self base l i last :
  target = Apple -> prof_wf s -> storage_ s = put_info base l i -> usage_ok last ->
  safe (charge_apple self (Some l) last) s (fun _ s' => exists u,
    storage_ s' = put_info base l (charge_cpu last u i)).
Proof.
  intros Ht Hwf Hs (Hu1 & Hu2 & _). unfold charge_apple, charge_cpu. rewrite Ht.
  apply safe_bind, safe_thread_info; [done|..].
  - intros s1 Hs1 _ Hwf1. apply safe_ret; [done|]. exists None. by rewrite Hs1.
  - intros t u s1 Ht1 Ht2 Hs1 _ Hwf1.
    apply safe_bind. eapply safe_mono; [|by apply safe_set_stime].
    intros ? s2 Hwf2 _ Hs2 _ _. rewrite Hs1, Hs in Hs2.
    apply safe_bind, safe_elapsed; [done..|]. intros _ _.
    apply safe_bind. eapply safe_mono; [|by eapply safe_upd_put; [|exact Hs2|..]].
    intros ? s3 Hwf3 _ [Hs3 _] _ _.
    apply safe_bind. eapply safe_mono; [|by apply safe_set_utime].
    intros ? s4 Hwf4 _ Hs4 _ _. rewrite Hs3 in Hs4.
    apply safe_bind, safe_elapsed; [done..|]. intros _ _.
    eapply safe_mono; [|by eapply safe_upd_put; [|exact Hs4|..]].
    intros ? s5 _ _ [Hs5 _]. exists (Some (MkUsage u t 0 0)). exact Hs5.
Qed.

Lemma safe_charge_linux s self base l i last :
  target = Linux -> prof_wf s -> storage_ s = put_info base l i -> usage_ok last ->
  safe (charge_linux self (Some l) last) s (fun _ s' => exists u,
    storage_ s' = put_info base l (charge_cpu last u i)).
Proof.
  intros Ht Hwf Hs (Hu1 & Hu2 & Hu4 & Hu5). unfold charge_linux, charge_cpu. rewrite Ht.
  apply safe_bind, safe_getrusage; [done|]. intros u s3 (Hv1 & Hv2 & Hv3 & Hv4) Hs3 _ _ Hwf3.
  rewrite Hs in Hs3.
  apply safe_bind, safe_elapsed; [done..|]. intros _ _.
  apply safe_bind. eapply safe_mono; [|by eapply safe_upd_put; [|exact Hs3|..]].
  intros ? s4 Hwf4 _ [Hs4 Hl4] _ _.
  apply safe_bind, safe_elapsed; [done..|]. intros _ _.
  apply safe_bind. eapply safe_mono; [|by eapply safe_upd_put; [|exact Hs4|..]].
  intros ? s5 Hwf5 _ [Hs5 Hl5] _ _.
  apply safe_bind, safe_signed; [done|by apply switches_minus|]. intros _ _.
  apply safe_bind. eapply safe_mono; [|by eapply safe_upd_put; [|exact Hs5|..]].
  intros ? s6 Hwf6 _ [Hs6 Hl6] _ _.
  apply safe_bind, safe_signed; [done|by apply switches_minus|]. intros _ _.
  eapply safe_mono; [|by eapply safe_upd_put; [|exact Hs6|..]].
  intros ? s7 _ _ [Hs7 _]. exists (Some u). exact Hs7.
Qed.

Lemma safe_resource_usage s self l i :
  prof_wf s -> cells (info_heap (storage_ s)) !! l = Some i ->
  safe (calculate_resource_usage self (Some l)) s (fun _ s' => exists u,
    storage_ s' = put_info (tick (storage_ s)) l
                    (charge (steady (readings (clock (storage_ s)))) (usage_of self s) u i)).
Proof.
  intros Hwf Hi. unfold calculate_resource_usage. set (base := tick (storage_ s)).
  set (t := steady _).
  assert (Hn : safe (zoom storage_L now) s (fun t' s1 =>
            t' = t /\ storage_ s1 = base /\ locals_ s1 = locals_ s)).
  { apply (wp_mono _ _ (fun a s' => (prof_wf s' /\ grows s s' /\ a = t /\ storage_ s' = base)
                                    /\ locals_ s' = locals_ s)); [naive_solver|].
    apply wp_and; [by apply safe_now|]. by apply wp_zoom, wp_now. }
  apply safe_bind. eapply safe_mono; [|exact Hn]. intros ? s1 Hwf1 _ (-> & Hs1 & Hloc1) _ _.
  assert (Hi1 : cells (info_heap base) !! l = Some i) by exact Hi.
  rewrite <- (put_info_id base l i Hi1) in Hs1.
  apply safe_bind, safe_read_info; [done|rewrite Hs1; apply put_info_valid|].
  intros i1 Hi1' _ _. rewrite Hs1 in Hi1'. rewrite (put_info_id base l i Hi1) in Hi1'.
  rewrite Hi1 in Hi1'. injection Hi1' as <-.
  apply safe_bind, safe_tt_minus; [done|apply steady_time|by eapply (pw_infos _ Hwf)|].
  intros _ _. apply safe_bind. eapply safe_mono; [|by eapply safe_upd_put; [|exact Hs1|..]].
  intros ? s2 Hwf2 _ [Hs2 Hloc2] _ _.
  apply safe_bind. unfold get_usage. apply safe_pure; [done|]. apply wp_reads. split; [done|].
  intros _ _. pose proof (pw_usage s2 Hwf2 self) as Hu.
  assert (Hlast : current_rusage_ (get_locals self s2) = usage_of self s)
    by (unfold usage_of, get_locals; by rewrite Hloc2, Hloc1).
  rewrite Hlast in *. unfold charge.
  destruct target eqn:Ht; [by apply safe_charge_linux|by apply safe_charge_apple].
Qed.

(** *** Threads *)

Lemma jvm_put j l t t' :
  jvm_wf j -> cells (thread_heap j) !! l = Some t -> th_id t' = th_id t ->
  let j' := lset thread_heap_L (hput l t' (thread_heap j)) j in
  jvm_wf j' /\ forall x, is_Some (registered j x) -> is_Some (registered j' x).
Proof.
  intros [Hh Hv] Hl Hid j'. assert (Hvl : valid (thread_heap j) l) by by eexists. split.
  - split; simpl; [by apply heap_wf_put|by apply Forall_valid_put].
  - intros x. unfold registered, j'; simpl.
    induction Hv as [|l1 ls [t1 Ht1] _ IH]; [done|]. rewrite !omap_cons, Ht1, lookup_insert.
    case_decide as Heq.
    + subst l1. rewrite Hl in Ht1. injection Ht1 as <-. simpl. rewrite Hid.
      destruct (th_id t =? x); [eauto|exact IH].
    + rewrite Ht1. simpl. destruct (th_id t1 =? x); [eauto|exact IH].
Qed.

(** A change of the registry that keeps the threads. *)
Lemma jvm_change s j :
  prof_wf s -> jvm_wf j -> (forall x, is_Some (registered (jvm_ s) x) -> is_Some (registered j x)) ->
  (forall l i, thread_at s l i -> thread_at (lset jvm_L j s) l i) ->
  prof_wf (lset jvm_L j s) /\ grows s (lset jvm_L j s).
Proof.
  intros Hwf Hj Hr Ht. assert (Hg : grows s (lset jvm_L j s)) by by split.
  split; [|done]. destruct Hwf. split; simpl; auto;
    intros; eauto using samples_known_grows, frames_known_grows.
Qed.

Lemma thread_change s l t t' :
  prof_wf s -> cells (thread_heap (jvm_ s)) !! l = Some t -> th_id t' = th_id t ->
  let s' := lset jvm_L (lset thread_heap_L (hput l t' (thread_heap (jvm_ s))) (jvm_ s)) s in
  prof_wf s' /\ grows s s'.
Proof.
  intros Hwf Hl Hid. destruct (jvm_put _ l t t' (pw_jvm s Hwf) Hl Hid) as [Hj' Hr].
  apply jvm_change; [done..|]. intros l' i (u & Hl' & Hi). unfold thread_at; simpl.
  rewrite lookup_insert. case_decide as Heq; [|by exists u]. subst l'. rewrite Hl in Hl'. injection Hl' as <-.
  exists t'. by rewrite Hid.
Qed.

Lemma safe_count_traces s self n :
  prof_wf s -> is_Some (registered (jvm_ s) self) ->
  safe (count_traces self n) s (fun _ s' => storage_ s' = storage_ s).
Proof.
  intros Hwf Hreg. unfold count_traces. apply wp_bind, wp_zoom, wp_findThread; [apply Hwf|].
  rewrite lset_lget. cbn [lget jvm_L]. pose proof (pw_jvm s Hwf) as Hj.
  pose proof (find_registered _ self Hj) as Hf.
  destruct (List.find _ _) as [l|]; [|destruct Hreg; congruence].
  destruct Hf as [Hl [t Ht]]. rewrite Ht in Hl.
  apply wp_zoom, wp_zoom. eapply wp_hmodify; [exact Hl|]. cbn [lget jvm_L thread_heap_L].
  apply and_group; [|done]. by eapply thread_change.
Qed.

(** Registering a thread: its object, then its entry in the list. *)
Lemma safe_new_thread s th :
  prof_wf s -> safe (zoom jvm_L (zoom thread_heap_L (halloc th))) s (fun l s' =>
    storage_ s' = storage_ s /\ thread_at s' l (th_id th)).
Proof.
  intros Hwf. apply wp_zoom, wp_zoom. cbn [lget jvm_L thread_heap_L]. pose proof (pw_jvm s Hwf) as [Hh Hv].
  eapply wp_run; [reflexivity|]. set (h' := Heap _ _).
  apply and_group; [|split; [done|]].
  - apply jvm_change; [done| | |].
    + split; simpl; [by apply heap_wf_alloc|by apply Forall_valid_grow].
    + intros x. unfold registered; simpl. rewrite omap_insert_fresh; [done|]. intros Hin.
      rewrite list.Forall_forall in Hv. destruct (Hv _ Hin) as [a Ha]. by rewrite heap_fresh in Ha.
    + intros l i (t & Hl & Hi). exists t. split; [|done]. simpl. rewrite lookup_insert_ne; [done|].
      intros <-. by rewrite heap_fresh in Hl.
  - exists th. split; [|done]. apply lookup_insert_eq.
Qed.

Lemma safe_push_thread s l i :
  prof_wf s -> thread_at s l i -> safe (zoom jvm_L (zoom threads_L (CL.push_back l))) s (fun _ s' =>
    storage_ s' = storage_ s /\ is_Some (registered (jvm_ s') i)).
Proof.
  intros Hwf (t & Hl & Hi). apply wp_zoom, wp_zoom. cbn [lget jvm_L threads_L]. pose proof (pw_jvm s Hwf) as [Hh Hv].
  eapply wp_run; [reflexivity|].
  assert (Hreg : forall x, registered (MkJVM (CList (CL.list_ (threads_ (jvm_ s)) ++ [l])
      (CL.clean_until_ (threads_ (jvm_ s)))) (thread_heap (jvm_ s))) x =
      match registered (jvm_ s) x with Some y => Some y | None => if th_id t =? x then Some t else None end).
  { intros x. unfold registered; simpl. rewrite omap_app, omap_cons, Hl, find_app. simpl.
    destruct (List.find _ _); [done|]. by destruct (th_id t =? x). }
  apply and_group; [|split; [done|]].
  - apply jvm_change; [done| | |done].
    + split; simpl; [done|]. apply Forall_app. split; [done|]. constructor; [by exists t|done].
    + intros x [y Hy]. simpl. rewrite Hreg, Hy. by eexists.
  - simpl. rewrite Hreg, Hi, Z.eqb_refl. destruct (registered _ _); by eexists.
Qed.

(** *** Names *)

Lemma tables_change s m c :
  prof_wf s ->
  (forall id, is_Some (methods s !! id) -> is_Some (CM.map_ m !! id)) ->
  (forall id, is_Some (classes s !! id) -> is_Some (CM.map_ c !! id)) ->
  (forall id, is_Some (CM.map_ m !! id) -> is_Some (CM.map_ c !! id)) ->
  (forall id n, CM.map_ m !! id = Some n -> method_text id = Some n) ->
  (forall id n, CM.map_ c !! id = Some n -> class_text id = Some n) ->
  let s' := lset methods_L m (lset classes_L c s) in prof_wf s' /\ grows s s'.
Proof.
  intros [] Hm Hc Hmc Hmt Hct s'. assert (Hg : grows s s') by by split. split; [|done].
  split; simpl; auto; intros; eauto using samples_known_grows, frames_known_grows.
Qed.

Lemma safe_get_class s m (Q : string -> Profiler -> Prop) :
  prof_wf s -> is_Some (classes s !! m) -> (forall n, Q n s) ->
  safe (zoom classes_L (CM.get m)) s Q.
Proof.
  intros Hwf [n Hn] HQ. apply safe_pure; [done|]. apply wp_zoom.
  eapply wp_run; [by apply CM.run_get_Some|]. by rewrite lset_lget.
Qed.

Lemma safe_get_method s m (Q : string -> Profiler -> Prop) :
  prof_wf s -> is_Some (methods s !! m) -> (forall n, Q n s) ->
  safe (zoom methods_L (CM.get m)) s Q.
Proof.
  intros Hwf [n Hn] HQ. apply safe_pure; [done|]. apply wp_zoom.
  eapply wp_run; [by apply CM.run_get_Some|]. by rewrite lset_lget.
Qed.

Lemma insert_is_Some {V} (m : gmap Z V) k v id : is_Some (m !! id) -> is_Some (<[k := v]> m !! id).
Proof. intros H. rewrite lookup_insert. case_decide; eauto. Qed.

Lemma insert_text {V} (text : Z -> option V) (m : gmap Z V) k v id n :
  (forall id n, m !! id = Some n -> text id = Some n) -> text k = Some v ->
  <[k := v]> m !! id = Some n -> text id = Some n.
Proof. intros Hm Hk. rewrite lookup_insert. case_decide; [by intros [= <-]; subst|auto]. Qed.

Lemma safe_insert_class s m n :
  prof_wf s -> classes s !! m = None -> class_text m = Some n ->
  safe (zoom classes_L (CM.insert m n)) s (fun _ s' =>
    is_Some (classes s' !! m) /\ methods s' = methods s /\ storage_ s' = storage_ s).
Proof.
  intros Hwf Hm Ht'. apply wp_zoom. eapply wp_run; [by apply CM.run_insert_None|].
  apply and_group; [|split; [unfold classes; simpl; rewrite lookup_insert_eq; eauto|done]].
  match goal with |- prof_wf (lset classes_L ?c s) /\ _ =>
    pose proof (tables_change s (method_info_map_ s) c Hwf) as Ht end.
  destruct s; apply Ht; simpl; auto using insert_is_Some; [|apply (pw_methods _ Hwf)|].
  - intros id Hid. by apply insert_is_Some, (pw_maps _ Hwf).
  - intros id n'. apply insert_text; [apply (pw_classes _ Hwf)|done].
Qed.

Lemma safe_insert_method s m n :
  prof_wf s -> methods s !! m = None -> is_Some (classes s !! m) -> method_text m = Some n ->
  safe (zoom methods_L (CM.insert m n)) s (fun _ s' =>
    is_Some (methods s' !! m) /\ storage_ s' = storage_ s).
Proof.
  intros Hwf Hm Hc Ht'. apply wp_zoom. eapply wp_run; [by apply CM.run_insert_None|].
  apply and_group; [|split; [unfold methods; simpl; rewrite lookup_insert_eq; eauto|done]].
  match goal with |- prof_wf (lset methods_L ?m s) /\ _ =>
    pose proof (tables_change s m (class_info_map_ s) Hwf) as Ht end.
  destruct s; apply Ht; simpl; auto using insert_is_Some; [| |apply (pw_classes _ Hwf)].
  - intros id. rewrite lookup_insert. case_decide; [by subst|]. apply (pw_maps _ Hwf).
  - intros id n'. apply insert_text; [apply (pw_methods _ Hwf)|done].
Qed.

Lemma safe_resolve_class s m :
  prof_wf s -> method_answered m -> classes s !! m = None ->
  safe (resolve_class m) s (fun _ s' =>
    is_Some (classes s' !! m) /\ methods s' = methods s /\ storage_ s' = storage_ s).
Proof.
  intros Hwf (_ & k & c & Hk & Hc & Hne) Hm. unfold resolve_class. rewrite Hk, Hc.
  unfold drop_last. destruct (String.length c) eqn:Hlen; [by destruct c|].
  apply safe_bind, safe_ret; [done|]. intros _ _.
  apply safe_bind. eapply safe_mono; [|apply safe_insert_class; [done..|]].
  2: { unfold class_text. by rewrite Hk; simpl; rewrite Hc; simpl; rewrite Hlen. }
  intros ? s1 Hwf1 Hg1 (Hs1 & Hms & Hst) _ _.
  apply safe_bind, safe_get_class; [done..|]. intros _ _ _. by apply safe_ret.
Qed.

Definition method_frame (m : Z) : StackFrame := MkFrame (MethodName m) (ClassName m).

Lemma method_frame_known s m :
  prof_wf s -> is_Some (methods s !! m) -> frame_known s (method_frame m).
Proof. intros Hwf Hm. split; simpl; [done|]. by apply (pw_maps s Hwf). Qed.

Lemma safe_processMethodInfo s m :
  prof_wf s -> is_Some (methods s !! m) \/ method_answered m ->
  safe (processMethodInfo m) s (fun f s' => f = method_frame m /\
    frame_known s' f /\ storage_ s' = storage_ s).
Proof.
  intros Hwf Hans. unfold processMethodInfo. apply safe_bind, safe_pure; [done|].
  apply wp_zoom, wp_reads. rewrite lset_lget. split; [done|]. intros _ _.
  cbn [lget methods_L]. fold (methods s). case_bool_decide as Hm.
  - apply safe_bind, safe_get_method; [done..|]. intros _ _ _.
    apply safe_bind, safe_get_class; [done|by apply (pw_maps s Hwf)|]. intros _ _ _.
    apply safe_ret; [done|]. split; [done|]. split; [by apply method_frame_known|done].
  - destruct Hans as [?|Hans]; [done|]. pose proof Hans as [[[name sig] Hn] _]. rewrite Hn.
    apply eq_None_not_Some in Hm.
    apply safe_bind, safe_pure; [done|]. apply wp_zoom, wp_reads. rewrite lset_lget.
    split; [done|]. intros _ _. cbn [lget classes_L]. fold (classes s).
    assert (Hcls : safe (if bool_decide (is_Some (classes s !! m))
                         then zoom classes_L (CM.get m);; mret tt else resolve_class m) s
                     (fun _ s' => is_Some (classes s' !! m) /\ methods s' = methods s /\
                        storage_ s' = storage_ s)).
    { case_bool_decide as Hc.
      - apply safe_bind, safe_get_class; [done..|]. intros _ _ _. by apply safe_ret.
      - apply safe_resolve_class; [done..|]. by apply eq_None_not_Some. }
    apply safe_bind. eapply safe_mono; [|exact Hcls]. intros ? s1 Hwf1 _ (Hc1 & Hm1 & Hst1) _ _.
    apply safe_bind. eapply safe_mono; [|apply safe_insert_method;
      [done|by rewrite Hm1|done|unfold method_text; by rewrite Hn]].
    intros ? s2 Hwf2 _ [Hm2 Hst2] _ _.
    apply safe_bind, safe_get_method; [done..|]. intros _ _ _.
    apply safe_ret; [done|]. split; [done|]. split; [by apply method_frame_known|congruence].
Qed.

(** Which instructions of a sample can be named. *)
Definition instruction_answered (i : InstructionInfo) : Prop :=
  java_frame i = true -> instruction i <> 0 -> method_answered (instruction i).

(** The frame an instruction stands for. *)
Definition frame_of (i : InstructionInfo) : StackFrame :=
  if java_frame i then
    if instruction i =? 0 then MkFrame UnknownJava EmptyName
    else method_frame (instruction i)
  else
    match symbol (instruction i) with
    | Some _ => MkFrame (SymbolName (instruction i)) (LibraryName (instruction i))
    | None => MkFrame UnknownNative EmptyName
    end.

Lemma safe_processProfilerMethodInfo s i :
  prof_wf s -> instruction_answered i ->
  safe (processProfilerMethodInfo i) s (fun f s' =>
    f = frame_of i /\ frame_known s' f /\ storage_ s' = storage_ s).
Proof.
  intros Hwf Hi. unfold processProfilerMethodInfo, frame_of. destruct (java_frame i) eqn:Hj.
  - destruct (instruction i =? 0) eqn:Hz; simpl.
    + by apply safe_ret.
    + apply safe_processMethodInfo; [done|]. right. apply Hi; [done|lia].
  - destruct (symbol (instruction i)) as [n|] eqn:Hs; [|by apply safe_ret].
    apply safe_ret; [done|]. split; [done|]. split; [|done]. split; simpl; rewrite Hs; eauto.
Qed.

Lemma safe_map_frames {A} (P : A -> Prop) (f : A -> prog Profiler StackFrame)
    (g : A -> StackFrame) l s :
  prof_wf s -> Forall P l ->
  (forall x s, prof_wf s -> P x ->
     safe (f x) s (fun y s' => y = g x /\ frame_known s' y /\ storage_ s' = storage_ s)) ->
  safe (map_prog f l) s (fun ys s' =>
    ys = g <$> l /\ Forall (frame_known s') ys /\ storage_ s' = storage_ s).
Proof.
  intros Hwf Hl Hf. revert s Hwf; induction Hl as [|x l Hx _ IH]; intros s Hwf; simpl.
  - by apply safe_ret.
  - apply safe_bind. eapply safe_mono; [|by apply Hf]. intros y s1 Hwf1 _ (-> & Hy & Hst1) _ _.
    apply safe_bind. eapply safe_mono; [|by apply IH].
    intros ys s2 Hwf2 Hg2 (-> & Hys & Hst2) _ _.
    apply safe_ret; [done|]. split; [done|]. split; [|congruence].
    constructor; eauto using frame_known_grows.
Qed.

(** *** What the frames read as *)

(** The text of a frame in the file: the class or library, a colon, the method
    or symbol. *)
Definition method_line (m : Z) : string :=
  default EmptyString (class_text m) +:+ ":" +:+ default EmptyString (method_text m).

Lemma method_reads s m :
  prof_wf s -> frame_known s (method_frame m) ->
  frame_method (deref_of s) (method_frame m) = method_line m.
Proof.
  intros Hwf [[n Hn] [c Hc]]. simpl in *. unfold frame_method, method_line. simpl.
  fold (methods s) (classes s). rewrite Hn, Hc.
  by rewrite (pw_methods _ Hwf _ _ Hn), (pw_classes _ Hwf _ _ Hc).
Qed.

Definition frame_text (i : InstructionInfo) : string :=
  if java_frame i then
    if instruction i =? 0 then ":unknown_java"
    else method_line (instruction i)
  else
    match symbol (instruction i) with
    | Some (name, library) => library +:+ ":" +:+ name
    | None => ":unknown_native"
    end.

Lemma frame_reads s i :
  prof_wf s -> frame_known s (frame_of i) -> frame_method (deref_of s) (frame_of i) = frame_text i.
Proof.
  intros Hwf. unfold frame_of, frame_text. destruct (java_frame i).
  - destruct (instruction i =? 0); [done|by apply method_reads].
  - destruct (symbol (instruction i)) as [[n l]|] eqn:Hs; [|done]. intros _.
    unfold frame_method. simpl. by rewrite Hs.
Qed.

Lemma frames_read {A} s (f : A -> StackFrame) (text : A -> string) l :
  (forall x, frame_known s (f x) -> frame_method (deref_of s) (f x) = text x) ->
  Forall (frame_known s) (f <$> l) -> frame_method (deref_of s) <$> (f <$> l) = text <$> l.
Proof.
  intros Hf H. rewrite Forall_fmap in H. rewrite <- list_fmap_compose.
  apply list_fmap_ext. intros n x Hx. apply Hf. by eapply (Forall_lookup_1 _ _ _ _ H).
Qed.
End rules.
