(* ===== verification/ProfilerHandlers.v ===== *)
(** * The handlers of the profiler

    Every handler the application, the JVM and the profiler thread run keeps
    the invariant of the profiler and has no undefined behaviour, under the
    conditions its callers have to establish; and what each of them does. *)

From S2P Require Import Prelude ConcurrentList ConcurrentMap TraceTime TraceModel TraceStorage.
From S2P Require Import StorageSafety StorageSpec Perfetto SuspensionPlot PlotSpec PlotProps.
From S2P Require Import Jvm Profiler ProfilerSafety.
From Stdlib Require Import ZArith Lia.
From stdpp Require Import base gmap list strings numbers pretty.
Local Open Scope Z_scope.
Local Open Scope kt_scope.

Section handlers.
Context `{CK : !SteadyClock} `{E : !Environment} `{UL : !UsageLaws} (opts : settings).
Implicit Types s : Profiler.

(** ** The clock *)

Definition clock_of s : clock_state := clock (storage_ s).

(** What the next reading returns, and what the last one returned. *)
Definition time_now s : Z := steady (readings (clock_of s)).
Definition last_reading s : Z := steady (pred (readings (clock_of s))).

Lemma keeps_clock_storage {A} (p : prog TraceStorage A) :
  keeps clock p -> keeps clock_of (zoom storage_L p).
Proof. apply (keeps_zoom_in clock storage_L). Qed.

Lemma last_reading_keeps s s' : clock_of s' = clock_of s -> last_reading s' = last_reading s.
Proof. unfold last_reading. by intros ->. Qed.

(** ** More rules *)

Lemma safe_keeps {A B} (f : Profiler -> B) (p : prog Profiler A) s Q :
  keeps f p -> safe p s Q -> safe p s (fun a s' => f s' = f s /\ Q a s').
Proof.
  intros Hk Hs. eapply wp_mono; [|exact (wp_keeps f p s _ Hk Hs)]. cbv beta. tauto.
Qed.


(** A change of the storage, in general. *)
Lemma storage_change_gen s t :
  prof_wf s -> storage_wf t ->
  (forall l c, cells (traces_heap t) !! l = Some c -> Forall (sample_known s) (CL.list_ c)) ->
  (forall l i, cells (suspension_heap t) !! l = Some i ->
     Forall (frame_known s) (suspension_stack_trace i)) ->
  (forall l i, cells (info_heap t) !! l = Some i -> time_range (last_resume i)) ->
  (forall l, valid (info_heap (storage_ s)) l -> valid (info_heap t) l) ->
  CM.map_ (coroutine_info_map_ t) = CM.map_ (coroutine_info_map_ (storage_ s)) ->
  a_ongoing (abs t) = a_ongoing (abs (storage_ s)) ->
  prof_wf (lset storage_L t s) /\ grows s (lset storage_L t s).
Proof.
  intros [? ? ? ? ? ? ? ? pw_ongoing ?] Ht Htr Hsu Hin Hiv Him Hon.
  assert (Hg : grows s (lset storage_L t s)).
  { split; simpl; auto. by rewrite Him. }
  rewrite <- Hon in pw_ongoing.
  split; [|done]. split; auto; intros; eauto using samples_known_grows, frames_known_grows.
Qed.

Lemma safe_addProcessed s id r :
  prof_wf s -> sample_known s r ->
  safe (zoom storage_L (addProcessedTrace id r)) s (fun _ s' =>
    abs (storage_ s') = astep (OpAddProcessed id r) (abs (storage_ s))).
Proof.
  intros Hwf Hr. pose proof (pw_storage s Hwf) as Hst. set (o := OpAddProcessed id r).
  assert (Hsm : wp (addProcessedTrace id r) (storage_ s) (fun _ t =>
    forall l c, cells (traces_heap t) !! l = Some c -> Forall (sample_known s) (CL.list_ c))).
  { apply wp_addProcessedTrace; [apply Hst| |].
    - intros _ l c. simpl. rewrite lookup_insert. case_decide; [|apply (pw_samples _ Hwf)].
      intros [= <-]. simpl. by constructor.
    - intros l0 c0 _ Hl0 l c. simpl. rewrite lookup_insert.
      case_decide; [|apply (pw_samples _ Hwf)].
      intros [= <-]. simpl. apply Forall_app. split; [by eapply (pw_samples _ Hwf)|].
      by constructor. }
  apply wp_zoom. cbn [lget storage_L].
  eapply wp_mono; [|apply (wp_and _ _ _ _ (exec_wf _ o Hst I)
                            (wp_and _ _ _ _ (exec_refines _ o Hst I)
                               (wp_and _ _ _ _ (exec_frame _ o Hst I) Hsm)))].
  intros [] t (Ht & Ha & (_ & Hsu & Hin & Him & _) & Htr).
  apply and_group; [|exact Ha]. apply storage_change_gen; try done.
  - rewrite Hsu. apply Hwf.
  - rewrite Hin. apply Hwf.
  - by rewrite Hin.
  - by rewrite Him.
  - rewrite Ha. unfold o. by destruct (abs (storage_ s)).
Qed.

Lemma info_map_valid s id :
  prof_wf s -> is_Some (CM.map_ (coroutine_info_map_ (storage_ s)) !! id) ->
  exists l i, CM.map_ (coroutine_info_map_ (storage_ s)) !! id = Some (Some l) /\
    cells (info_heap (storage_ s)) !! l = Some i.
Proof.
  intros Hwf [p Hp]. pose proof (pw_storage s Hwf) as Hst.
  destruct (owns_lookup _ _ _ _ (wf_infos _ Hst) Hp) as (l & c & -> & Hl). eauto.
Qed.

Lemma safe_addSuspension s id t0 stack :
  prof_wf s -> is_Some (CM.map_ (coroutine_info_map_ (storage_ s)) !! id) ->
  Forall (frame_known s) stack ->
  safe (l ← zoom storage_L (zoom susp_heap_L (halloc (MkSuspension id t0 0 stack)));
        zoom storage_L (addSuspensionInfo (Some l))) s (fun _ s' =>
    exists l i, CM.map_ (coroutine_info_map_ (storage_ s)) !! id = Some (Some l) /\
      cells (info_heap (storage_ s)) !! l = Some i /\
      let sl := next (suspension_heap (storage_ s)) in
      storage_ s' = lset info_heap_L (hput l (add_suspension_to sl i) (info_heap (storage_ s)))
        (lset susp_heap_L (Heap (<[sl := MkSuspension id t0 0 stack]>
           (cells (suspension_heap (storage_ s)))) (S sl)) (storage_ s))).
Proof.
  intros Hwf Hid Hst. destruct (info_map_valid s id Hwf Hid) as (l & i & Hm & Hl).
  pose proof (pw_storage s Hwf) as Hs. set (o := OpAddSuspension (MkSuspension id t0 0 stack)).
  assert (Hv : valid (info_heap (storage_ s)) l) by by eexists.
  apply wp_bind, wp_zoom, wp_zoom, wp_halloc. apply wp_zoom. rewrite lget_lset.
  eapply wp_addSuspensionInfo; [apply lookup_insert_eq|exact Hm|exact Hl|].
  rewrite lset_lset. cbn [lget storage_L susp_heap_L].
  apply and_group; [|exists l, i; done]. apply storage_change_gen; try done.
  - apply (wf_add_suspension (lset susp_heap_L _ (storage_ s))); [|apply valid_new|exact Hl].
    by apply wf_new_suspension.
  - apply Hwf.
  - intros l' j. simpl. rewrite lookup_insert. case_decide; [|apply Hwf]. intros [= <-]. done.
  - intros l' j. simpl. rewrite lookup_insert. case_decide; [|apply Hwf].
    intros [= <-]. simpl. by eapply (pw_infos _ Hwf).
  - intros l' Hl'. by apply valid_put.
Qed.

Lemma safe_end_suspension s l t :
  prof_wf s -> valid (suspension_heap (storage_ s)) l ->
  safe (zoom storage_L (zoom susp_heap_L (hmodify (Some l) (set_si_end t)))) s (fun _ s' =>
    exists i, cells (suspension_heap (storage_ s)) !! l = Some i /\
      storage_ s' = lset susp_heap_L (hput l (set_si_end t i) (suspension_heap (storage_ s)))
                      (storage_ s)).
Proof.
  intros Hwf [i Hi]. apply wp_zoom, wp_zoom. eapply wp_hmodify; [exact Hi|].
  cbn [lget storage_L susp_heap_L]. pose proof (pw_storage s Hwf) as Hs.
  assert (Hv : valid (suspension_heap (storage_ s)) l) by by eexists.
  apply and_group; [|by exists i]. apply storage_change_gen; try done; try apply Hwf.
  - pose proof (wf_suspensions _ Hs) as Hsu. clear - Hs Hsu Hv. storage_wf.
    intros l' j Hj. apply Forall_valid_put. eauto.
  - intros l' j. simpl. rewrite lookup_insert. case_decide; [|apply Hwf].
    intros [= <-]. simpl. by eapply (pw_suspensions _ Hwf).
Qed.

(** The open suspension of a coroutine designates a suspension. *)
Lemma safe_lastSuspension s id (Q : ptr -> Profiler -> Prop) :
  prof_wf s -> (forall p, (forall l, p = Some l -> valid (suspension_heap (storage_ s)) l) -> Q p s) ->
  safe (zoom storage_L (getLastSuspensionInfo id)) s Q.
Proof.
  intros Hwf HQ. pose proof (pw_storage s Hwf) as Hs. apply safe_pure; [done|]. apply wp_zoom.
  cbn [lget storage_L].
  destruct (CM.map_ (coroutine_info_map_ (storage_ s)) !! id) as [p|] eqn:Hm.
  - destruct (owns_lookup _ _ _ _ (wf_infos _ Hs) Hm) as (l & i & -> & Hl).
    eapply wp_getLastSuspensionInfo; [exact Hm|exact Hl|].
    split; [apply (lset_lget storage_L)|]. apply HQ. intros l' Hf.
    apply List.find_some in Hf as [Hin _]. pose proof (wf_suspensions _ Hs _ _ Hl) as Hv.
    rewrite list.Forall_forall in Hv. by apply Hv, list_elem_of_In.
  - apply wp_getLastSuspensionInfo_None; [done|]. split; [apply (lset_lget storage_L)|].
    by apply HQ.
Qed.

(** The members no invariant speaks of. *)
Lemma wf_counter s n : prof_wf s -> prof_wf (lset counter_L n s).
Proof. intros []. by split. Qed.

Lemma wf_files s l : prof_wf s -> prof_wf (lset files_L l s).
Proof. intros []. by split. Qed.

(** ** Traces *)

Definition trace_key (self coroutine_id : Z) : Z :=
  if coroutine_id =? -2 then hash_thread_id self else coroutine_id.

Lemma safe_findThread s self (Q : ptr -> Profiler -> Prop) :
  prof_wf s -> (forall p, Q p s) -> safe (zoom jvm_L (findThread self)) s Q.
Proof.
  intros Hwf HQ. apply safe_pure; [done|]. apply wp_zoom, wp_findThread; [apply Hwf|]. by rewrite lset_lget.
Qed.

Lemma safe_traceStart s self id :
  prof_wf s -> is_Some (registered (jvm_ s) self) ->
  a_ongoing (abs (storage_ s)) !! trace_key self id = None ->
  safe (traceStart self id) s (fun _ s' =>
    (id = -2 -> is_Some (CM.map_ (coroutine_info_map_ (storage_ s')) !! trace_key self id)) /\
    let t := last_reading s' in time_now s <= t /\
    a_ongoing (abs (storage_ s')) =
      <[trace_key self id := MkTraceInfo (trace_key self id) t 0]>
        (a_ongoing (abs (storage_ s)))).
Proof.
  intros Hwf Hreg Hnone. unfold traceStart.
  assert (Hid : safe (if id =? -2 then
                        let k := hash_thread_id self in
                        zoom storage_L (createCoroutineInfo k);; mret k
                      else mret id) s (fun k s' => k = trace_key self id /\
                        (id = -2 -> is_Some (CM.map_ (coroutine_info_map_ (storage_ s')) !! k)) /\
                        a_ongoing (abs (storage_ s')) = a_ongoing (abs (storage_ s)) /\
                        time_now s <= time_now s')).
  { unfold trace_key. destruct (id =? -2) eqn:Hid2.
    2: { apply safe_ret; [done|]. split; [done|]. split; [lia|done]. }
    apply safe_bind. eapply safe_mono; [|by apply safe_createInfo].
    intros ? s1 Hwf1 _ (Ha & Hclk & Hinfo) _ _. apply safe_ret; [done|]. rewrite Ha.
    split_and!; [done|done|done|]. exact Hclk. }
  apply safe_bind. eapply safe_mono; [|exact Hid].
  intros k s1 Hwf1 Hg1 (-> & Hinf & Ha1 & Hle1) _ _. apply (gr_registered _ _ Hg1) in Hreg.
  apply safe_bind. eapply safe_mono; [|by apply safe_count_traces].
  intros ? s2 Hwf2 _ Hs2 _ _. unfold time_now, clock_of in Hle1. rewrite <- Hs2 in Ha1, Hinf, Hle1.
  apply safe_bind, safe_now; [done|]. intros s3 Hs3 Hg3 Hwf3.
  assert (Hlast : last_reading s3 = steady (readings (clock (storage_ s2))))
    by (unfold last_reading, clock_of; by rewrite Hs3).
  set (t := steady (readings (clock (storage_ s2)))) in *.
  assert (Ht : time_range t) by apply steady_time. clearbody t.
  assert (Ha3 : a_ongoing (abs (storage_ s3)) = a_ongoing (abs (storage_ s))) by by rewrite Hs3.
  apply safe_bind. eapply safe_mono; [|apply (safe_keeps clock_of);
    [apply keeps_clock_storage; unfold createChildCoroutineStorage; keeps_tac|];
    by apply (safe_exec s3 (OpCreateChildren _))].
  intros ? s4 Hwf4 Hg4 [Hc4 Ha4] _ _.
  assert (Ha4' : a_ongoing (abs (storage_ s4)) = a_ongoing (abs (storage_ s))).
  { rewrite Ha4, <- Ha3. by destruct (abs (storage_ s3)). }
  set (i := MkTraceInfo _ t 0). apply safe_bind.
  eapply safe_mono; [|apply (safe_keeps clock_of);
    [apply keeps_clock_storage; unfold addOngoingTraceInfo; by apply keeps_zoom|];
    apply (safe_exec_result s4 (OpAddOngoing i) (addOngoingTraceInfo i)
                               (fun b _ => b = true)); [done|done|done|exact Ht|]].
  - intros b s5 Hwf5 Hg5 [Hc5 [Ha5 ->]] _ _. apply safe_ret; [done|]. split.
    { intros Hid'. destruct (Hinf Hid') as [p Hp]. exists p.
      by apply (gr_info_map _ _ Hg5), (gr_info_map _ _ Hg4), (gr_info_map _ _ Hg3). }
    cbv zeta. rewrite (last_reading_keeps s3 s5), Hlast by congruence. split; [done|].
    rewrite Ha5. destruct (abs (storage_ s4)) eqn:Habs; simpl in *. subst a_ongoing.
    unfold if_absent. by rewrite Hnone.
  - apply wp_zoom. rewrite <- Ha4' in Hnone.
    eapply wp_run; [by apply CM.run_insert_None|]. done.
Qed.

(** A second start of the same trace. *)
Lemma traceStart_twice s self id i :
  prof_wf s -> is_Some (registered (jvm_ s) self) -> id <> -2 ->
  a_ongoing (abs (storage_ s)) !! id = Some i ->
  exists s', run (traceStart self id) s =
    Exc (Runtime_error ("Found trace that already started: " +:+ pretty id)) s' /\
    a_ongoing (abs (storage_ s')) = a_ongoing (abs (storage_ s)).
Proof.
  intros Hwf Hreg Hid Hi. unfold traceStart. rewrite (proj2 (Z.eqb_neq _ _) Hid).
  change (mret id ≫= ?f) with (f id).
  assert (Hpre : safe (count_traces self 1;; t ← zoom storage_L now;
                       zoom storage_L (createChildCoroutineStorage id);; mret t) s
                   (fun _ s' => a_ongoing (abs (storage_ s')) = a_ongoing (abs (storage_ s)))).
  { apply safe_bind. eapply safe_mono; [|by apply safe_count_traces].
    intros ? s2 Hwf2 _ Hs2 _ _. rewrite <- Hs2.
    apply safe_bind, safe_now; [done|]. intros s3 Hs3 _ Hwf3.
    apply safe_bind. eapply safe_mono; [|by apply (safe_exec s3 (OpCreateChildren _))].
    intros ? s4 Hwf4 _ Ha4 _ _. apply safe_ret; [done|]. rewrite Ha4, Hs3.
    reflexivity. }
  apply wp_elim in Hpre as (t & s4 & Hrun & _ & _ & Ha4). exists s4.
  revert Hrun. rewrite !run_bind. destruct (run (count_traces self 1) s) as [[] s1| |]; [|done..].
  cbn [res_bind]. rewrite !run_bind. destruct (run (zoom storage_L now) s1) as [t' s2| |]; [|done..].
  cbn [res_bind]. rewrite !run_bind.
  destruct (run (zoom storage_L (createChildCoroutineStorage id)) s2) as [[] s3| |]; [|done..].
  cbn [res_bind]. rewrite run_ret. intros [= _ <-]. rewrite run_bind, run_zoom.
  unfold addOngoingTraceInfo. rewrite run_zoom.
  erewrite CM.run_insert_Some; [|rewrite <- Ha4 in Hi; exact Hi].
  cbn [res_in res_bind]. rewrite !lset_lget. done.
Qed.

(** What [finishTrace] reports: nothing when the info of the coroutine is gone,
    and then the trace stays ongoing; otherwise the trace found, or a default
    one, is removed, and it is reported when it took longer than the
    threshold. *)
Definition finished s (k : Z) (r : option (string * TraceInfo)) s' : Prop :=
  let on := a_ongoing (abs (storage_ s)) in
  let on' := a_ongoing (abs (storage_ s')) in
  a_traces (abs (storage_ s')) = a_traces (abs (storage_ s)) /\
  (forall id p, CM.map_ (coroutine_info_map_ (storage_ s)) !! id = Some p ->
     CM.map_ (coroutine_info_map_ (storage_ s')) !! id = Some p) /\
  match CM.map_ (coroutine_info_map_ (storage_ s)) !! k with
  | None => r = None /\ on' = on /\ output_counter s' = output_counter s
  | Some _ =>
      let i := default cpp_default (on !! k) in
      exists t, time_range t /\ t = last_reading s' /\ steady (readings (clock (storage_ s))) <= t /\
        on' = delete (ti_coroutine_id i) (if_absent k cpp_default on) /\
        if t - ti_start i >? threshold_ opts then
          r = Some (output_path_ opts +:+ "/trace" +:+ pretty (output_counter s) +:+ ".pftrace",
                    MkTraceInfo (ti_coroutine_id i) (ti_start i) t) /\
          output_counter s' = s32 (output_counter s + 1)
        else r = None /\ output_counter s' = output_counter s
  end.

(** The readings of the clock and the resource usage do not show in the
    abstract storage. *)
Definition same_abs s s' : Prop := abs (storage_ s') = abs (storage_ s).

Lemma safe_findOngoing s k :
  prof_wf s ->
  safe (findOngoingTrace k) s (fun i s' =>
    abs (storage_ s') = astep (OpFindOngoing k) (abs (storage_ s)) /\
    i = default cpp_default (a_ongoing (abs (storage_ s)) !! k)).
Proof.
  intros Hwf. apply (safe_exec_result s (OpFindOngoing k) (findOngoingTraceInfo k)
    (fun i _ => i = default cpp_default (a_ongoing (abs (storage_ s)) !! k))); try done.
  apply wp_zoom. cbn [lget ongoing_L abs a_ongoing].
  destruct (CM.map_ (ongoing_trace_info_map_ (storage_ s)) !! k) as [i|] eqn:Hk.
  - by eapply wp_run; [by apply CM.run_get_Some|].
  - by eapply wp_run; [by apply CM.run_get_None|].
Qed.


Lemma safe_wp_bind {A B} (p : prog Profiler A) (g : A -> prog Profiler B) s Q :
  safe p s (fun a s1 => grows s s1 -> prof_wf s1 -> wp (g a) s1 Q) -> wp (p ≫= g) s Q.
Proof.
  intros Hp. apply wp_bind. eapply wp_mono; [|exact Hp]. intros a s1 (Hwf & Hg & Ha). auto.
Qed.

(** The end of [finishTrace], from the time of the finish on. *)
Lemma wp_report s k t :
  prof_wf s -> time_range t ->
  wp (found ← findOngoingTrace k;
      let traceInfo := MkTraceInfo (ti_coroutine_id found) (ti_start found) t in
      removeOngoingTrace (ti_coroutine_id traceInfo);;
      elapsedTime ← tt_minus (ti_end traceInfo) (ti_start traceInfo);
      if tt_get elapsedTime >? threshold_ opts then
        n ← act (fun s => Val (output_counter s) (lset counter_L (s32 (output_counter s + 1)) s));
        mret (Some (output_path_ opts +:+ "/trace" +:+ pretty n +:+ ".pftrace", traceInfo))
      else mret None) s (fun r s' =>
    let on := a_ongoing (abs (storage_ s)) in
    let i := default cpp_default (on !! k) in
    prof_wf s' /\ files s' = files s /\
    a_traces (abs (storage_ s')) = a_traces (abs (storage_ s)) /\
    (forall id p, CM.map_ (coroutine_info_map_ (storage_ s)) !! id = Some p ->
       CM.map_ (coroutine_info_map_ (storage_ s')) !! id = Some p) /\
    a_ongoing (abs (storage_ s')) = delete (ti_coroutine_id i) (if_absent k cpp_default on) /\
    if t - ti_start i >? threshold_ opts then
      r = Some (output_path_ opts +:+ "/trace" +:+ pretty (output_counter s) +:+ ".pftrace",
                MkTraceInfo (ti_coroutine_id i) (ti_start i) t) /\
      output_counter s' = s32 (output_counter s + 1)
    else r = None /\ output_counter s' = output_counter s).
Proof.
  intros Hwf Ht. set (on := a_ongoing (abs (storage_ s))).
  apply safe_wp_bind. eapply safe_mono; [|by apply safe_findOngoing].
  intros j s4 Hwf4 _ [Ha4 Hj] Hg4 _. subst j. fold on.
  set (j := default cpp_default (on !! k)). cbn [ti_coroutine_id ti_start ti_end].
  apply safe_wp_bind.
  eapply safe_mono; [|by apply (safe_exec s4 (OpRemoveOngoing (ti_coroutine_id j)))].
  intros ? s5 Hwf5 _ Ha5 Hg5 _. assert (Hg : grows s s5) by by etrans.
  assert (Hon5 : a_ongoing (abs (storage_ s5))
                 = delete (ti_coroutine_id j) (if_absent k cpp_default on) /\
                 a_traces (abs (storage_ s5)) = a_traces (abs (storage_ s))).
  { rewrite Ha5, Ha4. unfold on. by destruct (abs (storage_ s)). }
  destruct Hon5 as [Hon5 Htr5]. destruct Hg.
  assert (Hjr : time_range (ti_start j)).
  { unfold j. destruct (on !! k) eqn:Hk; [by eapply (pw_ongoing _ Hwf)|].
    unfold time_range; simpl. lia. }
  apply safe_wp_bind, safe_tt_minus; [done..|]. intros _ _. unfold tt_get. cbv zeta.
  destruct (t - ti_start j >? threshold_ opts) eqn:Hthr.
  - apply wp_bind. eapply wp_act; [reflexivity|]. apply wp_ret. fold j. rewrite Hthr.
    split; [by apply wf_counter|]. split_and!; try done; simpl; congruence.
  - apply wp_ret. fold j. rewrite Hthr. by split_and!.
Qed.

Lemma keeps_clock_report k t :
  keeps clock_of (found ← findOngoingTrace k;
      let traceInfo := MkTraceInfo (ti_coroutine_id found) (ti_start found) t in
      removeOngoingTrace (ti_coroutine_id traceInfo);;
      elapsedTime ← tt_minus (ti_end traceInfo) (ti_start traceInfo);
      if tt_get elapsedTime >? threshold_ opts then
        n ← act (fun s => Val (output_counter s) (lset counter_L (s32 (output_counter s + 1)) s));
        mret (Some (output_path_ opts +:+ "/trace" +:+ pretty n +:+ ".pftrace", traceInfo))
      else mret None).
Proof.
  apply keeps_bind; [apply keeps_clock_storage; by apply keeps_zoom|]. intros i.
  apply keeps_bind; [apply keeps_clock_storage; unfold removeOngoingTraceInfo; keeps_tac|]. intros _.
  apply keeps_bind; [unfold tt_minus; keeps_tac|]. intros d. destruct (_ >? _); [|done].
  apply keeps_bind; [|done]. split; [by intros ? ? ? [= _ <-]|done].
Qed.

Lemma wp_finishTrace s self id :
  prof_wf s -> is_Some (registered (jvm_ s) self) ->
  wp (finishTrace opts self id) s (fun r s' =>
    prof_wf s' /\ files s' = files s /\ finished s (trace_key self id) r s').
Proof.
  intros Hwf Hreg. unfold finishTrace. fold (trace_key self id). set (k := trace_key self id).
  apply safe_wp_bind. eapply safe_mono; [|by apply safe_count_traces].
  intros ? s1 Hwf1 _ Hs1 Hg1 _. unfold finished. rewrite <- Hs1.
  apply safe_wp_bind, safe_getInfo; [done|]. intros p Hp _ _.
  destruct Hp as [[-> ->]|(l & -> & [i Hi] & Hm)].
  { rewrite bool_decide_eq_true_2 by done. apply wp_ret.
    pose proof (gr_files _ _ Hg1). pose proof (gr_counter _ _ Hg1). auto 10. }
  rewrite bool_decide_eq_false_2, Hm by done. apply safe_wp_bind.
  eapply safe_mono; [|by apply safe_resource_usage].
  intros ? s2 Hwf2 _ [u Hs2] Hg2 _.
  apply safe_wp_bind, safe_now; [done|]. intros s3 Hs3 Hg3 Hwf3.
  assert (Ha3 : abs (storage_ s3) = abs (storage_ s1)) by (rewrite Hs3, Hs2; reflexivity).
  assert (Hle : steady (readings (clock (storage_ s1))) <= steady (readings (clock (storage_ s2))))
    by (rewrite Hs2; apply steady_mono; simpl; lia).
  assert (Hlast : last_reading s3 = steady (readings (clock (storage_ s2))))
    by (unfold last_reading, clock_of; by rewrite Hs3).
  set (t := steady (readings (clock (storage_ s2)))) in *.
  assert (Ht : time_range t) by apply steady_time. clearbody t.
  assert (Hg13 : grows s1 s3) by by etrans. assert (Hg : grows s s3) by by etrans.
  eapply wp_mono; [|apply (wp_keeps clock_of); [apply keeps_clock_report|by apply wp_report]].
  cbv zeta. rewrite Ha3, (gr_files _ _ Hg), (gr_counter _ _ Hg).
  intros r s5 [(Hwf5 & Hf5 & Htr & Him & Hon & Hr) Hc5]. split; [done|]. split; [done|].
  split; [done|]. split; [intros id' p' Hp'; by apply Him, (gr_info_map _ _ Hg13)|]. exists t.
  by rewrite (last_reading_keeps s3 s5), Hlast by done.
Qed.

(** ** [traceEnd] *)

(** What [traceEnd] adds to the files. *)
Definition reported s (k : Z) s' : Prop :=
  exists r, finished s k r s' /\
    match r with
    | None => files s' = files s
    | Some (path, ti) => exists st fuel,
        plot_trace (deref_of s') (view (storage_ s')) ti fuel = Some st /\ files s' = files s ++ [(path, trace st)]
    end.

Lemma finished_files s k r s1 l : finished s k r s1 -> finished s k r (lset files_L l s1).
Proof. done. Qed.

Lemma wp_traceEnd s self id :
  prof_wf s -> is_Some (registered (jvm_ s) self) ->
  exists n, forall fuel, (n <= fuel)%nat ->
    wp (traceEnd opts fuel self id) s (fun b s' =>
      b = true /\ prof_wf s' /\ reported s (trace_key self id) s').
Proof.
  intros Hwf Hreg.
  destruct (wp_elim _ _ _ (wp_finishTrace s self id Hwf Hreg)) as (r & s1 & Hrun & Hwf1 & Hf & Hfin).
  destruct r as [[path ti]|].
  - destruct (plot_trace_total (deref_of s1) (storage_ s1) ti) as (n & st & Hst).
    exists n. intros fuel Hle. unfold traceEnd. apply wp_bind. eapply wp_run; [exact Hrun|].
    apply wp_bind, wp_reads, wp_bind, wp_zoom.
    eapply wp_run; [apply write_perfetto_eq, Hwf1|]. cbn [lget storage_L].
    rewrite (Hst fuel Hle). cbn [option_map].
    apply wp_bind, wp_modify, wp_ret. split; [done|].
    replace (lset storage_L (storage_ s1) s1) with s1 by by destruct s1.
    split; [by apply wf_files|]. exists (Some (path, ti)). split; [by apply finished_files|].
    exists st, fuel. split; [exact (Hst fuel Hle)|]. simpl. by rewrite Hf.
  - exists O. intros fuel _. unfold traceEnd. apply wp_bind. eapply wp_run; [exact Hrun|].
    apply wp_ret. split; [done|]. split; [done|]. exists None. done.
Qed.

(** ** Coroutines *)

Lemma children_key s id :
  prof_wf s ->
  is_Some (CM.map_ (child_coroutines_map_ (storage_ s)) !! id) <->
  is_Some (a_children (abs (storage_ s)) !! id).
Proof.
  intros Hwf. pose proof (pw_storage s Hwf) as Hs.
  pose proof (lookup_resolve_None (child_heap (storage_ s))
                (CM.map_ (child_coroutines_map_ (storage_ s))) id (wf_children _ Hs)) as H.
  rewrite <- !not_eq_None_Some. simpl. by rewrite H.
Qed.

(** A new coroutine becomes a child of the current one when the current one is
    part of a trace, and is then itself part of it. *)
Definition created (id parent : Z) (ch : gmap Z (list Z)) : gmap Z (list Z) :=
  match ch !! parent with
  | Some _ => if_absent id [] (append_at parent id ch)
  | None => ch
  end.

Lemma safe_coroutineCreated s self id :
  prof_wf s ->
  safe (coroutineCreated self id) s (fun _ s' =>
    is_Some (CM.map_ (coroutine_info_map_ (storage_ s')) !! id) /\
    a_children (abs (storage_ s'))
      = created id (get_coroutine_of self s) (a_children (abs (storage_ s)))).
Proof.
  intros Hwf. unfold coroutineCreated. apply safe_bind, safe_pure; [done|]. apply wp_reads.
  split; [done|]. intros _ _. fold (get_coroutine_of self s). set (parent := get_coroutine_of self s).
  apply safe_bind, safe_findThread; [done|]. intros _ _ _.
  apply safe_bind. eapply safe_mono; [|by apply safe_createInfo].
  intros ? s1 Hwf1 _ (Ha1 & _ & [p Hp]) _ _. rewrite <- Ha1.
  apply safe_bind, safe_pure; [done|]. apply wp_zoom, wp_containsChild. rewrite lset_lget.
  split; [done|]. intros _ _. cbn [lget storage_L]. unfold created. case_bool_decide as Hc.
  - pose proof Hc as Hk. rewrite children_key in Hk by done. destruct Hk as [l Hl]. rewrite Hl.
    apply safe_bind. eapply safe_mono; [|by apply (safe_exec s1 (OpAddChild id parent))].
    intros ? s2 Hwf2 _ Ha2 Hg2 _.
    eapply safe_mono; [|by apply (safe_exec s2 (OpCreateChildren id))].
    intros ? s3 Hwf3 Hg3 Ha3. split.
    + exists p. by apply (gr_info_map _ _ Hg3), (gr_info_map _ _ Hg2).
    + rewrite Ha3, Ha2. by destruct (abs (storage_ s1)).
  - rewrite children_key in Hc by done. apply eq_None_not_Some in Hc. rewrite Hc.
    apply safe_ret; [done|]. split; [by eexists|done].
Qed.

(** The suspension a coroutine gets, and its info after the suspension. *)
Definition suspended (base : TraceStorage) (id : Z) (l : nat) (i : CoroutineInfo)
    (t : TraceTime) (stack : list StackFrame) : TraceStorage :=
  let sl := next (suspension_heap base) in
  lset info_heap_L (hput l (add_suspension_to sl i) (info_heap base))
    (lset susp_heap_L (Heap (<[sl := MkSuspension id t 0 stack]>
       (cells (suspension_heap base))) (S sl)) base).

(** The running time of a coroutine is charged when it is suspended, once: the
    time of the last resumption is then zero. *)
Definition settled (t : TraceTime) (last : rusage) (u : option rusage) (i : CoroutineInfo) : CoroutineInfo :=
  if last_resume i >? 0 then set_last_resume 0 (charge t last u i) else i.

Lemma time_zero : time_range 0.
Proof. unfold time_range. lia. Qed.

(** The first half of [coroutineSuspended]: the running time is charged once. *)
Lemma safe_suspend_charge s self l i :
  prof_wf s -> cells (info_heap (storage_ s)) !! l = Some i ->
  safe (resumed ← read_info (Some l) last_resume;
        if tt_get resumed >? 0 then
          calculate_resource_usage self (Some l);; upd_info (Some l) (set_last_resume 0)
        else mret tt) s (fun _ s' => exists u c,
    storage_ s' = put_info (lset clock_L c (storage_ s)) l
      (settled (steady (readings (clock (storage_ s)))) (usage_of self s) u i)).
Proof.
  intros Hwf Hi. apply safe_bind, safe_read_info; [done|by eexists|].
  intros i0 Hi0 _ _. rewrite Hi in Hi0. injection Hi0 as <-. unfold tt_get.
  pose proof (pw_infos s Hwf l i Hi) as Hr. unfold time_range in Hr.
  unfold settled. destruct (last_resume i >? 0) eqn:Hpos.
  - apply safe_bind. eapply safe_mono; [|by apply safe_resource_usage].
    intros ? s1 Hwf1 _ [u Hs1] _ _.
    eapply safe_mono; [|eapply safe_upd_put; [done|exact Hs1|done|intros; apply time_zero]].
    intros ? s2 _ _ [Hs2 _]. eexists _, _. exact Hs2.
  - apply safe_ret; [done|]. exists None, (clock (storage_ s)).
    rewrite (lset_lget clock_L). by rewrite put_info_id by done.
Qed.

Lemma settled_resume s l i t last u :
  prof_wf s -> cells (info_heap (storage_ s)) !! l = Some i ->
  last_resume (settled t last u i) = 0 /\
  suspensions_list (settled t last u i) = suspensions_list i.
Proof.
  intros Hwf Hi. pose proof (pw_infos s Hwf l i Hi) as Hr. unfold time_range in Hr.
  unfold settled. destruct (last_resume i >? 0) eqn:Hpos; [|split; [lia|done]].
  split; [done|]. apply charge_keeps.
Qed.

Definition frames_answered (frames : option (list Z)) : Prop :=
  forall ms, frames = Some ms -> Forall method_answered ms.

(** *** What keeps the current coroutine of a thread *)

Lemma keeps_getrusage self self' : keeps (get_coroutine_of self') (getrusage self).
Proof.
  simpl. split; [|done]. intros s b s' [= _ <-]. unfold get_coroutine_of.
  erewrite get_locals_set by done. by case_decide; subst.
Qed.

Lemma keeps_set_usage self self' f : keeps (get_coroutine_of self') (set_usage self f).
Proof.
  simpl. split; [|done]. intros s b s' [= _ <-]. unfold get_coroutine_of.
  erewrite get_locals_set by done. by case_decide; subst.
Qed.

Lemma keeps_thread_info self self' :
  keeps (get_coroutine_of self') (thread_basic_info self).
Proof. simpl. split; [|done]. by intros s b s' [= _ <-]. Qed.

Lemma keeps_elapsed {B} (f : Profiler -> B) e b : keeps f (calculate_elapsed_time e b).
Proof. unfold calculate_elapsed_time. keeps_tac. Qed.

Lemma keeps_minus {B} (f : Profiler -> B) a b : keeps f (tt_minus a b).
Proof. unfold tt_minus. keeps_tac. Qed.

Ltac keeps_prim ::=
  first [ apply keeps_getrusage | apply keeps_set_usage | apply keeps_thread_info
        | apply keeps_elapsed | apply keeps_minus
        | progress unfold charge_apple | progress unfold charge_linux
        | progress unfold read_info | progress unfold upd_info | progress unfold get_usage
        | progress unfold update_perf_counters ].

Lemma keeps_resource_usage self self' p :
  keeps (get_coroutine_of self') (calculate_resource_usage self p).
Proof. unfold calculate_resource_usage. keeps_tac. Qed.

Lemma keeps_method self m : keeps (get_coroutine_of self) (processMethodInfo m).
Proof.
  unfold processMethodInfo, resolve_class, drop_last. keeps_tac.
Qed.

Lemma keeps_map {A C B} (f : Profiler -> B) (g : A -> prog Profiler C) l :
  (forall x, keeps f (g x)) -> keeps f (map_prog g l).
Proof.
  intros Hg. induction l as [|x l IH]; simpl; [done|]. apply keeps_bind; [apply Hg|]. intros y.
  apply keeps_bind; [exact IH|done].
Qed.

Lemma safe_set_coroutine_usage s self id :
  prof_wf s -> safe (set_coroutine self id) s (fun _ s1 =>
    storage_ s1 = storage_ s /\ get_coroutine_of self s1 = id /\
    usage_of self s1 = usage_of self s).
Proof.
  intros Hwf. apply (wp_mono _ _ (fun _ s' => (prof_wf s' /\ grows s s' /\
    storage_ s' = storage_ s /\ get_coroutine_of self s' = id) /\
    usage_of self s' = usage_of self s)); [naive_solver|]. apply wp_and.
  - by apply safe_set_coroutine.
  - apply wp_modify. unfold usage_of. erewrite get_locals_set by done. by rewrite decide_True.
Qed.

(** *** Suspension *)

Lemma safe_assoc {A B C} (p : prog Profiler A) (f : A -> prog Profiler B)
    (g : B -> prog Profiler C) s Q :
  safe ((p ≫= f) ≫= g) s Q -> safe (p ≫= fun a => f a ≫= g) s Q.
Proof. unfold safe, wp. by rewrite prog_bind_assoc. Qed.

(** [coroutineSuspended] on a coroutine whose info is stored. *)
Definition suspension_effect (frames : option (list Z)) (last : rusage) (id : Z) (l : nat)
    (i : CoroutineInfo) (t0 t1 : TraceStorage) : Prop :=
  exists u c,
    let i' := settled (steady (readings (clock t0))) last u i in
    let base := put_info (lset clock_L c t0) l i' in
    match frames with
    | Some (m :: ms) =>
        t1 = suspended (tick base) id l i' (steady (readings c))
               (method_frame <$> take COROUTINE_SUSPENSION_STACK_DEPTH (m :: ms))
    | _ => t1 = base
    end.

Lemma safe_suspend_record s id l i frames :
  prof_wf s -> frames_answered frames ->
  CM.map_ (coroutine_info_map_ (storage_ s)) !! id = Some (Some l) ->
  cells (info_heap (storage_ s)) !! l = Some i ->
  safe (match frames with
        | Some (m :: ms) =>
            t ← zoom storage_L now;
            stack ← map_prog processMethodInfo (take COROUTINE_SUSPENSION_STACK_DEPTH (m :: ms));
            l ← zoom storage_L (zoom susp_heap_L (halloc (MkSuspension id t 0 stack)));
            zoom storage_L (addSuspensionInfo (Some l))
        | _ => mret tt
        end) s (fun _ s' =>
    match frames with
    | Some (m :: ms) =>
        storage_ s' = suspended (tick (storage_ s)) id l i
                        (steady (readings (clock (storage_ s))))
                        (method_frame <$> take COROUTINE_SUSPENSION_STACK_DEPTH (m :: ms))
    | _ => storage_ s' = storage_ s
    end).
Proof.
  intros Hwf Hans Hm Hi. destruct frames as [[|m ms]|]; [by apply safe_ret| |by apply safe_ret].
  apply safe_bind, safe_now; [done|]. intros s1 Hs1 _ Hwf1. fold (tick (storage_ s)) in Hs1.
  apply safe_bind. eapply safe_mono; [|apply (safe_map_frames method_answered _ method_frame); [done| |]].
  - intros ? s2 Hwf2 _ (-> & Hst & Hs2) _ _. rewrite Hs1 in Hs2.
    eapply safe_mono; [|apply safe_addSuspension; [done|rewrite Hs2; by eexists|exact Hst]].
    intros ? s3 _ _ (l' & i' & Hm' & Hi' & Hs3). rewrite Hs2 in *. simpl in Hm', Hi', Hs3.
    rewrite Hm in Hm'. injection Hm' as <-. rewrite Hi in Hi'. injection Hi' as <-.
    exact Hs3.
  - apply Forall_take. by apply Hans.
  - intros x s2 Hwf2 Hx. apply safe_processMethodInfo; auto.
Qed.

Lemma safe_coroutineSuspended s self id frames :
  prof_wf s -> frames_answered frames ->
  safe (coroutineSuspended frames self id) s (fun _ s' =>
    get_coroutine_of self s' = NOT_FOUND /\
    match CM.map_ (coroutine_info_map_ (storage_ s)) !! id with
    | None => storage_ s' = storage_ s
    | Some _ => exists l i,
        CM.map_ (coroutine_info_map_ (storage_ s)) !! id = Some (Some l) /\
        cells (info_heap (storage_ s)) !! l = Some i /\
        suspension_effect frames (usage_of self s) id l i (storage_ s) (storage_ s')
    end).
Proof.
  intros Hwf Hans. unfold coroutineSuspended.
  apply safe_bind. eapply safe_mono; [|by apply safe_set_coroutine_usage].
  intros ? s1 Hwf1 _ (Hs1 & Hc1 & Hu1) _ _. rewrite <- Hs1, <- Hc1.
  apply (safe_keeps (get_coroutine_of self)).
  { apply keeps_bind; [apply keeps_zoom; done|]. intros p. destruct (bool_decide _); [done|].
    apply keeps_bind; [unfold read_info; apply keeps_zoom; done|]. intros r.
    apply keeps_bind; [destruct (tt_get r >? 0); [|done]; apply keeps_bind;
      [apply keeps_resource_usage|unfold upd_info; intros; apply keeps_zoom; done]|].
    intros []. destruct frames as [[|m ms]|]; try done.
    apply keeps_bind; [apply keeps_zoom; done|]. intros t.
    apply keeps_bind; [apply keeps_map, keeps_method|]. intros stack.
    apply keeps_bind; intros; apply keeps_zoom; done. }
  apply safe_bind, safe_getInfo; [done|]. intros p Hp _ _.
  destruct Hp as [[-> ->]|(l & -> & [i Hi] & Hm)].
  { rewrite bool_decide_eq_true_2 by done. by apply safe_ret. }
  rewrite bool_decide_eq_false_2, Hm by done. apply safe_assoc.
  apply safe_bind. eapply safe_mono; [|by apply safe_suspend_charge].
  intros ? s2 Hwf2 _ (u & c & Hs2) _ _. set (i' := settled _ _ u i) in *.
  eapply safe_mono; [|apply (safe_suspend_record s2 id l i'); [done|done| |]].
  - intros ? s3 _ _ H. exists l, i. split; [done|]. split; [done|]. exists u, c.
    cbv zeta. rewrite <- Hu1. fold i'. rewrite <- Hs2.
    destruct frames as [[|m ms]|]; try done.
    replace c with (clock (storage_ s2)) by by rewrite Hs2. exact H.
  - rewrite Hs2. exact Hm.
  - rewrite Hs2. apply lookup_insert_eq.
Qed.

(** *** Resumption *)

(** [coroutineResumed] on a coroutine whose info [i] is stored in cell [l]: the
    first open suspension, if any, is ended at the second reading. *)
Definition resumed (t0 : TraceStorage) (l : nat) (i : CoroutineInfo) : TraceStorage :=
  let n := readings (clock t0) in
  let t1 := put_info (tick t0) l (set_last_resume (steady n) i) in
  match List.find (open_suspension t0) (CL.list_ (suspensions_list i)) with
  | None => t1
  | Some sl =>
      match cells (suspension_heap t0) !! sl with
      | None => t1
      | Some x => lset susp_heap_L (hput sl (set_si_end (steady (S n)) x) (suspension_heap t0))
                    (tick t1)
      end
  end.

Lemma safe_update_perf s self :
  prof_wf s -> safe (update_perf_counters self) s (fun _ s' => storage_ s' = storage_ s).
Proof.
  intros Hwf. unfold update_perf_counters. destruct target.
  - apply safe_bind, safe_getrusage; [done|]. intros u s1 _ Hs1 _ _ Hwf1. by apply safe_ret.
  - apply safe_bind, safe_thread_info; [done|..].
    { intros s1 Hs1 _ Hwf1. by apply safe_ret. }
    intros t u s1 Ht Hu <- _ Hwf1.
    apply safe_bind. eapply safe_mono; [|by apply safe_set_stime].
    intros ? s2 Hwf2 _ <- _ _. by apply safe_set_utime.
Qed.

(** The end of the open suspension. *)
Lemma safe_resume_end s id l i :
  prof_wf s -> CM.map_ (coroutine_info_map_ (storage_ s)) !! id = Some (Some l) ->
  cells (info_heap (storage_ s)) !! l = Some i ->
  safe (suspensionInfo ← zoom storage_L (getLastSuspensionInfo id);
        match suspensionInfo with
        | Some l => t ← zoom storage_L now;
                    zoom storage_L (zoom susp_heap_L (hmodify (Some l) (set_si_end t)))
        | None => mret tt
        end) s (fun _ s' =>
    storage_ s' =
      match List.find (open_suspension (storage_ s)) (CL.list_ (suspensions_list i)) with
      | None => storage_ s
      | Some sl =>
          match cells (suspension_heap (storage_ s)) !! sl with
          | None => storage_ s
          | Some x => lset susp_heap_L (hput sl (set_si_end
                        (steady (readings (clock (storage_ s)))) x)
                        (suspension_heap (storage_ s))) (tick (storage_ s))
          end
      end).
Proof.
  intros Hwf Hm Hi. pose proof (pw_storage s Hwf) as Hs.
  apply safe_bind, safe_pure; [done|]. apply wp_zoom. cbn [lget storage_L].
  eapply wp_getLastSuspensionInfo; [exact Hm|exact Hi|].
  split; [apply (lset_lget storage_L)|]. intros _ _.
  destruct (List.find _ _) as [sl|] eqn:Hf; [|by apply safe_ret].
  assert (Hv : valid (suspension_heap (storage_ s)) sl).
  { apply List.find_some in Hf as [Hin _]. pose proof (wf_suspensions _ Hs _ _ Hi) as Hv.
    rewrite list.Forall_forall in Hv. by apply Hv, list_elem_of_In. }
  pose proof Hv as [x Hx]. rewrite Hx.
  apply safe_bind, safe_now; [done|]. intros s1 Hs1 _ Hwf1. fold (tick (storage_ s)) in Hs1.
  eapply safe_mono; [|by apply safe_end_suspension; [|rewrite Hs1]].
  intros ? s2 _ _ (x' & Hx' & Hs2). rewrite Hs1 in Hs2, Hx'. simpl in Hx'.
  rewrite Hx in Hx'. injection Hx' as <-. exact Hs2.
Qed.

Lemma safe_coroutineResumed s self id :
  prof_wf s ->
  safe (coroutineResumed self id) s (fun _ s' =>
    get_coroutine_of self s' = id /\
    match CM.map_ (coroutine_info_map_ (storage_ s)) !! id with
    | None => storage_ s' = storage_ s
    | Some _ => exists l i,
        CM.map_ (coroutine_info_map_ (storage_ s)) !! id = Some (Some l) /\
        cells (info_heap (storage_ s)) !! l = Some i /\
        storage_ s' = resumed (storage_ s) l i
    end).
Proof.
  intros Hwf. unfold coroutineResumed. apply safe_bind, safe_findThread; [done|]. intros _ _ _.
  apply safe_bind, safe_set_coroutine; [done|]. intros s1 Hs1 Hc1 _ Hwf1. rewrite <- Hs1.
  eapply (safe_mono _ _ (fun _ s' => get_coroutine_of self s' = get_coroutine_of self s1 /\ _)).
  { intros [] s' _ _ [H1 H2]. rewrite Hc1 in H1. split; [exact H1|exact H2]. }
  apply (safe_keeps (get_coroutine_of self)); [keeps_tac|].
  apply safe_bind, safe_getInfo; [done|]. intros p Hp _ _.
  destruct Hp as [[-> ->]|(l & -> & [i Hi] & Hm)].
  { rewrite bool_decide_eq_true_2 by done. by apply safe_ret. }
  rewrite bool_decide_eq_false_2, Hm by done.
  apply safe_bind. eapply safe_mono; [|by apply safe_update_perf]. intros ? s2 Hwf2 _ Hs2 _ _.
  rewrite <- Hs2 in Hi, Hm |- *.
  apply safe_bind, safe_now; [done|]. intros s3 Hs3 _ Hwf3. fold (tick (storage_ s2)) in Hs3.
  rewrite <- (put_info_id (tick (storage_ s2)) l i Hi) in Hs3.
  apply safe_bind. eapply safe_mono; [|eapply safe_upd_put; [done|exact Hs3|done|]].
  2: { intros; apply steady_time. }
  intros ? s4 Hwf4 _ [Hs4 _] _ _.
  eapply safe_mono; [|eapply (safe_resume_end s4 id l); [done|by rewrite Hs4|]].
  2: { rewrite Hs4. apply lookup_insert_eq. }
  intros ? s5 _ _ Hs5. exists l, i. split; [done|]. split; [done|]. rewrite Hs5, Hs4. reflexivity.
Qed.

(** *** Completion *)

Lemma safe_coroutineCompleted s self id :
  prof_wf s ->
  safe (coroutineCompleted self id) s (fun _ s' =>
    match CM.map_ (coroutine_info_map_ (storage_ s)) !! id with
    | None => storage_ s' = storage_ s
    | Some _ => exists l i u,
        CM.map_ (coroutine_info_map_ (storage_ s)) !! id = Some (Some l) /\
        cells (info_heap (storage_ s)) !! l = Some i /\
        let n := readings (clock (storage_ s)) in
        storage_ s' = put_info (tick (tick (storage_ s))) l
          (charge (steady (S n)) (usage_of self s) u (set_ci_end (steady n) i))
    end).
Proof.
  intros Hwf. unfold coroutineCompleted.
  apply safe_bind. eapply safe_mono; [|by apply safe_set_coroutine_usage].
  intros ? s1 Hwf1 _ (Hs1 & _ & Hu1) _ _. rewrite <- Hs1, <- Hu1. clear Hs1 Hu1.
  apply safe_bind, safe_getInfo; [done|]. intros p Hp _ _.
  destruct Hp as [[-> ->]|(l & -> & [i Hi] & Hm)].
  { rewrite bool_decide_eq_true_2 by done. by apply safe_ret. }
  rewrite bool_decide_eq_false_2, Hm by done.
  apply safe_bind. eapply safe_mono; [|apply (safe_keeps (usage_of self)); [keeps_tac|]].
  2: { apply (safe_now s1 (fun t s2 => t = steady (readings (clock (storage_ s1))) /\
         storage_ s2 = tick (storage_ s1))); [done|]. done. }
  intros ? s2 Hwf2 _ [Hu2 [-> Hs2]] _ _. rewrite <- Hu2.
  rewrite <- (put_info_id (tick (storage_ s1)) l i Hi) in Hs2.
  apply safe_bind. eapply safe_mono; [|apply (safe_keeps (usage_of self)); [keeps_tac|]].
  2: { by eapply safe_upd_put; [|exact Hs2|..]. }
  intros ? s3 Hwf3 _ [Hu3 [Hs3 _]] _ _. rewrite <- Hu3.
  eapply safe_mono; [|apply safe_resource_usage; [done|rewrite Hs3; apply lookup_insert_eq]].
  intros ? s4 _ _ [u Hs4]. exists l, i, u. split; [done|]. split; [done|].
  cbv zeta. rewrite Hs4, Hs3. unfold put_info, tick. simpl. by rewrite hput_hput.
Qed.
End handlers.
