(* ===== verification/ProfilerTheorems.v ===== *)
(** * What the profiler guarantees *)

From S2P Require Import Prelude ConcurrentList ConcurrentMap TraceTime TraceModel TraceStorage.
From S2P Require Import StorageSafety StorageSpec Perfetto SuspensionPlot PlotSpec PlotProps.
From S2P Require Import Jvm Profiler ProfilerSafety ProfilerHandlers.
From Stdlib Require Import ZArith Lia.
From stdpp Require Import base gmap list strings numbers pretty.
Local Open Scope Z_scope.
Local Open Scope kt_scope.

Section theorems.
Context `{CK : !SteadyClock} `{E : !Environment} `{UL : !UsageLaws} (opts : settings).
Implicit Types s : Profiler.

(** ** Samples *)

(** A sample of a registered thread, complete and with names for its frames. *)
Definition raw_ok s (r : RawCallTraceRecord) : Prop :=
  is_Some (registered (jvm_ s) (raw_thread r)) /\
  (Z.to_nat (trace_count r) <= length (instructions (raw_trace r)))%nat /\
  Forall instruction_answered (take (Z.to_nat (trace_count r)) (instructions (raw_trace r))).

(** The processed form of a raw sample. *)
Definition sampled_frames (r : RawCallTraceRecord) : list InstructionInfo :=
  take (Z.to_nat (trace_count r)) (instructions (raw_trace r)).
Definition processed_of (r : RawCallTraceRecord) (p : ProcessedTraceRecord) : Prop :=
  time p = raw_time r /\ stack_trace p = frame_of <$> sampled_frames r.

Lemma raw_ok_grows s s' r : grows s s' -> raw_ok s r -> raw_ok s' r.
Proof. intros [] (H1 & H2 & H3). split; auto. Qed.

Lemma safe_processRecord s r :
  prof_wf s -> raw_ok s r ->
  safe (processRecord r) s (fun _ s' => exists p, processed_of r p /\
    abs (storage_ s') = astep (OpAddProcessed (raw_coroutine_id r) p) (abs (storage_ s))).
Proof.
  intros Hwf (Hreg & Hlen & Hans). unfold processRecord.
  apply safe_bind, safe_pure; [done|]. apply wp_zoom, wp_findThread; [apply Hwf|]. rewrite lset_lget.
  split; [done|]. intros _ _. cbn [lget jvm_L]. pose proof (pw_jvm s Hwf) as Hj.
  pose proof (find_registered _ (raw_thread r) Hj) as Hf.
  destruct (List.find _ _) as [l|]; [|destruct Hreg; congruence].
  destruct Hf as [Hl [t Ht]]. rewrite Ht in Hl.
  unfold first_instructions. rewrite (proj2 (Nat.leb_le _ _) Hlen).
  apply safe_bind, safe_ret; [done|]. intros _ _.
  apply safe_bind. eapply safe_mono; [|apply (safe_map_frames instruction_answered _ frame_of);
    [done|exact Hans|intros; by apply safe_processProfilerMethodInfo]].
  intros ? s1 Hwf1 _ (-> & Hk & Hs1) _ _.
  eapply safe_mono; [|by apply safe_addProcessed].
  intros ? s2 _ _ Ha. rewrite Hs1 in Ha. eexists. split; [|exact Ha]. by split.
Qed.

Lemma safe_removeRaw s :
  prof_wf s ->
  safe (zoom storage_L removeRawTraceHeader) s (fun r s' =>
    abs (storage_ s') = astep OpRemoveRaw (abs (storage_ s)) /\
    r = head (a_raw (abs (storage_ s)))).
Proof.
  intros Hwf. apply (safe_exec_result s OpRemoveRaw removeRawTraceHeader
    (fun r _ => r = head (a_raw (abs (storage_ s))))); try done.
  apply wp_zoom. by eapply wp_run; [apply CL.run_pop_front_tail|].
Qed.

(** Samples appended to their coroutines, in order. *)
Definition append_samples (l : list (RawCallTraceRecord * ProcessedTraceRecord))
    (m : gmap Z (list ProcessedTraceRecord)) : gmap Z (list ProcessedTraceRecord) :=
  foldl (fun m rp => append_at (raw_coroutine_id rp.1) rp.2 m) m l.

Lemma process_all fuel s raws :
  prof_wf s -> a_raw (abs (storage_ s)) = raws -> Forall (raw_ok s) raws ->
  (length raws <= fuel)%nat ->
  safe (processTraces fuel) s (fun b s' => b = true /\ a_raw (abs (storage_ s')) = [] /\
    a_ongoing (abs (storage_ s')) = a_ongoing (abs (storage_ s)) /\
    exists ps, Forall2 processed_of raws ps /\
      a_traces (abs (storage_ s')) = append_samples (zip raws ps) (a_traces (abs (storage_ s)))).
Proof.
  revert s raws; induction fuel as [|fuel IH]; intros s raws Hwf Hraw Hok Hlen;
    cbn [processTraces]; apply safe_bind;
    (eapply safe_mono; [|by apply safe_removeRaw]);
    intros ? s1 Hwf1 Hg1 [Ha1 ->] _ _; rewrite Hraw; destruct raws as [|r raws]; simpl in Hlen;
    try lia; cbn [head].
  1, 2: apply safe_ret; [done|]; split; [done|]; rewrite Ha1; destruct (abs (storage_ s));
    simpl in *; subst; split; [done|]; split; [done|]; by exists [].
  apply Forall_cons_1 in Hok as [Hr Hok].
  apply safe_bind. eapply safe_mono; [|apply safe_processRecord; [done|by eapply raw_ok_grows]].
  intros ? s2 Hwf2 Hg2 (p & Hp & Ha2) _ _.
  eapply safe_mono; [|apply (IH s2 raws); [done| | |lia]].
  - intros b s3 _ _ (-> & Hr3 & Ho3 & ps & Hps & Ht3). split; [done|]. split; [done|].
    split; [rewrite Ho3, Ha2, Ha1; by destruct (abs (storage_ s))|]. exists (p :: ps). split; [by constructor|]. rewrite Ht3, Ha2, Ha1.
    by destruct (abs (storage_ s)).
  - rewrite Ha2, Ha1. destruct (abs (storage_ s)); simpl in *. by subst.
  - eapply Forall_impl; [exact Hok|]. intros x Hx. eapply raw_ok_grows; [|exact Hx]. by etrans.
Qed.

(** C24: [processTraces] drains the raw samples.  On well-formed state whose raw
    samples come from registered threads it ends, after as many turns as there
    are samples; it leaves no raw sample; each becomes one processed sample
    with the same time and, in order, the frame of each instruction; and the samples of each
    coroutine keep the order in which they were taken, after the ones that
    were there. *)
Theorem processTraces_drains s fuel :
  prof_wf s -> Forall (raw_ok s) (a_raw (abs (storage_ s))) ->
  (length (a_raw (abs (storage_ s))) <= fuel)%nat ->
  wp (processTraces fuel) s (fun b s' => b = true /\ prof_wf s' /\
    a_raw (abs (storage_ s')) = [] /\
    exists ps, Forall2 processed_of (a_raw (abs (storage_ s))) ps /\
      a_traces (abs (storage_ s'))
        = append_samples (zip (a_raw (abs (storage_ s))) ps) (a_traces (abs (storage_ s)))).
Proof.
  intros Hwf Hok Hlen. eapply wp_mono; [|by apply (process_all fuel s)]. cbv beta. naive_solver.
Qed.

(** ** Every handler *)

Inductive handler :=
  | HTraceStart (id : Z)
  | HTraceEnd (id : Z)
  | HCreated (id : Z)
  | HSuspended (frames : option (list Z)) (id : Z)
  | HResumed (id : Z)
  | HCompleted (id : Z)
  | HGcStart
  | HGcFinish
  | HProcess.

Definition done_ {S} (p : prog S unit) : prog S bool := p;; mret true.

Definition handle (fuel : nat) (self : Z) (h : handler) : prog Profiler bool :=
  match h with
  | HTraceStart id => done_ (traceStart self id)
  | HTraceEnd id => traceEnd opts fuel self id
  | HCreated id => done_ (coroutineCreated self id)
  | HSuspended frames id => done_ (coroutineSuspended frames self id)
  | HResumed id => done_ (coroutineResumed self id)
  | HCompleted id => done_ (coroutineCompleted self id)
  | HGcStart => done_ prof_gcStart
  | HGcFinish => done_ prof_gcFinish
  | HProcess => processTraces fuel
  end.

(** What the caller has to establish: the calling thread is registered where
    its trace counter is updated, the trace is not running yet, JVMTI knows the
    methods on the stack, a collection has started. *)
Definition handler_pre s (self : Z) (h : handler) : Prop :=
  match h with
  | HTraceStart id =>
      is_Some (registered (jvm_ s) self) /\
      a_ongoing (abs (storage_ s)) !! trace_key self id = None
  | HTraceEnd _ => is_Some (registered (jvm_ s) self)
  | HSuspended frames _ => frames_answered frames
  | HGcFinish => CL.list_ (gc_events_ (storage_ s)) <> []
  | HProcess => Forall (raw_ok s) (a_raw (abs (storage_ s)))
  | _ => True
  end.

Lemma done_wf s (p : prog Profiler unit) (Q : unit -> Profiler -> Prop) :
  safe p s Q -> wp (done_ p) s (fun b s' => b = true /\ prof_wf s').
Proof.
  intros Hp. apply wp_bind. eapply wp_mono; [|exact Hp]. intros [] s' (Hwf & _). by apply wp_ret.
Qed.

(** C11: safety of every handler.  Called under its condition on a well-formed
    profiler, each handler returns, given enough fuel for its loops: no
    exception, no null or dangling pointer, no signed overflow, no read past an
    array.  It leaves a well-formed profiler, in which every frame of every
    stored sample and suspension designates a known name. *)
Theorem handlers_safe s self h :
  prof_wf s -> handler_pre s self h ->
  exists n, forall fuel, (n <= fuel)%nat ->
    wp (handle fuel self h) s (fun b s' => b = true /\ prof_wf s').
Proof.
  intros Hwf Hpre. destruct h; simpl in Hpre; cbn [handle].
  - exists O. intros _ _. destruct Hpre. by eapply done_wf, safe_traceStart.
  - destruct (wp_traceEnd opts s self id Hwf Hpre) as [n Hn]. exists n. intros fuel Hf.
    eapply wp_mono; [|by apply Hn]. cbv beta. tauto.
  - exists O. intros _ _. by eapply done_wf, safe_coroutineCreated.
  - exists O. intros _ _. by eapply done_wf, safe_coroutineSuspended.
  - exists O. intros _ _. by eapply done_wf, safe_coroutineResumed.
  - exists O. intros _ _. by eapply done_wf, safe_coroutineCompleted.
  - exists O. intros _ _. by eapply done_wf, (safe_exec s OpGcStart).
  - exists O. intros _ _. by eapply done_wf, (safe_exec s OpGcFinish).
  - exists (length (a_raw (abs (storage_ s)))). intros fuel Hf.
    eapply wp_mono; [|by apply (process_all fuel s)]. cbv beta. tauto.
Qed.

(** ** Traces *)

(** C12: a trace from its start to its end.  On a well-formed profiler,
    [traceStart] of a registered thread, for a coroutine that has no trace
    running and whose info is stored (or for the calling thread, identifier
    -2), returns, with the reading of the clock it made as the start
    of the trace.  [traceEnd], in the state it left and given enough fuel,
    returns true and leaves the ongoing traces as they were before the start;
    its own reading of the clock, made after, is the end of the trace.  When
    the second reading exceeds the first by more than the threshold, exactly
    one file is written, numbered by the output counter, with the plot of the
    trace between the two readings; otherwise none. *)
Theorem trace_roundtrip s self id :
  prof_wf s -> is_Some (registered (jvm_ s) self) ->
  a_ongoing (abs (storage_ s)) !! trace_key self id = None ->
  (id = -2 \/ is_Some (CM.map_ (coroutine_info_map_ (storage_ s)) !! id)) ->
  exists s1 n, run (traceStart self id) s = Val tt s1 /\ time_now s <= last_reading s1 /\
    forall fuel, (n <= fuel)%nat ->
    wp (traceEnd opts fuel self id) s1 (fun b s' =>
      b = true /\ a_ongoing (abs (storage_ s')) = a_ongoing (abs (storage_ s)) /\
      let t1 := last_reading s1 in let t2 := last_reading s' in time_now s1 <= t2 /\
        if t2 - t1 >? threshold_ opts then
          exists st fuel', plot_trace (deref_of s') (view (storage_ s'))
              (MkTraceInfo (trace_key self id) t1 t2) fuel' = Some st /\
            files s' = files s ++
              [(output_path_ opts +:+ "/trace" +:+ pretty (output_counter s) +:+ ".pftrace",
                trace st)]
        else files s' = files s).
Proof.
  intros Hwf Hreg Hnone Hinfo. set (k := trace_key self id) in *.
  destruct (wp_elim _ _ _ (safe_traceStart s self id Hwf Hreg Hnone))
    as ([] & s1 & Hrun & Hwf1 & Hg1 & Hid2 & Ht1 & Hon1). fold k in Hid2, Hon1.
  assert (Hm : is_Some (CM.map_ (coroutine_info_map_ (storage_ s1)) !! k)).
  { destruct (decide (id = -2)) as [->|Hne]; [auto|]. destruct Hinfo as [?|[p Hp]]; [done|].
    unfold k, trace_key. rewrite (proj2 (Z.eqb_neq _ _) Hne). exists p.
    by apply (gr_info_map _ _ Hg1). }
  destruct (wp_traceEnd opts s1 self id Hwf1 (gr_registered _ _ Hg1 _ Hreg)) as [n Hn].
  exists s1, n. split; [done|]. split; [done|]. intros fuel Hf.
  eapply wp_mono; [|by apply Hn]. intros b s' (-> & _ & r & Hfin & Hfiles). split; [done|].
  unfold finished in Hfin. fold k in Hfin. destruct Hm as [p Hp].
  rewrite Hp, Hon1, lookup_insert_eq in Hfin. cbn [from_option Datatypes.id ti_coroutine_id ti_start] in Hfin.
  destruct Hfin as (_ & _ & t2 & _ & -> & Hle & Hon & Hr). split.
  { rewrite Hon. unfold if_absent. rewrite lookup_insert_eq. by rewrite delete_insert_id. }
  split; [exact Hle|]. rewrite (gr_counter _ _ Hg1), <- (gr_files _ _ Hg1) in *.
  destruct (_ >? threshold_ opts); destruct Hr as [-> _]; exact Hfiles.
Qed.

(** A trace whose coroutine info was removed before it ends (the cleaner
    removes the infos it has marked) is lost: [traceEnd] returns without
    removing the ongoing trace and without a file, and the next [traceStart] of
    the coroutine throws. *)
Theorem trace_lost s self id i :
  prof_wf s -> is_Some (registered (jvm_ s) self) -> id <> -2 ->
  CM.map_ (coroutine_info_map_ (storage_ s)) !! id = None ->
  a_ongoing (abs (storage_ s)) !! id = Some i ->
  exists n, forall fuel, (n <= fuel)%nat ->
    wp (traceEnd opts fuel self id) s (fun b s' => b = true /\ files s' = files s /\
      a_ongoing (abs (storage_ s')) !! id = Some i /\
      (is_Some (registered (jvm_ s') self) -> exists s'', run (traceStart self id) s' =
         Exc (Runtime_error ("Found trace that already started: " +:+ pretty id)) s'')).
Proof.
  intros Hwf Hreg Hid Hm Hi. destruct (wp_traceEnd opts s self id Hwf Hreg) as [n Hn].
  exists n. intros fuel Hf. eapply wp_mono; [|by apply Hn].
  intros b s' (-> & Hwf' & r & Hfin & Hfiles). split; [done|].
  unfold finished, trace_key in Hfin. rewrite (proj2 (Z.eqb_neq _ _) Hid), Hm in Hfin.
  destruct Hfin as (_ & _ & -> & Hon & _). rewrite <- Hon in Hi. split; [done|]. split; [done|].
  intros Hreg'. destruct (traceStart_twice s' self id i Hwf' Hreg' Hid Hi) as (s'' & Hr & _).
  by exists s''.
Qed.

(** Starting a trace that is already running throws, and the trace that is
    running is not touched. *)
Theorem trace_started_twice s self id i :
  prof_wf s -> is_Some (registered (jvm_ s) self) -> id <> -2 ->
  a_ongoing (abs (storage_ s)) !! id = Some i ->
  exists s', run (traceStart self id) s =
    Exc (Runtime_error ("Found trace that already started: " +:+ pretty id)) s' /\
    a_ongoing (abs (storage_ s')) = a_ongoing (abs (storage_ s)).
Proof. apply traceStart_twice. Qed.

(** ** Coroutines *)

(** [coroutineCreated] stores an info for the new coroutine; the coroutine
    becomes the last child of the one running on the thread exactly when that
    one belongs to a trace, and is then given a list of children of its own,
    so that its descendants are recorded too; nothing else changes in the
    recorded children. *)
Theorem created_child s self id :
  prof_wf s ->
  wp (coroutineCreated self id) s (fun _ s' => prof_wf s' /\
    is_Some (CM.map_ (coroutine_info_map_ (storage_ s')) !! id) /\
    a_children (abs (storage_ s'))
      = created id (get_coroutine_of self s) (a_children (abs (storage_ s)))).
Proof.
  intros Hwf. eapply wp_mono; [|by apply safe_coroutineCreated]. cbv beta. tauto.
Qed.

(** No suspension of the coroutine is open. *)
Definition none_open (t : TraceStorage) (i : CoroutineInfo) : Prop :=
  List.find (open_suspension t) (CL.list_ (suspensions_list i)) = None.

Lemma find_open_ext t t' ls :
  (forall l, l ∈ ls -> cells (suspension_heap t') !! l = cells (suspension_heap t) !! l) ->
  List.find (open_suspension t') ls = List.find (open_suspension t) ls.
Proof.
  induction ls as [|l ls IH]; intros H; simpl; [done|]. unfold open_suspension at 1 3.
  rewrite (H l) by left. destruct (match cells (suspension_heap t) !! l with
    Some i => _ | None => _ end); [done|]. apply IH. intros l' Hl'. apply H. by right.
Qed.

(** The info of the coroutine after a suspension. *)
Lemma suspension_info frames last id l i t0 t1 :
  suspension_effect frames last id l i t0 t1 ->
  coroutine_info_map_ t1 = coroutine_info_map_ t0 /\
  exists u i', cells (info_heap t1) !! l = Some i' /\
    let j := settled (steady (readings (clock t0))) last u i in
    last_resume i' = last_resume j /\
    wall_clock_running_time i' = wall_clock_running_time j.
Proof.
  intros (u & c & H). cbv zeta in H. set (j := settled _ _ u i) in *.
  destruct frames as [[|m ms]|].
  - subst t1. split; [done|]. exists u, j. split; [apply lookup_insert_eq|done].
  - subst t1. split; [done|]. exists u. eexists.
    split; [apply lookup_insert_eq|done].
  - subst t1. split; [done|]. exists u, j. split; [apply lookup_insert_eq|done].
Qed.

(** C20: suspending a coroutine twice charges its running time once.  The first
    suspension after a resumption adds the time since the resumption to the
    wall clock of the coroutine; a second suspension without a resumption in
    between (a chain of suspending calls unwinds through several of them) adds
    nothing. *)
Theorem running_time_charged_once s self self' id frames frames' l i :
  prof_wf s -> frames_answered frames -> frames_answered frames' ->
  CM.map_ (coroutine_info_map_ (storage_ s)) !! id = Some (Some l) ->
  cells (info_heap (storage_ s)) !! l = Some i ->
  wp (coroutineSuspended frames self id;; coroutineSuspended frames' self' id) s (fun _ s' =>
    exists i', cells (info_heap (storage_ s')) !! l = Some i' /\ last_resume i' = 0 /\
      wall_clock_running_time i' =
        if last_resume i >? 0 then
          tt_add_assign (wall_clock_running_time i)
            (steady (readings (clock (storage_ s))) - last_resume i)
        else wall_clock_running_time i).
Proof.
  intros Hwf Hf Hf' Hm Hi. apply safe_wp_bind.
  eapply safe_mono; [|by apply safe_coroutineSuspended].
  intros ? s1 Hwf1 _ [_ H] _ _. rewrite Hm in H. destruct H as (l' & i0 & [= <-] & Hi0 & He).
  rewrite Hi in Hi0. injection Hi0 as <-.
  destruct (suspension_info _ _ _ _ _ _ _ He) as (Hmap & u & i1 & Hi1 & Hr1 & Hw1).
  rewrite <- Hmap in Hm.
  eapply wp_mono; [|by apply (safe_coroutineSuspended s1 self' id frames')].
  intros [] s2 (_ & _ & _ & H). rewrite Hm in H. destruct H as (l' & i2 & [= <-] & Hi2 & He').
  rewrite Hi1 in Hi2. injection Hi2 as <-.
  destruct (suspension_info _ _ _ _ _ _ _ He') as (_ & u' & i3 & Hi3 & Hr3 & Hw3).
  exists i3. split; [done|].
  destruct (settled_resume s l i (steady (readings (clock (storage_ s)))) (usage_of self s) u
              Hwf Hi) as [Hz _].
  rewrite Hz in Hr1. unfold settled in Hr3, Hw3. rewrite Hr1 in Hr3, Hw3. simpl in Hr3, Hw3.
  rewrite Hr3, Hr1, Hw3, Hw1. split; [done|]. unfold settled.
  destruct (last_resume i >? 0); [|done]. apply charge_keeps.
Qed.

(** The state after a suspension: the coroutine has one more suspension, which
    is open and the only open one. *)
Lemma suspension_opened s self id m ms l i :
  prof_wf s -> frames_answered (Some (m :: ms)) ->
  CM.map_ (coroutine_info_map_ (storage_ s)) !! id = Some (Some l) ->
  cells (info_heap (storage_ s)) !! l = Some i -> none_open (storage_ s) i ->
  safe (coroutineSuspended (Some (m :: ms)) self id) s (fun _ s1 => exists j sl n,
    CM.map_ (coroutine_info_map_ (storage_ s1)) !! id = Some (Some l) /\
    cells (info_heap (storage_ s1)) !! l = Some j /\
    CL.list_ (suspensions_list j) = CL.list_ (suspensions_list i) ++ [sl] /\
    sl ∉ CL.list_ (suspensions_list i) /\ none_open (storage_ s1) i /\
    cells (suspension_heap (storage_ s1)) !! sl =
      Some (MkSuspension id (steady n) 0 (method_frame <$> take 60 (m :: ms))) /\
    readings (clock (storage_ s1)) = S n).
Proof.
  intros Hwf Hf Hm Hi Hno. eapply safe_mono; [|by apply safe_coroutineSuspended].
  intros ? s1 Hwf1 _ [_ H]. rewrite Hm in H.
  destruct H as (l' & i0 & [= <-] & Hi0 & u & c & Hs1). cbv zeta in Hs1.
  rewrite Hi in Hi0. injection Hi0 as <-. set (j := settled _ _ u i) in *.
  assert (Hj : suspensions_list j = suspensions_list i)
    by exact (proj2 (settled_resume s l i _ _ u Hwf Hi)).
  clearbody j. set (sl := next (suspension_heap (storage_ s))) in *.
  assert (Hfresh : sl ∉ CL.list_ (suspensions_list i)).
  { pose proof (pw_storage s Hwf) as Hst. intros Hin.
    pose proof (wf_suspensions _ Hst _ _ Hi) as Hv. rewrite list.Forall_forall in Hv.
    destruct (Hv _ Hin) as [x Hx]. unfold sl in Hx. rewrite heap_fresh in Hx; [done|apply Hst]. }
  exists (add_suspension_to sl j), sl, (readings c). rewrite Hs1. split; [done|].
  split; [apply lookup_insert_eq|]. split; [simpl; by rewrite Hj|]. split; [done|]. split.
  { unfold none_open. rewrite (find_open_ext (storage_ s)); [done|].
    intros y Hy. simpl. rewrite lookup_insert_ne; [done|]. by intros <-. }
  split; [apply lookup_insert_eq|done].
Qed.

(** C16: a suspension from its start to its end.  When no suspension of the
    coroutine is open, [coroutineSuspended] and then [coroutineResumed], on
    whatever threads, append exactly one suspension: its stack reads as the
    classes and methods JVMTI reported, in order, at most sixty; it starts at
    a positive time and ends at a later or equal one; no suspension of the
    coroutine is left open; and the coroutine is the current one of the thread
    that resumed it. *)
Theorem suspend_resume s self self' id m ms l i :
  prof_wf s -> frames_answered (Some (m :: ms)) ->
  CM.map_ (coroutine_info_map_ (storage_ s)) !! id = Some (Some l) ->
  cells (info_heap (storage_ s)) !! l = Some i -> none_open (storage_ s) i ->
  wp (coroutineSuspended (Some (m :: ms)) self id;; coroutineResumed self' id) s (fun _ s' =>
    prof_wf s' /\ get_coroutine_of self' s' = id /\
    exists i' sl x, cells (info_heap (storage_ s')) !! l = Some i' /\
      CL.list_ (suspensions_list i') = CL.list_ (suspensions_list i) ++ [sl] /\
      cells (suspension_heap (storage_ s')) !! sl = Some x /\
      si_coroutine_id x = id /\ 0 < si_start x <= si_end x /\
      frame_method (deref_of s') <$> suspension_stack_trace x = method_line <$> take 60 (m :: ms) /\
      none_open (storage_ s') i').
Proof.
  intros Hwf Hf Hm Hi Hno. apply safe_wp_bind.
  eapply safe_mono; [|by eapply suspension_opened].
  intros ? s1 Hwf1 _ (j & sl & n & Hm1 & Hj & Hlist & Hfresh & Hno1 & Hx & Hn) _ _.
  assert (Hfind : List.find (open_suspension (storage_ s1)) (CL.list_ (suspensions_list j))
                  = Some sl).
  { rewrite Hlist, find_app, Hno1. simpl. unfold open_suspension. by rewrite Hx. }
  eapply wp_mono; [|by apply safe_coroutineResumed].
  intros [] s2 (Hwf2 & _ & Hcur & H). split; [done|]. split; [done|]. rewrite Hm1 in H.
  destruct H as (l' & i2 & [= <-] & Hi2 & Hs2). rewrite Hj in Hi2. injection Hi2 as <-.
  unfold resumed in Hs2. rewrite Hfind, Hx, Hn in Hs2.
  assert (Hx2 : cells (suspension_heap (storage_ s2)) !! sl = Some (set_si_end (steady (S (S n)))
            (MkSuspension id (steady n) 0 (method_frame <$> take 60 (m :: ms)))))
    by (rewrite Hs2; apply lookup_insert_eq).
  pose proof (pw_suspensions _ Hwf2 _ _ Hx2) as Hk.
  eexists _, sl, _. rewrite Hs2. split; [apply lookup_insert_eq|].
  split; [exact Hlist|]. split; [apply lookup_insert_eq|]. split; [done|].
  cbn [set_si_end si_start si_end suspension_stack_trace].
  pose proof (steady_range n). pose proof (steady_range (S (S n))).
  pose proof (steady_mono n (S (S n)) ltac:(lia)). split; [simpl; lia|].
  split; [apply frames_read; [intros; by apply method_reads|exact Hk]|].
  unfold none_open. cbn [set_last_resume suspensions_list CL.list_].
  rewrite Hlist, find_app, (find_open_ext (storage_ s1)), Hno1.
  - simpl. unfold open_suspension. simpl. rewrite lookup_insert_eq. simpl. unfold tt_eqb.
    by rewrite (proj2 (Z.eqb_neq _ 0)) by lia.
  - intros y Hy. simpl. rewrite lookup_insert_ne; [done|]. by intros <-.
Qed.

(** [traceEnd] and [coroutineCompleted] charge the running time of the
    coroutine without resetting the time of its last resumption.  Two charges
    in a row, as when a trace ends and its coroutine is then suspended or
    completed, count the time between the resumption and the first charge
    twice. *)
Theorem usage_charged_twice s self self' l i :
  prof_wf s -> cells (info_heap (storage_ s)) !! l = Some i ->
  wp (calculate_resource_usage self (Some l);; calculate_resource_usage self' (Some l)) s
    (fun _ s' => exists i', cells (info_heap (storage_ s')) !! l = Some i' /\
      let n := readings (clock (storage_ s)) in
      wall_clock_running_time i' =
        tt_add_assign (tt_add_assign (wall_clock_running_time i) (steady n - last_resume i))
          (steady (S n) - last_resume i)).
Proof.
  intros Hwf Hi. apply safe_wp_bind. eapply safe_mono; [|by apply safe_resource_usage].
  intros ? s1 Hwf1 _ [u Hs1] _ _. set (i1 := charge _ _ _ i) in Hs1.
  destruct (charge_keeps (steady (readings (clock (storage_ s)))) (usage_of self s) u i)
    as (Hr & _ & Hw). fold i1 in Hr, Hw.
  eapply wp_mono; [|apply (safe_resource_usage s1 self' l i1); [done|]].
  - intros [] s2 (_ & _ & u' & Hs2). rewrite Hs2. eexists. split; [apply lookup_insert_eq|].
    destruct (charge_keeps (steady (readings (clock (storage_ s1)))) (usage_of self' s1) u' i1)
      as (_ & _ & ->). by rewrite Hr, Hw, Hs1.
  - rewrite Hs1. apply lookup_insert_eq.
Qed.

Lemma safe_result {A} (p : prog Profiler A) s Q a s' :
  safe p s Q -> run p s = Val a s' -> prof_wf s'.
Proof. unfold safe, wp. intros Hs Hr. rewrite Hr in Hs. apply Hs. Qed.
End theorems.

(** ** Examples *)

(** An environment in which every method is [m()V] of class [LC;] and the usage
    of a thread grows with every reading. *)
#[export] Instance demo_env : Environment | 100 := {|
  GetMethodName m := Some ("m", "()V");
  GetMethodDeclaringClass m := Some 1;
  GetClassSignature k := Some "LC;";
  target := Linux;
  usage self n := let t := Z.min (Z.of_nat n) 1000 in
                  MkUsage (MkTime t 0) (MkTime t 0) t t;
  thread_info self n := None;
  hash_pthread t := t;
  hash_thread_id t := 1000 + t;
  symbol a := None;
|}.

#[export] Instance demo_usage : UsageLaws (E:=demo_env) | 100.
Proof. split; [intros self n; unfold usage_ok, time_ok, in_u; simpl; lia|done]. Defined.

Lemma demo_answered m : method_answered (E:=demo_env) m.
Proof. split; [by eexists|]. by exists 1, "LC;". Qed.

Section example.
Local Existing Instance tick_clock.

Definition demo_opts : settings := MkSettings 0 1000000 "/tmp".

Definition demo_jvm : JVM := MkJVM (CList [0%nat] 0)
  (Heap {[0%nat := make_thread "main" 7 4096 12288]} 1).

Lemma demo_jvm_wf : jvm_wf demo_jvm.
Proof.
  split; simpl.
  - intros [|l] Hl; simpl in *; [lia|]. by rewrite lookup_singleton_ne.
  - constructor; [|done]. eexists. apply lookup_singleton_eq.
Qed.

Definition demo_profiler : Profiler := make_profiler demo_jvm.

Lemma demo_profiler_wf : prof_wf demo_profiler.
Proof. apply make_profiler_wf, demo_jvm_wf. Qed.

Definition after {A} (p : prog Profiler A) (s : Profiler) : Profiler :=
  match run p s with Val _ s' => s' | _ => s end.

(** Coroutine 1 exists; a trace of coroutine 1 runs although it was never
    created; one raw sample waits. *)
Definition demo_created : Profiler := after (coroutineCreated 7 1) demo_profiler.
Definition demo_tracing : Profiler := after (traceStart 7 1) demo_profiler.
Definition demo_raw : RawCallTraceRecord :=
  MkRaw 5 1 (make_async [MkInstruction 9 0 true; no_instruction] 1 7 4096 12288) 7 1.
Definition demo_sampled : Profiler :=
  after (zoom storage_L (addRawTrace 5 (raw_trace demo_raw) 1)) demo_profiler.

Lemma demo_created_wf : prof_wf demo_created.
Proof.
  eapply safe_result; [apply (safe_coroutineCreated demo_profiler 7 1), demo_profiler_wf|].
  vm_compute. reflexivity.
Qed.

Lemma demo_tracing_wf : prof_wf demo_tracing.
Proof.
  eapply safe_result; [apply (safe_traceStart demo_profiler 7 1)|vm_compute; reflexivity].
  - apply demo_profiler_wf.
  - by eexists.
  - reflexivity.
Qed.

Lemma demo_sampled_wf : prof_wf demo_sampled.
Proof.
  eapply safe_result;
    [apply (safe_exec demo_profiler (OpAddRaw 5 (raw_trace demo_raw) 1)); try done|].
  - apply demo_profiler_wf.
  - vm_compute. reflexivity.
Qed.
End example.

Lemma processTraces_drains_witness :
  wp (processTraces (E:=demo_env) 1) demo_sampled (fun b s' => b = true /\ prof_wf s' /\
    a_raw (abs (storage_ s')) = [] /\
    exists ps, Forall2 processed_of [demo_raw] ps /\
      a_traces (abs (storage_ s')) = append_samples (zip [demo_raw] ps) ∅).
Proof.
  apply (processTraces_drains (CK:=tick_clock) demo_sampled 1).
  - exact demo_sampled_wf.
  - constructor; [|constructor]. split; [by eexists|]. split; [simpl; lia|].
    constructor; [|constructor]. intros _ _. apply demo_answered.
  - simpl. lia.
Defined.

Lemma handlers_safe_witness :
  exists n, forall fuel, (n <= fuel)%nat ->
    wp (handle (CK:=tick_clock) (E:=demo_env) demo_opts fuel 7 (HTraceStart 1)) demo_profiler
      (fun b s' => b = true /\ prof_wf s').
Proof.
  apply (handlers_safe (UL:=demo_usage) demo_opts demo_profiler 7 (HTraceStart 1)).
  - exact demo_profiler_wf.
  - split; [by eexists|reflexivity].
Defined.

Lemma trace_roundtrip_witness :
  exists s1 n, run (traceStart (CK:=tick_clock) (E:=demo_env) 7 (-2)) demo_profiler = Val tt s1 /\
    time_now (CK:=tick_clock) demo_profiler <= last_reading (CK:=tick_clock) s1 /\
    forall fuel, (n <= fuel)%nat ->
    wp (traceEnd (CK:=tick_clock) (E:=demo_env) demo_opts fuel 7 (-2)) s1 (fun b s' =>
      b = true /\ a_ongoing (abs (storage_ s')) = ∅ /\
      let t1 := last_reading (CK:=tick_clock) s1 in let t2 := last_reading (CK:=tick_clock) s' in
      time_now (CK:=tick_clock) s1 <= t2 /\
        if t2 - t1 >? 0 then
          exists st fuel', plot_trace (deref_of s') (view (storage_ s'))
              (MkTraceInfo 1007 t1 t2) fuel' = Some st /\
            files s' = [] ++
              [("/tmp" +:+ "/trace" +:+ pretty (output_counter demo_profiler) +:+ ".pftrace",
                trace st)]
        else files s' = []).
Proof.
  apply (trace_roundtrip (UL:=demo_usage) demo_opts demo_profiler 7 (-2)).
  - exact demo_profiler_wf.
  - by eexists.
  - reflexivity.
  - by left.
Defined.

Lemma trace_lost_witness :
  exists i n, forall fuel, (n <= fuel)%nat ->
    wp (traceEnd (CK:=tick_clock) (E:=demo_env) demo_opts fuel 7 1) demo_tracing (fun b s' =>
      b = true /\ files s' = files demo_tracing /\
      a_ongoing (abs (storage_ s')) !! 1 = Some i /\
      (is_Some (registered (jvm_ s') 7) ->
       exists s'', run (traceStart (CK:=tick_clock) (E:=demo_env) 7 1) s' =
         Exc (Runtime_error ("Found trace that already started: " +:+ pretty 1)) s'')).
Proof.
  eexists. apply (trace_lost (UL:=demo_usage) demo_opts demo_tracing 7 1).
  - exact demo_tracing_wf.
  - by eexists.
  - done.
  - vm_compute. reflexivity.
  - vm_compute. reflexivity.
Defined.

Lemma trace_started_twice_witness :
  exists s', run (traceStart (CK:=tick_clock) (E:=demo_env) 7 1) demo_tracing =
    Exc (Runtime_error ("Found trace that already started: " +:+ pretty 1)) s' /\
    a_ongoing (abs (storage_ s')) = a_ongoing (abs (storage_ demo_tracing)).
Proof.
  eapply (trace_started_twice demo_tracing 7 1).
  - exact demo_tracing_wf.
  - by eexists.
  - done.
  - vm_compute. reflexivity.
Defined.

Lemma created_child_witness :
  wp (coroutineCreated (CK:=tick_clock) 7 1) demo_profiler (fun _ s' => prof_wf (E:=demo_env) s' /\
    is_Some (CM.map_ (coroutine_info_map_ (storage_ s')) !! 1) /\
    a_children (abs (storage_ s')) = created 1 (-1) ∅).
Proof. apply (created_child demo_profiler 7 1), demo_profiler_wf. Defined.

(** The info of coroutine 1. *)
Definition demo_created_info : CoroutineInfo :=
  default (make_coroutine 0 0 0 0 0 0 0 0) (cells (info_heap (storage_ demo_created)) !! 0%nat).

Lemma demo_created_stored :
  CM.map_ (coroutine_info_map_ (storage_ demo_created)) !! 1 = Some (Some 0%nat) /\
  cells (info_heap (storage_ demo_created)) !! 0%nat = Some demo_created_info /\
  none_open (storage_ demo_created) demo_created_info.
Proof. vm_compute. done. Qed.

Lemma running_time_charged_once_witness :
  wp (coroutineSuspended (CK:=tick_clock) (E:=demo_env) None 7 1;;
      coroutineSuspended (CK:=tick_clock) (E:=demo_env) None 7 1) demo_created (fun _ s' =>
    exists i', cells (info_heap (storage_ s')) !! 0%nat = Some i' /\ last_resume i' = 0 /\
      wall_clock_running_time i' =
        if last_resume demo_created_info >? 0 then
          tt_add_assign (wall_clock_running_time demo_created_info)
            (steady (readings (clock (storage_ demo_created))) - last_resume demo_created_info)
        else wall_clock_running_time demo_created_info).
Proof.
  apply (running_time_charged_once (UL:=demo_usage) demo_created 7 7 1).
  - exact demo_created_wf.
  - by intros ms.
  - by intros ms.
  - apply demo_created_stored.
  - apply demo_created_stored.
Defined.

Lemma suspend_resume_witness :
  wp (coroutineSuspended (CK:=tick_clock) (E:=demo_env) (Some [5]) 7 1;;
      coroutineResumed (CK:=tick_clock) (E:=demo_env) 8 1) demo_created (fun _ s' =>
    prof_wf (E:=demo_env) s' /\ get_coroutine_of 8 s' = 1 /\
    exists i' sl x, cells (info_heap (storage_ s')) !! 0%nat = Some i' /\
      CL.list_ (suspensions_list i')
        = CL.list_ (suspensions_list demo_created_info) ++ [sl] /\
      cells (suspension_heap (storage_ s')) !! sl = Some x /\
      si_coroutine_id x = 1 /\ 0 < si_start x <= si_end x /\
      frame_method (deref_of (E:=demo_env) s') <$> suspension_stack_trace x
        = method_line (E:=demo_env) <$> take 60 [5] /\
      none_open (storage_ s') i').
Proof.
  apply (suspend_resume (UL:=demo_usage) demo_created 7 8 1 5 []).
  - exact demo_created_wf.
  - intros ms [= <-]. constructor; [apply demo_answered|constructor].
  - apply demo_created_stored.
  - apply demo_created_stored.
  - apply demo_created_stored.
Defined.

Lemma usage_charged_twice_witness :
  wp (calculate_resource_usage (CK:=tick_clock) (E:=demo_env) 7 (Some 0%nat);;
      calculate_resource_usage (CK:=tick_clock) (E:=demo_env) 7 (Some 0%nat)) demo_created
    (fun _ s' => exists i', cells (info_heap (storage_ s')) !! 0%nat = Some i' /\
      let n := readings (clock (storage_ demo_created)) in
      wall_clock_running_time i' =
        tt_add_assign (tt_add_assign (wall_clock_running_time demo_created_info)
            (steady n - last_resume demo_created_info))
          (steady (S n) - last_resume demo_created_info)).
Proof.
  apply (usage_charged_twice (UL:=demo_usage) demo_created 7 7 0 demo_created_info).
  - exact demo_created_wf.
  - apply demo_created_stored.
Defined.
