(* ===== verification/SampledTraces.v ===== *)
(** * The traces the sampler stores can be processed

    On each of the four platforms the unwinder leaves in a trace only frames
    it has recorded, at most as many as the array holds; so whatever the
    interleaving of the profiler thread and the signal handlers, the raw
    samples satisfy what [processTraces] relies on, as far as JVMTI knows the
    methods in them. *)

From S2P Require Import Prelude Memory ConcurrentList ConcurrentMap TraceTime TraceModel.
From S2P Require Import TraceStorage StorageSafety StorageSpec Jvm Unwind Sampling SamplingInv.
From S2P Require Import SamplingLive UnwindSpec Profiler ProfilerSafety ProfilerHandlers ProfilerTheorems.
From Stdlib Require Import ZArith Lia.
From stdpp Require Import base gmap list strings numbers.
Local Open Scope Z_scope.
Local Open Scope kt_scope.

(** ** The platforms *)

(** What [unwind_stack] is given, apart from the trace and the bounds of the
    stack, on each platform. *)
Inductive context `{LU : !Libunwind} :=
  | LinuxAArch64 (uc : ucontext)
  | AppleAArch64 (ptrauth_strip : Z -> Z) (uc : ucontext)
  | LinuxX86_64 (depth : nat) (c : cursor) (rip : Z)
  | AppleX86_64 (depth : nat) (ucontext_reg : Z -> register -> option Z) (dladdr : Z -> bool)
      (c : cursor).

Section platforms.
Context `{CC : !CodeCacheAPI} `{LU : !Libunwind} (m : mem).

Definition unwind_stack (x : context) (lo hi : Z) : prog AsyncTrace unit :=
  match x with
  | LinuxAArch64 uc => unwind_stack_linux_aarch64 m uc lo hi
  | AppleAArch64 strip uc => unwind_stack_apple_aarch64 m strip uc lo hi
  | LinuxX86_64 depth c rip => unwind_stack_linux_x86_64 depth c rip lo hi
  | AppleX86_64 depth ucontext_reg dladdr c =>
      unwind_stack_apple_x86_64 depth ucontext_reg dladdr c lo hi
  end.

(** ** The unwinders touch only the frames and their number *)

Ltac keeps_prim ::=
  first [apply keeps_write_instruction | apply keeps_from_mem | apply keeps_set_at_size].

Lemma x86_loop_header fuel lo hi c i lrbp rbp : keeps header (x86_loop fuel lo hi c i lrbp rbp).
Proof.
  revert c i lrbp rbp; induction fuel as [|fuel IH]; intros c i lrbp rbp; cbn [x86_loop].
  - apply keeps_undef.
  - unfold record_frame_x86. keeps_tac; apply IH.
Qed.

Lemma apple_x86_loop_header fuel dladdr lo hi c ip rbp i :
  keeps header (apple_x86_loop fuel dladdr lo hi c ip rbp i).
Proof.
  revert c ip rbp i; induction fuel as [|fuel IH]; intros c ip rbp i; cbn [apple_x86_loop].
  - apply keeps_undef.
  - unfold record_frame_apple. keeps_tac; apply IH.
Qed.

Lemma unwind_stack_header x lo hi : keeps header (unwind_stack x lo hi).
Proof.
  destruct x as [uc|strip uc|depth c rip|depth reg dladdr c]; simpl.
  - apply unwind_aarch64_header.
  - apply unwind_aarch64_header.
  - apply keeps_bind; [apply keeps_from_mem|intros c'].
    apply keeps_bind; [apply keeps_reads|intros size].
    apply keeps_bind; [apply x86_loop_header|]. intros n. apply keeps_set_at_size.
  - apply keeps_bind; [apply keeps_from_mem|intros c'].
    apply keeps_bind; [apply keeps_reads|intros size].
    apply keeps_bind; [apply apple_x86_loop_header|]. intros n. apply keeps_set_at_size.
Qed.

(** ** What a trace contains when the unwinder returns *)

(** [Q] holds if the program returns; the memory may be anything. *)
Definition if_returns {S A} (p : prog S A) (s : S) (Q : A -> S -> Prop) : Prop :=
  forall a s', run p s = Val a s' -> Q a s'.

Lemma returns_bind {S A B} (p : prog S A) (g : A -> prog S B) s Q :
  if_returns p s (fun a s1 => if_returns (g a) s1 Q) -> if_returns (p ≫= g) s Q.
Proof.
  intros Hp b s2. rewrite run_bind. destruct (run p s) as [a s1| |] eqn:Hr; simpl; try done.
  by apply Hp.
Qed.

Lemma returns_ret {S A} (a : A) (s : S) (Q : A -> S -> Prop) : Q a s -> if_returns (mret a) s Q.
Proof. by intros HQ ? ? [= <- <-]. Qed.

Lemma returns_reads {S A} (f : S -> A) s (Q : A -> S -> Prop) :
  Q (f s) s -> if_returns (reads f) s Q.
Proof. by intros HQ ? ? [= <- <-]. Qed.

Lemma returns_from_mem {S A} (x : option A) (s : S) (Q : A -> S -> Prop) :
  (forall a, x = Some a -> Q a s) -> if_returns (from_mem x) s Q.
Proof. intros HQ. destruct x; [by apply returns_ret, HQ|done]. Qed.

Lemma returns_signed {S} w x (s : S) (Q : Z -> S -> Prop) :
  Q x s -> if_returns (signed w x) s Q.
Proof. intros HQ. unfold signed. case_bool_decide; [by apply returns_ret|done]. Qed.

Lemma returns_undef {S A} w (s : S) (Q : A -> S -> Prop) : if_returns (undef w) s Q.
Proof. done. Qed.

(** A Java frame has an identifier that the code cache gave. *)
Definition known_entry (i : InstructionInfo) : Prop :=
  java_frame i = true -> exists ip fp id, getJMethodId ip fp = Some id /\ instruction i = s64 id.

(** A trace being filled: an array of [n] entries, all known. *)
Definition filling (n : nat) (a : AsyncTrace) : Prop :=
  at_size a = Z.of_nat n /\ length (instructions a) = n /\ Forall known_entry (instructions a).

Definition filled (n : nat) (a : AsyncTrace) : Prop :=
  0 <= at_size a <= Z.of_nat n /\ length (instructions a) = n /\
  Forall known_entry (instructions a).

Lemma returns_write n i x a :
  filling n a -> known_entry x ->
  if_returns (write_instruction i x) a (fun _ a' => filling n a' /\ 0 <= i < Z.of_nat n).
Proof.
  intros (Hs & Hl & Hk) Hx u a'. unfold write_instruction. simpl.
  destruct ((0 <=? i) && _) eqn:Hi; [|done]. intros [= _ <-]. rewrite Hl in Hi. split; [|lia].
  split; [done|]. simpl. split; [by rewrite length_insert|]. by apply Forall_insert.
Qed.

Lemma known_native ip fp : known_entry (MkInstruction ip fp false).
Proof. done. Qed.

Lemma known_java ip fp id : getJMethodId ip fp = Some id -> known_entry (MkInstruction (s64 id) 0 true).
Proof. intros H _. by exists ip, fp, id. Qed.

Lemma filling_done n a i : filling n a -> 0 <= i <= Z.of_nat n -> filled n (set_at_size i a).
Proof. by intros (_ & Hl & Hk) Hi. Qed.

(** One iteration, on each platform. *)
Lemma returns_record n i ip fp a :
  filling n a ->
  if_returns (record_frame i ip fp) a (fun _ a' => filling n a' /\ 0 <= i < Z.of_nat n).
Proof.
  intros Ha. apply returns_bind, returns_from_mem. intros [|] _; cbn [negb].
  - apply returns_bind, returns_from_mem. intros id Hid. apply returns_bind.
    intros u a' Hr. apply returns_ret. eapply returns_write; [done|by eapply known_java|exact Hr].
  - apply returns_bind. intros u a' Hr. apply returns_ret.
    eapply returns_write; [done|apply known_native|exact Hr].
Qed.

Lemma returns_record_x86 n lo hi i ip rbp a :
  filling n a ->
  if_returns (record_frame_x86 lo hi i ip rbp) a (fun _ a' => filling n a').
Proof.
  intros Ha. apply returns_bind, returns_from_mem. intros [|] _; cbn [negb].
  - destruct (is_pointer_in_stack rbp lo hi); [|by apply returns_ret].
    apply returns_bind, returns_from_mem. intros id Hid u a' Hr.
    eapply returns_write; [done|by eapply known_java|exact Hr].
  - intros u a' Hr. eapply returns_write; [done|apply known_native|exact Hr].
Qed.

Lemma returns_record_apple n dladdr lo hi i ip rbp a :
  filling n a ->
  if_returns (record_frame_apple dladdr lo hi i ip rbp) a (fun _ a' => filling n a').
Proof.
  intros Ha. unfold record_frame_apple. destruct (dladdr ip).
  - apply returns_bind. intros u a' Hr. apply returns_ret.
    eapply returns_write; [done|apply known_native|exact Hr].
  - destruct (is_pointer_in_stack rbp lo hi); [|by apply returns_ret].
    apply returns_bind, returns_from_mem. intros id Hid. apply returns_bind.
    intros u a' Hr. apply returns_ret. eapply returns_write; [done|by eapply known_java|exact Hr].
Qed.

Lemma returns_aarch64_loop n strip lo hi fuel ip fp lr i a :
  filling n a ->
  if_returns (aarch64_loop m strip lo hi fuel ip fp lr i) a (fun r a' =>
    filling n a' /\ 0 <= r <= Z.of_nat n).
Proof.
  revert ip fp lr i a; induction fuel as [|fuel IH]; intros ip fp lr i a Ha; cbn [aarch64_loop];
    [apply returns_undef|].
  apply returns_bind. intros processed a1 Hr. apply (returns_record n) in Hr as [Ha1 Hi]; [|done].
  apply returns_bind, returns_signed. apply returns_bind, returns_from_mem. intros fp' _.
  destruct (walk_ends _ _ _ _ _); [apply returns_ret; split; [done|lia]|].
  apply returns_bind, returns_from_mem. intros lr' _. apply returns_bind, returns_reads.
  destruct (processed && _); [by apply IH|]. apply returns_ret. split; [done|lia].
Qed.

Lemma returns_x86_loop n lo hi fuel c i lrbp rbp a :
  filling n a -> 0 <= i < Z.of_nat n ->
  if_returns (x86_loop fuel lo hi c i lrbp rbp) a (fun r a' =>
    filling n a' /\ 0 <= r <= Z.of_nat n).
Proof.
  revert c i lrbp rbp a; induction fuel as [|fuel IH]; intros c i lrbp rbp a Ha Hi; cbn [x86_loop];
    [apply returns_undef|].
  destruct (negb _ && _); [apply returns_ret; split; [done|lia]|].
  apply returns_bind. intros u a1 Hr. apply (returns_record_x86 n) in Hr; [|done].
  apply returns_bind, returns_signed. destruct (unw_step c) as [r c'].
  apply returns_bind, returns_reads. destruct ((r >? 0) && _) eqn:Hc.
  - apply IH; [done|]. destruct Hr as [Hs _]. rewrite Hs in Hc. lia.
  - apply returns_ret. split; [done|lia].
Qed.

Lemma returns_apple_x86_loop n dladdr lo hi fuel c ip rbp i a :
  filling n a -> 0 <= i < Z.of_nat n ->
  if_returns (apple_x86_loop fuel dladdr lo hi c ip rbp i) a (fun r a' =>
    filling n a' /\ 0 <= r <= Z.of_nat n).
Proof.
  revert c ip rbp i a; induction fuel as [|fuel IH]; intros c ip rbp i a Ha Hi;
    cbn [apple_x86_loop]; [apply returns_undef|].
  apply returns_bind. intros processed a1 Hr. apply (returns_record_apple n) in Hr; [|done].
  destruct (unw_step c) as [r c']. destruct (r <=? 0); [apply returns_ret; split; [done|lia]|].
  destruct (_ || _); [apply returns_ret; split; [done|lia]|].
  apply returns_bind, returns_signed. apply returns_bind, returns_reads.
  destruct (processed && _) eqn:Hc; [|apply returns_ret; split; [done|lia]].
  apply IH; [done|]. destruct Hr as [Hs _]. rewrite Hs in Hc. destruct processed; simpl in Hc; lia.
Qed.

(** The end of every unwinder: the number of frames is stored. *)
Lemma returns_size n (p : prog AsyncTrace Z) a :
  if_returns p a (fun r a' => filling n a' /\ 0 <= r <= Z.of_nat n) ->
  if_returns (r ← p; modify (set_at_size r)) a (fun _ a' => filled n a').
Proof.
  intros Hp. apply returns_bind. intros r a1 Hr. apply Hp in Hr as [Ha1 Hi].
  intros u a' [= _ <-]. by apply filling_done.
Qed.

Lemma unwind_stack_fills n x lo hi a :
  (0 < n)%nat -> filling n a -> if_returns (unwind_stack x lo hi) a (fun _ a' => filled n a').
Proof.
  assert (Hzero : filling n a -> if_returns (modify (set_at_size 0)) a (fun _ a' => filled n a')).
  { intros Ha u a' [= _ <-]. apply filling_done; [done|lia]. }
  intros Hn Ha. destruct x as [uc|strip uc|depth c rip|depth reg dladdr c]; simpl.
  1, 2: unfold unwind_stack_linux_aarch64, unwind_stack_apple_aarch64, unwind_aarch64;
    (destruct (_ || _); [by apply Hzero|]); apply returns_bind, returns_reads;
    by apply returns_size, returns_aarch64_loop.
  - apply returns_bind, returns_from_mem. intros c' _. apply returns_bind, returns_reads.
    apply returns_size, returns_x86_loop; [done|lia].
  - apply returns_bind, returns_from_mem. intros c' _. apply returns_bind, returns_reads.
    apply returns_size, returns_apple_x86_loop; [done|lia].
Qed.
End platforms.

(** ** What the sampler stores *)

Section stored.
Context `{CC : !CodeCacheAPI} `{LU : !Libunwind} (m : mem).
Context `{CK : !SteadyClock} `{E : !Environment} `{UL : !UsageLaws}.

Lemma new_trace_filling th : filling 30 (new_trace th).
Proof.
  split; [done|]. split; [apply length_replicate|]. apply Forall_replicate. done.
Qed.

(** A complete trace is ready, and its entries are the ones the unwinder
    wrote. *)
Lemma complete_filled hash t a :
  complete_trace (unwind_stack m) hash t a -> ready a = true /\ filled 30 a.
Proof.
  intros (a0 & (a1 & c1 & (th & x & Hth & Hrun) & ->) & ->). split; [done|].
  by apply (unwind_stack_fills m 30) in Hrun; [|lia|apply new_trace_filling].
Qed.

(** The frames of a trace are ones JVMTI can be asked about. *)
Definition frames_known_to_jvmti (a : AsyncTrace) : Prop :=
  Forall instruction_answered (take (Z.to_nat (at_size a)) (instructions a)).

Lemma filled_raw_ok n a sp time c :
  filled n a -> frames_known_to_jvmti a -> is_Some (registered (jvm_ sp) (thread_id a)) ->
  raw_ok sp (MkRaw time (at_size a) a (thread_id a) c).
Proof. intros (Hsz & Hlen & _) Hf Hreg. split; [done|]. simpl. split; [lia|done]. Qed.

(** JVMTI knows the methods whose identifiers the code cache gives. *)
Definition ids_answered : Prop :=
  forall ip fp id, getJMethodId ip fp = Some id -> s64 id <> 0 -> method_answered (s64 id).

Lemma known_answered i : ids_answered -> known_entry i -> instruction_answered i.
Proof.
  intros Hids Hk Hj Hne. destruct (Hk Hj) as (ip & fp & id & Hid & Heq). rewrite Heq in *.
  by eapply Hids.
Qed.

Lemma complete_raw_ok hash t a sp time c :
  ids_answered -> complete_trace (unwind_stack m) hash t a ->
  is_Some (registered (jvm_ sp) (thread_id a)) ->
  raw_ok sp (MkRaw time (at_size a) a (thread_id a) c).
Proof.
  intros Hids [_ Hf]%complete_filled Hreg. apply (filled_raw_ok 30); [done| |done].
  destruct Hf as (_ & _ & Hk). apply Forall_take. eapply list.Forall_impl; [exact Hk|].
  intros i. by apply known_answered.
Qed.

(** C17: what the signal handlers record.  On every platform and in every
    interleaving of the profiler thread, the signal handlers and [stop], a
    trace that was handed to the storage is marked ready, counts at most as
    many frames as its array of 30 holds, and each of its frames is a native
    address or an identifier the code cache gave.  Stored in any well-formed
    profiler whose raw samples can be processed, it leaves a well-formed
    profiler whose raw samples can be processed, itself the last, provided
    that its thread is registered there and that JVMTI answers for the
    non-null identifiers among its frames. *)
Theorem sampled_trace_processable j s i :
  rtc (sampler_step (unwind_stack m) hash_pthread) (make_sampler j) s -> i ∈ raw_traces s ->
  exists a, traces s !! i = Some a /\ ready a = true /\
    0 <= at_size a <= 30 /\ length (instructions a) = 30%nat /\
    Forall known_entry (instructions a) /\
    forall sp time,
      prof_wf sp -> Forall (raw_ok sp) (a_raw (abs (storage_ sp))) ->
      is_Some (registered (jvm_ sp) (thread_id a)) -> frames_known_to_jvmti a ->
      wp (zoom storage_L (addRawTrace time a (at_coroutine_id a))) sp (fun _ sp' =>
        prof_wf sp' /\ Forall (raw_ok sp') (a_raw (abs (storage_ sp'))) /\
        a_raw (abs (storage_ sp')) = a_raw (abs (storage_ sp)) ++
          [MkRaw time (at_size a) a (thread_id a) (at_coroutine_id a)]).
Proof.
  intros Hr Hi. pose proof (reachable_inv _ _ (unwind_stack_header m) j s Hr) as Hinv.
  pose proof (inv_raw _ _ _ Hinv) as Hall. rewrite list.Forall_forall in Hall.
  destruct (Hall i Hi) as (t & a & Ha & Hc). apply complete_filled in Hc as [Hrdy Hfill].
  pose proof Hfill as (Hsz & Hlen & Hk).
  exists a. do 5 (split; [done|]). intros sp time Hwf Hraw Hreg Hf.
  eapply wp_mono; [|apply (safe_exec sp (OpAddRaw time a (at_coroutine_id a))); [done..|]].
  - intros u sp' (Hwf' & Hg & Ha'). split; [done|]. rewrite Ha'.
    destruct (abs (storage_ sp)) as [raw tr trm on ch chm]; simpl in *. split; [|done].
    apply Forall_app. split; [|constructor; [|constructor]].
    + eapply list.Forall_impl; [exact Hraw|]. intros r. by apply raw_ok_grows.
    + eapply filled_raw_ok; [exact Hfill|done|]. by apply (gr_registered _ _ Hg).
  - done.
Qed.
End stored.

(** ** Example: a thread is sampled and its trace stored *)

Section example.
Local Existing Instance demo_cache.
Local Existing Instance demo_unwind.
Local Existing Instance tick_clock.
Local Existing Instance demo_env.
Local Existing Instance demo_usage.

Definition demo_thread : ThreadInfo := MkThread "main" 1 1 4096 4176.
Definition demo_filled : AsyncTrace :=
  match run (unwind_stack demo_stack (LinuxAArch64 demo_context) 4096 4176)
          (new_trace demo_thread) with
  | Val _ a => a
  | _ => new_trace demo_thread
  end.

Lemma demo_stores :
  exists s, rtc (sampler_step (unwind_stack demo_stack) hash_pthread) (make_sampler sampled_jvm) s /\
    raw_traces s = [0%nat] /\ traces s !! 0%nat = Some (set_ready (set_at_coroutine 1 demo_filled)).
Proof.
  eexists. split.
  - eapply rtc_l; [by apply by_profiler, step_start|].
    eapply rtc_l; [by apply by_profiler, step_test|].
    eapply rtc_l; [by apply by_profiler, (step_publish _ 0 [] demo_thread)|].
    eapply rtc_l; [by apply by_profiler, (step_kill _ 0 [] (new_trace demo_thread))|].
    eapply rtc_l; [apply (by_handler _ _ _ _ 1), step_deliver; [set_solver|done]|].
    eapply rtc_l; [by apply (by_handler _ _ _ _ 1), step_active|].
    eapply rtc_l; [by apply (by_handler _ _ _ _ 1), (step_load _ _ _ _ 0)|].
    eapply rtc_l; [apply (by_handler _ _ _ _ 1),
      (step_unwind _ _ _ _ 0 (new_trace demo_thread) (LinuxAArch64 demo_context) demo_filled);
      [done|done|vm_compute; reflexivity]|].
    eapply rtc_l; [by apply (by_handler _ _ _ _ 1), (step_coroutine _ _ _ _ 0 demo_filled (-1))|].
    eapply rtc_l; [by apply (by_handler _ _ _ _ 1),
      (step_ready _ _ _ _ 0 (set_at_coroutine 1 demo_filled))|].
    eapply rtc_l; [by apply by_profiler,
      (step_wait _ 0 [] (set_ready (set_at_coroutine 1 demo_filled)))|].
    eapply rtc_l; [by apply by_profiler, (step_clear _ 0 [])|].
    eapply rtc_l; [by apply by_profiler, (step_store _ 0 [])|].
    apply rtc_refl.
  - by split.
Qed.
End example.

Lemma sampled_jvm_wf : jvm_wf sampled_jvm.
Proof.
  split; simpl.
  - intros [|l] Hl; simpl in *; [lia|]. by rewrite lookup_singleton_ne.
  - constructor; [|done]. eexists. apply lookup_singleton_eq.
Qed.

Lemma sampled_trace_processable_witness :
  let sp := make_profiler sampled_jvm in
  let a := set_ready (set_at_coroutine 1 demo_filled) in
  wp (zoom storage_L (addRawTrace 5 a (at_coroutine_id a))) sp (fun _ sp' =>
    prof_wf (E:=demo_env) sp' /\ Forall (raw_ok (E:=demo_env) sp') (a_raw (abs (storage_ sp'))) /\
    a_raw (abs (storage_ sp')) =
      [] ++ [MkRaw 5 (at_size a) a (thread_id a) (at_coroutine_id a)]).
Proof.
  intros sp a. destruct demo_stores as (s & Hr & Hraw & Ha).
  destruct (sampled_trace_processable (CC:=demo_cache) (LU:=demo_unwind) (CK:=tick_clock)
           (E:=demo_env) demo_stack sampled_jvm s 0%nat)
    as (a' & Ha' & _ & _ & _ & _ & Hwp).
  - exact Hr.
  - rewrite Hraw. by left.
  - rewrite Ha in Ha'. injection Ha' as <-. apply (Hwp sp 5).
    + apply make_profiler_wf, sampled_jvm_wf.
    + constructor.
    + vm_compute. by eexists.
    + apply Forall_true. intros x _ _. apply demo_answered.
Defined.
