(* ===== verification/SampleToFile.v ===== *)
(** * A sample on its way to the file

    The profiler thread's [processTraces] and the application's [traceEnd],
    one after the other: a sample that was taken during a trace is in the file
    of the trace, with the names JVMTI and the symbolizer give to its frames. *)

From S2P Require Import Prelude ConcurrentList ConcurrentMap TraceTime TraceModel TraceStorage.
From S2P Require Import StorageSafety StorageSpec Perfetto SuspensionPlot PlotSpec PlotReach.
From S2P Require Import PlotContent Jvm Profiler ProfilerSafety ProfilerHandlers.
From S2P Require Import ProfilerTheorems.
From Stdlib Require Import ZArith Lia.
From stdpp Require Import base gmap list strings numbers pretty.
Local Open Scope Z_scope.
Local Open Scope kt_scope.

Section end_to_end.
Context `{CK : !SteadyClock} `{E : !Environment} `{UL : !UsageLaws} (opts : settings).
Implicit Types s : Profiler.

(** ** Processing takes no time *)

Lemma keeps_clock_frames l : keeps clock_of (map_prog processProfilerMethodInfo l).
Proof.
  induction l as [|i l IH]; cbn [map_prog]; [done|]. apply keeps_bind.
  - unfold processProfilerMethodInfo, processMethodInfo, resolve_class, drop_last. keeps_tac.
  - intros f. apply keeps_bind; [done|by intros].
Qed.

Lemma keeps_clock_process fuel : keeps clock_of (processTraces fuel).
Proof.
  induction fuel as [|fuel IH]; cbn [processTraces];
    (apply keeps_bind; [apply keeps_clock_storage; unfold removeRawTraceHeader; keeps_tac|]);
    (intros [r|]; [|done]); (apply keeps_bind; [|intros; done]);
    unfold processRecord, first_instructions;
    (apply keeps_bind; [apply keeps_zoom; done|]); (intros [l|]; [|apply keeps_undef]);
    (apply keeps_bind; [keeps_tac|]); intros instrs;
    (apply keeps_bind; [apply keeps_clock_frames|]); intros fs;
    apply keeps_clock_storage; unfold addProcessedTrace; keeps_tac.
Qed.

(** ** The processed form of a sample *)

Lemma append_samples_keeps l m k xs x :
  m !! k = Some xs -> x ∈ xs ->
  exists ys, append_samples l m !! k = Some ys /\ x ∈ ys.
Proof.
  revert m xs. induction l as [|[r p] l IH]; intros m xs Hk Hx; simpl; [eauto|].
  destruct (decide (raw_coroutine_id r = k)) as [<-|Hne].
  - eapply IH; [apply lookup_insert_eq|]. rewrite Hk. simpl. apply elem_of_app. by left.
  - eapply IH; [|exact Hx]. unfold append_at. by rewrite lookup_insert_ne.
Qed.

Lemma append_samples_elem l m r p :
  (r, p) ∈ l -> exists ys, append_samples l m !! raw_coroutine_id r = Some ys /\ p ∈ ys.
Proof.
  revert m. induction l as [|rp l IH]; intros m Hin; [by apply not_elem_of_nil in Hin|].
  apply elem_of_cons in Hin as [<-|Hin]; [|by apply IH]. simpl.
  eapply append_samples_keeps; [apply lookup_insert_eq|]. apply elem_of_app. right. by left.
Qed.

Lemma processed_elem raws ps r :
  Forall2 processed_of raws ps -> r ∈ raws ->
  exists p, (r, p) ∈ zip raws ps /\ processed_of r p.
Proof.
  induction 1 as [|r0 p0 raws ps Hp _ IH]; intros Hr; [by apply not_elem_of_nil in Hr|].
  apply elem_of_cons in Hr as [->|Hr]; [exists p0; split; [by left|done]|].
  destruct (IH Hr) as (p & Hin & Hpr). exists p. split; [by right|done].
Qed.

(** The names of the frames of a stored sample are known. *)
Lemma stored_sample_known s id ys p :
  prof_wf s -> a_traces (abs (storage_ s)) !! id = Some ys -> p ∈ ys -> sample_known s p.
Proof.
  intros Hwf Hys Hp. simpl in Hys. rewrite lookup_resolve in Hys.
  destruct (CM.map_ (processed_map_ (storage_ s)) !! id) as [[l|]|]; simpl in Hys; try done.
  destruct (cells (traces_heap (storage_ s)) !! l) as [c|] eqn:Hc; simplify_eq/=.
  pose proof (pw_samples s Hwf l c Hc) as Hk. rewrite list.Forall_forall in Hk. auto.
Qed.

Lemma info_stored s id p :
  prof_wf s -> CM.map_ (coroutine_info_map_ (storage_ s)) !! id = Some p ->
  is_Some (v_info (view (storage_ s)) id).
Proof.
  intros Hwf Hp. destruct (owns_lookup _ _ _ _ (wf_infos _ (pw_storage _ Hwf)) Hp)
    as (l & i & -> & Hi). simpl. unfold info_of. rewrite Hp. simpl. by exists i.
Qed.

(** What a processed sample looks like on the plot. *)
Lemma sample_shown s ti r p id ys :
  prof_wf s -> a_traces (abs (storage_ s)) !! id = Some ys -> p ∈ ys -> processed_of r p ->
  sampled_frames r <> [] -> ti_start ti <= raw_time r <= ti_end ti ->
  Shown "Stack trace" (u64 (raw_time r)) None (frame_text <$> sampled_frames r)
    ∈ recorded_of (deref_of s) (view (storage_ s)) ti id.
Proof.
  intros Hwf Hys Hp [Ht Hst] Hne Hwin. unfold recorded_of. apply elem_of_app. left.
  cbn [view v_samples]. rewrite Hys. simpl. apply list_elem_of_bind. exists p. split; [|done].
  assert (Hf : has_frames p = true)
    by (unfold has_frames; rewrite Hst; by destruct (sampled_frames r)).
  rewrite Hf. apply list_elem_of_singleton. unfold shown_sample, in_window. rewrite Ht.
  rewrite !(proj2 (Z.leb_le _ _)) by lia. simpl. f_equal.
  pose proof (stored_sample_known s id ys p Hwf Hys Hp) as Hk. unfold sample_known in Hk.
  unfold stack_names. rewrite Hst in *. symmetry.
  apply frames_read; [|exact Hk]. intros i. by apply frame_reads.
Qed.

(** ** From the raw sample to the file *)

Lemma run_processTraces s fuel r :
  prof_wf s -> Forall (raw_ok s) (a_raw (abs (storage_ s))) ->
  r ∈ a_raw (abs (storage_ s)) -> (length (a_raw (abs (storage_ s))) <= fuel)%nat ->
  exists s1 ys q, run (processTraces fuel) s = Val true s1 /\ prof_wf s1 /\ grows s s1 /\
    clock (storage_ s1) = clock (storage_ s) /\
    a_ongoing (abs (storage_ s1)) = a_ongoing (abs (storage_ s)) /\
    a_traces (abs (storage_ s1)) !! raw_coroutine_id r = Some ys /\ q ∈ ys /\ processed_of r q.
Proof.
  intros Hwf Hraw Hr Hf. pose proof (process_all fuel s _ Hwf eq_refl Hraw Hf) as Hs.
  apply (wp_keeps clock_of _ _ _ (keeps_clock_process fuel)) in Hs.
  apply wp_elim in Hs as (b & s1 & Hrun & (Hwf1 & Hg & -> & _ & Ho & ps & Hps & Htr) & Hc).
  destruct (processed_elem _ _ _ Hps Hr) as (q & Hin & Hq).
  destruct (append_samples_elem _ (a_traces (abs (storage_ s))) _ _ Hin) as (ys & Hys & Hqs).
  exists s1, ys, q. rewrite Htr. by split_and!.
Qed.

(** C9: a sample reaches the file.  Take a trace in progress whose coroutine is
    stored, and a raw sample of that coroutine, with at least one frame, taken
    since the trace began.  When the profiler thread processes the raw samples
    and the trace then ends, both return; the trace ends at the last reading of
    the clock, which is after the sample; and if it took longer than the
    threshold, one file is written, in which the sample is shown at the time it
    was taken, with the frames of the interrupted stack from the innermost
    outwards, each under the name JVMTI gives to its class and method or the
    symbolizer to its library and function. *)
Theorem sample_in_file s self id r t0 e fuel :
  prof_wf s -> is_Some (registered (jvm_ s) self) -> id <> -2 ->
  is_Some (CM.map_ (coroutine_info_map_ (storage_ s)) !! id) ->
  a_ongoing (abs (storage_ s)) !! id = Some (MkTraceInfo id t0 e) ->
  Forall (raw_ok s) (a_raw (abs (storage_ s))) ->
  (length (a_raw (abs (storage_ s))) <= fuel)%nat ->
  r ∈ a_raw (abs (storage_ s)) -> raw_coroutine_id r = id -> sampled_frames r <> [] ->
  t0 <= raw_time r <= steady (readings (clock (storage_ s))) ->
  exists n, forall fuel', (n <= fuel')%nat ->
    wp (processTraces fuel;; traceEnd opts fuel' self id) s (fun b s' => b = true /\
      let t1 := last_reading s' in raw_time r <= t1 /\
        if t1 - t0 >? threshold_ opts then
          exists path t, files s' = files s ++ [(path, t)] /\
            Shown "Stack trace" (raw_time r) None (frame_text <$> sampled_frames r) ∈ shown_on t
        else files s' = files s).
Proof.
  intros Hwf Hreg Hid [p Hp] Hon Hraw Hfuel Hr <- Hne Htime. set (id := raw_coroutine_id r) in *.
  destruct (run_processTraces s fuel r Hwf Hraw Hr Hfuel)
    as (s1 & ys & q & Hrun & Hwf1 & Hg & Hck & Ho1 & Hys & Hq & Hpr). fold id in Hys.
  destruct (wp_traceEnd opts s1 self id Hwf1 (gr_registered _ _ Hg _ Hreg)) as [n Hn].
  exists n. intros fuel' Hf. apply wp_bind. eapply wp_run; [exact Hrun|].
  eapply wp_mono; [|by apply Hn]. intros b s' (-> & Hwf' & x & Hfin & Hfiles). split; [done|].
  unfold finished, trace_key in Hfin. rewrite (proj2 (Z.eqb_neq _ _) Hid) in Hfin.
  destruct Hfin as (Htr & Him & Hfin). pose proof (gr_info_map _ _ Hg _ _ Hp) as Hp1.
  rewrite Hp1, Ho1, Hon in Hfin.
  cbn [from_option Datatypes.id ti_coroutine_id ti_start] in Hfin.
  destruct Hfin as (t1 & Ht1 & -> & Hle & _ & Hx). rewrite Hck in Hle. cbv zeta. split; [lia|].
  set (t1 := last_reading s') in *.
  rewrite (gr_files _ _ Hg) in Hfiles.
  destruct (t1 - t0 >? threshold_ opts); destruct Hx as [-> _]; [|exact Hfiles].
  destruct Hfiles as (st & n' & Hst & Hfs). eexists _, _. split; [exact Hfs|].
  rewrite <- Htr in Hys. apply (plot_content _ _ _ _ _ _ Hst); [done|]. right.
  exists id. split; [done|]. split; [eapply (info_stored s'), Him; [done|exact Hp1]|].
  pose proof (pw_ongoing s Hwf _ _ Hon) as Ht0. unfold time_range in *. simpl in Ht0.
  replace (raw_time r) with (u64 (raw_time r)) at 1 by (apply wrapu_small; unfold in_u; lia).
  eapply sample_shown; eauto; simpl; lia.
Qed.
End end_to_end.

(** ** Example: coroutine 1 is traced from 2000001 on and sampled at 2500000 *)

Section example.
Local Existing Instance tick_clock.
Local Existing Instance demo_env.
Local Existing Instance demo_usage.

Definition demo_started : Profiler := after (traceStart 7 1) demo_created.
Definition demo_sample_at : RawCallTraceRecord :=
  MkRaw 2500000 1 (raw_trace demo_raw) 7 1.
Definition demo_running : Profiler :=
  after (zoom storage_L (addRawTrace 2500000 (raw_trace demo_raw) 1)) demo_started.

Lemma demo_started_wf : prof_wf demo_started.
Proof.
  eapply safe_result; [apply (safe_traceStart demo_created 7 1)|vm_compute; reflexivity].
  - apply demo_created_wf.
  - vm_compute. by eexists.
  - vm_compute. reflexivity.
Qed.

Lemma demo_running_wf : prof_wf demo_running.
Proof.
  eapply safe_result;
    [apply (safe_exec demo_started (OpAddRaw 2500000 (raw_trace demo_raw) 1)); try done|].
  - apply demo_started_wf.
  - vm_compute. reflexivity.
Qed.

Lemma demo_running_raw : a_raw (abs (storage_ demo_running)) = [demo_sample_at].
Proof. vm_compute. reflexivity. Qed.
End example.

Lemma sample_in_file_witness :
  frame_text (E:=demo_env) (MkInstruction 9 0 true) = "LC:m()V" /\
  exists n, forall fuel', (n <= fuel')%nat ->
    wp (processTraces (E:=demo_env) 1;;
        traceEnd (CK:=tick_clock) (E:=demo_env) demo_opts fuel' 7 1) demo_running
      (fun b s' => b = true /\ let t1 := last_reading (CK:=tick_clock) s' in 2500000 <= t1 /\
        if t1 - 2000001 >? threshold_ demo_opts then
          exists path t, files s' = files demo_running ++ [(path, t)] /\
            Shown "Stack trace" 2500000 None
              (frame_text (E:=demo_env) <$> sampled_frames demo_sample_at) ∈ shown_on t
        else files s' = files demo_running).
Proof.
  split; [reflexivity|].
  apply (sample_in_file (CK:=tick_clock) (E:=demo_env) (UL:=demo_usage) demo_opts demo_running
           7 1 demo_sample_at 2000001 0 1).
  - exact demo_running_wf.
  - vm_compute. by eexists.
  - done.
  - vm_compute. by eexists.
  - vm_compute. reflexivity.
  - rewrite demo_running_raw. constructor; [|constructor]. split; [vm_compute; by eexists|].
    split; [simpl; lia|]. constructor; [|constructor]. intros _ _. apply demo_answered.
  - rewrite demo_running_raw. simpl. lia.
  - rewrite demo_running_raw. by left.
  - reflexivity.
  - done.
  - vm_compute. split; discriminate.
Defined.
