(* ===== verification/ProfilerTurn.v ===== *)
(** * The profiler thread (profiler.cpp, [startProfiler], [signal_action])

    The loop of the profiler thread as a program: it takes the registered
    threads, samples those that run a traced call, stores the samples, processes
    them, and sleeps for what is left of the interval.  The signal handler of a
    thread is one action of it here: that handler and profiler thread exchange
    the trace without touching it at the same time is the component
    [Sampling]. *)

From S2P Require Import Prelude Memory ConcurrentList ConcurrentMap TraceTime TraceModel.
From S2P Require Import TraceStorage StorageSafety StorageSpec Jvm Unwind Sampling SamplingInv.
From S2P Require Import SamplingLive UnwindSpec Profiler ProfilerSafety ProfilerHandlers ProfilerTheorems.
From S2P Require Import SampledTraces SampleToFile.
From Stdlib Require Import ZArith Lia.
From stdpp Require Import base gmap list strings numbers.
Local Open Scope Z_scope.
Local Open Scope kt_scope.

(** What the system gives: the memory of the process at the [n]-th reading of
    the clock, and the context in which a signal interrupts a thread. *)
Class Signals `{LU : !Libunwind} := {
  memory_at : nat -> mem;
  interrupted : nat -> ThreadInfo -> context;
}.

Section turn.
Context `{CK : !SteadyClock} `{E : !Environment} `{CC : !CodeCacheAPI} `{LU : !Libunwind} `{SG : !Signals}.
Context (opts : settings).

(** The handler unwinds the stack of the thread it interrupts into the new
    trace. *)
Definition unwind_thread (n : nat) (th : ThreadInfo) : res AsyncTrace unit :=
  run (unwind_stack (memory_at n) (interrupted n th) (th_stack_lo th) (th_stack_hi th)) (new_trace th).

(** The handler runs in the thread it interrupts, so it reads that thread's
    [current_coroutine_id]; it leaves the new trace alone when the profiler is
    not active. *)
Definition fill_trace (th : ThreadInfo) : prog Profiler AsyncTrace :=
  act (fun s =>
    match unwind_thread (readings (clock (storage_ s))) th with
    | Val _ trace =>
        let current := current_coroutine_id (get_locals (th_id th) s) in
        let coroutine_id := if current =? -1 then hash_pthread (thread_id trace) else current in
        Val (set_ready (set_at_coroutine coroutine_id trace)) s
    | Exc e _ => Exc e s
    | Undef what => Undef what
    end).

Definition signal_action (th : ThreadInfo) : prog Profiler AsyncTrace :=
  active ← reads prof_active;
  if (active : bool) then fill_trace th else mret (new_trace th).

(** [trace->ready.wait(false)]: nobody but the handler sets the flag. *)
Definition wait_ready (trace : AsyncTrace) : prog Profiler unit :=
  if ready trace then mret tt else wait_for_ever.

Definition sample_thread (thread : nat) : prog Profiler unit :=
  th ← zoom jvm_L (zoom thread_heap_L (hread (Some thread) (fun th => th)));
  if current_traces th >? 0 then
    trace ← signal_action th;
    wait_ready trace;;
    let coroutine_id := at_coroutine_id trace in
    t ← zoom storage_L now;
    zoom storage_L (addRawTrace t trace coroutine_id)
  else mret tt.

(** The time the thread sleeps for. *)
Definition sleep_time (start finish : TraceTime) : prog Profiler Z :=
  elapsed_time ← tt_minus finish start;
  sleep_time ← signed 64 (interval_ opts - tt_get elapsed_time);
  mret (if sleep_time >? 0 then sleep_time else 0).

(** Whether the samples were processed within the fuel, and the sleep. *)
Definition profiler_turn (fuel : nat) : prog Profiler (bool * Z) :=
  threads ← zoom jvm_L getThreads;
  start ← zoom storage_L now;
  for_each threads sample_thread;;
  processed ← processTraces fuel;
  finish ← zoom storage_L now;
  sleep ← sleep_time start finish;
  mret (processed, sleep).

(** The thread's loop; [true] means that it has ended because the profiler was
    stopped. *)
Fixpoint profiler_loop (turns fuel : nat) : prog Profiler bool :=
  match turns with
  | O => mret false
  | S turns =>
      active ← reads prof_active;
      if (active : bool) then profiler_turn fuel;; profiler_loop turns fuel else mret true
  end.

(** ** What a turn does *)

(** The threads of a list that run a traced call. *)
Definition running_of (j : JVM) (ls : list nat) : list ThreadInfo :=
  filter (fun th => (current_traces th >? 0) = true) (omap (fun l => cells (thread_heap j) !! l) ls).
Definition running (s : Profiler) : list ThreadInfo := running_of (jvm_ s) (CL.list_ (threads_ (jvm_ s))).

(** The coroutine under which a thread is sampled. *)
Definition sampled_key (s : Profiler) (th : ThreadInfo) : Z :=
  let c := get_coroutine_of (th_id th) s in if c =? -1 then hash_pthread (th_id th) else c.

(** A sample of a thread: the stack that was unwound, and the time. *)
Definition sample_of (s : Profiler) (th : ThreadInfo) (t : Z) (a : AsyncTrace) : RawCallTraceRecord :=
  MkRaw t (at_size a) (set_ready (set_at_coroutine (sampled_key s th) a)) (th_id th) (sampled_key s th).
Definition sampled_between (s : Profiler) (lo hi : Z) (th : ThreadInfo) (r : RawCallTraceRecord) : Prop :=
  exists n t a, lo <= t <= hi /\ unwind_thread n th = Val tt a /\ r = sample_of s th t a.

(** The handler returns, whenever it interrupts the thread: see [UnwindSpec]. *)
Definition unwinds (th : ThreadInfo) : Prop := forall n, exists a, unwind_thread n th = Val tt a.

Section proofs.
Context `{UL : !UsageLaws}.
Implicit Types s : Profiler.

Lemma unwound_thread n th a : unwind_thread n th = Val tt a -> thread_id a = th_id th.
Proof.
  intros Hrun. unfold unwind_thread in Hrun.
  pose proof (wp_keeps header _ _ (fun _ b => b = a) (unwind_stack_header (memory_at n) (interrupted n th) _ _)
    (wp_run _ _ _ _ _ Hrun eq_refl)) as H.
  unfold wp in H. rewrite Hrun in H. destruct H as [_ H]. unfold header in H. simplify_eq/=. congruence.
Qed.

(** What the handler leaves in the trace is what [Sampling] calls complete. *)
Lemma sample_complete s n th a :
  unwind_thread n th = Val tt a ->
  complete_trace (unwind_stack (memory_at n)) hash_pthread (th_id th)
    (set_ready (set_at_coroutine (sampled_key s th) a)).
Proof.
  intros Ha. exists (set_at_coroutine (sampled_key s th) a). split; [|done].
  exists a, (get_coroutine_of (th_id th) s). split; [|by rewrite (unwound_thread _ _ _ Ha)].
  by exists th, (interrupted n th).
Qed.

Lemma wp_fill s th (Q : AsyncTrace -> Profiler -> Prop) :
  unwinds th ->
  (forall n a, unwind_thread n th = Val tt a -> Q (set_ready (set_at_coroutine (sampled_key s th) a)) s) ->
  wp (fill_trace th) s Q.
Proof.
  intros Hu HQ. destruct (Hu (readings (clock (storage_ s)))) as [a Ha].
  eapply wp_act; [rewrite Ha; reflexivity|]. cbv zeta. rewrite (unwound_thread _ _ _ Ha). by eapply HQ.
Qed.

Lemma wp_signal s th (Q : AsyncTrace -> Profiler -> Prop) :
  prof_active s = true -> unwinds th ->
  (forall n a, unwind_thread n th = Val tt a -> Q (set_ready (set_at_coroutine (sampled_key s th) a)) s) ->
  wp (signal_action th) s Q.
Proof.
  intros Hact Hu HQ. apply wp_bind, wp_reads. rewrite Hact. by apply wp_fill.
Qed.

Lemma registered_of s l th :
  l ∈ CL.list_ (threads_ (jvm_ s)) -> cells (thread_heap (jvm_ s)) !! l = Some th ->
  is_Some (registered (jvm_ s) (th_id th)).
Proof.
  intros Hl Hth. apply registered_elem, list_elem_of_fmap. exists th. split; [done|].
  apply list_elem_of_omap. by exists l.
Qed.

Lemma sample_raw_ok s s' l th n t a :
  ids_answered -> unwind_thread n th = Val tt a -> l ∈ CL.list_ (threads_ (jvm_ s')) ->
  cells (thread_heap (jvm_ s')) !! l = Some th -> raw_ok s' (sample_of s th t a).
Proof.
  intros Hids Ha Hl Hth. pose proof (unwound_thread _ _ _ Ha) as Hid.
  pose proof (complete_raw_ok (memory_at n) hash_pthread (th_id th)
    (set_ready (set_at_coroutine (sampled_key s th) a)) s' t (sampled_key s th) Hids (sample_complete s n th a Ha)) as H.
  cbn [thread_id set_ready set_at_coroutine] in H. rewrite Hid in H. apply H. by eapply registered_of.
Qed.

(** What sampling the threads [ls] does. *)
Definition sampled_all (ls : list nat) s s' : Prop :=
  (jvm_ s' = jvm_ s /\ locals_ s' = locals_ s) /\ time_now s <= time_now s' /\
  a_traces (abs (storage_ s')) = a_traces (abs (storage_ s)) /\
  exists raws, a_raw (abs (storage_ s')) = a_raw (abs (storage_ s)) ++ raws /\
    Forall2 (sampled_between s (time_now s) (time_now s')) (running_of (jvm_ s) ls) raws.

Lemma sampled_key_locals s s' : locals_ s' = locals_ s -> sampled_key s' = sampled_key s.
Proof. intros H. unfold sampled_key, get_coroutine_of, get_locals. by rewrite H. Qed.

Lemma sampled_between_weaken s s' lo lo' hi hi' th r :
  locals_ s' = locals_ s -> lo' <= lo -> hi <= hi' -> sampled_between s lo hi th r -> sampled_between s' lo' hi' th r.
Proof.
  intros Hl H1 H2 (n & t & a & Ht & Ha & ->). exists n, t, a. split; [lia|]. split; [done|].
  unfold sample_of. by rewrite (sampled_key_locals _ _ Hl).
Qed.

Lemma running_of_app j ls ls' : running_of j (ls ++ ls') = running_of j ls ++ running_of j ls'.
Proof. unfold running_of. by rewrite omap_app, list.filter_app. Qed.

Lemma sampled_all_app ls ls' s s1 s2 :
  sampled_all ls s s1 -> sampled_all ls' s1 s2 -> sampled_all (ls ++ ls') s s2.
Proof.
  intros ([Hj Hl] & Ht & Htr & raws & Hr & Hs) ([Hj' Hl'] & Ht' & Htr' & raws' & Hr' & Hs').
  split; [split; congruence|]. split; [lia|]. split; [congruence|]. exists (raws ++ raws').
  split; [by rewrite Hr', Hr, (assoc_L (++))|]. rewrite running_of_app. rewrite Hj in Hs'. apply Forall2_app.
  - eapply Forall2_impl; [|exact Hs]. intros th r. by apply sampled_between_weaken; [|lia..].
  - eapply Forall2_impl; [|exact Hs']. intros th r. by apply sampled_between_weaken; [|lia..].
Qed.

(** Reading the clock. *)
Lemma safe_reading s :
  prof_wf s -> safe (zoom storage_L now) s (fun t s' => t = time_now s /\ (time_now s <= time_now s' /\ last_reading s' = time_now s) /\
    (jvm_ s' = jvm_ s /\ locals_ s' = locals_ s) /\ abs (storage_ s') = abs (storage_ s)).
Proof.
  intros Hwf. eapply safe_mono; [|apply (safe_keeps locals_), (safe_keeps jvm_ _ s (fun t s' => t = time_now s /\
    storage_ s' = lset clock_L (ClockState (S (readings (clock (storage_ s))))) (storage_ s)));
    [by apply keeps_zoom|by apply keeps_zoom|by apply safe_now]].
  intros t s1 _ _ (Hl & Hj & -> & Hs1). split; [done|]. split; [|split; [done|by rewrite Hs1]].
  unfold time_now, last_reading, clock_of. rewrite Hs1. split; [apply steady_mono; simpl; lia|done].
Qed.

Lemma running_of_one j l th :
  cells (thread_heap j) !! l = Some th -> running_of j [l] = if current_traces th >? 0 then [th] else [].
Proof.
  intros Hl. unfold running_of. simpl. rewrite Hl. simpl. destruct (current_traces th >? 0) eqn:Hc.
  - by rewrite filter_cons_True.
  - by rewrite filter_cons_False by congruence.
Qed.

Lemma sampled_none s : sampled_all [] s s.
Proof. split; [done|]. split; [lia|]. split; [done|]. exists []. by rewrite (right_id_L [] (++)). Qed.

(** The sample is stored. *)
Lemma safe_store s th n a lo :
  prof_wf s -> lo <= time_now s -> unwind_thread n th = Val tt a ->
  safe (zoom storage_L (addRawTrace lo (set_ready (set_at_coroutine (sampled_key s th) a)) (sampled_key s th))) s
    (fun _ s' => (jvm_ s' = jvm_ s /\ locals_ s' = locals_ s) /\ time_now s' = time_now s /\
       a_traces (abs (storage_ s')) = a_traces (abs (storage_ s)) /\
       a_raw (abs (storage_ s')) = a_raw (abs (storage_ s)) ++ [sample_of s th lo a]).
Proof.
  intros Hwf Hlo Ha. eapply safe_mono; [|apply (safe_keeps clock_of), (safe_keeps locals_), (safe_keeps jvm_);
    [apply keeps_clock_storage; unfold addRawTrace; keeps_tac|by apply keeps_zoom|by apply keeps_zoom|];
    by apply (safe_exec s (OpAddRaw lo _ _))].
  cbv beta. intros [] s2 _ _ (Hc2 & Hl2 & Hj2 & Hab). split; [done|].
  split; [by unfold time_now; rewrite Hc2|]. rewrite Hab.
  destruct (abs (storage_ s)) as [raw tr trm on ch chm]; simpl. split; [done|].
  unfold sample_of, tt_get. by rewrite (unwound_thread _ _ _ Ha).
Qed.

Lemma safe_sample s l th :
  prof_wf s -> prof_active s = true -> cells (thread_heap (jvm_ s)) !! l = Some th ->
  (forall u, u ∈ running_of (jvm_ s) [l] -> unwinds u) ->
  safe (sample_thread l) s (fun _ s' => sampled_all [l] s s').
Proof.
  intros Hwf Hact Hl Hu. unfold sample_thread. apply safe_bind, safe_pure; [done|].
  apply wp_zoom, wp_zoom. eapply wp_hread; [exact Hl|]. rewrite !lset_lget. split; [done|]. intros _ _.
  destruct (current_traces th >? 0) eqn:Hc.
  - apply safe_bind, safe_pure; [done|]. apply wp_signal; [done|..].
    { apply Hu. rewrite (running_of_one _ _ _ Hl), Hc. by left. }
    intros n a Ha. split; [done|]. intros _ _.
    apply safe_bind, safe_ret; [done|]. intros _ _. cbv zeta.
    apply safe_bind. eapply safe_mono; [|by apply safe_reading].
    intros t s1 Hwf1 _ (-> & [Ht1 _] & [Hj1 Hl1] & Hab) _ _. cbn [at_coroutine_id set_ready set_at_coroutine].
    rewrite <- (sampled_key_locals _ _ Hl1).
    eapply safe_mono; [|by apply (safe_store s1 th n a (time_now s))].
    intros [] s2 _ _ ([Hj2 Hl2] & Ht2 & Htr & Hr). split; [split; congruence|]. split; [lia|].
    rewrite Htr, Hr, Hab. split; [done|]. eexists. split; [done|]. rewrite (running_of_one _ _ _ Hl), Hc.
    constructor; [|constructor]. exists n, (time_now s), a. split; [lia|]. split; [done|].
    unfold sample_of. by rewrite (sampled_key_locals _ _ Hl1).
  - apply safe_ret; [done|]. split; [done|]. split; [lia|]. split; [done|]. exists [].
    rewrite (right_id_L [] (++)), (running_of_one _ _ _ Hl), Hc. by split.
Qed.

Lemma safe_sample_each ls s :
  prof_wf s -> prof_active s = true -> Forall (valid (thread_heap (jvm_ s))) ls ->
  (forall th, th ∈ running_of (jvm_ s) ls -> unwinds th) ->
  safe (for_each ls sample_thread) s (fun _ s' => sampled_all ls s s').
Proof.
  revert s. induction ls as [|l ls IH]; intros s Hwf Hact Hv Hu; cbn [for_each].
  - apply safe_ret; [done|]. apply sampled_none.
  - apply Forall_cons_1 in Hv as [[th Hl] Hv].
    change (l :: ls) with ([l] ++ ls) in Hu |- *. rewrite running_of_app in Hu.
    apply safe_bind. eapply safe_mono; [|eapply safe_sample; [done|done|exact Hl|set_solver]].
    intros [] s1 Hwf1 Hg1 H1 _ _. eapply safe_mono; [|apply IH; [done|by rewrite (gr_active _ _ Hg1)|..]].
    + intros [] s2 _ _ H2. by eapply sampled_all_app.
    + destruct H1 as [[-> _] _]. exact Hv.
    + destruct H1 as [[-> _] _]. set_solver.
Qed.

(** Every sample of a turn can be processed. *)
Lemma sampled_raw_ok s0 s ls lo hi raws :
  ids_answered -> (forall l, l ∈ ls -> l ∈ CL.list_ (threads_ (jvm_ s))) ->
  Forall2 (sampled_between s0 lo hi) (running_of (jvm_ s) ls) raws -> Forall (raw_ok s) raws.
Proof.
  intros Hids Hls Hs. apply list.Forall_forall. intros r [i Hr]%list_elem_of_lookup.
  destruct (Forall2_lookup_r _ _ _ _ _ Hs Hr) as (th & Hth & n & t & a & _ & Ha & ->).
  apply list_elem_of_lookup_2 in Hth. apply list_elem_of_filter in Hth as [_ Hin].
  apply list_elem_of_omap in Hin as (l & Hl & Hth'). eapply sample_raw_ok; [exact Hids|exact Ha|by apply Hls|exact Hth'].
Qed.

(** The pause fills the interval. *)
Lemma wp_sleep_time start finish s (Q : Z -> Profiler -> Prop) :
  0 <= interval_ opts < 2 ^ 63 -> time_range start -> time_range finish -> start <= finish ->
  Q (Z.max 0 (start + interval_ opts - finish)) s -> wp (sleep_time start finish) s Q.
Proof.
  unfold time_range. intros Hi H1 H2 Hle HQ. unfold sleep_time.
  apply wp_bind. eapply wp_run; [apply run_tt_minus; unfold in_s; lia|].
  apply wp_bind, wp_signed; [unfold in_s, tt_get; lia|]. apply wp_ret. unfold tt_get.
  destruct (_ >? 0) eqn:Hc.
  - by replace (interval_ opts - (finish - start)) with (Z.max 0 (start + interval_ opts - finish)) by lia.
  - by replace 0 with (Z.max 0 (start + interval_ opts - finish)) by lia.
Qed.

(** C8: one turn of the profiler thread.  From a well-formed profiler that is
    active, when the signal handler returns in each thread that runs a traced
    call and JVMTI knows the methods of the code cache, a turn returns, with
    every raw sample processed: those that waited, and exactly one of each such
    thread, in the order of the registry, with the stack that was unwound and a
    time within the turn.  The processed samples are stored after the ones that
    were there, those of this turn under the coroutine that their thread runs, or
    under the thread's own key.  The thread then sleeps for what is left of the
    interval between the reading of the clock at the beginning of the turn and
    the one after the processing, and not at all if nothing is left. *)
Theorem profiler_turn_samples s fuel :
  prof_wf s -> prof_active s = true -> Forall (raw_ok s) (a_raw (abs (storage_ s))) -> ids_answered ->
  (forall th, th ∈ running s -> unwinds th) -> 0 <= interval_ opts < 2 ^ 63 ->
  (length (a_raw (abs (storage_ s))) + length (running s) <= fuel)%nat ->
  wp (profiler_turn fuel) s (fun r s' => r.1 = true /\ prof_wf s' /\ a_raw (abs (storage_ s')) = [] /\
    let start := time_now s in let finish := last_reading s' in
    start <= finish /\ r.2 = Z.max 0 (start + interval_ opts - finish) /\
    exists raws ps,
      Forall2 (sampled_between s start finish) (running s) raws /\
      Forall2 processed_of (a_raw (abs (storage_ s)) ++ raws) ps /\
      a_traces (abs (storage_ s')) =
        append_samples (zip (a_raw (abs (storage_ s)) ++ raws) ps) (a_traces (abs (storage_ s)))).
Proof.
  intros Hwf Hact Hraw Hids Hu Hi Hfuel. set (raws0 := a_raw (abs (storage_ s))) in *.
  set (ls := CL.list_ (threads_ (jvm_ s))). change (running s) with (running_of (jvm_ s) ls) in *.
  apply (wp_mono (profiler_turn fuel) s (fun r s' => prof_wf s' /\ grows s s' /\
    (r.1 = true /\ a_raw (abs (storage_ s')) = [] /\
     time_now s <= last_reading s' /\ r.2 = Z.max 0 (time_now s + interval_ opts - last_reading s') /\
     exists raws ps,
       Forall2 (sampled_between s (time_now s) (last_reading s')) (running_of (jvm_ s) ls) raws /\
       Forall2 processed_of (raws0 ++ raws) ps /\
       a_traces (abs (storage_ s')) = append_samples (zip (raws0 ++ raws) ps) (a_traces (abs (storage_ s)))))).
  { intros r s' (H1 & _ & H2 & H3 & H4). cbv zeta. tauto. }
  unfold profiler_turn. apply safe_bind, safe_pure; [done|].
  apply wp_zoom, wp_zoom, wp_reads. rewrite !lset_lget. split; [done|]. intros _ _. cbn [lget jvm_L threads_L].
  apply safe_bind. eapply safe_mono; [|by apply safe_reading].
  intros t s1 Hwf1 Hg1 (-> & [Ht1 _] & [Hj1 Hl1] & Hab) _ _.
  apply safe_bind. eapply safe_mono; [|apply (safe_sample_each ls);
    [done|by rewrite (gr_active _ _ Hg1)| |rewrite Hj1; exact Hu]].
  2: { rewrite Hj1. apply (wf_threads _ (pw_jvm s Hwf)). }
  intros [] s2 Hwf2 Hg2 ([Hj2 Hl2] & Ht2 & Htr2 & raws & Hr2 & Hs2) _ _. rewrite Hj1 in Hs2. rewrite Hab in Hr2, Htr2.
  assert (Hok : Forall (raw_ok s2) (a_raw (abs (storage_ s2)))).
  { rewrite Hr2. apply Forall_app. split.
    - eapply list.Forall_impl; [exact Hraw|]. intros r. apply raw_ok_grows. by etrans.
    - rewrite <- Hj1, <- Hj2 in Hs2. eapply (sampled_raw_ok s1 s2 ls); [done|by rewrite Hj2, Hj1|exact Hs2]. }
  apply safe_bind. eapply safe_mono; [|apply (safe_keeps clock_of); [apply keeps_clock_process|];
    apply (process_all fuel s2 _ Hwf2 eq_refl Hok)].
  2: { rewrite Hr2, length_app, <- (Forall2_length Hs2). exact Hfuel. }
  intros b s3 Hwf3 Hg3 (Hc3 & -> & Hr3 & _ & ps & Hps & Htr3) _ _.
  apply safe_bind. eapply safe_mono; [|by apply safe_reading].
  intros t s4 Hwf4 Hg4 (-> & [_ Hlast] & _ & Hab4) _ _.
  assert (Ht3 : time_now s3 = time_now s2) by (unfold time_now; by rewrite Hc3).
  apply safe_bind, safe_pure; [done|]. apply wp_sleep_time; [done|apply steady_time..|lia|].
  split; [done|]. intros _ _. apply safe_ret; [done|]. cbn [fst snd].
  rewrite Hlast, Hab4. split; [done|]. split; [done|]. split; [lia|]. split; [done|]. exists raws, ps.
  rewrite Htr3, Hr2, Htr2. rewrite Hr2 in Hps. split; [|done].
  eapply Forall2_impl; [|exact Hs2]. intros th r. by apply sampled_between_weaken; [|lia..].
Qed.
End proofs.
End turn.

(** ** Example: the main thread runs a traced call *)

Section example.
Local Existing Instance demo_cache.
Local Existing Instance demo_unwind.
Local Existing Instance tick_clock.
Local Existing Instance demo_env.
Local Existing Instance demo_usage.

(** A thread with the stack [demo_stack], of either of two sizes, is interrupted
    there; any other in code that has no frame on its stack. *)
Definition on_demo_stack (th : ThreadInfo) : bool :=
  (th_stack_lo th =? 4096) && ((th_stack_hi th =? 4176) || (th_stack_hi th =? 12288)).

#[export] Instance demo_signals : Signals | 100 := {|
  memory_at n := demo_stack;
  interrupted n th := LinuxAArch64 (if on_demo_stack th then demo_context else MkUcontext 1024 (th_stack_hi th) 1280);
|}.

Lemma demo_signals_return th : unwinds th.
Proof.
  intros n. unfold unwind_thread, interrupted, demo_signals. destruct (on_demo_stack th) eqn:Hs.
  - destruct th as [name id k lo hi]. unfold on_demo_stack in Hs; simpl in Hs.
    apply andb_true_iff in Hs as [->%Z.eqb_eq [->%Z.eqb_eq| ->%Z.eqb_eq]%orb_true_iff];
      eexists; vm_compute; reflexivity.
  - assert (Hp : is_pointer_in_stack (th_stack_hi th) (th_stack_lo th) (th_stack_hi th) = false)
      by (unfold is_pointer_in_stack; lia).
    cbn [unwind_stack]. unfold unwind_stack_linux_aarch64, unwind_aarch64. cbn [uc_fp uc_pc]. rewrite Hp.
    by eexists.
Qed.

(** The profiler after [startProfiler]. *)
Definition sampled_profiler : Profiler := lset prof_active_L true (make_profiler sampled_jvm).

Lemma sampled_profiler_wf : prof_wf sampled_profiler.
Proof. destruct (make_profiler_wf sampled_jvm sampled_jvm_wf). by split. Qed.

Lemma demo_unwinds n : unwind_thread n demo_thread = Val tt demo_filled.
Proof. unfold unwind_thread. vm_compute. reflexivity. Qed.

Lemma val_state {S A} (a b : A) (s t : S) : Val a s = Val b t -> s = t.
Proof. by intros [=]. Qed.

Lemma profiler_turn_samples_witness :
  wp (profiler_turn demo_opts 1) sampled_profiler (fun r s' => r.1 = true /\
    exists t p, a_traces (abs (storage_ s')) = {[ 1 := [p] ]} /\
      processed_of (sample_of sampled_profiler demo_thread t demo_filled) p).
Proof.
  eapply wp_mono; [|apply (profiler_turn_samples demo_opts sampled_profiler 1)].
  - intros r s' (Hr & _ & _ & _ & _ & raws & ps & Hs & Hp & Ht). split; [exact Hr|].
    change (running sampled_profiler) with [demo_thread] in Hs.
    apply list.Forall2_cons_inv_l in Hs as (r0 & raws' & (n & t & a & _ & Ha & ->) & Hnil & ->).
    rewrite demo_unwinds in Ha. apply val_state in Ha as <-. apply list.Forall2_nil_inv_l in Hnil as ->.
    apply list.Forall2_cons_inv_l in Hp as (p & ps' & Hp & Hnil & ->).
    apply list.Forall2_nil_inv_l in Hnil as ->. exists t, p. split; [|exact Hp]. rewrite Ht. reflexivity.
  - exact sampled_profiler_wf.
  - reflexivity.
  - constructor.
  - intros ip fp id _ _. apply demo_answered.
  - change (running sampled_profiler) with [demo_thread].
    intros th ->%list_elem_of_singleton n. exists demo_filled. apply demo_unwinds.
  - simpl. lia.
  - vm_compute. lia.
Defined.
End example.
