(* ===== verification/Jni.v ===== *)
(** * JNI and JVMTI

    The functions of [JNIEnv] and [jvmtiEnv] the tracer calls, as an interface:
    each takes the state of the Java virtual machine to a result and a new
    state.  References, classes, methods and fields are [Z], [0] for null.  The
    laws are those of the JNI specification the tracer relies on. *)

From S2P Require Import Prelude.
From Stdlib Require Import ZArith Lia Ascii.
From stdpp Require Import base gmap list strings numbers.
Local Open Scope Z_scope.
Local Open Scope kt_scope.

Class JNI := {
  J : Type;
  ExceptionCheck : J -> bool;
  ExceptionClear : J -> J;
  NewByteArray : Z -> J -> Z * J;
  NewStringUTF : list ascii -> J -> Z * J;
  (** the array, the start and the length of the region, the buffer *)
  SetByteArrayRegion : Z -> Z -> Z -> list Z -> J -> J;
  GetByteArrayRegion : Z -> Z -> Z -> J -> list Z * J;
  GetArrayLength : Z -> J -> Z;
  CallStaticObjectMethod : Z -> Z -> list Z -> J -> Z * J;
  CallVoidMethod : Z -> Z -> J -> J;
  FindClass : string -> J -> Z * J;
  NewGlobalRef : Z -> J -> Z * J;
  GetStaticMethodID : Z -> string -> string -> J -> Z * J;
  GetMethodID : Z -> string -> string -> J -> Z * J;
  GetStaticFieldID : Z -> string -> string -> J -> Z * J;
  GetStaticObjectField : Z -> Z -> J -> Z * J;
  (** JVMTI: whether it succeeds; an error code, [0] for none; the loaded
      classes, [None] on error; allocation of the identifiers of a class's
      methods. *)
  Allocate : Z -> J -> bool * J;
  AddToSystemClassLoaderSearch : list ascii -> J -> Z * J;
  GetLoadedClasses : J -> option (list Z) * J;
  GetClassMethods : Z -> J -> J;
  (** [JavaVM]: the environment of a thread, [None] for the null pointer a
      thread that is not attached gets; attaching and detaching a thread. *)
  GetEnv : Z -> J -> option Z;
  AttachCurrentThreadAsDaemon : Z -> J -> J;
  DetachCurrentThread : Z -> J -> J;
}.

Section calls.
Context `{JN : !JNI}.

Definition call {A} (f : J -> A * J) : prog J A := act (fun j => let '(a, j') := f j in Val a j').
Definition call_ (f : J -> J) : prog J unit := modify f.

(** [if (jni->ExceptionCheck()) { ExceptionDescribe(); ExceptionClear(); throw
    runtime_error(what); }]. *)
Definition check (what : string) : prog J unit :=
  act (fun j => if ExceptionCheck j then Exc (Runtime_error what) (ExceptionClear j) else Val tt j).

Definition throw_if (b : bool) (e : exn) : prog J unit := if b then throw e else mret tt.

(** ** Reasoning about JNI code

    [jwp p j Q]: from [j], [p] returns with [Q], or throws a [runtime_error]
    with no Java exception pending. *)

Definition jwp {A} (p : prog J A) (j : J) (Q : A -> J -> Prop) : Prop :=
  match run p j with
  | Val a j' => Q a j'
  | Exc e j' => (exists what, e = Runtime_error what) /\ ExceptionCheck j' = false
  | Undef _ => False
  end.

Lemma jwp_ret {A} (a : A) j (Q : A -> J -> Prop) : Q a j -> jwp (mret a) j Q.
Proof. done. Qed.

Lemma jwp_bind {A B} (p : prog J A) (g : A -> prog J B) j Q :
  jwp p j (fun a j' => jwp (g a) j' Q) -> jwp (p ≫= g) j Q.
Proof. unfold jwp. rewrite run_bind. by destruct (run p j). Qed.

Lemma jwp_mono {A} (p : prog J A) j (Q Q' : A -> J -> Prop) :
  (forall a j', Q a j' -> Q' a j') -> jwp p j Q -> jwp p j Q'.
Proof. unfold jwp. destruct (run p j); eauto. Qed.

Lemma jwp_reads {A} (f : J -> A) j (Q : A -> J -> Prop) : Q (f j) j -> jwp (reads f) j Q.
Proof. done. Qed.

Lemma jwp_call {A} (f : J -> A * J) j (Q : A -> J -> Prop) :
  (forall a j', f j = (a, j') -> Q a j') -> jwp (call f) j Q.
Proof. unfold jwp. cbn [run call act]. destruct (f j) as [a j']. intros H. by apply H. Qed.

Lemma jwp_throw_if b what j (Q : unit -> J -> Prop) :
  ExceptionCheck j = false -> (b = false -> Q tt j) -> jwp (throw_if b (Runtime_error what)) j Q.
Proof. intros Hj HQ. destruct b; [split; [by eexists|done]|]. by apply HQ. Qed.

End calls.

(** What the JNI specification says of the functions. *)
Class JNILaws (JN : JNI) := {
  (** the bytes of an array, and the characters of a string *)
  content : J -> Z -> list Z;
  text : J -> Z -> list ascii;
  clear_law j : ExceptionCheck (ExceptionClear j) = false;
  (** a new array has the given length and is zero *)
  array_law n j r j' :
    NewByteArray n j = (r, j') -> ExceptionCheck j' = false ->
    0 <= n /\ content j' r = replicate (Z.to_nat n) 0;
  string_law s j r j' :
    NewStringUTF s j = (r, j') -> ExceptionCheck j' = false ->
    text j' r = s /\ forall a, content j' a = content j a;
  (** a region is inside the array, and the rest of the array is not touched;
      the buffer has to hold the region *)
  set_law a i n bs j :
    n <= Z.of_nat (length bs) -> ExceptionCheck (SetByteArrayRegion a i n bs j) = false ->
    let j' := SetByteArrayRegion a i n bs j in
    0 <= i /\ 0 <= n /\ i + n <= Z.of_nat (length (content j a)) /\
    content j' a = take (Z.to_nat i) (content j a) ++ take (Z.to_nat n) bs ++
                     drop (Z.to_nat (i + n)) (content j a) /\
    forall r, text j' r = text j r;
  length_law r j : GetArrayLength r j = Z.of_nat (length (content j r));
  region_law r i n j bs j' :
    GetByteArrayRegion r i n j = (bs, j') -> ExceptionCheck j' = false ->
    0 <= i /\ 0 <= n /\ i + n <= Z.of_nat (length (content j r)) /\
    bs = take (Z.to_nat n) (drop (Z.to_nat i) (content j r)) /\
    forall a, content j' a = content j a;
  (** functions that raise no exception *)
  allocate_law n j b j' :
    Allocate n j = (b, j') ->
    ExceptionCheck j' = ExceptionCheck j /\ forall r, content j' r = content j r;
  search_law p j e j' : AddToSystemClassLoaderSearch p j = (e, j') -> ExceptionCheck j' = ExceptionCheck j;
  global_ref_law r j r' j' : NewGlobalRef r j = (r', j') -> ExceptionCheck j' = ExceptionCheck j;
}.

(** What it says of threads. *)
Class JavaVMLaws (JN : JNI) := {
  attach_law self j : is_Some (GetEnv self (AttachCurrentThreadAsDaemon self j));
  detach_law self j : GetEnv self (DetachCurrentThread self j) = None;
  attach_others self other j :
    other <> self -> GetEnv other (AttachCurrentThreadAsDaemon self j) = GetEnv other j;
  detach_others self other j :
    other <> self -> GetEnv other (DetachCurrentThread self j) = GetEnv other j;
}.

Section checked.
Context {JN : JNI} `{JL : !JNILaws JN}.

Lemma jwp_check what j (Q : unit -> J -> Prop) :
  (ExceptionCheck j = false -> Q tt j) -> jwp (check what) j Q.
Proof using JL.
  unfold jwp. cbn [run check act]. destruct (ExceptionCheck j) eqn:E; intros HQ; [|by apply HQ].
  split; [by eexists|apply clear_law].
Qed.

(** A call that may raise, followed by the check. *)
Lemma jwp_checked {A B} (f : J -> A * J) what (g : A -> prog J B) j Q :
  (forall a j', f j = (a, j') -> ExceptionCheck j' = false -> jwp (g a) j' Q) ->
  jwp (call f ≫= fun a => check what ≫= fun _ => g a) j Q.
Proof using JL.
  intros HQ. apply jwp_bind, jwp_call. intros a j' Hf. apply jwp_bind, jwp_check. eauto.
Qed.

Lemma jwp_checked_ {B} (f : J -> J) what (g : prog J B) j Q :
  (ExceptionCheck (f j) = false -> jwp g (f j) Q) ->
  jwp (call_ f ≫= fun _ => check what ≫= fun _ => g) j Q.
Proof using JL. intros HQ. apply jwp_bind. apply jwp_bind, jwp_check. eauto. Qed.
End checked.
