(* ===== verification/Instrumentation.v ===== *)
(** * Bytecode instrumentation (profiler/instrumentation.cpp, utils/jarLoader.cpp)

    [Instrumentation::instrument] is called by the JVM for every class it
    loads: for the traced class and for kotlinx.coroutines' debug probes it has
    the Java side rewrite the bytecode and hands the result to the JVM.  The
    Java code itself is a submodule. *)

From S2P Require Import Prelude ArgsParser Jni.
From Stdlib Require Import ZArith Lia Ascii.
From stdpp Require Import base gmap list strings numbers pretty.
Local Open Scope Z_scope.
Local Open Scope kt_scope.

Record InstrumentationMetadata := MkMetadata {
  klass : Z;
  instrument_coroutines_method : Z;
  instrument_method : Z;
}.

(** [instrumentation_metadata_] is null until [VMInit]. *)
Record Instrumentation := MkInstrumentation {
  profiler_options_ : ArgsParser.ProfilerOptions;
  instrumentation_metadata_ : option InstrumentationMetadata;
}.

Definition setInstrumentationMetadata (m : InstrumentationMetadata) (i : Instrumentation) :
    Instrumentation := MkInstrumentation (profiler_options_ i) (Some m).

Definition getJarPath (i : Instrumentation) : option (list ascii) :=
  ArgsParser.jar_path (profiler_options_ i).

Definition KOTLIN_COROUTINE_PROBES_NAME : list ascii :=
  String.list_ascii_of_string "kotlinx/coroutines/debug/internal/DebugProbesImpl".

Section instrumentation.
Context `{JN : !JNI}.

(** [instrumentation_metadata_->...]. *)
Definition metadata (i : Instrumentation) : prog J InstrumentationMetadata :=
  match instrumentation_metadata_ i with Some m => mret m | None => undef "null pointer dereference" end.

(** [byte_code] is the buffer the pointer designates. *)
Definition instrumentCoroutines (i : Instrumentation) (byte_code : list Z) (size : Z) : prog J Z :=
  array ← call (NewByteArray size);
  check "Failed to create new byte array transformed coroutine class content";;
  call_ (SetByteArrayRegion array 0 size byte_code);;
  check "Failed to set byte array region";;
  m ← metadata i;
  result ← call (CallStaticObjectMethod (klass m) (instrument_coroutines_method m) [array]);
  check "Failed to intrusment coroutines";;
  mret result.

Definition instrumentMethod (i : Instrumentation) (byte_code : list Z) (size : Z)
    (method_name : list ascii) : prog J Z :=
  array ← call (NewByteArray size);
  check "Failed to create new byte array transformed traced class content";;
  jMethodName ← call (NewStringUTF method_name);
  check "Failed to create new string with traced method name";;
  call_ (SetByteArrayRegion array 0 size byte_code);;
  check "Failed to set byte array region";;
  m ← metadata i;
  result ← call (CallStaticObjectMethod (klass m) (instrument_method m) [array; jMethodName]);
  check "Failed to instrument method";;
  mret result.

(** Copies the transformed class into a buffer of the JVM: the new length and
    contents. *)
Definition copy_class (transformed : Z) (alloc_error copy_error : string) : prog J (Z * list Z) :=
  length ← reads (GetArrayLength transformed);
  allocated ← call (Allocate length);
  throw_if (negb allocated) (Runtime_error alloc_error);;
  buf ← call (GetByteArrayRegion transformed 0 length);
  check copy_error;;
  mret (length, buf).

(** [*profiler_options_->class_name] and [*...->method_name]. *)
Definition option_string (x : option (list ascii)) : prog J (list ascii) :=
  match x with Some s => mret s | None => undef "null pointer dereference" end.

(** [new_class] is what [*new_class_data_len] and [*new_class_data] hold; the
    result is what they hold afterwards.  The JVM passes a null [name] for a
    class without one. *)
Definition instrument (i : Instrumentation) (name : option (list ascii)) (class_data_len : Z)
    (class_data : list Z) (new_class : option (Z * list Z)) : prog J (option (Z * list Z)) :=
  name ← option_string name;
  class_name ← option_string (ArgsParser.class_name (profiler_options_ i));
  new_class ← (if bool_decide (class_name = name) then
    method_name ← option_string (ArgsParser.method_name (profiler_options_ i));
    transformed ← instrumentMethod i class_data class_data_len method_name;
    c ← copy_class transformed "Failed to allocate JVMTI buffer for tracing class"
          "Failed to copy transformed traced class content";
    mret (Some c)
  else mret new_class);
  if bool_decide (KOTLIN_COROUTINE_PROBES_NAME = name) then
    transformed ← instrumentCoroutines i class_data class_data_len;
    c ← copy_class transformed "Failed to allocate JVMTI buffer for coroutine probes class"
          "Failed to copy transformed coroutine class content";
    length ← reads (GetArrayLength transformed);
    mret (Some (length, c.2))
  else mret new_class.

(** ** [load] (utils/jarLoader.cpp) *)

(** [absolute] and [current_path] are of [std::filesystem]. *)
Definition load (absolute : list ascii -> list ascii) (current_path : list ascii)
    (jar_path : option (list ascii)) (name : list ascii) : prog J InstrumentationMetadata :=
  let jarPath := match jar_path with
                 | None => absolute (current_path ++ "/"%char :: name)
                 | Some p => absolute p
                 end in
  err ← call (AddToSystemClassLoaderSearch jarPath);
  throw_if (negb (err =? 0)) (Runtime_error ("Cannot add jar to system classloader search:" ++ pretty err)%string);;
  inst ← call (FindClass "io/inst/CoroutineInstrumentator");
  check "Cannot load instrumentation class";;
  klassReference ← call (NewGlobalRef inst);
  throw_if (inst =? 0) (Runtime_error "Cannot get instrumentator class!");;
  transformKotlinCoroutines ← call (GetStaticMethodID inst "transformKotlinCoroutines" "([B)[B");
  check "method transformKotlinCoroutines not found";;
  transformMethod ← call (GetStaticMethodID inst "transformMethodForTracing" "([BLjava/lang/String;)[B");
  check "method transformMethodForTracing not found";;
  mret (MkMetadata klassReference transformKotlinCoroutines transformMethod).

End instrumentation.
