(* ===== verification/InstrumentationSpec.v ===== *)
(** * What instrumentation delivers

    Against the laws of JNI and for any Java side: which classes are rewritten
    and with what, and that no failure leaves a Java exception pending. *)

From S2P Require Import Prelude ArgsParser Jni Instrumentation.
From Stdlib Require Import ZArith Lia Ascii.
From stdpp Require Import base gmap list strings numbers pretty.
Local Open Scope Z_scope.
Local Open Scope kt_scope.

Section spec.
Context {JN : JNI} `{JL : !JNILaws JN} (m : InstrumentationMetadata).

(** The Java side: what the two static methods compute. *)
Context (transform_method : list Z -> list ascii -> list Z) (transform_coroutines : list Z -> list Z).
Context (call_method : forall a n j r j',
  CallStaticObjectMethod (klass m) (instrument_method m) [a; n] j = (r, j') ->
  ExceptionCheck j' = false -> content j' r = transform_method (content j a) (text j n)).
Context (call_coroutines : forall a j r j',
  CallStaticObjectMethod (klass m) (instrument_coroutines_method m) [a] j = (r, j') ->
  ExceptionCheck j' = false -> content j' r = transform_coroutines (content j a)).

(** A new array that is filled with as many bytes as it has, all of a buffer. *)
Lemma filled_content a size data j j1 j2 :
  size = Z.of_nat (length data) ->
  NewByteArray size j = (a, j1) -> ExceptionCheck j1 = false -> content j2 a = content j1 a ->
  let j3 := SetByteArrayRegion a 0 size data j2 in
  ExceptionCheck j3 = false -> content j3 a = data /\ forall r, text j3 r = text j2 r.
Proof using JL.
  intros -> Ha Ha' Heq j3 Hset. destruct (array_law _ _ _ _ Ha Ha') as [_ Hc].
  destruct (set_law a 0 (Z.of_nat (length data)) data j2) as (_ & _ & _ & Hb & Ht); [lia|done|].
  fold j3 in Hb, Ht. rewrite Hb.
  split; [|done]. rewrite Heq, Hc, Nat2Z.id.
  change (Z.to_nat 0) with 0%nat. replace (Z.to_nat (0 + Z.of_nat (length data))) with (length data) by lia.
  rewrite take_0, take_ge by lia. rewrite drop_ge by (rewrite length_replicate; lia).
  by rewrite app_nil_r.
Qed.

Lemma jwp_instrumentMethod i data size mn j (Q : Z -> J -> Prop) :
  instrumentation_metadata_ i = Some m -> size = Z.of_nat (length data) ->
  (forall r j', ExceptionCheck j' = false -> content j' r = transform_method data mn -> Q r j') ->
  jwp (instrumentMethod i data size mn) j Q.
Proof using JL call_method.
  intros Hm Hsz HQ. unfold instrumentMethod, metadata. rewrite Hm.
  apply jwp_checked. intros a j1 Ha Ha'. apply jwp_checked. intros n j2 Hn Hn'.
  apply jwp_checked_. intros Hset. apply jwp_bind, jwp_ret. apply jwp_checked. intros r j3 Hr Hr'.
  apply jwp_ret, HQ; [done|]. destruct (string_law _ _ _ _ Hn Hn') as [Hs Hkeep].
  destruct (filled_content a size data j j1 j2 Hsz Ha Ha' (Hkeep a) Hset) as [Hc Ht].
  by rewrite (call_method _ _ _ _ _ Hr Hr'), Hc, Ht, Hs.
Qed.

Lemma jwp_instrumentCoroutines i data size j (Q : Z -> J -> Prop) :
  instrumentation_metadata_ i = Some m -> size = Z.of_nat (length data) ->
  (forall r j', ExceptionCheck j' = false -> content j' r = transform_coroutines data -> Q r j') ->
  jwp (instrumentCoroutines i data size) j Q.
Proof using JL call_coroutines.
  intros Hm Hsz HQ. unfold instrumentCoroutines, metadata. rewrite Hm.
  apply jwp_checked. intros a j1 Ha Ha'. apply jwp_checked_. intros Hset.
  apply jwp_bind, jwp_ret. apply jwp_checked. intros r j3 Hr Hr'.
  apply jwp_ret, HQ; [done|].
  destruct (filled_content a size data j j1 j1 Hsz Ha Ha' eq_refl Hset) as [Hc _].
  by rewrite (call_coroutines _ _ _ _ Hr Hr'), Hc.
Qed.

Lemma jwp_copy_class r bs e1 e2 j (Q : Z * list Z -> J -> Prop) :
  ExceptionCheck j = false -> content j r = bs ->
  (forall j', ExceptionCheck j' = false -> content j' r = bs -> Q (Z.of_nat (length bs), bs) j') ->
  jwp (copy_class r e1 e2) j Q.
Proof using JL.
  intros Hj Hc HQ. unfold copy_class. apply jwp_bind, jwp_reads. apply jwp_bind, jwp_call.
  intros b j1 Ha. destruct (allocate_law _ _ _ _ Ha) as [He Hs].
  apply jwp_bind, jwp_throw_if; [by rewrite He|]. intros _.
  apply jwp_checked. intros buf j2 Hg Hg'. apply jwp_ret. rewrite length_law, Hc in *.
  destruct (region_law _ _ _ _ _ _ Hg Hg') as (_ & _ & _ & -> & Hkeep).
  rewrite Hs, Hc, Nat2Z.id. change (Z.to_nat 0) with 0%nat. rewrite drop_0, take_ge by lia.
  apply HQ; [done|]. by rewrite Hkeep, Hs.
Qed.

(** What a class is replaced by: the debug probes by the version that reports
    to the agent, the traced class by the version that traces the method. *)
Definition rewritten (class_name method_name name : list ascii) (data : list Z) : option (list Z) :=
  if bool_decide (name = KOTLIN_COROUTINE_PROBES_NAME) then Some (transform_coroutines data)
  else if bool_decide (name = class_name) then Some (transform_method data method_name)
  else None.

(** C28: instrumentation replaces the traced class and the coroutine debug
    probes by what the Java side makes of exactly the bytes of the class, and
    no other class.  When JNI behaves as specified, the two Java methods are
    there and compute the two transformations, and the length the JVM passes
    is that of the class, it either returns with the new contents and their length handed to the JVM (what was
    there before, for the other classes), or throws a [runtime_error]; in
    neither case is a Java exception left pending. *)
Theorem instrument_rewrites i class_name method_name name len data out j :
  instrumentation_metadata_ i = Some m ->
  ArgsParser.class_name (profiler_options_ i) = Some class_name ->
  ArgsParser.method_name (profiler_options_ i) = Some method_name ->
  ExceptionCheck j = false -> len = Z.of_nat (length data) ->
  jwp (instrument i (Some name) len data out) j (fun out' j' => ExceptionCheck j' = false /\
    out' = match rewritten class_name method_name name data with
           | Some bs => Some (Z.of_nat (length bs), bs)
           | None => out
           end).
Proof using JL call_method call_coroutines.
  intros Hm Hc Hn Hj Hlen. unfold instrument, rewritten. rewrite Hc, Hn. cbn [option_string].
  apply jwp_bind, jwp_ret, jwp_bind, jwp_ret, jwp_bind.
  apply jwp_mono with (Q := fun out1 j1 => ExceptionCheck j1 = false /\
    out1 = if bool_decide (class_name = name)
           then Some (Z.of_nat (length (transform_method data method_name)), transform_method data method_name)
           else out).
  - intros out1 j1 [Hj1 ->].
    rewrite (bool_decide_ext (name = KOTLIN_COROUTINE_PROBES_NAME) (KOTLIN_COROUTINE_PROBES_NAME = name)) by done.
    destruct (bool_decide (KOTLIN_COROUTINE_PROBES_NAME = name)).
    + apply jwp_bind, jwp_instrumentCoroutines; [done|done|]. intros r j2 Hj2 Hr.
      apply jwp_bind. eapply jwp_copy_class; [done|exact Hr|]. intros j3 Hj3 Hr3.
      apply jwp_bind, jwp_reads, jwp_ret. by rewrite length_law, Hr3.
    + apply jwp_ret. split; [done|].
      rewrite (bool_decide_ext (name = class_name) (class_name = name)) by done.
      by destruct (bool_decide (class_name = name)).
  - destruct (bool_decide (class_name = name)); [|by apply jwp_ret].
    apply jwp_bind, jwp_ret, jwp_bind, jwp_instrumentMethod; [done|done|]. intros r j2 Hj2 Hr.
    apply jwp_bind. eapply jwp_copy_class; [done|exact Hr|]. intros j3 Hj3 _. by apply jwp_ret.
Qed.
End spec.

(** [load] either yields the class and its two methods or throws a
    [runtime_error]; no exception is left pending. *)
Lemma load_clean {JN : JNI} `{JL : !JNILaws JN} absolute cwd jar name j :
  ExceptionCheck j = false ->
  jwp (load absolute cwd jar name) j (fun md j' => ExceptionCheck j' = false).
Proof.
  intros Hj. unfold load. cbv zeta. apply jwp_bind, jwp_call. intros err j1 H1.
  apply search_law in H1. apply jwp_bind, jwp_throw_if; [by rewrite H1|]. intros _.
  apply jwp_checked. intros inst j2 _ H2. apply jwp_bind, jwp_call. intros k j3 H3.
  apply global_ref_law in H3. apply jwp_bind, jwp_throw_if; [by rewrite H3|]. intros _.
  apply jwp_checked. intros m1 j4 _ _. apply jwp_checked. intros m2 j5 _ H5. by apply jwp_ret.
Qed.

(** ** A small virtual machine *)

Record demo_j := MkJ {
  j_exc : bool;
  j_arrays : gmap Z (list Z);
  j_strings : gmap Z (list ascii);
  j_next : Z;
  j_attached : gset Z;
}.

Definition j_new (bs : list Z) (j : demo_j) : Z * demo_j :=
  (j_next j, MkJ (j_exc j) (<[j_next j := bs]> (j_arrays j)) (j_strings j) (j_next j + 1) (j_attached j)).

Definition j_bytes (j : demo_j) (r : Z) : list Z := default [] (j_arrays j !! r).

(** An access to a region that is not in the array raises an exception. *)
Definition j_raise (j : demo_j) : demo_j :=
  MkJ true (j_arrays j) (j_strings j) (j_next j) (j_attached j).
Definition j_inside (i n : Z) (c : list Z) : bool :=
  (0 <=? i) && (0 <=? n) && (i + n <=? Z.of_nat (length c)).

Definition j_set (a i n : Z) (bs : list Z) (j : demo_j) : demo_j :=
  let c := j_bytes j a in
  if j_inside i n c then
    MkJ (j_exc j) (<[a := take (Z.to_nat i) c ++ take (Z.to_nat n) bs ++ drop (Z.to_nat (i + n)) c]>
      (j_arrays j)) (j_strings j) (j_next j) (j_attached j)
  else j_raise j.
Definition j_get (a i n : Z) (j : demo_j) : list Z * demo_j :=
  let c := j_bytes j a in
  if j_inside i n c then (take (Z.to_nat n) (drop (Z.to_nat i) c), j) else ([], j_raise j).

#[local] Instance demo_jni : JNI := {|
  J := demo_j;
  ExceptionCheck := j_exc;
  ExceptionClear j := MkJ false (j_arrays j) (j_strings j) (j_next j) (j_attached j);
  NewByteArray n j := if 0 <=? n then j_new (replicate (Z.to_nat n) 0) j else (0, j_raise j);
  NewStringUTF s j :=
    (j_next j, MkJ (j_exc j) (j_arrays j) (<[j_next j := s]> (j_strings j)) (j_next j + 1) (j_attached j));
  SetByteArrayRegion := j_set;
  GetByteArrayRegion := j_get;
  GetArrayLength r j := Z.of_nat (length (j_bytes j r));
  CallStaticObjectMethod k mth args j :=
    match mth, args with
    | 6, [a] => j_new (j_bytes j a ++ [2]) j
    | 7, [a; _] => j_new (j_bytes j a ++ [1]) j
    | _, _ => (0, j_raise j)
    end;
  CallVoidMethod _ _ j := j;
  FindClass _ j := (5, j);
  NewGlobalRef r j := (r, j);
  GetStaticMethodID _ _ _ j := (6, j);
  GetMethodID _ _ _ j := (8, j);
  GetStaticFieldID _ _ _ j := (9, j);
  GetStaticObjectField _ _ j := (10, j);
  Allocate _ j := (true, j);
  AddToSystemClassLoaderSearch _ j := (0, j);
  GetLoadedClasses j := (Some [], j);
  GetClassMethods _ j := j;
  GetEnv self j := if bool_decide (self ∈ j_attached j) then Some 1 else None;
  AttachCurrentThreadAsDaemon self j := MkJ (j_exc j) (j_arrays j) (j_strings j) (j_next j) ({[self]} ∪ j_attached j);
  DetachCurrentThread self j := MkJ (j_exc j) (j_arrays j) (j_strings j) (j_next j) (j_attached j ∖ {[self]});
|}.

#[local] Instance demo_javavm_laws : JavaVMLaws demo_jni.
Proof.
  split; cbn; intros self; intros.
  - rewrite bool_decide_eq_true_2 by set_solver. by eexists.
  - by rewrite bool_decide_eq_false_2 by set_solver.
  - by rewrite (bool_decide_ext _ (other ∈ j_attached j)) by set_solver.
  - by rewrite (bool_decide_ext _ (other ∈ j_attached j)) by set_solver.
Qed.

#[local] Instance demo_jni_laws : JNILaws demo_jni.
Proof.
  refine {| content := j_bytes; text j r := default [] (j_strings j !! r) |}.
  - done.
  - cbn [NewByteArray ExceptionCheck demo_jni]. intros n j r j'. destruct (Z.leb_spec 0 n) as [Hn|Hn].
    + intros [= <- <-] _. split; [lia|]. unfold j_bytes. cbn. by rewrite lookup_insert_eq.
    + by intros [= <- <-].
  - intros s j r j' [= <- <-] _. cbn. by rewrite lookup_insert_eq.
  - cbn [SetByteArrayRegion ExceptionCheck demo_jni]. intros a i n bs j _. unfold j_set.
    destruct (j_inside i n (j_bytes j a)) eqn:Hin; [|done]. intros _. unfold j_inside in Hin.
    split; [lia|]. split; [lia|]. split; [lia|]. split; [|done].
    unfold j_bytes at 1. cbn. by rewrite lookup_insert_eq.
  - done.
  - cbn [GetByteArrayRegion ExceptionCheck demo_jni]. intros a i n j bs j'. unfold j_get.
    destruct (j_inside i n (j_bytes j a)) eqn:Hin; [|by intros [= <- <-]].
    intros [= <- <-] _. unfold j_inside in Hin. split_and!; [lia..|done|done].
  - by intros n j b j' [= <- <-].
  - by intros p j e j' [= <- <-].
  - by intros r j r' j' [= <- <-].
Defined.

Definition demo_options : ArgsParser.ProfilerOptions := {|
  ArgsParser.class_name := Some (String.list_ascii_of_string "io/A");
  ArgsParser.method_name := Some (String.list_ascii_of_string "run");
  ArgsParser.profiling_period := 1;
  ArgsParser.threshold := 1;
  ArgsParser.jar_path := None;
  ArgsParser.output_path := None;
|}.

Lemma instrument_rewrites_witness :
  jwp (instrument (MkInstrumentation demo_options (Some (MkMetadata 5 6 7)))
         (Some (String.list_ascii_of_string "io/A")) 2 [202; 254] None) (MkJ false ∅ ∅ 100 ∅)
    (fun out _ => out = Some (3, [202; 254; 1])).
Proof.
  eapply jwp_mono; [|apply (instrument_rewrites (MkMetadata 5 6 7) (fun d _ => d ++ [1]) (fun d => d ++ [2]))
    with (class_name := String.list_ascii_of_string "io/A")
         (method_name := String.list_ascii_of_string "run"); [| |done|done|done|done|done]].
  - by intros out j' [_ ->].
  - intros a n j r j' [= <- <-] _. unfold content; cbn. unfold j_bytes at 1; cbn. by rewrite lookup_insert_eq.
  - intros a j r j' [= <- <-] _. unfold content; cbn. unfold j_bytes at 1; cbn. by rewrite lookup_insert_eq.
Defined.
