(* ===== verification/Agent.v ===== *)
(** * The agent (agent.cpp, agent.hpp, jni/jni_instrumentator.cpp, and the
    construction of [JVM] in vm/jvm.cpp)

    The process the agent is loaded into: the static variables of agent.cpp and
    profiler.cpp, the objects they own, and the state of the virtual machine.
    [Agent_OnLoad] parses the options and builds the JVM interface, the
    profiler and the instrumentation; the JVMTI callbacks and the native methods
    of the instrumented application call into them; [Agent_OnUnload] tears the
    agent down.  Each entry point is a program run by one thread. *)

From S2P Require Import Prelude ConcurrentList ConcurrentMap TraceTime TraceModel TraceStorage.
From S2P Require Import Perfetto SuspensionPlot Jvm Profiler ArgsParser Memory VmStructs.
From S2P Require Import CodeCache Jni Instrumentation.
From Stdlib Require Import ZArith Lia Ascii.
From stdpp Require Import base gmap list strings numbers pretty.
Local Open Scope Z_scope.
Local Open Scope kt_scope.

(** ** The constructor of [JVM] *)

(** The capabilities it asks for, and the events it subscribes to. *)
Definition capabilities : list string :=
  ["can_generate_garbage_collection_events"; "can_generate_all_class_hook_events"].

Definition enabled_events : list string :=
  ["GARBAGE_COLLECTION_FINISH"; "GARBAGE_COLLECTION_START"; "VM_START"; "VM_INIT";
   "COMPILED_METHOD_LOAD"; "THREAD_START"; "CLASS_LOAD"; "CLASS_PREPARE"; "CLASS_FILE_LOAD_HOOK"].

(** What the constructor asks of [jvmtiEnv]. *)
Inductive jvmti_call :=
  | AddCapabilities (names : list string)
  | SetEventCallbacks (names : list string)
  | SetEventNotificationMode (enable : bool) (event : string).

#[export] Instance jvmti_call_eq : EqDecision jvmti_call.
Proof. solve_decision. Defined.

(** The [JVM] being constructed: the calls made to its JVMTI environment, and
    the members. *)
Record building := MkBuilding { jvmti_calls : list jvmti_call; b_vm : vm }.

Definition calls_L : Lens building (list jvmti_call) :=
  field_lens jvmti_calls (fun x s => MkBuilding x (b_vm s)).
Definition vm_L : Lens building vm := field_lens b_vm (fun x s => MkBuilding (jvmti_calls s) x).

(** [answer] is the environment: the error code of a call, [0] for none, after
    the calls before it. *)
Definition jvmti (answer : list jvmti_call -> jvmti_call -> Z) (c : jvmti_call) : prog building Z :=
  zoom calls_L (act (fun l => Val (answer l c) (l ++ [c]))).

(** [get_env] tells whether the virtual machine has a JVMTI environment for the
    agent; [callbacks] are the events that have a callback. *)
Definition construct_jvm (m : mem) (getVariableAddress : string -> Z) (get_env : bool)
    (answer : list jvmti_call -> jvmti_call -> Z) (callbacks : list string) :
    prog building JVMCodeCache :=
  (if get_env then mret tt else undef "null pointer dereference");;
  err ← jvmti answer (AddCapabilities capabilities);
  (if err =? 0 then mret tt else throw (Runtime_error "Error adding capabilities"));;
  jvmti answer (SetEventCallbacks callbacks);;
  for_each enabled_events (fun e => jvmti answer (SetEventNotificationMode true e);; mret tt);;
  zoom vm_L (
    init m getVariableAddress;;
    resolveVMStructs m;;
    resolveVMTypes m;;
    make_code_cache m).

(** ** The process *)

(** The agent owns its [Profiler] through [profiler_]; so does
    [Profiler::instance_]. *)
Record Agent := MkAgent {
  profiler_ : nat;
  agent_settings : settings;
  instrumentation_ : Instrumentation;
}.

Section agent.
Context `{CK : !SteadyClock} `{E : !Environment} `{JN : !JNI}.

Record process := MkProcess {
  p_jni : J;
  attached : bool;
  agent : option Agent;
  instance_ : ptr;
  profilers : heap Profiler;
}.

Definition jni_L : Lens process J := field_lens p_jni (fun x s =>
  MkProcess x (attached s) (agent s) (instance_ s) (profilers s)).
Definition agent_L : Lens process (option Agent) := field_lens agent (fun x s =>
  MkProcess (p_jni s) (attached s) x (instance_ s) (profilers s)).
Definition profilers_L : Lens process (heap Profiler) := field_lens profilers (fun x s =>
  MkProcess (p_jni s) (attached s) (agent s) (instance_ s) x).
Definition instance_L : Lens process ptr := field_lens instance_ (fun x s =>
  MkProcess (p_jni s) (attached s) (agent s) x (profilers s)).

Definition make_process (j : J) : process := MkProcess j false None None heap_empty.

(** [attached.test_and_set()]. *)
Definition test_and_set : prog process bool :=
  act (fun s => Val (attached s) (MkProcess (p_jni s) true (agent s) (instance_ s) (profilers s))).

(** ** Lifetime *)

(** [Profiler::create] and [Profiler::getInstance]. *)
Definition create (jvm : JVM) : prog process nat :=
  p ← reads instance_;
  match p with
  | Some l => mret l
  | None =>
      l ← zoom profilers_L (halloc (make_profiler jvm));
      zoom instance_L (modify (fun _ => Some l));;
      mret l
  end.

Definition getInstance : prog process ptr := reads instance_.

(** The destructor of a [unique_ptr<Profiler>]. *)
Definition delete_profiler (p : ptr) : prog process unit :=
  match p with
  | None => mret tt
  | Some l =>
      zoom profilers_L (act (fun h =>
        match cells h !! l with
        | None => Undef "double free"
        | Some _ => Val tt (Heap (delete l (cells h)) (next h))
        end))
  end.

(** [startProfiler]: the flag decides whether the profiler thread is created;
    what the thread does is in [Sampling].  [stop] clears it. *)
Definition startProfiler : prog Profiler bool :=
  act (fun s => Val (negb (prof_active s)) (lset prof_active_L true s)).
Definition stop : prog Profiler unit := modify (lset prof_active_L false).

(** [~Agent], then its members. *)
Definition destroy_agent (a : Agent) : prog process unit :=
  zoom profilers_L (at_ptr (Some (profiler_ a)) stop);;
  delete_profiler (Some (profiler_ a)).

(** [agent.reset()]. *)
Definition reset_agent : prog process unit :=
  a ← reads agent;
  match a with
  | None => mret tt
  | Some a => zoom agent_L (modify (fun _ => None));; destroy_agent a
  end.

Definition Agent_OnUnload : prog process unit := reset_agent.

(** The destructors of the static variables, when the process exits. *)
Definition exit_process : prog process unit :=
  reset_agent;;
  p ← reads instance_;
  delete_profiler p.

(** The callbacks [Agent_OnLoad] gives the JVM interface. *)
Definition agent_callbacks : list string :=
  ["VMStart"; "ThreadStart"; "ClassPrepare"; "ClassLoad"; "ClassFileLoadHook"; "VMInit";
   "GarbageCollectionStart"; "GarbageCollectionFinish"].

(** [options] is null or a string; [construct] is the outcome of the
    constructor of [JVM]; [current_path] is where the process runs. *)
Definition Agent_OnLoad (current_path : list ascii) (construct : exn + JVM)
    (options : option (list ascii)) : prog process Z :=
  was_attached ← test_and_set;
  if (was_attached : bool) then mret 0
  else
    match options with
    | None | Some [] => throw (Runtime_error "method name required for interception!")
    | Some optionsStr =>
        match ArgsParser.parseProfilerOptions current_path optionsStr with
        | None => undef "out of fuel"
        | Some (inl e) => throw e
        | Some (inr profilerOptions) =>
            match construct with
            | inl e => throw e
            | inr jvm =>
                match ArgsParser.output_path profilerOptions with
                | None => undef "null pointer dereference"
                | Some path =>
                    l ← create jvm;
                    zoom agent_L (modify (fun _ => Some (MkAgent l
                      (MkSettings (ArgsParser.threshold profilerOptions)
                         (ArgsParser.profiling_period profilerOptions)
                         (String.string_of_list_ascii path))
                      (MkInstrumentation profilerOptions None))));;
                    mret 0
                end
            end
        end
    end.

(** ** Calls into the profiler *)

(** [read_lock lock(mutex); if (agent != nullptr) agent->getProfiler()->...]. *)
Definition with_profiler (f : settings -> prog Profiler unit) : prog process unit :=
  a ← reads agent;
  match a with
  | None => mret tt
  | Some a => zoom profilers_L (at_ptr (Some (profiler_ a)) (f (agent_settings a)))
  end.

Definition agent_coroutineCreated (self id : Z) : prog process unit :=
  with_profiler (fun _ => coroutineCreated self id).
Definition agent_coroutineResumed (self id : Z) : prog process unit :=
  with_profiler (fun _ => coroutineResumed self id).
(** [frames] is what JVMTI's [GetStackTrace] answers in the call. *)
Definition agent_coroutineSuspended (frames : option (list Z)) (self id : Z) : prog process unit :=
  with_profiler (fun _ => coroutineSuspended frames self id).
Definition agent_coroutineCompleted (self id : Z) : prog process unit :=
  with_profiler (fun _ => coroutineCompleted self id).
Definition agent_traceStart (self id : Z) : prog process unit :=
  with_profiler (fun _ => traceStart self id).
Definition agent_traceEnd (fuel : nat) (self id : Z) : prog process unit :=
  with_profiler (fun opts => traceEnd opts fuel self id;; mret tt).

(** ** The native methods of the instrumented classes (jni_instrumentator.cpp) *)

(** [-1] stands for the calling thread itself. *)
Definition native_id (self coroutine_id : Z) : Z :=
  if coroutine_id =? -1 then hash_thread_id self else coroutine_id.

Definition Java_coroutineCreated (self id : Z) : prog process unit :=
  agent_coroutineCreated self (native_id self id).
Definition Java_coroutineResumed (self id : Z) : prog process unit :=
  agent_coroutineResumed self (native_id self id).
Definition Java_coroutineCompleted (self id : Z) : prog process unit :=
  agent_coroutineCompleted self (native_id self id).
Definition Java_coroutineSuspend (frames : option (list Z)) (self id : Z) : prog process unit :=
  agent_coroutineSuspended frames self (native_id self id).
Definition Java_traceStart (self id : Z) : prog process unit :=
  agent_traceStart self (native_id self id).
Definition Java_traceEnd (fuel : nat) (self id : Z) : prog process unit :=
  agent_traceEnd fuel self (native_id self id).

(** ** The JVMTI callbacks *)

(** [agent->...], without a test for null. *)
Definition the_agent : prog process Agent :=
  a ← reads agent;
  match a with Some a => mret a | None => undef "null pointer dereference" end.

Definition GarbageCollectionStart : prog process unit := with_profiler (fun _ => prof_gcStart).
Definition GarbageCollectionFinish : prog process unit := with_profiler (fun _ => prof_gcFinish).

Definition ClassFileLoadHook (name : option (list ascii)) (class_data_len : Z)
    (class_data : list Z) (new_class : option (Z * list Z)) : prog process (option (Z * list Z)) :=
  a ← the_agent;
  zoom jni_L (instrument (instrumentation_ a) name class_data_len class_data new_class).

Definition ThreadStart (self : Z) (bounds : Z * Z) (info : option string) : prog process unit :=
  a ← the_agent;
  zoom profilers_L (at_ptr (Some (profiler_ a)) (zoom jvm_L (addCurrentThread self bounds info))).

(** [JVM::loadMethodsId] and [JVM::initializeMethodIds]; when [GetLoadedClasses]
    fails, [classes] is deallocated uninitialised. *)
Definition loadMethodsId (class : Z) : prog J unit := call_ (GetClassMethods class).

Definition initializeMethodIds : prog J unit :=
  classes ← call GetLoadedClasses;
  match classes with
  | None => undef "use of an uninitialised pointer"
  | Some classes => for_each classes loadMethodsId
  end.

(** [getJNIEnv]: the environment of the calling thread, null when it is not
    attached; [attachThread] and [dettachThread], with which the profiler thread
    begins and ends. *)
Definition getJNIEnv (self : Z) : prog J (option Z) := reads (GetEnv self).

Definition attachThread (self : Z) : prog J unit :=
  pEnv ← getJNIEnv self;
  call_ (AttachCurrentThreadAsDaemon self).

Definition dettachThread (self : Z) : prog J unit := call_ (DetachCurrentThread self).

(** Subscribed to, and empty. *)
Definition ClassLoad (thread klass : Z) : prog process unit := mret tt.
Definition VMStart : prog process unit := mret tt.

Definition ClassPrepare (class : Z) : prog process unit :=
  the_agent;;
  zoom jni_L (loadMethodsId class).

(** The part of [VMInit] that installs kotlinx.coroutines' debug probes. *)
Definition install_probes : prog J unit :=
  debug_probes ← call (FindClass "kotlinx/coroutines/debug/DebugProbes");
  check "kotlinx/coroutines/debug/DebugProbes failed to get class";;
  throw_if (debug_probes =? 0) (Runtime_error "kotlinx/coroutines/debug/DebugProbes not found");;
  install_method ← call (GetMethodID debug_probes "install" "()V");
  check " failed to get method from debug probes";;
  throw_if (install_method =? 0) (Runtime_error "DebugProbes.install method not found");;
  instance_field ← call (GetStaticFieldID debug_probes "INSTANCE"
                           "Lkotlinx/coroutines/debug/DebugProbes;");
  check "failed to get static field id  from debug probes";;
  throw_if (instance_field =? 0) (Runtime_error "DebugProbes.INSTANCE field not found");;
  instance ← call (GetStaticObjectField debug_probes instance_field);
  check "failed to get static field from debug probes";;
  throw_if (instance =? 0) (Runtime_error "DebugProbes.INSTANCE is null");;
  call_ (CallVoidMethod instance install_method);;
  check "failed to call static method from debug probes";;
  mret tt.

Definition set_metadata (m : InstrumentationMetadata) : prog process unit :=
  zoom agent_L (modify (fmap (fun a =>
    MkAgent (profiler_ a) (agent_settings a) (setInstrumentationMetadata m (instrumentation_ a))))).

Definition VMInit (absolute : list ascii -> list ascii) (current_path : list ascii) :
    prog process unit :=
  a ← the_agent;
  zoom jni_L initializeMethodIds;;
  metadata ← zoom jni_L (load absolute current_path (getJarPath (instrumentation_ a))
                           (String.list_ascii_of_string "kotlin-tracer.jar"));
  set_metadata metadata;;
  zoom jni_L install_probes;;
  zoom profilers_L (at_ptr (Some (profiler_ a)) startProfiler);;
  mret tt.

End agent.
