(* ===== verification/AgentSpec.v ===== *)
(** * The life of the agent

    Loading, initialisation and unloading, and who owns the profiler. *)

From S2P Require Import Prelude ConcurrentList ConcurrentMap TraceTime TraceModel TraceStorage.
From S2P Require Import Perfetto SuspensionPlot Jvm Profiler ProfilerTheorems ArgsParser Memory.
From S2P Require Import VmStructs CodeCache CodeCacheSpec Jni Instrumentation.
From S2P Require Import InstrumentationSpec Agent.
From Stdlib Require Import ZArith Lia Ascii.
From stdpp Require Import base gmap list strings numbers pretty.
Local Open Scope Z_scope.
Local Open Scope kt_scope.

Section spec.
Context `{CK : !SteadyClock} `{E : !Environment} {JN : JNI} `{JL : !JNILaws JN}.

(** ** Loading and unloading *)

(** The agent is loaded: it and [Profiler::instance_] share a live profiler. *)
Definition loaded (s : process) (a : Agent) : Prop :=
  attached s = true /\ agent s = Some a /\ instance_ s = Some (profiler_ a) /\
  is_Some (cells (profilers s) !! profiler_ a).

Lemma wp_OnLoad cwd jvm o opts path j (Q : Z -> process -> Prop) :
  o <> [] -> ArgsParser.parseProfilerOptions cwd o = Some (inr opts) ->
  ArgsParser.output_path opts = Some path ->
  (forall a s, loaded s a -> p_jni s = j -> instrumentation_ a = MkInstrumentation opts None ->
     cells (profilers s) !! profiler_ a = Some (make_profiler jvm) ->
     agent_settings a = MkSettings (ArgsParser.threshold opts) (ArgsParser.profiling_period opts)
                          (String.string_of_list_ascii path) -> Q 0 s) ->
  wp (Agent_OnLoad cwd (inr jvm) (Some o)) (make_process j) Q.
Proof.
  intros Ho Hp Hpath HQ. unfold Agent_OnLoad. destruct o as [|c o]; [done|].
  rewrite Hp, Hpath. unfold wp. cbn.
  apply (HQ (MkAgent 0 (MkSettings (ArgsParser.threshold opts) (ArgsParser.profiling_period opts)
    (String.string_of_list_ascii path)) (MkInstrumentation opts None)));
    [|done|done|cbn; apply lookup_insert_eq|done].
  split_and!; [done|done|done|]. cbn. rewrite lookup_insert_eq. by eexists.
Qed.

Lemma run_OnLoad_again cwd construct o s :
  attached s = true -> run (Agent_OnLoad cwd construct o) s = Val 0 s.
Proof. intros H. unfold Agent_OnLoad. destruct s; cbn in *. by rewrite H. Qed.

Lemma wp_OnUnload s a (Q : unit -> process -> Prop) :
  loaded s a ->
  (forall s', agent s' = None -> instance_ s' = instance_ s -> attached s' = true ->
     cells (profilers s') !! profiler_ a = None -> Q tt s') ->
  wp Agent_OnUnload s Q.
Proof.
  intros (Hat & Ha & Hi & [p Hp]) HQ. unfold Agent_OnUnload, reset_agent, wp.
  rewrite run_bind. cbn [run reads act res_bind]. rewrite Ha.
  rewrite run_bind, run_zoom. cbn [run modify act res_in res_bind agent_L lget lset].
  unfold destroy_agent. rewrite run_bind, run_zoom. cbn [lget profilers_L profilers].
  rewrite (run_at_ptr (profiler_ a) stop _ p Hp). cbn [run stop modify act res_at res_in res_bind lset].
  unfold delete_profiler. rewrite run_zoom. cbn [run act lget profilers_L profilers].
  cbn [lset profilers_L profilers hput cells]. rewrite lookup_insert_eq. cbn [res_in lset profilers_L].
  apply HQ; [done|done|done|]. cbn. apply lookup_delete_eq.
Qed.

(** C29: loading, loading again, unloading, one after the other.  Loading with
    options that parse, when the JVM interface can be constructed, sets up the
    profiler, idle, and the instrumentation with the parsed settings; loading
    again does nothing, whatever the options and the outcome of that
    construction; and unloading the agent then returns, after which the calls
    of the instrumented application and the garbage collection events change
    nothing. *)
Theorem agent_lifecycle cwd jvm o opts path j :
  o <> [] -> ArgsParser.parseProfilerOptions cwd o = Some (inr opts) ->
  ArgsParser.output_path opts = Some path ->
  wp (Agent_OnLoad cwd (inr jvm) (Some o)) (make_process j) (fun r s => r = 0 /\
    (exists a, loaded s a /\ cells (profilers s) !! profiler_ a = Some (make_profiler jvm) /\
       instrumentation_ a = MkInstrumentation opts None /\
       threshold_ (agent_settings a) = ArgsParser.threshold opts) /\
    (forall cwd' construct' o', wp (Agent_OnLoad cwd' construct' o') s (fun r s' => r = 0 /\ s' = s)) /\
    wp Agent_OnUnload s (fun _ s' =>
      forall f, wp (with_profiler f) s' (fun _ s'' => s'' = s'))).
Proof.
  intros Ho Hp Hpath. eapply wp_OnLoad; [done..|]. intros a s Hl _ Hin Hprof Hset.
  split; [done|]. split; [exists a; by rewrite Hset|]. split.
  - intros cwd' construct' o'. unfold wp. rewrite run_OnLoad_again by (by destruct Hl). done.
  - eapply wp_OnUnload; [exact Hl|]. intros s' Hnone _ _ _ f.
    unfold with_profiler. apply wp_bind, wp_reads. rewrite Hnone. by apply wp_ret.
Qed.

Lemma loaded_exit s a :
  loaded s a ->
  run exit_process s = Undef "double free" /\
  run (Agent_OnUnload;; exit_process) s = Undef "double free".
Proof.
  intros Hl. assert (Hi : instance_ s = Some (profiler_ a)) by apply Hl.
  assert (Hexit : forall s', agent s' = None -> instance_ s' = instance_ s ->
    cells (profilers s') !! profiler_ a = None ->
    run (p ← reads instance_; delete_profiler p) s' = Undef "double free").
  { intros s' _ Hi' Hgone. rewrite run_bind. cbn [run reads act res_bind]. rewrite Hi', Hi.
    unfold delete_profiler. rewrite run_zoom. cbn [run act lget profilers_L]. by rewrite Hgone. }
  assert (Hun : wp Agent_OnUnload s (fun _ s' => agent s' = None /\ instance_ s' = instance_ s /\
    cells (profilers s') !! profiler_ a = None)).
  { eapply wp_OnUnload; [exact Hl|]. intros s' H1 H2 _ H4. done. }
  apply wp_elim in Hun as ([] & s' & Hrun & H1 & H2 & H3). unfold Agent_OnUnload in Hrun. split.
  - unfold exit_process. rewrite run_bind, Hrun. cbn [res_bind]. by apply Hexit.
  - unfold Agent_OnUnload, exit_process. rewrite run_bind, Hrun. cbn [res_bind].
    rewrite run_bind. unfold reset_agent. rewrite run_bind. cbn [run reads act res_bind].
    rewrite H1. cbn [run mret prog_ret res_bind]. by apply Hexit.
Qed.

(** C40: the profiler is destroyed twice.  [Profiler::create] keeps the
    profiler it makes in [Profiler::instance_] and returns the same object, of
    which the agent takes ownership.  So after the agent has been loaded into a
    fresh process, with options that parse and a JVM interface that could be
    constructed, the process destroys the profiler a
    second time when it exits, whether the agent was unloaded before or not. *)
Theorem exit_double_free cwd jvm o opts path j :
  o <> [] -> ArgsParser.parseProfilerOptions cwd o = Some (inr opts) ->
  ArgsParser.output_path opts = Some path ->
  wp (Agent_OnLoad cwd (inr jvm) (Some o)) (make_process j) (fun _ s =>
    run exit_process s = Undef "double free" /\
    run (Agent_OnUnload;; exit_process) s = Undef "double free").
Proof. intros Ho Hp Hpath. eapply wp_OnLoad; [done..|]. eauto using loaded_exit. Qed.

(** A load that fails is not repeated: the flag stays set. *)
Lemma failed_load_not_repeated cwd construct construct' o' j :
  exists s e, run (Agent_OnLoad cwd construct (Some [])) (make_process j) = Exc e s /\
    run (Agent_OnLoad cwd construct' o') s = Val 0 s /\ agent s = None.
Proof. by eexists _, _. Qed.

(** ** Initialisation *)

(** [xwp p s Q R]: [p] returns with [Q], or throws a [runtime_error] in a
    state that satisfies [R]. *)
Definition xwp {A} (p : prog process A) (s : process) (Q : A -> process -> Prop)
    (R : process -> Prop) : Prop :=
  match run p s with
  | Val a s' => Q a s'
  | Exc e s' => (exists what, e = Runtime_error what) /\ R s'
  | Undef _ => False
  end.

Lemma xwp_bind {A B} (p : prog process A) (g : A -> prog process B) s Q R :
  xwp p s (fun a s' => xwp (g a) s' Q R) R -> xwp (p ≫= g) s Q R.
Proof. unfold xwp. rewrite run_bind. by destruct (run p s). Qed.

Lemma xwp_mono {A} (p : prog process A) s (Q Q' : A -> process -> Prop) (R R' : process -> Prop) :
  (forall a s', Q a s' -> Q' a s') -> (forall s', R s' -> R' s') -> xwp p s Q R -> xwp p s Q' R'.
Proof. unfold xwp. destruct (run p s); [eauto| |done]. intros _ HR [H1 H2]. eauto. Qed.

Lemma xwp_jni {A} (p : prog J A) s (Q : A -> process -> Prop) (R : process -> Prop) :
  jwp p (p_jni s) (fun a j => Q a (lset jni_L j s)) ->
  (forall j, ExceptionCheck j = false -> R (lset jni_L j s)) ->
  xwp (zoom jni_L p) s Q R.
Proof.
  unfold xwp, jwp. rewrite run_zoom. cbn [lget jni_L]. destruct (run p (p_jni s)); cbn [res_in]; [done| |done].
  intros [He Hj] HR. split; [done|]. by apply HR.
Qed.

Lemma jwp_install_probes j :
  ExceptionCheck j = false -> jwp install_probes j (fun _ j' => ExceptionCheck j' = false).
Proof using JL.
  intros _. unfold install_probes.
  apply jwp_checked. intros c j1 _ H1. apply jwp_bind, jwp_throw_if; [done|]. intros _.
  apply jwp_checked. intros mt j2 _ H2. apply jwp_bind, jwp_throw_if; [done|]. intros _.
  apply jwp_checked. intros f j3 _ H3. apply jwp_bind, jwp_throw_if; [done|]. intros _.
  apply jwp_checked. intros i j4 _ H4. apply jwp_bind, jwp_throw_if; [done|]. intros _.
  apply jwp_checked_. intros H5. by apply jwp_ret.
Qed.

(** JVMTI's questions about classes raise no Java exception. *)
Class ClassLaws := {
  loaded_law j r j' : GetLoadedClasses j = (r, j') -> ExceptionCheck j' = ExceptionCheck j;
  methods_law c j : ExceptionCheck (GetClassMethods c j) = ExceptionCheck j;
}.

Lemma jwp_initializeMethodIds `{CLs : !ClassLaws} j cs :
  (GetLoadedClasses j).1 = Some cs -> ExceptionCheck j = false ->
  jwp initializeMethodIds j (fun _ j' => ExceptionCheck j' = false).
Proof.
  intros Hcs Hj. unfold initializeMethodIds. apply jwp_bind, jwp_call. intros r j1 H1.
  rewrite H1 in Hcs. cbn [fst] in Hcs. subst r. apply loaded_law in H1. rewrite Hj in H1.
  clear Hj j. revert j1 H1. induction cs as [|c cs IH]; intros j Hj.
  - by apply jwp_ret.
  - cbn [for_each]. apply jwp_bind. unfold loadMethodsId, jwp at 1. cbn [run call_ modify act].
    apply IH. by rewrite methods_law.
Qed.

(** Between [attachThread] and [dettachThread] the thread has an environment,
    and the others keep theirs. *)
Lemma attached_thread_has_env `{JV : !JavaVMLaws JN} self j :
  wp (attachThread self;; e ← getJNIEnv self; dettachThread self;; mret e) j (fun e j' =>
    is_Some e /\ GetEnv self j' = None /\ forall other, other <> self -> GetEnv other j' = GetEnv other j).
Proof.
  unfold attachThread, getJNIEnv, dettachThread, wp. cbn. split; [apply attach_law|]. split; [apply detach_law|].
  intros other Ho. by rewrite detach_others, attach_others.
Qed.

Definition profiler_of (s : process) (a : Agent) : option Profiler := cells (profilers s) !! profiler_ a.

(** C30: initialisation starts the profiler last.  The agent is loaded, its
    profiler idle, and no exception is pending.  When JVMTI lists the loaded
    classes: if [VMInit] returns, the instrumentation knows the Java side and
    the profiler is started; otherwise it throws a [runtime_error], the
    profiler has not been started, and no Java exception is left pending.  When
    JVMTI fails to list them, [VMInit] goes on with a pointer it has not
    initialised, which is undefined. *)
Theorem vm_init_starts_last `{CLs : !ClassLaws} absolute cwd s a p :
  agent s = Some a -> profiler_of s a = Some p -> prof_active p = false ->
  ExceptionCheck (p_jni s) = false ->
  match (GetLoadedClasses (p_jni s)).1 with
  | Some _ =>
      xwp (VMInit absolute cwd) s
        (fun _ s' => ExceptionCheck (p_jni s') = false /\
           (exists a', agent s' = Some a' /\ profiler_ a' = profiler_ a /\
              is_Some (instrumentation_metadata_ (instrumentation_ a'))) /\
           profiler_of s' a = Some (lset prof_active_L true p))
        (fun s' => ExceptionCheck (p_jni s') = false /\ profiler_of s' a = Some p)
  | None => run (VMInit absolute cwd) s = Undef "use of an uninitialised pointer"
  end.
Proof using JL.
  intros Ha Hp Hoff Hj. destruct (GetLoadedClasses (p_jni s)).1 as [cs|] eqn:Hcs.
  2: { unfold VMInit, the_agent. rewrite !run_bind. cbn [run reads act res_bind]. rewrite Ha.
       cbn [run mret prog_ret res_bind]. rewrite run_bind, run_zoom. cbn [lget jni_L].
       unfold initializeMethodIds. rewrite run_bind. cbn [run call act].
       destruct (GetLoadedClasses (p_jni s)) as [r j']. cbn [fst] in Hcs. by rewrite Hcs. }
  unfold VMInit, the_agent.
  apply xwp_bind, xwp_bind. unfold xwp at 1. cbn [run reads act]. rewrite Ha. unfold xwp at 1. cbn [run mret prog_ret].
  apply xwp_bind, xwp_jni; [|by intros j' Hj'].
  eapply jwp_mono; [|by eapply jwp_initializeMethodIds]. intros [] j1 Hj1.
  apply xwp_bind, xwp_jni; [|by intros j' Hj']. cbn [p_jni lset jni_L].
  eapply jwp_mono; [|by apply load_clean]. intros md j2 Hj2.
  apply xwp_bind. unfold set_metadata, xwp at 1. rewrite run_zoom.
  cbn [run modify act lget agent_L agent lset jni_L res_in].
  apply xwp_bind, xwp_jni; [|by intros j' Hj']. cbn [p_jni].
  eapply jwp_mono; [|by apply jwp_install_probes]. intros [] j3 Hj3.
  apply xwp_bind. unfold xwp at 1. rewrite run_zoom. cbn [lget lset profilers_L jni_L profilers].
  unfold profiler_of in Hp. rewrite (run_at_ptr _ startProfiler _ p Hp).
  cbn [run startProfiler act res_at res_in]. unfold xwp. cbn [run mret prog_ret].
  split; [done|]. split.
  - rewrite Ha. cbn. eexists. split; [done|]. split; [done|]. by eexists.
  - unfold profiler_of. cbn. apply lookup_insert_eq.
Qed.
End spec.

(** ** The constructor of the JVM interface *)

Section construct.
Context (m : mem) (getVariableAddress : string -> Z).

(** The state after [init]: only the variables are set. *)
Definition initialised : vm := set_vars m getVariableAddress init_variables make_vm.

Lemma initialised_wf : vm_wf initialised.
Proof.
  unfold initialised. generalize init_variables as names. intros names.
  assert (H : forall s, vm_structs_ s = ∅ -> field_maps s = heap_empty ->
    vm_structs_ (set_vars m getVariableAddress names s) = ∅ /\
    field_maps (set_vars m getVariableAddress names s) = heap_empty).
  { induction names as [|n names IH]; intros s H1 H2; [done|]. by apply IH. }
  destruct (H make_vm eq_refl eq_refl) as [H1 H2].
  split; rewrite ?H1, ?H2; [apply heap_wf_empty|by intros ? ? ?|by intros ? ? ? ?].
Qed.

Lemma initialised_types t : types_ (initialised) !! t = None.
Proof.
  unfold initialised. generalize init_variables as names. intros names.
  assert (H : forall s, types_ s = ∅ -> types_ (set_vars m getVariableAddress names s) = ∅).
  { induction names as [|n names IH]; intros s H1; [done|]. by apply IH. }
  by rewrite (H make_vm eq_refl), lookup_empty.
Qed.

Lemma initialised_fields t f : find_field initialised t f = None.
Proof.
  unfold find_field. destruct (vm_structs_ initialised !! t) as [p|] eqn:E; [|done].
  exfalso. revert E. unfold initialised. generalize init_variables as names. intros names.
  assert (H : forall s, vm_structs_ s = ∅ -> vm_structs_ (set_vars m getVariableAddress names s) = ∅).
  { induction names as [|n names IH]; intros s H1; [done|]. by apply IH. }
  by rewrite (H make_vm eq_refl), lookup_empty.
Qed.

(** The offset the table of fields gives a field. *)
Definition row_offset_of (rows : list struct_row) (type name : string) : Z :=
  default 0 (offset <$> first_row rows type name).

Definition compiled_in (types : list type_row) : string :=
  compiled_type (bool_decide ("CompiledMethod" ∈ types.*1)).

(** The calls the constructor makes to JVMTI, in order. *)
Definition subscription (callbacks : list string) : list jvmti_call :=
  [AddCapabilities capabilities; SetEventCallbacks callbacks] ++
  (SetEventNotificationMode true <$> enabled_events).

Lemma run_jvmti answer c b :
  run (jvmti answer c) b = Val (answer (jvmti_calls b) c) (MkBuilding (jvmti_calls b ++ [c]) (b_vm b)).
Proof. unfold jvmti. by rewrite run_zoom. Qed.

Lemma run_subscribe answer events b :
  run (for_each events (fun e => jvmti answer (SetEventNotificationMode true e);; mret tt)) b =
  Val tt (MkBuilding (jvmti_calls b ++ (SetEventNotificationMode true <$> events)) (b_vm b)).
Proof.
  revert b; induction events as [|e events IH]; intros [l v]; cbn [for_each].
  - by rewrite app_nil_r.
  - rewrite run_bind, run_bind, run_jvmti. cbn [res_bind]. rewrite run_ret. cbn [res_bind].
    rewrite IH. cbn [jvmti_calls b_vm fmap list_fmap]. by rewrite <- (assoc_L (++)).
Qed.

(** Without the capabilities nothing else is asked, and nothing is read. *)
Lemma construct_jvm_refused answer callbacks b :
  answer (jvmti_calls b) (AddCapabilities capabilities) <> 0 ->
  run (construct_jvm m getVariableAddress true answer callbacks) b =
    Exc (Runtime_error "Error adding capabilities")
      (MkBuilding (jvmti_calls b ++ [AddCapabilities capabilities]) (b_vm b)).
Proof.
  intros Ha. unfold construct_jvm. rewrite run_bind, run_ret. cbn [res_bind].
  rewrite run_bind, run_jvmti. cbn [res_bind]. by rewrite (proj2 (Z.eqb_neq _ _) Ha).
Qed.

(** With them, the subscriptions come first, whatever JVMTI answers. *)
Lemma wp_construct_jvm answer callbacks v (Q : JVMCodeCache -> building -> Prop) :
  answer [] (AddCapabilities capabilities) = 0 ->
  wp (init m getVariableAddress;; resolveVMStructs m;; resolveVMTypes m;; make_code_cache m) v
    (fun cc v' => Q cc (MkBuilding (subscription callbacks) v')) ->
  wp (construct_jvm m getVariableAddress true answer callbacks) (MkBuilding [] v) Q.
Proof.
  intros Ha HQ. unfold construct_jvm. apply wp_bind, wp_ret, wp_bind.
  eapply wp_run; [apply run_jvmti|]. cbn [jvmti_calls b_vm]. rewrite Ha. apply wp_bind, wp_ret, wp_bind.
  eapply wp_run; [apply run_jvmti|]. apply wp_bind. eapply wp_run; [apply run_subscribe|].
  apply wp_zoom. exact HQ.
Qed.

(** C23: the JVM interface is built from HotSpot's own tables.  When JVMTI
    grants the capabilities, libjvm exports every variable and its two tables,
    of any length, describe every type and field that is needed, the
    constructor makes its calls to JVMTI, the callbacks and then one
    subscription after the other, whatever they answer, and returns a code
    cache: each of its fields is the offset of the first matching row for that
    field, compiled code being described under the name this JVM uses; the
    array of code heaps is found through the static field [CodeCache::_heaps];
    and the size of a heap block's header is the one the table of types gives. *)
Theorem construct_jvm_reads_layout answer callbacks rows types heaps data :
  answer [] (AddCapabilities capabilities) = 0 ->
  Forall (found m getVariableAddress) init_variables ->
  struct_table m initialised (var "gHotSpotVMStructs" initialised) rows ->
  type_table m initialised (var "gHotSpotVMTypes" initialised) types ->
  Z.of_nat (length rows) < 2 ^ 64 -> Z.of_nat (length types) < 2 ^ 64 ->
  (forall type name, (type, name) ∈ (compiled_in types, "_method") :: required_fields ->
     type ∈ types.*1 /\ is_Some (first_row rows type name)) ->
  "HeapBlock" ∈ types.*1 ->
  load64 m (row_offset_of rows "CodeCache" "_heaps") = Some heaps ->
  load64 m (u64 (heaps + row_offset_of rows "GrowableArray<int>" "_data")) = Some data ->
  wp (construct_jvm m getVariableAddress true answer callbacks) (MkBuilding [] make_vm) (fun cc b =>
    jvmti_calls b = subscription callbacks /\
    exists block, ("HeapBlock", block) ∈ types /\
      cc = layout_cache (row_offset_of rows) (compiled_in types) heaps data (vt_size block)).
Proof.
  intros Ha Hf Hrows Htypes Hl1 Hl2 Hreq Hblock Hh Hd. apply wp_construct_jvm; [done|].
  apply wp_bind. eapply wp_run; [by apply run_get_variables|]. fold initialised.
  apply wp_bind. eapply (wp_resolveVMStructs m _ rows); [apply initialised_wf|done|done|].
  intros s1 _ Hv1 Ht1 Hf1.
  assert (Hvar : forall n, var n s1 = var n initialised) by (intros n; unfold var; by rewrite Hv1).
  apply wp_bind. eapply wp_mono; [|apply (wp_resolveVMTypes m s1 types); [|done]].
  2: { rewrite Hvar. by apply (type_table_vars m initialised). }
  intros [] s2 (_ & Hfields & Hin & Hout).
  assert (Htf : forall t f, t ∈ types.*1 -> type_field s2 t f = first_row rows t f).
  { intros t f Ht. rewrite Hfields, Hf1, initialised_fields by done. done. }
  assert (Hname : compiled_name s2 = compiled_in types).
  { unfold compiled_name, compiled_in. f_equal. apply bool_decide_ext. split.
    - intros Hs. destruct (decide ("CompiledMethod" ∈ types.*1)) as [|Hn]; [done|].
      rewrite (Hout _ Hn), Ht1 in Hs. exfalso. revert Hs. apply eq_None_not_Some, initialised_types.
    - intros Ht. destruct (Hin _ Ht) as (d & r & _ & -> & _). by eexists. }
  assert (Hoff : forall t f, (t, f) ∈ (compiled_in types, "_method") :: required_fields ->
    offset_of s2 t f = row_offset_of rows t f).
  { intros t f Ht. destruct (Hreq _ _ Ht) as [Ht' _]. unfold offset_of, row_offset_of. by rewrite Htf. }
  destruct (Hin _ Hblock) as (block & r & Hr & Hb & Hsz).
  eapply wp_mono; [|apply (wp_make_code_cache m s2 heaps data block)].
  - intros cc s3 [_ ->]. split; [done|]. exists r. split; [done|]. unfold layout_cache.
    rewrite Hname, Hsz, !Hoff by in_list. done.
  - intros t f Ht. rewrite Hname in Ht. destruct (Hreq _ _ Ht) as [H1 H2]. by rewrite Htf.
  - done.
  - rewrite Hoff by in_list. done.
  - rewrite Hoff by in_list. done.
Qed.
End construct.

(** ** A small libjvm *)

Definition name_words (s : string) : list Z :=
  let bs := bytes_of_string s ++ replicate 32 0 in
  (fun i => foldr (fun b w => b + 256 * w) 0 (take 8 (drop (8 * i) bs))) <$> [0; 1; 2; 3]%nat.

Definition lib_fields : list (string * string) := ("nmethod", "_method") :: required_fields.
Definition lib_types : list string := "HeapBlock" :: lib_fields.*1.
Definition lib_names : list string := lib_types ++ lib_fields.*2.

Definition name_at (s : string) : Z :=
  match list_find (eq s) lib_names with Some (i, _) => 4096 + 32 * Z.of_nat i | None => 0 end.

(** [CodeCache::_heaps] is static, at 40000; the other fields have different
    offsets. *)
Definition lib_offset (f : string * string) : Z :=
  match list_find (eq f) lib_fields with Some (i, _) => 8 * (Z.of_nat i + 1) | None => 0 end.
Definition lib_row (f : string * string) : struct_row :=
  let static := bool_decide (f = ("CodeCache", "_heaps")) in
  MkRow f.1 f.2 (if static then 1 else 0) (if static then 0 else lib_offset f)
    (if static then 40000 else 0) (name_at f.1) (name_at f.2) 0.
Definition lib_type (t : string) : type_row := (t, MkVMType (name_at t) 0 0 0 0 8 None).

Definition lib_variable (name : string) : Z :=
  match list_find (eq name) init_variables with Some (i, _) => 32768 + 8 * Z.of_nat i | None => 0 end.

Definition lib_value (name : string) : Z := default 0 (list_to_map (M := gmap string Z)
  [("gHotSpotVMStructs", 16384); ("gHotSpotVMTypes", 24576);
   ("gHotSpotVMStructEntryFieldNameOffset", 8); ("gHotSpotVMStructEntryTypeStringOffset", 16);
   ("gHotSpotVMStructEntryIsStaticOffset", 24); ("gHotSpotVMStructEntryOffsetOffset", 32);
   ("gHotSpotVMStructEntryAddressOffset", 40); ("gHotSpotVMStructEntryArrayStride", 48);
   ("gHotSpotVMTypeEntrySuperclassNameOffset", 8); ("gHotSpotVMTypeEntryIsOopTypeOffset", 16);
   ("gHotSpotVMTypeEntryIsIntegerTypeOffset", 24); ("gHotSpotVMTypeEntryIsUnsignedOffset", 32);
   ("gHotSpotVMTypeEntrySizeOffset", 40); ("gHotSpotVMTypeEntryArrayStride", 48)] !! name).

Definition lib_words : list (Z * list Z) := Eval vm_compute in
  [(4096, lib_names ≫= name_words);
   (16384, (lib_row <$> lib_fields) ≫= (fun r =>
      [row_type_ptr r; row_field_ptr r; 0; row_static r; row_offset r; row_address r]));
   (24576, (lib_type <$> lib_types) ≫= (fun r => [typeName r.2; 0; 0; 0; 0; vt_size r.2]));
   (32768, lib_value <$> init_variables);
   (40000, [40008] ++ replicate 14 0 ++ [77])].

Definition lib_memory : mem := words_memory lib_words.
Definition lib_rows : list struct_row := Eval vm_compute in lib_row <$> lib_fields.
Definition lib_type_rows : list type_row := Eval vm_compute in lib_type <$> lib_types.

Lemma lib_values :
  Forall (fun n => lib_variable n <> 0 /\ load64 lib_memory (lib_variable n) = Some (lib_value n))
    init_variables.
Proof.
  unfold init_variables. repeat (constructor; [split; [vm_compute; discriminate|vm_compute; reflexivity]|]). constructor.
Qed.

Definition lib_vm : vm :=
  foldl (fun s n => set_var n (lib_value n) s) make_vm init_variables.

Lemma lib_vm_initialised : initialised lib_memory lib_variable = lib_vm.
Proof.
  unfold initialised, lib_vm. generalize make_vm as s. pose proof lib_values as H. revert H.
  generalize init_variables as names. induction names as [|n names IH]; intros H s; [done|].
  apply list.Forall_cons in H as [[_ Hn] Hns]. cbn [set_vars foldl]. unfold value at 2.
  rewrite Hn. by apply IH.
Qed.

Lemma lib_struct_table :
  struct_table lib_memory (initialised lib_memory lib_variable) 16384 lib_rows.
Proof.
  rewrite lib_vm_initialised. unfold lib_rows.
  repeat (apply struct_table_row; [split; vm_compute; first [reflexivity | by split]|]).
  by eapply struct_table_end; [vm_compute; reflexivity|vm_compute; reflexivity|left].
Qed.

Lemma lib_type_table :
  type_table lib_memory (initialised lib_memory lib_variable) 24576 lib_type_rows.
Proof.
  rewrite lib_vm_initialised. unfold lib_type_rows.
  repeat (apply type_table_row; [split; vm_compute; first [reflexivity | by split]|]).
  apply type_table_end. vm_compute; reflexivity.
Qed.

(** A virtual machine that grants the capabilities and refuses the event that
    needs another one, which the constructor does not notice. *)
Definition lib_answer (before : list jvmti_call) (c : jvmti_call) : Z :=
  if decide (c = SetEventNotificationMode true "COMPILED_METHOD_LOAD") then 99 else 0.

Lemma construct_jvm_reads_layout_witness :
  wp (construct_jvm lib_memory lib_variable true lib_answer agent_callbacks)
    (MkBuilding [] make_vm) (fun cc b => length (jvmti_calls b) = 11%nat /\
      cc = MkCache 8 16 24 32 40 48 56 64 72 80 88 96 40008 77 40128 8).
Proof.
  eapply wp_mono; [|apply (construct_jvm_reads_layout lib_memory lib_variable lib_answer
    agent_callbacks lib_rows lib_type_rows 40008 77)].
  - intros cc b (-> & block & Hin & ->). split; [done|].
    assert (H : Forall (fun r => vt_size r.2 = 8) lib_type_rows) by (repeat constructor).
    rewrite list.Forall_forall in H. specialize (H _ Hin). cbn [snd] in H. rewrite H.
    vm_compute. reflexivity.
  - by vm_compute.
  - eapply list.Forall_impl; [exact lib_values|]. intros n [H1 H2]. split; [done|by eexists].
  - rewrite lib_vm_initialised at 2. exact lib_struct_table.
  - rewrite lib_vm_initialised at 2. exact lib_type_table.
  - done.
  - done.
  - intros type name Hin.
    assert (H : Forall (fun tn => tn.1 ∈ lib_type_rows.*1 /\ is_Some (first_row lib_rows tn.1 tn.2))
                  ((compiled_in lib_type_rows, "_method") :: required_fields)).
    { change (compiled_in lib_type_rows) with "nmethod".
      repeat (constructor; [split; [in_list|by eexists]|]). constructor. }
    rewrite list.Forall_forall in H. exact (H (type, name) Hin).
  - in_list.
  - vm_compute; reflexivity.
  - vm_compute; reflexivity.
Defined.

(** ** An agent *)

#[local] Existing Instance demo_jni.
#[local] Existing Instance demo_jni_laws.

#[local] Instance demo_class_laws : ClassLaws.
Proof. split; [by intros j r j' [= <- <-]|done]. Qed.

Definition demo_cmdline : list ascii := String.list_ascii_of_string "method=io/A.run,threshold=10".

Definition demo_parsed : ArgsParser.ProfilerOptions := {|
  ArgsParser.class_name := Some (String.list_ascii_of_string "io/A");
  ArgsParser.method_name := Some (String.list_ascii_of_string "run");
  ArgsParser.profiling_period := 1000000;
  ArgsParser.threshold := 10000000;
  ArgsParser.jar_path := None;
  ArgsParser.output_path := Some (String.list_ascii_of_string "/w");
|}.

Definition demo_jvm_state : J (JNI := demo_jni) := MkJ false ∅ ∅ 100 ∅.

Lemma agent_lifecycle_witness :
  wp (Agent_OnLoad (String.list_ascii_of_string "/w") (inr make_jvm) (Some demo_cmdline))
    (make_process demo_jvm_state) (fun r s => exists a, loaded s a /\
      threshold_ (agent_settings a) = 10000000).
Proof.
  assert (Hp : ArgsParser.parseProfilerOptions (String.list_ascii_of_string "/w") demo_cmdline
    = Some (inr demo_parsed)) by (vm_compute; reflexivity).
  refine (wp_mono _ _ _ _ _ (agent_lifecycle (JN := demo_jni) (String.list_ascii_of_string "/w") make_jvm
    demo_cmdline demo_parsed (String.list_ascii_of_string "/w") demo_jvm_state _ Hp eq_refl));
    [|discriminate].
  intros r s (_ & (a & Hl & _ & _ & Ht) & _). exists a. split; [exact Hl|]. exact Ht.
Defined.

Definition demo_agent : Agent :=
  MkAgent 0 (MkSettings 10000000 1000000 "/w") (MkInstrumentation demo_parsed None).

Definition demo_loaded : process :=
  MkProcess demo_jvm_state true (Some demo_agent) (Some 0%nat)
    (Heap {[ 0%nat := make_profiler make_jvm ]} 1).

Lemma exit_double_free_witness :
  wp (Agent_OnLoad (String.list_ascii_of_string "/w") (inr make_jvm) (Some demo_cmdline))
    (make_process demo_jvm_state) (fun _ s => run exit_process s = Undef "double free").
Proof.
  assert (Hp : ArgsParser.parseProfilerOptions (String.list_ascii_of_string "/w") demo_cmdline
    = Some (inr demo_parsed)) by (vm_compute; reflexivity).
  refine (wp_mono _ _ _ _ _ (exit_double_free (JN := demo_jni) (String.list_ascii_of_string "/w") make_jvm
    demo_cmdline demo_parsed (String.list_ascii_of_string "/w") demo_jvm_state _ Hp eq_refl));
    [|discriminate].
  by intros r s [H _].
Defined.

Lemma vm_init_starts_last_witness :
  xwp (VMInit (fun p => p) []) demo_loaded
    (fun _ s' => prof_active <$> profiler_of s' demo_agent = Some true) (fun _ => True).
Proof.
  pose proof (vm_init_starts_last (JN := demo_jni) (fun p => p) [] demo_loaded demo_agent
    (make_profiler make_jvm) eq_refl eq_refl eq_refl eq_refl) as H.
  assert (Hl : (GetLoadedClasses (JNI := demo_jni) (p_jni demo_loaded)).1 = Some []) by reflexivity.
  rewrite Hl in H. eapply xwp_mono; [| |exact H]; [|done].
  intros a s' (_ & _ & H'). rewrite H'. reflexivity.
Defined.
