(* ===== verification/Interleaving.v ===== *)
(** * Interleaved threads: rely and guarantee

    A thread holds tokens of a type [W]: objects it has not published yet, or
    the exclusive right to some operations.  [rely w] is what the other threads
    may do to the state while it holds [w], [holds w] what is true in between.
    [rgs p w s Q] says that the program [p], in any environment that keeps to
    [rely], neither throws nor is undefined, does to the others only what they
    rely on, and returns with [Q].  [threads_safe] composes threads proved one
    at a time, and [tstep_terminates] shows that their executions end.
    A fact is [stable] when every thread keeps it, whatever it holds. *)

From S2P Require Import Prelude.
From Stdlib Require Import ZArith Lia.
From stdpp Require Import base list relations.

Class Interference (S W : Type) := {
  rely : W -> S -> S -> Prop;
  holds : W -> S -> Prop;
  disj : W -> W -> Prop;
  same_rights : W -> W -> Prop;
  idle : W;
}.

Class InterferenceLaws (S W : Type) `{Interference S W} := {
  rely_refl (w : W) : Reflexive (rely (S:=S) w);
  rely_trans (w : W) : Transitive (rely (S:=S) w);
  disj_sym (w u : W) : disj (S:=S) w u -> disj (S:=S) u w;
  rights_preorder : PreOrder (same_rights (S:=S) (W:=W));
  rely_idle (w : W) (s s' : S) : rely w s s' -> rely idle s s';
  holds_idle (w : W) (s : S) : holds w s -> holds idle s;
  disj_idle (w : W) : disj (S:=S) w idle;
}.
#[export] Existing Instance rely_refl.
#[export] Existing Instance rely_trans.
#[export] Existing Instance rights_preorder.

Section rg.
Context {S W : Type} `{I : Interference S W} {L : InterferenceLaws S W}.
Implicit Types (s : S) (w u : W).

(** An action of a thread that had [w] and has [w'] afterwards. *)
Definition guarantee w w' s s' : Prop :=
  holds w' s' /\ same_rights (S:=S) w w' /\
  forall u, disj (S:=S) w u -> holds u s -> rely u s s' /\ holds u s' /\ disj (S:=S) w' u.

Fixpoint rgs {A} (p : prog S A) w s (Q : A -> W -> S -> Prop) : Prop :=
  forall s1, rely w s s1 -> holds w s1 ->
  match p with
  | Ret a => Q a w s1
  | Atomic c f k =>
      c s1 = false /\
      match f s1 with
      | Val b s2 => exists w', guarantee w w' s1 s2 /\ rgs (k b) w' s2 Q
      | _ => False
      end
  end.

(** ** Rules *)

Lemma rgs_intro {A} (p : prog S A) w s Q :
  (forall s1, rely w s s1 -> holds w s1 -> rgs p w s1 Q) -> rgs p w s Q.
Proof using L.
  intros H. destruct p as [a|B c f k]; intros s1 Hr Hh; apply (H s1 Hr Hh s1); done.
Qed.

Lemma rgs_rely {A} (p : prog S A) w s s1 Q : rely w s s1 -> rgs p w s Q -> rgs p w s1 Q.
Proof using L.
  intros Hr H. destruct p as [a|B c f k]; intros s2 Hr2 Hh; apply (H s2); try done; by etrans.
Qed.

Lemma rgs_ret {A} (a : A) w s (Q : A -> W -> S -> Prop) :
  (forall s1, rely w s s1 -> holds w s1 -> Q a w s1) -> rgs (mret a) w s Q.
Proof. done. Qed.

Lemma rgs_mono {A} (p : prog S A) w s (Q Q' : A -> W -> S -> Prop) :
  (forall a w' s', Q a w' s' -> Q' a w' s') -> rgs p w s Q -> rgs p w s Q'.
Proof.
  intros HQ. revert w s. induction p as [a|B c f k IH]; intros w s H s1 Hr Hh.
  - by apply HQ, H.
  - specialize (H s1 Hr Hh). simpl in H |- *. destruct H as [Hc H]. split; [done|]. destruct (f s1) as [b s2| |]; [|done..].
    destruct H as (w' & Hg & H). exists w'. split; [done|]. by apply IH.
Qed.

Lemma rgs_bind {A B} (p : prog S A) (g : A -> prog S B) w s Q :
  rgs p w s (fun a w' s' => rgs (g a) w' s' Q) -> rgs (p ≫= g) w s Q.
Proof using L.
  unfold mbind, prog_mbind. revert w s. induction p as [a|C c f k IH]; intros w s H; simpl.
  - by apply rgs_intro.
  - intros s1 Hr Hh. specialize (H s1 Hr Hh). simpl in H |- *. destruct H as [Hc H]. split; [done|]. destruct (f s1) as [b s2| |]; [|done..].
    destruct H as (w' & Hg & H). exists w'. split; [done|]. by apply IH.
Qed.

Lemma rgs_zoom_bind {T A B} (Z : Lens S T) (p : prog T A) (g : A -> prog T B) w s Q :
  rgs (zoom Z p) w s (fun a w' s' => rgs (zoom Z (g a)) w' s' Q) -> rgs (zoom Z (p ≫= g)) w s Q.
Proof using L.
  unfold mbind, prog_mbind. revert w s. induction p as [a|C c f k IH]; intros w s H; simpl.
  - by apply rgs_intro.
  - intros s1 Hr Hh. specialize (H s1 Hr Hh). simpl in H |- *.
    destruct H as [Hc H]. split; [done|]. destruct (res_in Z s1 (f (lget Z s1))) as [b s2| |]; [|done..].
    destruct H as (w' & Hg & H). exists w'. split; [done|]. by apply IH.
Qed.

Lemma rgs_assoc {A B C} (p : prog S A) (f : A -> prog S B) (g : B -> prog S C) w s Q :
  rgs (p ≫= fun a => f a ≫= g) w s Q -> rgs ((p ≫= f) ≫= g) w s Q.
Proof.
  unfold mbind, prog_mbind. revert w s. induction p as [a|D c h k IH]; intros w s H; simpl; [done|].
  intros s1 Hr Hh. specialize (H s1 Hr Hh). simpl in H |- *. destruct H as [Hc H]. split; [done|]. destruct (h s1) as [b s2| |]; [|done..].
  destruct H as (w' & Hg & H). exists w'. split; [done|]. by apply IH.
Qed.

(** Programs of one action, and the rule for them; [single] ones are guarded in
    every state. *)
Definition one_action {A} (p : prog S A) : Prop :=
  match p with Ret _ => False | Atomic c f k => forall b, exists a, k b = Ret a end.

Definition single {A} (p : prog S A) : Prop := one_action p /\ forall s, unguarded p s = false.

Lemma rgs_one_action {A} (p : prog S A) w s (Q : A -> W -> S -> Prop) :
  one_action p ->
  (forall s1, rely w s s1 -> holds w s1 -> unguarded p s1 = false /\ wp p s1 (fun a s2 => exists w',
     guarantee w w' s1 s2 /\ forall s3, rely w' s2 s3 -> holds w' s3 -> Q a w' s3)) ->
  rgs p w s Q.
Proof.
  destruct p as [a|B c f k]; [done|]. intros Hk H s1 Hr Hh. destruct (H s1 Hr Hh) as [Hc Hw]. split; [done|].
  unfold wp in Hw. simpl in Hw. destruct (f s1) as [b s2| |]; [|done..].
  destruct (Hk b) as [a Ha]. rewrite Ha in *. exact Hw.
Qed.

Lemma rgs_single {A} (p : prog S A) w s (Q : A -> W -> S -> Prop) :
  single p ->
  (forall s1, rely w s s1 -> holds w s1 -> wp p s1 (fun a s2 => exists w',
     guarantee w w' s1 s2 /\ forall s3, rely w' s2 s3 -> holds w' s3 -> Q a w' s3)) ->
  rgs p w s Q.
Proof.
  intros [Hp Hg] H. apply rgs_one_action; [done|]. auto.
Qed.

Lemma rgs_step {A B} (p : prog S A) (g : A -> prog S B) w s Q :
  single p ->
  (forall s1, rely w s s1 -> holds w s1 -> wp p s1 (fun a s2 => exists w',
     guarantee w w' s1 s2 /\ rgs (g a) w' s2 Q)) ->
  rgs (p ≫= g) w s Q.
Proof using L.
  intros Hs H. apply rgs_bind, rgs_single; [done|]. intros s1 Hr Hh.
  eapply wp_mono; [|by apply H]. intros a s2 (w' & Hg & Hn). exists w'. split; [done|].
  intros s3 Hr3 _. by eapply rgs_rely.
Qed.

(** What is true of a part of the state that the program leaves alone, and that
    the others leave alone while it has its rights, stays true. *)
Lemma rgs_keeps {A B} (g : S -> B) (R : S -> Prop) (p : prog S A) w s Q :
  keeps g p -> (forall s s', g s' = g s -> R s -> R s') ->
  (forall w' s s', same_rights (S:=S) w w' -> rely w' s s' -> R s -> R s') ->
  R s -> rgs p w s Q -> rgs p w s (fun a w' s' => Q a w' s' /\ R s').
Proof using L.
  intros Hp Hg. revert w s. induction p as [a|C c f k IH]; intros w s HR Hs H s1 Hr Hh;
    specialize (H s1 Hr Hh).
  - split; [exact H|]. by eapply (HR w).
  - simpl in H, Hp |- *. destruct H as [Hc H]. split; [done|]. destruct Hp as [Hf Hk]. destruct (f s1) as [b s2| |] eqn:Hfs; [|done..].
    destruct H as (w' & Hgu & H). exists w'. split; [done|]. apply IH; [done| | |done].
    + intros w'' s3 s4 Hw''. apply HR. etrans; [apply Hgu|done].
    + eapply Hg; [by eapply Hf|]. by eapply (HR w).
Qed.

(** ** Facts that last *)

Definition stable (R : S -> Prop) : Prop := forall s s', rely (idle (S:=S)) s s' -> R s -> R s'.

Lemma stable_rely w R s s' : stable R -> rely w s s' -> R s -> R s'.
Proof using L. intros HR Hr. eapply HR. by eapply rely_idle. Qed.

(** What a thread does, the others can rely on. *)
Lemma own_action w w' s s' : holds w s -> guarantee w w' s s' -> rely (idle (S:=S)) s s'.
Proof using L. intros Hh (_ & _ & Hg). apply Hg; [apply disj_idle|by eapply holds_idle]. Qed.

Lemma stable_own w w' R s s' : stable R -> holds w s -> guarantee w w' s s' -> R s -> R s'.
Proof using L. intros HR Hh Hg. by eapply HR, own_action. Qed.

Lemma stable_and R R' : stable R -> stable R' -> stable (fun s => R s /\ R' s).
Proof. intros H H' s s' Hr [? ?]. split; [by eapply H|by eapply H']. Qed.

Lemma stable_True : stable (fun _ => True).
Proof. done. Qed.

Lemma stable_pure (P : Prop) : stable (fun _ => P).
Proof. by intros s s' _ H. Qed.

Lemma stable_exists {A} (P : A -> S -> Prop) : (forall x, stable (P x)) -> stable (fun s => exists x, P x s).
Proof. intros H s s' Hr [x Hx]. exists x. by eapply H. Qed.

(** The usual postcondition: the thread has what it had, and [F] holds. *)
Definition post {A} w (F : A -> S -> Prop) : A -> W -> S -> Prop := fun a w' s => w' = w /\ F a s.

Lemma rgs_return {A} (a : A) w s (F : A -> S -> Prop) :
  stable (F a) -> F a s -> rgs (mret a) w s (post w F).
Proof using L. intros HF H. apply rgs_ret. intros s1 Hr _. split; [done|]. by eapply stable_rely. Qed.

Lemma rgs_last {A} (p : prog S A) w w1 s (F : A -> S -> Prop) :
  single p -> (forall a, stable (F a)) ->
  (forall s1, rely w1 s s1 -> holds w1 s1 ->
     wp p s1 (fun a s2 => guarantee w1 w s1 s2 /\ F a s2)) ->
  rgs p w1 s (post w F).
Proof using L.
  intros Hp HF H. apply rgs_single; [done|]. intros s1 Hr Hh. eapply wp_mono; [|by apply H].
  intros a s2 [Hg Ha]. exists w. split; [done|]. intros s3 Hr3 _. split; [done|]. by eapply stable_rely.
Qed.

(** The same for an action that is guarded where it happens. *)
Lemma rgs_last_guarded {A} (p : prog S A) w w1 s (F : A -> S -> Prop) :
  one_action p -> (forall a, stable (F a)) ->
  (forall s1, rely w1 s s1 -> holds w1 s1 ->
     unguarded p s1 = false /\ wp p s1 (fun a s2 => guarantee w1 w s1 s2 /\ F a s2)) ->
  rgs p w1 s (post w F).
Proof using L.
  intros Hp HF H. apply rgs_one_action; [done|]. intros s1 Hr Hh. destruct (H s1 Hr Hh) as [Hg Hw].
  split; [done|]. eapply wp_mono; [|exact Hw].
  intros a s2 [Hgu Ha]. exists w. split; [done|]. intros s3 Hr3 _. split; [done|]. by eapply stable_rely.
Qed.

(** The last action, when nothing but its return follows. *)
Lemma rgs_then_return {A B} (p : prog S A) (b : B) w w1 s (F : B -> S -> Prop) :
  single p -> stable (F b) ->
  (forall s1, rely w1 s s1 -> holds w1 s1 ->
     wp p s1 (fun _ s2 => guarantee w1 w s1 s2 /\ F b s2)) ->
  rgs (p;; mret b) w1 s (post w F).
Proof using L.
  intros Hp HF H. apply rgs_step; [done|]. intros s1 Hr Hh. eapply wp_mono; [|by apply H].
  intros a s2 [Hg Ha]. exists w. split; [done|]. by apply rgs_return.
Qed.

(** Facts that last hold along every program. *)
Lemma rgs_frame {A} (p : prog S A) w s Q (R : S -> Prop) :
  stable R -> R s -> rgs p w s Q -> rgs p w s (fun a w' s' => Q a w' s' /\ R s').
Proof using L.
  intros HR. revert w s. induction p as [a|B c f k IH]; intros w s Hs H s1 Hr Hh; specialize (H s1 Hr Hh).
  - split; [exact H|]. by eapply stable_rely.
  - simpl in H |- *. destruct H as [Hc H]. split; [done|].
    destruct (f s1) as [b s2| |]; [|done..]. destruct H as (w' & Hg & H).
    exists w'. split; [done|]. apply IH; [|done]. eapply stable_own; [done..|]. by eapply stable_rely.
Qed.

(** A call, with what its caller knows kept for what follows. *)
Lemma rgs_call {A B} (p : prog S A) (g : A -> prog S B) w s Q (F : A -> S -> Prop) (R : S -> Prop) :
  stable R -> R s -> rgs p w s (post w F) ->
  (forall a s', F a s' -> R s' -> rgs (g a) w s' Q) -> rgs (p ≫= g) w s Q.
Proof using L.
  intros HR Hs Hp Hg. apply rgs_bind. eapply rgs_mono; [|by eapply (rgs_frame _ _ _ _ R)].
  intros a w' s' [[-> HF] HR']. auto.
Qed.

(** What follows the first part of a program. *)
Lemma rgs_unbind {A B} (p : prog S A) (g : A -> prog S B) w s Q :
  rgs (p ≫= g) w s Q -> rgs p w s (fun a w' s' => rgs (g a) w' s' Q /\ holds w' s').
Proof using L.
  unfold mbind, prog_mbind. revert w s. induction p as [a|C c f k IH]; intros w s H s1 Hr Hh; simpl in H.
  - split; [by eapply rgs_rely|done].
  - specialize (H s1 Hr Hh). simpl in H |- *. destruct H as [Hc H]. split; [done|]. destruct (f s1) as [b s2| |]; [|done..].
    destruct H as (w' & Hg & H). exists w'. split; [done|]. by apply IH.
Qed.

(** ** Composition *)

(** Every thread holds its tokens, no two the same ones, and is safe. *)
Definition pool_ok {A} (c : config S A) (Qs : list (A -> W -> S -> Prop)) (ws : list W) : Prop :=
  length c.2 = length ws /\ length c.2 = length Qs /\
  (forall i p w Q, c.2 !! i = Some p -> ws !! i = Some w -> Qs !! i = Some Q ->
     holds w c.1 /\ rgs p w c.1 Q) /\
  (forall i j w u, i <> j -> ws !! i = Some w -> ws !! j = Some u -> disj (S:=S) w u).

Lemma pool_lookup {A} (c : config S A) Qs ws i p :
  pool_ok c Qs ws -> c.2 !! i = Some p ->
  exists w Q, ws !! i = Some w /\ Qs !! i = Some Q /\ holds w c.1 /\ rgs p w c.1 Q.
Proof.
  intros (Hw & HQ & H & _) Hp. apply lookup_lt_Some in Hp as Hi.
  destruct (lookup_lt_is_Some_2 ws i) as [w Hwi]; [lia|].
  destruct (lookup_lt_is_Some_2 Qs i) as [Q HQi]; [lia|]. eauto 10.
Qed.

Lemma pool_step {A} (c c' : config S A) Qs ws :
  pool_ok c Qs ws -> tstep c c' -> exists ws', pool_ok c' Qs ws'.
Proof using L.
  intros Hok Hc. revert Hok. destruct Hc as [s ts i p p' s' Hp Hstep]. intros Hok.
  destruct (pool_lookup _ _ _ _ _ Hok Hp) as (w & Q & Hw & HQ & Hh & Hrg). simpl in *.
  destruct Hok as (Hlw & HlQ & Hall & Hdisj). simpl in *.
  destruct p as [a|B c f k]; [done|]. simpl in Hstep. specialize (Hrg s (reflexivity s) Hh). simpl in Hrg.
  destruct Hrg as [_ Hrg]. destruct (f s) as [b s1| |]; simplify_eq. destruct Hrg as (w' & (Hh' & _ & Hg) & Hrg).
  exists (<[i := w']> ws). 
  unfold pool_ok; simpl. split_and!; [by rewrite !length_insert|by rewrite length_insert| |].
  - intros j q u R Hq Hu HR. destruct (decide (i = j)) as [<-|Hij].
    + rewrite list_lookup_insert_eq in Hq by (by eapply lookup_lt_Some).
      rewrite list_lookup_insert_eq in Hu by (by eapply lookup_lt_Some). by simplify_eq.
    + rewrite list_lookup_insert_ne in Hq by done. rewrite list_lookup_insert_ne in Hu by done.
      destruct (Hall j q u R Hq Hu HR) as [Hhu Hru].
      destruct (Hg u) as (Hr & Hh2 & _); [by eapply Hdisj|done|]. split; [done|]. by eapply rgs_rely.
  - assert (Hnew : forall j u, i <> j -> ws !! j = Some u -> disj (S:=S) w' u).
    { intros j u Hij Hu. destruct (lookup_lt_is_Some_2 ts j) as [q Hq];
        [rewrite Hlw; by eapply lookup_lt_Some|].
      destruct (lookup_lt_is_Some_2 Qs j) as [R HR]; [rewrite <- HlQ; by eapply lookup_lt_Some|].
      destruct (Hall j q u R Hq Hu HR) as [Hhu _]. apply Hg; [by eapply Hdisj|done]. }
    assert (Hlook : forall j u, <[i := w']> ws !! j = Some u -> (i = j /\ u = w') \/ (i <> j /\ ws !! j = Some u)).
    { intros j u. destruct (decide (i = j)) as [<-|Hij].
      - rewrite list_lookup_insert_eq by (by eapply lookup_lt_Some). intros [= <-]. by left.
      - rewrite list_lookup_insert_ne by done. by right. }
    intros j1 j2 u1 u2 Hne H1 H2. destruct (Hlook _ _ H1) as [[<- ->]|[Hi1 H1']],
      (Hlook _ _ H2) as [[<- ->]|[Hi2 H2']].
    + done.
    + by apply (Hnew j2).
    + by apply disj_sym, (Hnew j1).
    + by apply (Hdisj j1 j2).
Qed.

Lemma pool_reach {A} (c c' : config S A) Qs ws :
  pool_ok c Qs ws -> rtc tstep c c' -> exists ws', pool_ok c' Qs ws'.
Proof using L.
  intros Hok Hr. revert ws Hok. induction Hr as [|c1 c2 c3 H1 _ IH]; intros ws Hok; [by exists ws|].
  destruct (pool_step _ _ _ _ Hok H1) as [ws' Hok']. by eapply IH.
Qed.

(** A thread goes on with another program, once its own has returned. *)
Lemma pool_update {A} (c : config S A) Qs ws i p Q' :
  pool_ok c Qs ws -> is_Some (c.2 !! i) ->
  (forall w, ws !! i = Some w -> holds w c.1 -> rgs p w c.1 Q') ->
  pool_ok (c.1, <[i := p]> c.2) (<[i := Q']> Qs) ws.
Proof.
  intros (Hw & HQ & H & Hd) [q Hq] Hp. unfold pool_ok; simpl. rewrite !length_insert. split_and!; [done|done| |done].
  intros j p' w Q Hp' Hwj HQj. destruct (decide (i = j)) as [<-|Hij].
  - rewrite list_lookup_insert_eq in Hp' by (by eapply lookup_lt_Some).
    rewrite list_lookup_insert_eq in HQj by (rewrite <- HQ; by eapply lookup_lt_Some). simplify_eq.
    destruct (lookup_lt_is_Some_2 Qs i) as [Q0 HQ0]; [rewrite <- HQ; by eapply lookup_lt_Some|].
    destruct (H i q w Q0 Hq Hwj HQ0) as [Hh _]. split; [done|auto].
  - rewrite list_lookup_insert_ne in Hp' by done. rewrite list_lookup_insert_ne in HQj by done. eauto.
Qed.

(** A thread's next action returns. *)
Lemma pool_progress {A} (c : config S A) Qs ws i p :
  pool_ok c Qs ws -> c.2 !! i = Some p ->
  (exists a, p = Ret a) \/ exists p' s', pstep p c.1 = Some (Val p' s').
Proof using L.
  intros Hok Hp. destruct (pool_lookup _ _ _ _ _ Hok Hp) as (w & Q & _ & _ & Hh & Hrg).
  destruct p as [a|B c0 f k]; [by left; eexists|right]. specialize (Hrg c.1 (reflexivity _) Hh). simpl in Hrg |- *.
  destruct Hrg as [_ Hrg]. destruct (f c.1); [by eexists _, _|done..].
Qed.

Lemma pool_guarded {A} (c : config S A) Qs ws i p :
  pool_ok c Qs ws -> c.2 !! i = Some p -> unguarded p c.1 = false.
Proof using L.
  intros Hok Hp. destruct (pool_lookup _ _ _ _ _ Hok Hp) as (w & Q & _ & _ & Hh & Hrg).
  destruct p as [a|B c' f k]; [done|]. apply (Hrg c.1 (reflexivity _) Hh).
Qed.

Definition finished {A} (c : config S A) : Prop := Forall (fun p => exists a, p = Ret a) c.2.

Lemma finished_or_running {A} (ts : list (prog S A)) :
  Forall (fun p => exists a, p = Ret a) ts \/
  exists i p, ts !! i = Some p /\ forall a, p <> Ret a.
Proof.
  induction ts as [|p ts [IH|(i & q & Hi & Hq)]]; [by left| |right; by exists (Datatypes.S i), q].
  destruct p as [a|B c f k]; [left|right; by eexists 0%nat, _]. constructor; [by eexists|done].
Qed.

(** In every reachable configuration no thread is about to throw, to be
    undefined or to write unguarded, some thread can act unless all have returned, and a thread that
    has returned satisfies its postcondition. *)
Lemma threads_safe {A} (c c' : config S A) Qs ws :
  pool_ok c Qs ws -> rtc tstep c c' ->
  ~ undefined_in c' /\ ~ races_in c' /\ (forall e, ~ throws_in c' e) /\
  (finished c' \/ exists c'', tstep c' c'') /\
  (forall i a Q, c'.2 !! i = Some (Ret a) -> Qs !! i = Some Q -> exists w, holds w c'.1 /\ Q a w c'.1) /\
  (c'.2 <> [] -> exists w, holds w c'.1).
Proof using L.
  intros Hok Hr. destruct (pool_reach _ _ _ _ Hok Hr) as [ws' Hok']. clear Hok Hr c ws.
  destruct c' as [s ts]. split_and!.
  - intros (i & p & x & Hp & Hs). destruct (pool_progress _ _ _ _ _ Hok' Hp) as [[a ->]|(p' & s' & H)];
      [done|congruence].
  - intros (i & p & Hp & Hs). by rewrite (pool_guarded _ _ _ _ _ Hok' Hp) in Hs.
  - intros e (i & p & x & Hp & Hs). destruct (pool_progress _ _ _ _ _ Hok' Hp) as [[a ->]|(p' & s' & H)];
      [done|congruence].
  - destruct (finished_or_running ts) as [|(i & p & Hi & Hp)]; [by left|right].
    destruct (pool_progress _ _ _ _ _ Hok' Hi) as [[a ->]|(p' & s' & H)]; [by destruct (Hp a)|].
    eexists. by eapply tstep_intro.
  - intros i a Q Hi HQ. destruct (pool_lookup _ _ _ _ _ Hok' Hi) as (w & Q' & _ & HQ' & Hh & Hrg).
    simplify_eq. exists w. split; [done|]. by apply (Hrg s).
  - intros Hne. destruct ts as [|p ts]; [done|].
    destruct (pool_lookup _ _ _ 0 p Hok' eq_refl) as (w & _ & _ & _ & Hh & _). by exists w.
Qed.
End rg.

(** A program of one action. *)
Ltac single := split; [intros ?; eexists; reflexivity|first [done | intros ?; cbn; by repeat case_match]].

(** The threads of an execution are those it started with. *)
Lemma tsteps_length {S A} (c c' : config S A) : rtc tstep c c' -> length c'.2 = length c.2.
Proof.
  induction 1 as [|c1 c2 c3 H _ IH]; [done|]. rewrite IH. destruct H; simpl. apply length_insert.
Qed.

Lemma no_threads {S A} (s : S) (c : config S A) : rtc tstep (s, []) c -> c = (s, []).
Proof. intros H. inversion H as [|? c1 ? H1]; [done|]. inversion H1; simplify_eq. Qed.

(** ** Executions by schedule *)

(** The configuration a schedule ends in. *)
Definition executed {S A} (sch : list nat) (c : config S A) : config S A := default c (schedule sch c).

Definition feasible {S A} (sch : list nat) (c : config S A) : bool :=
  match schedule sch c with Some _ => true | None => false end.

Lemma executed_reached {S A} sch (c : config S A) : feasible sch c = true -> rtc tstep c (executed sch c).
Proof.
  unfold feasible, executed. destruct (schedule sch c) as [c'|] eqn:H; [|done]. intros _. by eapply schedule_sound.
Qed.

Definition all_returned {S A} (c : config S A) : bool :=
  forallb (fun p => match p with Ret _ => true | Atomic _ _ _ => false end) c.2.

Lemma all_returned_finished {S A} (c : config S A) : all_returned c = true -> finished c.
Proof.
  unfold all_returned, finished. induction c.2 as [|[a|B c0 f k] ps IH]; simpl; [constructor| |done].
  intros H. constructor; [by eexists|auto].
Qed.

(** ** Every execution ends *)

(** A step of one element of a list, for a relation from what follows to what
    is there. *)
Section one_of.
Context {T : Type} (R : T -> T -> Prop).

Definition one_of (ts' ts : list T) : Prop :=
  exists i t t', ts !! i = Some t /\ R t' t /\ ts' = <[i := t']> ts.

Lemma one_of_cons t ts : Acc R t -> Acc one_of ts -> Acc one_of (t :: ts).
Proof.
  intros Ht. revert ts. induction Ht as [t _ IHt]; intros ts Hts.
  induction Hts as [ts Hts IHts]. constructor. intros ts' (i & u & u' & Hu & Hrest & ->).
  destruct i as [|i]; simpl in *; simplify_eq.
  - apply IHt; [done|]. by constructor.
  - apply IHts. by exists i, u, u'.
Qed.

Lemma one_of_wf ts : (forall t, Acc R t) -> Acc one_of ts.
Proof.
  intros HR. induction ts as [|t ts IH]; [|by apply one_of_cons].
  constructor. by intros ts' (i & u & u' & Hu & _).
Qed.
End one_of.

(** However an execution goes on, it comes to [P]. *)
Inductive inevitably {X} (step : X -> X -> Prop) (P : X -> Prop) (x : X) : Prop :=
  | inevitably_now : P x -> inevitably step P x
  | inevitably_later :
      (exists y, step x y) -> (forall y, step x y -> inevitably step P y) -> inevitably step P x.

Lemma inevitably_intro {X} (step : X -> X -> Prop) (P : X -> Prop) x :
  Acc (flip step) x -> (forall y, rtc step x y -> P y \/ exists z, step y z) -> inevitably step P x.
Proof.
  induction 1 as [x _ IH]. intros H. destruct (H x) as [Hx|Hx]; [done|by apply inevitably_now|].
  apply inevitably_later; [done|]. intros y Hy. apply IH; [done|]. intros z Hz. apply H. by eapply rtc_l.
Qed.

Section termination.
Context {S A : Type}.

(** The rest of a thread after one of its actions. *)
Definition rest (p' p : prog S A) : Prop :=
  match p with Ret _ => False | Atomic _ f k => exists b, p' = k b end.

Lemma rest_wf p : Acc rest p.
Proof. induction p as [a|B c f k IH]; constructor; [done|]. intros q [b ->]. apply IH. Qed.

Lemma pstep_rest (p p' : prog S A) s s' : pstep p s = Some (Val p' s') -> rest p' p.
Proof.
  destruct p as [a|B c f k]; [done|]. simpl. intros H. destruct (f s); simplify_eq. by eexists.
Qed.

(** Programs are finite, so an execution of finitely many threads ends. *)
Lemma tstep_terminates (c : config S A) : Acc (flip tstep) c.
Proof.
  destruct c as [s ts]. revert s. induction (one_of_wf rest ts rest_wf) as [ts _ IH]. intros s.
  constructor. intros c' Hstep. inversion Hstep as [s0 ts0 i p p' s' Hp Hs]; subst.
  apply IH. exists i, p, p'. split; [done|]. split; [|done]. by eapply pstep_rest.
Qed.
End termination.

(** Threads that are safe all return, in every execution. *)
Lemma threads_finish {S W : Type} `{L : InterferenceLaws S W} {A} (c c' : config S A) Qs ws :
  pool_ok c Qs ws -> rtc tstep c c' -> inevitably tstep finished c'.
Proof.
  intros Hok Hr. apply inevitably_intro; [apply tstep_terminates|]. intros c2 H2.
  eapply threads_safe; [exact Hok|]. by etrans.
Qed.
