(* ===== verification/StorageThreads.v ===== *)
(** * The storage shared by several threads

    Any number of threads call the methods of [TraceStorage] at once.  As in
    the program, one thread consumes the samples (the profiler thread) and one
    removes from the list of collections (the cleaner, or the thread that
    reports collections); the coroutines that were marked for cleaning, [M],
    are no longer used.  Then no interleaving throws or is undefined, every one
    ends, and no update is lost. *)

From S2P Require Import Prelude ConcurrentList ConcurrentMap TraceTime TraceModel TraceStorage.
From S2P Require Import StorageSafety StorageSpec StorageCycle Interleaving.
From Stdlib Require Import ZArith Lia.
From stdpp Require Import base gmap list strings numbers.
Local Open Scope Z_scope.
Local Open Scope kt_scope.

(** ** Growing objects *)

Definition grows {A} (R : A -> A -> Prop) (h h' : heap A) : Prop :=
  forall l a, cells h !! l = Some a -> exists a', cells h' !! l = Some a' /\ R a a'.

Section grows.
Context {A : Type} (R : A -> A -> Prop) `{HR : !PreOrder R}.
Implicit Types h : heap A.

#[export] Instance grows_preorder : PreOrder (grows R).
Proof.
  split.
  - intros h l a Hl. by exists a.
  - intros h1 h2 h3 H1 H2 l a Hl. destruct (H1 l a Hl) as (b & Hb & Hab).
    destruct (H2 l b Hb) as (c & Hc & Hbc). exists c. split; [done|]. by etrans.
Qed.

Lemma grows_put h l a a' : cells h !! l = Some a -> R a a' -> grows R h (hput l a' h).
Proof.
  intros Hl Ha l' b Hb. simpl. destruct (decide (l = l')) as [<-|Hne].
  - rewrite lookup_insert_eq. simplify_eq. by exists a'.
  - rewrite lookup_insert_ne by done. by exists b.
Qed.

Lemma grows_alloc h a : heap_wf h -> grows R h (Heap (<[next h := a]> (cells h)) (S (next h))).
Proof.
  intros Hwf l b Hb. exists b. split; [|done]. simpl. rewrite lookup_insert_ne; [done|].
  intros <-. by rewrite heap_fresh in Hb.
Qed.

Lemma grows_valid h h' l : grows R h h' -> valid h l -> valid h' l.
Proof. intros H [a Ha]. destruct (H l a Ha) as (b & Hb & _). by exists b. Qed.
End grows.

Definition longer {T} (c c' : clist T) : Prop := CL.list_ c `prefix_of` CL.list_ c'.

#[export] Instance longer_preorder {T} : PreOrder (@longer T).
Proof. split; [intros c; unfold longer; reflexivity|]. intros a b c. unfold longer. apply transitivity. Qed.

Lemma longer_push {T} (c : clist T) x : longer c (CList (CL.list_ c ++ [x]) (CL.clean_until_ c)).
Proof. unfold longer; simpl. by apply prefix_app_r. Qed.

Lemma longer_elem {T} (c c' : clist T) x : longer c c' -> x ∈ CL.list_ c -> x ∈ CL.list_ c'.
Proof. intros [l Hl] Hx. rewrite Hl. set_solver. Qed.

Definition more_suspensions (i i' : CoroutineInfo) : Prop :=
  longer (suspensions_list i) (suspensions_list i').

#[export] Instance more_suspensions_preorder : PreOrder more_suspensions.
Proof. split; [intros c|intros a b c]; unfold more_suspensions; [done|apply transitivity]. Qed.

(** All of a suspension but its end is fixed when it is recorded. *)
Definition same_suspension (i i' : SuspensionInfo) : Prop :=
  si_coroutine_id i' = si_coroutine_id i /\ si_start i' = si_start i /\
  suspension_stack_trace i' = suspension_stack_trace i.

#[export] Instance same_suspension_preorder : PreOrder same_suspension.
Proof. split; unfold same_suspension; [done|]. intros a b c. intuition congruence. Qed.

(** A list of children that has only live coroutines keeps to them. *)
Definition live_list (M : gset Z) (c : clist Z) : Prop := Forall (fun id => id ∉ M) (CL.list_ c).
Definition longer_live (M : gset Z) (c c' : clist Z) : Prop :=
  longer c c' /\ (live_list M c -> live_list M c').

#[export] Instance longer_live_preorder M : PreOrder (longer_live M).
Proof.
  split; [by intros c|]. intros a b c [H1 H2] [H3 H4]. split; [by etrans|auto].
Qed.

Lemma longer_live_push M (c : clist Z) x :
  x ∉ M -> longer_live M c (CList (CL.list_ c ++ [x]) (CL.clean_until_ c)).
Proof. intros Hx. split; [apply longer_push|]. intros H. apply Forall_app. by repeat constructor. Qed.

Definition anything {A} (a a' : A) : Prop := True.

#[export] Instance anything_preorder {A} : PreOrder (@anything A).
Proof. done. Qed.

(** The entries of coroutines outside [M] stay. *)
Definition entries_kept (M : gset Z) (m m' : gmap Z ptr) : Prop :=
  forall k p, k ∉ M -> m !! k = Some p -> m' !! k = Some p.

#[export] Instance entries_kept_preorder M : PreOrder (entries_kept M).
Proof. split; [by intros m k p|]. intros m1 m2 m3 H1 H2 k p Hk Hm. eauto. Qed.

(** ** What a thread holds, and what it relies on *)

Inductive token :=
  | Consumer
  | Remover
  | NewTraces (l : nat)
  | NewChildren (l : nat)
  | NewInfo (l : nat)
  | Tracing (id : Z).

(** The keys that are marked for cleaning: no more of them in any map. *)
Definition fewer_marks (s s' : TraceStorage) : Prop :=
  CM.clean_list_ (processed_map_ s') ⊆ CM.clean_list_ (processed_map_ s) /\
  CM.clean_list_ (child_coroutines_map_ s') ⊆ CM.clean_list_ (child_coroutines_map_ s) /\
  CM.clean_list_ (coroutine_info_map_ s') ⊆ CM.clean_list_ (coroutine_info_map_ s).

#[export] Instance fewer_marks_preorder : PreOrder fewer_marks.
Proof.
  split; [by intros s|]. intros s1 s2 s3 (H1 & H2 & H3) (H4 & H5 & H6). split_and!; by etrans.
Qed.

Section interference.
Context (M : gset Z).
Implicit Types (s : TraceStorage) (w u : list token).

Record respects w s s' : Prop := {
  r_processed : entries_kept M (CM.map_ (processed_map_ s)) (CM.map_ (processed_map_ s'));
  r_children : entries_kept M (CM.map_ (child_coroutines_map_ s)) (CM.map_ (child_coroutines_map_ s'));
  r_infos : entries_kept M (CM.map_ (coroutine_info_map_ s)) (CM.map_ (coroutine_info_map_ s'));
  r_traces_heap : grows longer (traces_heap s) (traces_heap s');
  r_child_heap : grows (longer_live M) (child_heap s) (child_heap s');
  r_info_heap : grows more_suspensions (info_heap s) (info_heap s');
  r_susp_heap : grows same_suspension (suspension_heap s) (suspension_heap s');
  r_gc_heap : grows anything (gc_heap s) (gc_heap s');
  r_consumer : Consumer ∈ w -> longer (raw_list_ s) (raw_list_ s') /\
    forall k, k ∉ M -> CM.map_ (processed_map_ s') !! k = CM.map_ (processed_map_ s) !! k;
  r_remover : Remover ∈ w -> longer (gc_events_ s) (gc_events_ s') /\
    CL.clean_until_ (gc_events_ s') = CL.clean_until_ (gc_events_ s);
  r_ongoing : forall id, Tracing id ∈ w ->
    CM.map_ (ongoing_trace_info_map_ s') !! id = CM.map_ (ongoing_trace_info_map_ s) !! id;
  r_clock : (readings (clock s) <= readings (clock s'))%nat;
  r_marked : fewer_marks s s';
}.

(** What is marked is in [M], and the children of the others are not. *)
Record shared_ok s : Prop := {
  so_wf : storage_wf s;
  so_processed : forall k, k ∈ CM.clean_list_ (processed_map_ s) -> k ∈ M;
  so_children : forall k, k ∈ CM.clean_list_ (child_coroutines_map_ s) -> k ∈ M;
  so_infos : forall k, k ∈ CM.clean_list_ (coroutine_info_map_ s) -> k ∈ M;
  so_live : forall k l c, k ∉ M -> CM.map_ (child_coroutines_map_ s) !! k = Some (Some l) ->
    cells (child_heap s) !! l = Some c -> live_list M c;
}.

(** An object its thread has not yet put in the map. *)
Definition unpublished {A} (m : cmap Z ptr) (h : heap A) (l : nat) : Prop :=
  valid h l /\ forall k, CM.map_ m !! k <> Some (Some l).

Definition private (t : token) s : Prop :=
  match t with
  | NewTraces l => unpublished (processed_map_ s) (traces_heap s) l
  | NewChildren l => unpublished (child_coroutines_map_ s) (child_heap s) l /\
      forall c, cells (child_heap s) !! l = Some c -> live_list M c
  | NewInfo l => unpublished (coroutine_info_map_ s) (info_heap s) l
  | _ => True
  end.

(** The rights of a thread do not change; its new objects do. *)
Definition is_right (t : token) : bool :=
  match t with Consumer | Remover | Tracing _ => true | _ => false end.

#[export] Instance storage_interference : Interference TraceStorage (list token) := {
  rely := respects;
  holds w s := shared_ok s /\ forall t, t ∈ w -> private t s;
  disj w u := forall t, t ∈ w -> t ∈ u -> False;
  same_rights w w' := forall t, is_right t = true -> t ∈ w <-> t ∈ w';
  idle := [];
}.

#[export] Instance storage_interference_laws : InterferenceLaws TraceStorage (list token).
Proof.
  split.
  - intros w s. by split.
  - intros w s1 s2 s3 H1 H2. destruct H1, H2. split; try by etrans.
    + intros Hw. destruct (r_consumer0 Hw) as [Ha Hb], (r_consumer1 Hw) as [Ha' Hb'].
      split; [by etrans|]. intros k Hk. by rewrite Hb', Hb.
    + intros Hw. destruct (r_remover0 Hw) as [Ha Hb], (r_remover1 Hw) as [Ha' Hb'].
      split; [by etrans|]. by rewrite Hb', Hb.
    + intros id Hw. by rewrite r_ongoing1, r_ongoing0.
  - intros w u H t Hw Hu. by apply (H t).
  - split; [done|]. intros w1 w2 w3 H1 H2 t Ht. by rewrite (H1 t), (H2 t).
  - intros w s s' []. change (respects [] s s'). split; try done; intros; exfalso; by eapply elem_of_nil.
  - intros w s [Hs _]. split; [done|]. intros t H. by apply elem_of_nil in H.
  - intros w t _ H. by apply elem_of_nil in H.
Qed.

(** ** Actions that keep to what the others rely on *)

(** No map gets a new entry, objects only grow, and the two lists are
    shortened only by their owners. *)
Record quiet w s s' : Prop := {
  q_processed : CM.map_ (processed_map_ s') ⊆ CM.map_ (processed_map_ s);
  q_children : CM.map_ (child_coroutines_map_ s') ⊆ CM.map_ (child_coroutines_map_ s);
  q_infos : CM.map_ (coroutine_info_map_ s') ⊆ CM.map_ (coroutine_info_map_ s);
  q_processed_kept : entries_kept M (CM.map_ (processed_map_ s)) (CM.map_ (processed_map_ s'));
  q_children_kept :
    entries_kept M (CM.map_ (child_coroutines_map_ s)) (CM.map_ (child_coroutines_map_ s'));
  q_infos_kept : entries_kept M (CM.map_ (coroutine_info_map_ s)) (CM.map_ (coroutine_info_map_ s'));
  q_traces_heap : grows longer (traces_heap s) (traces_heap s');
  q_child_heap : grows (longer_live M) (child_heap s) (child_heap s');
  q_new_child : forall l c, cells (child_heap s) !! l = None -> cells (child_heap s') !! l = Some c ->
    live_list M c;
  q_info_heap : grows more_suspensions (info_heap s) (info_heap s');
  q_susp_heap : grows same_suspension (suspension_heap s) (suspension_heap s');
  q_gc_heap : grows anything (gc_heap s) (gc_heap s');
  q_raw : Consumer ∈ w \/ longer (raw_list_ s) (raw_list_ s');
  q_gc : Remover ∈ w \/ longer (gc_events_ s) (gc_events_ s') /\
    CL.clean_until_ (gc_events_ s') = CL.clean_until_ (gc_events_ s);
  q_ongoing : forall id, Tracing id ∈ w \/
    CM.map_ (ongoing_trace_info_map_ s') !! id = CM.map_ (ongoing_trace_info_map_ s) !! id;
  q_clock : (readings (clock s) <= readings (clock s'))%nat;
  q_marked : fewer_marks s s';
}.

Lemma unpublished_kept {A} (R : A -> A -> Prop) (m m' : cmap Z ptr) h h' l :
  CM.map_ m' ⊆ CM.map_ m -> grows R h h' -> unpublished m h l -> unpublished m' h' l.
Proof.
  intros Hm Hh [Hv Hp]. split; [by eapply grows_valid|]. intros k Hk. apply (Hp k).
  by eapply lookup_weaken.
Qed.

Lemma quiet_private w s s' t : quiet w s s' -> private t s -> private t s'.
Proof.
  intros []. destruct t; simpl; eauto using unpublished_kept. intros [Hu Hl].
  split; [by eapply unpublished_kept|]. intros c Hc. destruct Hu as [[c0 Hc0] _].
  destruct (q_child_heap0 l c0 Hc0) as (c1 & Hc1 & _ & Hlive). simplify_eq. auto.
Qed.

Lemma quiet_lookup (m m' : gmap Z ptr) k :
  m' ⊆ m -> entries_kept M m m' -> k ∉ M -> m' !! k = m !! k.
Proof.
  intros Hsub Hkept Hk. destruct (m !! k) as [p|] eqn:E; [by apply Hkept|].
  destruct (m' !! k) as [p|] eqn:E'; [|done]. by rewrite (lookup_weaken _ _ _ _ E' Hsub) in E.
Qed.

Lemma quiet_respects w u s s' : disj (S:=TraceStorage) w u -> quiet w s s' -> respects u s s'.
Proof.
  intros Hd []. split; try done.
  - intros Hu. split; [|intros k Hk; by apply quiet_lookup].
    destruct q_raw0 as [Hw|]; [|done]. by destruct (Hd _ Hw Hu).
  - intros Hu. destruct q_gc0 as [Hw|]; [|done]. by destruct (Hd _ Hw Hu).
  - intros id Hu. destruct (q_ongoing0 id) as [Hw|]; [|done]. by destruct (Hd _ Hw Hu).
Qed.

(** The invariant of a quiet action's result, but for the part on children. *)
Lemma quiet_live w s s' :
  quiet w s s' -> shared_ok s ->
  forall k l c, k ∉ M -> CM.map_ (child_coroutines_map_ s') !! k = Some (Some l) ->
    cells (child_heap s') !! l = Some c -> live_list M c.
Proof.
  intros [] [] k l c Hk Hm Hc. destruct (cells (child_heap s) !! l) as [c0|] eqn:Hc0; [|eauto].
  destruct (q_child_heap0 l c0 Hc0) as (c1 & Hc1 & _ & Hlive). simplify_eq.
  apply Hlive. eapply so_live0; [exact Hk| |exact Hc0]. by eapply lookup_weaken.
Qed.

Lemma quiet_guarantee w s s' :
  holds w s -> storage_wf s' ->
  (forall k, k ∈ CM.clean_list_ (processed_map_ s') -> k ∈ M) ->
  (forall k, k ∈ CM.clean_list_ (child_coroutines_map_ s') -> k ∈ M) ->
  (forall k, k ∈ CM.clean_list_ (coroutine_info_map_ s') -> k ∈ M) ->
  quiet w s s' -> guarantee w w s s'.
Proof.
  intros [Hs Hp] Hwf H1 H2 H3 Hq.
  assert (Hok : shared_ok s') by (split; try done; by eapply quiet_live). split_and!; [|done|].
  - split; [done|]. intros t Ht. by eapply quiet_private, Hp.
  - intros u Hd [_ Hu]. split_and!; [by eapply quiet_respects| |done].
    split; [done|]. intros t Ht. by eapply quiet_private, Hu.
Qed.

Lemma quiet_refl w s : quiet w s s.
Proof. split; try done; try (by right). intros l c H1 H2. congruence. Qed.

(** Looking at the state changes nothing. *)
Lemma look_guarantee w s : holds w s -> guarantee w w s s.
Proof. intros H. pose proof H as [[] _]. apply quiet_guarantee; try done. apply quiet_refl. Qed.

Lemma rights_cons t w : is_right t = false -> same_rights (S := TraceStorage) w (t :: w).
Proof. intros H t' H'. rewrite elem_of_cons. split; [by right|]. intros [->|]; [congruence|done]. Qed.

(** A new object belongs to the thread that allocated it. *)
Lemma alloc_guarantee w t s s' :
  is_right t = false ->
  guarantee w w s s' -> private t s' -> ~ private t s -> guarantee w (t :: w) s s'.
Proof.
  intros Hright ([Hok Hw] & _ & Hg) Ht Hn. split_and!.
  - split; [done|]. intros t' [->|Ht']%elem_of_cons; [done|]. by apply Hw.
  - by apply rights_cons.
  - intros u Hd Hu. destruct (Hg u Hd Hu) as (Hr & Hh & Hd'). split_and!; [done..|].
    intros t' [->|Ht']%elem_of_cons Htu; [|by eapply Hd]. by apply Hn, Hu.
Qed.

Lemma forget_guarantee w t s : is_right t = false -> holds (t :: w) s -> guarantee (t :: w) w s s.
Proof.
  intros Ht Hh. pose proof (look_guarantee _ _ Hh) as (_ & _ & Hg). destruct Hh as [Hok Hp]. split_and!.
  - split; [done|]. intros t' Ht'. apply Hp. by right.
  - intros t' H'. symmetry. by apply rights_cons.
  - intros u Hd Hu. destruct (Hg u Hd Hu) as (Hr & Hu' & _). split_and!; [done..|].
    intros t' Ht'. apply Hd. by right.
Qed.

(** Publishing an object ends its privacy. *)
Lemma insert_kept (m : gmap Z ptr) k p : m !! k = None -> entries_kept M m (<[k := p]> m).
Proof. intros Hk k' p' _ Hk'. rewrite lookup_insert_ne; [done|]. by intros <-; rewrite Hk in Hk'. Qed.

Lemma unpublished_insert {A} (h : heap A) m c k l l' :
  l <> l' -> unpublished (CMap m c) h l -> unpublished (CMap (<[k := Some l']> m) c) h l.
Proof.
  intros Hne [Hv Hp]. split; [done|]. intros k'. cbn. rewrite lookup_insert. case_decide; [|apply Hp].
  intros [= ->]. done.
Qed.

Lemma owns_publish {A} (h : heap A) m c k l :
  owns m h -> unpublished (CMap m c) h l -> owns (<[k := Some l]> m) h.
Proof.
  intros [Hv Hi] [Hl Hp]. split.
  - intros k' p. rewrite lookup_insert. case_decide; [intros [= <-]; by exists l|apply Hv].
  - intros k1 k2 l'. rewrite !lookup_insert. repeat case_decide; intros; simplify_eq; eauto;
      by edestruct Hp.
Qed.

Lemma publish_guarantee w t s s' :
  holds (t :: w) s -> is_right t = false -> shared_ok s' ->
  (forall t', t' <> t -> private t' s -> private t' s') ->
  (forall u, disj (S:=TraceStorage) (t :: w) u -> respects u s s') ->
  t ∉ w -> guarantee (t :: w) w s s'.
Proof.
  intros [_ Hp] Hright Hok Hpriv Hr Ht. split_and!.
  - split; [done|]. intros t' Ht'. apply Hpriv; [by intros ->|]. apply Hp. by right.
  - intros t' H'. symmetry. by apply rights_cons.
  - intros u Hd [_ Hu]. split_and!; [by apply Hr| |].
    + split; [done|]. intros t' Ht'. apply Hpriv; [|by apply Hu].
      intros ->. apply (Hd t); [by left|done].
    + intros t' Ht'. apply Hd. by right.
Qed.

(** *** One lemma per kind of action *)

Ltac quiet_step :=
  match goal with H : holds _ _ |- _ =>
    apply (quiet_guarantee _ _ _ H); pose proof (so_wf _ (proj1 H)); destruct H as [[] _]
  end; [| | | |split]; simpl; try done; try (by right); auto using longer_push with kt;
  try (intros; congruence).

Lemma clock_guarantee w s c :
  holds w s -> (readings (clock s) <= readings c)%nat -> guarantee w w s (lset clock_L c s).
Proof. intros H Hc. quiet_step. storage_wf. Qed.

Lemma ongoing_guarantee w s m :
  holds w s ->
  (forall id, Tracing id ∈ w \/ CM.map_ m !! id = CM.map_ (ongoing_trace_info_map_ s) !! id) ->
  guarantee w w s (lset ongoing_L m s).
Proof. intros H Hm. quiet_step. storage_wf. Qed.

Lemma raw_guarantee w s c :
  holds w s -> Consumer ∈ w \/ longer (raw_list_ s) c -> guarantee w w s (lset raw_L c s).
Proof. intros H Hc. quiet_step. storage_wf. Qed.

Lemma traces_push_guarantee w s l c x :
  holds w s -> cells (traces_heap s) !! l = Some c ->
  guarantee w w s
    (lset traces_heap_L (hput l (CList (CL.list_ c ++ [x]) (CL.clean_until_ c)) (traces_heap s)) s).
Proof.
  intros H Hl. assert (valid (traces_heap s) l) by (by eexists). quiet_step; [storage_wf|].
  eapply grows_put; [apply _|done|apply longer_push].
Qed.

Lemma child_push_guarantee w s l c x :
  holds w s -> cells (child_heap s) !! l = Some c -> x ∉ M ->
  guarantee w w s
    (lset child_heap_L (hput l (CList (CL.list_ c ++ [x]) (CL.clean_until_ c)) (child_heap s)) s).
Proof.
  intros H Hl Hx. assert (valid (child_heap s) l) by (by eexists). quiet_step; [storage_wf| |].
  - eapply grows_put; [apply _|done|by apply longer_live_push].
  - intros l' c' Hn. rewrite lookup_insert. case_decide; [congruence|]. congruence.
Qed.

(** The members of an info object are written in place. *)
Lemma info_put_guarantee w s p i i' :
  holds w s -> cells (info_heap s) !! p = Some i -> suspensions_list i' = suspensions_list i ->
  guarantee w w s (lset info_heap_L (hput p i' (info_heap s)) s).
Proof.
  intros H Hp Hi. assert (Hv : valid (info_heap s) p) by (by eexists).
  assert (more_suspensions i i') by (unfold more_suspensions; by rewrite Hi).
  quiet_step; [|by eapply grows_put; [apply _|..]].
  pose proof (wf_suspensions s so_wf0) as Hs. clear so_wf0. storage_wf.
  intros l' j. rewrite lookup_insert. case_decide; [|apply Hs]. intros [= <-]. rewrite Hi. eauto.
Qed.

Lemma suspension_push_guarantee w s p i l :
  holds w s -> cells (info_heap s) !! p = Some i -> valid (suspension_heap s) l ->
  guarantee w w s (lset info_heap_L (hput p (add_suspension_to l i) (info_heap s)) s).
Proof.
  intros H Hp Hl. assert (Hi : more_suspensions i (add_suspension_to l i)) by apply longer_push.
  quiet_step; [by apply wf_add_suspension|]. by eapply grows_put; [apply _|..].
Qed.

Lemma suspension_alloc_guarantee w s i :
  holds w s ->
  guarantee w w s (lset susp_heap_L (Heap (<[next (suspension_heap s) := i]>
    (cells (suspension_heap s))) (S (next (suspension_heap s)))) s).
Proof.
  intros H. quiet_step; [by apply wf_new_suspension|]. apply grows_alloc; [apply _|eauto with kt].
Qed.

(** The end of a suspension is written in place. *)
Lemma suspension_put_guarantee w s l i i' :
  holds w s -> cells (suspension_heap s) !! l = Some i -> same_suspension i i' ->
  guarantee w w s (lset susp_heap_L (hput l i' (suspension_heap s)) s).
Proof.
  intros H Hl Hi. assert (Hv : valid (suspension_heap s) l) by (by eexists).
  quiet_step; [|by eapply grows_put; [apply _|..]].
  pose proof (wf_suspensions s so_wf0) as Hs. clear so_wf0. storage_wf.
  intros p j Hj. apply Forall_valid_put. eauto.
Qed.

Lemma gc_alloc_guarantee w s e :
  holds w s ->
  guarantee w w s (lset gc_heap_L (Heap (<[next (gc_heap s) := e]> (cells (gc_heap s)))
    (S (next (gc_heap s)))) s).
Proof.
  intros H. quiet_step.
  - storage_wf. by apply Forall_valid_grow.
  - apply grows_alloc; [apply _|eauto with kt].
Qed.

Lemma gc_put_guarantee w s l e :
  holds w s -> valid (gc_heap s) l -> guarantee w w s (lset gc_heap_L (hput l e (gc_heap s)) s).
Proof.
  intros H Hl. quiet_step.
  - storage_wf. by apply Forall_valid_put.
  - destruct Hl as [e' He]. by eapply grows_put; [apply _|..].
Qed.

Lemma gc_list_guarantee w s c :
  holds w s -> Forall (valid (gc_heap s)) (CL.list_ c) ->
  Remover ∈ w \/ longer (gc_events_ s) c /\ CL.clean_until_ c = CL.clean_until_ (gc_events_ s) ->
  guarantee w w s (lset gc_L c s).
Proof. intros H Hv Hc. quiet_step. storage_wf. Qed.

(** *** New objects *)

Lemma fresh_unpublished {A} (m : cmap Z ptr) (h : heap A) a :
  heap_wf h -> owns (CM.map_ m) h ->
  unpublished m (Heap (<[next h := a]> (cells h)) (S (next h))) (next h).
Proof.
  intros Hwf [Hv _]. split; [apply valid_new|]. intros k Hk.
  destruct (Hv _ _ Hk) as (l & [= <-] & [b Hb]). by rewrite heap_fresh in Hb.
Qed.

Lemma next_published {A} (m : cmap Z ptr) (h : heap A) : heap_wf h -> ~ unpublished m h (next h).
Proof. intros Hwf [[b Hb] _]. by rewrite heap_fresh in Hb. Qed.

Lemma traces_alloc_guarantee w s c :
  holds w s ->
  guarantee w (NewTraces (next (traces_heap s)) :: w) s
    (lset traces_heap_L (Heap (<[next (traces_heap s) := c]> (cells (traces_heap s)))
       (S (next (traces_heap s)))) s).
Proof.
  intros H. pose proof (so_wf _ (proj1 H)) as Hwf.
  apply alloc_guarantee; [done| |apply fresh_unpublished|apply next_published]; simpl; eauto with kt.
  quiet_step; [storage_wf|]. apply grows_alloc; [apply _|eauto with kt].
Qed.

Lemma child_alloc_guarantee w s :
  holds w s ->
  guarantee w (NewChildren (next (child_heap s)) :: w) s
    (lset child_heap_L (Heap (<[next (child_heap s) := CL.make]> (cells (child_heap s)))
       (S (next (child_heap s)))) s).
Proof.
  intros H. pose proof (so_wf _ (proj1 H)) as Hwf. apply alloc_guarantee; simpl; [done|..].
  - quiet_step; [storage_wf|apply grows_alloc; [apply _|eauto with kt]|].
    intros l c Hl. rewrite lookup_insert. case_decide; [intros [= <-]; constructor|congruence].
  - split; [apply fresh_unpublished; eauto with kt|]. intros c. rewrite lookup_insert_eq.
    intros [= <-]. constructor.
  - intros [Hu _]. revert Hu. apply next_published. eauto with kt.
Qed.

Lemma info_alloc_guarantee w s i :
  holds w s -> CL.list_ (suspensions_list i) = [] ->
  guarantee w (NewInfo (next (info_heap s)) :: w) s
    (lset info_heap_L (Heap (<[next (info_heap s) := i]> (cells (info_heap s)))
       (S (next (info_heap s)))) s).
Proof.
  intros H Hi. pose proof (so_wf _ (proj1 H)) as Hwf.
  apply alloc_guarantee; [done| |apply fresh_unpublished|apply next_published]; simpl; eauto with kt.
  quiet_step; [|apply grows_alloc; [apply _|eauto with kt]].
  pose proof (wf_suspensions s Hwf) as Hs. clear so_wf0. storage_wf.
  intros l j. rewrite lookup_insert. case_decide; [|apply Hs]. intros [= <-]. by rewrite Hi.
Qed.

(** *** Publications *)

Ltac publish_step :=
  match goal with H : holds _ _ |- _ =>
    apply (publish_guarantee _ _ _ _ H eq_refl); pose proof (so_wf _ (proj1 H)); destruct H as [[] Hp]
  end.

(** The map is [CMap m c] by [Em]; [own] is its part of the invariant, [Hu] says
    that the object is not published. *)
Ltac publish_entry Em Hu own :=
  publish_step; [| |intros u Hd|done]; rewrite ?Em in *; simpl in *;
  [ split; simpl; rewrite ?Em; try done;
    match goal with H : storage_wf ?s |- _ =>
      let Ho := fresh "Ho" in pose proof (own s H) as Ho; rewrite Em in Ho;
      match goal with |- context [<[?k := Some _]> _] => pose proof (owns_publish _ _ _ k _ Ho Hu) end
    end; storage_wf
  | intros t' Ht; destruct t'; try done; simpl; rewrite Em; intros Hp';
    apply unpublished_insert; [congruence|done]
  | split; simpl; rewrite ?Em; try done; try (by apply insert_kept);
    try (unfold fewer_marks; simpl; by rewrite Em) ].

Lemma processed_insert_guarantee w s id l :
  holds (NewTraces l :: w) s -> NewTraces l ∉ w -> Consumer ∈ w ->
  CM.map_ (processed_map_ s) !! id = None ->
  guarantee (NewTraces l :: w) w s
    (lset processed_L (CMap (<[id := Some l]> (CM.map_ (processed_map_ s)))
       (CM.clean_list_ (processed_map_ s))) s).
Proof.
  intros H Hl Hw Hid. destruct (processed_map_ s) as [m c] eqn:Em.
  assert (unpublished (processed_map_ s) (traces_heap s) l) as Hu by (apply (proj2 H (NewTraces l)); by left).
  rewrite Em in Hu. publish_entry Em Hu wf_processed.
  intros Hu'. destruct (Hd Consumer); [by right|done].
Qed.

Lemma children_insert_guarantee w s id l :
  holds (NewChildren l :: w) s -> NewChildren l ∉ w ->
  CM.map_ (child_coroutines_map_ s) !! id = None ->
  guarantee (NewChildren l :: w) w s
    (lset children_L (CMap (<[id := Some l]> (CM.map_ (child_coroutines_map_ s)))
       (CM.clean_list_ (child_coroutines_map_ s))) s).
Proof.
  intros H Hl Hid. destruct (child_coroutines_map_ s) as [m c] eqn:Em.
  assert (private (NewChildren l) s) as [Hu Hlive] by (apply (proj2 H); by left).
  rewrite Em in Hu. publish_step; [| |intros u Hd|done]; rewrite ?Em in *; simpl in *.
  - split; simpl; rewrite ?Em; try done.
    + pose proof (wf_children s so_wf0) as Ho. rewrite Em in Ho.
      pose proof (owns_publish _ _ _ id _ Ho Hu). clear so_wf0. storage_wf.
    + intros k l' c' Hk. rewrite lookup_insert. case_decide; [intros [= <-]; apply Hlive|].
      by apply so_live0.
  - intros t' Ht. destruct t' as [| | |l'| |]; try done. simpl. rewrite Em. intros [Hp' Hlive'].
    split; [|done]. apply unpublished_insert; [congruence|done].
  - split; simpl; rewrite ?Em; try done; [by apply insert_kept|unfold fewer_marks; simpl; by rewrite Em].
Qed.

Lemma info_insert_guarantee w s id l :
  holds (NewInfo l :: w) s -> NewInfo l ∉ w ->
  CM.map_ (coroutine_info_map_ s) !! id = None ->
  guarantee (NewInfo l :: w) w s
    (lset infos_L (CMap (<[id := Some l]> (CM.map_ (coroutine_info_map_ s)))
       (CM.clean_list_ (coroutine_info_map_ s))) s).
Proof.
  intros H Hl Hid. destruct (coroutine_info_map_ s) as [m c] eqn:Em.
  assert (unpublished (coroutine_info_map_ s) (info_heap s) l) as Hu
    by (apply (proj2 H (NewInfo l)); by left).
  rewrite Em in Hu. publish_entry Em Hu wf_infos.
Qed.

(** *** The cleaner *)

Lemma erase_all_subset ks (m : gmap Z ptr) : CM.erase_all ks m ⊆ m.
Proof. apply map_subseteq_spec. intros k p. rewrite CM.lookup_erase_all. by case_bool_decide. Qed.

Lemma erase_all_kept ks (m : gmap Z ptr) :
  (forall k, k ∈ ks -> k ∈ M) -> entries_kept M m (CM.erase_all ks m).
Proof.
  intros Hks k p Hk Hm. rewrite CM.lookup_erase_all. case_bool_decide as H; [|done].
  by destruct Hk; apply Hks.
Qed.

Ltac clean_step :=
  quiet_step; try (by right); try (intros k Hk; by apply elem_of_nil in Hk);
  try (by apply erase_all_subset); try (by apply erase_all_kept);
  try (unfold fewer_marks; simpl; set_solver).

Lemma clean_processed_guarantee w s :
  holds w s -> guarantee w w s (lset processed_L
    (CMap (CM.erase_all (CM.clean_list_ (processed_map_ s)) (CM.map_ (processed_map_ s))) []) s).
Proof. intros H. clean_step. storage_wf. Qed.

Lemma clean_children_guarantee w s :
  holds w s -> guarantee w w s (lset children_L
    (CMap (CM.erase_all (CM.clean_list_ (child_coroutines_map_ s))
       (CM.map_ (child_coroutines_map_ s))) []) s).
Proof. intros H. clean_step. storage_wf. Qed.

Lemma clean_infos_guarantee w s :
  holds w s -> guarantee w w s (lset infos_L
    (CMap (CM.erase_all (CM.clean_list_ (coroutine_info_map_ s))
       (CM.map_ (coroutine_info_map_ s))) []) s).
Proof. intros H. clean_step. storage_wf. Qed.
End interference.
