(* ===== verification/StorageMethods.v ===== *)
(** * The methods of the storage under interference

    What each method of [TraceStorage] returns and records when other threads
    use the storage at the same time, for coroutines that are not being
    cleaned. *)

From S2P Require Import Prelude ConcurrentList ConcurrentMap TraceTime TraceModel TraceStorage.
From S2P Require Import StorageSafety StorageSpec StorageCycle Interleaving StorageThreads.
From Stdlib Require Import ZArith Lia.
From stdpp Require Import base gmap list strings numbers.
Local Open Scope Z_scope.
Local Open Scope kt_scope.

Section methods.
Context (M : gset Z).
Implicit Types (s : TraceStorage) (w : list token).

#[local] Hint Extern 0 (Interference TraceStorage _) =>
  exact (storage_interference M) : typeclass_instances.

(** ** Facts that last *)

Lemma respects_trans w s1 s2 s3 : respects M w s1 s2 -> respects M w s2 s3 -> respects M w s1 s3.
Proof. exact (rely_trans (S := TraceStorage) w s1 s2 s3). Qed.

Lemma respects_refl w s : respects M w s s.
Proof. exact (rely_refl (S := TraceStorage) w s). Qed.

Lemma respects_idle w s s' : respects M w s s' -> respects M [] s s'.
Proof. exact (rely_idle (S := TraceStorage) w s s'). Qed.

(** A coroutine that is registered in a map. *)
Definition has_entry (m : TraceStorage -> cmap Z ptr) (id : Z) s : Prop := is_Some (CM.map_ (m s) !! id).

Lemma entries_kept_Some m m' id : entries_kept M m m' -> id ∉ M -> is_Some (m !! id) -> is_Some (m' !! id).
Proof. intros H Hid [p Hp]. exists p. by apply H. Qed.

Lemma stable_info id : id ∉ M -> stable (has_entry coroutine_info_map_ id).
Proof. intros Hid s s' Hr. eapply entries_kept_Some; [apply Hr|done]. Qed.
Lemma stable_children id : id ∉ M -> stable (has_entry child_coroutines_map_ id).
Proof. intros Hid s s' Hr. eapply entries_kept_Some; [apply Hr|done]. Qed.

Lemma stable_valid_info l : stable (fun s => valid (info_heap s) l).
Proof. intros s s' Hr. eapply grows_valid, Hr. Qed.
Lemma stable_valid_susp l : stable (fun s => valid (suspension_heap s) l).
Proof. intros s s' Hr. eapply grows_valid, Hr. Qed.
Lemma stable_valid_traces l : stable (fun s => valid (traces_heap s) l).
Proof. intros s s' Hr. eapply grows_valid, Hr. Qed.
Lemma stable_valid_gc l : stable (fun s => valid (gc_heap s) l).
Proof. intros s s' Hr. eapply grows_valid, Hr. Qed.

(** The object registered for a coroutine. *)
Definition info_at (id : Z) (l : nat) s : Prop :=
  CM.map_ (coroutine_info_map_ s) !! id = Some (Some l) /\ valid (info_heap s) l.
Definition children_at (id : Z) (l : nat) s : Prop :=
  CM.map_ (child_coroutines_map_ s) !! id = Some (Some l) /\ valid (child_heap s) l.
Definition traces_at (id : Z) (l : nat) s : Prop :=
  CM.map_ (processed_map_ s) !! id = Some (Some l) /\ valid (traces_heap s) l.

Lemma stable_info_at id l : id ∉ M -> stable (info_at id l).
Proof.
  intros Hid s s' Hr [H Hv]. split; [by apply (r_infos _ _ _ _ Hr)|]. eapply grows_valid; [apply Hr|done].
Qed.
Lemma stable_children_at id l : id ∉ M -> stable (children_at id l).
Proof.
  intros Hid s s' Hr [H Hv]. split; [by apply (r_children _ _ _ _ Hr)|]. eapply grows_valid; [apply Hr|done].
Qed.
Lemma stable_traces_at id l : id ∉ M -> stable (traces_at id l).
Proof.
  intros Hid s s' Hr [H Hv]. split; [by apply (r_processed _ _ _ _ Hr)|]. eapply grows_valid; [apply Hr|done].
Qed.

Lemma info_of s id : shared_ok M s -> has_entry coroutine_info_map_ id s -> exists l, info_at id l s.
Proof.
  intros [Hwf _ _ _ _] [p Hp]. destruct (owns_lookup _ _ _ _ (wf_infos _ Hwf) Hp) as (l & i & -> & Hi).
  exists l. split; [done|by eexists].
Qed.
Lemma children_of s id : shared_ok M s -> has_entry child_coroutines_map_ id s -> exists l, children_at id l s.
Proof.
  intros [Hwf _ _ _ _] [p Hp]. destruct (owns_lookup _ _ _ _ (wf_children _ Hwf) Hp) as (l & i & -> & Hi).
  exists l. split; [done|by eexists].
Qed.
Lemma traces_of s id : shared_ok M s -> has_entry processed_map_ id s -> exists l, traces_at id l s.
Proof.
  intros [Hwf _ _ _ _] [p Hp]. destruct (owns_lookup _ _ _ _ (wf_processed _ Hwf) Hp) as (l & i & -> & Hi).
  exists l. split; [done|by eexists].
Qed.

(** What was recorded. *)
Definition child_recorded (id parent : Z) s : Prop := exists l c,
  CM.map_ (child_coroutines_map_ s) !! parent = Some (Some l) /\
  cells (child_heap s) !! l = Some c /\ id ∈ CL.list_ c.
Definition trace_recorded (id : Z) (x : ProcessedTraceRecord) s : Prop := exists l c,
  CM.map_ (processed_map_ s) !! id = Some (Some l) /\
  cells (traces_heap s) !! l = Some c /\ x ∈ CL.list_ c.
Definition suspension_recorded (i : SuspensionInfo) s : Prop := exists p c l i',
  CM.map_ (coroutine_info_map_ s) !! si_coroutine_id i = Some (Some p) /\
  cells (info_heap s) !! p = Some c /\ l ∈ CL.list_ (suspensions_list c) /\
  cells (suspension_heap s) !! l = Some i' /\ same_suspension i i'.

Lemma stable_child_recorded id parent : parent ∉ M -> stable (child_recorded id parent).
Proof.
  intros Hid s s' Hr (l & c & Hm & Hc & Hx). destruct (r_child_heap _ _ _ _ Hr l c Hc) as (c' & Hc' & Hlong & _).
  exists l, c'. split; [by apply (r_children _ _ _ _ Hr)|]. eauto using longer_elem.
Qed.
Lemma stable_trace_recorded id x : id ∉ M -> stable (trace_recorded id x).
Proof.
  intros Hid s s' Hr (l & c & Hm & Hc & Hx). destruct (r_traces_heap _ _ _ _ Hr l c Hc) as (c' & Hc' & Hlong).
  exists l, c'. split; [by apply (r_processed _ _ _ _ Hr)|]. eauto using longer_elem.
Qed.
Lemma stable_suspension_recorded i : si_coroutine_id i ∉ M -> stable (suspension_recorded i).
Proof.
  intros Hid s s' Hr (p & c & l & j & Hm & Hc & Hx & Hj & Hi).
  destruct (r_info_heap _ _ _ _ Hr p c Hc) as (c' & Hc' & Hlong).
  destruct (r_susp_heap _ _ _ _ Hr l j Hj) as (j' & Hj' & Hs).
  exists p, c', l, j'. split; [by apply (r_infos _ _ _ _ Hr)|]. split; [done|].
  split; [by eapply longer_elem|]. split; [done|]. by etrans.
Qed.

(** ** Lookups *)

Lemma rgs_read {T A B} (Z : Lens TraceStorage T) (f : T -> A) (g : A -> prog TraceStorage B) w s Q :
  (forall s1, respects M w s s1 -> holds w s1 -> rgs (g (f (lget Z s1))) w s1 Q) ->
  rgs (zoom Z (reads f) ≫= g) w s Q.
Proof.
  intros H. apply rgs_step; [single|]. intros s1 Hr Hh. apply wp_zoom, wp_reads.
  rewrite lset_lget. exists w. split; [by apply look_guarantee|auto].
Qed.

Lemma rgs_at (Z : Lens TraceStorage (cmap Z ptr)) id w s (F : ptr -> TraceStorage -> Prop) :
  (forall p, stable (F p)) ->
  (forall s1, respects M w s s1 -> holds w s1 -> exists p, CM.map_ (lget Z s1) !! id = Some p /\ F p s1) ->
  rgs (zoom Z (CM.at_ id)) w s (post w F).
Proof.
  intros HF H. apply rgs_last; [single|done|]. intros s1 Hr Hh. destruct (H s1 Hr Hh) as (p & Hp & Hg).
  apply wp_zoom. eapply wp_run; [by apply CM.run_at_Some|]. rewrite lset_lget.
  split; [by apply look_guarantee|done].
Qed.

Lemma rgs_get (Z : Lens TraceStorage (cmap Z ptr)) id w s (F : ptr -> TraceStorage -> Prop) :
  (forall p, stable (F p)) ->
  (forall s1, respects M w s s1 -> holds w s1 -> exists p, CM.map_ (lget Z s1) !! id = Some p /\ F p s1) ->
  rgs (zoom Z (CM.get id)) w s (post w F).
Proof.
  intros HF H. apply rgs_last_guarded; [by intros p; eexists|done|]. intros s1 Hr Hh.
  destruct (H s1 Hr Hh) as (p & Hp & Hg). split; [simpl; by rewrite Hp|]. apply wp_zoom. eapply wp_run; [by apply CM.run_get_Some|]. rewrite lset_lget.
  split; [by apply look_guarantee|done].
Qed.

(** A pointer that is null or designates what [P] says. *)
Definition ptr_to (P : nat -> TraceStorage -> Prop) (p : ptr) s : Prop :=
  match p with None => True | Some l => P l s end.

Lemma stable_ptr_to P p : (forall l, stable (P l)) -> stable (ptr_to P p).
Proof. intros H. destruct p; [apply H|done]. Qed.

Lemma rgs_getInfo w s id :
  id ∉ M ->
  rgs (getCoroutineInfo id) w s (post w (fun p s' =>
    (has_entry coroutine_info_map_ id s -> p <> None) /\ ptr_to (info_at id) p s')).
Proof.
  intros Hid. apply rgs_read. intros s1 Hr1 Hh1. cbn [lget infos_L].
  assert (Hst : forall p, stable (fun s' => (has_entry coroutine_info_map_ id s -> p <> None) /\
    ptr_to (info_at id) p s')).
  { intros p. apply stable_and; [apply stable_pure|]. apply stable_ptr_to. intros l. by apply stable_info_at. }
  case_bool_decide as Hs.
  - apply rgs_get; [done|]. intros s2 Hr2 Hh2.
    destruct (info_of s2 id (proj1 Hh2)) as [l Hl]; [by eapply stable_rely; [apply stable_info|..]|].
    exists (Some l). split; [apply Hl|]. split; [done|exact Hl].
  - apply rgs_return; [done|]. split; [|done]. intros Hin. destruct Hs.
    by eapply (stable_rely w (has_entry coroutine_info_map_ id)); [apply stable_info|..].
Qed.

Lemma rgs_getProcessed w s id :
  id ∉ M -> rgs (getProcessedTraces id) w s (post w (ptr_to (traces_at id))).
Proof.
  intros Hid. assert (Hst : forall p, stable (ptr_to (traces_at id) p))
    by (intros p; apply stable_ptr_to; intros l; by apply stable_traces_at).
  apply rgs_read. intros s1 Hr1 Hh1. cbn [lget processed_L]. case_bool_decide as Hs; [|by apply rgs_return].
  apply rgs_at; [done|]. intros s2 Hr2 Hh2.
  destruct (traces_of s2 id (proj1 Hh2)) as [l Hl].
  { eapply entries_kept_Some; [apply (r_processed _ _ _ _ Hr2)|done|exact Hs]. }
  exists (Some l). split; [apply Hl|exact Hl].
Qed.

Lemma rgs_getChildren w s id :
  id ∉ M -> has_entry child_coroutines_map_ id s ->
  rgs (getChildCoroutines id) w s (post w (fun p s' => exists l, p = Some l /\ children_at id l s')).
Proof.
  intros Hid Hs. apply rgs_get.
  - intros p. apply stable_exists. intros l. apply stable_and; [apply stable_pure|by apply stable_children_at].
  - intros s1 Hr1 Hh1. destruct (children_of s1 id (proj1 Hh1)) as [l Hl];
      [by eapply stable_rely; [apply stable_children|..]|].
    exists (Some l). split; [apply Hl|]. by exists l.
Qed.

Lemma rgs_containsChild w s id :
  id ∉ M ->
  rgs (containsChildCoroutineStorage id) w s (post w (fun b s' =>
    b = true -> has_entry child_coroutines_map_ id s')).
Proof.
  intros Hid. apply rgs_last; [single| |].
  - intros b s1 s2 Hr H Hb. eapply stable_children; [done|exact Hr|auto].
  - intros s1 Hr1 Hh1. apply wp_containsChild. split; [by apply look_guarantee|].
    intros Hb. by apply bool_decide_eq_true in Hb.
Qed.

(** An open suspension is in the heap. *)
Lemma open_valid s l : open_suspension s l = true -> valid (suspension_heap s) l.
Proof. unfold open_suspension. intros H. destruct (cells _ !! l) eqn:E; [by eexists|done]. Qed.

Lemma rgs_lastSuspension w s id :
  id ∉ M ->
  rgs (getLastSuspensionInfo id) w s (post w (ptr_to (fun l s' => valid (suspension_heap s') l))).
Proof.
  intros Hid. assert (Hst : forall p, stable (ptr_to (fun l s' => valid (suspension_heap s') l) p))
    by (intros p; apply stable_ptr_to; apply stable_valid_susp).
  apply rgs_read. intros s1 Hr1 Hh1. cbn [lget infos_L]. case_bool_decide as Hs; [|by apply rgs_return].
  eapply (rgs_call _ _ _ _ _ (fun p s' => exists l, p = Some l /\ info_at id l s') (fun _ => True));
    [done|done| |].
  { apply rgs_get.
    - intros p. apply stable_exists. intros l. apply stable_and; [apply stable_pure|by apply stable_info_at].
    - intros s2 Hr2 Hh2. destruct (info_of s2 id (proj1 Hh2)) as [l Hl];
        [by eapply stable_rely; [apply stable_info|..]|].
      exists (Some l). split; [apply Hl|]. by exists l. }
  intros p s2 (l & -> & [_ Hv]) _. apply rgs_last; [single|done|]. intros s3 Hr3 Hh3.
  destruct (stable_rely _ _ _ _ (stable_valid_info l) Hr3 Hv) as [i Hi].
  eapply wp_act; [simpl; by rewrite Hi|]. split; [by apply look_guarantee|].
  destruct (List.find _ _) as [x|] eqn:Hf; [|done]. apply List.find_some in Hf as [_ Hf].
  by apply open_valid.
Qed.

Lemma rgs_now `{CK : !SteadyClock} w s : rgs now w s (post w (fun t _ => 0 <= t < 2 ^ 63)).
Proof.
  apply rgs_last; [single|intros t; apply stable_pure|]. intros s1 Hr Hh. apply wp_now. split; [apply clock_guarantee; [done|simpl; lia]|].
  pose proof (steady_range (readings (clock s1))). lia.
Qed.

(** A time that has passed; a later reading is not before it. *)
Definition passed `{CK : !SteadyClock} (v : Z) (s : TraceStorage) : Prop := v <= steady (readings (clock s)).

Lemma stable_passed `{CK : !SteadyClock} v : stable (passed v).
Proof.
  intros s s' Hr H. unfold passed in *. etrans; [exact H|]. apply steady_mono, (r_clock _ _ _ _ Hr).
Qed.

Lemma rgs_now_after `{CK : !SteadyClock} w s v :
  passed v s -> rgs now w s (post w (fun t s' => v <= t /\ passed t s')).
Proof.
  intros Hv. apply rgs_last; [single|intros t; apply stable_and; [apply stable_pure|apply stable_passed]|].
  intros s1 Hr Hh. apply wp_now. split; [apply clock_guarantee; [done|simpl; lia]|].
  split; [exact (stable_rely _ _ _ _ (stable_passed v) Hr Hv)|]. apply steady_mono. simpl. lia.
Qed.

(** ** Updates *)

Lemma rgs_addChild w s id parent :
  id ∉ M -> parent ∉ M -> has_entry child_coroutines_map_ parent s ->
  rgs (addChildCoroutine id parent) w s (post w (fun _ => child_recorded id parent)).
Proof.
  intros Hid Hp Hs.
  eapply (rgs_call _ _ _ _ _ _ (fun _ => True)); [done|done|by apply rgs_getChildren|].
  intros p s1 (l & -> & Hl1) _. apply rgs_last; [single|intros _; by apply stable_child_recorded|].
  intros s2 Hr2 Hh2. destruct (stable_rely _ _ _ _ (stable_children_at parent l Hp) Hr2 Hl1) as [Hm [c Hc]].
  apply wp_zoom. eapply wp_at_ptr; [exact Hc|]. apply wp_modify.
  split; [by apply child_push_guarantee|].
  eexists l, _. split; [exact Hm|]. split; [apply lookup_insert_eq|]. simpl. set_solver.
Qed.

(** Between calls a thread holds no object. *)
Definition plain (w : list token) : Prop := forall t, t ∈ w -> is_right t = true.

Lemma plain_new w t : plain w -> is_right t = false -> t ∉ w.
Proof. intros H H1 Ht. specialize (H t Ht). congruence. Qed.

Lemma rgs_createChildren w s id :
  plain w ->
  rgs (createChildCoroutineStorage id) w s (post w (fun _ s' =>
    id ∉ M -> has_entry child_coroutines_map_ id s')).
Proof.
  intros Hw. apply rgs_step; [single|]. intros s1 Hr1 Hh1. apply wp_zoom, wp_halloc.
  eexists. split; [by apply child_alloc_guarantee|].
  apply rgs_then_return; [single|intros s2 s3 Hr H Hid; eapply stable_children; eauto|].
  intros s2 Hr2 Hh2. apply wp_zoom.
  destruct (CM.map_ (child_coroutines_map_ s2) !! id) as [p|] eqn:Hp.
  - eapply wp_run; [by apply (CM.run_insert_Some _ _ p)|]. rewrite lset_lget.
    split; [by apply forget_guarantee|]. intros _. by eexists.
  - eapply wp_run; [by apply CM.run_insert_None|].
    split; [by apply children_insert_guarantee; [exact Hh2|apply plain_new|exact Hp]|].
    intros _. eexists. apply lookup_insert_eq.
Qed.

Lemma rgs_createInfo `{CK : !SteadyClock} w s id :
  plain w ->
  rgs (createCoroutineInfo id) w s (post w (fun _ s' => id ∉ M -> has_entry coroutine_info_map_ id s')).
Proof.
  intros Hw. assert (Hst : stable (fun s' => id ∉ M -> has_entry coroutine_info_map_ id s'))
    by (intros s2 s3 Hr H Hid; eapply stable_info; eauto).
  eapply (rgs_call _ _ _ _ _ _ (fun _ => True)); [done|done|apply rgs_now|]. intros t s1 _ _.
  eapply (rgs_call _ _ _ _ _ _ (fun _ => True)); [done|done|apply rgs_now|]. intros t' s2 _ _.
  apply rgs_step; [single|]. intros s3 Hr3 Hh3. apply wp_zoom, wp_halloc.
  eexists. split; [by apply info_alloc_guarantee|].
  apply rgs_step; [single|]. intros s4 Hr4 Hh4. apply wp_zoom, wp_reads. rewrite lset_lget.
  cbn [lget infos_L]. case_bool_decide as Hs.
  - exists w. split; [by apply forget_guarantee|]. apply rgs_return; [done|by intros _].
  - eexists. split; [by apply look_guarantee|]. clear Hs.
    apply rgs_then_return; [single|done|]. intros s5 Hr5 Hh5. apply wp_zoom.
    destruct (CM.map_ (coroutine_info_map_ s5) !! id) as [p|] eqn:Hp.
    + eapply wp_run; [by apply (CM.run_insert_Some _ _ p)|]. rewrite lset_lget.
      split; [by apply forget_guarantee|]. intros _. by eexists.
    + eapply wp_run; [by apply CM.run_insert_None|].
      split; [by apply info_insert_guarantee; [exact Hh5|apply plain_new|exact Hp]|].
      intros _. eexists. apply lookup_insert_eq.
Qed.

(** A new suspension, and its registration. *)
Lemma rgs_newSuspension w s i :
  rgs (zoom susp_heap_L (halloc i)) w s (post w (fun l s' => exists i',
    cells (suspension_heap s') !! l = Some i' /\ same_suspension i i')).
Proof.
  apply rgs_last; [single| |].
  - intros l s1 s2 Hr (i' & Hi' & Hs). destruct (r_susp_heap _ _ _ _ Hr l i' Hi') as (j & Hj & Hs').
    exists j. split; [done|]. by etrans.
  - intros s1 Hr Hh. apply wp_zoom, wp_halloc. split; [by apply suspension_alloc_guarantee|].
    exists i. split; [apply lookup_insert_eq|done].
Qed.

Lemma rgs_addSuspensionInfo w s i i' l :
  si_coroutine_id i ∉ M -> has_entry coroutine_info_map_ (si_coroutine_id i) s ->
  cells (suspension_heap s) !! l = Some i' -> same_suspension i i' ->
  rgs (addSuspensionInfo (Some l)) w s (post w (fun _ => suspension_recorded i)).
Proof.
  intros Hid Hin Hl Hi. set (id := si_coroutine_id i) in *.
  set (R := fun s => exists i', cells (suspension_heap s) !! l = Some i' /\ same_suspension i i').
  assert (HR : stable R).
  { intros s1 s2 Hr (j & Hj & Hs). destruct (r_susp_heap _ _ _ _ Hr l j Hj) as (j' & Hj' & Hs').
    exists j'. split; [done|]. by etrans. }
  assert (Hs : R s) by (by exists i'). clear Hl Hi i'. unfold addSuspensionInfo.
  apply rgs_step; [single|]. intros s1 Hr1 Hh1. apply (stable_rely _ _ _ _ HR Hr1) in Hs.
  destruct Hs as (i1 & Hi1 & Hs1). apply wp_zoom. eapply wp_hread; [exact Hi1|]. rewrite lset_lget.
  exists w. split; [by apply look_guarantee|]. replace (si_coroutine_id i1) with id by (symmetry; apply Hs1).
  apply (stable_rely _ _ _ _ (stable_info id Hid) Hr1) in Hin.
  eapply (rgs_call _ _ _ _ _ (fun p s' => exists q, p = Some q /\ info_at id q s') R); [done|by exists i1| |].
  { apply rgs_at.
    - intros p. apply stable_exists. intros q. apply stable_and; [apply stable_pure|by apply stable_info_at].
    - intros s2 Hr2 Hh2. destruct (info_of s2 id (proj1 Hh2)) as [q Hq];
        [by eapply stable_rely; [apply stable_info|..]|].
      exists (Some q). split; [apply Hq|]. by exists q. }
  intros p s2 (q & -> & Hq) Hs2. apply rgs_last; [single|intros _; by apply stable_suspension_recorded|].
  intros s3 Hr3 Hh3. destruct (stable_rely _ _ _ _ HR Hr3 Hs2) as (i3 & Hi3 & Hs3).
  destruct (stable_rely _ _ _ _ (stable_info_at id q Hid) Hr3 Hq) as [Hm [c Hc]].
  apply wp_zoom. eapply wp_at_ptr; [exact Hc|]. apply wp_zoom, wp_modify.
  split; [apply suspension_push_guarantee; [done|done|by eexists]|].
  eexists q, _, l, i3. split; [exact Hm|]. split; [apply lookup_insert_eq|]. simpl. set_solver.
Qed.

(** The members of an info object, and the end of a suspension. *)
Lemma rgs_info_field {A} w s l (f : CoroutineInfo -> A) :
  valid (info_heap s) l -> rgs (zoom info_heap_L (hread (Some l) f)) w s (post w (fun _ _ => True)).
Proof.
  intros Hv. apply rgs_last; [single|done|]. intros s1 Hr Hh.
  destruct (stable_rely _ _ _ _ (stable_valid_info l) Hr Hv) as [i Hi].
  apply wp_zoom. eapply wp_hread; [exact Hi|]. rewrite lset_lget. split; [by apply look_guarantee|done].
Qed.

Lemma rgs_upd_info w s l f :
  valid (info_heap s) l -> (forall i, suspensions_list (f i) = suspensions_list i) ->
  rgs (zoom info_heap_L (hmodify (Some l) f)) w s (post w (fun _ _ => True)).
Proof.
  intros Hv Hf. apply rgs_last; [single|done|]. intros s1 Hr Hh.
  destruct (stable_rely _ _ _ _ (stable_valid_info l) Hr Hv) as [i Hi].
  apply wp_zoom. eapply wp_hmodify; [exact Hi|]. split; [by eapply info_put_guarantee|done].
Qed.

Lemma rgs_set_end w s l t :
  valid (suspension_heap s) l ->
  rgs (zoom susp_heap_L (hmodify (Some l) (set_si_end t))) w s (post w (fun _ _ => True)).
Proof.
  intros Hv. apply rgs_last; [single|done|]. intros s1 Hr Hh.
  destruct (stable_rely _ _ _ _ (stable_valid_susp l) Hr Hv) as [i Hi].
  apply wp_zoom. eapply wp_hmodify; [exact Hi|]. split; [by eapply suspension_put_guarantee|done].
Qed.

(** *** Samples *)

(** Pushing a record into a list of the traces heap. *)
Lemma wp_traces_push l c x s (Q : unit -> TraceStorage -> Prop) :
  cells (traces_heap s) !! l = Some c ->
  Q tt (lset traces_heap_L (hput l (CList (CL.list_ c ++ [x]) (CL.clean_until_ c)) (traces_heap s)) s) ->
  wp (zoom traces_heap_L (at_ptr (Some l) (CL.push_back x))) s Q.
Proof. intros Hl HQ. apply wp_zoom. eapply wp_at_ptr; [exact Hl|]. by apply wp_modify. Qed.

Lemma consumer_absent w s s' id :
  Consumer ∈ w -> id ∉ M -> respects M w s s' ->
  CM.map_ (processed_map_ s) !! id = None -> CM.map_ (processed_map_ s') !! id = None.
Proof. intros Hc Hid Hr H. by rewrite (proj2 (r_consumer _ _ _ _ Hr Hc)). Qed.

Lemma rgs_addProcessed_new w s id x :
  plain w -> Consumer ∈ w -> id ∉ M -> CM.map_ (processed_map_ s) !! id = None ->
  rgs (l ← zoom traces_heap_L (halloc CL.make);
       zoom traces_heap_L (at_ptr (Some l) (CL.push_back x));;
       zoom processed_L (CM.insert id (Some l));; mret tt) w s (post w (fun _ => trace_recorded id x)).
Proof.
  intros Hw Hc Hid Hn. apply rgs_step; [single|]. intros s1 Hr1 Hh1. apply wp_zoom, wp_halloc.
  apply (consumer_absent _ _ _ _ Hc Hid Hr1) in Hn.
  eexists. split; [by apply traces_alloc_guarantee|]. cbn [lget traces_heap_L].
  set (l := next (traces_heap s1)). set (s1' := lset traces_heap_L _ s1).
  assert (Hl : cells (traces_heap s1') !! l = Some CL.make) by apply lookup_insert_eq.
  assert (Hc' : Consumer ∈ NewTraces l :: w) by (by right).
  apply rgs_step; [single|]. intros s2 Hr2 Hh2.
  apply (consumer_absent _ _ _ _ Hc' Hid Hr2) in Hn.
  destruct (r_traces_heap _ _ _ _ Hr2 l _ Hl) as (c & Hl2 & _).
  eapply wp_traces_push; [exact Hl2|]. eexists. split; [by apply traces_push_guarantee|].
  set (s2' := lset traces_heap_L _ s2).
  assert (Hl2' : cells (traces_heap s2') !! l = Some (CList (CL.list_ c ++ [x]) (CL.clean_until_ c)))
    by apply lookup_insert_eq.
  apply rgs_then_return; [single|by apply stable_trace_recorded|]. intros s3 Hr3 Hh3.
  apply (consumer_absent _ _ _ _ Hc' Hid Hr3) in Hn.
  destruct (r_traces_heap _ _ _ _ Hr3 l _ Hl2') as (c3 & Hl3 & Hlong).
  apply wp_zoom. eapply wp_run; [by apply CM.run_insert_None|].
  split; [by apply processed_insert_guarantee; [exact Hh3|apply plain_new|done|exact Hn]|].
  exists l, c3. split; [apply lookup_insert_eq|]. split; [exact Hl3|].
  eapply longer_elem; [exact Hlong|]. simpl. set_solver.
Qed.

Lemma rgs_addProcessed w s id x :
  plain w -> Consumer ∈ w -> id ∉ M ->
  rgs (addProcessedTrace id x) w s (post w (fun _ => trace_recorded id x)).
Proof.
  intros Hw Hc Hid. apply rgs_read. intros s1 Hr1 Hh1. cbn [lget processed_L]. case_bool_decide as Hs.
  - eapply (rgs_call _ _ _ _ _ (fun p s' => exists l, p = Some l /\ traces_at id l s') (fun _ => True));
      [done|done| |].
    { apply rgs_at.
      - intros p. apply stable_exists. intros l. apply stable_and; [apply stable_pure|by apply stable_traces_at].
      - intros s2 Hr2 Hh2. destruct (traces_of s2 id (proj1 Hh2)) as [l Hl].
        { eapply entries_kept_Some; [apply (r_processed _ _ _ _ Hr2)|done|exact Hs]. }
        exists (Some l). split; [apply Hl|]. by exists l. }
    intros p s2 (l & -> & Hl) _. apply rgs_last; [single|intros _; by apply stable_trace_recorded|].
    intros s3 Hr3 Hh3. destruct (stable_rely _ _ _ _ (stable_traces_at id l Hid) Hr3 Hl) as [Hm [c Hc3]].
    eapply wp_traces_push; [exact Hc3|]. split; [by apply traces_push_guarantee|].
    eexists l, _. split; [exact Hm|]. split; [apply lookup_insert_eq|]. simpl. set_solver.
  - apply rgs_addProcessed_new; try done. by apply eq_None_not_Some.
Qed.

Lemma rgs_addRaw w s t a id : rgs (addRawTrace t a id) w s (post w (fun _ _ => True)).
Proof.
  apply rgs_last; [single|done|]. intros s1 Hr Hh. unfold addRawTrace. apply wp_zoom, wp_modify.
  split; [|done]. apply raw_guarantee; [done|right; apply longer_push].
Qed.

Lemma longer_ne {T} (c c' : clist T) : longer c c' -> CL.list_ c <> [] -> CL.list_ c' <> [].
Proof. intros [l Hl] Hc H. apply Hc. rewrite H in Hl. by destruct (CL.list_ c). Qed.

Lemma rgs_removeRaw w s : Consumer ∈ w -> rgs removeRawTraceHeader w s (post w (fun _ _ => True)).
Proof.
  intros Hw. unfold removeRawTraceHeader, CL.pop_front.
  apply rgs_zoom_bind, rgs_single; [single|]. intros s1 Hr1 Hh1.
  apply wp_zoom, wp_reads. rewrite lset_lget. cbn [lget raw_L]. exists w.
  split; [by apply look_guarantee|]. intros s2 Hr2 Hh2.
  destruct (CL.is_empty (CL.list_ (raw_list_ s1))) eqn:He; cbv iota; [by apply rgs_return|].
  apply rgs_zoom_bind, rgs_single; [single|]. intros s3 Hr3 Hh3.
  assert (Hne : CL.list_ (raw_list_ s3) <> []).
  { eapply longer_ne; [exact (proj1 (r_consumer _ _ _ _ Hr3 Hw))|].
    eapply longer_ne; [exact (proj1 (r_consumer _ _ _ _ Hr2 Hw))|]. by destruct (CL.list_ (raw_list_ s1)). }
  apply wp_zoom. cbn [lget raw_L]. unfold wp; simpl.
  destruct (CL.list_ (raw_list_ s3)) as [|x l] eqn:Hl; [done|].
  exists w. split; [apply raw_guarantee; [done|by left]|]. by intros s4 _ _ s5 _ _.
Qed.

(** *** Ongoing traces

    The thread that may start and end the traces of a coroutine. *)

Definition ongoing s : gmap Z TraceInfo := CM.map_ (ongoing_trace_info_map_ s).

(** What the thread knows of the traces it may start and end. *)
Definition traces_known w (m : gmap Z TraceInfo) s : Prop :=
  forall id, Tracing id ∈ w -> ongoing s !! id = m !! id.

Lemma traces_known_rely w m s s' : respects M w s s' -> traces_known w m s -> traces_known w m s'.
Proof. intros Hr H id Hid. rewrite <- (H id Hid). by apply (r_ongoing _ _ _ _ Hr). Qed.

(** An action on the ongoing traces; it is guarded as long as they are what the
    thread knows. *)
Lemma rgs_ongoing_action {A B} (p : prog (cmap Z TraceInfo) A) (g : A -> B) id w s m (b : B) m' :
  Tracing id ∈ w -> traces_known w m s -> one_action p ->
  (forall c, CM.map_ c !! id = m !! id -> unguarded p c = false /\ exists a c', run p c = Val a c' /\ g a = b /\
     CM.map_ c' !! id = m' !! id /\ forall k, k <> id -> CM.map_ c' !! k = CM.map_ c !! k) ->
  (forall k, k <> id -> m' !! k = m !! k) ->
  rgs (zoom ongoing_L p) w s (fun a w' s' => w' = w /\ g a = b /\ traces_known w m' s').
Proof.
  intros Hw Hm Hp H Hm'.
  apply rgs_one_action; [destruct p; [done|intros x; destruct (Hp x) as [a Ha]; exists a; simpl; by rewrite Ha]|].
  intros s1 Hr1 Hh1. apply (traces_known_rely _ _ _ _ Hr1) in Hm.
  destruct (H (ongoing_trace_info_map_ s1) (Hm id Hw)) as (Hgd & a & c' & Hrun & Hb & Hid & Hk).
  split; [by destruct p|]. apply wp_zoom. eapply wp_run; [exact Hrun|]. exists w. split.
  - apply ongoing_guarantee; [done|]. intros k. destruct (decide (k = id)) as [->|Hne]; [by left|right]. by apply Hk.
  - intros s2 Hr2 _. split; [done|]. split; [done|]. eapply traces_known_rely; [exact Hr2|].
    intros k Hkw. destruct (decide (k = id)) as [->|Hne]; [exact Hid|].
    rewrite (Hm' k Hne), <- (Hm k Hkw). exact (Hk k Hne).
Qed.

Lemma if_absent_ne {V} (k k' : Z) (v : V) m : k' <> k -> if_absent k v m !! k' = m !! k'.
Proof. intros H. unfold if_absent. destruct (m !! k); [done|]. by rewrite lookup_insert_ne. Qed.

Lemma rgs_addOngoing w s m i :
  Tracing (ti_coroutine_id i) ∈ w -> traces_known w m s ->
  rgs (addOngoingTraceInfo i) w s (fun b w' s' => w' = w /\
    b = bool_decide (m !! ti_coroutine_id i = None) /\
    traces_known w (if_absent (ti_coroutine_id i) i m) s').
Proof.
  intros Hw Hm. set (id := ti_coroutine_id i) in *.
  apply (rgs_ongoing_action _ (fun b => b) id _ _ m); [done|done|by intros x; eexists| |intros; by apply if_absent_ne].
  intros c Hc. split; [done|]. unfold if_absent. destruct (m !! id) as [j|] eqn:Hj.
  - exists false, c. split; [by apply (CM.run_insert_Some _ _ j)|]. by rewrite Hj.
  - eexists true, _. split; [by apply CM.run_insert_None|]. simpl. rewrite !lookup_insert_eq.
    split_and!; [done|done|]. intros k Hk. by rewrite lookup_insert_ne.
Qed.

(** A trace that the thread has started is found, and no entry is made. *)
Lemma rgs_findOngoing w s m id i :
  Tracing id ∈ w -> traces_known w m s -> m !! id = Some i ->
  rgs (findOngoingTraceInfo id) w s (fun a w' s' => w' = w /\ a = i /\ traces_known w m s').
Proof.
  intros Hw Hm Hi.
  apply (rgs_ongoing_action _ (fun b => b) id _ _ m); [done|done|by intros x; eexists| |done].
  intros c Hc. rewrite Hi in Hc. split; [simpl; by rewrite Hc|].
  exists i, c. split; [by apply CM.run_get_Some|]. by rewrite Hi.
Qed.

Lemma rgs_removeOngoing w s m id :
  Tracing id ∈ w -> traces_known w m s ->
  rgs (removeOngoingTraceInfo id) w s (fun _ w' s' => w' = w /\ traces_known w (delete id m) s').
Proof.
  intros Hw Hm. apply rgs_bind.
  eapply rgs_mono; [|apply (rgs_ongoing_action _ (fun _ => tt) id _ _ m tt (delete id m)); [done|done|by intros x; eexists| |]].
  - intros a w' s1 (-> & _ & Hm1). apply rgs_ret. intros s2 Hr2 _. split; [done|]. by eapply traces_known_rely.
  - intros c Hc. split; [done|]. eexists _, _. split; [apply CM.run_erase|]. simpl. rewrite !lookup_delete_eq.
    split_and!; [done|done|]. intros k Hk. by rewrite lookup_delete_ne.
  - intros k Hk. by rewrite lookup_delete_ne.
Qed.

(** *** Collections

    What the thread that removes collections knows of the list: that it is not
    empty, and that it has as many as were marked. *)

Definition gc_known (started room : bool) s : Prop :=
  (started = true -> CL.list_ (gc_events_ s) <> []) /\ (room = true -> gc_room (gc_events_ s)).

(** The same when one was taken out and will be put back. *)
Definition gc_missing (room : bool) s : Prop :=
  room = true -> (Z.to_nat (CL.clean_until_ (gc_events_ s)) <= S (length (CL.list_ (gc_events_ s))))%nat.

Lemma longer_length {T} (c c' : clist T) : longer c c' -> (length (CL.list_ c) <= length (CL.list_ c'))%nat.
Proof. apply prefix_length. Qed.

Lemma gc_known_rely w s s' a b : Remover ∈ w -> respects M w s s' -> gc_known a b s -> gc_known a b s'.
Proof.
  intros Hw Hr [H1 H2]. destruct (r_remover _ _ _ _ Hr Hw) as [Hl Hu]. split.
  - intros Ha. eapply longer_ne; [done|auto].
  - intros Hb. specialize (H2 Hb). apply longer_length in Hl. unfold gc_room in *. rewrite Hu. lia.
Qed.

Lemma gc_missing_rely w s s' b : Remover ∈ w -> respects M w s s' -> gc_missing b s -> gc_missing b s'.
Proof.
  intros Hw Hr H Hb. specialize (H Hb). destruct (r_remover _ _ _ _ Hr Hw) as [Hl%longer_length Hu].
  rewrite Hu. lia.
Qed.

Lemma gc_missing_push b s x :
  gc_missing b s ->
  gc_known true b (lset gc_L (CList (CL.list_ (gc_events_ s) ++ [x]) (CL.clean_until_ (gc_events_ s))) s).
Proof.
  intros H. split; simpl.
  - intros _. by destruct (CL.list_ (gc_events_ s)).
  - intros Hb. specialize (H Hb). unfold gc_room; simpl. rewrite length_app; simpl. lia.
Qed.

Lemma gc_known_missing a b s : gc_known a b s -> gc_missing b s.
Proof. intros [_ H] Hb. specialize (H Hb). unfold gc_room in H. lia. Qed.

Lemma gc_push_guarantee w s x :
  holds w s -> valid (gc_heap s) x ->
  guarantee w w s (lset gc_L (CList (CL.list_ (gc_events_ s) ++ [x]) (CL.clean_until_ (gc_events_ s))) s).
Proof.
  intros Hh Hx. apply gc_list_guarantee; [done| |right; split; [apply longer_push|done]]. simpl.
  apply Forall_app; split; [|by repeat constructor]. apply wf_gc_events, Hh.
Qed.

(** Recording the start and the end of a collection: what both end with. *)
Lemma rgs_push_gc w s x b :
  valid (gc_heap s) x -> (Remover ∈ w -> gc_missing b s) ->
  rgs (zoom gc_L (CL.push_back x)) w s (fun _ w' s' => w' = w /\ (Remover ∈ w -> gc_known true b s')).
Proof.
  intros Hx Hb. apply rgs_single; [single|]. intros s1 Hr1 Hh1. apply wp_zoom, wp_modify. exists w. split.
  - apply gc_push_guarantee; [done|]. exact (stable_rely _ _ _ _ (stable_valid_gc x) Hr1 Hx).
  - intros s2 Hr2 _. split; [done|]. intros Hw. eapply gc_known_rely; [done..|].
    apply gc_missing_push. eapply gc_missing_rely; eauto.
Qed.

Lemma keeps_now `{CK : !SteadyClock} : keeps gc_events_ now.
Proof. unfold now. by apply keeps_zoom. Qed.

(** A program that leaves the collections alone leaves what is known of them. *)
Lemma rgs_keeps_gc {A} (R : TraceStorage -> Prop) (p : prog TraceStorage A) w s Q :
  (forall w s s', Remover ∈ w -> respects M w s s' -> R s -> R s') ->
  (forall s s', gc_events_ s' = gc_events_ s -> R s -> R s') ->
  keeps gc_events_ p -> (Remover ∈ w -> R s) -> rgs p w s Q ->
  rgs p w s (fun a w' s' => Q a w' s' /\ (Remover ∈ w -> R s')).
Proof.
  intros HR Hg Hp Hs H. apply (rgs_keeps gc_events_ (fun s => Remover ∈ w -> R s)); try done.
  - intros s1 s2 He H1 Hw. eapply Hg; [done|auto].
  - intros w' s1 s2 Hw' Hr H1 Hw. eapply (HR w'); [by apply Hw'|done|auto].
Qed.

Lemma gc_missing_eq b s s' : gc_events_ s' = gc_events_ s -> gc_missing b s -> gc_missing b s'.
Proof. unfold gc_missing. by intros ->. Qed.
Lemma gc_known_eq a b s s' : gc_events_ s' = gc_events_ s -> gc_known a b s -> gc_known a b s'.
Proof. unfold gc_known. by intros ->. Qed.

Lemma rgs_gcStart `{CK : !SteadyClock} w s a b :
  (Remover ∈ w -> gc_known a b s) ->
  rgs gcStart w s (fun _ w' s' => w' = w /\ (Remover ∈ w -> gc_known true b s')).
Proof.
  intros Hk. apply rgs_bind.
  eapply rgs_mono; [|apply (rgs_keeps_gc (gc_known a b)); eauto using gc_known_rely, gc_known_eq, keeps_now, rgs_now].
  intros t w' s1 [[-> _] Hk1].
  apply rgs_step; [single|]. intros s2 Hr2 Hh2. apply wp_zoom, wp_halloc. exists w.
  split; [by apply gc_alloc_guarantee|]. apply rgs_push_gc.
  - eexists. apply lookup_insert_eq.
  - intros Hw. apply (gc_missing_eq _ s2); [done|]. apply (gc_known_missing a).
    eapply gc_known_rely; eauto.
Qed.

(** [gcFinish] after it has removed the oldest collection. *)
Lemma rgs_gcFinish_end `{CK : !SteadyClock} w s x b :
  valid (gc_heap s) x -> (Remover ∈ w -> gc_missing b s) ->
  rgs (t ← now; zoom gc_heap_L (hmodify (Some x) (set_gc_end t));; zoom gc_L (CL.push_back x)) w s
    (fun _ w' s' => w' = w /\ (Remover ∈ w -> gc_known true b s')).
Proof.
  intros Hx Hb. apply rgs_bind.
  eapply rgs_mono; [|apply (rgs_keeps_gc (gc_missing b)); eauto using gc_missing_rely, gc_missing_eq, keeps_now;
    eapply (rgs_frame _ _ _ _ (fun s => valid (gc_heap s) x)); [apply stable_valid_gc|done|apply rgs_now]].
  intros t w' s1 [[[-> _] Hx1] Hb1].
  apply rgs_step; [single|]. intros s2 Hr2 Hh2.
  destruct (stable_rely _ _ _ _ (stable_valid_gc x) Hr2 Hx1) as [e He].
  apply wp_zoom. eapply wp_hmodify; [exact He|]. exists w.
  split; [apply gc_put_guarantee; [done|by eexists]|]. apply rgs_push_gc.
  - eexists. apply lookup_insert_eq.
  - intros Hw. apply (gc_missing_eq _ s2); [done|]. eapply gc_missing_rely; eauto.
Qed.

Lemma rgs_gcFinish `{CK : !SteadyClock} w s b :
  Remover ∈ w -> gc_known true b s ->
  rgs gcFinish w s (fun _ w' s' => w' = w /\ (Remover ∈ w -> gc_known true b s')).
Proof.
  intros Hw Hk. unfold gcFinish.
  apply rgs_step; [single|]. intros s1 Hr1 Hh1. apply (gc_known_rely _ _ _ _ _ Hw Hr1) in Hk.
  destruct (gc_events_snoc s1 (so_wf _ _ (proj1 Hh1)) (proj1 Hk eq_refl)) as (l & x & e & Hl & Hx).
  assert (Hb : run CL.back (gc_events_ s1) = Val x (gc_events_ s1)).
  { destruct (gc_events_ s1) as [ll c]; simpl in Hl |- *. by rewrite Hl, list.last_snoc. }
  apply wp_zoom. eapply wp_run; [exact Hb|]. exists w.
  change (lset gc_L (gc_events_ s1) s1) with (lset gc_L (lget gc_L s1) s1). rewrite lset_lget.
  split; [by apply look_guarantee|]. assert (Hv : valid (gc_heap s1) x) by (by eexists).
  apply rgs_bind. unfold CL.pop_front.
  apply rgs_zoom_bind, rgs_single; [single|]. intros s2 Hr2 Hh2. apply (gc_known_rely _ _ _ _ _ Hw Hr2) in Hk.
  apply wp_zoom, wp_reads. rewrite lset_lget. cbn [lget gc_L]. exists w.
  split; [by apply look_guarantee|]. intros s3 Hr3 Hh3. pose proof (proj1 Hk eq_refl) as Hne.
  destruct (CL.is_empty (CL.list_ (gc_events_ s2))) eqn:He; cbv iota.
  { by destruct (CL.list_ (gc_events_ s2)). }
  apply rgs_zoom_bind, rgs_single; [single|]. intros s4 Hr4 Hh4.
  pose proof (respects_trans _ _ _ _ Hr3 Hr4) as Hr34. apply (gc_known_rely _ _ _ _ _ Hw Hr34) in Hk.
  apply (stable_rely _ _ _ _ (stable_valid_gc x) (respects_trans _ _ _ _ Hr2 Hr34)) in Hv.
  pose proof (wf_gc_events _ (so_wf _ _ (proj1 Hh4))) as Hvs. destruct Hk as [Hne4 Hroom].
  specialize (Hne4 eq_refl). apply wp_zoom. cbn [lget gc_L]. unfold wp; simpl.
  destruct (CL.list_ (gc_events_ s4)) as [|y l4] eqn:Hl4; [done|]. exists w. split.
  { apply gc_list_guarantee; [done| |by left]. simpl. by apply list.Forall_cons in Hvs as [_ Hvs]. }
  intros s5 Hr5 _ s6 Hr6 _. pose proof (respects_trans _ _ _ _ Hr5 Hr6) as Hr56.
  apply rgs_gcFinish_end.
  - exact (stable_rely _ _ _ _ (stable_valid_gc x) Hr56 Hv).
  - intros _. eapply gc_missing_rely; [exact Hw|exact Hr56|]. intros Hb'. specialize (Hroom Hb').
    unfold gc_room in Hroom. by rewrite Hl4 in Hroom.
Qed.

Lemma rgs_clean_gc w s :
  Remover ∈ w -> gc_known false true s -> rgs (zoom gc_L CL.clean) w s (post w (fun _ _ => True)).
Proof.
  intros Hw Hk. apply rgs_last; [single|done|]. intros s1 Hr1 Hh1.
  apply (gc_known_rely _ _ _ _ _ Hw Hr1) in Hk. apply wp_zoom.
  eapply wp_run; [apply CL.run_clean; exact (proj2 Hk eq_refl)|]. split; [|done].
  apply gc_list_guarantee; [done| |by left]. simpl. apply Forall_drop, wf_gc_events, Hh1.
Qed.

(** Nothing is marked, in the maps one after the other. *)
Definition unmarked_samples s : Prop := CM.clean_list_ (processed_map_ s) = [].
Definition unmarked_children s : Prop := CM.clean_list_ (child_coroutines_map_ s) = [].
Definition unmarked s : Prop :=
  (unmarked_samples s /\ unmarked_children s) /\ CM.clean_list_ (coroutine_info_map_ s) = [].

Lemma fewer_nil {A} (l l' : list A) : l' ⊆ l -> l = [] -> l' = [].
Proof. intros Hl ->. by apply list_nil_subseteq. Qed.

Lemma stable_unmarked_samples : stable unmarked_samples.
Proof. intros s s' [] H. destruct r_marked as (H1 & _). by eapply fewer_nil. Qed.
Lemma stable_unmarked_children : stable unmarked_children.
Proof. intros s s' [] H. destruct r_marked as (_ & H1 & _). by eapply fewer_nil. Qed.
Lemma stable_unmarked : stable unmarked.
Proof.
  apply stable_and; [apply stable_and; [apply stable_unmarked_samples|apply stable_unmarked_children]|].
  intros s s' [] H. destruct r_marked as (_ & _ & H1). by eapply fewer_nil.
Qed.

Lemma rgs_clean w s :
  Remover ∈ w -> gc_known false true s -> rgs clean w s (post w (fun _ => unmarked)).
Proof.
  intros Hw Hk. unfold clean.
  apply rgs_step; [single|]. intros s1 Hr1 Hh1. apply (gc_known_rely _ _ _ _ _ Hw Hr1) in Hk.
  apply wp_zoom, wp_modify. exists w. split; [by apply clean_processed_guarantee|].
  apply rgs_step; [single|]. intros s2 Hr2 Hh2. eapply (gc_known_rely _ _ _ _ _ Hw Hr2) in Hk.
  assert (Hs : unmarked_samples s2) by exact (stable_rely _ _ _ _ stable_unmarked_samples Hr2 eq_refl).
  apply wp_zoom, wp_modify. exists w. split; [by apply clean_children_guarantee|].
  apply rgs_step; [single|]. intros s3 Hr3 Hh3. eapply (gc_known_rely _ _ _ _ _ Hw Hr3) in Hk.
  assert (Hs3 : unmarked_samples s3) by exact (stable_rely _ _ _ _ stable_unmarked_samples Hr3 Hs).
  assert (Hc3 : unmarked_children s3) by exact (stable_rely _ _ _ _ stable_unmarked_children Hr3 eq_refl).
  apply wp_zoom, wp_modify. exists w. split; [by apply clean_infos_guarantee|].
  eapply rgs_mono; [|eapply (rgs_frame _ _ _ _ unmarked);
    [apply stable_unmarked|by split|by apply rgs_clean_gc]].
  by intros [] w' s4 [[-> _] H].
Qed.
End methods.
