(* ===== verification/StorageParallel.v ===== *)
(** * Threads that call the storage in parallel

    The calls a thread may make, what it learns from them, and the theorem on
    any number of threads. *)

From S2P Require Import Prelude ConcurrentList ConcurrentMap TraceTime TraceModel TraceStorage.
From S2P Require Import StorageSafety StorageSpec StorageCycle Interleaving StorageThreads.
From S2P Require Import StorageMethods.
From Stdlib Require Import ZArith Lia.
From stdpp Require Import base gmap list strings numbers.
Local Open Scope Z_scope.
Local Open Scope kt_scope.

(** ** Which calls a thread makes *)

(** What the thread is for: whether it consumes samples, whether it removes
    collections, and the coroutines whose traces it starts and ends. *)
Record role := MkRole { consumes : bool; removes : bool; traces : gset Z }.

(** What a thread knows: coroutines that have an info object, or a list of
    children; which of its own traces are ongoing; that a collection was
    recorded; that there are as many as were marked. *)
Record known := MkKnown {
  k_infos : gset Z;
  k_children : gset Z;
  k_open : gset Z;
  k_gc : bool;
  k_room : bool;
}.

Section calls.
Context (M : gset Z) (r : role).
Implicit Types (s : TraceStorage) (w : list token).

#[local] Hint Extern 0 (Interference TraceStorage _) =>
  exact (storage_interference M) : typeclass_instances.

Definition call_ok (k : known) (o : storage_op) : bool :=
  match o with
  | OpAddRaw _ _ _ | OpCreateInfo _ | OpCreateChildren _ | OpGcStart => true
  | OpAddOngoing i => bool_decide (ti_coroutine_id i ∈ traces r)
  | OpFindOngoing id => bool_decide (id ∈ traces r) && bool_decide (id ∈ k_open k)
  | OpRemoveOngoing id => bool_decide (id ∈ traces r)
  | OpRemoveRaw => consumes r
  | OpAddProcessed id _ => consumes r && bool_decide (id ∉ M)
  | OpGetProcessed id | OpLastSuspension id | OpGetInfo id | OpContainsChildren id =>
      bool_decide (id ∉ M)
  | OpAddSuspension i => bool_decide (si_coroutine_id i ∈ k_infos k)
  | OpGetChildren id => bool_decide (id ∈ k_children k)
  | OpAddChild id parent => bool_decide (id ∉ M) && bool_decide (parent ∈ k_children k)
  | OpGcFinish => removes r && k_gc k
  | OpClean => removes r && k_room k
  | OpMark => false
  end.

Definition learn (o : storage_op) (k : known) : known :=
  match o with
  | OpCreateInfo id =>
      if bool_decide (id ∉ M) then MkKnown ({[id]} ∪ k_infos k) (k_children k) (k_open k) (k_gc k) (k_room k)
      else k
  | OpCreateChildren id =>
      if bool_decide (id ∉ M) then MkKnown (k_infos k) ({[id]} ∪ k_children k) (k_open k) (k_gc k) (k_room k)
      else k
  | OpAddOngoing i =>
      MkKnown (k_infos k) (k_children k) ({[ti_coroutine_id i]} ∪ k_open k) (k_gc k) (k_room k)
  | OpRemoveOngoing id => MkKnown (k_infos k) (k_children k) (k_open k ∖ {[id]}) (k_gc k) (k_room k)
  | OpGcStart => MkKnown (k_infos k) (k_children k) (k_open k) true (k_room k)
  | OpClean => MkKnown (k_infos k) (k_children k) (k_open k) false false
  | _ => k
  end.

Fixpoint calls_ok (k : known) (os : list storage_op) : bool :=
  match os with
  | [] => true
  | o :: os => call_ok k o && calls_ok (learn o k) os
  end.

(** What is known at the start. *)
Definition initially s : known :=
  MkKnown (dom (CM.map_ (coroutine_info_map_ s)) ∖ M) (dom (CM.map_ (child_coroutines_map_ s)) ∖ M)
    (dom (CM.map_ (ongoing_trace_info_map_ s)))
    (negb (CL.is_empty (CL.list_ (gc_events_ s))))
    (bool_decide (Z.to_nat (CL.clean_until_ (gc_events_ s)) <= length (CL.list_ (gc_events_ s)))%nat).

Definition tokens : list token :=
  (if consumes r then [Consumer] else []) ++ (if removes r then [Remover] else []) ++
  (Tracing <$> elements (traces r)).

(** What the storage shows of a call that was made. *)
Definition recorded s (o : storage_op) : Prop :=
  match o with
  | OpAddProcessed id x => trace_recorded id x s
  | OpAddChild id parent => child_recorded id parent s
  | OpAddSuspension i => suspension_recorded i s
  | OpCreateInfo id => id ∉ M -> has_entry coroutine_info_map_ id s
  | OpCreateChildren id => id ∉ M -> has_entry child_coroutines_map_ id s
  | _ => True
  end.

(** What a thread knows of the maps; what it knows of the collections is
    [gc_known]. *)
Definition knows (k : known) s : Prop :=
  (forall id, id ∈ k_infos k -> id ∉ M /\ has_entry coroutine_info_map_ id s) /\
  (forall id, id ∈ k_children k -> id ∉ M /\ has_entry child_coroutines_map_ id s).

Lemma stable_knows k : stable (knows k).
Proof.
  intros s s' Hr [H1 H2]. split; intros id Hid.
  - destruct (H1 id Hid). split; [done|]. by eapply stable_info.
  - destruct (H2 id Hid). split; [done|]. by eapply stable_children.
Qed.

Lemma learn_knows o k s : knows k s -> recorded s o -> knows (learn o k) s.
Proof.
  intros [H1 H2] Ho. destruct o; simpl in *; try done; case_bool_decide; try done; split; simpl; try done;
    intros id' [->%elem_of_singleton|H']%elem_of_union; auto.
Qed.

(** ** Every call *)

Lemma plain_tokens : plain tokens.
Proof.
  intros t. unfold tokens. rewrite !elem_of_app, list_elem_of_fmap.
  intros [H|[H|(id & -> & _)]]; [| |done].
  - destruct (consumes r); [|by apply elem_of_nil in H]. by apply list_elem_of_singleton in H as ->.
  - destruct (removes r); [|by apply elem_of_nil in H]. by apply list_elem_of_singleton in H as ->.
Qed.

Lemma consumer_token : consumes r = true -> Consumer ∈ tokens.
Proof. unfold tokens. intros ->. simpl. by left. Qed.

Lemma remover_token : removes r = true -> Remover ∈ tokens.
Proof. unfold tokens. intros ->. apply elem_of_app. right. by left. Qed.

Lemma tracing_token id : id ∈ traces r -> Tracing id ∈ tokens.
Proof.
  intros H. unfold tokens. apply elem_of_app. right. apply elem_of_app. right.
  apply list_elem_of_fmap. exists id. by rewrite elem_of_elements.
Qed.

(** The calls that concern the collections, and those that concern the ongoing
    traces; the others leave them alone. *)
Definition gc_call (o : storage_op) : bool :=
  match o with OpGcStart | OpGcFinish | OpClean | OpMark => true | _ => false end.
Definition trace_call (o : storage_op) : bool :=
  match o with OpAddOngoing _ | OpFindOngoing _ | OpRemoveOngoing _ => true | _ => false end.

Ltac keeps_prim ::=
  match goal with
  | |- keeps _ (act _) => split; [intros ? ? ?; repeat case_match; by intros; simplify_eq|done]
  end.

Lemma exec_keeps_gc `{CK : !SteadyClock} o : gc_call o = false -> keeps gc_events_ (exec o).
Proof.
  intros Ho. destruct o; try discriminate Ho; unfold exec, ignore, addRawTrace, removeRawTraceHeader,
    addProcessedTrace, getProcessedTraces, addOngoingTraceInfo, findOngoingTraceInfo,
    removeOngoingTraceInfo, addSuspensionInfo, getLastSuspensionInfo, createCoroutineInfo,
    getCoroutineInfo, createChildCoroutineStorage, containsChildCoroutineStorage,
    getChildCoroutines, addChildCoroutine, now; keeps_tac.
Qed.

Lemma exec_keeps_ongoing `{CK : !SteadyClock} o :
  trace_call o = false -> keeps ongoing_trace_info_map_ (exec o).
Proof.
  intros Ho. destruct o; try discriminate Ho; unfold exec, ignore, addRawTrace, removeRawTraceHeader,
    addProcessedTrace, getProcessedTraces, addSuspensionInfo, getLastSuspensionInfo, createCoroutineInfo,
    getCoroutineInfo, createChildCoroutineStorage, containsChildCoroutineStorage,
    getChildCoroutines, addChildCoroutine, mark_for_clean, clean, gcStart, gcFinish, now; keeps_tac.
Qed.

(** The thread's own traces that are ongoing. *)
Definition open_known (k : known) w s : Prop :=
  forall id, Tracing id ∈ w -> id ∈ k_open k -> is_Some (ongoing s !! id).

Lemma open_known_rely k w s s' : respects M w s s' -> open_known k w s -> open_known k w s'.
Proof. intros Hr H id Hw Hk. unfold ongoing. rewrite (r_ongoing _ _ _ _ Hr id Hw). auto. Qed.

Lemma rgs_keeps_open {A} (p : prog TraceStorage A) k w s Q :
  keeps ongoing_trace_info_map_ p -> open_known k w s -> rgs p w s Q ->
  rgs p w s (fun a w' s' => Q a w' s' /\ open_known k w s').
Proof.
  intros Hp Hs H. apply (rgs_keeps ongoing_trace_info_map_); try done.
  - unfold open_known, ongoing. by intros s1 s2 ->.
  - intros w' s1 s2 Hw' Hr H1 id Hid Hk. assert (Hid' : Tracing id ∈ w') by (by apply Hw').
    unfold ongoing. rewrite (r_ongoing _ _ _ _ Hr id Hid'). auto.
Qed.

Lemma rgs_ignore {A} (p : prog TraceStorage A) w s (F : A -> TraceStorage -> Prop) :
  rgs p w s (post w F) -> rgs (p;; mret tt) w s (post w (fun _ _ => True)).
Proof.
  intros H. apply rgs_bind. eapply rgs_mono; [|exact H]. intros a w' s' [-> _]. by apply rgs_return.
Qed.

(** A call that is not about collections. *)
Lemma rgs_exec `{CK : !SteadyClock} k o s :
  gc_call o = false -> trace_call o = false -> call_ok k o = true -> knows k s ->
  rgs (exec o) tokens s (post tokens (fun _ s' => recorded s' o)).
Proof.
  intros Hg Ht Ho [Hi Hc]. pose proof plain_tokens. pose proof consumer_token. pose proof tracing_token.
  destruct o; simpl in Ho; unfold exec, ignore; try discriminate Hg; try discriminate Ht;
    rewrite ?andb_true_iff, ?bool_decide_eq_true in Ho; simpl recorded.
  - apply rgs_addRaw.
  - eapply rgs_ignore, rgs_removeRaw; auto.
  - destruct Ho. apply rgs_addProcessed; auto.
  - by eapply rgs_ignore, rgs_getProcessed.
  - destruct (Hi _ Ho) as [Hid Hin].
    eapply (rgs_call _ _ _ _ _ _ (has_entry coroutine_info_map_ (si_coroutine_id i)));
      [by apply stable_info|done|apply rgs_newSuspension|].
    intros l s1 (i' & Hl & Hs) Hin1. by eapply rgs_addSuspensionInfo.
  - by eapply rgs_ignore, rgs_lastSuspension.
  - by apply rgs_createInfo.
  - by eapply rgs_ignore, rgs_getInfo.
  - by apply rgs_createChildren.
  - by eapply rgs_ignore, rgs_containsChild.
  - destruct (Hc _ Ho). by eapply rgs_ignore, rgs_getChildren.
  - destruct Ho as [Ho1 Ho2]. destruct (Hc _ Ho2). by apply rgs_addChild.
Qed.

(** A call about ongoing traces. *)
Lemma rgs_trace_exec `{CK : !SteadyClock} k o s :
  trace_call o = true -> call_ok k o = true -> open_known k tokens s ->
  rgs (exec o) tokens s (post tokens (fun _ s' => open_known (learn o k) tokens s')).
Proof.
  intros Ht Ho Hk. pose proof tracing_token as Htok. assert (Hm : traces_known tokens (ongoing s) s) by (by intros id).
  destruct o; try discriminate Ht; simpl in Ho; unfold exec, ignore;
    rewrite ?andb_true_iff, ?bool_decide_eq_true in Ho.
  - apply rgs_bind. eapply rgs_mono; [|by apply (rgs_addOngoing _ _ _ (ongoing s)); auto].
    intros b w' s1 (-> & _ & Hm1). apply rgs_ret. intros s2 Hr2 _. split; [done|].
    eapply open_known_rely; [exact Hr2|]. intros id Hid. rewrite (Hm1 id Hid). unfold if_absent; simpl.
    intros [->%elem_of_singleton|Hin]%elem_of_union.
    + destruct (ongoing s !! _) as [j|] eqn:Hj; [by exists j|]. rewrite lookup_insert_eq. by eexists.
    + destruct (ongoing s !! ti_coroutine_id i) eqn:Hj; [by apply Hk|].
      rewrite lookup_insert. case_decide; [by eexists|by apply Hk].
  - destruct Ho as [Ho Hin]. destruct (Hk _ (Htok _ Ho) Hin) as [i Hi].
    apply rgs_bind. eapply rgs_mono; [|by apply (rgs_findOngoing _ _ _ (ongoing s) _ i); auto].
    intros b w' s1 (-> & _ & Hm1). apply rgs_ret. intros s2 Hr2 _. split; [done|].
    eapply open_known_rely; [exact Hr2|]. intros id' Hid'. rewrite (Hm1 id' Hid'). by apply Hk.
  - eapply rgs_mono; [|by apply (rgs_removeOngoing _ _ _ (ongoing s)); auto].
    intros a w' s' [-> Hm1]. split; [done|]. intros id' Hid'. rewrite (Hm1 id' Hid'). simpl.
    intros [Hin Hne]%elem_of_difference. rewrite lookup_delete_ne by set_solver. by apply Hk.
Qed.

(** What holds before the rest of a thread's calls. *)
Definition ready (k : known) (w : list token) s : Prop :=
  knows k s /\ (Remover ∈ w -> gc_known (k_gc k) (k_room k) s) /\ open_known k w s.

Lemma learn_gc o k : gc_call o = false -> k_gc (learn o k) = k_gc k /\ k_room (learn o k) = k_room k.
Proof. destruct o; try done; simpl; by case_bool_decide. Qed.

Lemma learn_open o k w s : trace_call o = false -> open_known k w s -> open_known (learn o k) w s.
Proof. unfold open_known. destruct o; try done; simpl; by case_bool_decide. Qed.

Lemma live_recorded k o s : knows k s -> call_ok k o = true -> stable (fun s => recorded s o).
Proof.
  intros [Hi Hc] Ho. destruct o; simpl in *; try apply stable_True;
    rewrite ?andb_true_iff, ?bool_decide_eq_true in Ho.
  - apply stable_trace_recorded, Ho.
  - apply stable_suspension_recorded. by apply Hi.
  - intros s1 s2 Hr H Hid. eapply stable_info; eauto.
  - intros s1 s2 Hr H Hid. eapply stable_children; eauto.
  - apply stable_child_recorded, Hc, Ho.
Qed.

Lemma rgs_gc_exec `{CK : !SteadyClock} k o s :
  gc_call o = true -> call_ok k o = true -> ready k tokens s ->
  rgs (exec o) tokens s (fun _ w' s' => w' = tokens /\
    (Remover ∈ tokens -> gc_known (k_gc (learn o k)) (k_room (learn o k)) s')).
Proof.
  intros Hg Ho (_ & Hk & _). pose proof remover_token. destruct o; try discriminate Hg; simpl in Ho; try discriminate Ho.
  - by eapply rgs_gcStart.
  - apply andb_true_iff in Ho as [Ho1 Ho2]. simpl. rewrite Ho2 in *. apply rgs_gcFinish; auto.
  - apply andb_true_iff in Ho as [Ho1 Ho2]. rewrite Ho2 in *.
    eapply rgs_mono; [|apply rgs_clean; auto].
    + intros a w' s' [-> _]. split; [done|]. by intros _; split.
    + destruct Hk; [auto|]. by split.
Qed.

Lemma rgs_call_ready `{CK : !SteadyClock} k o s :
  call_ok k o = true -> ready k tokens s ->
  rgs (exec o) tokens s (fun _ w' s' => w' = tokens /\ ready (learn o k) tokens s' /\ recorded s' o).
Proof.
  intros Ho Hk. pose proof Hk as (Hkn & Hgc & Hop). destruct (gc_call o) eqn:Hg; [|destruct (trace_call o) eqn:Ht].
  - assert (Ht : trace_call o = false) by (by destruct o).
    eapply rgs_mono; [|eapply (rgs_frame _ _ _ _ _ (stable_knows k) Hkn),
      (rgs_keeps_open _ k), rgs_gc_exec; [by apply exec_keeps_ongoing|exact Hop|done|exact Ho|exact Hk]].
    intros a w' s' [[[-> Hgc'] Hop'] Hk']. assert (Hr : recorded s' o) by (by destruct o).
    split; [done|]. split; [|done]. split; [by apply learn_knows|]. split; [done|by apply learn_open].
  - eapply rgs_mono; [|eapply (rgs_frame _ _ _ _ _ (stable_knows k) Hkn),
      (rgs_keeps_gc M (gc_known (k_gc k) (k_room k))); eauto using gc_known_rely, gc_known_eq, exec_keeps_gc;
      by apply (rgs_trace_exec k)].
    intros a w' s' [[[-> Hop'] Hgc'] Hk']. assert (Hr : recorded s' o) by (by destruct o).
    split; [done|]. split; [|done]. split; [by apply learn_knows|].
    destruct (learn_gc o k Hg) as [-> ->]. done.
  - eapply rgs_mono; [|eapply (rgs_frame _ _ _ _ _ (stable_knows k) Hkn), (rgs_keeps_open _ k);
      [by apply exec_keeps_ongoing|exact Hop|];
      eapply (rgs_keeps_gc M (gc_known (k_gc k) (k_room k))); eauto using gc_known_rely, gc_known_eq, exec_keeps_gc;
      by apply (rgs_exec k)].
    intros a w' s' [[[[-> Hr] Hgc'] Hop'] Hk']. split; [done|]. split; [|done]. split; [by apply learn_knows|].
    destruct (learn_gc o k Hg) as [-> ->]. split; [done|by apply learn_open].
Qed.

(** A thread: its calls in a row. *)
Definition thread_calls `{CK : !SteadyClock} (os : list storage_op) : prog TraceStorage unit :=
  for_each os exec.

Lemma rgs_thread `{CK : !SteadyClock} os k s :
  calls_ok k os = true -> ready k tokens s ->
  rgs (thread_calls os) tokens s (fun _ _ s' => Forall (recorded s') os).
Proof.
  revert k s. induction os as [|o os IH]; intros k s Hos Hk; unfold thread_calls; simpl for_each.
  - by apply rgs_ret.
  - simpl in Hos. apply andb_true_iff in Hos as [Ho Hos].
    pose proof (live_recorded k o s (proj1 Hk) Ho) as Hst.
    apply rgs_bind. eapply rgs_mono; [|by apply rgs_call_ready]. intros [] w s1 (-> & Hk1 & Hr).
    eapply rgs_mono; [|eapply (rgs_frame _ _ _ _ _ Hst Hr); by eapply IH].
    intros a w s2 [H1 H2]. by constructor.
Qed.

Lemma initially_ready w s : ready (initially s) w s.
Proof.
  split; [split|split].
  - intros id [H1%elem_of_dom H2]%elem_of_difference. done.
  - intros id [H1%elem_of_dom H2]%elem_of_difference. done.
  - intros _. split; simpl.
    + intros H. by destruct (CL.list_ (gc_events_ s)).
    + intros H. by apply bool_decide_eq_true in H.
  - intros id _ H. simpl in H. by apply elem_of_dom in H.
Qed.
End calls.

(** ** All threads together *)

(** At most one thread has the role. *)
Definition at_most_one {A} (f : A -> bool) (l : list A) : Prop := (length (List.filter f l) <= 1)%nat.

Lemma filter_lookup {A} (f : A -> bool) (l : list A) i x :
  l !! i = Some x -> f x = true -> (1 <= length (List.filter f l))%nat.
Proof.
  revert i. induction l as [|y l IH]; intros [|i]; simpl; try done.
  - intros [= ->] ->. simpl. lia.
  - intros Hi Hx. specialize (IH i Hi Hx). destruct (f y); simpl; lia.
Qed.

Lemma at_most_one_index {A} (f : A -> bool) (l : list A) i j x y :
  at_most_one f l -> l !! i = Some x -> l !! j = Some y -> f x = true -> f y = true -> i = j.
Proof.
  unfold at_most_one. revert i j. induction l as [|z l IH]; intros [|i] [|j]; simpl; try done.
  - intros Hl [= ->] Hj Hx Hy. rewrite Hx in Hl. pose proof (filter_lookup f l j y Hj Hy). simpl in Hl. lia.
  - intros Hl Hi [= ->] Hx Hy. rewrite Hy in Hl. pose proof (filter_lookup f l i x Hi Hx). simpl in Hl. lia.
  - intros Hl Hi Hj Hx Hy. f_equal. apply (IH i j); try done. destruct (f z); simpl in Hl; lia.
Qed.

Section threads.
Context `{CK : !SteadyClock} (M : gset Z).
Implicit Types (s : TraceStorage) (ts : list (role * list storage_op)).

#[local] Hint Extern 0 (Interference TraceStorage _) =>
  exact (storage_interference M) : typeclass_instances.

Definition start s ts : config TraceStorage unit := (s, (fun t => thread_calls t.2) <$> ts).

(** No two threads start and end the traces of the same coroutine. *)
Fixpoint separate_traces (l : list role) : Prop :=
  match l with
  | [] => True
  | r :: l => Forall (fun r' => traces r ## traces r') l /\ separate_traces l
  end.

Lemma separate_index l i j r r' :
  separate_traces l -> i <> j -> l !! i = Some r -> l !! j = Some r' -> traces r ## traces r'.
Proof.
  revert i j. induction l as [|r0 l IH]; [done|]. intros [|i] [|j] [Hl Hs] Hij Hi Hj; simpl in *; try done.
  - simplify_eq. exact (Forall_lookup_1 _ _ _ _ Hl Hj).
  - simplify_eq. symmetry. exact (Forall_lookup_1 _ _ _ _ Hl Hi).
  - apply (IH i j); [done|congruence|done..].
Qed.

Lemma elem_of_tokens r t :
  t ∈ tokens r <-> (t = Consumer /\ consumes r = true) \/ (t = Remover /\ removes r = true) \/
    exists id, t = Tracing id /\ id ∈ traces r.
Proof.
  unfold tokens. rewrite !elem_of_app, list_elem_of_fmap. setoid_rewrite elem_of_elements.
  destruct (consumes r), (removes r); rewrite ?list_elem_of_singleton, ?elem_of_nil; naive_solver.
Qed.

Lemma tokens_disj r r' :
  ~ (consumes r = true /\ consumes r' = true) -> ~ (removes r = true /\ removes r' = true) ->
  traces r ## traces r' -> disj (S := TraceStorage) (tokens r) (tokens r').
Proof.
  intros Hc Hr Ht t [[-> H1]|[[-> H1]|(id & -> & H1)]]%elem_of_tokens
    [[H2 H3]|[[H2 H3]|(id' & H2 & H3)]]%elem_of_tokens; simplify_eq; [by apply Hc|by apply Hr|set_solver].
Qed.

(** No two threads hold the same token. *)
Lemma roles_apart {A} (ts : list (role * A)) i j w u :
  at_most_one consumes ts.*1 -> at_most_one removes ts.*1 -> separate_traces ts.*1 -> i <> j ->
  ((fun t => tokens t.1) <$> ts) !! i = Some w -> ((fun t => tokens t.1) <$> ts) !! j = Some u ->
  disj (S := TraceStorage) w u.
Proof.
  intros Hc Hr Htr Hij Hw Hu. rewrite list_lookup_fmap in Hw; rewrite list_lookup_fmap in Hu.
  destruct (ts !! i) as [[r os]|] eqn:Hi, (ts !! j) as [[r' os']|] eqn:Hj; simplify_eq/=.
  assert (Hi' : ts.*1 !! i = Some r) by (by rewrite list_lookup_fmap, Hi).
  assert (Hj' : ts.*1 !! j = Some r') by (by rewrite list_lookup_fmap, Hj).
  apply tokens_disj; [intros [H1 H2]; apply Hij..|by eapply (separate_index _ i j)].
  - by apply (at_most_one_index _ _ i j r r' Hc).
  - by apply (at_most_one_index _ _ i j r r' Hr).
Qed.

Lemma start_ok s ts :
  shared_ok M s -> at_most_one consumes ts.*1 -> at_most_one removes ts.*1 ->
  separate_traces ts.*1 ->
  Forall (fun t => calls_ok M t.1 (initially M s) t.2 = true) ts ->
  pool_ok (start s ts) ((fun t _ _ s' => Forall (recorded M s') t.2) <$> ts) ((fun t => tokens t.1) <$> ts).
Proof.
  intros Hs Hc Hr Htr Hts. unfold pool_ok, start; simpl. rewrite !length_fmap. split_and!; [done|done| |].
  - intros i p w Q Hp Hw HQ. rewrite list_lookup_fmap in Hp; rewrite list_lookup_fmap in Hw;
    rewrite list_lookup_fmap in HQ.
    destruct (ts !! i) as [[r os]|] eqn:Hi; simplify_eq/=.
    pose proof (Forall_lookup_1 _ _ _ _ Hts Hi) as Hok. simpl in Hok. split.
    + split; [done|]. intros t Ht. apply plain_tokens in Ht. by destruct t.
    + eapply rgs_thread; [exact Hok|apply initially_ready].
  - intros i j w u Hij Hw Hu. by apply (roles_apart ts i j).
Qed.

(** C4: any number of threads can call the storage at the same time.  From a
    well-formed state, let one thread at most consume samples, one at most
    remove collections, one at most start and end the traces of a coroutine,
    and let every call concern a coroutine its thread may use ([calls_ok]): none
    of those marked for cleaning, one that is registered where the method does
    not test it, and a trace that is ongoing where it is looked up.  Then in
    every interleaving, the cleaner's included, no call throws or is undefined,
    none inserts a key through [operator[]] under a lock that others share (a
    data race), and the storage is well-formed; however the execution goes on,
    all threads return; and then no update is lost: every processed trace,
    child, suspension and coroutine that any thread has added is in the
    storage. *)
Theorem storage_threads_safe s ts c :
  shared_ok M s -> at_most_one consumes ts.*1 -> at_most_one removes ts.*1 ->
  separate_traces ts.*1 ->
  Forall (fun t => calls_ok M t.1 (initially M s) t.2 = true) ts ->
  rtc tstep (start s ts) c ->
  storage_wf c.1 /\ ~ undefined_in c /\ ~ races_in c /\ (forall e, ~ throws_in c e) /\
  inevitably tstep finished c /\
  (finished c -> Forall (fun t => Forall (recorded M c.1) t.2) ts).
Proof.
  intros Hs Hc Hr Htr Hts Hsteps.
  destruct (threads_safe _ _ _ _ (start_ok s ts Hs Hc Hr Htr Hts) Hsteps) as (Hu & Hx & He & Hp & HQ & Hh).
  split_and!; [|done..|by eapply threads_finish, Hsteps; apply start_ok|].
  - destruct ts as [|t ts]; [by rewrite (no_threads _ _ Hsteps); apply so_wf with M|].
    destruct Hh as [w [[Hwf _ _ _ _] _]]; [|done]. intros Hnil.
    apply tsteps_length in Hsteps. by rewrite Hnil in Hsteps.
  - intros Hf. apply list.Forall_forall. intros [r os] [i Hi]%list_elem_of_lookup.
    destruct (lookup_lt_is_Some_2 c.2 i) as [p Hpi].
    { rewrite (tsteps_length _ _ Hsteps). simpl. rewrite length_fmap. by eapply lookup_lt_Some. }
    destruct (Forall_lookup_1 _ _ _ _ Hf Hpi) as [a ->].
    edestruct (HQ i a) as (w & _ & H); [done|by rewrite list_lookup_fmap, Hi|exact H].
Qed.
End threads.

(** ** An execution *)

Section demo.
Local Existing Instance tick_clock.

(** Coroutine 1 is being cleaned while coroutine 2 is created and sampled. *)
Definition demo_threads : list (role * list storage_op) :=
  [(MkRole false false {[2]}, [OpAddOngoing (MkTraceInfo 2 1 0); OpFindOngoing 2; OpCreateInfo 2; OpCreateChildren 2;
      OpAddSuspension (MkSuspension 2 5 0 []); OpAddChild 3 2]);
   (MkRole true false ∅, [OpRemoveRaw; OpAddProcessed 2 demo_sample]);
   (MkRole false true ∅, [OpClean])].

Definition demo_schedule : list nat := [0; 0; 0; 1; 2; 0; 1; 2; 0; 1; 2; 0; 1; 2; 0; 1; 0; 0; 0; 0; 0; 0; 0; 0]%nat.

Definition demo_end : config TraceStorage unit :=
  default (start demo_marked demo_threads) (schedule demo_schedule (start demo_marked demo_threads)).

Lemma demo_marked_ok : shared_ok {[1]} demo_marked.
Proof.
  assert (Hwf : storage_wf demo_marked).
  { apply (op_result_safe (match run (addProcessedTrace 1 demo_sample) make_storage with
             | Val _ s => s | _ => make_storage end) OpMark);
      [|exact I|vm_compute; reflexivity].
    exact (exec_wf make_storage (OpAddProcessed 1 demo_sample) make_storage_wf I). }
  split; [done| | | |]; intros k; [intros Hk..|intros l c _ Hm].
  - change (CM.clean_list_ (processed_map_ demo_marked)) with [1] in Hk. set_solver.
  - by apply elem_of_nil in Hk.
  - by apply elem_of_nil in Hk.
  - by vm_compute in Hm.
Qed.

Lemma demo_separate : separate_traces demo_threads.*1.
Proof. simpl. repeat constructor; set_solver. Qed.

Lemma storage_threads_safe_witness :
  storage_wf demo_end.1 /\ Forall (fun t => Forall (recorded {[1]} demo_end.1) t.2) demo_threads.
Proof.
  assert (Hs : schedule demo_schedule (start demo_marked demo_threads) = Some demo_end)
    by (vm_compute; reflexivity).
  destruct (storage_threads_safe {[1]} demo_marked demo_threads demo_end demo_marked_ok)
    as (Hwf & _ & _ & _ & _ & Hr).
  - unfold at_most_one; simpl; lia.
  - unfold at_most_one; simpl; lia.
  - exact demo_separate.
  - repeat (constructor; [vm_compute; reflexivity|]). constructor.
  - by eapply schedule_sound.
  - split; [exact Hwf|]. apply Hr. vm_compute. repeat (constructor; [by eexists|]). constructor.
Defined.
End demo.
