(* ===== verification/StorageRaces.v ===== *)
(** * Methods of the storage and the cleaner

    Why [StorageParallel] keeps the threads away from the keys that are being
    cleaned.  A method tests for a key and then uses it, each under a lock of its
    own; here the cleaner erases the key in between.  The statements are about
    any storage, any marked key and the methods as they are called. *)

From S2P Require Import Prelude ConcurrentList ConcurrentMap TraceTime TraceModel TraceStorage.
From S2P Require Import StorageSafety StorageSpec StorageCycle.
From Stdlib Require Import ZArith Lia.
From stdpp Require Import base gmap list strings numbers.
Local Open Scope Z_scope.
Local Open Scope kt_scope.

(** The key has an entry, which the next [clean] erases. *)
Definition to_erase {V} (m : cmap Z V) (id : Z) : Prop :=
  is_Some (CM.map_ m !! id) /\ id ∈ CM.clean_list_ m.

Lemma erased {V} (m : cmap Z V) id : to_erase m id -> CM.erase_all (CM.clean_list_ m) (CM.map_ m) !! id = None.
Proof. intros [_ H]. by rewrite CM.lookup_erase_all, bool_decide_eq_true_2. Qed.

Section races.
Context `{CK : !SteadyClock}.
Implicit Types (s : TraceStorage) (p q : prog TraceStorage unit).

(** The calling thread and the cleaner. *)
Definition against_cleaner s p : config TraceStorage unit := (s, [p; clean]).

(** A step of the one, and of the other. *)
Lemma caller_step s s' p p' q c :
  pstep p s = Some (Val p' s') -> rtc tstep (s', [p'; q]) c -> rtc tstep (s, [p; q]) c.
Proof. intros Hp. apply rtc_l. exact (tstep_intro s [p; q] 0 p p' s' eq_refl Hp). Qed.

Lemma cleaner_step s s' p q q' c :
  pstep q s = Some (Val q' s') -> rtc tstep (s', [p; q']) c -> rtc tstep (s, [p; q]) c.
Proof. intros Hq. apply rtc_l. exact (tstep_intro s [p; q] 1 q q' s' eq_refl Hq). Qed.

(** The storage after the cleaner's first action, and after its third. *)
Definition processed_erased s : TraceStorage :=
  lset processed_L (CMap (CM.erase_all (CM.clean_list_ (processed_map_ s)) (CM.map_ (processed_map_ s))) []) s.
Definition children_erased s : TraceStorage :=
  lset children_L (CMap (CM.erase_all (CM.clean_list_ (child_coroutines_map_ s)) (CM.map_ (child_coroutines_map_ s))) []) s.
Definition infos_erased s : TraceStorage :=
  lset infos_L (CMap (CM.erase_all (CM.clean_list_ (coroutine_info_map_ s)) (CM.map_ (coroutine_info_map_ s))) []) s.

Lemma clean_processed s p c :
  rtc tstep (processed_erased s, [p; zoom children_L CM.clean;; zoom infos_L CM.clean;; zoom gc_L CL.clean]) c ->
  rtc tstep (against_cleaner s p) c.
Proof. by apply cleaner_step. Qed.

Lemma clean_infos s p c :
  rtc tstep (infos_erased (children_erased (processed_erased s)), [p; zoom gc_L CL.clean]) c ->
  rtc tstep (against_cleaner s p) c.
Proof. intros H. apply clean_processed. do 2 (eapply cleaner_step; [reflexivity|]). exact H. Qed.

(** C38: the two locks of a method are not one.  From any state in which the
    cleaner is about to erase a coroutine that has samples and an info, there
    are interleavings in which a sample that is stored for it throws
    [std::out_of_range]; in which the search for its open suspension inserts the
    erased key through [operator[]] under a lock that others share (a data
    race), and then uses the null pointer it has inserted; and in which a lookup
    of its info inserts a null info that a later creation of the coroutine does
    not replace. *)
Theorem cleaner_races s id x :
  to_erase (processed_map_ s) id -> to_erase (coroutine_info_map_ s) id ->
  (exists c, rtc tstep (against_cleaner s (addProcessedTrace id x)) c /\
     throws_in c (Out_of_range "unordered_map::at")) /\
  (exists c c', rtc tstep (against_cleaner s (getLastSuspensionInfo id;; mret tt)) c /\ races_in c /\
     tstep c c' /\ undefined_in c') /\
  (exists c, rtc tstep (against_cleaner s (getCoroutineInfo id;; createCoroutineInfo id)) c /\
     c.2 !! 0%nat = Some (Ret tt) /\ CM.map_ (coroutine_info_map_ c.1) !! id = Some None).
Proof.
  intros Hp Hi. pose proof (erased _ _ Hp) as Hp'. pose proof (erased _ _ Hi) as Hi'. split_and!.
  - eexists. split.
    + eapply caller_step; [reflexivity|]. cbn [lget processed_L]. rewrite bool_decide_eq_true_2 by apply Hp.
      apply clean_processed. reflexivity.
    + exists 0%nat. eexists _, _. split; [reflexivity|]. cbn. by rewrite Hp'.
  - eexists _, _. split; [|split; [|split]].
    + eapply caller_step; [reflexivity|]. cbn [lget infos_L]. rewrite bool_decide_eq_true_2 by apply Hi.
      apply clean_infos. reflexivity.
    + exists 0%nat. eexists. split; [reflexivity|]. cbn. by rewrite Hi'.
    + eapply (tstep_intro _ _ 0); [reflexivity|]. cbn. by rewrite Hi'.
    + exists 0%nat. eexists _, _. split; reflexivity.
  - eexists. split.
    + eapply caller_step; [reflexivity|]. cbn [lget infos_L]. rewrite bool_decide_eq_true_2 by apply Hi.
      apply clean_infos. eapply caller_step; [cbn; rewrite Hi'; reflexivity|].
      do 3 (eapply caller_step; [reflexivity|]).
      eapply caller_step; [cbn; rewrite bool_decide_eq_true_2 by (rewrite lookup_insert_eq; by eexists); reflexivity|].
      reflexivity.
    + split; [reflexivity|]. cbn. apply lookup_insert_eq.
Qed.
End races.

(** ** Example: a coroutine that was sampled and has been marked *)

Section demo.
Local Existing Instance tick_clock.

Definition demo_cleaned : TraceStorage :=
  match run (createCoroutineInfo 1;; addProcessedTrace 1 demo_sample;; mark_for_clean) make_storage with
  | Val _ s => s
  | _ => make_storage
  end.

Lemma cleaner_races_witness :
  exists c, rtc tstep (against_cleaner demo_cleaned (addProcessedTrace 1 demo_sample)) c /\
    throws_in c (Out_of_range "unordered_map::at").
Proof.
  destruct (cleaner_races demo_cleaned 1 demo_sample) as [H _]; [..|exact H];
    (split; [vm_compute; by eexists|apply (bool_decide_eq_true_1 _); vm_compute; reflexivity]).
Defined.
End demo.
