(* ===== verification/PlotThreads.v ===== *)
(** * The plot of a trace while other threads use the storage

    [write_perfetto] walks the coroutines of a trace without a lock of its own:
    coroutines are created, sampled and suspended while it runs.  It reads no
    null and no dangling pointer, as long as the traced coroutine is not being
    cleaned. *)

From S2P Require Import Prelude ConcurrentList ConcurrentMap TraceTime TraceModel TraceStorage.
From S2P Require Import StorageSafety StorageSpec StorageCycle Interleaving StorageThreads.
From S2P Require Import StorageMethods Perfetto SuspensionPlot.
From Stdlib Require Import ZArith Lia.
From stdpp Require Import base gmap list strings numbers pretty.
Local Open Scope Z_scope.
Local Open Scope kt_scope.

Section plot.
Context (M : gset Z) (deref : strptr -> string).
Implicit Types (s : TraceStorage) (w : list token).

#[local] Hint Extern 0 (Interference TraceStorage _) =>
  exact (storage_interference M) : typeclass_instances.

(** An action that only looks. *)
Lemma rgs_look {A} (p : prog TraceStorage A) w s (F : A -> Prop) :
  single p ->
  (forall s1, respects M w s s1 -> holds w s1 -> wp p s1 (fun a s2 => s2 = s1 /\ F a)) ->
  rgs p w s (post w (fun a _ => F a)).
Proof.
  intros Hp H. apply rgs_last; [done|intros a; apply stable_pure|]. intros s1 Hr Hh.
  eapply wp_mono; [|by apply H]. intros a s2 [-> Ha]. split; [by apply look_guarantee|done].
Qed.

Lemma suspensions_read s l i :
  storage_wf s -> cells (info_heap s) !! l = Some i ->
  is_Some (mapM (fun l => cells (suspension_heap s) !! l) (CL.list_ (suspensions_list i))).
Proof. intros Hwf Hi. apply mapM_is_Some. eapply Forall_impl; [by eapply wf_suspensions|]. done. Qed.

Lemma rgs_each_suspension w s l f st :
  valid (info_heap s) l -> rgs (each_suspension (Some l) f st) w s (post w (fun _ _ => True)).
Proof.
  intros Hv. apply (rgs_look _ _ _ (fun _ => True)); [single|]. intros s1 Hr Hh.
  destruct (stable_rely _ _ _ _ (stable_valid_info M l) Hr Hv) as [i Hi].
  destruct (suspensions_read s1 l i (so_wf _ _ (proj1 Hh)) Hi) as [xs Hxs].
  eapply wp_act; [simpl; by rewrite Hi, Hxs|done].
Qed.

Lemma rgs_switches w s l f name :
  valid (info_heap s) l -> rgs (switches_annotation (Some l) f name) w s (post w (fun _ _ => True)).
Proof.
  intros Hv. unfold switches_annotation.
  eapply (rgs_call _ _ _ _ _ _ (fun s => valid (info_heap s) l));
    [apply stable_valid_info|done|by apply rgs_info_field|]. intros n s1 _ Hv1.
  destruct (n =? 0); [|by apply rgs_return].
  eapply (rgs_call _ _ _ _ _ _ (fun _ => True)); [done|done|by apply rgs_info_field|].
  intros m s2 _ _. by apply rgs_return.
Qed.

(** A read of a member, unless the trace itself gives the time. *)
Lemma rgs_time w s l (b : bool) t (f : CoroutineInfo -> TraceTime) :
  valid (info_heap s) l ->
  rgs (if b then mret t else info_field (Some l) f) w s (post w (fun _ _ => True)).
Proof. intros Hv. destruct b; [by apply rgs_return|by apply rgs_info_field]. Qed.

Lemma rgs_samples w s id p ti seq track st :
  id ∉ M -> ptr_to (traces_at id) p s ->
  rgs (if bool_decide (p = None) then mret st else add_call_stack deref p ti seq track st) w s
    (post w (fun _ _ => True)).
Proof.
  intros Hid Hp. case_bool_decide as Hn; [by apply rgs_return|]. destruct p as [l|]; [|done].
  apply (rgs_look _ _ _ (fun _ => True)); [single|]. intros s1 Hr Hh.
  destruct (stable_rely _ _ _ _ (stable_traces_at M id l Hid) Hr Hp) as [_ [c Hc]].
  apply wp_zoom. eapply wp_at_ptr; [exact Hc|]. apply wp_reads.
  rewrite hput_id by done. by rewrite lset_lget.
Qed.

(** The coroutines that a turn of the loop appends to the queue. *)
Definition live_items (items : list queue_item) : Prop := Forall (fun it => it.1 ∉ M) items.

Lemma children_items (l : list Z) (visited : gset Z) id items :
  Forall (fun x => x ∉ M) l -> live_items items ->
  live_items (foldl (fun items child => if bool_decide (child ∈ visited) then items
    else items ++ [(child, id)]) items l).
Proof.
  intros H. revert items. induction H as [|x l Hx _ IH]; intros items Hi; simpl; [done|].
  apply IH. case_bool_decide; [done|]. apply Forall_app. by repeat constructor.
Qed.

Lemma rgs_children w s id (visited : gset Z) (st : plot) :
  id ∉ M -> has_entry child_coroutines_map_ id s ->
  rgs (children ← getChildCoroutines id;
       items ← zoom child_heap_L (at_ptr children (CL.forEach (fun items child =>
         if bool_decide (child ∈ visited) then items else items ++ [(child, id)]) []));
       mret (items, st)) w s
    (post w (fun r _ => live_items r.1)).
Proof.
  intros Hid Hs. eapply (rgs_call _ _ _ _ _ _ (fun _ => True)); [done|done|by apply rgs_getChildren|].
  intros p s1 (l & -> & Hl) _. apply rgs_step; [single|]. intros s2 Hr2 Hh2.
  destruct (stable_rely _ _ _ _ (stable_children_at M id l Hid) Hr2 Hl) as [Hm [c Hc]].
  apply wp_zoom. eapply wp_at_ptr; [exact Hc|]. apply wp_reads.
  rewrite hput_id by done. rewrite lset_lget. exists w. split; [by apply look_guarantee|].
  apply rgs_return; [apply stable_pure|]. apply children_items; [|constructor].
  by eapply (so_live _ _ (proj1 Hh2)).
Qed.

Lemma rgs_plot_coroutine w s ti seq visited item st :
  item.1 ∉ M ->
  rgs (plot_coroutine deref ti seq visited item st) w s (post w (fun r _ => live_items r.1)).
Proof.
  destruct item as [id parent]. cbn [fst]. intros Hid. unfold plot_coroutine.
  eapply (rgs_call _ _ _ _ _ _ (fun _ => True)); [done|done|by apply rgs_getInfo|].
  intros p s1 [_ Hp] _. case_bool_decide as Hn; [by apply rgs_return; [apply stable_pure|constructor]|].
  destruct p as [l|]; [|done]. destruct Hp as [_ Hv]. clear Hn. set (V := fun s => valid (info_heap s) l).
  assert (HV : stable V) by apply stable_valid_info.
  eapply (rgs_call _ _ _ _ _ _ V); [done|done|by apply rgs_info_field|]. intros wall s2 _ Hv2.
  eapply (rgs_call _ _ _ _ _ _ V); [done|done|by apply rgs_info_field|]. intros user s3 _ Hv3.
  eapply (rgs_call _ _ _ _ _ _ V); [done|done|by apply rgs_info_field|]. intros system s4 _ Hv4.
  eapply (rgs_call _ _ _ _ _ _ V); [done|done|by apply rgs_time|]. intros start s5 _ Hv5.
  eapply (rgs_call _ _ _ _ _ _ V); [done|done|by apply rgs_switches|]. intros vol s6 _ Hv6.
  eapply (rgs_call _ _ _ _ _ _ V); [done|done|by apply rgs_switches|]. intros invol s7 _ Hv7.
  eapply (rgs_call _ _ _ _ _ _ V); [done|done|by apply rgs_time|]. intros finish s8 _ Hv8.
  eapply (rgs_call _ _ _ _ _ _ V); [done|done|by apply rgs_getProcessed|]. intros tp s9 Htp Hv9.
  destruct (next_track _) as [track st1].
  eapply (rgs_call _ _ _ _ _ _ V); [done|done|by apply (rgs_samples _ _ id)|]. intros st2 s10 _ Hv10.
  eapply (rgs_call _ _ _ _ _ _ V); [done|done|by apply rgs_each_suspension|]. intros st3 s11 _ Hv11.
  eapply (rgs_call _ _ _ _ _ _ V); [done|done|by apply rgs_containsChild|]. intros b s12 Hb _.
  destruct b; [|by apply rgs_return; [apply stable_pure|constructor]].
  apply rgs_children; auto.
Qed.

Lemma rgs_trace_loop fuel w s ti seq queue visited st :
  live_items queue ->
  rgs (trace_loop deref fuel ti seq queue visited st) w s (post w (fun _ _ => True)).
Proof.
  revert s queue visited st. induction fuel as [|fuel IH]; intros s queue visited st Hq;
    destruct queue as [|item queue]; try (by apply rgs_return).
  apply list.Forall_cons in Hq as [Hi Hq]. cbn [trace_loop].
  eapply (rgs_call _ _ _ _ _ _ (fun _ => True)); [done|done|by apply rgs_plot_coroutine|].
  intros [items st'] s1 Hitems _. apply IH. by apply Forall_app.
Qed.

Lemma rgs_write_perfetto fuel w s path ti :
  ti_coroutine_id ti ∉ M ->
  rgs (write_perfetto deref fuel path ti) w s (post w (fun _ _ => True)).
Proof.
  intros Hid. unfold write_perfetto. destruct (trace_packets ti) as [track st].
  eapply (rgs_call _ _ _ _ _ (fun _ _ => True) (fun _ => True)); [done|done| |].
  { apply (rgs_look _ _ _ (fun _ => True)); [single|]. intros s1 _ Hw. apply wp_findGcEvents; [apply Hw|done]. }
  intros st1 s1 _ _. eapply (rgs_call _ _ _ _ _ _ (fun _ => True)); [done|done| |].
  { unfold add_trace_info. apply rgs_trace_loop. by repeat constructor. }
  intros r s2 _ _. by apply rgs_return.
Qed.
End plot.
