(* ===== verification/ProfilerThreads.v ===== *)
(** * The profiler shared by several threads

    What the threads that run handlers at the same time rely on.  The storage
    is shared as in [StorageThreads]; names and registered threads are only
    added; and the contents of the storage stay well-formed ([content]), which
    a program shows action by action ([preserves]).  [rgs_lift] turns what a
    method of the storage guarantees into what the profiler's call of it
    guarantees. *)

From S2P Require Import Prelude ConcurrentList ConcurrentMap TraceTime TraceModel TraceStorage.
From S2P Require Import StorageSafety StorageSpec StorageCycle Interleaving StorageThreads.
From S2P Require Import StorageMethods Perfetto SuspensionPlot Jvm Profiler ProfilerSafety.
From S2P Require Import ProfilerHandlers ProfilerTheorems.
From Stdlib Require Import ZArith Lia.
From stdpp Require Import base gmap list strings numbers pretty.
Local Open Scope Z_scope.
Local Open Scope kt_scope.

(** ** Programs that preserve a property of the state *)

(** Every action of [p] keeps [J], and the results of [p] satisfy [P]. *)
Fixpoint preserves {S A} (J : S -> Prop) (p : prog S A) (P : A -> Prop) : Prop :=
  match p with
  | Ret a => P a
  | Atomic _ f k => forall s b s', J s -> f s = Val b s' -> J s' /\ preserves J (k b) P
  end.

Section preserves.
Context {S : Type} (J : S -> Prop).

Lemma preserves_bind {A B} (p : prog S A) (g : A -> prog S B) (P : B -> Prop) :
  preserves J p (fun a => preserves J (g a) P) -> preserves J (p ≫= g) P.
Proof.
  unfold mbind, prog_mbind. induction p as [a|C c f k IH]; simpl; [done|].
  intros H s b s' Hs Hf. destruct (H s b s' Hs Hf). auto.
Qed.

Lemma preserves_mono {A} (p : prog S A) (P P' : A -> Prop) :
  (forall a, P a -> P' a) -> preserves J p P -> preserves J p P'.
Proof.
  intros HP. induction p as [a|C c f k IH]; simpl; [auto|].
  intros H s b s' Hs Hf. destruct (H s b s' Hs Hf). eauto.
Qed.

Lemma preserves_then {A B} (p : prog S A) (g : A -> prog S B) (P : B -> Prop) :
  preserves J p (fun _ => True) -> (forall a, preserves J (g a) P) -> preserves J (p ≫= g) P.
Proof. intros Hp Hg. apply preserves_bind. eapply preserves_mono; [|exact Hp]. auto. Qed.

(** A part of the state that has nothing to do with [J]. *)
Lemma preserves_zoom {T A} (Z : Lens S T) (p : prog T A) :
  (forall t s, J s -> J (lset Z t s)) -> preserves J (zoom Z p) (fun _ => True).
Proof.
  intros HZ. induction p as [a|C c f k IH]; simpl; [done|].
  intros s b s' Hs Hf. unfold res_in in Hf. destruct (f (lget Z s)); simplify_eq. auto.
Qed.

Lemma preserves_reads {A} (f : S -> A) : preserves J (reads f) (fun _ => True).
Proof. simpl. intros s b s' Hs [= _ <-]. done. Qed.
End preserves.

Section profiler.
Context `{E : !Environment} (M : gset Z).
Implicit Types (s : Profiler) (t : TraceStorage) (w : list token).

(** ** What is relied on *)

(** Names and threads are only added, and nobody stops the profiler. *)
Record names_grow s s' : Prop := {
  ng_methods : forall id, is_Some (methods s !! id) -> is_Some (methods s' !! id);
  ng_classes : forall id, is_Some (classes s !! id) -> is_Some (classes s' !! id);
  ng_threads : forall l i, thread_at s l i -> thread_at s' l i;
  ng_registered : forall i, is_Some (registered (jvm_ s) i) -> is_Some (registered (jvm_ s') i);
  ng_active : prof_active s' = prof_active s;
}.

#[export] Instance names_grow_preorder : PreOrder names_grow.
Proof. split; [by intros s|]. intros s1 s2 s3 [] []. split; auto; congruence. Qed.

Lemma grows_names s s' : ProfilerSafety.grows s s' -> names_grow s s'.
Proof. by intros []. Qed.

(** A sample that can be processed, of a coroutine that is not being cleaned. *)
Definition live_raw s (r : RawCallTraceRecord) : Prop := raw_ok s r /\ raw_coroutine_id r ∉ M.

(** The contents of a storage, for the names of [s]. *)
Record content s t : Prop := {
  ct_samples : forall l c, cells (traces_heap t) !! l = Some c -> Forall (sample_known s) (CL.list_ c);
  ct_suspensions : forall l i, cells (suspension_heap t) !! l = Some i ->
    Forall (frame_known s) (suspension_stack_trace i);
  ct_infos : forall l i, cells (info_heap t) !! l = Some i -> time_range (last_resume i);
  ct_ongoing : forall k i, CM.map_ (ongoing_trace_info_map_ t) !! k = Some i -> time_range (ti_start i);
  ct_raw : Forall (live_raw s) (CL.list_ (raw_list_ t));
}.

Lemma frame_known_names s s' f : names_grow s s' -> frame_known s f -> frame_known s' f.
Proof.
  intros [] [H1 H2]. split; [destruct (sf_frame f)|destruct (sf_base f)]; simpl in *; auto;
    rewrite !thread_at_valid in *; naive_solver.
Qed.

Lemma live_raw_names s s' r : names_grow s s' -> live_raw s r -> live_raw s' r.
Proof. intros [] [(H1 & H2 & H3) H4]. split; [|done]. split; auto. Qed.

Lemma frames_known_names s s' fs : names_grow s s' -> Forall (frame_known s) fs -> Forall (frame_known s') fs.
Proof. intros Hg H. eapply Forall_impl; [exact H|]. intros f. by apply frame_known_names. Qed.

Lemma content_names s s' t : names_grow s s' -> content s t -> content s' t.
Proof.
  intros Hg []. split; try done.
  - intros l c Hl. eapply Forall_impl; [by eapply ct_samples0|]. intros r. by apply frames_known_names.
  - intros l i Hl. eapply frames_known_names; eauto.
  - eapply Forall_impl; [exact ct_raw0|]. intros r. by apply live_raw_names.
Qed.

(** The key of the samples of a thread outside coroutines is not being cleaned
    while the thread runs a traced call. *)
Definition own_keys s : Prop := forall l th,
  cells (thread_heap (jvm_ s)) !! l = Some th -> current_traces th > 0 -> hash_pthread (th_id th) ∉ M.

(** The invariant: the profiler is well-formed, its storage is shared as in
    [StorageThreads], the samples to be processed are complete, and no sample
    that a thread gives now is of a coroutine that is being cleaned. *)
Record inv s : Prop := {
  in_wf : prof_wf s;
  in_shared : shared_ok M (storage_ s);
  in_raw : Forall (live_raw s) (CL.list_ (raw_list_ (storage_ s)));
  in_running : forall self, get_coroutine_of self s ∉ M;
  in_threads : own_keys s;
}.

Lemma inv_content s : inv s -> content s (storage_ s).
Proof. intros [[] _ H _ _]. by split. Qed.

Lemma inv_storage s t :
  inv s -> shared_ok M t -> content s t -> inv (lset storage_L t s).
Proof.
  intros [[] _ _ Hrun Hkeys] Ht []. split; [|done|exact ct_raw0|exact Hrun|exact Hkeys].
  split; simpl; try done; [apply Ht|done..].
Qed.

#[export] Instance profiler_interference : Interference Profiler (list token) := {
  rely w s s' := respects M w (storage_ s) (storage_ s') /\ names_grow s s';
  holds w s := inv s /\ forall x, x ∈ w -> private M x (storage_ s);
  disj w u := forall x, x ∈ w -> x ∈ u -> False;
  same_rights w w' := forall x, is_right x = true -> x ∈ w <-> x ∈ w';
  idle := [];
}.

#[export] Instance profiler_interference_laws : InterferenceLaws Profiler (list token).
Proof.
  split.
  - intros w s. split; [apply respects_refl|done].
  - intros w s1 s2 s3 [H1 H2] [H3 H4]. split; [|by etrans].
    by eapply respects_trans.
  - intros w u H x Hw Hu. by apply (H x).
  - split; [done|]. intros w1 w2 w3 H1 H2 x Hx. by rewrite (H1 x), (H2 x).
  - intros w s s' [H1 H2]. split; [|done]. by eapply respects_idle.
  - intros w s [Hs _]. split; [done|]. intros x H. by apply elem_of_nil in H.
  - intros w x _ H. by apply elem_of_nil in H.
Qed.

(** ** Calls of the storage *)

#[local] Hint Extern 0 (Interference TraceStorage _) =>
  exact (storage_interference M) : typeclass_instances.
#[local] Hint Extern 0 (Interference Profiler _) => exact profiler_interference : typeclass_instances.

Lemma storage_holds w s : holds w s -> holds (S:=TraceStorage) w (storage_ s).
Proof. intros [[] Hp]. by split. Qed.

Lemma storage_guarantee w w' s t :
  holds w s -> guarantee w w' (storage_ s) t -> content s t -> guarantee w w' s (lset storage_L t s).
Proof.
  intros Hh (Hh' & Hr & Hg) Hc. split_and!; [|exact Hr|].
  - split; [apply inv_storage; [apply Hh|apply Hh'|done]|]. apply Hh'.
  - intros u Hd Hu. destruct (Hg u Hd (storage_holds _ _ Hu)) as (Hr' & Hu' & Hd'). split_and!.
    + by split.
    + split; [apply inv_storage; [apply Hu|apply Hu'|done]|]. apply Hu'.
    + exact Hd'.
Qed.

Lemma names_grow_storage t s s' : names_grow (lset storage_L t s) s' -> names_grow s s'.
Proof. by intros []. Qed.

(** What a method of the storage guarantees, it guarantees to the profiler, if
    it keeps the contents well-formed. *)
Lemma rgs_lift {A} (p : prog TraceStorage A) w s Q (P : A -> Profiler -> Prop) :
  (forall s', names_grow s s' -> preserves (content s') p (fun a => P a s')) ->
  rgs p w (storage_ s) Q ->
  rgs (zoom storage_L p) w s (fun a w' s' => Q a w' (storage_ s') /\ P a s').
Proof.
  revert w s. induction p as [a|B c f k IH]; intros w s Hp H s1 [Hr Hn] Hh;
    specialize (H (storage_ s1) Hr (storage_holds _ _ Hh)).
  - split; [exact H|exact (Hp s1 Hn)].
  - simpl in H |- *. destruct H as [Hcs H]. split; [done|].
    destruct (f (storage_ s1)) as [b t| |] eqn:Hf; [|done..].
    destruct H as (w' & Hg & H). simpl. exists w'.
    pose proof (inv_content _ (proj1 Hh)) as Hct.
    assert (Hp' : forall s2, names_grow s1 s2 -> content s2 t /\ preserves (content s2) (k b) (fun a => P a s2)).
    { intros s2 Hn2. assert (Hn12 : names_grow s s2) by (by etrans). pose proof (Hp s2 Hn12) as Hp2.
      eapply Hp2; [exact (content_names s1 s2 _ Hn2 Hct)|exact Hf]. }
    split; [apply storage_guarantee; [done|done|]; by apply Hp'|].
    apply (IH b w' (lset storage_L t s1)); [|exact H].
    intros s2 Hn2. apply Hp'. by eapply names_grow_storage.
Qed.

(** The usual form. *)
Lemma rgs_storage {A} (p : prog TraceStorage A) w s (F : A -> TraceStorage -> Prop)
    (P : A -> Profiler -> Prop) :
  (forall s', names_grow s s' -> preserves (content s') p (fun a => P a s')) ->
  rgs p w (storage_ s) (post w F) ->
  rgs (zoom storage_L p) w s (post w (fun a s' => F a (storage_ s') /\ P a s')).
Proof.
  intros Hp H. eapply rgs_mono; [|by eapply (rgs_lift _ _ _ _ P)]. intros a w' s' [[-> HF] H']. by split.
Qed.

(** ** Actions outside the storage *)

Lemma local_guarantee w s s' :
  holds w s -> storage_ s' = storage_ s -> prof_wf s' -> names_grow s s' ->
  (forall self, get_coroutine_of self s' ∉ M) -> own_keys s' -> guarantee w w s s'.
Proof.
  intros Hh Hs Hwf Hn Hrun Hkeys. assert (Hinv : inv s').
  { split; [done|rewrite Hs; apply Hh| |done|done]. rewrite Hs.
    eapply Forall_impl; [apply (in_raw _ (proj1 Hh))|]. intros r. by apply live_raw_names. }
  split_and!; [|done|].
  - split; [done|]. rewrite Hs. apply Hh.
  - intros u Hd Hu. split_and!; [|split; [done|rewrite Hs; apply Hu]|done].
    split; [|done]. rewrite Hs. apply respects_refl.
Qed.
End profiler.
