(* ===== verification/ProfilerContent.v ===== *)
(** * The methods of the storage keep its contents well-formed *)

From S2P Require Import Prelude ConcurrentList ConcurrentMap TraceTime TraceModel TraceStorage.
From S2P Require Import StorageSafety StorageSpec StorageCycle Interleaving StorageThreads.
From S2P Require Import StorageMethods Perfetto SuspensionPlot Jvm Profiler ProfilerSafety.
From S2P Require Import ProfilerHandlers ProfilerTheorems ProfilerThreads.
From Stdlib Require Import ZArith Lia.
From stdpp Require Import base gmap list strings numbers pretty.
Local Open Scope Z_scope.
Local Open Scope kt_scope.

Section content.
Context `{CK : !SteadyClock} `{E : !Environment} (M : gset Z) (s : Profiler).

Local Abbreviation pres p := (preserves (content M s) p (fun _ => True)).

(** Parts of the storage that are not its contents. *)
Ltac other_part :=
  match goal with |- preserves _ (zoom _ _) _ =>
    apply preserves_zoom; intros ? ? Hother; destruct Hother; split; simpl; done end.

Lemma pres_now : preserves (content M s) now time_range.
Proof.
  intros t b t' Hc Hf. unfold res_in in Hf. simpl in Hf. simplify_eq.
  split; [destruct Hc; split; simpl; done|]. simpl. unfold tt_make.
  pose proof (steady_range (readings (clock t))). rewrite wraps_small; [unfold time_range; lia|lia|].
  unfold in_s. lia.
Qed.

(** *** Heaps *)

(** A read through a pointer. *)
Lemma pres_hread {A B} (Z : Lens TraceStorage (heap A)) p (f : A -> B) :
  pres (zoom Z (hread p f)).
Proof.
  intros t b t' Hc Hf. split; [|done]. unfold res_in in Hf. simpl in Hf.
  destruct p as [l|]; simpl in Hf; [|done].
  destruct (cells (lget Z t) !! l) as [a|] eqn:Ha; simpl in Hf; [|done]. simplify_eq.
  change (Heap _ _) with (hput l a (lget Z t)). rewrite hput_id by done. by rewrite lset_lget.
Qed.

(** A walk over a list behind a pointer. *)
Lemma pres_forEach {A R} (Z : Lens TraceStorage (heap (clist A))) p (f : R -> A -> R) r :
  pres (zoom Z (at_ptr p (CL.forEach f r))).
Proof. exact (pres_hread Z p (fun c => foldl f r (CL.list_ c))). Qed.

(** Writing an object in place, and allocating one. *)
Lemma pres_hwith {A B} (Z : Lens TraceStorage (heap A)) p (f : A -> res A B) (J : A -> Prop) :
  (forall t, content M s t -> forall l a, cells (lget Z t) !! l = Some a -> J a) ->
  (forall t h, content M s t -> (forall l a, cells h !! l = Some a -> J a) -> content M s (lset Z h t)) ->
  (forall a b a', J a -> f a = Val b a' -> J a') ->
  pres (zoom Z (hwith p f)).
Proof.
  intros Hget Hset Hf t b t' Hc Hr. split; [|done]. unfold res_in in Hr. simpl in Hr.
  destruct p as [l|]; simpl in Hr; [|done].
  destruct (cells (lget Z t) !! l) as [a|] eqn:Ha; simpl in Hr; [|done].
  destruct (f a) as [b' a'| |] eqn:Hfa; simplify_eq. apply Hset; [done|]. intros l' x. simpl.
  rewrite lookup_insert. case_decide; [|by apply Hget]. intros [= <-]. eapply Hf; [|exact Hfa].
  by eapply Hget.
Qed.

Lemma pres_halloc {A} (Z : Lens TraceStorage (heap A)) (a : A) (J : A -> Prop) :
  (forall t, content M s t -> forall l a, cells (lget Z t) !! l = Some a -> J a) ->
  (forall t h, content M s t -> (forall l a, cells h !! l = Some a -> J a) -> content M s (lset Z h t)) ->
  J a -> pres (zoom Z (halloc a)).
Proof.
  intros Hget Hset Ha t b t' Hc Hr. split; [|done]. unfold res_in in Hr. simpl in Hr. simplify_eq.
  apply Hset; [done|]. intros l' x. simpl. rewrite lookup_insert.
  case_decide; [by intros [= <-]|by apply Hget].
Qed.

(** The three heaps with contents. *)
Definition info_in_range (i : CoroutineInfo) : Prop := time_range (last_resume i).
Definition suspension_known (i : SuspensionInfo) : Prop := Forall (frame_known s) (suspension_stack_trace i).
Definition samples_known (c : clist ProcessedTraceRecord) : Prop := Forall (sample_known s) (CL.list_ c).

Lemma set_infos t h :
  content M s t -> (forall l i, cells h !! l = Some i -> info_in_range i) -> content M s (lset info_heap_L h t).
Proof. by intros []. Qed.
Lemma set_suspensions t h :
  content M s t -> (forall l i, cells h !! l = Some i -> suspension_known i) ->
  content M s (lset susp_heap_L h t).
Proof. by intros []. Qed.
Lemma set_samples t h :
  content M s t -> (forall l c, cells h !! l = Some c -> samples_known c) ->
  content M s (lset traces_heap_L h t).
Proof. by intros []. Qed.

Lemma pres_upd_info p f :
  (forall i, time_range (last_resume i) -> time_range (last_resume (f i))) ->
  pres (zoom info_heap_L (hmodify p f)).
Proof.
  intros Hf. apply (pres_hwith info_heap_L p _ info_in_range);
    [apply ct_infos|apply set_infos|]. intros i b i' Hi [= _ <-]. by apply Hf.
Qed.

Lemma pres_push_suspension p l : pres (zoom info_heap_L (at_ptr p (zoom suspensions_L (CL.push_back l)))).
Proof.
  apply (pres_hwith info_heap_L p _ info_in_range); [apply ct_infos|apply set_infos|].
  intros i b i' Hi Hr. unfold res_in in Hr. simpl in Hr. by simplify_eq.
Qed.

Lemma pres_new_suspension i :
  Forall (frame_known s) (suspension_stack_trace i) -> pres (zoom susp_heap_L (halloc i)).
Proof.
  intros Hi. by apply (pres_halloc susp_heap_L i suspension_known); [apply ct_suspensions|apply set_suspensions|].
Qed.

Lemma pres_set_end p t : pres (zoom susp_heap_L (hmodify p (set_si_end t))).
Proof.
  apply (pres_hwith susp_heap_L p _ suspension_known); [apply ct_suspensions|apply set_suspensions|].
  by intros i b i' Hi [= _ <-].
Qed.

Lemma pres_push_sample p x :
  sample_known s x -> pres (zoom traces_heap_L (at_ptr p (CL.push_back x))).
Proof.
  intros Hx. apply (pres_hwith traces_heap_L p _ samples_known); [apply ct_samples|apply set_samples|].
  intros c b c' Hc [= _ <-]. apply Forall_app. by repeat constructor.
Qed.

(** *** Methods *)

Ltac pres_step :=
  first
    [ apply pres_hread | apply pres_forEach | apply pres_push_suspension | apply pres_set_end
    | (apply pres_push_sample; done) | other_part
    | (apply preserves_then; [|intros ?])
    | match goal with |- preserves _ (match ?x with _ => _ end) _ => destruct x end
    | done ].
Ltac pres := repeat pres_step.

Lemma pres_createInfo id : pres (createCoroutineInfo id).
Proof.
  unfold createCoroutineInfo. apply preserves_bind. eapply preserves_mono; [|apply pres_now]. intros t Ht.
  apply preserves_bind. eapply preserves_mono; [|apply pres_now]. intros t' Ht'.
  apply preserves_then; [|intros l; pres].
  by apply (pres_halloc info_heap_L _ info_in_range); [apply ct_infos|apply set_infos|].
Qed.

Lemma pres_createChildren id : pres (createChildCoroutineStorage id).
Proof. unfold createChildCoroutineStorage. pres. Qed.

Lemma pres_addChild id parent : pres (addChildCoroutine id parent).
Proof. unfold addChildCoroutine. pres. Qed.

Lemma pres_containsChild id : pres (containsChildCoroutineStorage id).
Proof. unfold containsChildCoroutineStorage. pres. Qed.

Lemma pres_getInfo id : pres (getCoroutineInfo id).
Proof. unfold getCoroutineInfo. pres. Qed.

Lemma pres_getProcessed id : pres (getProcessedTraces id).
Proof. unfold getProcessedTraces. pres. Qed.

Lemma pres_getChildren id : pres (getChildCoroutines id).
Proof. unfold getChildCoroutines. pres. Qed.

Lemma pres_addSuspensionInfo p : pres (addSuspensionInfo p).
Proof. unfold addSuspensionInfo. pres. Qed.

(** A program that only looks. *)
Lemma pres_look {A} (f : TraceStorage -> res TraceStorage A) :
  (forall t b t', f t = Val b t' -> t' = t) -> pres (act f).
Proof. intros Hf t b t' Hc Hb. by rewrite (Hf _ _ _ Hb). Qed.

Lemma pres_lastSuspension id : pres (getLastSuspensionInfo id).
Proof.
  unfold getLastSuspensionInfo. pres. apply pres_look. intros t b t'. by repeat case_match; intros; simplify_eq.
Qed.

Lemma pres_gcStart : pres gcStart.
Proof.
  unfold gcStart. apply preserves_bind. eapply preserves_mono; [|apply pres_now]. intros t _. pres.
Qed.

Lemma pres_gcFinish : pres gcFinish.
Proof.
  unfold gcFinish. do 2 (apply preserves_then; [other_part|intros ?]).
  apply preserves_bind. eapply preserves_mono; [|apply pres_now]. intros t _. pres.
Qed.

Lemma pres_clean : pres clean.
Proof. unfold clean. pres. Qed.

Lemma pres_addProcessed id x : sample_known s x -> pres (addProcessedTrace id x).
Proof.
  intros Hx. unfold addProcessedTrace. apply preserves_then; [pres|]. intros [|]; [pres|].
  apply preserves_then; [|intros l; pres].
  by apply (pres_halloc traces_heap_L _ samples_known); [apply ct_samples|apply set_samples|constructor].
Qed.

(** *** Ongoing traces and samples *)

Lemma preserves_in {T A} (Z : Lens TraceStorage T) (J : T -> Prop) (p : prog T A) P :
  (forall t, content M s t -> J (lget Z t)) ->
  (forall t x, content M s t -> J x -> content M s (lset Z x t)) ->
  preserves J p P -> preserves (content M s) (zoom Z p) P.
Proof.
  intros Hget Hset. induction p as [a|C c f k IH]; simpl; [done|]. intros Hp t b t' Hc Hf.
  unfold res_in in Hf. destruct (f (lget Z t)) as [b' x| |] eqn:He; simplify_eq.
  destruct (Hp _ _ _ (Hget _ Hc) He). auto.
Qed.

Definition traces_in_range (m : cmap Z TraceInfo) : Prop :=
  forall k i, CM.map_ m !! k = Some i -> time_range (ti_start i).

Lemma pres_ongoing {A} (p : prog (cmap Z TraceInfo) A) P :
  preserves traces_in_range p P -> preserves (content M s) (zoom ongoing_L p) P.
Proof. apply preserves_in; [by intros t []|by intros t x []]. Qed.

Lemma pres_addOngoing i : time_range (ti_start i) -> pres (addOngoingTraceInfo i).
Proof.
  intros Hi. apply pres_ongoing. intros m b m' Hm. simpl. destruct (CM.map_ m !! _); intros; simplify_eq; [done|].
  split; [|done]. intros k j. simpl. rewrite lookup_insert. case_decide; [by intros [= <-]|apply Hm].
Qed.

Lemma pres_findOngoing id : preserves (content M s) (findOngoingTraceInfo id) (fun i => time_range (ti_start i)).
Proof.
  apply pres_ongoing. intros m b m' Hm. simpl. destruct (CM.map_ m !! id) eqn:He; intros; simplify_eq.
  - split; [done|]. simpl. by eapply Hm.
  - split; [|done]. intros k j. simpl. rewrite lookup_insert. case_decide; [by intros [= <-]|apply Hm].
Qed.

Lemma pres_removeOngoing id : pres (removeOngoingTraceInfo id).
Proof.
  apply preserves_then; [|done]. apply pres_ongoing. intros m b m' Hm. simpl.
  destruct (CM.map_ m !! id); intros; simplify_eq; [|done]. split; [|done]. intros k j. simpl.
  rewrite lookup_delete_Some. intros [_ ?]. by eapply Hm.
Qed.

Lemma pres_removeRaw :
  preserves (content M s) removeRawTraceHeader (fun r => forall x, r = Some x -> live_raw M s x).
Proof.
  apply (preserves_in raw_L (fun c => Forall (live_raw M s) (CL.list_ c))); [by intros t []|by intros t x []|].
  apply preserves_bind. intros c b c' Hc [= _ <-]. split; [done|]. destruct b; [done|].
  intros c1 x c2 Hc1. simpl. destruct (CL.list_ c1) as [|y l] eqn:He; intros; simplify_eq.
  apply list.Forall_cons in Hc1 as [Hx Hl]. split; [done|]. simpl. by intros ? [= <-].
Qed.

Lemma pres_addRaw t a id :
  live_raw M s (MkRaw (tt_get t) (at_size a) a (thread_id a) id) -> pres (addRawTrace t a id).
Proof.
  intros Hr. apply (preserves_in raw_L (fun c => Forall (live_raw M s) (CL.list_ c)));
    [by intros ? []|by intros ? ? []|].
  intros c b c' Hc [= _ <-]. split; [|done]. simpl. apply Forall_app. split; [done|]. by apply Forall_singleton.
Qed.

(** *** The plot *)

Lemma pres_each_suspension p f st : pres (each_suspension p f st).
Proof. apply pres_look. intros t b t'. by repeat case_match; intros; simplify_eq. Qed.

Lemma pres_plot_coroutine deref ti seq visited item st : pres (plot_coroutine deref ti seq visited item st).
Proof.
  unfold plot_coroutine. destruct item as [id parent]. apply preserves_then; [apply pres_getInfo|]. intros p.
  case_bool_decide; [done|].
  do 4 (apply preserves_then; [unfold info_field; pres|intros ?]).
  do 2 (apply preserves_then; [unfold switches_annotation, info_field; pres|intros ?]).
  apply preserves_then; [unfold info_field; pres|intros ?].
  apply preserves_then; [apply pres_getProcessed|]. intros tp. destruct (next_track _) as [track st1].
  apply preserves_then; [case_bool_decide; [done|apply pres_forEach]|]. intros st2.
  apply preserves_then; [apply pres_each_suspension|]. intros st3.
  apply preserves_then; [apply pres_containsChild|]. intros [|]; [|done].
  apply preserves_then; [apply pres_getChildren|]. intros c. pres.
Qed.

Lemma pres_trace_loop deref fuel ti seq queue visited st :
  pres (trace_loop deref fuel ti seq queue visited st).
Proof.
  revert queue visited st. induction fuel as [|fuel IH]; intros [|item queue] visited st; try done.
  apply preserves_then; [apply pres_plot_coroutine|]. intros [items st1]. apply IH.
Qed.

Lemma pres_write_perfetto deref fuel path ti : pres (write_perfetto deref fuel path ti).
Proof.
  unfold write_perfetto. destruct (trace_packets ti) as [track st].
  apply preserves_then; [apply pres_look; intros t b t'; cbn; destruct (mapM _ _); [by intros [= _ <-]|done]|]. intros st1.
  unfold add_trace_info. apply preserves_then; [apply pres_trace_loop|]. by intros r.
Qed.
End content.
