(* ===== verification/Marking.v ===== *)
(** * Marking for cleaning, between runs of the threads

    The cleaner first marks every key the storage has, and erases the marked
    keys fifteen seconds later.  The threads of [HandlersTogether] run with a
    set [M] of keys that are being cleaned; here is how that set starts (with
    what the storage had when it was marked) and ends (empty again, when the
    marked keys have been erased). *)

From S2P Require Import Prelude ConcurrentList ConcurrentMap TraceTime TraceModel TraceStorage.
From S2P Require Import StorageSafety StorageSpec StorageCycle Interleaving StorageThreads.
From S2P Require Import StorageMethods Perfetto SuspensionPlot Jvm Profiler ProfilerSafety.
From S2P Require Import ProfilerHandlers ProfilerTheorems ProfilerThreads.
From Stdlib Require Import ZArith Lia.
From stdpp Require Import base gmap list strings numbers.
Local Open Scope Z_scope.
Local Open Scope kt_scope.

(** The keys that are marked, and those the storage has. *)
Definition marked (t : TraceStorage) : gset Z :=
  list_to_set (CM.clean_list_ (processed_map_ t)) ∪ list_to_set (CM.clean_list_ (child_coroutines_map_ t)) ∪
  list_to_set (CM.clean_list_ (coroutine_info_map_ t)).
Definition present (t : TraceStorage) : gset Z :=
  dom (CM.map_ (processed_map_ t)) ∪ dom (CM.map_ (child_coroutines_map_ t)) ∪
  dom (CM.map_ (coroutine_info_map_ t)).

Section marking.
Context `{E : !Environment}.
Implicit Types (s : Profiler) (t : TraceStorage) (M : gset Z).

Lemma keys_set (m : gmap Z ptr) : list_to_set (CM.keys m) = dom m.
Proof. apply set_eq. intros k. by rewrite elem_of_list_to_set, CM.elem_of_keys, elem_of_dom. Qed.

(** The storage after marking. *)
Definition mark_all t : TraceStorage :=
  match run mark_for_clean t with Val _ t' => t' | _ => t end.

Lemma run_mark t : run mark_for_clean t = Val tt (mark_all t).
Proof. reflexivity. Qed.

Lemma marked_mark t : marked (mark_all t) = marked t ∪ present t.
Proof. unfold marked, present; simpl. rewrite !list_to_set_app_L, !keys_set. set_solver. Qed.

Lemma present_mark t : present (mark_all t) = present t.
Proof. reflexivity. Qed.

(** What is marked may be cleaned. *)
Lemma shared_marked M t : storage_wf t -> marked t ⊆ M -> present t ⊆ M -> shared_ok M t.
Proof.
  unfold marked, present. intros Hwf Hm Hp. split; [done|..].
  1-3: intros k Hk; apply Hm; rewrite !elem_of_union, !elem_of_list_to_set; auto.
  intros k l c Hk Hl _. destruct Hk. apply Hp. rewrite !elem_of_union, !elem_of_dom. left. right. by eexists.
Qed.

(** Marking starts the set of keys that are being cleaned: it may be any set
    that has all keys of the storage, and that no thread uses now. *)
Lemma mark_inv M s :
  prof_wf s -> Forall (live_raw M s) (CL.list_ (raw_list_ (storage_ s))) ->
  (forall self, get_coroutine_of self s ∉ M) -> own_keys M s ->
  marked (storage_ s) ∪ present (storage_ s) ⊆ M ->
  wp (zoom storage_L mark_for_clean) s (fun _ s' => inv M s' /\
    storage_ s' = mark_all (storage_ s) /\ s' = lset storage_L (storage_ s') s).
Proof.
  intros Hwf Hraw Hrun Hkeys HM. apply wp_zoom. eapply wp_run; [apply run_mark|].
  split; [|done]. assert (Ht : storage_wf (mark_all (storage_ s))).
  { by apply (op_result_safe _ OpMark _ (pw_storage s Hwf)). }
  assert (Hwf' : prof_wf (lset storage_L (mark_all (storage_ s)) s)).
  { apply (storage_change s (mark_all (storage_ s)) Hwf Ht); try reflexivity. exact (pw_ongoing s Hwf). }
  split; [done| |exact Hraw|exact Hrun|exact Hkeys].
  apply shared_marked; [done|by simpl; rewrite marked_mark|]. simpl. rewrite present_mark. set_solver.
Qed.

(** Before the first marking nothing is being cleaned. *)
Lemma inv_start s :
  prof_wf s -> Forall (raw_ok s) (CL.list_ (raw_list_ (storage_ s))) -> marked (storage_ s) = ∅ -> inv ∅ s.
Proof.
  intros Hwf Hraw Hm. split; [done| | |set_solver|intros l th _; set_solver].
  - unfold marked in Hm. split; [apply Hwf|set_solver..|]. intros k l c _ _ _. apply list.Forall_forall. set_solver.
  - eapply list.Forall_impl; [exact Hraw|]. intros r H. split; [done|set_solver].
Qed.

(** Nor when what was marked has been erased. *)
Lemma inv_unmarked M s : inv M s -> marked (storage_ s) = ∅ -> inv ∅ s.
Proof.
  intros [Hwf _ Hraw _ _] Hm. apply inv_start; [done| |done].
  eapply list.Forall_impl; [exact Hraw|]. by intros r [H _].
Qed.

(** Starting and stopping the profiler thread. *)
Lemma inv_active M s b : inv M s -> inv M (lset prof_active_L b s).
Proof. intros [[] H1 H2 H3 H4]. by split; [split| | | |]. Qed.
End marking.
