(* ===== verification/HandlersThreads.v ===== *)
(** * The parts of the handlers under interference

    Names, thread-local variables, the trace counters of threads and the
    resource usage of coroutines, while other threads run handlers. *)

From S2P Require Import Prelude ConcurrentList ConcurrentMap TraceTime TraceModel TraceStorage.
From S2P Require Import StorageSafety StorageSpec StorageCycle Interleaving StorageThreads.
From S2P Require Import StorageMethods Perfetto SuspensionPlot Jvm Profiler ProfilerSafety.
From S2P Require Import ProfilerHandlers ProfilerTheorems ProfilerThreads ProfilerContent.
From Stdlib Require Import ZArith Lia.
From stdpp Require Import base gmap list strings numbers pretty.
Local Open Scope Z_scope.
Local Open Scope kt_scope.

Section rules.
Context `{CK : !SteadyClock} `{E : !Environment} `{UL : !UsageLaws} (M : gset Z).
Implicit Types (s : Profiler) (t : TraceStorage) (w : list token).

#[local] Hint Extern 0 (Interference TraceStorage _) =>
  exact (storage_interference M) : typeclass_instances.
#[local] Hint Extern 0 (Interference Profiler _) =>
  exact (profiler_interference M) : typeclass_instances.

(** A bind of a value. *)
Ltac ret_bind := change (mret ?x ≫= ?f) with (f x); cbv beta.

(** ** Facts that last *)

Lemma stable_storage (R : TraceStorage -> Prop) : stable R -> stable (fun s => R (storage_ s)).
Proof. intros HR s s' [Hr _]. by apply HR. Qed.

Lemma stable_names (R : Profiler -> Prop) :
  (forall s s', names_grow s s' -> R s -> R s') -> stable R.
Proof. intros HR s s' [_ Hn]. by apply HR. Qed.

Lemma stable_frames fs : stable (fun s => Forall (frame_known s) fs).
Proof. apply stable_names. intros s s'. apply frames_known_names. Qed.

Lemma stable_registered i : stable (fun s => is_Some (registered (jvm_ s) i)).
Proof. apply stable_names. intros s s' Hn. apply Hn. Qed.

Lemma stable_method m : stable (fun s => is_Some (methods s !! m)).
Proof. apply stable_names. intros s s' Hn. apply Hn. Qed.

Lemma stable_class m : stable (fun s => is_Some (classes s !! m)).
Proof. apply stable_names. intros s s' Hn. apply Hn. Qed.

Lemma stable_thread_at l i : stable (fun s => thread_at s l i).
Proof. apply stable_names. intros s s' Hn. apply Hn. Qed.

Lemma stable_thread l : stable (fun s => valid (thread_heap (jvm_ s)) l).
Proof. apply stable_names. intros s s' Hn. rewrite !thread_at_valid. intros [i Hi]. exists i. by apply Hn. Qed.

Lemma stable_live_raw r : stable (fun s => live_raw M s r).
Proof. apply stable_names. intros s s'. apply live_raw_names. Qed.

(** ** Actions outside the storage *)

Abbreviation heap_of_threads := (fun s => thread_heap (jvm_ s)).

Lemma rgs_local_keys {A} (p : prog Profiler A) w s (F : A -> Profiler -> Prop) :
  single p -> keeps storage_ p -> (forall self, keeps (get_coroutine_of self) p) ->
  (forall s1 a s2, rely w s s1 -> run p s1 = Val a s2 -> own_keys M s1 -> own_keys M s2) ->
  (forall a, stable (F a)) ->
  (forall s1, rely w s s1 -> holds w s1 -> safe p s1 F) ->
  rgs p w s (post w F).
Proof.
  intros Hp Hst Hco Hk HF H. apply rgs_last; [done|done|]. intros s1 Hr Hh.
  destruct (wp_elim _ _ _ (H s1 Hr Hh)) as (a & s2 & Hrun & Hwf & Hg & Ha).
  eapply wp_run; [exact Hrun|]. split; [|done]. apply local_guarantee; [done| |done|by apply grows_names| |].
  - by eapply keeps_run.
  - intros self. rewrite (keeps_run (get_coroutine_of self) p s1 a s2 (Hco self) Hrun).
    apply (in_running _ _ (proj1 Hh)).
  - eapply Hk; [exact Hr|exact Hrun|]. apply (in_threads _ _ (proj1 Hh)).
Qed.

Lemma rgs_local {A} (p : prog Profiler A) w s (F : A -> Profiler -> Prop) :
  single p -> keeps storage_ p -> (forall self, keeps (get_coroutine_of self) p) -> keeps heap_of_threads p ->
  (forall a, stable (F a)) ->
  (forall s1, rely w s s1 -> holds w s1 -> safe p s1 F) ->
  rgs p w s (post w F).
Proof.
  intros Hp Hst Hco Hth. apply rgs_local_keys; [done..|]. intros s1 a s2 _ Hrun H l th.
  rewrite (keeps_run heap_of_threads p s1 a s2 Hth Hrun). apply H.
Qed.

(** An action that only looks. *)
Lemma rgs_look_at {A} (p : prog Profiler A) w s (F : A -> Profiler -> Prop) :
  single p -> (forall a, stable (F a)) ->
  (forall s1, rely w s s1 -> holds w s1 -> wp p s1 (fun a s2 => s2 = s1 /\ F a s1)) ->
  rgs p w s (post w F).
Proof.
  intros Hp HF H. apply rgs_last; [done|done|]. intros s1 Hr Hh.
  eapply wp_mono; [|by apply H]. intros a s2 [-> Ha]. split; [|done].
  apply local_guarantee; try done; apply Hh.
Qed.

Lemma holds_wf w s : holds w s -> prof_wf s.
Proof. intros [H _]. apply H. Qed.

Lemma rgs_set_coroutine w s self id :
  id ∉ M -> rgs (set_coroutine self id) w s (post w (fun _ _ => True)).
Proof.
  intros Hid. apply rgs_last; [single|done|]. intros s1 Hr Hh.
  assert (Hs : safe (set_coroutine self id) s1 (fun _ s2 => storage_ s2 = storage_ s1 /\
    forall o, get_coroutine_of o s2 = if decide (o = self) then id else get_coroutine_of o s1)).
  { apply (wp_mono _ _ (fun _ s2 => (prof_wf s2 /\ grows s1 s2 /\ storage_ s2 = storage_ s1) /\
      forall o, get_coroutine_of o s2 = if decide (o = self) then id else get_coroutine_of o s1));
      [cbv beta; tauto|]. apply wp_and.
    - apply safe_set_coroutine; [by eapply holds_wf|done].
    - apply wp_modify. intros o. unfold get_coroutine_of. erewrite get_locals_set by done.
      by case_decide. }
  destruct (wp_elim _ _ _ Hs) as (a & s2 & Hrun & Hwf & Hg & Hst & Hco).
  eapply wp_run; [exact Hrun|]. split; [|done].
  apply local_guarantee; [done|done|done|by apply grows_names| |].
  - intros o. rewrite Hco. case_decide; [done|apply (in_running _ _ (proj1 Hh))].
  - assert (Hk : keeps heap_of_threads (set_coroutine self id)) by (split; [by intros ? ? ? [= _ <-]|done]).
    intros l th. rewrite (keeps_run heap_of_threads _ _ _ _ Hk Hrun). apply (in_threads _ _ (proj1 Hh)).
Qed.

Lemma rgs_get_coroutine w s self : rgs (get_coroutine self) w s (post w (fun id _ => id ∉ M)).
Proof.
  apply rgs_look_at; [single|intros a; apply stable_pure|]. intros s1 Hr Hh. apply wp_reads.
  split; [done|]. apply (in_running _ _ (proj1 Hh)).
Qed.

Lemma rgs_get_usage w s self : rgs (get_usage self) w s (post w (fun u _ => usage_ok u)).
Proof.
  apply rgs_look_at; [single|intros a; apply stable_pure|]. intros s1 Hr Hh. apply wp_reads.
  split; [done|]. apply (pw_usage _ (holds_wf _ _ Hh)).
Qed.

Lemma rgs_getrusage w s self : rgs (getrusage self) w s (post w (fun u _ => usage_ok u)).
Proof.
  apply rgs_local; [single| |intros; apply keeps_getrusage| |intros a; apply stable_pure|].
  - split; [by intros ? ? ? [= _ <-]|done].
  - split; [by intros ? ? ? [= _ <-]|done].
  - intros s1 Hr Hh. apply safe_getrusage; [by eapply holds_wf|done].
Qed.

Lemma rgs_thread_info w s self :
  rgs (thread_basic_info self) w s (post w (fun r _ =>
    forall system user, r = Some (system, user) -> time_ok system /\ time_ok user)).
Proof.
  apply rgs_local; [single| |intros; apply keeps_thread_info| |intros a; apply stable_pure|].
  - split; [by intros ? ? ? [= _ <-]|done].
  - split; [by intros ? ? ? [= _ <-]|done].
  - intros s1 Hr Hh. apply safe_thread_info; [by eapply holds_wf|done|]. by intros ? ? ? ? ? _ ? ? [= <- <-].
Qed.

Lemma rgs_set_usage w s self f :
  (forall u, usage_ok u -> usage_ok (f u)) -> rgs (set_usage self f) w s (post w (fun _ _ => True)).
Proof.
  intros Hf. apply rgs_local; [single| |intros; apply keeps_set_usage| |done|].
  - split; [by intros ? ? ? [= _ <-]|done].
  - split; [by intros ? ? ? [= _ <-]|done].
  - intros s1 Hr Hh. pose proof (holds_wf _ _ Hh) as Hwf. eapply safe_mono; [|apply safe_set_usage; [done|]]; [done|].
    apply Hf, (pw_usage _ Hwf).
Qed.

Lemma stime_ok v u : time_ok v -> usage_ok u -> usage_ok (set_stime v u).
Proof. by intros Hv (H1 & H2 & H3). Qed.
Lemma utime_ok v u : time_ok v -> usage_ok u -> usage_ok (set_utime v u).
Proof. by intros Hv (H1 & H2 & H3). Qed.

(** ** Names *)

Definition class_known m s : Prop := is_Some (classes s !! m).
Definition method_known m s : Prop := is_Some (methods s !! m).

Lemma rgs_has_method w s m :
  rgs (zoom methods_L (CM.contains m)) w s (post w (fun b s' => b = true -> method_known m s')).
Proof.
  apply rgs_look_at; [single|intros b s1 s2 Hr H Hb; exact (stable_method m s1 s2 Hr (H Hb))|].
  intros s1 Hr Hh. apply wp_zoom, wp_reads. rewrite lset_lget. split; [done|].
  intros H. by apply bool_decide_eq_true in H.
Qed.

Lemma rgs_has_class w s m :
  rgs (zoom classes_L (CM.contains m)) w s (post w (fun b s' => b = true -> class_known m s')).
Proof.
  apply rgs_look_at; [single|intros b s1 s2 Hr H Hb; exact (stable_class m s1 s2 Hr (H Hb))|].
  intros s1 Hr Hh. apply wp_zoom, wp_reads. rewrite lset_lget. split; [done|].
  intros H. by apply bool_decide_eq_true in H.
Qed.

(** A name that is known is there, so looking it up inserts nothing. *)
Lemma rgs_get_name (Z : Lens Profiler (cmap Z string)) w s m :
  (let known s := is_Some (CM.map_ (lget Z s) !! m) in
  stable known -> known s -> rgs (zoom Z (CM.get m)) w s (post w (fun _ => known))).
Proof.
  intros known Hst Hm. apply rgs_last_guarded; [by intros x; eexists|by intros x|]. intros s1 Hr Hh.
  apply (stable_rely _ _ _ _ Hst Hr) in Hm. pose proof Hm as [n Hn]. split; [simpl; by rewrite Hn|].
  apply wp_zoom. eapply wp_run; [by apply CM.run_get_Some|]. rewrite lset_lget. split; [|done].
  apply local_guarantee; try done; apply Hh.
Qed.

Lemma rgs_get_class w s m :
  class_known m s -> rgs (zoom classes_L (CM.get m)) w s (post w (fun _ => class_known m)).
Proof. intros Hm. apply (rgs_get_name classes_L); [apply stable_class|exact Hm]. Qed.

Lemma rgs_get_method w s m :
  method_known m s -> rgs (zoom methods_L (CM.get m)) w s (post w (fun _ => method_known m)).
Proof. intros Hm. apply (rgs_get_name methods_L); [apply stable_method|exact Hm]. Qed.

(** Another thread may have inserted the same name in the meantime. *)
Lemma rgs_insert_class w s m n :
  class_text m = Some n -> rgs (zoom classes_L (CM.insert m n)) w s (post w (fun _ => class_known m)).
Proof.
  intros Ht. apply rgs_local; [single|by apply keeps_zoom|intros; by apply keeps_zoom|by apply keeps_zoom|intros b; apply stable_class|].
  intros s1 Hr Hh. pose proof (holds_wf _ _ Hh) as Hwf. destruct (classes s1 !! m) as [n'|] eqn:Hn.
  - apply safe_pure; [done|]. apply wp_zoom. eapply wp_run; [by apply (CM.run_insert_Some _ _ n')|].
    rewrite lset_lget. split; [done|by eexists].
  - eapply safe_mono; [|by apply safe_insert_class]. cbv beta. tauto.
Qed.

Lemma rgs_insert_method w s m n :
  method_text m = Some n -> class_known m s ->
  rgs (zoom methods_L (CM.insert m n)) w s (post w (fun _ => method_known m)).
Proof.
  intros Ht Hc. apply rgs_local; [single|by apply keeps_zoom|intros; by apply keeps_zoom|by apply keeps_zoom|intros b; apply stable_method|].
  intros s1 Hr Hh. pose proof (holds_wf _ _ Hh) as Hwf.
  apply (stable_rely _ _ _ _ (stable_class m) Hr) in Hc. destruct (methods s1 !! m) as [n'|] eqn:Hn.
  - apply safe_pure; [done|]. apply wp_zoom. eapply wp_run; [by apply (CM.run_insert_Some _ _ n')|].
    rewrite lset_lget. split; [done|by eexists].
  - eapply safe_mono; [|by apply safe_insert_method]. cbv beta. tauto.
Qed.

Lemma rgs_resolve_class w s m :
  method_answered m -> rgs (resolve_class m) w s (post w (fun _ => class_known m)).
Proof.
  intros (_ & k & c & Hk & Hc & Hne). unfold resolve_class. rewrite Hk, Hc.
  unfold drop_last. destruct (String.length c) eqn:Hlen; [by destruct c|].
  assert (Ht : class_text m = Some (String.substring 0 n c))
    by (unfold class_text; by rewrite Hk; simpl; rewrite Hc; simpl; rewrite Hlen).
  ret_bind.
  eapply (rgs_call _ _ _ _ _ _ (fun _ => True)); [done|done|by apply rgs_insert_class|]. intros b s1 H1 _.
  eapply (rgs_call _ _ _ _ _ _ (fun _ => True)); [done|done|by apply rgs_get_class|]. intros n' s2 H2 _.
  apply rgs_return; [apply stable_class|done].
Qed.

Lemma rgs_method_frame w s m :
  method_known m s ->
  rgs (mret (method_frame m)) w s (post w (fun f s' => f = method_frame m /\ frame_known s' f)).
Proof.
  intros Hm. apply rgs_ret. intros s1 Hr Hh. split; [done|]. split; [done|].
  apply method_frame_known; [by eapply holds_wf|]. exact (stable_rely _ _ _ _ (stable_method m) Hr Hm).
Qed.

Lemma rgs_processMethodInfo w s m :
  method_answered m ->
  rgs (processMethodInfo m) w s (post w (fun f s' => f = method_frame m /\ frame_known s' f)).
Proof.
  intros Hans. unfold processMethodInfo.
  eapply (rgs_call _ _ _ _ _ _ (fun _ => True)); [done|done|apply rgs_has_method|]. intros [|] s1 H1 _.
  - specialize (H1 eq_refl).
    eapply (rgs_call _ _ _ _ _ _ (fun _ => True)); [done|done|by apply rgs_get_method|]. intros n s2 H2 _.
    eapply (rgs_call _ _ _ _ _ (fun _ _ => True) (method_known m)); [apply stable_method|done| |].
    { apply rgs_intro. intros s3 Hr3 Hh3. eapply rgs_mono; [|apply rgs_get_class].
      - by intros ? ? ? [-> _].
      - apply (pw_maps _ (holds_wf _ _ Hh3)). exact (stable_rely _ _ _ _ (stable_method m) Hr3 H2). }
    intros n' s3 _ H3. by apply rgs_method_frame.
  - clear H1. pose proof Hans as [[[name sig] Hn] _]. rewrite Hn.
    eapply (rgs_call _ _ _ _ _ _ (fun _ => True)); [done|done|apply rgs_has_class|]. intros b s2 H2 _.
    eapply (rgs_call _ _ _ _ _ (fun _ => class_known m) (fun _ => True)); [done|done| |].
    { destruct b; [|by apply rgs_resolve_class].
      eapply (rgs_call _ _ _ _ _ _ (fun _ => True)); [done|done|by apply rgs_get_class, H2|]. intros n s3 H3 _.
      apply rgs_return; [apply stable_class|done]. }
    intros [] s3 H3 _.
    eapply (rgs_call _ _ _ _ _ _ (fun _ => True));
      [done|done|apply rgs_insert_method; [unfold method_text; by rewrite Hn|done]|]. intros ? s4 H4 _.
    eapply (rgs_call _ _ _ _ _ _ (fun _ => True)); [done|done|by apply rgs_get_method|]. intros ? s5 H5 _.
    by apply rgs_method_frame.
Qed.

Lemma rgs_processProfilerMethodInfo w s i :
  instruction_answered i ->
  rgs (processProfilerMethodInfo i) w s (post w (fun f s' => f = frame_of i /\ frame_known s' f)).
Proof.
  intros Hi. unfold processProfilerMethodInfo, frame_of. destruct (java_frame i) eqn:Hj.
  - destruct (instruction i =? 0) eqn:Hz; cbn [negb].
    + by apply rgs_ret.
    + apply rgs_processMethodInfo, Hi; [done|lia].
  - destruct (symbol (instruction i)) as [n|] eqn:Hs; [|by apply rgs_ret].
    apply rgs_ret. intros s1 _ _. split; [done|]. split; [done|]. split; simpl; rewrite Hs; eauto.
Qed.

Lemma rgs_map_frames {A} (P : A -> Prop) (f : A -> prog Profiler StackFrame) (g : A -> StackFrame) l w s :
  Forall P l ->
  (forall x s, P x -> rgs (f x) w s (post w (fun y s' => y = g x /\ frame_known s' y))) ->
  rgs (map_prog f l) w s (post w (fun ys s' => ys = g <$> l /\ Forall (frame_known s') ys)).
Proof.
  intros Hl Hf. revert s. induction Hl as [|x l Hx _ IH]; intros s; cbn [map_prog].
  - by apply rgs_ret.
  - eapply (rgs_call _ _ _ _ _ _ (fun _ => True)); [done|done|by apply Hf|]. intros y s1 [-> Hy] _.
    eapply (rgs_call _ _ _ _ _ _ (fun s => Forall (frame_known s) [g x]));
      [apply stable_frames|by apply Forall_singleton|apply IH|].
    intros ys s2 [-> Hys] Hy2. apply rgs_return; [apply stable_and; [apply stable_pure|apply stable_frames]|].
    split; [done|]. apply (Forall_app_2 _ [_]); done.
Qed.

(** ** Threads *)

Lemma rgs_findThread w s self :
  rgs (zoom jvm_L (findThread self)) w s (post w (fun p s' =>
    (is_Some (registered (jvm_ s) self) -> p <> None) /\
    forall l, p = Some l -> thread_at s' l self)).
Proof.
  apply rgs_look_at; [single| |].
  - intros p. apply stable_and; [apply stable_pure|]. intros s1 s2 Hr H l Hl. exact (stable_thread_at l self s1 s2 Hr (H l Hl)).
  - intros s1 Hr Hh. apply wp_zoom, wp_findThread; [exact (pw_jvm _ (holds_wf _ _ Hh))|]. rewrite lset_lget. split; [done|]. cbn [lget jvm_L].
    pose proof (find_registered _ self (pw_jvm _ (holds_wf _ _ Hh))) as Hf.
    destruct (List.find _ _) as [l|]; (split; [intros Hs|]).
    + done.
    + intros ? [= <-]. destruct Hf as [Hl [x Hx]]. exists x. rewrite Hl. split; [done|].
      apply List.find_some in Hx as [_ Hx]. lia.
    + apply (stable_rely _ _ _ _ (stable_registered self) Hr) in Hs. destruct Hs; congruence.
    + done.
Qed.

Lemma rgs_count_traces w s self n :
  is_Some (registered (jvm_ s) self) -> hash_pthread self ∉ M ->
  rgs (count_traces self n) w s (post w (fun _ _ => True)).
Proof.
  intros Hreg Hself. unfold count_traces.
  eapply (rgs_call _ _ _ _ _ _ (fun _ => True)); [done|done|apply rgs_findThread|].
  intros [l|] s1 [H1 H2] _; [|by destruct (H1 Hreg)]. specialize (H2 l eq_refl).
  apply rgs_local_keys; [single|by apply keeps_zoom|intros; by apply keeps_zoom| |done|].
  { intros s2 [] s3 Hr Hrun Hk l' t Hl. cbn in Hrun.
    destruct (stable_rely _ _ _ _ (stable_thread_at l self) Hr H2) as (u & Hu & Hi).
    rewrite Hu in Hrun. injection Hrun as <-. cbn in Hl. destruct (decide (l = l')) as [<-|Hne].
    - rewrite lookup_insert_eq in Hl. injection Hl as <-. cbn [th_id add_traces]. by rewrite Hi.
    - rewrite lookup_insert_ne in Hl by done. by apply (Hk l'). }
  intros s2 Hr Hh. destruct (stable_rely _ _ _ _ (stable_thread_at l self) Hr H2) as (x & Hx & _).
  apply wp_zoom, wp_zoom. eapply wp_hmodify; [exact Hx|]. apply and_group; [|done].
  eapply thread_change; [by eapply holds_wf|exact Hx|done].
Qed.

(** A thread registers itself. *)
Lemma rgs_addCurrentThread w s self bounds info :
  rgs (zoom jvm_L (addCurrentThread self bounds info)) w s (post w (fun _ s' =>
    info <> None -> is_Some (registered (jvm_ s') self))).
Proof.
  destruct info as [name|]; [|apply rgs_return; [|done]; by intros s1 s2 _ H].
  unfold addCurrentThread. set (th := make_thread name self bounds.1 bounds.2). apply rgs_zoom_bind.
  eapply rgs_mono; [|apply (rgs_local_keys _ w s (fun l s' => thread_at s' l self));
    [single|by apply keeps_zoom|intros; by apply keeps_zoom| |intros l; apply stable_thread_at|]].
  2: { intros s1 l s2 _ [= <- <-] Hk l' t Hl. cbn in Hl.
       destruct (decide (next (thread_heap (jvm_ s1)) = l')) as [<-|Hne].
       - rewrite lookup_insert_eq in Hl. injection Hl as <-. cbn. lia.
       - rewrite lookup_insert_ne in Hl by done. by apply (Hk l'). }
  2: { intros s1 Hr Hh. eapply safe_mono; [|by eapply (safe_new_thread s1 th), holds_wf].
       intros l s' _ _ [_ H]. exact H. }
  intros l w' s1 [-> Hl].
  apply rgs_local; [single|by apply keeps_zoom|intros; by apply keeps_zoom| | |].
  - apply (keeps_zoom_in thread_heap jvm_L). by apply keeps_zoom.
  - intros []. apply stable_names. intros s2 s3 Hn H Hi. by apply Hn, H.
  - intros s2 Hr Hh. eapply safe_mono; [|eapply (safe_push_thread s2 l self);
      [by eapply holds_wf|by eapply (stable_rely _ _ _ _ (stable_thread_at l self))]].
    intros [] s' _ _ [_ H] _. exact H.
Qed.

(** ** Resource usage *)

Definition info_valid (l : nat) s : Prop := valid (info_heap (storage_ s)) l.

Lemma stable_info_valid l : stable (info_valid l).
Proof. exact (stable_storage _ (stable_valid_info M l)). Qed.

Lemma rgs_prof_now w s : rgs (zoom storage_L now) w s (post w (fun v _ => time_range v)).
Proof.
  eapply rgs_mono; [|eapply (rgs_storage M _ w s _ (fun v _ => time_range v)); [|apply rgs_now]].
  - intros a w' s' [-> [_ H]]. by split.
  - intros s' _. apply pres_now.
Qed.

Lemma rgs_read_info {A} w s l (f : CoroutineInfo -> A) (P : A -> Prop) :
  info_valid l s -> (forall i, time_range (last_resume i) -> P (f i)) ->
  rgs (read_info (Some l) f) w s (post w (fun a _ => P a)).
Proof.
  intros Hv HP. apply rgs_look_at; [single|intros a; apply stable_pure|]. intros s1 Hr Hh.
  destruct (stable_rely _ _ _ _ (stable_info_valid l) Hr Hv) as [i Hi].
  apply wp_zoom, wp_zoom. eapply wp_hread; [exact Hi|]. rewrite !lset_lget. split; [done|].
  apply HP. by eapply (pw_infos _ (holds_wf _ _ Hh)).
Qed.

Lemma rgs_prof_upd_info w s l f :
  info_valid l s -> (forall i, suspensions_list (f i) = suspensions_list i) ->
  (forall i, time_range (last_resume i) -> time_range (last_resume (f i))) ->
  rgs (upd_info (Some l) f) w s (post w (fun _ _ => True)).
Proof.
  intros Hv Hf Hr. eapply rgs_mono; [|eapply (rgs_storage M _ w s _ (fun _ _ => True)); [|by apply rgs_upd_info]].
  - by intros a w' s' [-> _].
  - intros s' _. by apply pres_upd_info.
Qed.

(** Arithmetic that does not overflow is its result. *)
Lemma tt_minus_ret {S} a b : time_range a -> time_range b -> tt_minus (S:=S) a b = mret (a - b).
Proof.
  intros Ha Hb. unfold tt_minus, signed. rewrite bool_decide_eq_true_2 by by apply time_minus. ret_bind.
  unfold tt_make. by rewrite wraps_small by (try lia; by apply time_minus).
Qed.

Lemma signed_ret {S} b x : in_s b x -> signed (S:=S) b x = mret x.
Proof. intros H. unfold signed. by rewrite bool_decide_eq_true_2. Qed.

Lemma elapsed_ret {S} e b : time_ok e -> time_ok b -> calculate_elapsed_time (S:=S) e b = mret (elapsed e b).
Proof.
  intros [He1 He2] [Hb1 Hb2]. unfold calculate_elapsed_time.
  do 4 (rewrite signed_ret by (unfold in_s, usec_bits; destruct target; lia); ret_bind).
  unfold tt_make. by rewrite wraps_small by (unfold in_s; lia).
Qed.

(** Charging something to a coroutine, before the rest. *)
Lemma rgs_charge {B} w s l f (g : unit -> prog Profiler B) Q :
  info_valid l s -> (forall i, suspensions_list (f i) = suspensions_list i) ->
  (forall i, last_resume (f i) = last_resume i) ->
  (forall s', info_valid l s' -> rgs (g tt) w s' Q) ->
  rgs (upd_info (Some l) f ≫= g) w s Q.
Proof.
  intros Hv Hf Hr Hg. eapply (rgs_call _ _ _ _ _ _ (info_valid l));
    [apply stable_info_valid|done|apply rgs_prof_upd_info; [done|done|by intros i; rewrite Hr]|].
  intros [] s1 _ Hv1. auto.
Qed.

Lemma rgs_charge_linux w s self l last :
  info_valid l s -> usage_ok last ->
  rgs (charge_linux self (Some l) last) w s (post w (fun _ _ => True)).
Proof.
  intros Hv (Hu1 & Hu2 & Hu4 & Hu5). unfold charge_linux.
  eapply (rgs_call _ _ _ _ _ _ (info_valid l)); [apply stable_info_valid|done|apply rgs_getrusage|].
  intros u s1 (Hv1 & Hv2 & Hv3 & Hv4) Hi.
  rewrite !elapsed_ret by done. rewrite !signed_ret by (by apply switches_minus).
  ret_bind. apply rgs_charge; [done..|]. intros s2 Hi2.
  ret_bind. apply rgs_charge; [done..|]. intros s3 Hi3.
  ret_bind. apply rgs_charge; [done..|]. intros s4 Hi4. ret_bind.
  by apply rgs_prof_upd_info.
Qed.

Lemma rgs_charge_apple w s self l last :
  info_valid l s -> usage_ok last ->
  rgs (charge_apple self (Some l) last) w s (post w (fun _ _ => True)).
Proof.
  intros Hv (Hu1 & Hu2 & _). unfold charge_apple.
  eapply (rgs_call _ _ _ _ _ _ (info_valid l)); [apply stable_info_valid|done|apply rgs_thread_info|].
  intros [[sys user]|] s1 Ht Hi; [|by apply rgs_return]. destruct (Ht _ _ eq_refl) as [Ht1 Ht2].
  eapply (rgs_call _ _ _ _ _ _ (info_valid l));
    [apply stable_info_valid|done|apply rgs_set_usage; intros; by apply stime_ok|]. intros [] s2 _ Hi2.
  rewrite !elapsed_ret by done. ret_bind. apply rgs_charge; [done..|]. intros s3 Hi3.
  eapply (rgs_call _ _ _ _ _ _ (info_valid l));
    [apply stable_info_valid|done|apply rgs_set_usage; intros; by apply utime_ok|]. intros [] s4 _ Hi4.
  ret_bind. by apply rgs_prof_upd_info.
Qed.

Lemma rgs_resource_usage w s self l :
  info_valid l s -> rgs (calculate_resource_usage self (Some l)) w s (post w (fun _ _ => True)).
Proof.
  intros Hv. unfold calculate_resource_usage.
  eapply (rgs_call _ _ _ _ _ _ (info_valid l)); [apply stable_info_valid|done|apply rgs_prof_now|]. intros v s1 Hv1 Hi1.
  eapply (rgs_call _ _ _ _ _ _ (info_valid l));
    [apply stable_info_valid|done|by apply (rgs_read_info _ _ _ _ time_range)|]. intros r s2 Hr Hi2.
  rewrite tt_minus_ret by done. ret_bind. apply rgs_charge; [done..|]. intros s3 Hi3.
  eapply (rgs_call _ _ _ _ _ _ (info_valid l)); [apply stable_info_valid|done|apply rgs_get_usage|]. intros u s4 Hu Hi4.
  destruct target; [by apply rgs_charge_linux|by apply rgs_charge_apple].
Qed.

Lemma rgs_update_perf w s self : rgs (update_perf_counters self) w s (post w (fun _ _ => True)).
Proof.
  unfold update_perf_counters. destruct target.
  - eapply (rgs_call _ _ _ _ _ _ (fun _ => True)); [done|done|apply rgs_getrusage|]. intros u s1 _ _.
    by apply rgs_return.
  - eapply (rgs_call _ _ _ _ _ _ (fun _ => True)); [done|done|apply rgs_thread_info|].
    intros [[sys user]|] s1 Ht _; [|by apply rgs_return]. destruct (Ht _ _ eq_refl) as [Ht1 Ht2].
    eapply (rgs_call _ _ _ _ _ _ (fun _ => True)); [done|done|apply rgs_set_usage; intros; by apply stime_ok|].
    intros [] s2 _ _. apply rgs_set_usage. intros. by apply utime_ok.
Qed.
End rules.
