(* ===== verification/HandlersParallel.v ===== *)
(** * Handlers that run in parallel

    What each handler does while any number of other threads run handlers, the
    profiler thread processes samples and the cleaner cleans; and the theorem
    on all of them together. *)

From S2P Require Import Prelude ConcurrentList ConcurrentMap TraceTime TraceModel TraceStorage.
From S2P Require Import StorageSafety StorageSpec StorageCycle Interleaving StorageThreads.
From S2P Require Import StorageMethods StorageParallel Perfetto SuspensionPlot PlotThreads Jvm.
From S2P Require Import Profiler ProfilerSafety ProfilerHandlers ProfilerTheorems ProfilerThreads.
From S2P Require Import ProfilerContent HandlersThreads.
From Stdlib Require Import ZArith Lia.
From stdpp Require Import base gmap list strings numbers pretty.
Local Open Scope Z_scope.
Local Open Scope kt_scope.

Section handlers.
Context `{CK : !SteadyClock} `{E : !Environment} `{UL : !UsageLaws} (opts : settings) (M : gset Z).
Context (Hnone : NOT_FOUND ∉ M).
Implicit Types (s : Profiler) (t : TraceStorage) (w : list token).

#[local] Hint Extern 0 (Interference TraceStorage _) =>
  exact (storage_interference M) : typeclass_instances.
#[local] Hint Extern 0 (Interference Profiler _) =>
  exact (profiler_interference M) : typeclass_instances.

(** A method of the storage that keeps the contents. *)
Lemma rgs_method {A} (p : prog TraceStorage A) w s (F : A -> TraceStorage -> Prop) :
  (forall s', preserves (content M s') p (fun _ => True)) -> rgs p w (storage_ s) (post w F) ->
  rgs (zoom storage_L p) w s (post w (fun a s' => F a (storage_ s'))).
Proof.
  intros Hp H. eapply rgs_mono; [|eapply (rgs_storage M _ w s F (fun _ _ => True)); [|exact H]].
  - intros a w' s' [-> [HF _]]. by split.
  - auto.
Qed.

Definition info_known (id : Z) s : Prop := has_entry coroutine_info_map_ id (storage_ s).

Lemma stable_info_known id : id ∉ M -> stable (info_known id).
Proof. intros Hid. exact (stable_storage M _ (stable_info M id Hid)). Qed.

(** The pointer of a coroutine's info: null, or an info that stays. *)
Lemma rgs_prof_getInfo w s id :
  id ∉ M -> rgs (zoom storage_L (getCoroutineInfo id)) w s (post w (fun p s' =>
    (info_known id s -> p <> None) /\ forall l, p = Some l -> info_known id s' /\ info_valid l s')).
Proof.
  intros Hid. eapply rgs_mono; [|apply rgs_method; [intros; apply pres_getInfo|by apply rgs_getInfo]].
  intros p w' s' [-> [H1 H2]]. split; [done|]. split; [done|]. intros l ->. destruct H2 as [H2 H3].
  split; [by eexists|done].
Qed.

(** ** Coroutines *)

Lemma rgs_coroutineCreated w s self id :
  StorageMethods.plain w -> id ∉ M -> rgs (coroutineCreated self id) w s (post w (fun _ => info_known id)).
Proof.
  intros Hw Hid. unfold coroutineCreated.
  eapply (rgs_call _ _ _ _ _ _ (fun _ => True)); [done|done|apply rgs_get_coroutine|]. intros parent s1 Hp _.
  eapply (rgs_call _ _ _ _ _ _ (fun _ => True)); [done|done|apply rgs_findThread|]. intros _ s2 _ _.
  eapply (rgs_call _ _ _ _ _ _ (fun _ => True));
    [done|done|apply rgs_method; [intros; apply pres_createInfo|by apply rgs_createInfo]|].
  intros [] s3 Hi _. specialize (Hi Hid).
  eapply (rgs_call _ _ _ _ _ _ (info_known id));
    [by apply stable_info_known|done|apply rgs_method; [intros; apply pres_containsChild|by apply rgs_containsChild]|].
  intros [|] s4 Hb Hi4; [|by apply rgs_return; [apply stable_info_known|]]. specialize (Hb eq_refl).
  eapply (rgs_call _ _ _ _ _ _ (info_known id));
    [by apply stable_info_known|done|apply rgs_method; [intros; apply pres_addChild|by apply rgs_addChild]|].
  intros [] s5 _ Hi5.
  eapply rgs_mono; [|eapply (rgs_frame _ _ _ _ (info_known id)); [by apply stable_info_known|done|];
    apply rgs_method; [intros; apply pres_createChildren|by apply rgs_createChildren]].
  intros a w' s' [[-> _] H]. by split.
Qed.

(** What a suspension leaves behind. *)
Definition suspension_of (frames : option (list Z)) (id : Z) s : Prop :=
  match frames with
  | Some (m :: ms) => exists v, suspension_recorded (MkSuspension id v 0
      (method_frame <$> take COROUTINE_SUSPENSION_STACK_DEPTH (m :: ms))) (storage_ s)
  | _ => True
  end.

Lemma stable_suspension_of frames id : id ∉ M -> stable (suspension_of frames id).
Proof.
  intros Hid. destruct frames as [[|m ms]|]; [apply stable_True| |apply stable_True].
  apply stable_exists. intros v. apply (stable_storage M). by apply stable_suspension_recorded.
Qed.

Lemma rgs_suspend_record w s id frames :
  id ∉ M -> frames_answered frames -> info_known id s ->
  rgs (match frames with
       | Some (m :: ms) =>
           v ← zoom storage_L now;
           stack ← map_prog processMethodInfo (take COROUTINE_SUSPENSION_STACK_DEPTH (m :: ms));
           l ← zoom storage_L (zoom susp_heap_L (halloc (MkSuspension id v 0 stack)));
           zoom storage_L (addSuspensionInfo (Some l))
       | _ => mret tt
       end) w s (post w (fun _ => suspension_of frames id)).
Proof.
  intros Hid Hans Hi. pose proof (stable_suspension_of frames id Hid) as Hst.
  pose proof (stable_info_known id Hid) as HI.
  destruct frames as [[|m ms]|]; [by apply rgs_return| |by apply rgs_return].
  eapply (rgs_call _ _ _ _ _ _ (info_known id)); [done|done|apply rgs_prof_now|]. intros v s1 _ Hi1.
  eapply (rgs_call _ _ _ _ _ _ (info_known id)); [done|done| |].
  { apply (rgs_map_frames M method_answered _ method_frame); [apply Forall_take; by apply Hans|].
    intros x s2 Hx. by apply rgs_processMethodInfo. }
  intros stack s2 [-> Hk] Hi2. set (i := MkSuspension _ _ _ _).
  eapply (rgs_call _ _ _ _ _ _ (info_known id)); [done|done|eapply (rgs_storage M _ w s2 _ (fun _ _ => True))|].
  { intros s' Hn. apply pres_new_suspension. by eapply frames_known_names. }
  { apply rgs_newSuspension. }
  intros l s3 [(i' & Hl & Hs) _] Hi3.
  eapply rgs_mono; [|apply rgs_method; [intros; apply pres_addSuspensionInfo|by eapply (rgs_addSuspensionInfo M _ _ i)]].
  intros a w' s' [-> H]. split; [done|]. by exists v.
Qed.

Lemma rgs_coroutineSuspended w s self id frames :
  id ∉ M -> frames_answered frames ->
  rgs (coroutineSuspended frames self id) w s (post w (fun _ s' =>
    info_known id s -> suspension_of frames id s')).
Proof.
  intros Hid Hans. pose proof (stable_info_known id Hid) as HI. unfold coroutineSuspended.
  set (G := info_known id s). set (R := fun s' => G -> info_known id s').
  assert (HR : stable R) by (intros s1 s2 Hr H HG; exact (HI _ _ Hr (H HG))).
  eapply (rgs_call _ _ _ _ _ _ R); [done|by intros ?|by apply rgs_set_coroutine|]. intros [] s1 _ H1.
  eapply (rgs_call _ _ _ _ _ _ (fun _ => True)); [done|done|by apply rgs_prof_getInfo|]. intros [l|] s2 [Hp Hv] _.
  2: { rewrite bool_decide_eq_true_2 by done. apply rgs_ret. intros s3 _ _. split; [done|].
       intros HG. by destruct (Hp (H1 HG)). }
  rewrite bool_decide_eq_false_2 by done. destruct (Hv l eq_refl) as [Hi2 Hv2].
  set (V := fun s => info_known id s /\ info_valid l s).
  assert (HV : stable V) by (apply stable_and; [done|apply stable_info_valid]).
  eapply (rgs_call _ _ _ _ _ _ V); [done|done|by apply (rgs_read_info M _ _ _ _ time_range)|]. intros v s3 _ [Hi3 Hv3].
  eapply (rgs_call _ _ _ _ _ (fun _ _ => True) V); [done|by split| |].
  { destruct (tt_get v >? 0); [|by apply rgs_return].
    eapply (rgs_call _ _ _ _ _ _ V); [done|by split|by apply rgs_resource_usage|]. intros [] s4 _ [_ Hv4].
    apply rgs_prof_upd_info; [done|done|]. intros i _. apply time_zero. }
  intros [] s4 _ [Hi4 _]. eapply rgs_mono; [|by apply rgs_suspend_record]. intros a w' s' [-> H]. by split.
Qed.

Lemma rgs_coroutineResumed w s self id :
  id ∉ M -> rgs (coroutineResumed self id) w s (post w (fun _ _ => True)).
Proof.
  intros Hid. unfold coroutineResumed.
  eapply (rgs_call _ _ _ _ _ _ (fun _ => True)); [done|done|apply rgs_findThread|]. intros _ s1 _ _.
  eapply (rgs_call _ _ _ _ _ _ (fun _ => True)); [done|done|by apply rgs_set_coroutine|]. intros [] s2 _ _.
  eapply (rgs_call _ _ _ _ _ _ (fun _ => True)); [done|done|by apply rgs_prof_getInfo|]. intros [l|] s3 [_ Hv] _.
  2: { rewrite bool_decide_eq_true_2 by done. by apply rgs_return. }
  rewrite bool_decide_eq_false_2 by done. destruct (Hv l eq_refl) as [_ Hv3].
  eapply (rgs_call _ _ _ _ _ _ (info_valid l)); [apply stable_info_valid|done|apply rgs_update_perf|]. intros [] s4 _ Hv4.
  eapply (rgs_call _ _ _ _ _ _ (info_valid l)); [apply stable_info_valid|done|apply rgs_prof_now|]. intros v s5 Hr Hv5.
  eapply (rgs_call _ _ _ _ _ _ (fun _ => True)); [done|done|by apply rgs_prof_upd_info|]. intros [] s6 _ _.
  eapply (rgs_call _ _ _ _ _ _ (fun _ => True));
    [done|done|apply rgs_method; [intros; apply pres_lastSuspension|by apply rgs_lastSuspension]|].
  intros [x|] s7 Hx _; [|by apply rgs_return]. simpl in Hx.
  eapply (rgs_call _ _ _ _ _ _ (fun s => valid (suspension_heap (storage_ s)) x));
    [exact (stable_storage M _ (stable_valid_susp M x))|done|apply rgs_prof_now|]. intros v' s8 _ Hx8.
  eapply rgs_mono; [|apply rgs_method; [intros; apply pres_set_end|by apply rgs_set_end]]. by intros a w' s' [-> _].
Qed.

Lemma rgs_coroutineCompleted w s self id :
  id ∉ M -> rgs (coroutineCompleted self id) w s (post w (fun _ _ => True)).
Proof.
  intros Hid. unfold coroutineCompleted.
  eapply (rgs_call _ _ _ _ _ _ (fun _ => True)); [done|done|by apply rgs_set_coroutine|]. intros [] s2 _ _.
  eapply (rgs_call _ _ _ _ _ _ (fun _ => True)); [done|done|by apply rgs_prof_getInfo|]. intros [l|] s3 [_ Hv] _.
  2: { rewrite bool_decide_eq_true_2 by done. by apply rgs_return. }
  rewrite bool_decide_eq_false_2 by done. destruct (Hv l eq_refl) as [_ Hv3].
  eapply (rgs_call _ _ _ _ _ _ (info_valid l)); [apply stable_info_valid|done|apply rgs_prof_now|]. intros v s5 Hr Hv5.
  eapply (rgs_call _ _ _ _ _ _ (info_valid l)); [apply stable_info_valid|done|by apply rgs_prof_upd_info|]. intros [] s6 _ Hv6.
  by apply rgs_resource_usage.
Qed.

(** ** What is left alone *)

(** A part of the storage that the handlers of coroutines do not touch: the
    collections, or the ongoing traces. *)
Record apart {B} (f : TraceStorage -> B) : Prop := {
  ap_clock : forall x t, f (lset clock_L x t) = f t;
  ap_raw : forall x t, f (lset raw_L x t) = f t;
  ap_processed : forall x t, f (lset processed_L x t) = f t;
  ap_traces : forall x t, f (lset traces_heap_L x t) = f t;
  ap_children : forall x t, f (lset children_L x t) = f t;
  ap_child_heap : forall x t, f (lset child_heap_L x t) = f t;
  ap_infos : forall x t, f (lset infos_L x t) = f t;
  ap_info_heap : forall x t, f (lset info_heap_L x t) = f t;
  ap_suspensions : forall x t, f (lset susp_heap_L x t) = f t;
}.

Lemma apart_gc : apart gc_events_.
Proof. by split. Qed.
Lemma apart_ongoing : apart ongoing_trace_info_map_.
Proof. by split. Qed.

Section apart.
Context {B} (f : TraceStorage -> B) (Hf : apart f).

(** By the shape of the program; [apart_call] knows the programs done before. *)
Ltac apart_call := fail.
Ltac apart_step :=
  match goal with
  | |- keeps _ (match ?x with _ => _ end) => destruct x
  | |- keeps _ (mbind _ _) => apply keeps_bind; [|intros ?]
  | |- keeps _ (mret _) => apply keeps_ret
  | |- keeps _ (reads _) => apply keeps_reads
  | |- keeps _ (signed _ _) => apply keeps_signed
  | |- keeps _ (undef _) => apply keeps_undef
  | |- keeps _ (throw _) => apply keeps_throw
  | |- keeps _ (map_prog _ _) => apply keeps_map; intros ?
  | |- keeps _ (zoom storage_L _) => apply (keeps_zoom_in f storage_L)
  | |- keeps _ (zoom _ _) => apply keeps_zoom; first [apply Hf | done]
  | |- keeps _ (act _) => split; [intros ? ? ?; repeat case_match; by intros; simplify_eq|done]
  | |- keeps _ (modify _) => split; [by intros ? ? ? [= _ <-]|done]
  | |- keeps _ (upd_info _ _) => unfold upd_info
  | |- keeps _ (read_info _ _) => unfold read_info
  | |- keeps _ (info_field _ _) => unfold info_field
  | |- keeps _ now => unfold now
  | |- _ => apart_call
  end.
Ltac apart := repeat apart_step.

Definition part s : B := f (storage_ s).

Lemma apart_usage self p : keeps part (calculate_resource_usage self p).
Proof.
  unfold calculate_resource_usage, read_info, upd_info, get_usage, charge_linux, charge_apple,
    thread_basic_info, getrusage, set_usage, calculate_elapsed_time, tt_minus, now. apart.
Qed.

Lemma apart_method m : keeps part (processMethodInfo m).
Proof. unfold processMethodInfo, resolve_class, drop_last. apart. Qed.

Lemma apart_frame i : keeps part (processProfilerMethodInfo i).
Proof. unfold processProfilerMethodInfo. repeat case_match; first [apply apart_method|done]. Qed.

Ltac apart_call ::=
  match goal with
  | |- keeps _ (calculate_resource_usage _ _) => apply apart_usage
  | |- keeps _ (processMethodInfo _) => apply apart_method
  | |- keeps _ (processProfilerMethodInfo _) => apply apart_frame
  end.

Lemma apart_createInfo id : keeps f (createCoroutineInfo id).
Proof. unfold createCoroutineInfo, now. apart. Qed.

Lemma apart_getInfo id : keeps f (getCoroutineInfo id).
Proof. unfold getCoroutineInfo. apart. Qed.

Lemma apart_created self id : keeps part (coroutineCreated self id).
Proof.
  unfold coroutineCreated, get_coroutine, createCoroutineInfo, containsChildCoroutineStorage,
    addChildCoroutine, createChildCoroutineStorage, now. apart.
Qed.

Lemma apart_suspended frames self id : keeps part (coroutineSuspended frames self id).
Proof.
  unfold coroutineSuspended, set_coroutine, getCoroutineInfo, addSuspensionInfo, read_info, upd_info, now.
  apart.
Qed.

Lemma apart_resumed self id : keeps part (coroutineResumed self id).
Proof.
  unfold coroutineResumed, set_coroutine, getCoroutineInfo, getLastSuspensionInfo, update_perf_counters,
    thread_basic_info, getrusage, set_usage, upd_info, now. apart.
Qed.

Lemma apart_completed self id : keeps part (coroutineCompleted self id).
Proof.
  unfold coroutineCompleted, set_coroutine, getCoroutineInfo, upd_info, now. apart.
Qed.

Lemma apart_process fuel : keeps part (processTraces fuel).
Proof.
  assert (Hr : forall r, keeps part (processRecord r)).
  { intros r. unfold processRecord, first_instructions, addProcessedTrace. apart. }
  induction fuel as [|fuel IH]; cbn [processTraces];
    (apply keeps_bind; [unfold removeRawTraceHeader; apart|]); intros [r|]; try done;
    (apply keeps_bind; [apply Hr|]); intros []; [done|apply IH].
Qed.

Lemma apart_sample v a id : keeps part (zoom storage_L (addRawTrace v a id)).
Proof. unfold addRawTrace. apart. Qed.

(** The plot. *)
Lemma apart_plot deref fuel path ti : keeps f (write_perfetto deref fuel path ti).
Proof.
  assert (Hc : forall seq visited item st, keeps f (plot_coroutine deref ti seq visited item st)).
  { intros seq visited [id parent] st. unfold plot_coroutine, getCoroutineInfo, info_field, switches_annotation,
      getProcessedTraces, each_suspension, containsChildCoroutineStorage, getChildCoroutines, add_call_stack.
    apart. }
  assert (Hl : forall fuel seq queue visited st, keeps f (trace_loop deref fuel ti seq queue visited st)).
  { intros n. induction n as [|n IH]; intros seq [|item queue] visited st; try done.
    apply keeps_bind; [apply Hc|]. intros [items st1]. apply IH. }
  unfold write_perfetto, add_trace_info, add_gc_info. destruct (trace_packets ti) as [track st].
  apply keeps_bind; [apply keeps_findGcEvents|]. intros st1. apply keeps_bind; [apply Hl|]. done.
Qed.
End apart.

(** ** Traces *)

Abbreviation traces_part := (part ongoing_trace_info_map_).

(** A call that leaves the ongoing traces alone, with what its thread knows of
    them. *)
Lemma rgs_keeps_traces {A} (p : prog Profiler A) w s m (F : A -> Profiler -> Prop) :
  keeps traces_part p -> traces_known w m (storage_ s) -> rgs p w s (post w F) ->
  rgs p w s (post w (fun a s' => F a s' /\ traces_known w m (storage_ s'))).
Proof.
  intros Hp Hm H. eapply rgs_mono; [|apply (rgs_keeps traces_part (fun s => traces_known w m (storage_ s))); try done].
  - intros a w' s' [[-> HF] Hm']. by split.
  - intros s1 s2 He H1 id Hid. unfold ongoing, part in *. rewrite He. by apply H1.
  - intros w' s1 s2 Hw' [Hr _] H1 id Hid. rewrite <- (H1 id Hid). apply (r_ongoing _ _ _ _ Hr). by apply Hw'.
Qed.

Lemma rgs_call_traces {A B} (p : prog Profiler A) (g : A -> prog Profiler B) w s m Q
    (F : A -> Profiler -> Prop) (R : Profiler -> Prop) :
  stable R -> R s -> keeps traces_part p -> traces_known w m (storage_ s) -> rgs p w s (post w F) ->
  (forall a s', F a s' -> R s' -> traces_known w m (storage_ s') -> rgs (g a) w s' Q) ->
  rgs (p ≫= g) w s Q.
Proof.
  intros HR Hs Hp Hm H Hg. eapply (rgs_call _ _ _ _ _ _ R); [done|done|by apply rgs_keeps_traces|].
  intros a s' [HF Hm'] HR'. auto.
Qed.

Lemma apart_count self n {B} (f : TraceStorage -> B) : keeps (part f) (count_traces self n).
Proof. unfold count_traces. apply keeps_bind; [by apply keeps_zoom|]. intros p. by apply keeps_zoom. Qed.

Lemma apart_now {B} (f : TraceStorage -> B) : apart f -> keeps (part f) (zoom storage_L now).
Proof. intros Hf. apply (keeps_zoom_in f storage_L). unfold now. apply keeps_zoom, Hf. Qed.

(** The key of the trace, and the info made for a trace outside coroutines. *)
Lemma rgs_trace_key w s self id :
  StorageMethods.plain w -> 
  rgs (if id =? -2 then let k := hash_thread_id self in
         zoom storage_L (createCoroutineInfo k);; mret k
       else mret id) w s
    (post w (fun k s' => k = trace_key self id /\ (id = -2 -> k ∉ M -> info_known k s'))).
Proof.
  intros Hw. unfold trace_key. destruct (id =? -2) eqn:Hid.
  - eapply (rgs_call _ _ _ _ _ _ (fun _ => True));
      [done|done|apply rgs_method; [intros; apply pres_createInfo|by apply rgs_createInfo]|].
    intros [] s1 Hi _. apply rgs_ret. intros s2 Hr _. split; [done|]. split; [done|]. intros _ Hk.
    eapply (stable_rely w (info_known _)); [by apply stable_info_known|exact Hr|by apply Hi].
  - apply rgs_ret. intros s1 _ _. split; [done|]. split; [done|lia].
Qed.

Lemma rgs_traceStart w s self id m :
  StorageMethods.plain w -> is_Some (registered (jvm_ s) self) -> hash_pthread self ∉ M ->
  Tracing (trace_key self id) ∈ w -> traces_known w m (storage_ s) -> m !! trace_key self id = None ->
  rgs (traceStart self id) w s (post w (fun _ s' =>
    (id = -2 -> trace_key self id ∉ M -> info_known (trace_key self id) s') /\
    exists v, traces_known w (<[trace_key self id := MkTraceInfo (trace_key self id) v 0]> m) (storage_ s'))).
Proof.
  intros Hw Hreg Hself Ht Hm Hn. unfold traceStart. set (k := trace_key self id) in *.
  eapply (rgs_call_traces _ _ _ _ m _ _ (fun s => is_Some (registered (jvm_ s) self)));
    [apply stable_registered|done| |done|by apply rgs_trace_key|].
  { destruct (id =? -2); [|done]. apply keeps_bind; [|done].
    apply (keeps_zoom_in ongoing_trace_info_map_ storage_L), apart_createInfo, apart_ongoing. }
  intros k' s1 [-> Hi1] Hreg1 Hm1. fold k in Hi1.
  set (R := fun s => id = -2 -> k ∉ M -> info_known k s).
  assert (HR : stable R) by (intros s2 s3 Hr H H1 H2; eapply stable_info_known; eauto).
  eapply (rgs_call_traces _ _ _ _ m _ _ R); [done|done|apply apart_count|done|by apply rgs_count_traces|].
  intros [] s2 _ Hi2 Hm2.
  eapply (rgs_call_traces _ _ _ _ m _ _ R); [done|done|apply apart_now, apart_ongoing|done|apply rgs_prof_now|].
  intros v s3 Hv Hi3 Hm3.
  eapply (rgs_call_traces _ _ _ _ m _ _ R); [done|done| |done| |].
  { apply (keeps_zoom_in ongoing_trace_info_map_ storage_L). unfold createChildCoroutineStorage. keeps_tac. }
  { apply rgs_method; [intros; apply pres_createChildren|by apply rgs_createChildren]. }
  intros [] s4 _ Hi4 Hm4. apply rgs_bind.
  eapply rgs_mono; [|eapply (rgs_frame _ _ _ _ R); [done|done|];
    eapply (rgs_lift M _ w s4 _ (fun _ _ => True)); [intros; by apply pres_addOngoing|by apply (rgs_addOngoing M _ _ m)]].
  intros b w' s5 [[(-> & -> & Hm5) _] Hi5]. cbn [ti_coroutine_id] in *. fold k in Hm5 |- *.
  rewrite bool_decide_eq_true_2 by done. apply rgs_ret. intros s6 Hr6 _. split; [done|]. split.
  - exact (stable_rely _ _ _ _ HR Hr6 Hi5).
  - exists v. unfold if_absent in Hm5. rewrite Hn in Hm5. eapply traces_known_rely; [apply Hr6|exact Hm5].
Qed.

(** Members that no invariant speaks of. *)
Lemma free_guarantee w s s' :
  holds w s -> storage_ s' = storage_ s -> prof_wf s' -> names_grow s s' -> locals_ s' = locals_ s ->
  jvm_ s' = jvm_ s -> guarantee w w s s'.
Proof.
  intros Hh Hs Hwf Hn Hl Hj. apply local_guarantee; try done.
  - intros self. unfold get_coroutine_of, get_locals. rewrite Hl. apply (in_running _ _ (proj1 Hh)).
  - intros l th. rewrite Hj. apply (in_threads _ _ (proj1 Hh)).
Qed.

(** What the thread knows of its traces after the end of one: unless the info
    of the coroutine was missing, the trace is not ongoing any more. *)
Definition trace_ended w m (k : Z) (known : Prop) s : Prop :=
  exists m', (m' = m \/ m' = delete k m) /\ (known -> m' = delete k m) /\ traces_known w m' (storage_ s).

Lemma trace_ended_rely w m k (P : Prop) s s' : rely w s s' -> trace_ended w m k P s -> trace_ended w m k P s'.
Proof. intros [Hr _] (m' & H1 & H2 & H3). exists m'. split_and!; [done|done|]. by eapply traces_known_rely. Qed.

(** The end of [finishTrace]. *)
Lemma rgs_report w s k m i v (P : Prop) :
  Tracing k ∈ w -> traces_known w m (storage_ s) -> m !! k = Some i -> ti_coroutine_id i = k -> time_range v ->
  rgs (found ← findOngoingTrace k;
       let traceInfo := MkTraceInfo (ti_coroutine_id found) (ti_start found) v in
       removeOngoingTrace (ti_coroutine_id traceInfo);;
       elapsedTime ← tt_minus (ti_end traceInfo) (ti_start traceInfo);
       if tt_get elapsedTime >? threshold_ opts then
         n ← act (fun s => Val (output_counter s) (lset counter_L (s32 (output_counter s + 1)) s));
         mret (Some (output_path_ opts +:+ "/trace" +:+ pretty n +:+ ".pftrace", traceInfo))
       else mret None) w s
    (post w (fun r s' => (forall x, r = Some x -> ti_coroutine_id x.2 = k) /\ trace_ended w m k P s')).
Proof.
  intros Hw Hm Hi Hk Hv. apply rgs_bind.
  eapply rgs_mono; [|eapply (rgs_lift M _ w s _ (fun i _ => time_range (ti_start i)));
    [intros; apply pres_findOngoing|by apply (rgs_findOngoing M _ _ m _ i)]].
  intros i' w' s1 [(-> & -> & Hm1) Hst]. cbn [ti_coroutine_id ti_start ti_end]. rewrite Hk.
  apply rgs_bind. eapply rgs_mono; [|eapply (rgs_lift M _ w s1 _ (fun _ _ => True));
    [intros; apply pres_removeOngoing|by apply (rgs_removeOngoing M _ _ m)]].
  intros [] w' s2 [[-> Hm2] _]. rewrite tt_minus_ret by done. change (mret ?x ≫= ?f) with (f x); cbv beta.
  assert (He : trace_ended w m k P s2) by (exists (delete k m); auto).
  destruct (_ >? _).
  - apply rgs_step; [single|]. intros s3 Hr3 Hh3. eapply wp_act; [reflexivity|]. exists w. split.
    + apply free_guarantee; try done. apply wf_counter. by eapply holds_wf.
    + apply rgs_ret. intros s4 Hr4 _. split; [done|]. split; [by intros x [= <-]|].
      eapply trace_ended_rely; [exact Hr4|]. exact (trace_ended_rely _ _ _ _ _ _ Hr3 He).
  - apply rgs_ret. intros s3 Hr3 _. split; [done|]. split; [done|]. by eapply trace_ended_rely.
Qed.

Lemma rgs_finishTrace w s self id m i :
  is_Some (registered (jvm_ s) self) -> hash_pthread self ∉ M -> trace_key self id ∉ M ->
  Tracing (trace_key self id) ∈ w ->
  traces_known w m (storage_ s) -> m !! trace_key self id = Some i -> ti_coroutine_id i = trace_key self id ->
  rgs (finishTrace opts self id) w s (post w (fun r s' =>
    (forall x, r = Some x -> ti_coroutine_id x.2 = trace_key self id) /\
    trace_ended w m (trace_key self id) (info_known (trace_key self id) s) s')).
Proof.
  intros Hreg Hself Hid Hw Hm Hi Hk. unfold finishTrace. fold (trace_key self id). set (k := trace_key self id) in *.
  set (G := info_known k s). set (R := fun s' => G -> info_known k s').
  assert (HR : stable R) by (intros s1 s2 Hr H HG; exact (stable_info_known k Hid _ _ Hr (H HG))).
  eapply (rgs_call_traces _ _ _ _ m _ _ R); [done|by intros ?|apply apart_count|done|by apply rgs_count_traces|].
  intros [] s1 _ H1 Hm1.
  eapply (rgs_call_traces _ _ _ _ m _ _ (fun _ => True)); [done|done| |done|by apply rgs_prof_getInfo|].
  { apply (keeps_zoom_in ongoing_trace_info_map_ storage_L), apart_getInfo, apart_ongoing. }
  intros [l|] s2 [Hp Hv] _ Hm2.
  2: { rewrite bool_decide_eq_true_2 by done. apply rgs_ret. intros s3 Hr _. split; [done|]. split; [done|].
       eapply trace_ended_rely; [exact Hr|]. exists m. split; [by left|]. split; [|done].
       intros HG. by destruct (Hp (H1 HG)). }
  rewrite bool_decide_eq_false_2 by done. destruct (Hv l eq_refl) as [_ Hv2].
  eapply (rgs_call_traces _ _ _ _ m _ _ (fun _ => True));
    [done|done|apply apart_usage, apart_ongoing|done|by apply rgs_resource_usage|]. intros [] s3 _ _ Hm3.
  eapply (rgs_call_traces _ _ _ _ m _ _ (fun _ => True));
    [done|done|apply apart_now, apart_ongoing|done|apply rgs_prof_now|]. intros v s4 Hv4 _ Hm4.
  by eapply rgs_report.
Qed.

Lemma rgs_traceEnd w s self id m i fuel :
  is_Some (registered (jvm_ s) self) -> hash_pthread self ∉ M -> trace_key self id ∉ M ->
  Tracing (trace_key self id) ∈ w ->
  traces_known w m (storage_ s) -> m !! trace_key self id = Some i -> ti_coroutine_id i = trace_key self id ->
  rgs (traceEnd opts fuel self id) w s (post w (fun _ s' =>
    trace_ended w m (trace_key self id) (info_known (trace_key self id) s) s')).
Proof.
  intros Hreg Hself Hid Hw Hm Hi Hk. unfold traceEnd. set (k := trace_key self id) in *. set (P := info_known k s).
  eapply (rgs_call _ _ _ _ _ _ (fun _ => True)); [done|done|by eapply rgs_finishTrace|].
  fold k P. intros [[path ti]|] s1 [Hti He] _.
  2: { apply rgs_ret. intros s2 Hr _. split; [done|]. by eapply trace_ended_rely. }
  specialize (Hti _ eq_refl). cbn [snd] in Hti. destruct He as (m' & H1 & H2 & Hm1).
  eapply (rgs_call_traces _ _ _ _ m' _ (fun _ _ => True) (fun _ => True)); [done|done|apply keeps_reads|done| |].
  { apply rgs_look_at; [single|done|]. intros s2 _ _. by apply wp_reads. }
  intros deref s2 _ _ Hm2.
  eapply (rgs_call_traces _ _ _ _ m' _ _ (fun _ => True)); [done|done| |done| |].
  { apply (keeps_zoom_in ongoing_trace_info_map_ storage_L), apart_plot, apart_ongoing. }
  { apply rgs_method; [intros; apply pres_write_perfetto|]. apply rgs_write_perfetto. by rewrite Hti. }
  intros [file|] s3 _ _ Hm3.
  - apply rgs_step; [single|]. intros s4 Hr4 Hh4. apply wp_modify. exists w. split.
    + apply free_guarantee; try done. apply wf_files. by eapply holds_wf.
    + apply rgs_ret. intros s5 Hr5 _. split; [done|]. eapply trace_ended_rely; [exact Hr5|].
      exists m'. split_and!; [done|done|]. exact (traces_known_rely _ _ _ _ _ (proj1 Hr4) Hm3).
  - apply rgs_ret. intros s4 Hr4 _. split; [done|]. eapply trace_ended_rely; [exact Hr4|]. by exists m'.
Qed.

(** ** Samples *)

(** A processed sample that the storage has. *)
Definition sample_stored (r : RawCallTraceRecord) s : Prop :=
  exists x, processed_of r x /\ trace_recorded (raw_coroutine_id r) x (storage_ s).

Lemma stable_sample_stored r : raw_coroutine_id r ∉ M -> stable (sample_stored r).
Proof.
  intros Hr. apply stable_exists. intros x. apply stable_and; [apply stable_pure|].
  apply (stable_storage M). by apply stable_trace_recorded.
Qed.

Lemma rgs_processRecord w s r :
  StorageMethods.plain w -> Consumer ∈ w -> live_raw M s r ->
  rgs (processRecord r) w s (post w (fun _ => sample_stored r)).
Proof.
  intros Hp Hw [(Hreg & Hlen & Hans) Hr]. unfold processRecord.
  eapply (rgs_call _ _ _ _ _ _ (fun _ => True)); [done|done|apply rgs_findThread|].
  intros [l|] s1 [H1 _] _; [|by destruct (H1 Hreg)].
  unfold first_instructions. rewrite (proj2 (Nat.leb_le _ _) Hlen). change (mret ?x ≫= ?f) with (f x); cbv beta.
  eapply (rgs_call _ _ _ _ _ _ (fun _ => True)); [done|done| |].
  { apply (rgs_map_frames M instruction_answered _ frame_of); [exact Hans|].
    intros x s2 Hx. by apply rgs_processProfilerMethodInfo. }
  intros ms s2 [-> Hk] _. set (x := MkProcessed _ _ _).
  eapply rgs_mono; [|eapply (rgs_storage M _ w s2 _ (fun _ _ => True)); [|by apply rgs_addProcessed]].
  - intros [] w' s3 [-> [H3 _]]. split; [done|]. by exists x.
  - intros s' Hn. apply pres_addProcessed. unfold sample_known. by eapply frames_known_names.
Qed.

Lemma rgs_processTraces w s fuel :
  StorageMethods.plain w -> Consumer ∈ w ->
  rgs (processTraces fuel) w s (post w (fun _ _ => True)).
Proof.
  intros Hp Hw. revert s.
  assert (Hpop : forall s, rgs (zoom storage_L removeRawTraceHeader) w s (post w (fun r s' =>
            forall x, r = Some x -> live_raw M s' x))).
  { intros s. eapply rgs_mono; [|eapply (rgs_storage M _ w s _ (fun r s' => forall x, r = Some x -> live_raw M s' x));
      [intros; apply pres_removeRaw|by apply rgs_removeRaw]]. intros r w' s' [-> [_ H]]. by split. }
  induction fuel as [|fuel IH]; intros s; cbn [processTraces];
    (eapply (rgs_call _ _ _ _ _ _ (fun _ => True)); [done|done|apply Hpop|]);
    (intros [r|] s1 Hr _; [|by apply rgs_return]); specialize (Hr _ eq_refl);
    (eapply (rgs_call _ _ _ _ _ _ (fun _ => True)); [done|done|by apply rgs_processRecord|]); intros [] s2 _ _;
    [by apply rgs_return|apply IH].
Qed.

Lemma rgs_sample w s v a id :
  live_raw M s (MkRaw (tt_get v) (at_size a) a (thread_id a) id) ->
  rgs (zoom storage_L (addRawTrace v a id)) w s (post w (fun _ _ => True)).
Proof.
  intros Hr. eapply rgs_mono; [|eapply (rgs_storage M _ w s _ (fun _ _ => True)); [|apply rgs_addRaw]].
  - by intros x w' s' [-> _].
  - intros s' Hn. apply pres_addRaw. by eapply live_raw_names.
Qed.

(** ** Collections and cleaning *)

Definition collections w (a b : bool) s : Prop := Remover ∈ w -> gc_known a b (storage_ s).

Lemma rgs_prof_gcStart w s a b :
  collections w a b s -> rgs prof_gcStart w s (post w (fun _ => collections w true b)).
Proof.
  intros H. eapply rgs_mono; [|eapply (rgs_lift M _ w s _ (fun _ _ => True)); [intros; apply pres_gcStart|by eapply rgs_gcStart]].
  intros x w' s' [[-> Hk] _]. by split.
Qed.

Lemma rgs_prof_gcFinish w s b :
  Remover ∈ w -> collections w true b s -> rgs prof_gcFinish w s (post w (fun _ => collections w true b)).
Proof.
  intros Hw H. eapply rgs_mono; [|eapply (rgs_lift M _ w s _ (fun _ _ => True));
    [intros; apply pres_gcFinish|apply rgs_gcFinish; auto]].
  intros x w' s' [[-> Hk] _]. by split.
Qed.

Lemma rgs_prof_clean w s a :
  Remover ∈ w -> collections w a true s ->
  rgs (zoom storage_L clean) w s (post w (fun _ s' => unmarked (storage_ s') /\ collections w false false s')).
Proof.
  intros Hw H. eapply rgs_mono; [|apply rgs_method; [intros; apply pres_clean|apply rgs_clean; [done|]]].
  - intros x w' s' [-> Hu]. split; [done|]. split; [exact Hu|]. by intros _.
  - destruct (H Hw). by split.
Qed.

Lemma rgs_keeps_collections {A} (p : prog Profiler A) w s a b (F : A -> Profiler -> Prop) :
  keeps (part gc_events_) p -> collections w a b s -> rgs p w s (post w F) ->
  rgs p w s (post w (fun x s' => F x s' /\ collections w a b s')).
Proof.
  intros Hp Hm H. eapply rgs_mono; [|apply (rgs_keeps (part gc_events_) (collections w a b)); try done].
  - intros x w' s' [[-> HF] Hm']. by split.
  - intros s1 s2 He H1 Hw. eapply gc_known_eq; [exact He|auto].
  - intros w' s1 s2 Hw' [Hr _] H1 Hw. eapply (gc_known_rely M w'); [by apply Hw'|exact Hr|auto].
Qed.
End handlers.
