(* ===== verification/TurnThreads.v ===== *)
(** * The profiler thread under interference

    A turn of the profiler thread, and its loop, while other threads run
    handlers: the threads it samples stay registered, each sample can be
    processed and is stored under a coroutine that is not being cleaned, and
    the clock does not go back, so the time to sleep does not overflow. *)

From S2P Require Import Prelude Memory ConcurrentList ConcurrentMap TraceTime TraceModel TraceStorage.
From S2P Require Import StorageSafety StorageSpec StorageCycle Interleaving StorageThreads.
From S2P Require Import StorageMethods Perfetto SuspensionPlot Jvm Unwind Sampling SampledTraces.
From S2P Require Import Profiler ProfilerSafety ProfilerHandlers ProfilerTheorems ProfilerThreads.
From S2P Require Import ProfilerContent HandlersThreads HandlersParallel ProfilerTurn.
From Stdlib Require Import ZArith Lia.
From stdpp Require Import base gmap list strings numbers pretty.
Local Open Scope Z_scope.
Local Open Scope kt_scope.

Section rules.
Context `{CK : !SteadyClock} `{E : !Environment} `{UL : !UsageLaws}.
Context `{CC : !CodeCacheAPI} `{LU : !Libunwind} `{SG : !Signals} (opts : settings) (M : gset Z).
Implicit Types (s : Profiler) (w : list token).

#[local] Hint Extern 0 (Interference TraceStorage _) =>
  exact (storage_interference M) : typeclass_instances.
#[local] Hint Extern 0 (Interference Profiler _) =>
  exact (profiler_interference M) : typeclass_instances.

(** What the loop needs of the system: every handler returns, JVMTI knows the
    methods of the code cache, and the interval is a time. *)
Record sampler_ok : Prop := {
  sp_unwinds : forall th, unwinds th;
  sp_answered : ids_answered;
  sp_interval : 0 <= interval_ opts < 2 ^ 63;
}.
Context (Hok : sampler_ok).

(** A registered thread whose own key is not being cleaned. *)
Definition sampled_id (i : Z) s : Prop := is_Some (registered (jvm_ s) i) /\ hash_pthread i ∉ M.

Lemma stable_sampled_id i : stable (sampled_id i).
Proof. apply stable_and; [apply stable_registered|apply stable_pure]. Qed.

Lemma sampled_key_live w s th : holds w s -> hash_pthread (th_id th) ∉ M -> sampled_key s th ∉ M.
Proof.
  intros Hh Hk. unfold sampled_key. destruct (_ =? -1); [done|]. apply (in_running _ _ (proj1 Hh)).
Qed.

(** The trace the handler filled, as a sample of the time [v]. *)
Definition trace_live (a : AsyncTrace) s : Prop :=
  forall v, live_raw M s (MkRaw v (at_size a) a (thread_id a) (at_coroutine_id a)).

Lemma stable_trace_live a : stable (trace_live a).
Proof. intros s s' Hr H v. exact (stable_live_raw M _ s s' Hr (H v)). Qed.

(** Nobody stops the profiler, so a handler that was sent by a turn finds it
    active, and the thread does not wait in vain. *)
Definition running_profiler s : Prop := prof_active s = true.

Lemma stable_running : stable running_profiler.
Proof. intros s s' [_ Hn] H. unfold running_profiler. by rewrite (ng_active _ _ Hn). Qed.

Lemma rgs_active w s : rgs (reads prof_active) w s (post w (fun b s' => b = true -> running_profiler s')).
Proof.
  apply rgs_look_at; [single|intros b s1 s2 Hr H Hb; exact (stable_running s1 s2 Hr (H Hb))|].
  intros s1 _ _. by apply wp_reads.
Qed.

Lemma rgs_signal w s th :
  running_profiler s -> sampled_id (th_id th) s ->
  rgs (signal_action th) w s (post w (fun a s' => trace_live a s' /\ ready a = true)).
Proof using Hok.
  intros Hact Hs. assert (Hst : forall a, stable (fun s' => trace_live a s' /\ ready a = true))
    by (intros a; apply stable_and; [apply stable_trace_live|apply stable_pure]).
  eapply (rgs_call _ _ _ _ _ (fun b _ => b = true) (sampled_id (th_id th))); [apply stable_sampled_id|done| |].
  { apply rgs_look_at; [single|intros b; apply stable_pure|]. intros s1 Hr _. apply wp_reads. split; [done|].
    exact (stable_rely _ _ _ _ stable_running Hr Hact). }
  intros b s0 -> Hs0. apply rgs_look_at; [single|done|].
  intros s1 Hr Hh. destruct (stable_rely _ _ _ _ (stable_sampled_id _) Hr Hs0) as [Hreg Hk].
  apply wp_fill; [apply Hok|]. intros n a Ha. split; [done|]. split; [|done]. intros v. split.
  - apply (complete_raw_ok (memory_at n) hash_pthread (th_id th)); [apply Hok|by apply sample_complete|].
    cbn [thread_id set_ready set_at_coroutine]. by rewrite (unwound_thread _ _ _ Ha).
  - by apply (sampled_key_live w).
Qed.

(** A thread of the registry. *)
Definition listed (l : nat) s : Prop := exists i, thread_at s l i /\ is_Some (registered (jvm_ s) i).

Lemma stable_listed l : stable (listed l).
Proof. apply stable_exists. intros i. apply stable_and; [apply stable_thread_at|apply stable_registered]. Qed.

Lemma stable_all_listed ls : stable (fun s => Forall (fun l => listed l s) ls).
Proof. intros s s' Hr H. eapply list.Forall_impl; [exact H|]. intros l. by apply stable_listed. Qed.

Lemma rgs_getThreads w s :
  rgs (zoom jvm_L getThreads) w s (post w (fun ls s' => Forall (fun l => listed l s') ls)).
Proof.
  apply rgs_look_at; [single|apply stable_all_listed|]. intros s1 Hr Hh.
  apply wp_zoom, wp_zoom, wp_reads. rewrite !lset_lget. split; [done|].
  pose proof (wf_threads _ (pw_jvm _ (holds_wf _ _ _ Hh))) as Hv. rewrite list.Forall_forall in Hv |- *.
  intros l Hl. destruct (Hv l Hl) as [th Hth]. exists (th_id th). split; [by exists th|].
  by eapply registered_of.
Qed.

Lemma rgs_sample_thread w s l :
  running_profiler s -> listed l s -> rgs (sample_thread l) w s (post w (fun _ _ => True)).
Proof using Hok.
  intros Hact Hl. unfold sample_thread.
  eapply (rgs_call _ _ _ _ _ (fun th s' => current_traces th > 0 -> sampled_id (th_id th) s') running_profiler);
    [apply stable_running|done| |].
  { apply rgs_look_at; [single|intros th s1 s2 Hr H Hc; exact (stable_sampled_id _ s1 s2 Hr (H Hc))|]. intros s1 Hr Hh.
    destruct (stable_rely _ _ _ _ (stable_listed l) Hr Hl) as (i & (th & Hth & Hi) & Hreg).
    apply wp_zoom, wp_zoom. eapply wp_hread; [exact Hth|]. rewrite !lset_lget. split; [done|].
    rewrite Hi. intros Hc. split; [done|]. rewrite <- Hi. by apply (in_threads _ _ (proj1 Hh) l). }
  intros th s1 Hth Hact1. destruct (current_traces th >? 0) eqn:Hc; [|by apply rgs_return].
  specialize (Hth ltac:(lia)).
  eapply (rgs_call _ _ _ _ _ _ (fun _ => True)); [done|done|by apply rgs_signal|]. intros a s2 [Ha Hready] _.
  unfold wait_ready. rewrite Hready. change (mret ?x ≫= ?f) with (f x). cbv beta zeta.
  eapply (rgs_call _ _ _ _ _ _ (trace_live a)); [apply stable_trace_live|done|apply rgs_prof_now|].
  intros v s3 _ Ha3. apply rgs_sample, Ha3.
Qed.

Lemma rgs_sample_each w s ls :
  running_profiler s -> Forall (fun l => listed l s) ls -> rgs (for_each ls sample_thread) w s (post w (fun _ _ => True)).
Proof using Hok.
  revert s. induction ls as [|l ls IH]; intros s Hact Hls; cbn [for_each]; [by apply rgs_return|].
  apply Forall_cons_1 in Hls as [Hl Hls].
  eapply (rgs_call _ _ _ _ _ _ (fun s => running_profiler s /\ Forall (fun l => listed l s) ls));
    [apply stable_and; [apply stable_running|apply stable_all_listed]|done|by apply rgs_sample_thread|].
  intros [] s1 _ [Hact1 Hls1]. by apply IH.
Qed.

(** Two readings of the clock. *)
Definition passed_ (v : Z) s : Prop := passed v (storage_ s).

Lemma stable_passed_ v : stable (passed_ v).
Proof. apply (stable_storage M). apply stable_passed. Qed.

Lemma rgs_now_from w s v :
  passed_ v s -> rgs (zoom storage_L now) w s (post w (fun t s' => (v <= t /\ passed_ t s') /\ time_range t)).
Proof.
  intros Hv. eapply rgs_mono;
    [|apply (rgs_storage M _ w s (fun t st => v <= t /\ passed t st) (fun t _ => time_range t)); [|by apply rgs_now_after]].
  - by intros t w' s' [-> [H1 H2]].
  - intros s' _. apply pres_now.
Qed.

Lemma passed_zero s : passed_ 0 s.
Proof.
  unfold passed_, passed. pose proof (steady_range (readings (clock (storage_ s)))). lia.
Qed.

Lemma sleep_time_ret v t :
  time_range v -> time_range t -> v <= t ->
  exists z, sleep_time opts v t = mret z /\ 0 <= z <= interval_ opts.
Proof using Hok.
  intros Hv Ht Hle. pose proof (sp_interval Hok). unfold sleep_time. rewrite tt_minus_ret by done.
  change (mret ?x ≫= ?f) with (f x). cbv beta. unfold tt_get.
  rewrite signed_ret by (unfold in_s, time_range in *; lia). change (mret ?x ≫= ?f) with (f x). cbv beta.
  eexists. split; [done|]. destruct (_ >? 0) eqn:Hz; lia.
Qed.

Lemma rgs_profiler_turn w s fuel :
  running_profiler s -> StorageMethods.plain w -> Consumer ∈ w ->
  rgs (profiler_turn opts fuel) w s (post w (fun r _ => 0 <= r.2 <= interval_ opts)).
Proof using Hok UL.
  intros Hact Hp Hw. unfold profiler_turn.
  eapply (rgs_call _ _ _ _ _ _ running_profiler); [apply stable_running|done|apply rgs_getThreads|].
  intros ls s1 Hls Hact1.
  eapply (rgs_call _ _ _ _ _ _ (fun s => running_profiler s /\ Forall (fun l => listed l s) ls));
    [apply stable_and; [apply stable_running|apply stable_all_listed]|done|apply (rgs_now_from _ _ 0), passed_zero|].
  intros start s2 [[_ Hst] Hsr] [Hact2 Hls2].
  eapply (rgs_call _ _ _ _ _ _ (passed_ start)); [apply stable_passed_|done|by apply rgs_sample_each|].
  intros [] s3 _ Hst3.
  eapply (rgs_call _ _ _ _ _ _ (passed_ start)); [apply stable_passed_|done|by apply rgs_processTraces|].
  intros b s4 _ Hst4.
  eapply (rgs_call _ _ _ _ _ _ (fun _ => True)); [done|done|by apply (rgs_now_from _ _ start)|].
  intros finish s5 [[Hle _] Hfr] _.
  destruct (sleep_time_ret start finish Hsr Hfr Hle) as (z & -> & Hz).
  change (mret ?x ≫= ?f) with (f x). cbv beta. apply rgs_return; [apply stable_pure|exact Hz].
Qed.

(** The loop, for any number of turns. *)
Lemma rgs_profiler_loop w s turns fuel :
  StorageMethods.plain w -> Consumer ∈ w ->
  rgs (profiler_loop opts turns fuel) w s (post w (fun _ _ => True)).
Proof using Hok UL.
  intros Hp Hw. revert s. induction turns as [|turns IH]; intros s; cbn [profiler_loop]; [by apply rgs_return|].
  eapply (rgs_call _ _ _ _ _ _ (fun _ => True)); [done|done|apply rgs_active|].
  intros [] s1 Hact _; [|by apply rgs_return].
  eapply (rgs_call _ _ _ _ _ _ (fun _ => True)); [done|done|by apply rgs_profiler_turn; [apply Hact|..]|]. intros r s2 _ _. apply IH.
Qed.
End rules.

(** ** The part of the storage that the loop leaves alone *)

Section apart.
Context `{CK : !SteadyClock} `{E : !Environment}.
Context `{CC : !CodeCacheAPI} `{LU : !Libunwind} `{SG : !Signals} (opts : settings).
Context {B : Type} (f : TraceStorage -> B) (Hf : apart f).

Lemma apart_turn fuel : keeps (part f) (profiler_turn opts fuel).
Proof using Hf.
  unfold profiler_turn. apply keeps_bind; [by apply keeps_zoom|intros ls].
  apply keeps_bind; [by apply apart_now|intros start]. apply keeps_bind.
  { induction ls as [|l ls IH]; cbn [for_each]; [done|]. apply keeps_bind; [|by intros _].
    unfold sample_thread. apply keeps_bind; [by apply keeps_zoom|]. intros th.
    destruct (_ >? 0); [|done]. apply keeps_bind.
    - apply keeps_bind; [apply keeps_reads|]. intros []; [|done]. split; [|done].
      intros s b s'. destruct (unwind_thread _ _); by intros [= _ <-].
    - intros a. apply keeps_bind; [unfold wait_ready, wait_for_ever; destruct (ready a); [done|by split]|]. intros _. apply keeps_bind; [by apply apart_now|]. intros t. by apply apart_sample. }
  intros _. apply keeps_bind; [by apply apart_process|intros b]. apply keeps_bind; [by apply apart_now|intros t].
  apply keeps_bind; [|done]. unfold sleep_time, tt_minus. keeps_tac.
Qed.

Lemma apart_loop turns fuel : keeps (part f) (profiler_loop opts turns fuel).
Proof using Hf.
  induction turns as [|turns IH]; cbn [profiler_loop]; [done|]. apply keeps_bind; [apply keeps_reads|].
  intros []; [|done]. apply keeps_bind; [apply apart_turn|]. by intros _.
Qed.
End apart.
