(* ===== verification/HandlersTogether.v ===== *)
(** * Every thread of the agent together

    The calls a thread makes, what it knows while it makes them, and the
    theorem on any number of threads that run handlers, with the thread that
    takes and processes samples and the thread that cleans the storage. *)

From S2P Require Import Prelude ConcurrentList ConcurrentMap TraceTime TraceModel TraceStorage.
From S2P Require Import StorageSafety StorageSpec StorageCycle Interleaving StorageThreads.
From S2P Require Import StorageMethods StorageParallel Perfetto SuspensionPlot Jvm Unwind Profiler.
From S2P Require Import ProfilerSafety ProfilerHandlers ProfilerTheorems ProfilerThreads.
From S2P Require Import ProfilerContent Marking HandlersThreads HandlersParallel UnwindSpec SampledTraces.
From S2P Require Import ProfilerTurn TurnThreads.
From Stdlib Require Import ZArith Lia.
From stdpp Require Import base gmap list strings numbers pretty.
Local Open Scope Z_scope.
Local Open Scope kt_scope.

(** A handler that the application or the JVM calls on a thread, the registering
    of a new thread, the loop of the profiler thread, the second half of a
    cleaner's turn. *)
Inductive call :=
  | Handle (self : Z) (h : handler)
  | Start (self : Z) (bounds : Z * Z) (info : option string)
  | RunProfiler (turns : nat)
  | Clean.

(** What a thread knows: coroutines that have an info object, the traces it has
    started and not ended, the ones that are not running, that a collection was
    recorded, that there are as many as were marked, and threads that are
    registered. *)
Record knowledge := MkKnowledge {
  kn_infos : gset Z;
  kn_open : gset Z;
  kn_closed : gset Z;
  kn_gc : bool;
  kn_room : bool;
  kn_threads : gset Z;
}.

Section threads.
Context `{CK : !SteadyClock} `{E : !Environment} `{UL : !UsageLaws}.
Context `{CC : !CodeCacheAPI} `{LU : !Libunwind} `{SG : !Signals} (opts : settings) (M : gset Z).
Implicit Types (s : Profiler) (w : list token) (k : knowledge).

#[local] Hint Extern 0 (Interference TraceStorage _) =>
  exact (storage_interference M) : typeclass_instances.
#[local] Hint Extern 0 (Interference Profiler _) =>
  exact (profiler_interference M) : typeclass_instances.

Definition perform (fuel : nat) (c : call) : prog Profiler bool :=
  match c with
  | Handle self h => handle opts fuel self h
  | Start self bounds info => done_ (zoom jvm_L (addCurrentThread self bounds info))
  | RunProfiler turns => profiler_loop opts turns fuel
  | Clean => done_ (zoom storage_L clean)
  end.

Definition thread_program (fuel : nat) (cs : list call) : prog Profiler unit :=
  for_each cs (fun c => perform fuel c;; mret tt).

(** What the caller has to establish, for a thread of role [r]. *)
Definition call_pre (r : role) k (c : call) : Prop :=
  match c with
  | Handle self (HTraceStart id) =>
      self ∈ kn_threads k /\ hash_pthread self ∉ M /\ trace_key self id ∈ traces r /\
      trace_key self id ∈ kn_closed k
  | Handle self (HTraceEnd id) =>
      self ∈ kn_threads k /\ hash_pthread self ∉ M /\ trace_key self id ∈ traces r /\ trace_key self id ∉ M /\
      trace_key self id ∈ kn_open k
  | Handle _ (HSuspended frames id) => id ∉ M /\ frames_answered frames
  | Handle _ (HCreated id) | Handle _ (HResumed id) | Handle _ (HCompleted id) => id ∉ M
  | Handle _ HGcStart => True
  | Handle _ HGcFinish => removes r = true /\ kn_gc k = true
  | Handle _ HProcess => consumes r = true
  | Start _ _ _ => True
  | RunProfiler _ => consumes r = true /\ sampler_ok opts
  | Clean => removes r = true /\ kn_room k = true
  end.

Definition learns (c : call) k : knowledge :=
  match c with
  | Handle self (HTraceStart id) =>
      let key := trace_key self id in
      MkKnowledge (if bool_decide (id = -2 /\ key ∉ M) then {[key]} ∪ kn_infos k else kn_infos k)
        ({[key]} ∪ kn_open k) (kn_closed k ∖ {[key]}) (kn_gc k) (kn_room k) (kn_threads k)
  | Handle self (HTraceEnd id) =>
      let key := trace_key self id in
      MkKnowledge (kn_infos k) (kn_open k ∖ {[key]})
        (if bool_decide (key ∈ kn_infos k) then {[key]} ∪ kn_closed k else kn_closed k ∖ {[key]})
        (kn_gc k) (kn_room k) (kn_threads k)
  | Handle _ (HCreated id) =>
      MkKnowledge ({[id]} ∪ kn_infos k) (kn_open k) (kn_closed k) (kn_gc k) (kn_room k) (kn_threads k)
  | Handle _ HGcStart => MkKnowledge (kn_infos k) (kn_open k) (kn_closed k) true (kn_room k) (kn_threads k)
  | Start self _ (Some _) =>
      MkKnowledge (kn_infos k) (kn_open k) (kn_closed k) (kn_gc k) (kn_room k) ({[self]} ∪ kn_threads k)
  | Clean => MkKnowledge (kn_infos k) (kn_open k) (kn_closed k) false false (kn_threads k)
  | _ => k
  end.

Fixpoint calls_pre r k (cs : list call) : Prop :=
  match cs with
  | [] => True
  | c :: cs => call_pre r k c /\ calls_pre r (learns c k) cs
  end.

Definition learned (cs : list call) k : knowledge := foldl (fun k c => learns c k) k cs.

(** What the profiler shows of a call: the info of a coroutine that was created,
    the suspension of a coroutine whose info was known, the thread that was
    registered; and that what was marked has been erased. *)
Definition shown k (c : call) s : Prop :=
  match c with
  | Handle _ (HCreated id) => info_known id s
  | Handle _ (HSuspended frames id) => id ∈ kn_infos k -> suspension_of frames id s
  | Start self _ info => info <> None -> is_Some (registered (jvm_ s) self)
  | Clean => unmarked (storage_ s)
  | _ => True
  end.

Fixpoint all_shown k (cs : list call) s : Prop :=
  match cs with
  | [] => True
  | c :: cs => shown k c s /\ all_shown (learns c k) cs s
  end.

(** The knowledge is true. *)
Record aware (r : role) k s : Prop := {
  aw_infos : forall id, id ∈ kn_infos k -> id ∉ M /\ info_known id s;
  aw_threads : forall i, i ∈ kn_threads k -> is_Some (registered (jvm_ s) i);
  aw_gc : collections (tokens r) (kn_gc k) (kn_room k) s;
  aw_traces : exists m, traces_known (tokens r) m (storage_ s) /\
    (forall id, id ∈ kn_open k -> exists i, m !! id = Some i /\ ti_coroutine_id i = id) /\
    (forall id, id ∈ kn_closed k -> m !! id = None);
}.

(** The part of it that every thread keeps, and the parts that are this
    thread's own. *)
Definition shared_knowledge k s : Prop :=
  (forall id, id ∈ kn_infos k -> id ∉ M /\ info_known id s) /\
  forall i, i ∈ kn_threads k -> is_Some (registered (jvm_ s) i).

Lemma stable_shared k : stable (shared_knowledge k).
Proof.
  intros s s' Hr (H2 & H3). split.
  - intros id Hid. destruct (H2 id Hid) as [Hm Hi]. split; [done|]. by eapply stable_info_known.
  - intros i Hi. apply Hr, H3, Hi.
Qed.

Lemma aware_rely r k s s' : rely (tokens r) s s' -> aware r k s -> aware r k s'.
Proof.
  intros Hr [H2 Ht H3 (m & Hm & Ho & Hc)].
  destruct (stable_rely _ _ _ _ (stable_shared k) Hr (conj H2 Ht)) as (H2' & Ht').
  split; [done|done| |].
  - intros Hw. eapply (gc_known_rely M); [exact Hw|apply Hr|auto].
  - exists m. split; [|done]. eapply traces_known_rely; [apply Hr|done].
Qed.

Lemma stable_shown r k c : call_pre r k c -> stable (shown k c).
Proof.
  intros H. destruct c as [self []|self bounds info| |]; simpl in *; try apply stable_True.
  - by apply stable_info_known.
  - intros s1 s2 Hr H1 Hk. eapply stable_suspension_of; [apply H|exact Hr|auto].
  - intros s1 s2 Hr H1 Hi. by apply Hr, H1.
  - apply (stable_storage M), stable_unmarked.
Qed.

(** ** Every call *)

Lemma rgs_done (p : prog Profiler unit) w s (Q : Profiler -> Prop) :
  (forall s1 s2, rely w s1 s2 -> Q s1 -> Q s2) -> rgs p w s (post w (fun _ => Q)) ->
  rgs (done_ p) w s (post w (fun _ => Q)).
Proof.
  intros HQ H. apply rgs_bind. eapply rgs_mono; [|exact H]. intros [] w' s1 [-> H1].
  apply rgs_ret. intros s2 Hr _. split; [done|]. by eapply HQ.
Qed.

(** What a call that does not concern the collections, or the traces, leaves. *)
Lemma rgs_apart_gc {A} (p : prog Profiler A) r k s (F : A -> Profiler -> Prop) :
  keeps (part gc_events_) p -> aware r k s -> rgs p (tokens r) s (post (tokens r) F) ->
  rgs p (tokens r) s (post (tokens r) (fun a s' =>
    F a s' /\ shared_knowledge k s' /\ collections (tokens r) (kn_gc k) (kn_room k) s')).
Proof.
  intros Hp [H2 Ht H3 _] H.
  eapply rgs_mono; [|eapply (rgs_frame _ _ _ _ _ (stable_shared k)); [by split|];
    by eapply (rgs_keeps_collections M)].
  intros a w' s' [[-> [HF Hc]] Hs]. by split.
Qed.

Lemma rgs_apart_traces {A} (p : prog Profiler A) r k s m (F : A -> Profiler -> Prop) :
  keeps (part ongoing_trace_info_map_) p -> aware r k s -> traces_known (tokens r) m (storage_ s) ->
  rgs p (tokens r) s (post (tokens r) F) ->
  rgs p (tokens r) s (post (tokens r) (fun a s' =>
    F a s' /\ shared_knowledge k s' /\ traces_known (tokens r) m (storage_ s'))).
Proof.
  intros Hp [H2 Ht _ _] Hm H.
  eapply rgs_mono; [|eapply (rgs_frame _ _ _ _ _ (stable_shared k)); [by split|];
    by eapply (rgs_keeps_traces M)].
  intros a w' s' [[-> [HF Hc]] Hs]. by split.
Qed.

Lemma rgs_apart_both {A} (p : prog Profiler A) r k s (F : A -> Profiler -> Prop) :
  (forall B (f : TraceStorage -> B), apart f -> keeps (part f) p) -> aware r k s ->
  rgs p (tokens r) s (post (tokens r) F) ->
  rgs p (tokens r) s (post (tokens r) (fun a s' => F a s' /\ aware r k s')).
Proof.
  intros Hp Hk H. pose proof (aw_traces _ _ _ Hk) as (m & Hm & Ho & Hc).
  eapply rgs_mono; [|eapply (rgs_apart_gc _ r k); [apply Hp, apart_gc|done|];
    eapply (rgs_apart_traces _ r k); [apply Hp, apart_ongoing|done|exact Hm|exact H]].
  intros a w' s' [-> [(HF & _ & Hm') [(Hi & Ht) Hg]]]. split; [done|]. split; [done|]. split; [done..|]. by exists m.
Qed.

(** Coroutines and samples. *)
Definition quiet_call (c : call) : bool :=
  match c with
  | Handle _ (HCreated _ | HSuspended _ _ | HResumed _ | HCompleted _ | HProcess) | Start _ _ _ | RunProfiler _ => true
  | _ => false
  end.

Lemma perform_apart fuel c {B} (f : TraceStorage -> B) :
  quiet_call c = true -> apart f -> keeps (part f) (perform fuel c).
Proof.
  intros Hc Hf. destruct c as [self []|self bounds info| |]; try discriminate Hc; cbn [perform handle].
  - apply keeps_bind; [by apply apart_created|done].
  - apply keeps_bind; [by apply apart_suspended|done].
  - apply keeps_bind; [by apply apart_resumed|done].
  - apply keeps_bind; [by apply apart_completed|done].
  - by apply apart_process.
  - apply keeps_bind; [by apply keeps_zoom|done].
  - by apply apart_loop.
Qed.

Lemma rgs_quiet_call r k c fuel s :
  NOT_FOUND ∉ M -> quiet_call c = true -> call_pre r k c -> aware r k s ->
  rgs (perform fuel c) (tokens r) s (post (tokens r) (fun _ => shown k c)).
Proof.
  intros HM Hq Hc Hk. pose proof (plain_tokens r) as Hpl. pose proof (consumer_token r).
  pose proof (stable_shown _ _ _ Hc) as Hst. set (w := tokens r) in *.
  assert (HQ : forall s1 s2, rely w s1 s2 -> shown k c s1 -> shown k c s2)
    by (intros s1 s2; by apply stable_rely).
  destruct c as [self []|self bounds info| |]; try discriminate Hq; cbn [perform handle]; simpl call_pre in Hc; simpl shown in *.
  - apply rgs_done; [done|]. by apply rgs_coroutineCreated.
  - destruct Hc as [Hid Hf]. apply rgs_done; [done|].
    eapply rgs_mono; [|by apply rgs_coroutineSuspended]. intros a w' s' [-> H1]. split; [done|].
    intros Hin. apply H1. by apply (aw_infos _ _ _ Hk).
  - apply rgs_done; [done|]. by apply rgs_coroutineResumed.
  - apply rgs_done; [done|]. by apply rgs_coroutineCompleted.
  - apply rgs_processTraces; auto.
  - apply rgs_done; [done|]. by apply rgs_addCurrentThread.
  - destruct Hc as [Hc Hs]. apply rgs_profiler_loop; auto.
Qed.

(** The start and the end of a trace. *)
Lemma traceStart_gc self id : keeps (part gc_events_) (traceStart self id).
Proof.
  unfold traceStart. apply keeps_bind.
  { destruct (id =? -2); [|done]. apply keeps_bind; [|done].
    apply (keeps_zoom_in gc_events_ storage_L), apart_createInfo, apart_gc. }
  intros key. apply keeps_bind; [apply apart_count|]. intros _.
  apply keeps_bind; [apply apart_now, apart_gc|]. intros v. apply keeps_bind.
  { apply (keeps_zoom_in gc_events_ storage_L). unfold createChildCoroutineStorage. keeps_tac. }
  intros _. apply keeps_bind; [apply (keeps_zoom_in gc_events_ storage_L); by apply keeps_zoom|].
  intros [|]; [done|apply keeps_throw].
Qed.

Lemma traceEnd_gc fuel self id : keeps (part gc_events_) (traceEnd opts fuel self id).
Proof.
  assert (Hz : forall A (p : prog (cmap Z TraceInfo) A), keeps (part gc_events_) (zoom storage_L (zoom ongoing_L p))).
  { intros A p. apply (keeps_zoom_in gc_events_ storage_L). by apply keeps_zoom. }
  unfold traceEnd. apply keeps_bind.
  - unfold finishTrace. apply keeps_bind; [apply apart_count|]. intros _.
    apply keeps_bind; [apply (keeps_zoom_in gc_events_ storage_L), apart_getInfo, apart_gc|]. intros p.
    destruct (bool_decide _); [done|]. apply keeps_bind; [apply apart_usage, apart_gc|]. intros _.
    apply keeps_bind; [apply apart_now, apart_gc|]. intros v. apply keeps_bind; [apply Hz|]. intros i.
    apply keeps_bind; [unfold removeOngoingTrace, removeOngoingTraceInfo;
      apply (keeps_zoom_in gc_events_ storage_L); keeps_tac|]. intros _.
    apply keeps_bind; [unfold tt_minus; keeps_tac|]. intros d. destruct (_ >? _); [|done].
    apply keeps_bind; [|done]. split; [by intros ? ? ? [= _ <-]|done].
  - intros [[path ti]|]; [|done]. apply keeps_bind; [apply keeps_reads|]. intros deref.
    apply keeps_bind; [apply (keeps_zoom_in gc_events_ storage_L), apart_plot, apart_gc|]. intros [file|]; [|done].
    apply keeps_bind; [|done]. split; [by intros ? ? ? [= _ <-]|done].
Qed.

Lemma rgs_start_call r k self id s :
  call_pre r k (Handle self (HTraceStart id)) -> aware r k s ->
  rgs (traceStart self id) (tokens r) s
    (post (tokens r) (fun _ => aware r (learns (Handle self (HTraceStart id)) k))).
Proof.
  intros (Hreg & Hself & Htr & Hcl) Hk. pose proof (aw_traces _ _ _ Hk) as (m & Hm & Ho & Hc).
  eapply rgs_mono; [|eapply (rgs_apart_gc _ r k);
    [apply traceStart_gc|done|apply (rgs_traceStart M _ _ _ _ m); try done]].
  - intros [] w' s' [-> ([Hi (v & Hm')] & (Hin & Ht) & Hg)]. split; [done|]. cbn [learns].
    set (key := trace_key self id) in *. split; [|done|done|].
    + cbn [kn_infos]. intros i. case_bool_decide as Hb; [|apply Hin].
      intros [->%elem_of_singleton|Hi']%elem_of_union; [|by apply Hin]. destruct Hb. auto.
    + exists (<[key := MkTraceInfo key v 0]> m). split; [done|]. cbn [kn_open kn_closed]. split; intros i Hi'.
      * destruct (decide (i = key)) as [->|Hne]; [rewrite lookup_insert_eq; by eexists|].
        rewrite lookup_insert_ne by done. apply Ho. set_solver.
      * rewrite lookup_insert_ne by set_solver. apply Hc. set_solver.
  - apply plain_tokens.
  - by apply (aw_threads _ _ _ Hk).
  - by apply tracing_token.
  - by apply Hc.
Qed.

Lemma rgs_end_call r k fuel self id s :
  call_pre r k (Handle self (HTraceEnd id)) -> aware r k s ->
  rgs (traceEnd opts fuel self id) (tokens r) s
    (post (tokens r) (fun _ => aware r (learns (Handle self (HTraceEnd id)) k))).
Proof.
  intros (Hreg & Hself & Htr & Hkm & Hop) Hk. pose proof (aw_traces _ _ _ Hk) as (m & Hm & Ho & Hc).
  destruct (Ho _ Hop) as (i & Hi & Hti).
  eapply rgs_mono; [|eapply (rgs_apart_gc _ r k);
    [apply traceEnd_gc|done|apply (rgs_traceEnd opts M _ _ _ _ m i); try done]].
  - intros b w' s' [-> ((m' & H1 & H2 & Hm') & (Hin & Ht) & Hg)]. split; [done|]. cbn [learns].
    set (key := trace_key self id) in *. split; [done..|]. exists m'. split; [done|]. cbn [kn_open kn_closed].
    assert (Hne : forall j, j <> key -> m' !! j = m !! j).
    { intros j Hj. destruct H1 as [->| ->]; [done|]. by rewrite lookup_delete_ne. }
    split.
    + intros j Hj. rewrite Hne by set_solver. apply Ho. set_solver.
    + intros j. case_bool_decide as Hb; [|intros Hj; rewrite Hne by set_solver; apply Hc; set_solver].
      rewrite H2 by (by apply (aw_infos _ _ _ Hk)).
      destruct (decide (j = key)) as [->|Hj]; [by rewrite lookup_delete_eq|].
      rewrite lookup_delete_ne by done. intros Hj'. apply Hc. set_solver.
  - by apply (aw_threads _ _ _ Hk).
  - by apply tracing_token.
Qed.

(** Collections and cleaning. *)
Definition gc_handler (c : call) : bool :=
  match c with Handle _ (HGcStart | HGcFinish) | Clean => true | _ => false end.

Lemma gc_handler_traces fuel c :
  gc_handler c = true -> keeps (part ongoing_trace_info_map_) (perform fuel c).
Proof.
  intros Hc. destruct c as [self []|self bounds info| |]; try discriminate Hc; cbn [perform handle]; (apply keeps_bind; [|done]);
    unfold prof_gcStart, prof_gcFinish; apply (keeps_zoom_in ongoing_trace_info_map_ storage_L); unfold gcStart, gcFinish, clean, now; keeps_tac.
Qed.

Lemma rgs_gc_handler r k c fuel s :
  gc_handler c = true -> call_pre r k c -> aware r k s ->
  rgs (perform fuel c) (tokens r) s
    (post (tokens r) (fun _ s' => shown k c s' /\ collections (tokens r) (kn_gc (learns c k)) (kn_room (learns c k)) s')).
Proof.
  intros Hg Hc Hk. pose proof (aw_gc _ _ _ Hk) as Hgc. pose proof (remover_token r).
  pose proof (stable_shown _ _ _ Hc) as Hst.
  assert (HQ : forall a b s1 s2, rely (tokens r) s1 s2 -> collections (tokens r) a b s1 -> collections (tokens r) a b s2).
  { intros a b s1 s2 [Hr _] H1 Hw. eapply (gc_known_rely M); [exact Hw|exact Hr|auto]. }
  destruct c as [self []|self bounds info| |]; try discriminate Hg; cbn [perform handle]; simpl call_pre in Hc; simpl learns;
    (apply rgs_done; [intros s1 s2 Hr [H1 H2]; split; [by eapply (stable_rely (tokens r)); [apply Hst|..]|by eapply HQ]|]).
  - eapply rgs_mono; [|by eapply rgs_prof_gcStart]. by intros x w' s' [-> Hx].
  - destruct Hc as [Hc1 Hc2]. rewrite Hc2 in *. eapply rgs_mono; [|eapply rgs_prof_gcFinish; [auto|exact Hgc]].
    by intros x w' s' [-> Hx].
  - destruct Hc as [Hc1 Hc2]. rewrite Hc2 in *. eapply rgs_prof_clean; [auto|exact Hgc].
Qed.

(** What a thread learns from a call that concerns neither the collections nor
    the traces. *)
Lemma aware_quiet r k c s :
  quiet_call c = true -> call_pre r k c -> shown k c s -> aware r k s -> aware r (learns c k) s.
Proof.
  intros Hq Hc Hs Hk. pose proof Hk as [H2 Ht H3 H4].
  destruct c as [self []|self bounds [name|]| |]; try discriminate Hq; try exact Hk; split; try done;
    cbn [learns kn_infos kn_threads] in *; intros i [->%elem_of_singleton|Hi]%elem_of_union.
  - by split.
  - by apply H2.
  - by apply Hs.
  - by apply Ht.
Qed.

Lemma rgs_perform r k c fuel s :
  NOT_FOUND ∉ M -> call_pre r k c -> aware r k s ->
  rgs (perform fuel c) (tokens r) s
    (post (tokens r) (fun _ s' => shown k c s' /\ aware r (learns c k) s')).
Proof.
  intros HM Hc Hk. destruct (quiet_call c) eqn:Hq; [|destruct (gc_handler c) eqn:Hg].
  - eapply rgs_mono; [|eapply (rgs_apart_both _ r k); [intros; by apply perform_apart|done|by eapply rgs_quiet_call]].
    intros b w' s' [-> [Hs Hk']]. split; [done|]. split; [done|].
    eapply aware_quiet; [exact Hq|exact Hc|exact Hs|exact Hk'].
  - pose proof (aw_traces _ _ _ Hk) as (m & Hm & Ho).
    eapply rgs_mono; [|eapply (rgs_apart_traces _ r k); [by apply gc_handler_traces|done|exact Hm|by eapply rgs_gc_handler]].
    intros b w' s' [-> ([Hsh Hgc] & (H2 & Ht) & Hm')]. split; [done|]. split; [exact Hsh|].
    destruct c as [self []|self bounds info| |]; try discriminate Hg; split; try done; by exists m.
  - destruct c as [self []|self bounds info| |]; try discriminate Hq; try discriminate Hg; cbn [perform handle].
    + apply rgs_done; [intros s1 s2 Hr [_ H]; split; [done|by eapply aware_rely]|].
      eapply rgs_mono; [|by apply rgs_start_call]. by intros a w' s' [-> H].
    + eapply rgs_mono; [|by apply rgs_end_call]. by intros a w' s' [-> H].
Qed.

(** ** Threads *)

Lemma rgs_thread_program r fuel cs k s :
  NOT_FOUND ∉ M -> calls_pre r k cs -> aware r k s ->
  rgs (thread_program fuel cs) (tokens r) s (post (tokens r) (fun _ s' =>
    all_shown k cs s' /\ aware r (learned cs k) s')).
Proof.
  intros HM. revert k s. induction cs as [|c cs IH]; intros k s Hcs Hk; unfold thread_program; cbn [for_each].
  - apply rgs_ret. intros s1 Hr _. split; [done|]. split; [done|]. by eapply aware_rely.
  - destruct Hcs as [Hc Hcs]. pose proof (stable_shown _ _ _ Hc) as Hst.
    apply rgs_assoc, rgs_bind. eapply rgs_mono; [|by eapply rgs_perform]. intros b w s1 [-> [Hs Hk1]].
    change (mret tt ≫= ?f) with (f tt). cbv beta.
    eapply rgs_mono; [|eapply (rgs_frame _ _ _ _ _ Hst Hs); by eapply IH].
    intros [] w s2 [[-> [H1 H2]] H3]. by split.
Qed.

(** What a thread of role [r] knows when it starts. *)
Definition knows_at_first (r : role) s : knowledge :=
  let on := CM.map_ (ongoing_trace_info_map_ (storage_ s)) in
  let gc := gc_events_ (storage_ s) in
  MkKnowledge (dom (CM.map_ (coroutine_info_map_ (storage_ s))) ∖ M)
    (filter (fun id => (match on !! id with Some i => ti_coroutine_id i =? id | None => false end) = true) (traces r))
    (filter (fun id => on !! id = None) (traces r))
    (negb (CL.is_empty (CL.list_ gc)))
    (bool_decide (Z.to_nat (CL.clean_until_ gc) <= length (CL.list_ gc))%nat)
    (list_to_set (th_id <$> omap (fun l => cells (thread_heap (jvm_ s)) !! l) (CL.list_ (threads_ (jvm_ s))))).

Lemma aware_at_first r s : aware r (knows_at_first r s) s.
Proof.
  split.
  - intros id [H1%elem_of_dom H2]%elem_of_difference. by split.
  - intros i Hi%elem_of_list_to_set. by apply registered_elem.
  - intros _. split; simpl.
    + intros H. by destruct (CL.list_ (gc_events_ (storage_ s))).
    + intros H. by apply bool_decide_eq_true in H.
  - exists (ongoing (storage_ s)). split; [done|]. simpl. split; intros id [H1 H2]%elem_of_filter; [|done].
    unfold ongoing. destruct (_ !! id) as [i|]; [|done]. exists i. split; [done|lia].
Qed.

Definition start_threads (fuel : nat) s (ts : list (role * list call)) : config Profiler unit :=
  (s, (fun t => thread_program fuel t.2) <$> ts).

(** What is true when a thread has made its calls. *)
Definition calls_made s0 (t : role * list call) s : Prop :=
  all_shown (knows_at_first t.1 s0) t.2 s /\ aware t.1 (learned t.2 (knows_at_first t.1 s0)) s.

Lemma start_threads_ok fuel s ts :
  NOT_FOUND ∉ M -> inv M s -> at_most_one consumes ts.*1 -> at_most_one removes ts.*1 ->
  separate_traces ts.*1 -> Forall (fun t => calls_pre t.1 (knows_at_first t.1 s) t.2) ts ->
  pool_ok (start_threads fuel s ts) ((fun t _ _ => calls_made s t) <$> ts) ((fun t => tokens t.1) <$> ts).
Proof.
  intros HM Hs Hc Hr Htr Hts. unfold pool_ok, start_threads; simpl. rewrite !length_fmap. split_and!; [done|done| |].
  - intros i p w Q Hp Hw HQ. rewrite list_lookup_fmap in Hp; rewrite list_lookup_fmap in Hw;
      rewrite list_lookup_fmap in HQ.
    destruct (ts !! i) as [[r cs]|] eqn:Hi; simplify_eq/=.
    pose proof (Forall_lookup_1 _ _ _ _ Hts Hi) as Hok. simpl in Hok. split.
    + split; [done|]. intros t Ht. apply plain_tokens in Ht. by destruct t.
    + eapply rgs_mono; [|eapply rgs_thread_program; [done|exact Hok|apply aware_at_first]]. by intros [] w s1 [_ H].
  - intros i j w u Hij Hw Hu. by apply (roles_apart M ts i j).
Qed.

(** A trace that a thread has ended is not ongoing. *)
Lemma aware_closed r k s id :
  aware r k s -> id ∈ traces r -> id ∈ kn_closed k -> ongoing (storage_ s) !! id = None.
Proof.
  intros [_ _ _ (m & Hm & _ & Hc)] Hr Hk. rewrite (Hm id); [by apply Hc|by apply tracing_token].
Qed.

(** A state that the calls of the threads lead to. *)
Record together fuel s ts (c : config Profiler unit) : Prop := {
  tog_none : NOT_FOUND ∉ M;
  tog_start : inv M s;
  tog_consumer : at_most_one consumes ts.*1;
  tog_remover : at_most_one removes ts.*1;
  tog_traces : separate_traces ts.*1;
  tog_calls : Forall (fun t => calls_pre t.1 (knows_at_first t.1 s) t.2) ts;
  tog_steps : rtc tstep (start_threads fuel s ts) c;
}.

Lemma together_inv fuel s ts c : together fuel s ts c -> inv M c.1.
Proof using UL.
  intros [HM Hs Hc Hr Htr Hts Hsteps].
  destruct (threads_safe _ _ _ _ (start_threads_ok fuel s ts HM Hs Hc Hr Htr Hts) Hsteps) as (_ & _ & _ & _ & _ & Hh).
  destruct ts as [|t ts]; [by rewrite (no_threads _ _ Hsteps)|].
  destruct Hh as [w [Hi _]]; [|exact Hi]. intros Hnil.
  apply tsteps_length in Hsteps. by rewrite Hnil in Hsteps.
Qed.

Lemma together_safe fuel s ts c :
  together fuel s ts c ->
  ~ undefined_in c /\ ~ races_in c /\ (forall e, ~ throws_in c e) /\ inevitably tstep Interleaving.finished c.
Proof using UL.
  intros [HM Hs Hc Hr Htr Hts Hsteps].
  destruct (threads_safe _ _ _ _ (start_threads_ok fuel s ts HM Hs Hc Hr Htr Hts) Hsteps) as (Hu & Hx & He & _).
  split_and!; [done..|by eapply threads_finish, Hsteps; apply start_threads_ok].
Qed.

(** What a thread that has returned knows. *)
Lemma together_aware fuel s ts c t :
  together fuel s ts c -> Interleaving.finished c -> t ∈ ts ->
  all_shown (knows_at_first t.1 s) t.2 c.1 /\
  forall id, id ∈ traces t.1 -> id ∈ kn_closed (learned t.2 (knows_at_first t.1 s)) ->
    a_ongoing (abs (storage_ c.1)) !! id = None.
Proof using UL.
  intros [HM Hs Hc Hr Htr Hts Hsteps] Hf [i Hi]%list_elem_of_lookup.
  destruct (threads_safe _ _ _ _ (start_threads_ok fuel s ts HM Hs Hc Hr Htr Hts) Hsteps) as (_ & _ & _ & _ & HQ & _).
  destruct (lookup_lt_is_Some_2 c.2 i) as [p Hpi].
  { rewrite (tsteps_length _ _ Hsteps). simpl. rewrite length_fmap. by eapply lookup_lt_Some. }
  destruct (Forall_lookup_1 _ _ _ _ Hf Hpi) as [a ->].
  edestruct (HQ i a) as (w & _ & H); [done|by rewrite list_lookup_fmap, Hi|]. destruct H as [H1 H2].
  split; [exact H1|]. intros id Hid Hcl. by eapply aware_closed.
Qed.

(** C2: the handlers in parallel.  From a well-formed profiler, let any number of
    threads register themselves and run handlers, one of them be the profiler
    thread, one of them clean the storage, and let every call concern a
    coroutine that is not being cleaned, and traces that only its thread starts
    and ends, a registered one whose own key is not being cleaned.  Then in every
    interleaving no handler, and no turn of the profiler thread, throws or is
    undefined, nor inserts a key through [operator[]] under a lock that others
    share (a data race), the profiler stays well-formed, and, however the
    execution goes on, all threads return; and then every coroutine created has
    its info, every suspension of a known coroutine is recorded with the methods
    on its stack, and no trace that its thread has ended is ongoing.  It holds
    however many turns the loops of the profiler thread, the plot and the
    processing are given. *)
Theorem handler_threads_safe fuel s ts c :
  NOT_FOUND ∉ M -> inv M s -> at_most_one consumes ts.*1 -> at_most_one removes ts.*1 ->
  separate_traces ts.*1 -> Forall (fun t => calls_pre t.1 (knows_at_first t.1 s) t.2) ts ->
  rtc tstep (start_threads fuel s ts) c ->
  prof_wf c.1 /\ ~ undefined_in c /\ ~ races_in c /\ (forall e, ~ throws_in c e) /\
  inevitably tstep Interleaving.finished c /\
  (Interleaving.finished c -> Forall (fun t =>
     let k := knows_at_first t.1 s in
     all_shown k t.2 c.1 /\
     forall id, id ∈ traces t.1 -> id ∈ kn_closed (learned t.2 k) ->
       a_ongoing (abs (storage_ c.1)) !! id = None) ts).
Proof.
  intros HM Hs Hc Hr Htr Hts Hsteps.
  assert (H : together fuel s ts c) by by split.
  destruct (together_safe _ _ _ _ H) as (H1 & H2 & H3 & H4). split_and!; [apply (together_inv _ _ _ _ H)|done..|].
  intros Hf. apply list.Forall_forall. intros t Ht. by apply (together_aware _ _ _ _ t H).
Qed.
End threads.

(** ** An execution *)

Section demo.
Local Existing Instance demo_cache.
Local Existing Instance demo_unwind.
Local Existing Instance tick_clock.

(** Coroutine 1 was created and marked; it is cleaned while the main thread
    traces, and creates and suspends coroutine 2, while the profiler thread
    samples, and while a thread starts and begins a trace. *)
Definition marked_profiler : Profiler :=
  lset prof_active_L true (after (zoom storage_L mark_for_clean) demo_created).

Definition demo_calls : list (role * list call) :=
  [(MkRole false false {[1007]},
    [Handle 7 (HTraceStart (-2)); Handle 7 (HCreated 2); Handle 7 (HSuspended (Some [5]) 2);
     Handle 7 (HTraceEnd (-2))]);
   (MkRole true false ∅, [RunProfiler 2]);
   (MkRole false true ∅, [Clean]);
   (MkRole false false {[3]}, [Start 9 (4096, 8192) (Some "worker"); Handle 9 (HTraceStart 3)])].

Definition calls_schedule : list nat :=
  concat (replicate 4 [0; 1; 2]%nat) ++ concat (replicate 8 [0; 1; 3]%nat) ++ concat (replicate 29 [0; 1]%nat) ++
  replicate 35 0%nat.

Definition calls_start : config Profiler unit := start_threads demo_opts 5 marked_profiler demo_calls.
Definition calls_end : config Profiler unit := executed calls_schedule calls_start.

Lemma marked_profiler_inv : inv {[1]} marked_profiler.
Proof.
  apply inv_active.
  assert (H : wp (zoom storage_L mark_for_clean) demo_created (fun _ s' => inv {[1]} s' /\
    storage_ s' = mark_all (storage_ demo_created) /\ s' = lset storage_L (storage_ s') demo_created)).
  { apply mark_inv; [apply demo_created_wf|constructor| | |].
    - intros self. assert (Hl : locals_ demo_created = ∅) by (vm_compute; reflexivity).
      unfold get_coroutine_of, get_locals. rewrite Hl, lookup_empty. by apply not_elem_of_singleton.
    - intros l th Hth _. assert (Hj : jvm_ demo_created = demo_jvm) by (vm_compute; reflexivity).
      rewrite Hj in Hth. unfold demo_jvm in Hth. cbn [thread_heap cells] in Hth. apply lookup_singleton_Some in Hth as [_ <-]. by apply not_elem_of_singleton.
    - apply (bool_decide_eq_true_1 _). vm_compute. reflexivity. }
  unfold wp, after in *. destruct (run _ _); [apply H|done|done].
Qed.

(** Whatever the bounds of its stack, a thread is unwound. *)
Lemma demo_sampler_ok : sampler_ok demo_opts.
Proof.
  split; [|intros ip fp id _ _; apply demo_answered|simpl; lia].
  intros [name id n lo hi] k. apply demo_signals_return.
Qed.

Lemma handler_threads_safe_witness :
  prof_wf calls_end.1 /\ info_known 2 calls_end.1 /\ suspension_of (Some [5]) 2 calls_end.1 /\
  a_ongoing (abs (storage_ calls_end.1)) !! 1007 = None.
Proof.
  destruct (handler_threads_safe demo_opts {[1]} 5 marked_profiler demo_calls calls_end)
    as (Hwf & _ & _ & _ & _ & Hr).
  - set_solver.
  - exact marked_profiler_inv.
  - unfold at_most_one; simpl; lia.
  - unfold at_most_one; simpl; lia.
  - simpl. repeat constructor; set_solver.
  - repeat constructor; try (apply (bool_decide_eq_true_1 _); vm_compute; reflexivity).
    + intros ms [= <-]. constructor; [apply demo_answered|constructor].
    + apply demo_sampler_ok.
    + by exists 1, "LC;".
  - apply executed_reached. vm_compute. reflexivity.
  - assert (Hf : Interleaving.finished calls_end) by (apply all_returned_finished; vm_compute; reflexivity).
    apply Hr, list.Forall_cons in Hf as [[(_ & Hc & Hu & _) Ht] _].
    split_and!; [done|exact Hc|apply Hu; vm_compute; reflexivity|].
    apply Ht; vm_compute; reflexivity.
Defined.

(** The profiler thread has sampled the main thread and the worker. *)
Example calls_sampled :
  CM.keys (CM.map_ (processed_map_ (storage_ calls_end.1))) = [7; 9].
Proof. vm_compute. reflexivity. Qed.

(** *** Handlers of coroutines that are being cleaned *)

Definition with_cleaner (s : Profiler) (p : prog Profiler unit) : config Profiler unit :=
  (s, [p; zoom storage_L clean]).

(** What [StorageRaces] shows of the storage, in the handlers: the coroutines of
    the handlers must not be those being cleaned.  [coroutineSuspended] throws
    [std::out_of_range] into the application; [coroutineResumed] inserts the key
    that was erased, and uses the null pointer it finds. *)
Example suspend_while_cleaning :
  exists c, rtc tstep (with_cleaner marked_profiler (coroutineSuspended (Some [5]) 7 1)) c /\
    throws_in c (Out_of_range "unordered_map::at").
Proof. apply (outcome_throws (replicate 23 0 ++ [1; 1; 1])%nat 0). vm_compute. reflexivity. Qed.

Example resume_while_cleaning :
  exists c, rtc tstep (with_cleaner marked_profiler (coroutineResumed 7 1)) c /\ undefined_in c.
Proof.
  apply (outcome_undefined (replicate 8 0 ++ [1; 1; 1; 0])%nat 0 _ "null pointer dereference").
  vm_compute. reflexivity.
Qed.

(** The main thread runs a traced call outside coroutines; it has been sampled
    once, under its own key, and the key has been marked.  That it is sampled
    again while the key is erased makes the profiler thread throw, which ends
    the process. *)
Definition sampled_marked : Profiler :=
  after (zoom storage_L mark_for_clean)
    (after (profiler_turn demo_opts 5) (after (traceStart 7 (-2)) (lset prof_active_L true demo_profiler))).

Example turn_while_cleaning :
  exists c, rtc tstep (with_cleaner sampled_marked (profiler_turn demo_opts 5;; mret tt)) c /\
    throws_in c (Out_of_range "unordered_map::at").
Proof. apply (outcome_throws (replicate 14 0 ++ [1])%nat 0). vm_compute. reflexivity. Qed.
End demo.
