(* ===== verification/CleanerCycles.v ===== *)
(** * The cleaner's cycles while the agent runs

    The cleaner marks what the storage has, and erases it fifteen seconds later,
    again and again (trace/traceStorage.cpp, the thread of the constructor).
    [HandlersTogether] has one such period, for the keys that are marked when it
    begins; here the periods follow each other.  Marking happens between calls
    of the other threads; the erasing is a call among theirs. *)

From S2P Require Import Prelude ConcurrentList ConcurrentMap TraceTime TraceModel TraceStorage.
From S2P Require Import StorageSafety StorageSpec StorageCycle Interleaving StorageThreads.
From S2P Require Import StorageMethods StorageParallel Perfetto SuspensionPlot Jvm Unwind Profiler.
From S2P Require Import ProfilerSafety ProfilerHandlers ProfilerTheorems ProfilerThreads.
From S2P Require Import ProfilerContent Marking HandlersThreads HandlersParallel UnwindSpec SampledTraces.
From S2P Require Import ProfilerTurn TurnThreads HandlersTogether.
From Stdlib Require Import ZArith Lia.
From stdpp Require Import base gmap list strings numbers pretty.
Local Open Scope Z_scope.
Local Open Scope kt_scope.

Section cycles.
Context `{CK : !SteadyClock} `{E : !Environment} `{UL : !UsageLaws}.
Context `{CC : !CodeCacheAPI} `{LU : !Libunwind} `{SG : !Signals} (opts : settings) (fuel : nat).
Implicit Types (s : Profiler) (M : gset Z) (ts : list (role * list call)).

Abbreviation start := (start_threads opts fuel).

(** When the cleaner may mark: [M] has every key of the storage, and no thread
    uses one of them now. *)
Record may_mark M s : Prop := {
  mk_none : NOT_FOUND ∉ M;
  mk_keys : present (storage_ s) ⊆ M;
  mk_running : forall self, get_coroutine_of self s ∉ M;
  mk_threads : own_keys M s;
  mk_raw : Forall (fun r => raw_coroutine_id r ∉ M) (CL.list_ (raw_list_ (storage_ s)));
}.

(** What the threads may do until the next marking. *)
Record may_run M s ts : Prop := {
  run_consumer : at_most_one consumes ts.*1;
  run_remover : at_most_one removes ts.*1;
  run_traces : separate_traces ts.*1;
  run_calls : Forall (fun t => calls_pre opts M t.1 (knows_at_first M t.1 s) t.2) ts;
}.

Definition cleans ts : Prop := exists t, t ∈ ts /\ Clean ∈ t.2.

(** One cycle: the marking, then the threads, one of which cleans, until all
    have returned. *)
Definition cycle s s' : Prop := exists M s1 ts c,
  may_mark M s /\ run (zoom storage_L mark_for_clean) s = Val tt s1 /\ may_run M s1 ts /\ cleans ts /\
  rtc tstep (start s1 ts) c /\ Interleaving.finished c /\ s' = c.1.

Lemma marked_none s : inv ∅ s -> marked (storage_ s) = ∅.
Proof.
  intros [_ [_ H1 H2 H3 _] _ _ _]. unfold marked. apply set_eq. intros k.
  rewrite !elem_of_union, !elem_of_list_to_set. split; [|set_solver]. intros [[H|H]|H]; eauto.
Qed.

Lemma unmarked_marked s : unmarked (storage_ s) -> marked (storage_ s) = ∅.
Proof. intros [[H1 H2] H3]. unfold marked. by rewrite H1, H2, H3. Qed.

(** Marking starts a period. *)
Lemma mark_starts M s s1 :
  inv ∅ s -> may_mark M s -> run (zoom storage_L mark_for_clean) s = Val tt s1 -> inv M s1.
Proof.
  intros Hs [Hn Hk Hr Ht Hraw] Hrun.
  assert (H : wp (zoom storage_L mark_for_clean) s (fun _ s' => inv M s' /\
    storage_ s' = mark_all (storage_ s) /\ s' = lset storage_L (storage_ s') s)).
  { apply mark_inv; [apply Hs| |done|done|rewrite (marked_none _ Hs); set_solver].
    pose proof (in_raw _ _ Hs) as H. rewrite !list.Forall_forall in *. intros r Hin.
    split; [by apply H|by apply Hraw]. }
  unfold wp in H. rewrite Hrun in H. apply H.
Qed.

Lemma all_shown_clean M k cs s : all_shown M k cs s -> Clean ∈ cs -> unmarked (storage_ s).
Proof.
  revert k. induction cs as [|c cs IH]; intros k; [by intros _ H%elem_of_nil|]. cbn [all_shown].
  intros [H1 H2] [<-|Hin]%elem_of_cons; [exact H1|by eapply IH].
Qed.

(** The end of a period: the invariant, and nothing is marked if it was
    cleaned. *)
Lemma period_ends M s1 ts c :
  NOT_FOUND ∉ M -> inv M s1 -> may_run M s1 ts -> rtc tstep (start s1 ts) c -> Interleaving.finished c ->
  cleans ts -> inv ∅ c.1.
Proof using UL.
  intros HM Hs [Hc Hr Htr Hts] Hsteps Hf (t & Ht & Hcl).
  assert (H : together opts M fuel s1 ts c) by by split.
  destruct (together_aware _ _ _ _ _ _ _ H Hf Ht) as [Hsh _].
  eapply inv_unmarked; [by eapply together_inv|by eapply unmarked_marked, all_shown_clean].
Qed.

Lemma cycle_inv s s' : inv ∅ s -> cycle s s' -> inv ∅ s'.
Proof using UL.
  intros Hs (M & s1 & ts & c & Hm & Hrun & Ht & Hcl & Hsteps & Hf & ->).
  eapply period_ends; [apply Hm|by eapply mark_starts|exact Ht|exact Hsteps|exact Hf|exact Hcl].
Qed.

Lemma cycles_inv s s' : inv ∅ s -> rtc cycle s s' -> inv ∅ s'.
Proof using UL.
  intros Hs H. revert Hs. induction H as [|s s1 s2 H1 _ IH]; [done|]. intros Hs. by eapply IH, cycle_inv.
Qed.

(** C5: the cleaner's cycles.  After any number of cycles in which no thread
    used a key that was being cleaned, the cleaner marks and the threads of the
    agent run again (handlers, new threads, the profiler thread, the erasing):
    in every interleaving nothing throws, is undefined or races through
    [operator[]], all threads return,
    and when the marked keys have been erased no mark is left, so that the next
    cycle begins as this one did. *)
Theorem cleaner_cycles_safe s s' M s1 ts c :
  inv ∅ s -> rtc cycle s s' -> may_mark M s' -> run (zoom storage_L mark_for_clean) s' = Val tt s1 ->
  may_run M s1 ts -> rtc tstep (start s1 ts) c ->
  prof_wf c.1 /\ ~ undefined_in c /\ ~ races_in c /\ (forall e, ~ throws_in c e) /\
  inevitably tstep Interleaving.finished c /\
  (Interleaving.finished c -> cleans ts -> marked (storage_ c.1) = ∅ /\ inv ∅ c.1).
Proof.
  intros Hs Hcy Hm Hrun Ht Hsteps. pose proof (mk_none _ _ Hm) as HM.
  pose proof (mark_starts _ _ _ (cycles_inv _ _ Hs Hcy) Hm Hrun) as Hs1. pose proof Ht as [Hc Hr Htr Hts].
  assert (H : together opts M fuel s1 ts c) by by split.
  destruct (together_safe _ _ _ _ _ _ H) as (H1 & H2 & H3 & H4).
  split_and!; [apply (together_inv _ _ _ _ _ _ H)|done..|]. intros Hf Hcl.
  pose proof (period_ends M s1 ts c HM Hs1 Ht Hsteps Hf Hcl) as Hi. split; [by apply marked_none|done].
Qed.
End cycles.

(** ** Example: two cycles *)

Section demo.
Local Existing Instance demo_cache.
Local Existing Instance demo_unwind.
Local Existing Instance tick_clock.

(** Coroutine 1 exists; it is marked, and erased while coroutine 2 lives; then 2
    is, while coroutine 3 is created.  The profiler thread runs all the time. *)
Definition cycles_begin : Profiler := lset prof_active_L true demo_created.

Definition marked_now (s : Profiler) : Profiler := after (zoom storage_L mark_for_clean) s.

Definition first_calls : list (role * list call) :=
  [(MkRole false false ∅, [Handle 7 (HCreated 2); Handle 7 (HSuspended (Some [5]) 2); Handle 7 (HCompleted 2)]);
   (MkRole true false ∅, [RunProfiler 1]);
   (MkRole false true ∅, [Clean])].
Definition second_calls : list (role * list call) :=
  [(MkRole false false ∅, [Handle 7 (HCreated 3)]);
   (MkRole true false ∅, [RunProfiler 1]);
   (MkRole false true ∅, [Clean])].

Definition rounds (n : nat) : list nat :=
  concat (replicate 4 [0; 1; 2]%nat) ++ concat (replicate 2 [0; 1]%nat) ++ replicate n 0%nat.

Definition first_end : config Profiler unit :=
  executed (rounds 41) (start_threads demo_opts 5 (marked_now cycles_begin) first_calls).
Definition second_end : config Profiler unit :=
  executed (rounds 2) (start_threads demo_opts 5 (marked_now first_end.1) second_calls).

Lemma cycles_begin_inv : inv ∅ cycles_begin.
Proof.
  apply inv_active, inv_start; [apply demo_created_wf|constructor|vm_compute; reflexivity].
Qed.

(** The conditions, as they are decided. *)
Lemma may_mark_by M s :
  NOT_FOUND ∉ M -> present (storage_ s) ⊆ M ->
  map_Forall (fun _ l => current_coroutine_id l ∉ M) (locals_ s) ->
  map_Forall (fun _ th => 0 < current_traces th -> hash_pthread (th_id th) ∉ M) (cells (thread_heap (jvm_ s))) ->
  Forall (fun r => raw_coroutine_id r ∉ M) (CL.list_ (raw_list_ (storage_ s))) -> may_mark M s.
Proof.
  intros HM Hp Hl Ht Hr. split; [done|done| | |done].
  - intros self. unfold get_coroutine_of, get_locals. destruct (locals_ s !! self) as [l|] eqn:He; [|exact HM].
    by apply (Hl self l).
  - intros l th Hth Hc. apply (Ht l th Hth). lia.
Qed.

Ltac decided := apply (bool_decide_eq_true_1 _); vm_compute; reflexivity.

Lemma first_marked : may_mark {[1]} cycles_begin.
Proof. apply may_mark_by; decided. Qed.

Lemma demo_profiler_pre M k : calls_pre demo_opts M (MkRole true false ∅) k [RunProfiler 1].
Proof. split; [|done]. split; [done|apply demo_sampler_ok]. Qed.

Lemma first_may_run : may_run demo_opts {[1]} (marked_now cycles_begin) first_calls.
Proof.
  split; [unfold at_most_one; simpl; lia|unfold at_most_one; simpl; lia|simpl; repeat constructor; set_solver|].
  apply list.Forall_cons; split; [|apply list.Forall_cons; split; [|constructor; [|constructor]]].
  - split; [decided|]. split; [split; [decided|]|by split; [decided|]].
    intros ms [= <-]. constructor; [apply demo_answered|constructor].
  - apply demo_profiler_pre.
  - by split; [decided|].
Qed.

Lemma first_cycle : cycle demo_opts 5 cycles_begin first_end.1.
Proof.
  exists {[1]}, (marked_now cycles_begin), first_calls, first_end.
  split; [exact first_marked|]. split; [vm_compute; reflexivity|]. split; [exact first_may_run|]. split.
  - eexists. split; [right; right; left; reflexivity|by left].
  - split; [apply executed_reached; vm_compute; reflexivity|].
    split; [apply all_returned_finished; vm_compute; reflexivity|done].
Qed.

Lemma second_may_run : may_run demo_opts {[2]} (marked_now first_end.1) second_calls.
Proof.
  split; [unfold at_most_one; simpl; lia|unfold at_most_one; simpl; lia|simpl; repeat constructor; set_solver|].
  apply list.Forall_cons; split; [by split; [decided|]|constructor; [|constructor; [|constructor]]].
  - apply demo_profiler_pre.
  - by split; [decided|].
Qed.

Lemma cleaner_cycles_safe_witness :
  prof_wf second_end.1 /\ marked (storage_ second_end.1) = ∅.
Proof.
  destruct (cleaner_cycles_safe demo_opts 5 cycles_begin first_end.1 {[2]} (marked_now first_end.1) second_calls second_end)
    as (Hwf & _ & _ & _ & _ & Hend).
  - exact cycles_begin_inv.
  - apply rtc_once, first_cycle.
  - apply may_mark_by; decided.
  - vm_compute. reflexivity.
  - exact second_may_run.
  - apply executed_reached. vm_compute. reflexivity.
  - split; [exact Hwf|]. apply Hend.
    + apply all_returned_finished. vm_compute. reflexivity.
    + eexists. split; [right; right; left; reflexivity|by left].
Defined.
End demo.
