(* ===== verification/AgentThreads.v ===== *)
(** * The agent's lock (agent.cpp)

    The native methods and the collection callbacks run on any thread of the
    application, under the shared lock of agent.cpp; [Agent_OnUnload] takes the
    lock exclusively and destroys the profiler.  The profiler thread and the
    cleaner are detached and never take the lock; nor does the callback
    [ThreadStart].  The machine below has the threads with what each does, the
    lock, and the process; a step takes or releases the lock, or is one action
    of an entry point, of a callback or of a detached thread.  Calls of one thread are in order; the threads interleave action by
    action. *)

From S2P Require Import Prelude ConcurrentList ConcurrentMap TraceTime TraceModel TraceStorage.
From S2P Require Import StorageSafety StorageSpec StorageCycle Interleaving StorageThreads.
From S2P Require Import StorageMethods StorageParallel Perfetto SuspensionPlot Jvm Profiler.
From S2P Require Import ProfilerSafety ProfilerHandlers ProfilerTheorems ProfilerThreads.
From S2P Require Import ProfilerContent HandlersThreads HandlersParallel Unwind UnwindSpec SampledTraces ProfilerTurn.
From S2P Require Import TurnThreads HandlersTogether.
From S2P Require Import ArgsParser Memory VmStructs CodeCache Jni Instrumentation InstrumentationSpec.
From S2P Require Import Agent AgentSpec.
From Stdlib Require Import ZArith Lia.
From stdpp Require Import base gmap list strings numbers pretty.
Local Open Scope Z_scope.
Local Open Scope kt_scope.

(** The entry points that take the lock shared. *)
Inductive entry :=
  | TraceStart (id : Z)
  | TraceEnd (id : Z)
  | Created (id : Z)
  | Suspended (frames : option (list Z)) (id : Z)
  | Resumed (id : Z)
  | Completed (id : Z)
  | GcStart
  | GcFinish.

(** What a thread is asked to do: an entry point called on the thread [self], the
    callback [ThreadStart] of a new thread, which takes no lock, or the
    unloading. *)
Inductive request :=
  | Enter (self : Z) (e : entry)
  | Callback (self : Z) (bounds : Z * Z) (info : option string)
  | Unload.

Section machine.
Context `{CK : !SteadyClock} `{E : !Environment} {JN : JNI} (fuel : nat).

Definition entry_program (self : Z) (e : entry) : prog process unit :=
  match e with
  | TraceStart id => Java_traceStart self id
  | TraceEnd id => Java_traceEnd fuel self id
  | Created id => Java_coroutineCreated self id
  | Suspended frames id => Java_coroutineSuspend frames self id
  | Resumed id => Java_coroutineResumed self id
  | Completed id => Java_coroutineCompleted self id
  | GcStart => GarbageCollectionStart
  | GcFinish => GarbageCollectionFinish
  end.

(** A thread is outside the agent, or inside with the lock shared or exclusive
    and the rest of the entry point; or it runs without the lock: a detached
    thread, or a callback. *)
Inductive activity :=
  | Outside
  | Reading (p : prog process unit)
  | Writing (p : prog process unit)
  | Detached (p : prog process unit).

Record athread := MkThread { doing : activity; todo : list request }.

(** [std::shared_mutex]: how many hold it shared, and whether one holds it
    exclusively. *)
Record amutex := MkMutex { readers : nat; writer : bool }.

Record astate := MkState { a_process : process; a_mutex : amutex; a_threads : list athread }.

Definition set_thread (i : nat) (t : athread) (m : amutex) (s : process) (c : astate) : astate :=
  MkState s m (<[i := t]> (a_threads c)).

Inductive astep : astate -> astate -> Prop :=
  | lock_shared c i self e l :
      a_threads c !! i = Some (MkThread Outside (Enter self e :: l)) -> writer (a_mutex c) = false ->
      astep c (set_thread i (MkThread (Reading (entry_program self e)) l)
        (MkMutex (S (readers (a_mutex c))) false) (a_process c) c)
  | lock_exclusive c i l :
      a_threads c !! i = Some (MkThread Outside (Unload :: l)) -> a_mutex c = MkMutex 0 false ->
      astep c (set_thread i (MkThread (Writing Agent_OnUnload) l) (MkMutex 0 true) (a_process c) c)
  | call_unlocked c i self bounds info l :
      a_threads c !! i = Some (MkThread Outside (Callback self bounds info :: l)) ->
      astep c (set_thread i (MkThread (Detached (ThreadStart self bounds info)) l) (a_mutex c) (a_process c) c)
  | act_shared c i p p' s' l :
      a_threads c !! i = Some (MkThread (Reading p) l) -> pstep p (a_process c) = Some (Val p' s') ->
      astep c (set_thread i (MkThread (Reading p') l) (a_mutex c) s' c)
  | act_exclusive c i p p' s' l :
      a_threads c !! i = Some (MkThread (Writing p) l) -> pstep p (a_process c) = Some (Val p' s') ->
      astep c (set_thread i (MkThread (Writing p') l) (a_mutex c) s' c)
  | act_detached c i p p' s' l :
      a_threads c !! i = Some (MkThread (Detached p) l) -> pstep p (a_process c) = Some (Val p' s') ->
      astep c (set_thread i (MkThread (Detached p') l) (a_mutex c) s' c)
  | unlock_shared c i l :
      a_threads c !! i = Some (MkThread (Reading (Ret tt)) l) ->
      astep c (set_thread i (MkThread Outside l)
        (MkMutex (pred (readers (a_mutex c))) (writer (a_mutex c))) (a_process c) c)
  | unlock_exclusive c i l :
      a_threads c !! i = Some (MkThread (Writing (Ret tt)) l) ->
      astep c (set_thread i (MkThread Outside l) (MkMutex (readers (a_mutex c)) false) (a_process c) c)
  | return_unlocked c i l :
      a_threads c !! i = Some (MkThread (Detached (Ret tt)) l) ->
      astep c (set_thread i (MkThread Outside l) (a_mutex c) (a_process c) c).

(** A step is one thread's, and no thread appears or disappears. *)
Lemma step_thread c c' :
  astep c c' -> exists i t, a_threads c !! i = Some t /\ length (a_threads c') = length (a_threads c).
Proof. intros H. destruct H; eexists _, _; (split; [eassumption|]); apply length_insert. Qed.

Lemma steps_length c c' : rtc astep c c' -> length (a_threads c') = length (a_threads c).
Proof.
  induction 1 as [|c1 c2 c3 H1 _ IH]; [done|]. destruct (step_thread _ _ H1) as (i & t & _ & Hn). by rewrite IH.
Qed.

(** Every step uses up an action or a request of one thread, so every execution
    ends. *)
Definition goes_to (t' t : athread) : Prop :=
  match doing t with
  | Outside => exists q l, todo t = q :: l /\ todo t' = l
  | Reading p => t' = MkThread Outside (todo t) \/ exists p', rest p' p /\ t' = MkThread (Reading p') (todo t)
  | Writing p => t' = MkThread Outside (todo t) \/ exists p', rest p' p /\ t' = MkThread (Writing p') (todo t)
  | Detached p => t' = MkThread Outside (todo t) \/ exists p', rest p' p /\ t' = MkThread (Detached p') (todo t)
  end.

Lemma goes_to_inside d l : Acc goes_to (MkThread Outside l) -> Acc goes_to (MkThread d l).
Proof.
  intros Hout. destruct d as [|p|p|p]; [done|..]; induction (rest_wf p) as [p _ IHp]; constructor; cbn.
  all: by intros t' [->|(p' & Hp & ->)]; [|apply IHp].
Qed.

Lemma goes_to_wf t : Acc goes_to t.
Proof.
  destruct t as [d l]. apply goes_to_inside. clear d. induction l as [|q l IH].
  - constructor. by intros t' (q & l & H & _).
  - constructor. intros [d' l'] (q' & l2 & H & <-). cbn in H. simplify_eq. by apply goes_to_inside.
Qed.

Lemma astep_one_of c c' : astep c c' -> one_of goes_to (a_threads c') (a_threads c).
Proof.
  intros H. destruct H as [c i self e l Hi Hm|c i l Hi Hm|c i self b n l Hi|c i p p' s' l Hi Hp|c i p p' s' l Hi Hp
    |c i p p' s' l Hi Hp|c i l Hi|c i l Hi|c i l Hi]; eexists i, _, _; (split; [exact Hi|]); (split; [|reflexivity]);
    cbn; try apply pstep_rest in Hp; eauto.
Qed.

Lemma astep_terminates c : Acc (flip astep) c.
Proof.
  destruct c as [s m ts]. revert s m. induction (one_of_wf goes_to ts goes_to_wf) as [ts _ IH]. intros s m.
  constructor. intros [s' m' ts'] H. apply IH. by apply astep_one_of in H.
Qed.

(** The program a thread is inside of. *)
Definition inside (t : athread) : option (prog process unit) :=
  match doing t with Outside => None | Reading p | Writing p | Detached p => Some p end.

(** A thread whose next action throws, is undefined, or writes unguarded. *)
Definition fails (c : astate) : Prop :=
  exists i t p, a_threads c !! i = Some t /\ inside t = Some p /\
    (match pstep p (a_process c) with Some (Val _ _) | None => False | _ => True end \/
     unguarded p (a_process c) = true).

(** Every call has been made and has returned. *)
Definition all_done (c : astate) : Prop := Forall (fun t => t = MkThread Outside []) (a_threads c).

(** ** The lock *)

Definition is_reading (t : athread) : bool := match doing t with Reading _ => true | _ => false end.
Definition is_writing (t : athread) : bool := match doing t with Writing _ => true | _ => false end.

Definition count {A} (f : A -> bool) (l : list A) : nat := length (List.filter f l).

(** The mutex counts the threads inside, and a writer is alone. *)
Definition lock_ok (c : astate) : Prop :=
  readers (a_mutex c) = count is_reading (a_threads c) /\
  count is_writing (a_threads c) = (if writer (a_mutex c) then 1 else 0)%nat /\
  (writer (a_mutex c) = true -> readers (a_mutex c) = 0%nat).

Lemma count_insert {A} (f : A -> bool) (l : list A) i t t' :
  l !! i = Some t ->
  (count f (<[i := t']> l) + (if f t then 1 else 0) = count f l + (if f t' then 1 else 0))%nat.
Proof.
  unfold count. revert i. induction l as [|x l IH]; intros [|i] Hi; simpl in *; simplify_eq; [done..| |].
  - destruct (f t), (f t'); simpl; lia.
  - specialize (IH i Hi). destruct (f x); simpl; lia.
Qed.

Lemma count_lookup {A} (f : A -> bool) (l : list A) i t : l !! i = Some t -> f t = true -> (1 <= count f l)%nat.
Proof. apply filter_lookup. Qed.

Lemma count_zero {A} (f : A -> bool) (l : list A) i t : count f l = 0%nat -> l !! i = Some t -> f t = false.
Proof. intros H Hi. destruct (f t) eqn:Hf; [|done]. pose proof (count_lookup f l i t Hi Hf). lia. Qed.

(** What a step of thread [i] does to the counts. *)
Lemma count_step {A} (f : A -> bool) (l : list A) i t t' b b' n :
  l !! i = Some t -> f t = b -> f t' = b' -> count f l = n ->
  (count f (<[i := t']> l) + (if b then 1 else 0) = n + (if b' then 1 else 0))%nat.
Proof. intros Hi <- <- <-. by apply count_insert. Qed.

Lemma lock_step c c' : lock_ok c -> astep c c' -> lock_ok c'.
Proof.
  intros (Hr & Hw & Hx) Hs. unfold lock_ok. symmetry in Hr.
  destruct Hs as [c i self e l Hi Hm|c i l Hi Hm|c i self b n l Hi|c i p p' s' l Hi Hp|c i p p' s' l Hi Hp
    |c i p p' s' l Hi Hp|c i l Hi|c i l Hi|c i l Hi];
    unfold set_thread; cbn [a_mutex a_threads readers writer];
    match goal with |- context [<[i := ?t]> _] =>
      pose proof (count_step is_reading _ i _ t _ _ _ Hi eq_refl eq_refl Hr) as H1;
      pose proof (count_step is_writing _ i _ t _ _ _ Hi eq_refl eq_refl Hw) as H2 end;
    cbn [is_reading is_writing doing] in H1, H2.
  - rewrite Hm in H2. split_and!; [lia|lia|done].
  - rewrite Hm in H1, H2; cbn [readers writer] in *. split_and!; [lia|lia|done].
  - split_and!; [lia|lia|done].
  - split_and!; [lia|lia|done].
  - split_and!; [lia|lia|done].
  - split_and!; [lia|lia|done].
  - pose proof (count_lookup is_reading _ i _ Hi eq_refl). split_and!; [lia|lia|]. intros Hwr. specialize (Hx Hwr). lia.
  - pose proof (count_lookup is_writing _ i _ Hi eq_refl).
    destruct (writer (a_mutex c)); [|lia]. split_and!; [lia|lia|done].
  - split_and!; [lia|lia|done].
Qed.

(** While a thread unloads, no other has the lock. *)
Definition lockless (t : athread) : Prop := is_reading t = false /\ is_writing t = false.

Lemma writer_alone c i p l j t :
  lock_ok c -> a_threads c !! i = Some (MkThread (Writing p) l) -> j <> i -> a_threads c !! j = Some t ->
  lockless t.
Proof.
  intros (Hr & Hw & Hx) Hi Hij Hj. pose proof (count_lookup is_writing _ i _ Hi eq_refl) as H1.
  destruct (writer (a_mutex c)); [|lia]. specialize (Hx eq_refl).
  assert (Hread : is_reading t = false) by (eapply count_zero; [by rewrite <- Hr, Hx|exact Hj]).
  destruct t as [[|q|q|q] l']; [done|done| |done]. exfalso. apply Hij.
  apply (at_most_one_index is_writing (a_threads c) j i (MkThread (Writing q) l') (MkThread (Writing p) l)); try done.
  unfold at_most_one. change (count is_writing (a_threads c) <= 1)%nat. lia.
Qed.
End machine.

(** ** Entry points *)

(** The profiler's handler an entry point calls. *)
Definition handler_of `{E : !Environment} (self : Z) (e : entry) : handler :=
  match e with
  | TraceStart id => HTraceStart (native_id self id)
  | TraceEnd id => HTraceEnd (native_id self id)
  | Created id => HCreated (native_id self id)
  | Suspended frames id => HSuspended frames (native_id self id)
  | Resumed id => HResumed (native_id self id)
  | Completed id => HCompleted (native_id self id)
  | GcStart => HGcStart
  | GcFinish => HGcFinish
  end.

Definition calls_of `{E : !Environment} (qs : list request) : list HandlersTogether.call :=
  omap (fun q => match q with
                 | Enter self e => Some (Handle self (handler_of self e))
                 | Callback self bounds info => Some (Start self bounds info)
                 | Unload => None
                 end) qs.

Section safety.
Context `{CK : !SteadyClock} `{E : !Environment} `{UL : !UsageLaws} {JN : JNI}.
Context `{CC : !CodeCacheAPI} `{LU : !Libunwind} `{SG : !Signals} (fuel : nat).
Context (a : Agent) (M : gset Z) (Hnone : NOT_FOUND ∉ M).
Implicit Types (s : Profiler) (w : list token) (c : astate).

#[local] Hint Extern 0 (Interference Profiler _) =>
  exact (profiler_interference M) : typeclass_instances.

(** The call of the profiler in an entry point. *)
Definition entry_body (opts : settings) (self : Z) (e : entry) : prog Profiler unit :=
  match e with
  | TraceStart id => traceStart self (native_id self id)
  | TraceEnd id => traceEnd opts fuel self (native_id self id);; mret tt
  | Created id => coroutineCreated self (native_id self id)
  | Suspended frames id => coroutineSuspended frames self (native_id self id)
  | Resumed id => coroutineResumed self (native_id self id)
  | Completed id => coroutineCompleted self (native_id self id)
  | GcStart => prof_gcStart
  | GcFinish => prof_gcFinish
  end.

Lemma entry_calls self e : entry_program fuel self e = with_profiler (fun opts => entry_body opts self e).
Proof. by destruct e. Qed.

(** What is true of a thread between two of its calls. *)
Definition ready_for (r : role) (qs : list request) : unit -> list token -> Profiler -> Prop :=
  fun _ w s => w = tokens r /\ exists k, aware M r k s /\ calls_pre (agent_settings a) M r k (calls_of qs).

Lemma rgs_undone (p : prog Profiler unit) w s (Q : unit -> list token -> Profiler -> Prop) :
  rgs (done_ p) w s (fun _ => Q tt) -> rgs p w s Q.
Proof.
  intros H. apply rgs_unbind in H. eapply rgs_mono; [|exact H]. intros [] w' s' [H1 Hh].
  apply (H1 s'); [done|exact Hh].
Qed.

Lemma rgs_entry r self e qs w s :
  ready_for r (Enter self e :: qs) tt w s ->
  rgs (entry_body (agent_settings a) self e) w s (ready_for r qs).
Proof.
  intros (-> & k & Hk & [Hc Hcs]).
  pose proof (rgs_perform (agent_settings a) M r k _ fuel s Hnone Hc Hk) as H.
  assert (HQ : rgs (perform (agent_settings a) fuel (Handle self (handler_of self e))) (tokens r) s
            (fun _ => ready_for r qs tt)).
  { eapply rgs_mono; [|exact H]. intros b w' s' [-> [_ Hk']]. split; [done|]. by eexists. }
  clear H Hk Hc. destruct e; cbn [entry_body handler_of perform handle] in *; try (by apply rgs_undone).
  apply rgs_bind. eapply rgs_mono; [|exact HQ]. intros b w' s' (-> & k' & Hk' & Hcs'). apply rgs_ret.
  intros s1 Hr _. split; [done|]. exists k'. split; [by eapply aware_rely|done].
Qed.

Lemma rgs_callback r self bounds info qs w s :
  ready_for r (Callback self bounds info :: qs) tt w s ->
  rgs (zoom jvm_L (addCurrentThread self bounds info)) w s (ready_for r qs).
Proof.
  intros (-> & k & Hk & [Hc Hcs]).
  pose proof (rgs_perform (agent_settings a) M r k _ fuel s Hnone Hc Hk) as H.
  apply rgs_undone. eapply rgs_mono; [|exact H]. intros b w' s' [-> [_ Hk']]. split; [done|]. by eexists.
Qed.

(** ** The invariant *)

Abbreviation here := (zoom profilers_L).
Abbreviation cell := (profiler_ a).

(** The rest of [Agent_OnUnload] after it has read [agent]. *)
Definition unload_rest : prog process unit := zoom agent_L (modify (fun _ => None));; destroy_agent a.

(** The thread's part of the profiler: the rest [q] of its handler, and what
    holds when it returns. *)
Definition works_on (r : role) (t : athread) (q : prog Profiler unit)
    (Q : unit -> list token -> Profiler -> Prop) : Prop :=
  match doing t with
  | Outside => q = Ret tt /\ Q = ready_for r (todo t)
  | Reading p =>
      (exists self e, p = entry_program fuel self e /\ q = Ret tt /\ Q = ready_for r (Enter self e :: todo t)) \/
      (p = here (at_ptr (Some cell) q) /\ Q = ready_for r (todo t))
  | Writing p => (p = Agent_OnUnload \/ p = unload_rest) /\ q = Ret tt /\ Q = ready_for r (todo t)
  | Detached p =>
      (exists self bounds info, p = ThreadStart self bounds info /\ q = Ret tt /\
         Q = ready_for r (Callback self bounds info :: todo t)) \/
      (p = here (at_ptr (Some cell) q) /\ Q = ready_for r (todo t))
  end.

Definition each_works (rs : list role) (ts : list athread) (qs : list (prog Profiler unit))
    (Qs : list (unit -> list token -> Profiler -> Prop)) : Prop :=
  forall i t, ts !! i = Some t -> exists r q Q,
    rs !! i = Some r /\ qs !! i = Some q /\ Qs !! i = Some Q /\ works_on r t q Q.

Definition alive (rs : list role) c : Prop :=
  agent (a_process c) = Some a /\ exists s qs Qs ws,
    cells (profilers (a_process c)) !! cell = Some s /\ pool_ok (s, qs) Qs ws /\
    each_works rs (a_threads c) qs Qs.

(** A thread that runs, or will run, without the lock. *)
Definition is_callback (q : request) : bool := match q with Callback _ _ _ => true | _ => false end.
Definition is_detached (t : athread) : bool :=
  match doing t with Detached _ => true | _ => existsb is_callback (todo t) end.

(** After the unloading has begun. *)
Definition waits_out (pr : process) (t : athread) : Prop :=
  is_detached t = false /\
  match doing t with
  | Outside => True
  | Reading p => (exists self e, p = entry_program fuel self e) \/ p = Ret tt
  | Writing p => p = Agent_OnUnload \/ p = Ret tt \/
      (is_Some (cells (profilers pr) !! cell) /\ (p = destroy_agent a \/ p = delete_profiler (Some cell)))
  | Detached _ => False
  end.

(** The profiler is destroyed, or a thread is destroying it. *)
Definition destroying (t : athread) : Prop :=
  exists p, doing t = Writing p /\ (p = destroy_agent a \/ p = delete_profiler (Some cell)).
Definition destroyed (pr : process) (ts : list athread) : Prop :=
  cells (profilers pr) !! cell = None \/ exists i t, ts !! i = Some t /\ destroying t.

Definition dead c : Prop :=
  agent (a_process c) = None /\ (forall i t, a_threads c !! i = Some t -> waits_out (a_process c) t) /\
  destroyed (a_process c) (a_threads c).

(** No thread runs without the lock, or no thread unloads. *)
Definition is_unload (q : request) : bool := match q with Unload => true | _ => false end.
Definition unloads (t : athread) : bool := is_writing t || existsb is_unload (todo t).
Definition no_race (ts : list athread) : Prop :=
  (forall i t, ts !! i = Some t -> is_detached t = false) \/ (forall i t, ts !! i = Some t -> unloads t = false).

Lemma waits_outside pr t : lockless t -> is_detached t = false -> waits_out pr t.
Proof. intros [H1 H2] H3. split; [done|]. by destruct t as [[| | |] l]. Qed.

(** A step of one thread, for a fact about each thread. *)
Lemma threads_insert {A} (ts : list A) (F F' : nat -> A -> Prop) i t :
  (forall j t, ts !! j = Some t -> F j t) -> F' i t ->
  (forall j t, j <> i -> ts !! j = Some t -> F j t -> F' j t) ->
  forall j t', <[i := t]> ts !! j = Some t' -> F' j t'.
Proof.
  intros H Ht Hj j t'. destruct (decide (i = j)) as [<-|Hij].
  - intros Hl. assert (Hi : (i < length ts)%nat) by (apply lookup_lt_Some in Hl; by rewrite length_insert in Hl).
    rewrite list_lookup_insert_eq in Hl by done. by simplify_eq.
  - rewrite list_lookup_insert_ne by done. auto.
Qed.

(** Thread [i] is now [t], works on [q] with [Q]; the others as before. *)
Lemma works_insert rs ts qs Qs i t r q Q :
  each_works rs ts qs Qs -> rs !! i = Some r -> is_Some (qs !! i) -> is_Some (Qs !! i) -> works_on r t q Q ->
  each_works rs (<[i := t]> ts) (<[i := q]> qs) (<[i := Q]> Qs).
Proof.
  intros H Hr [q0 Hq] [Q0 HQ] Hw. unfold each_works. eapply threads_insert; [exact H| |].
  - exists r, q, Q. rewrite !list_lookup_insert_eq by (by eapply lookup_lt_Some). done.
  - intros j t' Hj _ (r' & q' & Q' & H1 & H2 & H3 & H4). exists r', q', Q'.
    by rewrite !list_lookup_insert_ne by done.
Qed.

(** A thread that does not act on the profiler. *)
Lemma alive_thread rs c i t t' m :
  alive rs c -> a_threads c !! i = Some t -> (forall r q Q, works_on r t q Q -> works_on r t' q Q) ->
  alive rs (set_thread i t' m (a_process c) c).
Proof.
  intros [Ha (s & qs & Qs & ws & Hs & Hp & Ht)] Hi Hw. split; [done|].
  exists s, qs, Qs, ws. split; [done|]. split; [done|]. cbn [set_thread a_threads].
  destruct (Ht i t Hi) as (r & q & Q & H1 & H2 & H3 & H4).
  rewrite <- (list_insert_id qs i q H2), <- (list_insert_id Qs i Q H3).
  eapply works_insert; [exact Ht|exact H1|by eexists|by eexists|by apply Hw].
Qed.

(** The first action of an entry point reads [agent]. *)
Lemma entry_first self e pr :
  agent pr = Some a ->
  pstep (entry_program fuel self e) pr
    = Some (Val (here (at_ptr (Some cell) (entry_body (agent_settings a) self e))) pr).
Proof. intros Ha. rewrite entry_calls. unfold with_profiler. cbn. by rewrite Ha. Qed.

Lemma callback_first self bounds info pr :
  agent pr = Some a ->
  pstep (ThreadStart self bounds info) pr
    = Some (Val (here (at_ptr (Some cell) (zoom jvm_L (addCurrentThread self bounds info)))) pr).
Proof. intros Ha. cbn. by rewrite Ha. Qed.

(** An action of the handler is an action on the profiler's object. *)
Lemma handler_act {B} (g : Profiler -> bool) (f : Profiler -> res Profiler B) (k : B -> prog Profiler unit) (pr : process) s :
  cells (profilers pr) !! cell = Some s ->
  pstep (here (at_ptr (Some cell) (Atomic g f k))) pr =
    Some match f s with
         | Val b s' => Val (here (at_ptr (Some cell) (k b))) (lset profilers_L (hput cell s' (profilers pr)) pr)
         | Exc e s' => Exc e (lset profilers_L (hput cell s' (profilers pr)) pr)
         | Undef what => Undef what
         end.
Proof. intros Hs. cbn. rewrite Hs. cbn. by destruct (f s). Qed.

Lemma here_step (pr pr' : process) s qs Qs ws i (q : prog Profiler unit) (p' : prog process unit) :
  cells (profilers pr) !! cell = Some s -> pool_ok (s, qs) Qs ws -> qs !! i = Some q ->
  pstep (here (at_ptr (Some cell) q)) pr = Some (Val p' pr') ->
  exists s1 q' ws', p' = here (at_ptr (Some cell) q') /\ pr' = lset profilers_L (hput cell s1 (profilers pr)) pr /\
    pool_ok (s1, <[i := q']> qs) Qs ws'.
Proof.
  intros Hs Hp Hq Hstep. destruct q as [u|B g f k]; [done|]. rewrite (handler_act g f k _ _ Hs) in Hstep.
  destruct (f s) as [b s1| |] eqn:Hf; simplify_eq.
  destruct (pool_step (s, qs) (s1, <[i := k b]> qs) Qs ws Hp) as [ws' Hp'].
  { apply (tstep_intro s qs i _ _ _ Hq). cbn. by rewrite Hf. }
  by exists s1, (k b), ws'.
Qed.

(** A thread reads [agent] and begins with the program [q'] of the profiler. *)
Lemma alive_begins rs c i s qs Qs ws r q' Q Q' t' m :
  agent (a_process c) = Some a -> cells (profilers (a_process c)) !! cell = Some s -> pool_ok (s, qs) Qs ws ->
  each_works rs (a_threads c) qs Qs -> rs !! i = Some r -> qs !! i = Some (Ret tt) -> Qs !! i = Some Q ->
  (forall w, Q tt w s -> rgs q' w s Q') -> works_on r t' q' Q' ->
  alive rs (set_thread i t' m (a_process c) c).
Proof.
  intros Ha Hs Hp Ht H1 H2 H3 Hq Hw. split; [done|].
  exists s, (<[i := q']> qs), (<[i := Q']> Qs), ws. split; [done|]. split.
  - apply (pool_update (s, qs)); [done|by eexists|]. intros w Hwi Hh. cbn [fst] in *.
    destruct (pool_lookup _ _ _ _ _ Hp H2) as (w' & Q0 & Hw' & HQ' & _ & Hrg). simplify_eq.
    apply Hq. by apply (Hrg s).
  - eapply works_insert; [exact Ht|exact H1|by eexists|by eexists|exact Hw].
Qed.

(** A thread makes an action of its program of the profiler. *)
Lemma alive_acts rs c i s qs Qs ws r q Q p' (s' : process) t' m :
  agent (a_process c) = Some a -> cells (profilers (a_process c)) !! cell = Some s -> pool_ok (s, qs) Qs ws ->
  each_works rs (a_threads c) qs Qs -> rs !! i = Some r -> qs !! i = Some q -> Qs !! i = Some Q ->
  pstep (here (at_ptr (Some cell) q)) (a_process c) = Some (Val p' s') ->
  (forall q', p' = here (at_ptr (Some cell) q') -> works_on r t' q' Q) ->
  alive rs (set_thread i t' m s' c).
Proof.
  intros Ha Hs Hp Ht H1 H2 H3 Hstep Hw.
  destruct (here_step _ _ _ _ _ _ _ _ _ Hs Hp H2 Hstep) as (s1 & q' & ws' & -> & -> & Hp').
  split; [done|]. exists s1, (<[i := q']> qs), Qs, ws'. split; [apply lookup_insert_eq|]. split; [done|].
  rewrite <- (list_insert_id Qs i _ H3).
  eapply works_insert; [exact Ht|exact H1|by eexists|by eexists|by apply Hw].
Qed.

Lemma alive_act rs c i p p' (s' : process) l :
  alive rs c -> a_threads c !! i = Some (MkThread (Reading p) l) -> pstep p (a_process c) = Some (Val p' s') ->
  alive rs (set_thread i (MkThread (Reading p') l) (a_mutex c) s' c).
Proof.
  intros [Ha (s & qs & Qs & ws & Hs & Hp & Ht)] Hi Hstep.
  destruct (Ht i _ Hi) as (r & q & Q & H1 & H2 & H3 & [(self & e & -> & -> & ->)|[-> ->]]); cbn [doing todo] in *.
  - rewrite (entry_first self e _ Ha) in Hstep. simplify_eq.
    eapply alive_begins; [done..|intros w; apply rgs_entry|by right].
  - eapply alive_acts; [done..|]. intros q' Hq. by right.
Qed.

(** The same for a thread without the lock. *)
Lemma alive_detached rs c i p p' (s' : process) l :
  alive rs c -> a_threads c !! i = Some (MkThread (Detached p) l) -> pstep p (a_process c) = Some (Val p' s') ->
  alive rs (set_thread i (MkThread (Detached p') l) (a_mutex c) s' c).
Proof.
  intros [Ha (s & qs & Qs & ws & Hs & Hp & Ht)] Hi Hstep.
  destruct (Ht i _ Hi) as (r & q & Q & H1 & H2 & H3 & [(self & b & n & -> & -> & ->)|[-> ->]]); cbn [doing todo] in *.
  - rewrite (callback_first self b n _ Ha) in Hstep. simplify_eq.
    eapply alive_begins; [done..|intros w; apply rgs_callback|by right].
  - eapply alive_acts; [done..|]. intros q' Hq. by right.
Qed.

(** ** Steps *)

Lemma no_race_step c c' : no_race (a_threads c) -> astep fuel c c' -> no_race (a_threads c').
Proof.
  assert (H : forall i t t' m pr c, a_threads c !! i = Some t -> 
    (is_detached t = false -> is_detached t' = false) -> (unloads t = false -> unloads t' = false) -> no_race (a_threads c) ->
    no_race (a_threads (set_thread i t' m pr c))).
  { intros i t t' m pr c0 Hi Hd Hu [H|H]; [left|right]; (eapply (threads_insert _ (fun _ => _)); [exact H| |auto]).
    - cbn beta. eauto.
    - cbn beta. eauto. }
  intros Hn Hs. destruct Hs; (eapply H; [eassumption| | |exact Hn]); done.
Qed.

Lemma alive_step rs c c' :
  lock_ok c -> no_race (a_threads c) -> alive rs c -> astep fuel c c' -> alive rs c' \/ dead c'.
Proof.
  intros Hl Hn Hal Hs.
  destruct Hs as [c i self e l Hi Hm|c i l Hi Hm|c i self b n l Hi|c i p p' s' l Hi Hp|c i p p' s' l Hi Hp
    |c i p p' s' l Hi Hp|c i l Hi|c i l Hi|c i l Hi].
  - left. eapply alive_thread; [done|exact Hi|]. intros r q Q [-> ->]. left. by exists self, e.
  - left. eapply alive_thread; [done|exact Hi|]. intros r q Q [-> ->]. split; [by left|done].
  - left. eapply alive_thread; [done|exact Hi|]. intros r q Q [-> ->]. left. by exists self, b, n.
  - left. by eapply alive_act.
  - pose proof Hal as [Ha (s & qs & Qs & ws & Hs & _ & Ht)].
    destruct (Ht i _ Hi) as (r & q & Q & _ & _ & _ & [->| ->] & _).
    + left. cbn in Hp. rewrite Ha in Hp. simplify_eq. eapply alive_thread; [done|exact Hi|].
      intros r' q' Q' [_ Hq]. split; [by right|done].
    + right. cbn in Hp. simplify_eq. split; [done|]. cbn [set_thread a_threads a_process].
      destruct Hn as [Hd|Hu]; [|by specialize (Hu i _ Hi)]. split.
      * eapply (threads_insert _ (fun _ _ => True)); [done| |].
        -- split; [exact (Hd i _ Hi)|]. right. right. split; [by eexists|by left].
        -- intros j t Hj Htj _. eapply waits_outside; [by eapply writer_alone|by eapply Hd].
      * right. eexists i, _. split; [by eapply list_lookup_insert_eq, lookup_lt_Some|].
        eexists. split; [done|by left].
  - left. by eapply alive_detached.
  - left. eapply alive_thread; [done|exact Hi|]. intros r q Q [(self & e & Hp & _)|[Hp ->]].
    + rewrite entry_calls in Hp. done.
    + by destruct q as [[]|B g f k].
  - left. eapply alive_thread; [done|exact Hi|]. intros r q Q [[Hp|Hp] _]; discriminate Hp.
  - left. eapply alive_thread; [done|exact Hi|]. intros r q Q [(self & b & n & Hp & _)|[Hp ->]]; [discriminate Hp|].
    by destruct q as [[]|B g f k].
Qed.

Lemma entry_first_dead self e pr :
  agent pr = None -> pstep (entry_program fuel self e) pr = Some (Val (Ret tt) pr).
Proof. intros Ha. rewrite entry_calls. unfold with_profiler. cbn. by rewrite Ha. Qed.

(** A thread that does not destroy the profiler waits out. *)
Lemma dead_thread c i t0 t m :
  dead c -> a_threads c !! i = Some t0 -> ~ destroying t0 -> waits_out (a_process c) t ->
  dead (set_thread i t m (a_process c) c).
Proof.
  intros (Ha & Ht & Hd) Hi Hn Hw. split; [done|]. cbn [set_thread a_threads a_process]. split.
  - eapply (threads_insert _ (fun _ => waits_out (a_process c))); [exact Ht|done|auto].
  - destruct Hd as [Hd|(j & t' & Hj & Hd)]; [by left|right]. exists j, t'.
    rewrite list_lookup_insert_ne; [done|]. intros ->. by simplify_eq.
Qed.

(** The thread that unloads is alone, so it may change the process. *)
Lemma dead_unload c i p t l (pr : process) m :
  lock_ok c -> dead c -> a_threads c !! i = Some (MkThread (Writing p) l) -> agent pr = None -> waits_out pr t ->
  cells (profilers pr) !! cell = None \/ destroying t -> dead (set_thread i t m pr c).
Proof.
  intros Hl (_ & Ht & _) Hi Ha Hw Hd. split; [done|]. cbn [set_thread a_threads a_process]. split.
  - eapply (threads_insert _ (fun _ => waits_out (a_process c))); [exact Ht|done|].
    intros j t' Hj Htj Hw'. eapply waits_outside; [by eapply writer_alone|].
    apply Hw'.
  - destruct Hd as [Hd|Hd]; [by left|right]. eexists i, t.
    split; [by eapply list_lookup_insert_eq, lookup_lt_Some|done].
Qed.

Lemma destroy_first pr s :
  cells (profilers pr) !! cell = Some s ->
  pstep (destroy_agent a) pr = Some (Val (delete_profiler (Some cell))
    (lset profilers_L (hput cell (lset prof_active_L false s) (profilers pr)) pr)).
Proof. intros Hs. unfold destroy_agent. cbn. by rewrite Hs. Qed.

Lemma delete_first pr s :
  cells (profilers pr) !! cell = Some s ->
  pstep (delete_profiler (Some cell)) pr = Some (Val (Ret tt)
    (lset profilers_L (Heap (delete cell (cells (profilers pr))) (next (profilers pr))) pr)).
Proof. intros Hs. cbn. by rewrite Hs. Qed.

Lemma not_destroying (pr : process) d l :
  (forall p, d = Writing p -> p = Agent_OnUnload \/ p = Ret tt) -> ~ destroying (MkThread d l).
Proof.
  intros H (p & Hp & Hd).
  assert (Hs : pstep p (MkProcess (p_jni pr) false None None heap_empty) = Some (Undef "null pointer dereference") \/
               pstep p (MkProcess (p_jni pr) false None None heap_empty) = Some (Undef "double free")).
  { destruct Hd as [->| ->]; [left|right]; reflexivity. }
  destruct (H p Hp) as [->| ->]; destruct Hs as [Hs|Hs]; discriminate Hs.
Qed.

Lemma dead_step c c' : lock_ok c -> dead c -> astep fuel c c' -> dead c'.
Proof.
  intros Hl Hd Hs. pose proof Hd as (Ha & Ht & _).
  destruct Hs as [c i self e l Hi Hm|c i l Hi Hm|c i self b n l Hi|c i p p' s' l Hi Hp|c i p p' s' l Hi Hp
    |c i p p' s' l Hi Hp|c i l Hi|c i l Hi|c i l Hi]; destruct (Ht i _ Hi) as [Hdet Hw]; cbn [doing] in Hw.
  - eapply dead_thread; [done|exact Hi|by apply (not_destroying (a_process c))|]. split; [exact Hdet|].
    left. by exists self, e.
  - eapply dead_thread; [done|exact Hi|by apply (not_destroying (a_process c))|]. split; [exact Hdet|]. by left.
  - discriminate Hdet.
  - destruct Hw as [(self & e & ->)| ->]; [|done]. rewrite entry_first_dead in Hp by done. simplify_eq.
    eapply dead_thread; [done|exact Hi|by apply (not_destroying (a_process c))|]. split; [exact Hdet|]. by right.
  - destruct Hw as [->|[->|[[s Hs] [->| ->]]]]; [| done | |].
    + cbn in Hp. rewrite Ha in Hp. simplify_eq.
      eapply dead_thread; [done|exact Hi| |split; [exact Hdet|right; by left]].
      apply (not_destroying (a_process c)). intros p [= <-]. by left.
    + rewrite (destroy_first _ _ Hs) in Hp. simplify_eq.
      eapply dead_unload; [done|done|exact Hi|done|split; [exact Hdet|]|].
      * right. right. split; [|by right]. eexists. apply lookup_insert_eq.
      * right. eexists. split; [done|by right].
    + rewrite (delete_first _ _ Hs) in Hp. simplify_eq.
      eapply dead_unload; [done|done|exact Hi|done|split; [exact Hdet|]|].
      * right. by left.
      * left. apply lookup_delete_eq.
  - done.
  - eapply dead_thread; [done|exact Hi|by apply (not_destroying (a_process c))|by split].
  - eapply dead_thread; [done|exact Hi| |by split]. apply (not_destroying (a_process c)). intros p [= <-]. by right.
  - done.
Qed.

(** ** Safety *)

Definition safe_state (rs : list role) c : Prop :=
  lock_ok c /\ no_race (a_threads c) /\ (alive rs c \/ dead c).

Lemma safe_step rs c c' : safe_state rs c -> astep fuel c c' -> safe_state rs c'.
Proof.
  intros (Hl & Hn & H) Hs. split; [by eapply lock_step|]. split; [by eapply no_race_step|].
  destruct H as [H|H]; [by eapply alive_step|]. right. by eapply dead_step.
Qed.

Lemma safe_steps rs c c' : safe_state rs c -> rtc (astep fuel) c c' -> safe_state rs c'.
Proof. intros H Hs. revert H. induction Hs as [|c1 c2 c3 H1 _ IH]; [done|]. intros H. by eapply IH, safe_step. Qed.

(** What a thread that is inside does next: it returns or acts, guarded. *)
Definition goes_on (p : prog process unit) (pr : process) : Prop :=
  p = Ret tt \/ (exists p' pr', pstep p pr = Some (Val p' pr')) /\ unguarded p pr = false.

(** A handler at work on the profiler. *)
Lemma here_goes_on (pr : process) s qs Qs ws i (q : prog Profiler unit) :
  cells (profilers pr) !! cell = Some s -> pool_ok (s, qs) Qs ws -> qs !! i = Some q ->
  goes_on (here (at_ptr (Some cell) q)) pr.
Proof.
  intros Hs Hp Hq. destruct (pool_progress _ _ _ _ _ Hp Hq) as [[[] ->]|(q' & s' & Hstep)]; [by left|right].
  pose proof (pool_guarded _ _ _ _ _ Hp Hq) as Hg.
  destruct q as [|B g f k]; [done|]. split; [|cbn; by rewrite Hs].
  rewrite (handler_act g f k _ _ Hs). cbn in Hstep. destruct (f s); [|done..].
  by eexists _, _.
Qed.

Lemma alive_goes_on rs c i t p :
  alive rs c -> a_threads c !! i = Some t -> inside t = Some p -> goes_on p (a_process c).
Proof.
  intros [Ha (s & qs & Qs & ws & Hs & Hp & Ht)] Hi Hin. destruct (Ht i _ Hi) as (r & q & Q & H1 & H2 & H3 & Hw).
  unfold works_on in Hw. unfold inside in Hin. destruct (doing t) as [|p'|p'|p']; simplify_eq.
  - destruct Hw as [(self & e & -> & _)|[-> _]]; [|by eapply here_goes_on].
    right. split; [eexists _, _; by apply entry_first|by destruct e].
  - right. split; [destruct Hw as [[->| ->] _]; cbn; rewrite ?Ha; by eexists _, _|by destruct Hw as [[->| ->] _]].
  - destruct Hw as [(self & b & n & -> & _)|[-> _]]; [|by eapply here_goes_on].
    right. split; [eexists _, _; by apply callback_first|done].
Qed.

Lemma dead_goes_on c i t p :
  dead c -> a_threads c !! i = Some t -> inside t = Some p -> goes_on p (a_process c).
Proof.
  intros (Ha & Ht & _) Hi Hin. destruct (Ht i _ Hi) as [_ Hw]. unfold inside in Hin.
  destruct (doing t) as [|p'|p'|p']; simplify_eq; [| |done].
  - destruct Hw as [(self & e & ->)| ->]; [right|by left].
    split; [eexists _, _; by apply entry_first_dead|by destruct e].
  - destruct Hw as [->|[->|[[s Hs] [->| ->]]]]; [right|by left|right|right]; (split; [eexists _, _|cbn; by repeat case_match]).
    + cbn. by rewrite Ha.
    + by apply destroy_first with (s := s).
    + by apply delete_first with (s := s).
Qed.

Lemma safe_goes_on rs c i t p :
  safe_state rs c -> a_threads c !! i = Some t -> inside t = Some p -> goes_on p (a_process c).
Proof. intros (_ & _ & [H|H]); [by eapply alive_goes_on|by eapply dead_goes_on]. Qed.

Lemma safe_no_failure rs c : safe_state rs c -> ~ fails c.
Proof.
  intros Hs (i & t & p & Hi & Hin & Hf). destruct (safe_goes_on _ _ _ _ _ Hs Hi Hin) as [->|[(p' & pr' & H) Hg]]; [by destruct Hf|].
  rewrite H, Hg in Hf. by destruct Hf.
Qed.

Lemma search {A} (f : A -> bool) (l : list A) :
  (forall x, x ∈ l -> f x = true) \/ exists i x, l !! i = Some x /\ f x = false.
Proof.
  induction l as [|x l [IH|(i & y & Hi & Hy)]]; [by left; intros x Hx%elem_of_nil| |right; by exists (S i), y].
  destruct (f x) eqn:Hx; [left|right; by exists 0%nat, x]. by intros y [->|Hy]%elem_of_cons; auto.
Qed.

Lemma count_none {A} (f : A -> bool) (l : list A) : (forall x, x ∈ l -> f x = false) -> count f l = 0%nat.
Proof.
  unfold count. induction l as [|x l IH]; [done|]. intros H. simpl. rewrite (H x) by left.
  apply IH. intros y Hy. apply H. by right.
Qed.

Definition at_rest (t : athread) : bool := match doing t with Outside => true | _ => false end.
Definition no_more (t : athread) : bool := match todo t with [] => true | _ => false end.

(** Some thread can go on until all are done: the lock never blocks for ever. *)
Lemma safe_progress rs c : safe_state rs c -> all_done c \/ exists c', astep fuel c c'.
Proof.
  intros Hs. pose proof Hs as [(Hr & Hw & Hx) _].
  destruct (search at_rest (a_threads c)) as [Hout|(i & t & Hi & Ht)].
  - destruct (search no_more (a_threads c)) as [Hd|(i & [d l] & Hi & Ht)].
    + left. apply list.Forall_forall. intros [d l] Hin. pose proof (Hout _ Hin). pose proof (Hd _ Hin).
      by destruct d, l.
    + right. pose proof (Hout _ (list_elem_of_lookup_2 _ _ _ Hi)). destruct d as [| | |]; [|done..].
      destruct l as [|q l]; [done|].
      assert (Hno : forall t, t ∈ a_threads c -> lockless t).
      { intros t Hin. specialize (Hout t Hin). by destruct t as [[] ?]. }
      rewrite count_none in Hr by (intros; by apply Hno).
      rewrite count_none in Hw by (intros; by apply Hno).
      assert (Hm : a_mutex c = MkMutex 0 false) by (destruct (a_mutex c) as [n []]; cbn in *; [lia|by subst]).
      destruct q as [self e|self b n|].
      * eexists. eapply lock_shared; [exact Hi|by rewrite Hm].
      * eexists. by eapply call_unlocked.
      * eexists. eapply lock_exclusive; [exact Hi|exact Hm].
  - right. destruct t as [d l]. destruct (inside (MkThread d l)) as [p|] eqn:Hin; [|by destruct d].
    pose proof (safe_goes_on _ _ _ _ _ Hs Hi Hin) as [->|[(p' & pr' & H) _]];
      (destruct d as [|p1|p1|p1]; [done|cbn in Hin; simplify_eq..]); try done.
    + eexists. by eapply unlock_shared.
    + eexists. by eapply unlock_exclusive.
    + eexists. by eapply return_unlocked.
    + eexists. by eapply act_shared.
    + eexists. by eapply act_exclusive.
    + eexists. by eapply act_detached.
Qed.

(** ** The start *)

(** A thread of the application serves requests; a detached thread runs its own
    calls on the profiler, without the lock. *)
Inductive duty := Serves (qs : list request) | Runs (cs : list HandlersTogether.call).

Definition duty_calls (d : duty) : list HandlersTogether.call :=
  match d with Serves qs => calls_of qs | Runs cs => cs end.

Definition detached_program (cs : list HandlersTogether.call) : prog process unit :=
  here (at_ptr (Some cell) (thread_program (agent_settings a) fuel cs)).

Definition start_thread (d : duty) : athread :=
  match d with
  | Serves qs => MkThread Outside qs
  | Runs cs => MkThread (Detached (detached_program cs)) []
  end.

Definition start_agent (pr : process) (ts : list (role * duty)) : astate :=
  MkState pr (MkMutex 0 false) ((fun t => start_thread t.2) <$> ts).

Lemma start_lock pr ts : lock_ok (start_agent pr ts).
Proof.
  assert (H : forall t, t ∈ a_threads (start_agent pr ts) -> lockless t).
  { intros t. cbn [a_threads start_agent]. intros (d & -> & _)%list_elem_of_fmap. by destruct d as [r []]. }
  split; [|split; [|done]]; cbn [a_mutex start_agent readers writer]; by rewrite count_none by (intros; by apply H).
Qed.

Definition start_program (d : duty) : prog Profiler unit :=
  match d with Serves _ => Ret tt | Runs cs => thread_program (agent_settings a) fuel cs end.
Definition start_post (r : role) (d : duty) : unit -> list token -> Profiler -> Prop :=
  match d with Serves qs => ready_for r qs | Runs _ => ready_for r [] end.

Lemma start_rgs r d s :
  calls_pre (agent_settings a) M r (knows_at_first M r s) (duty_calls d) ->
  rgs (start_program d) (tokens r) s (start_post r d).
Proof.
  intros Hd. destruct d as [qs|cs]; cbn [start_program start_post duty_calls] in *.
  - apply rgs_ret. intros s1 Hr _. split; [done|]. exists (knows_at_first M r s).
    split; [eapply aware_rely; [exact Hr|apply aware_at_first]|done].
  - eapply rgs_mono; [|eapply rgs_thread_program; [done|exact Hd|apply aware_at_first]].
    intros [] w s' [-> [_ Hk]]. split; [done|]. by eexists.
Qed.

Lemma start_safe pr s (ts : list (role * duty)) :
  agent pr = Some a -> cells (profilers pr) !! cell = Some s -> inv M s ->
  at_most_one consumes ts.*1 -> at_most_one removes ts.*1 -> separate_traces ts.*1 ->
  no_race (a_threads (start_agent pr ts)) ->
  Forall (fun t => calls_pre (agent_settings a) M t.1 (knows_at_first M t.1 s) (duty_calls t.2)) ts ->
  safe_state ts.*1 (start_agent pr ts).
Proof.
  intros Ha HP Hinv Hc Hr Htr Hn Hts. split; [apply start_lock|]. split; [done|]. left. split; [done|].
  exists s, ((fun t => start_program t.2) <$> ts), ((fun t => start_post t.1 t.2) <$> ts), ((fun t => tokens t.1) <$> ts).
  split; [done|]. split.
  - unfold pool_ok; simpl. rewrite !length_fmap. split_and!; [done|done| |].
    + intros i p w Q Hp Hw HQ. rewrite list_lookup_fmap in Hp; rewrite list_lookup_fmap in Hw;
        rewrite list_lookup_fmap in HQ. destruct (ts !! i) as [[r d]|] eqn:Hi; simplify_eq/=.
      pose proof (Forall_lookup_1 _ _ _ _ Hts Hi) as Hok. cbn [fst snd] in Hok. split; [|by apply start_rgs].
      split; [done|]. intros t Ht. apply plain_tokens in Ht. by destruct t.
    + intros i j w u Hij Hw Hu. by apply (roles_apart M ts i j).
  - intros i t Hi. cbn [start_agent a_threads] in Hi. rewrite list_lookup_fmap in Hi.
    destruct (ts !! i) as [[r d]|] eqn:Hti; simplify_eq/=.
    exists r, (start_program d), (start_post r d). rewrite !list_lookup_fmap, Hti. split_and!; [done..|].
    destruct d; [done|by right].
Qed.

Lemma alive_profiler rs c i t :
  alive rs c -> a_threads c !! i = Some t -> exists s, cells (profilers (a_process c)) !! cell = Some s /\ prof_wf s.
Proof.
  intros [Ha (s & qs & Qs & ws & Hs & Hp & Ht)] Hi. exists s. split; [done|].
  destruct (Ht i t Hi) as (r & q & Q & _ & Hq & _).
  destruct (pool_lookup _ _ _ _ _ Hp Hq) as (w & Q' & _ & _ & [[Hwf _ _ _] _] & _). exact Hwf.
Qed.
End safety.

(** ** The agent's promise *)

(** A duty that is done under the lock, or in which the agent is unloaded. *)
Definition locked (d : duty) : bool :=
  match d with Serves qs => negb (existsb is_callback qs) | Runs _ => false end.
Definition unloading (d : duty) : bool := match d with Serves qs => existsb is_unload qs | Runs _ => false end.

Section promise.
Context `{CK : !SteadyClock} `{E : !Environment} `{UL : !UsageLaws} {JN : JNI}.
Context `{CC : !CodeCacheAPI} `{LU : !Libunwind} `{SG : !Signals} (fuel : nat).
Context (a : Agent) (M : gset Z).

Lemma start_no_race pr (ts : list (role * duty)) :
  Forall (fun t => locked t.2 = true) ts \/ Forall (fun t => unloading t.2 = false) ts ->
  no_race (a_threads (start_agent fuel a pr ts)).
Proof.
  intros [H|H]; [left|right]; intros i t Hi; cbn [start_agent a_threads] in Hi; rewrite list_lookup_fmap in Hi;
    destruct (ts !! i) as [[r d]|] eqn:Hti; simplify_eq/=; pose proof (Forall_lookup_1 _ _ _ _ H Hti) as Hd;
    destruct d; cbn in Hd |- *; try done.
  by apply negb_true_iff in Hd.
Qed.

(** C3: the agent under its lock.  From a loaded agent with a well-formed
    profiler, let any number of threads of the application call the entry points
    and unload the agent, or, if none unloads it, let also new threads register
    themselves, and detached threads run the profiler's loop and clean the storage, with
    the roles of the parallel handlers.  Then in every interleaving no thread
    throws, is undefined or races through [operator[]] and, however the execution goes on, all calls return:
    the lock blocks nobody for ever.  While a thread unloads, no other has the
    lock; while the agent is there, its profiler exists and is well-formed; and
    when all are done, an agent that was unloaded has destroyed its profiler. *)
Theorem agent_threads_safe pr s ts c :
  NOT_FOUND ∉ M -> agent pr = Some a -> profiler_of pr a = Some s -> inv M s ->
  at_most_one consumes ts.*1 -> at_most_one removes ts.*1 -> separate_traces ts.*1 ->
  Forall (fun t => locked t.2 = true) ts \/ Forall (fun t => unloading t.2 = false) ts ->
  Forall (fun t => calls_pre (agent_settings a) M t.1 (knows_at_first M t.1 s) (duty_calls t.2)) ts ->
  rtc (astep fuel) (start_agent fuel a pr ts) c ->
  ~ fails c /\ inevitably (astep fuel) all_done c /\
  (forall i t j u, a_threads c !! i = Some t -> is_writing t = true -> j <> i -> a_threads c !! j = Some u ->
     lockless u) /\
  (agent (a_process c) = Some a -> exists s', profiler_of (a_process c) a = Some s' /\ prof_wf s') /\
  (all_done c -> agent (a_process c) = Some a \/
     (agent (a_process c) = None /\ profiler_of (a_process c) a = None)).
Proof.
  intros HM Ha Hs Hinv Hc Hr Htr Hd Hts Hsteps.
  pose proof (safe_steps fuel a M HM _ _ _
    (start_safe fuel a M HM pr s ts Ha Hs Hinv Hc Hr Htr (start_no_race pr ts Hd) Hts) Hsteps) as Hsafe.
  split_and!; [by eapply safe_no_failure| | | |].
  - apply inevitably_intro; [apply astep_terminates|]. intros c' Hc'. eapply safe_progress.
    by eapply (safe_steps fuel a M HM).
  - intros i [d l] j u Hi Hw Hij Hj. destruct d as [| |p|]; try discriminate Hw.
    eapply writer_alone; [apply Hsafe|exact Hi|exact Hij|exact Hj].
  - intros Hag. destruct ts as [|t ts].
    + inversion Hsteps as [|? ? ? H1 _]; subst; [exists s; split; [done|apply Hinv]|].
      destruct (step_thread _ _ _ H1) as (i & t & Hi & _). cbn in Hi. by rewrite lookup_nil in Hi.
    + pose proof (steps_length _ _ _ Hsteps) as Hn.
      destruct (a_threads c) as [|u us] eqn:Hc0; [done|].
      destruct Hsafe as (_ & _ & [H|[H _]]); [|by rewrite H in Hag].
      apply (alive_profiler _ _ _ _ c 0 u H). by rewrite Hc0.
  - intros Hdone. destruct Hsafe as (_ & _ & [H|(H1 & _ & [H2|(i & t & Hi & p & Hp & _)])]); [left; apply H|by right|].
    pose proof (Forall_lookup_1 _ _ _ _ Hdone Hi) as Ht. cbn in Ht. by subst t.
Qed.

(** A detached thread of the agent: the cleaner, in the second half of its turn,
    or the profiler thread, at the head of its loop. *)
Definition detached_call (x : HandlersTogether.call) : Prop :=
  x = Clean \/ exists turns, x = RunProfiler (S turns).

(** C39: unloading while a detached thread sleeps.  The cleaner of the storage
    and the profiler thread are detached and take no lock: when [Agent_OnUnload]
    runs between the two halves of the cleaner's turn, or while the profiler
    thread sleeps, the thread's next action is on a profiler that was destroyed.
    That the flag [active_] was cleared before does not help: it is a member of
    the destroyed object. *)
Theorem cleaner_outlives_profiler pr s r r' x :
  agent pr = Some a -> profiler_of pr a = Some s -> detached_call x ->
  exists c, rtc (astep fuel) (start_agent fuel a pr [(r, Runs [x]); (r', Serves [Unload])]) c /\
    agent (a_process c) = None /\ fails c.
Proof.
  intros Ha Hs Hx. eexists. split; [|split].
  - eapply rtc_l; [eapply (lock_exclusive fuel _ 1); reflexivity|].
    eapply rtc_l; [eapply (act_exclusive fuel _ 1); [reflexivity|cbn; rewrite Ha; reflexivity]|].
    eapply rtc_l; [eapply (act_exclusive fuel _ 1); reflexivity|].
    eapply rtc_l; [eapply (act_exclusive fuel _ 1); [reflexivity|by apply destroy_first with (s := s)]|].
    eapply rtc_l; [eapply (act_exclusive fuel _ 1); [reflexivity|]|].
    { apply delete_first with (s := lset prof_active_L false s). cbn. apply lookup_insert_eq. }
    reflexivity.
  - reflexivity.
  - exists 0%nat. eexists _, _. split; [reflexivity|]. split; [reflexivity|].
    left. destruct Hx as [->|[turns ->]]; cbn; by rewrite lookup_delete_eq.
Qed.
End promise.

(** ** Executions *)

Section execution.
Context `{CK : !SteadyClock} `{E : !Environment} {JN : JNI} (fuel : nat).
Implicit Types c : astate.

(** The step of thread [i], if it has one. *)
Definition next_step (i : nat) c : option astate :=
  let go (k : prog process unit -> activity) p l :=
    match pstep p (a_process c) with
    | Some (Val p' s') => Some (set_thread i (MkThread (k p') l) (a_mutex c) s' c)
    | _ => None
    end in
  match a_threads c !! i with
  | None => None
  | Some (MkThread Outside l) =>
      match l, a_mutex c with
      | Callback self bounds info :: l, _ =>
          Some (set_thread i (MkThread (Detached (ThreadStart self bounds info)) l) (a_mutex c) (a_process c) c)
      | Enter self e :: l, MkMutex n false =>
          Some (set_thread i (MkThread (Reading (entry_program fuel self e)) l) (MkMutex (S n) false) (a_process c) c)
      | Unload :: l, MkMutex 0 false =>
          Some (set_thread i (MkThread (Writing Agent_OnUnload) l) (MkMutex 0 true) (a_process c) c)
      | _, _ => None
      end
  | Some (MkThread (Reading (Ret _)) l) =>
      Some (set_thread i (MkThread Outside l)
        (MkMutex (pred (readers (a_mutex c))) (writer (a_mutex c))) (a_process c) c)
  | Some (MkThread (Writing (Ret _)) l) =>
      Some (set_thread i (MkThread Outside l) (MkMutex (readers (a_mutex c)) false) (a_process c) c)
  | Some (MkThread (Detached (Ret _)) l) =>
      Some (set_thread i (MkThread Outside l) (a_mutex c) (a_process c) c)
  | Some (MkThread (Reading p) l) => go Reading p l
  | Some (MkThread (Writing p) l) => go Writing p l
  | Some (MkThread (Detached p) l) => go Detached p l
  end.

Lemma next_step_sound i c c' : next_step i c = Some c' -> astep fuel c c'.
Proof.
  unfold next_step. destruct (a_threads c !! i) as [[d l]|] eqn:Hi; [|done].
  destruct d as [|p|p|p].
  - destruct l as [|[self e|self b n|] l]; [done| |intros [= <-]; by apply call_unlocked|];
      destruct (a_mutex c) as [[|n] []] eqn:Hm; try done; intros [= <-].
    + pose proof (lock_shared fuel c i self e l Hi) as H. rewrite Hm in H. by apply H.
    + pose proof (lock_shared fuel c i self e l Hi) as H. rewrite Hm in H. by apply H.
    + by apply lock_exclusive.
  - destruct p as [[]|B g f k]; [intros [= <-]; by apply unlock_shared|].
    destruct (pstep _ _) as [[p' s'| |]|] eqn:Hp; try done. intros [= <-]. by eapply act_shared.
  - destruct p as [[]|B g f k]; [intros [= <-]; by apply unlock_exclusive|].
    destruct (pstep _ _) as [[p' s'| |]|] eqn:Hp; try done. intros [= <-]. by eapply act_exclusive.
  - destruct p as [[]|B g f k]; [intros [= <-]; by apply return_unlocked|].
    destruct (pstep _ _) as [[p' s'| |]|] eqn:Hp; try done. intros [= <-]. by eapply act_detached.
Qed.

(** The threads in the order of a schedule; one that waits is passed over. *)
Fixpoint execute (schedule : list nat) c : astate :=
  match schedule with
  | [] => c
  | i :: schedule => execute schedule (default c (next_step i c))
  end.

Lemma execute_reached schedule c : rtc (astep fuel) c (execute schedule c).
Proof.
  revert c. induction schedule as [|i schedule IH]; intros c; [done|]. cbn [execute].
  destruct (next_step i c) as [c'|] eqn:Hc; [|apply IH]. eapply rtc_l; [by eapply next_step_sound|apply IH].
Qed.

Definition done_b (c : astate) : bool :=
  forallb (fun t => match t with MkThread Outside [] => true | _ => false end) (a_threads c).

Lemma done_b_done c : done_b c = true -> all_done c.
Proof.
  unfold done_b. rewrite forallb_forall. intros H. apply list.Forall_forall. intros t Ht.
  specialize (H t (proj1 (list_elem_of_In _ _) Ht)). by destruct t as [[] []].
Qed.
End execution.

Section demo.
Local Existing Instance demo_cache.
Local Existing Instance demo_unwind.
Local Existing Instance tick_clock.
Local Existing Instance demo_jni.

Definition running_process : process :=
  MkProcess demo_jvm_state true (Some demo_agent) (Some 0%nat) (Heap {[ 0%nat := marked_profiler ]} 1).

(** The main thread traces a call and unloads the agent, while another thread
    creates and suspends a coroutine and the collector runs. *)
Definition demo_duties : list (role * duty) :=
  [(MkRole false false {[1007]}, Serves [Enter 7 (TraceStart (-2)); Enter 7 (TraceEnd (-2)); Unload; Enter 7 GcStart]);
   (MkRole false false ∅, Serves [Enter 8 (Created 2); Enter 8 (Suspended (Some [5]) 2); Enter 8 (Resumed 2)]);
   (MkRole false true ∅, Serves [Enter 9 GcStart; Enter 9 GcFinish])].

Definition demo_end : astate :=
  execute 5 (concat (replicate 150 [0; 1; 2]%nat)) (start_agent 5 demo_agent running_process demo_duties).

Lemma running_profiler : profiler_of running_process demo_agent = Some marked_profiler.
Proof. unfold profiler_of, running_process. cbn [profilers cells]. apply lookup_insert_eq. Qed.

Lemma running_agent : agent running_process = Some demo_agent.
Proof. reflexivity. Qed.

Definition is_loaded (s : process) : bool := match agent s with Some _ => true | None => false end.

Lemma is_loaded_None s : is_loaded s = false -> agent s = None.
Proof. unfold is_loaded. by destruct (agent s). Qed.

Lemma agent_threads_safe_witness :
  ~ fails demo_end /\ agent (a_process demo_end) = None /\ profiler_of (a_process demo_end) demo_agent = None.
Proof.
  assert (Hag : agent (a_process demo_end) = None) by (apply is_loaded_None; vm_compute; reflexivity).
  destruct (agent_threads_safe 5 demo_agent {[1]} running_process marked_profiler demo_duties demo_end)
    as (Hf & _ & _ & _ & Hd).
  - by apply not_elem_of_singleton.
  - exact running_agent.
  - exact running_profiler.
  - exact marked_profiler_inv.
  - unfold at_most_one; simpl; lia.
  - unfold at_most_one; simpl; lia.
  - clear Hag. simpl. repeat constructor; set_solver.
  - left. repeat constructor.
  - repeat constructor; try (apply (bool_decide_eq_true_1 _); vm_compute; reflexivity).
    intros ms [= <-]. constructor; [apply demo_answered|constructor].
  - apply execute_reached.
  - split; [exact Hf|]. split; [exact Hag|].
    destruct (Hd (done_b_done _ (eq_refl true <: done_b demo_end = true))) as [H|[_ H]]; [|exact H].
    rewrite Hag in H. discriminate H.
Defined.

Lemma cleaner_outlives_profiler_witness :
  exists c, rtc (astep 5) (start_agent 5 demo_agent running_process
    [(MkRole false true ∅, Runs [Clean]); (MkRole false false ∅, Serves [Unload])]) c /\ fails c.
Proof.
  destruct (cleaner_outlives_profiler 5 demo_agent running_process marked_profiler (MkRole false true ∅)
    (MkRole false false ∅) Clean running_agent running_profiler (or_introl eq_refl)) as (c & H1 & _ & H2). by exists c.
Defined.
End demo.
